(* ===== verification/_CoqProject ===== *)
-Q . S2P
Prelude.v
StablePq.v
PriorityQueue.v
IndexedPriorityQueue.v
Scheduler.v
KeyRegistry.v
Simulation.v
Runtime.v
Stepping.v
SeqExecutor.v
Engine.v
Queues.v
Av1.v
Hevc.v
F32.v
F32Facts.v
StreamSocket.v
Shards.v
FrameDeadlines.v
VideoStats.v
Reassembly.v
Delivery.v
StreamOrder.v
SimRng.v
Airtime.v
Edca.v
MacData.v
AccessPoint.v
EdcaFacts.v
ApFrames.v
MacSafety.v
Aggregation.v
QueueInv.v
MacSystem.v
MacInit.v
Conservation.v
MacTheorems.v
OnAir.v
MacDemo.v
MpscQueue.v
MpscFacts.v
F64Ops.v
Gcc.v
GccFacts.v
Nada.v
NadaFacts.v
Abr.v
AbrFacts.v
Link.v
LinkFacts.v
Keyframe.v
Client.v
ClientFacts.v
KeepsUp.v
Channel.v
Task.v
TaskFacts.v
SyncCell.v
Slot.v
Sinks.v
FrameTable.v
FrameFacts.v
Server.v
ServerFacts.v
EndToEnd.v
Station.v
StationFacts.v
