(* ===== verification/Prelude.v ===== *)
(** * A discrete-event simulator of virtual reality over Wi-Fi

    The repository is a discrete-event simulation engine (a fork of asynchronix,
    [src/asynchronix/src]) and a simulator written on it of cloud virtual reality over
    Wi-Fi 7 ([src/asynchronix/examples/lib]).  This library models the core of both and
    proves the properties that make them correct.

    ** The program

    The engine keeps a queue of actions ordered by time and by the mailbox they address.
    A step takes the earliest time, collects all actions of that time and runs them as
    tasks of an executor; tasks send messages to mailboxes, and every model's task
    receives the messages of its mailbox one at a time and runs the addressed method,
    which can schedule more actions.

    The simulator has a video server, which chooses a bitrate ([BitrateManager], fed by
    the client's statistics through congestion controllers), encodes frames, cuts them in
    shards and sends them; an access point with stations, which queues packets per station
    and access category, contends for the links and sends aggregates of packets; and a
    client that puts the shards together again, drops frames at their deadline and
    reports statistics.  Parsers cut the encoders' output in frames; every random draw
    comes from seeded streams.

    ** Files, by component

    This file holds what they share: the outcomes of Rust expressions, machine integers,
    the trait [Ord], and the tactics [ret_step] and [inv_ret].

    Engine ([src/asynchronix/src]):
    - [StablePq.v]: class [StablePQ], what the two priority queues promise their clients.
    - [PriorityQueue.v] (util/priority_queue.rs), [IndexedPriorityQueue.v]
      (util/indexed_priority_queue.rs): the queues, with instances of the class.
    - [Scheduler.v] (simulation/scheduler.rs): class [TaiTime] for timestamps, actions,
      their keys as shared flags, scheduling.  [KeyRegistry.v] (grpc/key_registry.rs).
    - [Simulation.v], [Runtime.v], [Stepping.v] (simulation.rs): collecting the actions of a
      step; models, mailboxes and tasks as a step relation with every interleaving;
      [step], [step_by], [step_until].  Class [Executor] of [Stepping.v] is what the engine
      needs of an executor; [SeqExecutor.v] has one that runs.
    - [MpscQueue.v], [MpscFacts.v] (channel/queue.rs): the lock-free mailbox queue, every
      atomic access one step.  [Channel.v] (channel.rs): mailboxes with the senders that wait
      for room.  [Task.v], [TaskFacts.v] (executor/task): the life of a task and of the handles
      that point to it, every access to its state word one step.
    - [SyncCell.v] (util/sync_cell.rs, time/monotonic_time.rs): the cell that holds the time.
      [Slot.v] (util/slot.rs): the slots that carry replies.  [Sinks.v] (ports/sink,
      executor/mt_executor/injector.rs): event buffers and slots, and the injector of tasks.
    - [Engine.v], [Queues.v]: the theorems, with a simulation that is evaluated.

    Simulator ([src/asynchronix/examples/lib]):
    - [F32.v], [F32Facts.v], [Airtime.v] (module [F64]), [F64Ops.v]: the floating point that
      the code uses, as IEEE 754 binary32 and binary64, bit-exact.
    - [Av1.v], [Hevc.v] (mod.rs): the two parsers of encoded video.
    - [StreamSocket.v] (alvr_stream_socket.rs): shards, the channel, the sender, reassembly,
      deadlines, statistics, the ordered receiver.  [Shards.v], [FrameDeadlines.v],
      [VideoStats.v], [Reassembly.v], [Delivery.v], [StreamOrder.v]: their theorems.
    - [SimRng.v] (sim_rng.rs): seeded streams.
    - [Airtime.v] (mod.rs): the duration of transmissions.  [Edca.v], [MacData.v],
      [AccessPoint.v] (models_mm1k.rs): contention, the access point's state and handlers.
      [EdcaFacts.v], [ApFrames.v], [MacSafety.v], [Aggregation.v], [QueueInv.v],
      [MacSystem.v], [MacInit.v], [Conservation.v], [MacTheorems.v], [OnAir.v], [MacDemo.v]: their
      theorems, over the step relation of [MacSystem.v], and a small network that runs.
    - [Gcc.v], [Nada.v] (gcc_nada_estimator.rs, nada_report.rs): the congestion
      controllers.  [GccFacts.v], [NadaFacts.v]: their theorems.
    - [Abr.v] (models_XR.rs): the bitrate manager and the handlers that drive it.
      [AbrFacts.v]: its theorems.
    - [Link.v], [LinkFacts.v] (models_mm1k.rs): the emulated link between the hosts.
      [Keyframe.v] (models_XR.rs): the search for key frames in encoded video.
    - [Client.v], [ClientFacts.v], [KeepsUp.v] (models_XR.rs, alvr_statistics.rs): the headset.
    - [FrameTable.v], [FrameFacts.v] (alvr_stream_socket.rs): the sizes and the contents of frames.
    - [Server.v], [ServerFacts.v] (models_XR.rs, alvr_statistics.rs): the streaming server, its
      sessions and statistics.  [EndToEnd.v]: server and client over a network that loses,
      delays, reorders and repeats packets.
    - [Station.v], [StationFacts.v] (models_XR.rs, models_mm1k.rs): the stations between hosts and
      access point, their movement and background traffic, traffic sources and sinks.

    ** What is proved

    - Engine, for an executor of class [Executor] (every run of it ends, at rest or in a
      panic: that a single step ends is assumed of it): a run to a target time ends with every
      action up to it done, and the clock there, or panics, in the queue or in a scheduling call
      of model code; a step runs exactly the live actions of the earliest time, and where these
      send to their own mailbox only, in the order they were scheduled for each mailbox;
      scheduling, cancelling, periods and rejected requests do what they say.
    - Queues, mailboxes and tasks: both priority queues refine their abstract specification; the
      mailbox queue refines a bounded FIFO queue under every interleaving, without two accesses
      to one message at a time; a channel of capacity two or more whose receiver sleeps is not
      stuck (with a capacity of one it can be); a task's future and output are never read after
      they were dropped nor dropped twice, and a wake-up is followed by a poll; a reply slot is
      freed once and its value read or dropped once; a read of the clock is not torn.
    - Streams: whatever the order, loss and duplication of shards, a packet handed over is
      one that was sent, and a packet all of whose shards arrive in time is handed over;
      sweeps, prefixes, sending and the order of packets are exact.
    - Server and client, over any number of sessions with video frames below 16 MiB each: a frame that
      a newly set up headset shows from packets of the server's latest session is, byte for byte,
      a frame that the server sent in it (packets of two sessions, whose numbers are the same, can
      be put together: [KeepsUp.v] has an example); the shards of a frame partition it, with the
      exact number of them although the code computes it in binary32; a report finds the frame
      it is about; server, client and link never stop while they have work.  Frame tables and
      generated contents are exact; the link's token buckets decide as the formula says.
    - Access point, in every reachable state: it does not stall, a link carries at most one
      aggregate, contention happens on idle links only, queues are bounded, aggregates on air are
      within their limits; back-off, slots and virtual collisions follow the standard's
      rules; a slot service conserves packets when the numbers of those that compete differ, and
      [XRSIM_DL_ID_LEGACY] is off.
    - Stations: packets pass in order, numbered consecutively, within 10 ns; a station hands on the
      aggregates addressed to it only; a background source never stops.
    - Congestion control and bitrate: the estimators never overflow and keep their limits
      (GCC's maximum apart, which a theorem shows not to hold); the ladder search is exact;
      NeSt-VR and EVeREst stay on their ladder; the watchdog steps down.
    - Parsers and random streams: parsing inverts encoding and does not depend on how the
      bytes were cut; every stream has full period.

    ** How Rust is modelled

    A fallible or panicking expression has type [outcome]; [Panic] is a failed assertion, an
    [unwrap] of nothing, an index out of range, or an overflow of a machine integer where the
    code does not ask for wrapping.  The simulator is run in release builds, where an
    overflow wraps instead: wherever the model does not panic, both builds agree with it.
    Shared objects (action keys, packet buffers, slots) are kept in a store with their
    index as reference where aliasing matters.  The iteration order of hash maps is a
    parameter ([hm_iter]) that is any permutation.  Counters of A-MPDUs and packets and statistics in
    the access point, some of them 32 bits wide in the code, are unbounded.

    Parameters, for code outside the repository or left open by the standard library: time
    stamps of the crate tai_time (class [TaiTime], with its documented laws), draws of the
    crate rand ([Rand], [sample_unit]), the encodings of the crate bincode, the searches of the
    crate memchr, [f64::log10], [ln], [powf], [powi] and the trigonometric functions, environment
    settings, and the behaviour of models (any program over the operations of a model).

    Loops that are not structural take fuel.  The fuel is the size of the data (heap height,
    bytes left, length of the ladder) or, for [step_until], one more than the nanoseconds to
    the target, and the theorems show that it is enough: [OutOfFuel] is excluded by each.

    The mailbox queue, the channel, the tasks, the clock's cell and the reply slots are modelled with sequentially consistent steps; the memory
    orderings of their atomics are not.  What the channel needs of the crates async_event and
    diatomic_waker is written out in its steps as these crates document it.

    ** Not modelled

    The executors' queues of runnable tasks, the injector apart (the engine's theorems hold for any executor that
    meets class [Executor]), queries (the slots of their replies apart), ports other than the messages they send and the sinks, the
    gRPC services apart from the key registry; the encoders and decoders of video, which are
    other programs, and the mode [FovOptix] of the server with its probes; printing, logs, CSV and
    parquet files, plots and video quality tools. *)

From stdpp Require Export prelude list sorting gmap strings.
From Stdlib Require Export ZArith Lia Sorting.Permutation Sorting.Sorted.

#[global] Open Scope Z_scope.

(** ** Outcomes of Rust code

    A Rust expression either evaluates to a value or panics (a failed
    [assert!], an [unwrap] of [None], an index out of range, an arithmetic
    overflow that the code does not make wrap).  Loops that are not structural
    are written with fuel; [OutOfFuel] is only the model's own third outcome,
    and the theorems about loops show that it does not occur. *)
Inductive outcome (A : Type) : Type :=
| Ret (a : A)
| Panic
| OutOfFuel.
Arguments Ret {A} a.
Arguments Panic {A}.
Arguments OutOfFuel {A}.

#[export] Instance outcome_ret : MRet outcome := @Ret.
#[export] Instance outcome_bind : MBind outcome := λ A B f m,
  match m with Ret a => f a | Panic => Panic | OutOfFuel => OutOfFuel end.
#[export] Instance outcome_fmap : FMap outcome := λ A B f m,
  match m with Ret a => Ret (f a) | Panic => Panic | OutOfFuel => OutOfFuel end.

(** [x.unwrap()], [v[i]]: a [None] is a panic. *)
Definition unwrap {A} (o : option A) : outcome A :=
  match o with Some a => Ret a | None => Panic end.

Lemma bind_Ret {A B} (m : outcome A) (f : A → outcome B) (b : B) :
  m ≫= f = Ret b ↔ ∃ a, m = Ret a ∧ f a = Ret b.
Proof. destruct m; simpl; naive_solver. Qed.

Lemma unwrap_Ret {A} (o : option A) (a : A) : unwrap o = Ret a ↔ o = Some a.
Proof. destruct o; simpl; naive_solver. Qed.

(** [ret_step] goes on after an expression that was a value; [inv_ret E as pat] splits a
    run that returned at its first expression. *)
Ltac ret_step := cbn [mbind outcome_bind].
Tactic Notation "inv_ret" hyp(E) "as" simple_intropattern(pat) := apply bind_Ret in E as pat.

(** ** [Result] *)
Inductive result (A E : Type) : Type :=
| Ok (a : A)
| Err (e : E).
Arguments Ok {A E} a.
Arguments Err {A E} e.

(** ** Machine integers

    A [w]-bit unsigned integer is a [Z] in [[0, 2^w)]; the operations the code
    calls [wrapping_*] are written with [wrap]. *)
Definition wrap (w z : Z) : Z := z `mod` 2 ^ w.
Definition U64_MAX : Z := 2 ^ 64 - 1.
Definition U32_MAX : Z := 2 ^ 32 - 1.

Lemma wrap_range w z : 0 ≤ w → 0 ≤ wrap w z < 2 ^ w.
Proof. intros. apply Z.mod_pos_bound. by apply Z.pow_pos_nonneg. Qed.

Lemma wrap_id w z : 0 ≤ z < 2 ^ w → wrap w z = z.
Proof. apply Z.mod_small. Qed.

(** ** The [Ord] trait

    A total order given by [cmp], with the laws the trait documents.  The keys
    of the engine's queues are compared through it. *)
Class Ord (K : Type) := {
  cmp : K → K → comparison;
  cmp_eq : ∀ a b, cmp a b = Eq ↔ a = b;
  cmp_opp : ∀ a b, cmp b a = CompOpp (cmp a b);
  cmp_trans : ∀ a b c, cmp a b = Lt → cmp b c = Lt → cmp a c = Lt
}.

#[export] Instance Ord_Z : Ord Z.
Proof.
  refine {| cmp := Z.compare |}.
  - apply Z.compare_eq_iff.
  - intros. apply Z.compare_antisym.
  - intros a b c. rewrite !Z.compare_lt_iff. lia.
Defined.

(** [#[derive(Ord)]] on a pair: lexicographic order. *)
Definition lex_cmp {A B} `{Ord A} `{Ord B} (x y : A * B) : comparison :=
  match cmp x.1 y.1 with Eq => cmp x.2 y.2 | c => c end.

Section ord.
Context {K : Type} `{Ord K}.
Implicit Types a b c : K.

Lemma cmp_refl a : cmp a a = Eq.
Proof. by apply cmp_eq. Qed.
Lemma cmp_Lt_Gt a b : cmp a b = Lt ↔ cmp b a = Gt.
Proof. rewrite (cmp_opp a b). destruct (cmp a b); naive_solver. Qed.
Lemma cmp_Lt_irrefl a : cmp a a ≠ Lt.
Proof. by rewrite cmp_refl. Qed.
Lemma cmp_le_trans a b c : cmp a b ≠ Gt → cmp b c ≠ Gt → cmp a c ≠ Gt.
Proof.
  destruct (cmp a b) eqn:E1, (cmp b c) eqn:E2; try done; intros _ _.
  - apply cmp_eq in E1, E2. subst. by rewrite cmp_refl.
  - apply cmp_eq in E1. subst. by rewrite E2.
  - apply cmp_eq in E2. subst. by rewrite E1.
  - by rewrite (cmp_trans a b c).
Qed.
End ord.

#[export] Instance Ord_prod {A B} `{Ord A} `{Ord B} : Ord (A * B).
Proof.
  refine {| cmp := lex_cmp |}.
  - intros [a1 b1] [a2 b2]. unfold lex_cmp. simpl.
    destruct (cmp a1 a2) eqn:E; rewrite <-?(cmp_eq a1 a2), ?cmp_eq.
    + apply cmp_eq in E. subst. naive_solver.
    + split; [done|]. intros [= -> ->]. by rewrite cmp_refl in E.
    + split; [done|]. intros [= -> ->]. by rewrite cmp_refl in E.
  - intros [a1 b1] [a2 b2]. unfold lex_cmp. simpl. rewrite (cmp_opp a1 a2).
    destruct (cmp a1 a2); simpl; [apply cmp_opp|done..].
  - intros [a1 b1] [a2 b2] [a3 b3]. unfold lex_cmp. simpl.
    destruct (cmp a1 a2) eqn:E1, (cmp a2 a3) eqn:E2; try done; intros;
      repeat match goal with E : cmp _ _ = Eq |- _ => apply cmp_eq in E; subst end.
    + rewrite cmp_refl. by eapply cmp_trans.
    + by rewrite E2.
    + by rewrite E1.
    + by rewrite (cmp_trans a1 a2 a3).
Defined.

(** ** Lists *)
Lemma filter_all {A} (P : A → Prop) `{∀ x, Decision (P x)} l : Forall P l → filter P l = l.
Proof. induction 1; [done|]. rewrite filter_cons_True by done. by f_equal. Qed.

Lemma filter_none {A} (P : A → Prop) `{∀ x, Decision (P x)} l :
  Forall (λ x, ¬ P x) l → filter P l = [].
Proof. induction 1; [done|]. by rewrite filter_cons_False. Qed.
