(* ===== verification/StablePq.v ===== *)
(** * The contract of the engine's priority queues

    Both queues of [asynchronix/src/util] promise the same thing: the pair with
    the lowest key is pulled first, and pairs with equal keys are pulled in the
    order of their insertion.  This file states that promise as operations on a
    list of pairs ([spq_insert] and taking the head), and as the class
    [StablePQ], against which the scheduler and the simulation loop are verified.
    [PriorityQueue.v] and [IndexedPriorityQueue.v] give the instances. *)

From S2P Require Import Prelude.

(** ** The abstract queue: a list in pulling order *)
Section spec.
Context {K V : Type} `{Ord K}.

(** Insert after every pair whose key is not greater. *)
Fixpoint spq_insert (k : K) (v : V) (l : list (K * V)) : list (K * V) :=
  match l with
  | [] => [(k, v)]
  | (k', v') :: l' =>
      match cmp k k' with
      | Lt => (k, v) :: (k', v') :: l'
      | _ => (k', v') :: spq_insert k v l'
      end
  end.

Definition key_le (p q : K * V) : Prop := cmp p.1 q.1 ≠ Gt.

Lemma spq_insert_perm k v l : spq_insert k v l ≡ₚ (k, v) :: l.
Proof.
  induction l as [|[k' v'] l IH]; simpl; [done|].
  destruct (cmp k k'); rewrite ?IH; by try constructor.
Qed.

Lemma spq_insert_elem k v l p : p ∈ spq_insert k v l ↔ p = (k, v) ∨ p ∈ l.
Proof. by rewrite spq_insert_perm, elem_of_cons. Qed.

Lemma spq_insert_sorted k v l :
  StronglySorted key_le l → StronglySorted key_le (spq_insert k v l).
Proof.
  induction 1 as [|[k' v'] l Hl IH Hf]; simpl; [by repeat constructor|].
  destruct (cmp k k') eqn:E.
  - constructor; [done|]. apply Forall_forall. intros p [->|Hp]%spq_insert_elem.
    + unfold key_le; simpl. apply cmp_eq in E. subst. by rewrite cmp_refl.
    + rewrite Forall_forall in Hf. by apply Hf.
  - constructor; [by constructor|]. constructor.
    + unfold key_le; simpl. congruence.
    + eapply Forall_impl; [exact Hf|]. intros p Hp. unfold key_le in *. simpl in *.
      eapply cmp_le_trans; [|done]. congruence.
  - constructor; [done|]. apply Forall_forall. intros p [->|Hp]%spq_insert_elem.
    + unfold key_le; simpl. rewrite (cmp_opp k k'), E. done.
    + rewrite Forall_forall in Hf. by apply Hf.
Qed.

(** Stability: within one key, the order of the list is the order of
    insertion. *)
Definition with_key (k : K) (l : list (K * V)) : list V :=
  omap (λ p, if cmp p.1 k is Eq then Some p.2 else None) l.

Lemma with_key_cons k p l :
  with_key k (p :: l) = (if cmp p.1 k is Eq then [p.2] else []) ++ with_key k l.
Proof. unfold with_key. simpl. by destruct (cmp p.1 k). Qed.

Lemma with_key_nil k l : (∀ p, p ∈ l → cmp k p.1 = Lt) → with_key k l = [].
Proof.
  induction l as [|p l IH]; intros Hl; [done|]. rewrite with_key_cons, IH by set_solver.
  rewrite (cmp_opp k p.1), (Hl p) by set_solver. done.
Qed.

Lemma spq_insert_with_key k v l k' :
  StronglySorted key_le l →
  with_key k' (spq_insert k v l) =
    with_key k' l ++ (if cmp k k' is Eq then [v] else []).
Proof.
  induction 1 as [|[k1 v1] l Hl IH Hf].
  { simpl spq_insert. rewrite with_key_cons. simpl. by destruct (cmp k k'). }
  simpl spq_insert. destruct (cmp k k1) eqn:E;
    rewrite !with_key_cons, ?IH, <-?(assoc_L (++)); [done| |done].
  simpl. destruct (cmp k k') eqn:E'; simpl; rewrite ?app_nil_r; [|done..].
  apply cmp_eq in E'. subst k'.
  enough (with_key k ((k1, v1) :: l) = []) as Hn by (rewrite with_key_cons in Hn; simpl in Hn; by apply app_eq_nil in Hn as [-> ->]).
  apply with_key_nil.
  intros p [->|Hp]%elem_of_cons; [done|].
  rewrite Forall_forall in Hf. specialize (Hf _ Hp). unfold key_le in Hf. simpl in Hf.
  destruct (cmp k1 p.1) eqn:E1; [apply cmp_eq in E1; congruence| |done].
  by eapply cmp_trans.
Qed.
End spec.

(** ** The interface

    [pq_repr q l] relates a concrete queue to the pairs it holds, in pulling
    order; [pq_room q] is the number of insertions left before the epoch counter
    is exhausted, at which point [insert] panics by its own [assert_ne!];
    [pq_len] is the number of pairs. *)
Class StablePQ (K V Q : Type) `{Ord K} := {
  pq_new : Q;
  pq_insert : K → V → Q → outcome Q;
  pq_pull : Q → outcome (option (K * V) * Q);
  pq_peek : Q → outcome (option (K * V));
  pq_repr : Q → list (K * V) → Prop;
  pq_room : Q → Z;
  pq_len : Q → nat;
  pq_new_repr : pq_repr pq_new [];
  pq_sorted q l : pq_repr q l → StronglySorted key_le l;
  pq_insert_repr q l k v : pq_repr q l → 0 < pq_room q →
    ∃ q', pq_insert k v q = Ret q' ∧ pq_repr q' (spq_insert k v l)
          ∧ pq_room q' = pq_room q - 1;
  pq_insert_full q l k v : pq_repr q l → pq_room q ≤ 0 → pq_insert k v q = Panic;
  pq_pull_repr q l : pq_repr q l →
    ∃ q', pq_pull q = Ret (head l, q') ∧ pq_repr q' (tail l) ∧ pq_room q' = pq_room q;
  pq_peek_repr q l : pq_repr q l → pq_peek q = Ret (head l);
  pq_len_repr q l : pq_repr q l → pq_len q = length l
}.
#[global] Hint Mode StablePQ ! ! ! - : typeclass_instances.

(** ** Strictly sorted lists shared by the two implementations *)
Section sorted.
Context {A : Type} (R : relation A).

(** In a list sorted by a strict order, an element below which there is no
    other is the head. *)
Lemma sorted_head_min h t m :
  StronglySorted R (h :: t) → m ∈ h :: t → (∀ x, x ∈ h :: t → ¬ R x m) → m = h.
Proof.
  intros Hs [->|Hm]%elem_of_cons Hmin; [done|]. exfalso.
  inversion Hs as [|? ? _ Hf]; subst. rewrite Forall_forall in Hf.
  apply (Hmin h); [by left|]. by apply Hf.
Qed.

Lemma StronglySorted_app_inv l1 l2 :
  StronglySorted R (l1 ++ l2) →
  StronglySorted R l1 ∧ StronglySorted R l2 ∧ ∀ x y, x ∈ l1 → y ∈ l2 → R x y.
Proof.
  induction l1 as [|a l1 IH]; simpl; intros Hs.
  { split_and!; [constructor|done|]. intros ?? []%elem_of_nil. }
  inversion Hs as [|? ? Hs' Hf]; subst. destruct (IH Hs') as (?&?&HR).
  rewrite Forall_app in Hf. destruct Hf as [Hf1 Hf2]. split_and!; [by constructor|done|].
  intros x y [->|Hx]%elem_of_cons Hy; [|by apply HR].
  rewrite Forall_forall in Hf2. by apply Hf2.
Qed.

Lemma StronglySorted_app_intro l1 l2 :
  StronglySorted R l1 → StronglySorted R l2 →
  (∀ x y, x ∈ l1 → y ∈ l2 → R x y) → StronglySorted R (l1 ++ l2).
Proof.
  induction 1 as [|a l1 Hs IH Hf]; simpl; intros Hs2 HR; [done|]. constructor.
  - apply IH; [done|]. intros. apply HR; [by right|done].
  - rewrite Forall_app. split; [done|]. apply Forall_forall. intros. apply HR; [by left|done].
Qed.

Lemma sorted_filter (P : A → Prop) `{∀ x, Decision (P x)} l :
  StronglySorted R l → StronglySorted R (filter P l).
Proof.
  induction 1 as [|a l Hs IH Hf]; [constructor|]. rewrite filter_cons.
  destruct (decide (P a)); [|done]. constructor; [done|]. rewrite Forall_forall in Hf |- *.
  intros x [_ Hx]%list_elem_of_filter. by apply Hf.
Qed.
End sorted.

(** ** Entries stamped with an insertion epoch

    Both queues break ties between equal keys with a counter: an entry [e] has a
    key [ek e], a value [ev e] and an epoch [ee e], and leaves the queue in the
    lexicographic order of key and epoch. *)
Section stamped.
Context {K V E : Type} `{Ord K} (ek : E → K) (ev : E → V) (ee : E → Z).

Definition stamped_before (a b : E) : Prop :=
  cmp (ek a) (ek b) = Lt ∨ (ek a = ek b ∧ ee a < ee b).

Lemma stamped_before_trans a b c :
  stamped_before a b → stamped_before b c → stamped_before a c.
Proof.
  unfold stamped_before. intros [?|[E1 ?]] [?|[E2 ?]].
  - left. by eapply cmp_trans.
  - left. by rewrite <-E2.
  - left. by rewrite E1.
  - right. split; [congruence|lia].
Qed.

Lemma stamped_before_total a b :
  ¬ stamped_before a b → stamped_before b a ∨ (ek a = ek b ∧ ee a = ee b).
Proof.
  unfold stamped_before. intros Hn. destruct (cmp (ek a) (ek b)) eqn:Ec.
  - apply cmp_eq in Ec. destruct (Z.lt_trichotomy (ee a) (ee b)) as [?|[?|?]]; [|by right|].
    + destruct Hn. by right.
    + left. right. split; [done|lia].
  - destruct Hn. by left.
  - left. left. by apply cmp_Lt_Gt.
Qed.

(** Adding an entry whose epoch is newer than all others is [spq_insert]. *)
Lemma spq_insert_stamped its e :
  StronglySorted stamped_before its → Forall (λ x, ee x < ee e) its →
  ∃ its', its' ≡ₚ e :: its ∧ StronglySorted stamped_before its' ∧
    spq_insert (ek e) (ev e) ((λ x, (ek x, ev x)) <$> its) = (λ x, (ek x, ev x)) <$> its'.
Proof.
  induction its as [|it its IH]; intros Hs Hf.
  { exists [e]. split_and!; [done|repeat constructor|done]. }
  inversion Hs as [|? ? Hs' Hall]; subst. inversion Hf as [|? ? Hn Hf']; subst.
  destruct (IH Hs' Hf') as (its' & Hp & Hss & Heq).
  rewrite fmap_cons. cbn [spq_insert]. rewrite Heq.
  assert (Hle : cmp (ek e) (ek it) ≠ Lt → StronglySorted stamped_before (it :: its')).
  { intros Hc. constructor; [done|]. rewrite Hp. constructor; [|done].
    unfold stamped_before. destruct (cmp (ek e) (ek it)) eqn:Ec; [|done|].
    - apply cmp_eq in Ec. by right.
    - left. by apply cmp_Lt_Gt. }
  destruct (cmp (ek e) (ek it)) eqn:Ec.
  2: { exists (e :: it :: its). split_and!; [done| |done].
       constructor; [done|]. constructor; [by left|].
       eapply Forall_impl; [exact Hall|]. intros x Hx.
       eapply stamped_before_trans; [|done]. by left. }
  all: exists (it :: its'); split_and!; [|by apply Hle|done];
       rewrite Hp; by constructor.
Qed.

Lemma stamped_sorted its :
  StronglySorted stamped_before its →
  StronglySorted key_le ((λ x, (ek x, ev x)) <$> its).
Proof.
  induction 1 as [|it its Hs IH Hf]; simpl; constructor; [done|].
  rewrite Forall_fmap. eapply Forall_impl; [exact Hf|].
  intros x [Hx|[Hx _]]; unfold key_le; simpl; [by rewrite Hx|by rewrite Hx, cmp_refl].
Qed.
End stamped.
