(* ===== verification/PriorityQueue.v ===== *)
(** * The scheduler's queue: [asynchronix/src/util/priority_queue.rs]

    [PriorityQueue<K, V>] is a [std::collections::BinaryHeap] of items ordered
    by key and then by an insertion epoch, in inverse order.  The heap of the
    standard library is modelled by what it documents: a multiset (a list whose
    order is not relied on) whose [peek]/[pop] give a greatest element.  The
    theorems show that the queue implements the stable queue of [StablePq.v]. *)

From S2P Require Import Prelude StablePq.

(** ** [std::collections::BinaryHeap] *)
Section binary_heap.
Context {A : Type} (ord : A → A → comparison).

(** A greatest element and the rest. *)
Fixpoint select_max (x : A) (l : list A) : A * list A :=
  match l with
  | [] => (x, [])
  | y :: l' =>
      match ord x y with
      | Lt => let '(m, r) := select_max y l' in (m, x :: r)
      | _ => let '(m, r) := select_max x l' in (m, y :: r)
      end
  end.

Definition heap_push (x : A) (h : list A) : list A := x :: h.
Definition heap_pop (h : list A) : option (A * list A) :=
  match h with [] => None | x :: l => Some (select_max x l) end.
Definition heap_peek (h : list A) : option A :=
  match h with [] => None | x :: l => Some (select_max x l).1 end.

Lemma select_max_perm x l m r : select_max x l = (m, r) → m :: r ≡ₚ x :: l.
Proof.
  revert x m r. induction l as [|y l IH]; simpl; intros x m r.
  { by intros [= <- <-]. }
  destruct (ord x y); case_match eqn:E; intros [= <- <-]; apply IH in E;
    (etrans; [apply perm_swap|]); rewrite E; [apply perm_swap|done|apply perm_swap].
Qed.

Hypothesis ord_opp : ∀ a b, ord b a = CompOpp (ord a b).
Hypothesis ord_le_trans : ∀ a b c, ord a b ≠ Gt → ord b c ≠ Gt → ord a c ≠ Gt.

Lemma select_max_max x l m r :
  select_max x l = (m, r) → ∀ z, z ∈ x :: l → ord z m ≠ Gt.
Proof.
  assert (Hrefl : ∀ a, ord a a ≠ Gt).
  { intros a Ha. pose proof (ord_opp a a) as Ho. by rewrite Ha in Ho. }
  revert x m r. induction l as [|y l IH]; simpl; intros x m r.
  { intros [= <- <-] z ->%list_elem_of_singleton. apply Hrefl. }
  destruct (ord x y) eqn:Exy; case_match eqn:E; intros [= <- <-] z Hz;
    specialize (IH _ _ _ E); apply elem_of_cons in Hz as [->|[->|Hz]%elem_of_cons];
    try (apply IH; first [by left | by right]).
  - apply (ord_le_trans _ x); [|apply IH; by left]. by rewrite (ord_opp x y), Exy.
  - apply (ord_le_trans _ y); [by rewrite Exy|apply IH; by left].
  - apply (ord_le_trans _ x); [|apply IH; by left]. by rewrite (ord_opp x y), Exy.
Qed.
End binary_heap.

Module PQ.
Section priority_queue.
Context {K V : Type} `{Ord K}.

(** ** Items and their inverse order *)
Record Item := mkItem { key : K; value : V; epoch : Z }.

Definition item_cmp (a b : Item) : comparison :=
  CompOpp (match cmp (key a) (key b) with Eq => Z.compare (epoch a) (epoch b) | c => c end).

Definition item_pair (it : Item) : K * V := (key it, value it).

Record PriorityQueue := mkPQ { heap : list Item; next_epoch : Z }.

Definition new : PriorityQueue := mkPQ [] 0.

(** [insert] asserts that the epoch counter is not exhausted. *)
Definition insert (k : K) (v : V) (q : PriorityQueue) : outcome PriorityQueue :=
  let epoch := next_epoch q in
  if decide (epoch = U64_MAX) then Panic
  else Ret (mkPQ (heap_push (mkItem k v epoch) (heap q)) (epoch + 1)).

Definition pull (q : PriorityQueue) : option (K * V) * PriorityQueue :=
  match heap_pop item_cmp (heap q) with
  | None => (None, q)
  | Some (it, h) => (Some (key it, value it), mkPQ h (next_epoch q))
  end.

Definition peek (q : PriorityQueue) : option (K * V) :=
  item_pair <$> heap_peek item_cmp (heap q).

(** ** Correctness *)

(** The order in which items leave the queue. *)
Definition before : relation Item := stamped_before key epoch.

Lemma item_cmp_Gt_before a b : item_cmp a b = Gt ↔ before a b.
Proof.
  unfold item_cmp, before, stamped_before. destruct (cmp (key a) (key b)) eqn:E; simpl.
  - apply cmp_eq in E. rewrite <-Z.compare_antisym, Z.compare_gt_iff.
    split; [by right|]. by intros [?|[_ ?]].
  - split; [by left|done].
  - split; [done|]. intros [?|[Heq _]]; [done|]. by rewrite Heq, cmp_refl in E.
Qed.

Lemma item_cmp_opp a b : item_cmp b a = CompOpp (item_cmp a b).
Proof.
  unfold item_cmp. rewrite (cmp_opp (key a) (key b)).
  destruct (cmp (key a) (key b)); simpl; try done.
  rewrite (Z.compare_antisym (epoch a) (epoch b)). done.
Qed.

Lemma item_cmp_le_trans a b c :
  item_cmp a b ≠ Gt → item_cmp b c ≠ Gt → item_cmp a c ≠ Gt.
Proof.
  rewrite !item_cmp_Gt_before. intros Hab Hbc Hac.
  destruct (stamped_before_total _ _ _ _ Hab) as [Hba|[E1 E2]].
  - apply Hbc. by eapply stamped_before_trans.
  - apply Hbc. unfold before, stamped_before in *. by rewrite <-E1, <-E2.
Qed.

(** The pairs of the queue, in pulling order: its items sorted by [before].
    Epochs are below the counter, which is a [u64]. *)
Definition repr (q : PriorityQueue) (l : list (K * V)) : Prop :=
  ∃ its, its ≡ₚ heap q ∧ StronglySorted before its
    ∧ l = item_pair <$> its
    ∧ Forall (λ it, epoch it < next_epoch q) its
    ∧ next_epoch q ≤ U64_MAX.

Lemma pq_new_empty : repr new [].
Proof. exists []. split_and!; [done|constructor|done|constructor|done]. Qed.

Lemma pq_repr_sorted q l : repr q l → StronglySorted key_le l.
Proof.
  intros (its & _ & Hs & -> & _). by apply (stamped_sorted key value epoch).
Qed.

Lemma insert_repr q l k v : repr q l → next_epoch q < U64_MAX →
  ∃ q', insert k v q = Ret q' ∧ repr q' (spq_insert k v l)
        ∧ next_epoch q' = next_epoch q + 1.
Proof.
  intros (its & Hp & Hs & -> & Hf & Hn) Hlt. unfold insert.
  rewrite decide_False by lia. eexists. split_and!; [done| |done].
  destruct (spq_insert_stamped key value epoch its (mkItem k v (next_epoch q)) Hs Hf)
    as (its' & Hp' & Hs' & Heq).
  exists its'. simpl. split_and!; [by rewrite Hp', Hp|done|exact Heq| |lia].
  rewrite Hp'. constructor; simpl; [lia|]. eapply Forall_impl; [exact Hf|]. simpl. lia.
Qed.

Lemma pop_repr its q :
  its ≡ₚ heap q → StronglySorted before its →
  match its with
  | [] => heap_pop item_cmp (heap q) = None
  | it :: rest => ∃ h, heap_pop item_cmp (heap q) = Some (it, h) ∧ rest ≡ₚ h
  end.
Proof.
  intros Hp Hs. unfold heap_pop. destruct (heap q) as [|x l].
  { apply Permutation_nil_r in Hp. by subst. }
  destruct (select_max item_cmp x l) as [m r] eqn:E.
  pose proof (select_max_perm _ _ _ _ _ E) as Hperm.
  pose proof (select_max_max _ item_cmp_opp item_cmp_le_trans _ _ _ _ E) as Hmax.
  destruct its as [|it rest]; [by apply Permutation_nil_l in Hp|].
  assert (m = it) as ->.
  { apply (sorted_head_min before it rest); [done| |].
    - rewrite Hp, <-Hperm. by left.
    - intros z Hz. rewrite <-item_cmp_Gt_before. apply Hmax. by rewrite <-Hp. }
  exists r. split; [done|]. apply (Permutation_cons_inv (a:=it)). by rewrite Hp, Hperm.
Qed.

Lemma pull_repr q l : repr q l →
  ∃ q', pull q = (head l, q') ∧ repr q' (tail l) ∧ next_epoch q' = next_epoch q.
Proof.
  intros (its & Hp & Hs & -> & Hf & Hn). pose proof (pop_repr its q Hp Hs) as Hpop.
  unfold pull. destruct its as [|it rest]; simpl.
  - rewrite Hpop. exists q. split_and!; [done| |done]. by exists [].
  - destruct Hpop as (h & -> & Hr). eexists. split_and!; [done| |done].
    inversion Hs; inversion Hf; subst. by exists rest.
Qed.

Lemma peek_pull q : peek q = (pull q).1.
Proof.
  unfold peek, pull, heap_peek, heap_pop. destruct (heap q) as [|x l]; [done|].
  by destruct (select_max item_cmp x l).
Qed.
End priority_queue.
Arguments Item : clear implicits.
Arguments PriorityQueue : clear implicits.
End PQ.
Import PQ.

(** ** The queue implements the contract *)
#[export] Instance PriorityQueue_StablePQ {K V} `{Ord K} : StablePQ K V (PQ.PriorityQueue K V).
Proof.
  refine {| pq_new := PQ.new; pq_insert := PQ.insert; pq_pull := λ q, Ret (PQ.pull q);
            pq_peek := λ q, Ret (PQ.peek q); pq_repr := PQ.repr;
            pq_room := λ q, U64_MAX - next_epoch q; pq_len := λ q, length (heap q) |}.
  - apply pq_new_empty.
  - apply pq_repr_sorted.
  - intros q l k v Hr Hroom. destruct (insert_repr q l k v Hr) as (q' & -> & ? & Hn); [lia|].
    exists q'. split_and!; [done..|]. rewrite Hn. lia.
  - intros q l k v (_ & _ & _ & _ & _ & Hn) Hroom. unfold insert. by rewrite decide_True by lia.
  - intros q l Hr. destruct (pull_repr q l Hr) as (q' & -> & ? & Hn).
    exists q'. by rewrite Hn.
  - intros q l Hr. rewrite peek_pull. by destruct (pull_repr q l Hr) as (q' & -> & _).
  - intros q l (its & Hp & _ & -> & _). by rewrite length_fmap, Hp.
Defined.
