(* ===== verification/IndexedPriorityQueue.v ===== *)
(** * The queue with deletion: [asynchronix/src/util/indexed_priority_queue.rs]

    A binary heap of (key, epoch, slab index) items cross-indexed with a slab of
    nodes that hold the values, the index of each value's item in the heap, and
    the list of free nodes.  Every operation of the source is a definition here,
    with the panics of its indexing and of its [unwrap_*] helpers; the theorems
    show that the cross-indexing, the heap order and the free list are preserved,
    that no operation panics (but for the exhaustion of the epochs), and that the
    queue implements the stable queue of [StablePq.v], extended with removal by
    insertion key. *)

From S2P Require Import Prelude StablePq.

Module IPQ.
Section ipq.
Context {K V : Type} `{Ord K}.

(** ** Data *)

(** [#[derive(PartialOrd, Ord)]]: the key first, then the epoch. *)
Record UniqueKey := mkUK { uk_key : K; uk_epoch : Z }.
Definition uk_cmp (a b : UniqueKey) : comparison :=
  lex_cmp (uk_key a, uk_epoch a) (uk_key b, uk_epoch b).

Record Item := mkItem { item_key : UniqueKey; slab_idx : nat }.

Inductive Node :=
| FreeNode (next : option nat)
| HeapNode (value : V) (heap_idx : nat).

Record IndexedPriorityQueue := mkIPQ {
  heap : list Item;
  slab : list Node;
  first_free_node : option nat;
  next_epoch : Z
}.

Record InsertKey := mkInsertKey { ik_slab_idx : nat; ik_epoch : Z }.

Definition from_raw_parts (slab_idx : nat) (epoch : Z) : InsertKey := mkInsertKey slab_idx epoch.
Definition into_raw_parts (k : InsertKey) : nat * Z := (ik_slab_idx k, ik_epoch k).

(** ** Helpers of the source, with their panics *)
Definition unwrap_next_free_node (n : Node) : outcome (option nat) :=
  match n with FreeNode next => Ret next | _ => Panic end.
Definition unwrap_heap_node (n : Node) : outcome (V * nat) :=
  match n with HeapNode v i => Ret (v, i) | _ => Panic end.
Definition unwrap_value (n : Node) : outcome V :=
  match n with HeapNode v _ => Ret v | _ => Panic end.

(** [v[i] = x] *)
Definition vec_set {A} (l : list A) (i : nat) (x : A) : outcome (list A) :=
  if decide (i < length l)%nat then Ret (<[i:=x]> l) else Panic.

(** [*self.slab[j].unwrap_heap_index_mut() = i] *)
Definition set_heap_index (s : list Node) (j i : nat) : outcome (list Node) :=
  n ← unwrap (s !! j);
  match n with HeapNode v _ => Ret (<[j:=HeapNode v i]> s) | _ => Panic end.

(** [heap.pop().unwrap()] *)
Definition vec_pop {A} (l : list A) : outcome (A * list A) :=
  x ← unwrap (last l); Ret (x, take (pred (length l)) l).

(** ** Sifting *)
Definition key_ge (a b : UniqueKey) : bool := match uk_cmp a b with Lt => false | _ => true end.
Definition key_gt (a b : UniqueKey) : bool := match uk_cmp a b with Gt => true | _ => false end.
Definition key_lt (a b : UniqueKey) : bool := match uk_cmp a b with Lt => true | _ => false end.
Definition key_leq (a b : UniqueKey) : bool := match uk_cmp a b with Gt => false | _ => true end.

Fixpoint sift_up_loop (fuel : nat) (h : list Item) (s : list Node) (item : Item) (child : nat)
    : outcome (list Item * list Node * nat) :=
  match fuel with
  | O => OutOfFuel
  | S fuel =>
      if decide (child = 0%nat) then Ret (h, s, child)
      else
        let parent := ((child - 1) / 2)%nat in
        p ← unwrap (h !! parent);
        if key_ge (item_key item) (item_key p) then Ret (h, s, child)
        else
          h1 ← vec_set h child p;
          p1 ← unwrap (h1 !! parent);
          s1 ← set_heap_index s (slab_idx p1) child;
          if key_ge (item_key item) (item_key p1) then Ret (h1, s1, child)
          else sift_up_loop fuel h1 s1 item parent
  end.

Definition sift_up (h : list Item) (s : list Node) (item : Item) (heap_idx : nat)
    : outcome (list Item * list Node) :=
  '(h1, s1, child) ← sift_up_loop (S heap_idx) h s item heap_idx;
  h2 ← vec_set h1 child item;
  s2 ← set_heap_index s1 (slab_idx item) child;
  Ret (h2, s2).

Fixpoint sift_down_loop (fuel : nat) (h : list Item) (s : list Node) (item : Item)
    (parent child : nat) : outcome (list Item * list Node * nat) :=
  match fuel with
  | O => OutOfFuel
  | S fuel =>
      if decide (child < length h)%nat then
        c ← unwrap (h !! child);
        let child := match h !! (child + 1)%nat with
                     | Some other => if key_gt (item_key c) (item_key other)
                                     then (child + 1)%nat else child
                     | None => child
                     end in
        m ← unwrap (h !! child);
        if key_leq (item_key item) (item_key m) then Ret (h, s, parent)
        else
          h1 ← vec_set h parent m;
          m1 ← unwrap (h1 !! child);
          s1 ← set_heap_index s (slab_idx m1) parent;
          sift_down_loop fuel h1 s1 item child (2 * child + 1)
      else Ret (h, s, parent)
  end.

Definition sift_down (h : list Item) (s : list Node) (item : Item) (heap_idx : nat)
    : outcome (list Item * list Node) :=
  '(h1, s1, parent) ← sift_down_loop (S (length h)) h s item heap_idx (2 * heap_idx + 1);
  h2 ← vec_set h1 parent item;
  s2 ← set_heap_index s1 (slab_idx item) parent;
  Ret (h2, s2).

(** ** Operations *)
Definition new : IndexedPriorityQueue := mkIPQ [] [] None 0.
Definition len (q : IndexedPriorityQueue) : nat := length (heap q).

(** The slab node of a new value: a recycled free node, or a new one. *)
Definition alloc_node (s : list Node) (free : option nat) (v : V)
    : outcome (list Node * option nat * nat) :=
  match free with
  | Some idx =>
      n ← unwrap (s !! idx);
      next ← unwrap_next_free_node n;
      s1 ← vec_set s idx (HeapNode v 0);
      Ret (s1, next, idx)
  | None => Ret (s ++ [HeapNode v 0], None, length s)
  end.

Definition insert (k : K) (v : V) (q : IndexedPriorityQueue)
    : outcome (IndexedPriorityQueue * InsertKey) :=
  let epoch := next_epoch q in
  if decide (epoch = U64_MAX) then Panic
  else
    let unique_key := mkUK k epoch in
    '(s1, free, idx) ← alloc_node (slab q) (first_free_node q) v;
    let heap_idx := length (heap q) in
    '(h2, s2) ← sift_up (heap q ++ [mkItem unique_key 0]) s1 (mkItem unique_key idx) heap_idx;
    Ret (mkIPQ h2 s2 free (epoch + 1), mkInsertKey idx epoch).

Definition pull (q : IndexedPriorityQueue) : outcome (option (K * V) * IndexedPriorityQueue) :=
  match heap q !! 0%nat with
  | None => Ret (None, q)
  | Some item =>
      let top := slab_idx item in
      n ← unwrap (slab q !! top);
      s1 ← vec_set (slab q) top (FreeNode (first_free_node q));
      v ← unwrap_value n;
      '(last_item, h1) ← vec_pop (heap q);
      '(h2, s2) ← (if decide (slab_idx last_item = top) then Ret (h1, s1)
                   else sift_down h1 s1 last_item 0);
      Ret (Some (uk_key (item_key item), v), mkIPQ h2 s2 (Some top) (next_epoch q))
  end.

Definition peek (q : IndexedPriorityQueue) : outcome (option (K * V)) :=
  match heap q !! 0%nat with
  | None => Ret None
  | Some item =>
      n ← unwrap (slab q !! slab_idx item);
      v ← unwrap_value n;
      Ret (Some (uk_key (item_key item), v))
  end.

Definition peek_key (q : IndexedPriorityQueue) : option K :=
  (λ item, uk_key (item_key item)) <$> heap q !! 0%nat.

Definition extract (ik : InsertKey) (q : IndexedPriorityQueue)
    : outcome (option (K * V) * IndexedPriorityQueue) :=
  let idx := ik_slab_idx ik in
  match slab q !! idx with
  | None | Some (FreeNode _) => Ret (None, q)
  | Some (HeapNode v heap_idx) =>
      it ← unwrap (heap q !! heap_idx);
      if decide (uk_epoch (item_key it) = ik_epoch ik) then
        s1 ← vec_set (slab q) idx (FreeNode (first_free_node q));
        '(last_item, h1) ← vec_pop (heap q);
        '(h2, s2) ← match h1 !! heap_idx with
                    | Some item =>
                        if key_lt (item_key last_item) (item_key item)
                        then sift_up h1 s1 last_item heap_idx
                        else sift_down h1 s1 last_item heap_idx
                    | None => Ret (h1, s1)
                    end;
        Ret (Some (uk_key (item_key it), v), mkIPQ h2 s2 (Some idx) (next_epoch q))
      else Ret (None, q)
  end.

(** ** The order of unique keys *)
Definition klt (a b : Item) : Prop := uk_cmp (item_key a) (item_key b) = Lt.

Definition uk_pair (k : UniqueKey) : K * Z := (uk_key k, uk_epoch k).
Lemma uk_cmp_pair a b : uk_cmp a b = cmp (uk_pair a) (uk_pair b).
Proof. done. Qed.

Lemma klt_trans a b c : klt a b → klt b c → klt a c.
Proof. unfold klt. rewrite !uk_cmp_pair. apply cmp_trans. Qed.
Lemma not_klt_trans a b c : ¬ klt b a → ¬ klt c b → ¬ klt c a.
Proof.
  unfold klt. rewrite !uk_cmp_pair.
  rewrite !(cmp_Lt_Gt (uk_pair (item_key b))), !(cmp_Lt_Gt (uk_pair (item_key c))).
  apply cmp_le_trans.
Qed.
Lemma klt_asym a b : klt a b → ¬ klt b a.
Proof.
  intros H1 H2. pose proof (klt_trans _ _ _ H1 H2) as H3. revert H3. unfold klt.
  rewrite uk_cmp_pair. apply cmp_Lt_irrefl.
Qed.
Lemma key_ge_spec a b : key_ge (item_key a) (item_key b) = false ↔ klt a b.
Proof. unfold key_ge, klt. by destruct (uk_cmp _ _). Qed.
Lemma key_leq_spec a b : key_leq (item_key a) (item_key b) = false ↔ klt b a.
Proof.
  unfold key_leq, klt. rewrite !uk_cmp_pair, (cmp_Lt_Gt (uk_pair (item_key b))).
  by destruct (cmp _ _).
Qed.
Lemma key_gt_spec a b : key_gt (item_key a) (item_key b) = true ↔ klt b a.
Proof.
  unfold key_gt, klt. rewrite !uk_cmp_pair, (cmp_Lt_Gt (uk_pair (item_key b))).
  by destruct (cmp _ _).
Qed.
Lemma key_lt_spec a b : key_lt (item_key a) (item_key b) = true ↔ klt a b.
Proof. unfold key_lt, klt. by destruct (uk_cmp _ _). Qed.

(** ** Slab contents without the back pointers *)
Definition node_val (n : Node) : option nat + V :=
  match n with FreeNode next => inl next | HeapNode v _ => inr v end.
Definition vals (s : list Node) : list (option nat + V) := node_val <$> s.

Definition upd_idx (i : nat) (n : Node) : Node :=
  match n with HeapNode v _ => HeapNode v i | n => n end.
Definition set_idx (s : list Node) (j i : nat) : list Node := alter (upd_idx i) j s.

Lemma set_heap_index_Ret s j i v i' :
  s !! j = Some (HeapNode v i') → set_heap_index s j i = Ret (set_idx s j i).
Proof.
  intros Hj. unfold set_heap_index, set_idx. rewrite Hj. simpl. f_equal.
  apply list_eq. intros k. destruct (decide (k = j)) as [->|Hk].
  - rewrite list_lookup_insert_eq, list_lookup_alter_eq, Hj by (by eapply lookup_lt_Some). done.
  - by rewrite list_lookup_insert_ne, list_lookup_alter_ne.
Qed.

Lemma vals_set_idx s j i : vals (set_idx s j i) = vals s.
Proof.
  unfold vals, set_idx. apply list_eq. intros k. rewrite !list_lookup_fmap.
  destruct (decide (k = j)) as [->|Hk].
  - rewrite list_lookup_alter_eq. destruct (s !! j) as [[]|]; done.
  - by rewrite list_lookup_alter_ne.
Qed.

Lemma lookup_set_idx_ne s j k i : j ≠ k → set_idx s j i !! k = s !! k.
Proof. apply list_lookup_alter_ne. Qed.
Lemma lookup_set_idx s j i : set_idx s j i !! j = upd_idx i <$> s !! j.
Proof. apply list_lookup_alter_eq. Qed.
Lemma set_idx_set_idx s j i i' : set_idx (set_idx s j i') j i = set_idx s j i.
Proof.
  apply list_eq. intros k. destruct (decide (j = k)) as [->|Hk].
  - rewrite !lookup_set_idx. by destruct (s !! k) as [[]|].
  - by rewrite !lookup_set_idx_ne.
Qed.
Lemma set_idx_comm s j j' i i' :
  j ≠ j' → set_idx (set_idx s j i) j' i' = set_idx (set_idx s j' i') j i.
Proof.
  intros Hj. apply list_eq. intros k. destruct (decide (j = k)) as [->|Hk].
  - rewrite lookup_set_idx_ne by done. by rewrite !lookup_set_idx, lookup_set_idx_ne.
  - rewrite (lookup_set_idx_ne _ j) by done. destruct (decide (j' = k)) as [->|Hk'].
    + by rewrite !lookup_set_idx, lookup_set_idx_ne.
    + by rewrite !lookup_set_idx_ne.
Qed.

(** ** Cross-indexing of heap and slab *)
Definition cross (h : list Item) (s : list Node) : Prop :=
  (∀ i it, h !! i = Some it → ∃ v, s !! slab_idx it = Some (HeapNode v i)) ∧
  (∀ j v i, s !! j = Some (HeapNode v i) → ∃ it, h !! i = Some it ∧ slab_idx it = j).

Lemma cross_inj h s i j a b :
  cross h s → h !! i = Some a → h !! j = Some b → slab_idx a = slab_idx b → i = j.
Proof.
  intros [Hc _] Ha Hb Hs. destruct (Hc _ _ Ha) as [v Hv], (Hc _ _ Hb) as [w Hw].
  rewrite Hs in Hv. congruence.
Qed.

Lemma lookup_swap {A} (l : list A) i j a b k :
  (i < length l)%nat → (j < length l)%nat →
  <[j:=a]> (<[i:=b]> l) !! k =
    if decide (k = j) then Some a else if decide (k = i) then Some b else l !! k.
Proof.
  intros Hi Hj. destruct (decide (k = j)) as [->|Hkj].
  { rewrite list_lookup_insert_eq; [done|]. by rewrite length_insert. }
  rewrite list_lookup_insert_ne by done. destruct (decide (k = i)) as [->|Hki].
  - by rewrite list_lookup_insert_eq.
  - by rewrite list_lookup_insert_ne.
Qed.

(** Exchanging two items, with their back pointers, keeps the two in step. *)
Lemma cross_swap h s i j a b :
  cross h s → i ≠ j → h !! i = Some a → h !! j = Some b →
  cross (<[j:=a]> (<[i:=b]> h)) (set_idx (set_idx s (slab_idx b) i) (slab_idx a) j).
Proof.
  intros Hc Hij Ha Hb.
  assert (slab_idx a ≠ slab_idx b) as Hab by (intros ?; by apply Hij; eapply cross_inj).
  destruct Hc as [Hf Hr].
  assert (i < length h)%nat by (by eapply lookup_lt_Some).
  assert (j < length h)%nat by (by eapply lookup_lt_Some).
  destruct (Hf _ _ Ha) as [va Hva]. destruct (Hf _ _ Hb) as [vb Hvb]. split.
  - intros k it. rewrite lookup_swap by done. intros Hk.
    destruct (decide (k = j)) as [->|Hkj].
    { simplify_eq. exists va. rewrite lookup_set_idx, lookup_set_idx_ne, Hva by done. done. }
    destruct (decide (k = i)) as [->|Hki].
    { simplify_eq. exists vb. rewrite lookup_set_idx_ne, lookup_set_idx, Hvb by done. done. }
    destruct (Hf _ _ Hk) as [v Hv]. exists v.
    rewrite !lookup_set_idx_ne; [done| |]; intros E; rewrite E in *; congruence.
  - intros k v m. destruct (decide (k = slab_idx a)) as [->|Ha'].
    { rewrite lookup_set_idx, lookup_set_idx_ne, Hva by done. simpl. intros [= -> <-].
      exists a. rewrite lookup_swap by done. by rewrite decide_True. }
    rewrite lookup_set_idx_ne by done. destruct (decide (k = slab_idx b)) as [->|Hb'].
    { rewrite lookup_set_idx, Hvb by done. simpl. intros [= -> <-].
      exists b. rewrite lookup_swap by done. rewrite decide_False, decide_True by done. done. }
    rewrite lookup_set_idx_ne by done. intros Hk. destruct (Hr _ _ _ Hk) as (it & Hit & Hs).
    exists it. rewrite lookup_swap by done. rewrite !decide_False; [done| |]; intros ->; simplify_eq.
Qed.

(** ** Heap order, and what is left of it around a hole *)
Definition parent (i : nat) : nat := ((i - 1) / 2)%nat.

Definition heap_ok (h : list Item) : Prop := ∀ i p c,
  i ≠ 0%nat → h !! i = Some c → h !! parent i = Some p → ¬ klt c p.

Definition over_hole (h : list Item) (i : nat) : Prop := ∀ j g c,
  j ≠ 0%nat → i ≠ 0%nat → parent j = i → h !! j = Some c → h !! parent i = Some g → ¬ klt c g.
Definition up_inv (h : list Item) (i : nat) : Prop :=
  (∀ j p c, j ≠ 0%nat → j ≠ i → h !! j = Some c → h !! parent j = Some p → ¬ klt c p)
  ∧ over_hole h i.
Definition down_inv (h : list Item) (i : nat) : Prop :=
  (∀ j p c, j ≠ 0%nat → parent j ≠ i → h !! j = Some c → h !! parent j = Some p → ¬ klt c p)
  ∧ over_hole h i.

Lemma parent_children i j :
  j ≠ 0%nat → parent j = i ↔ (j = 2 * i + 1 ∨ j = 2 * i + 2)%nat.
Proof.
  unfold parent. pose proof (Nat.div_mod_eq (j - 1) 2).
  pose proof (Nat.mod_upper_bound (j - 1) 2). lia.
Qed.
Lemma parent_lt i : i ≠ 0%nat → (parent i < i)%nat.
Proof. intros Hi. destruct (proj1 (parent_children (parent i) i Hi) eq_refl); lia. Qed.

(** The root of a heap is not above any other item. *)
Lemma heap_ok_root h r : heap_ok h → h !! 0%nat = Some r →
  ∀ i it, h !! i = Some it → ¬ klt it r.
Proof.
  intros Hok Hr i. induction (lt_wf i) as [i _ IH]. intros it Hit.
  destruct (decide (i = 0%nat)) as [->|Hi].
  { simplify_eq. intros Hk. by apply (klt_asym _ _ Hk). }
  pose proof (parent_lt i Hi). destruct (h !! parent i) as [p|] eqn:Hp.
  - apply (not_klt_trans r p it); [by eapply IH|by eapply Hok].
  - apply lookup_ge_None in Hp. apply lookup_lt_Some in Hit. lia.
Qed.

(** One step up: the parent moves into the hole. *)
Lemma up_inv_step h i item p :
  i ≠ 0%nat → h !! i = Some item → h !! parent i = Some p → klt item p → up_inv h i →
  up_inv (<[parent i:=item]> (<[i:=p]> h)) (parent i).
Proof.
  intros Hi Hit Hp Hlt [Hup Hov]. pose proof (parent_lt i Hi) as Hpi.
  pose proof (lookup_lt_Some _ _ _ Hit). pose proof (lookup_lt_Some _ _ _ Hp). split.
  - intros j p' c Hj Hjp. rewrite !lookup_swap by done. rewrite (decide_False (P := j = parent i)) by done.
    destruct (decide (j = i)) as [->|Hji].
    { rewrite decide_True by done. intros [= <-] [= <-]. by apply klt_asym. }
    intros Hc. pose proof (parent_lt j Hj) as Hpj. destruct (decide (parent j = parent i)) as [Hs|Hs].
    { intros [= <-] Hk. apply (Hup j p c Hj Hji Hc); [by rewrite Hs|]. by eapply klt_trans. }
    destruct (decide (parent j = i)) as [Hs'|Hs'].
    + intros [= <-]. by apply (Hov j).
    + by apply Hup.
  - intros j g c Hj Hpn Hjp. rewrite !lookup_swap by done.
    pose proof (parent_lt _ Hpn) as Hpp.
    rewrite (decide_False (P := j = parent i)) by (pose proof (parent_lt j Hj); lia).
    rewrite !(decide_False (P := parent (parent i) = _)) by lia. intros Hc Hg.
    assert (¬ klt p g) as Hpg by (apply (Hup (parent i)); [done|lia|done|done]).
    destruct (decide (j = i)) as [->|Hji].
    + by simplify_eq.
    + apply (not_klt_trans g p c Hpg). apply (Hup j); [done..|]. by rewrite Hjp.
Qed.

(** One step down: the smallest child [m] at [c] moves into the hole. *)
Lemma down_inv_step h i c item m :
  c ≠ 0%nat → parent c = i → h !! i = Some item → h !! c = Some m → klt m item →
  (∀ j x, j ≠ 0%nat → parent j = i → h !! j = Some x → ¬ klt x m) →
  down_inv h i → down_inv (<[c:=item]> (<[i:=m]> h)) c.
Proof.
  intros Hc0 Hpc Hit Hm Hlt Hmin [Hdn Hov]. pose proof (parent_lt c Hc0) as Hci.
  pose proof (lookup_lt_Some _ _ _ Hit). pose proof (lookup_lt_Some _ _ _ Hm). split.
  - intros j p x Hj Hjc. rewrite !lookup_swap by done.
    rewrite (decide_False (P := parent j = c)) by done.
    destruct (decide (parent j = i)) as [Hs|Hs].
    + intros Hx [= <-]. destruct (decide (j = c)) as [->|Hjc'].
      { simplify_eq. by apply klt_asym. }
      rewrite decide_False in Hx by (intros ->; pose proof (parent_lt _ Hj); lia).
      by apply (Hmin j).
    + rewrite (decide_False (P := j = c)) by (intros ->; done).
      destruct (decide (j = i)) as [->|Hji].
      * intros [= <-] Hp. by apply (Hov c p m).
      * by apply Hdn.
  - intros j g x Hj _ Hjc. rewrite !lookup_swap by done. pose proof (parent_lt _ Hj).
    rewrite (decide_False (P := j = c)), (decide_False (P := j = i)) by lia.
    rewrite Hpc, (decide_False (P := i = c)), decide_True by lia.
    intros Hx [= <-]. apply (Hdn j); [done|lia|done|by rewrite Hjc].
Qed.

(** ** Sifting restores the order and only permutes the items

  [sifted h s h2 s2]: the heap [h2] and slab [s2] hold what [h] and [s] hold,
  in heap order and in step. *)
Record sifted (h : list Item) (s : list Node) (h2 : list Item) (s2 : list Node) : Prop := {
  sifted_cross : cross h2 s2;
  sifted_vals : vals s2 = vals s;
  sifted_perm : h2 ≡ₚ h;
  sifted_ok : heap_ok h2
}.

Lemma vec_set_Ret {A} (l : list A) i x :
  (i < length l)%nat → vec_set l i x = Ret (<[i:=x]> l).
Proof. intros. unfold vec_set. by rewrite decide_True. Qed.

Lemma cross_lookup h s i it : cross h s → h !! i = Some it →
  ∃ v, s !! slab_idx it = Some (HeapNode v i).
Proof. intros [Hc _]. apply Hc. Qed.

(** Moving the item at [j] into the hole at [i] is an exchange of [i] and [j]
    in the heap with its hole filled. *)
Lemma move_is_swap h s item i j p :
  i ≠ j → (i < length h)%nat → h !! j = Some p →
  cross (<[i:=item]> h) (set_idx s (slab_idx item) i) →
  let h1 := <[i:=p]> h in
  ∃ s1, set_heap_index s (slab_idx p) i = Ret s1 ∧ vals s1 = vals s
    ∧ <[j:=item]> h1 = <[j:=item]> (<[i:=p]> (<[i:=item]> h))
    ∧ cross (<[j:=item]> h1) (set_idx s1 (slab_idx item) j)
    ∧ <[j:=item]> h1 ≡ₚ <[i:=item]> h.
Proof.
  intros Hij Hi Hp Hc h1.
  assert (<[i:=item]> h !! i = Some item) as Hl1 by by apply list_lookup_insert_eq.
  assert (<[i:=item]> h !! j = Some p) as Hl2 by by rewrite list_lookup_insert_ne.
  assert (slab_idx item ≠ slab_idx p) as Hne by (intros E; apply Hij; by eapply cross_inj).
  destruct (cross_lookup _ _ _ _ Hc Hl2) as [v Hv].
  rewrite lookup_set_idx_ne in Hv by done.
  exists (set_idx s (slab_idx p) i).
  assert (<[j:=item]> h1 = <[j:=item]> (<[i:=p]> (<[i:=item]> h))) as Heq
    by (unfold h1; by rewrite list_insert_insert_eq).
  split_and!; [by eapply set_heap_index_Ret|apply vals_set_idx|done| |].
  - pose proof (cross_swap _ _ _ _ _ _ Hc Hij Hl1 Hl2) as Hsw.
    rewrite <-Heq in Hsw. rewrite (set_idx_comm s) in Hsw by done.
    by rewrite set_idx_set_idx in Hsw.
  - rewrite Heq. by apply Permutation_insert_swap.
Qed.

Lemma sift_up_loop_ok item fuel : ∀ i h s,
  (i < fuel)%nat → (i < length h)%nat →
  cross (<[i:=item]> h) (set_idx s (slab_idx item) i) → up_inv (<[i:=item]> h) i →
  ∃ h1 s1 c, sift_up_loop fuel h s item i = Ret (h1, s1, c) ∧ (c < length h1)%nat
    ∧ sifted (<[i:=item]> h) s (<[c:=item]> h1) (set_idx s1 (slab_idx item) c).
Proof.
  induction fuel as [|fuel IH]; intros i h s Hf Hi Hc Hup; [lia|].
  cbn [sift_up_loop].
  assert (<[i:=item]> h !! i = Some item) as Hl1 by by apply list_lookup_insert_eq.
  assert (Hstop : (∀ p, i ≠ 0%nat → h !! parent i = Some p → ¬ klt item p) →
    sifted (<[i:=item]> h) s (<[i:=item]> h) (set_idx s (slab_idx item) i)).
  { intros Hex. split; [done|apply vals_set_idx|done|]. intros j p c Hj Hjc Hjp.
    destruct (decide (j = i)) as [->|Hji]; [|by apply (proj1 Hup j)].
    simplify_eq. pose proof (parent_lt i Hj). rewrite list_lookup_insert_ne in Hjp by lia. eauto. }
  destruct (decide (i = 0%nat)) as [->|Hi0].
  { exists h, s, 0%nat. split_and!; [done..|]. by apply Hstop. }
  change ((i - 1) / 2)%nat with (parent i). pose proof (parent_lt i Hi0) as Hpi. cbv zeta.
  destruct (lookup_lt_is_Some_2 h (parent i)) as [p Hp]; [lia|]. rewrite Hp. simpl.
  destruct (key_ge (item_key item) (item_key p)) eqn:Hk.
  { exists h, s, i. split_and!; [done..|]. apply Hstop. intros p2 _ Hp2. simplify_eq.
    intros Hlt%key_ge_spec. congruence. }
  destruct (move_is_swap h s item i (parent i) p) as (s1 & Hs1 & Hv & Heq & Hc1 & Hperm);
    [lia|done..|].
  rewrite vec_set_Ret by done. simpl. rewrite list_lookup_insert_ne, Hp by lia. simpl.
  rewrite Hs1. simpl. rewrite Hk. apply key_ge_spec in Hk as Hlt.
  destruct (IH (parent i) (<[i:=p]> h) s1) as (h2 & s2 & c & -> & Hlen & Hsift);
    [lia|rewrite length_insert; lia|done| |].
  - rewrite Heq. apply up_inv_step; [done..| |done|done].
    by rewrite list_lookup_insert_ne by lia.
  - exists h2, s2, c. split_and!; [done..|]. destruct Hsift. split; [done|congruence| |done].
    by rewrite sifted_perm0.
Qed.

Lemma sift_up_ok h s item i :
  (i < length h)%nat → cross (<[i:=item]> h) (set_idx s (slab_idx item) i) →
  up_inv (<[i:=item]> h) i →
  ∃ h2 s2, sift_up h s item i = Ret (h2, s2) ∧ sifted (<[i:=item]> h) s h2 s2.
Proof.
  intros Hi Hc Hup. unfold sift_up.
  destruct (sift_up_loop_ok item (S i) i h s) as (h1 & s1 & c & -> & Hlen & Hs); [lia|done..|].
  simpl. rewrite vec_set_Ret by done. simpl.
  destruct (cross_lookup _ _ c item (sifted_cross _ _ _ _ Hs)) as [v Hv];
    [by apply list_lookup_insert_eq|].
  rewrite lookup_set_idx in Hv. apply fmap_Some in Hv as ([|w k] & Hn & Hw); [done|].
  erewrite set_heap_index_Ret by done. simpl. eauto.
Qed.

(** The child the loop compares with: no other child is smaller. *)
Definition min_child (h : list Item) (c : Item) (child : nat) : nat :=
  match h !! (child + 1)%nat with
  | Some other => if key_gt (item_key c) (item_key other) then (child + 1)%nat else child
  | None => child
  end.

Lemma min_child_ok h i c :
  h !! (2 * i + 1)%nat = Some c →
  ∃ m, h !! min_child h c (2 * i + 1) = Some m
    ∧ min_child h c (2 * i + 1) ≠ 0%nat ∧ parent (min_child h c (2 * i + 1)) = i
    ∧ ∀ j x, j ≠ 0%nat → parent j = i → h !! j = Some x → ¬ klt x m.
Proof.
  intros Hc. unfold min_child.
  assert (Hirr : ∀ x, ¬ klt x x) by (intros x Hx; by apply (klt_asym _ _ Hx)).
  assert (∀ j, j ≠ 0%nat → parent j = i → j = (2 * i + 1)%nat ∨ j = (2 * i + 1 + 1)%nat) as Hch.
  { intros j Hj Hp. destruct (proj1 (parent_children i j Hj) Hp); lia. }
  destruct (h !! (2 * i + 1 + 1)%nat) as [o|] eqn:Ho.
  2: { exists c. split_and!; [done|lia|apply parent_children; lia|].
       intros j x Hj Hp Hx. destruct (Hch j Hj Hp) as [->| ->]; by simplify_eq. }
  destruct (key_gt (item_key c) (item_key o)) eqn:Hk.
  - apply key_gt_spec in Hk. exists o. split_and!; [done|lia|apply parent_children; lia|].
    intros j x Hj Hp Hx. destruct (Hch j Hj Hp) as [->| ->]; simplify_eq; [by apply klt_asym|done].
  - exists c. split_and!; [done|lia|apply parent_children; lia|].
    intros j x Hj Hp Hx. destruct (Hch j Hj Hp) as [->| ->]; simplify_eq; [done|].
    intros Hlt%key_gt_spec. congruence.
Qed.

Lemma down_stop h i item :
  (i < length h)%nat → down_inv (<[i:=item]> h) i →
  (∀ j x, j ≠ 0%nat → parent j = i → h !! j = Some x → ¬ klt x item) →
  heap_ok (<[i:=item]> h).
Proof.
  intros Hi [Hdn _] Hch j p c Hj Hjc Hjp. destruct (decide (parent j = i)) as [Hp|Hp];
    [|by apply (Hdn j)].
  rewrite Hp, list_lookup_insert_eq in Hjp by done. simplify_eq.
  pose proof (parent_lt j Hj). rewrite list_lookup_insert_ne in Hjc by lia. eauto.
Qed.

Lemma sift_down_loop_ok item fuel : ∀ i h s,
  (length h - i < fuel)%nat → (i < length h)%nat →
  cross (<[i:=item]> h) (set_idx s (slab_idx item) i) → down_inv (<[i:=item]> h) i →
  ∃ h1 s1 c, sift_down_loop fuel h s item i (2 * i + 1) = Ret (h1, s1, c) ∧ (c < length h1)%nat
    ∧ sifted (<[i:=item]> h) s (<[c:=item]> h1) (set_idx s1 (slab_idx item) c).
Proof.
  induction fuel as [|fuel IH]; intros i h s Hf Hi Hc Hdn; [lia|]. cbn [sift_down_loop].
  assert (Hstop : (∀ j x, j ≠ 0%nat → parent j = i → h !! j = Some x → ¬ klt x item) →
    sifted (<[i:=item]> h) s (<[i:=item]> h) (set_idx s (slab_idx item) i)).
  { intros Hex. split; [done|apply vals_set_idx|done|]. by apply down_stop. }
  destruct (decide (2 * i + 1 < length h)%nat) as [Hch|Hch].
  2: { exists h, s, i. split_and!; [done..|]. apply Hstop. intros j x Hj Hp Hx.
       apply lookup_lt_Some in Hx. apply parent_children in Hp; lia. }
  destruct (lookup_lt_is_Some_2 h _ Hch) as [c Hcc]. rewrite Hcc. cbn [unwrap mbind outcome_bind].
  fold (min_child h c (2 * i + 1)).
  destruct (min_child_ok h i c Hcc) as (m & Hm & Hm0 & Hmp & Hmin).
  set (k := min_child h c (2 * i + 1)) in *. cbv zeta. rewrite Hm. cbn [unwrap mbind outcome_bind].
  pose proof (parent_lt k Hm0) as Hki.
  destruct (key_leq (item_key item) (item_key m)) eqn:Hk.
  { exists h, s, i. split_and!; [done..|]. apply Hstop. intros j x Hj Hp Hx Hlt.
    apply (not_klt_trans item m x); [|by eapply Hmin|done].
    intros Hlt'%key_leq_spec. congruence. }
  apply key_leq_spec in Hk.
  destruct (move_is_swap h s item i k m) as (s1 & Hs1 & Hv & Heq & Hc1 & Hperm); [lia|done..|].
  rewrite vec_set_Ret by done. ret_step.
  rewrite list_lookup_insert_ne, Hm by lia. cbn [unwrap mbind outcome_bind].
  rewrite Hs1. ret_step.
  destruct (IH k (<[i:=m]> h) s1) as (h2 & s2 & e & -> & Hlen & Hsift).
  - apply lookup_lt_Some in Hm. rewrite length_insert. lia.
  - apply lookup_lt_Some in Hm. by rewrite length_insert.
  - done.
  - rewrite Heq. apply down_inv_step; [done..| | |done| |done].
    + by apply list_lookup_insert_eq.
    + by rewrite list_lookup_insert_ne by lia.
    + intros j x Hj Hp Hx. pose proof (parent_lt j Hj).
      rewrite list_lookup_insert_ne in Hx by lia. by eapply Hmin.
  - exists h2, s2, e. split_and!; [done..|]. destruct Hsift. split; [done|congruence| |done].
    by rewrite sifted_perm0.
Qed.

Lemma sift_down_ok h s item i :
  (i < length h)%nat → cross (<[i:=item]> h) (set_idx s (slab_idx item) i) →
  down_inv (<[i:=item]> h) i →
  ∃ h2 s2, sift_down h s item i = Ret (h2, s2) ∧ sifted (<[i:=item]> h) s h2 s2.
Proof.
  intros Hi Hc Hdn. unfold sift_down.
  destruct (sift_down_loop_ok item (S (length h)) i h s) as (h1 & s1 & c & -> & Hlen & Hs);
    [lia|done..|].
  ret_step. rewrite vec_set_Ret by done. ret_step.
  destruct (cross_lookup _ _ c item (sifted_cross _ _ _ _ Hs)) as [v Hv];
    [by apply list_lookup_insert_eq|].
  rewrite lookup_set_idx in Hv. apply fmap_Some in Hv as ([|w k] & Hn & Hw); [done|].
  erewrite set_heap_index_Ret by done. simpl. eauto.
Qed.

(** ** The free list *)
Inductive free_chain (vs : list (option nat + V)) : option nat → list nat → Prop :=
| chain_nil : free_chain vs None []
| chain_cons i n fl :
    vs !! i = Some (inl n) → free_chain vs n fl → free_chain vs (Some i) (i :: fl).

Lemma free_chain_frame vs vs' o fl :
  free_chain vs o fl → (∀ j, j ∈ fl → vs' !! j = vs !! j) → free_chain vs' o fl.
Proof.
  induction 1 as [|i n fl Hi Hc IH]; intros Hf; [constructor|]. econstructor.
  - rewrite Hf by (by left). done.
  - apply IH. intros. apply Hf. by right.
Qed.

(** ** Entries: what the queue holds, and under which insertion keys *)
Record Entry := mkEntry { e_key : K; e_val : V; e_slot : InsertKey }.
Definition entry (vs : list (option nat + V)) (it : Item) : option Entry :=
  match vs !! slab_idx it with
  | Some (inr v) => Some (mkEntry (uk_key (item_key it)) v
                            (mkInsertKey (slab_idx it) (uk_epoch (item_key it))))
  | _ => None
  end.
Definition entries (q : IndexedPriorityQueue) : list Entry :=
  omap (entry (vals (slab q))) (heap q).

Lemma vals_lookup s j : vals s !! j = node_val <$> s !! j.
Proof. apply list_lookup_fmap. Qed.

Lemma entries_frame (vs vs' : list (option nat + V)) (h : list Item) :
  (∀ it, it ∈ h → vs' !! slab_idx it = vs !! slab_idx it) →
  omap (entry vs') h = omap (entry vs) h.
Proof.
  induction h as [|it h IH]; intros Hf; [done|].
  assert (entry vs' it = entry vs it) as Hit by (unfold entry; by rewrite Hf by (by left)).
  cbn [omap list_omap]. rewrite Hit, IH; [done|]. intros. apply Hf. by right.
Qed.

(** ** Well-formed queues *)
Record wf (q : IndexedPriorityQueue) : Prop := {
  wf_cross : cross (heap q) (slab q);
  wf_heap : heap_ok (heap q);
  wf_free : ∃ fl, free_chain (vals (slab q)) (first_free_node q) fl ∧ NoDup fl
                  ∧ ∀ j n, slab q !! j = Some (FreeNode n) → j ∈ fl;
  wf_epochs : Forall (λ it, uk_epoch (item_key it) < next_epoch q) (heap q);
  wf_distinct : NoDup ((λ it, uk_epoch (item_key it)) <$> heap q);
  wf_bound : next_epoch q ≤ U64_MAX
}.

Lemma cross_val h s i it : cross h s → h !! i = Some it →
  ∃ v, vals s !! slab_idx it = Some (inr v).
Proof.
  intros Hc Hit. destruct (cross_lookup _ _ _ _ Hc Hit) as [v Hv]. exists v.
  by rewrite vals_lookup, Hv.
Qed.

Lemma cross_ne h s i j a b : cross h s → h !! i = Some a → h !! j = Some b →
  i ≠ j → slab_idx a ≠ slab_idx b.
Proof. intros Hc Ha Hb Hij E. apply Hij. by eapply cross_inj. Qed.

(** *** Adding an item at the bottom *)
Lemma cross_snoc h s s1 uk idx v k :
  cross h s → s1 !! idx = Some (HeapNode v k) →
  (∀ j, j ≠ idx → s1 !! j = s !! j) → (∀ w i, s !! idx ≠ Some (HeapNode w i)) →
  cross (h ++ [mkItem uk idx]) (set_idx s1 idx (length h)).
Proof.
  intros [Hf Hr] Hidx Hfr Hno. split.
  - intros i it [Hi|[Hlen Hs]]%lookup_app_Some.
    + destruct (Hf _ _ Hi) as [w Hw]. exists w. assert (slab_idx it ≠ idx) as Hne.
      { intros E. rewrite E in Hw. by apply Hno in Hw. }
      by rewrite lookup_set_idx_ne, Hfr by done.
    + apply list_lookup_singleton_Some in Hs as [Hi <-].
      exists v. simpl. rewrite lookup_set_idx, Hidx. simpl. do 2 f_equal. lia.
  - intros j w i. destruct (decide (idx = j)) as [<-|Hj].
    + rewrite lookup_set_idx, Hidx. simpl. intros [= -> <-]. exists (mkItem uk idx).
      split; [|done]. by rewrite lookup_app_r, Nat.sub_diag by lia.
    + rewrite lookup_set_idx_ne, Hfr by done. intros Hw. destruct (Hr _ _ _ Hw) as (it & Hit & ?).
      exists it. split; [|done]. by apply lookup_app_l_Some.
Qed.

Lemma up_inv_snoc h it : heap_ok h → up_inv (h ++ [it]) (length h).
Proof.
  intros Hok. split.
  - intros j p c Hj Hjl Hc Hp. pose proof (parent_lt j Hj).
    apply lookup_lt_Some in Hc as Hl. rewrite length_app in Hl. simpl in Hl.
    rewrite lookup_app_l in Hc by lia. rewrite lookup_app_l in Hp by lia. by apply (Hok j).
  - intros j g c Hj _ Hp Hc. apply lookup_lt_Some in Hc. rewrite length_app in Hc. simpl in Hc.
    pose proof (parent_lt j Hj). lia.
Qed.

Lemma entries_cons vs it h v :
  vs !! slab_idx it = Some (inr v) →
  omap (entry vs) (it :: h) =
    mkEntry (uk_key (item_key it)) v (mkInsertKey (slab_idx it) (uk_epoch (item_key it)))
      :: omap (entry vs) h.
Proof. intros Hv. cbn [omap list_omap]. unfold entry at 1. by rewrite Hv. Qed.

Lemma vals_insert s j n : vals (<[j:=n]> s) = <[j:=node_val n]> (vals s).
Proof. apply list_fmap_insert. Qed.

Lemma vals_None_lookup s j n :
  vals s !! j = Some (inl n) ↔ s !! j = Some (FreeNode n).
Proof.
  rewrite vals_lookup. destruct (s !! j) as [[]|]; simpl; naive_solver.
Qed.

(** *** Allocating a slab node *)
Record allocated (s : list Node) (free : option nat) (v : V)
    (s1 : list Node) (free1 : option nat) (idx : nat) : Prop := {
  alloc_node_at : s1 !! idx = Some (HeapNode v 0);
  alloc_frame : ∀ j, j ≠ idx → s1 !! j = s !! j;
  alloc_fresh : ∀ w i, s !! idx ≠ Some (HeapNode w i);
  alloc_free : ∃ fl, free_chain (vals s1) free1 fl ∧ NoDup fl
                 ∧ ∀ j n, s1 !! j = Some (FreeNode n) → j ∈ fl
}.

Lemma alloc_node_ok s free v fl :
  free_chain (vals s) free fl → NoDup fl →
  (∀ j n, s !! j = Some (FreeNode n) → j ∈ fl) →
  ∃ s1 free1 idx, alloc_node s free v = Ret (s1, free1, idx) ∧ allocated s free v s1 free1 idx.
Proof.
  intros Hch Hnd Hall. destruct Hch as [|i n fl Hi Hch]; simpl.
  - exists (s ++ [HeapNode v 0]), None, (length s). split; [done|]. split.
    + by rewrite lookup_app_r, Nat.sub_diag by lia.
    + intros j Hj. destruct (decide (j < length s)%nat); [by rewrite lookup_app_l|].
      rewrite !(proj2 (lookup_ge_None _ _)); [done|lia|rewrite length_app; simpl; lia].
    + intros w i. by rewrite (proj2 (lookup_ge_None _ _)) by lia.
    + exists []. split_and!; [constructor|done|].
      intros j n [Hj|[_ Hj]]%lookup_app_Some; [by apply Hall in Hj|].
      by apply list_lookup_singleton_Some in Hj as [_ ?].
  - apply vals_None_lookup in Hi as Hsi. rewrite Hsi. simpl.
    apply lookup_lt_Some in Hsi as Hlt. rewrite vec_set_Ret by done. simpl.
    apply NoDup_cons in Hnd as [Hnin Hnd].
    exists (<[i:=HeapNode v 0]> s), n, i. split; [done|]. split.
    + by apply list_lookup_insert_eq.
    + intros j Hj. by apply list_lookup_insert_ne.
    + intros w k. by rewrite Hsi.
    + exists fl. split_and!; [|done|].
      * eapply free_chain_frame; [done|]. intros j Hj. rewrite vals_insert.
        apply list_lookup_insert_ne. by intros ->.
      * intros j m. destruct (decide (i = j)) as [->|Hne].
        { by rewrite list_lookup_insert_eq. }
        rewrite list_lookup_insert_ne by done. intros Hj. apply Hall in Hj. set_solver.
Qed.

Definition item_epoch (it : Item) : Z := uk_epoch (item_key it).

Lemma entries_perm vs (h h' : list Item) :
  h ≡ₚ h' → omap (entry vs) h ≡ₚ omap (entry vs) h'.
Proof. by intros ->. Qed.

(** *** [insert] *)
Lemma insert_ok q k v :
  wf q → next_epoch q < U64_MAX →
  ∃ q' ik, insert k v q = Ret (q', ik) ∧ wf q'
    ∧ entries q' ≡ₚ mkEntry k v ik :: entries q
    ∧ next_epoch q' = next_epoch q + 1 ∧ ik_epoch ik = next_epoch q.
Proof.
  intros [Hc Hh (fl & Hfl & Hnd & Hall) He Hd Hb] Hlt. unfold insert.
  rewrite decide_False by lia.
  destruct (alloc_node_ok (slab q) (first_free_node q) v fl)
    as (s1 & free1 & idx & -> & [Hat Hfr Hfresh Hfree]); [done..|].
  ret_step.
  set (uk := mkUK k (next_epoch q)). set (it := mkItem uk idx).
  assert (<[length (heap q):=it]> (heap q ++ [mkItem uk 0]) = heap q ++ [it]) as Hins.
  { rewrite insert_app_r_alt, Nat.sub_diag by lia. done. }
  destruct (sift_up_ok (heap q ++ [mkItem uk 0]) s1 it (length (heap q)))
    as (h2 & s2 & -> & Hs); rewrite ?Hins.
  { rewrite length_app. simpl. lia. }
  { by eapply cross_snoc. }
  { by apply up_inv_snoc. }
  rewrite Hins in Hs. destruct Hs as [Hc2 Hv2 Hp2 Hok2]. ret_step.
  assert (h2 ≡ₚ it :: heap q) as Hp3 by (rewrite Hp2; by rewrite (comm (++))).
  eexists _, _. split; [done|]. split_and!; [|..|done|done].
  - split; cbn [heap slab first_free_node next_epoch].
    + done.
    + done.
    + rewrite Hv2. destruct Hfree as (fl1 & Hf1 & Hf2 & Hf3). exists fl1.
      split_and!; [done|done|]. intros j n Hj. apply (Hf3 j n).
      apply vals_None_lookup. rewrite <-Hv2. by apply vals_None_lookup.
    + rewrite Hp3. constructor; [simpl; lia|]. eapply Forall_impl; [exact He|]. simpl. lia.
    + rewrite Hp3. simpl. constructor; [|done]. intros (x & Hx & Hin)%list_elem_of_fmap.
      rewrite Forall_forall in He. specialize (He _ Hin). simpl in He. lia.
    + lia.
  - unfold entries. simpl. rewrite Hv2, Hp3, (entries_cons _ it _ v).
    2: { by rewrite vals_lookup; simpl; rewrite Hat. }
    f_equiv. erewrite entries_frame; [done|]. intros x [i Hx]%list_elem_of_lookup.
    rewrite !vals_lookup, Hfr; [done|]. intros E.
    destruct (cross_lookup _ _ _ _ Hc Hx) as [w Hw]. rewrite E in Hw. by apply Hfresh in Hw.
Qed.

Lemma insert_exhausted q k v : next_epoch q = U64_MAX → insert k v q = Panic.
Proof. intros Hq. unfold insert. by rewrite decide_True. Qed.

(** *** Removing the item at [i] and moving the last item into its place *)
Lemma vec_pop_snoc {A} (l : list A) x : vec_pop (l ++ [x]) = Ret (x, l).
Proof.
  unfold vec_pop. rewrite last_snoc. simpl. rewrite length_app. simpl.
  rewrite Nat.add_1_r. cbn [pred]. by rewrite take_app_length.
Qed.

Lemma removed_perm (h1 : list Item) lst i it :
  (h1 ++ [lst]) !! i = Some it → (i < length h1)%nat →
  h1 ++ [lst] ≡ₚ it :: <[i:=lst]> h1.
Proof.
  intros Hi Hl. rewrite lookup_app_l in Hi by done.
  rewrite (insert_take_drop _ _ _ Hl).
  rewrite <-(take_drop_middle h1 i it Hi) at 1.
  rewrite (comm (++) _ [lst]). simpl.
  rewrite <-!Permutation_middle. apply perm_swap.
Qed.

Lemma cross_removed h1 lst s i it n :
  cross (h1 ++ [lst]) s → (h1 ++ [lst]) !! i = Some it → (i < length h1)%nat →
  cross (<[i:=lst]> h1) (set_idx (<[slab_idx it:=FreeNode n]> s) (slab_idx lst) i).
Proof.
  intros Hc Hi Hl. assert ((h1 ++ [lst]) !! length h1 = Some lst) as Hlast
    by (by rewrite lookup_app_r, Nat.sub_diag by lia).
  assert (slab_idx it ≠ slab_idx lst) as Hne by (eapply cross_ne; [done..|lia]).
  destruct (cross_lookup _ _ _ _ Hc Hlast) as [vl Hvl].
  assert (∀ j x, h1 !! j = Some x → (h1 ++ [lst]) !! j = Some x) as Hmono
    by (intros; by apply lookup_app_l_Some).
  destruct Hc as [Hf Hr]. split.
  - intros j x Hj. destruct (decide (i = j)) as [<-|Hij].
    + rewrite list_lookup_insert_eq in Hj by done. simplify_eq. exists vl.
      by rewrite lookup_set_idx, list_lookup_insert_ne, Hvl by done.
    + rewrite list_lookup_insert_ne in Hj by done. apply lookup_lt_Some in Hj as Hjl.
      apply Hmono in Hj. destruct (Hf _ _ Hj) as [w Hw]. exists w.
      rewrite lookup_set_idx_ne, list_lookup_insert_ne; [done|..].
      * eapply (cross_ne (h1 ++ [lst])); [by split|done|done|lia].
      * eapply (cross_ne (h1 ++ [lst])); [by split|done|done|lia].
  - intros j v k. destruct (decide (slab_idx lst = j)) as [<-|Hj].
    + rewrite lookup_set_idx, list_lookup_insert_ne, Hvl by done. intros [= <- <-].
      exists lst. by rewrite list_lookup_insert_eq.
    + rewrite lookup_set_idx_ne by done. destruct (decide (slab_idx it = j)) as [<-|Hj'].
      { rewrite list_lookup_insert_eq; [done|].
        destruct (Hf _ _ Hi) as [w Hw]. by eapply lookup_lt_Some. }
      rewrite list_lookup_insert_ne by done. intros Hk.
      destruct (Hr _ _ _ Hk) as (x & Hx & Hsx). exists x. split; [|done].
      rewrite list_lookup_insert_ne by (intros <-; congruence).
      apply lookup_app_Some in Hx as [Hx|[Hg Hx]]; [done|].
      apply list_lookup_singleton_Some in Hx as [_ <-]. done.
Qed.

Lemma cross_removed_last h1 it s n :
  cross (h1 ++ [it]) s → cross h1 (<[slab_idx it:=FreeNode n]> s).
Proof.
  intros Hc. assert ((h1 ++ [it]) !! length h1 = Some it) as Hlast
    by (by rewrite lookup_app_r, Nat.sub_diag by lia).
  destruct (cross_lookup _ _ _ _ Hc Hlast) as [vl Hvl]. split.
  - intros j x Hj. apply lookup_lt_Some in Hj as Hjl.
    assert ((h1 ++ [it]) !! j = Some x) as Hj' by (by apply lookup_app_l_Some).
    rewrite list_lookup_insert_ne; [by apply Hc|]. eapply cross_ne; [done..|lia].
  - intros j v k. destruct (decide (slab_idx it = j)) as [<-|Hj].
    { rewrite list_lookup_insert_eq; [done|]. by eapply lookup_lt_Some. }
    rewrite list_lookup_insert_ne by done. intros Hk.
    destruct (proj2 Hc _ _ _ Hk) as (x & Hx & Hsx). exists x. split; [|done].
    apply lookup_app_Some in Hx as [Hx|[Hg Hx]]; [done|].
    apply list_lookup_singleton_Some in Hx as [_ <-]. done.
Qed.

Lemma removed_over_hole h1 lst i it :
  heap_ok (h1 ++ [lst]) → (h1 ++ [lst]) !! i = Some it → (i < length h1)%nat →
  over_hole (<[i:=lst]> h1) i.
Proof.
  intros Hok Hi Hl j g c Hj Hi0 Hpj Hc Hg. pose proof (parent_lt j Hj). pose proof (parent_lt i Hi0).
  rewrite list_lookup_insert_ne in Hc by lia. rewrite list_lookup_insert_ne in Hg by lia.
  apply (not_klt_trans g it c).
  - apply (Hok i); [done|done|by apply lookup_app_l_Some].
  - apply (Hok j); [done|by apply lookup_app_l_Some|by rewrite Hpj].
Qed.

Lemma removed_up_inv h1 lst i it :
  heap_ok (h1 ++ [lst]) → (h1 ++ [lst]) !! i = Some it → (i < length h1)%nat →
  klt lst it → up_inv (<[i:=lst]> h1) i.
Proof.
  intros Hok Hi Hl Hk. split; [|by eapply removed_over_hole].
  intros j p c Hj Hji Hc Hp. rewrite list_lookup_insert_ne in Hc by done.
  assert ((h1 ++ [lst]) !! j = Some c) as Hc' by (by apply lookup_app_l_Some).
  destruct (decide (parent j = i)) as [Hpi|Hpi].
  - rewrite Hpi, list_lookup_insert_eq in Hp by done. simplify_eq.
    intros Hcl. apply (Hok j it c Hj Hc' Hi). by eapply klt_trans.
  - rewrite list_lookup_insert_ne in Hp by done.
    apply (Hok j); [done|done|by apply lookup_app_l_Some].
Qed.

Lemma removed_down_inv h1 lst i it :
  heap_ok (h1 ++ [lst]) → (h1 ++ [lst]) !! i = Some it → (i < length h1)%nat →
  ¬ klt lst it → down_inv (<[i:=lst]> h1) i.
Proof.
  intros Hok Hi Hl Hk. split; [|by eapply removed_over_hole].
  intros j p c Hj Hji Hc Hp. rewrite list_lookup_insert_ne in Hp by done.
  assert ((h1 ++ [lst]) !! parent j = Some p) as Hp' by (by apply lookup_app_l_Some).
  destruct (decide (i = j)) as [<-|Hij].
  - rewrite list_lookup_insert_eq in Hc by done. simplify_eq.
    apply (not_klt_trans p it c); [|done]. by apply (Hok i).
  - rewrite list_lookup_insert_ne in Hc by done.
    apply (Hok j); [done|by apply lookup_app_l_Some|done].
Qed.

(** What is left once an item [it] holding [v] is gone. *)
Lemma removal_wf q it v i hf h2 s2 :
  wf q → heap q !! i = Some it → slab q !! slab_idx it = Some (HeapNode v i) →
  heap q ≡ₚ it :: hf →
  sifted hf (<[slab_idx it:=FreeNode (first_free_node q)]> (slab q)) h2 s2 →
  let q' := mkIPQ h2 s2 (Some (slab_idx it)) (next_epoch q) in
  wf q' ∧ entries q ≡ₚ mkEntry (uk_key (item_key it)) v
                         (mkInsertKey (slab_idx it) (item_epoch it)) :: entries q'.
Proof.
  intros [Hc Hh (fl & Hfl & Hnd & Hall) He Hd Hb] Hi Hv Hp [Hc2 Hv2 Hp2 Hok2] q'.
  assert (slab_idx it < length (slab q))%nat as Hlt by (by eapply lookup_lt_Some).
  set (s1 := <[slab_idx it:=FreeNode (first_free_node q)]> (slab q)) in *.
  assert (heap q ≡ₚ it :: h2) as Hp3 by by rewrite Hp2.
  assert (slab_idx it ∉ fl) as Hnin.
  { intros Hin. clear -Hfl Hin Hv. induction Hfl as [|j n fl Hj Hfl IH]; [set_solver|].
    apply elem_of_cons in Hin as [<-|Hin]; [|by apply IH].
    apply vals_None_lookup in Hj. congruence. }
  split; [split|]; unfold q'; cbn [heap slab first_free_node next_epoch].
  - done.
  - done.
  - exists (slab_idx it :: fl). rewrite Hv2. split_and!.
    + econstructor; [apply vals_None_lookup; by apply list_lookup_insert_eq|].
      eapply free_chain_frame; [done|]. intros j Hj. unfold s1. rewrite vals_insert.
      apply list_lookup_insert_ne. by intros <-.
    + by constructor.
    + intros j n Hj. apply vals_None_lookup in Hj. rewrite Hv2 in Hj. apply vals_None_lookup in Hj.
      destruct (decide (slab_idx it = j)) as [<-|Hne]; [by left|].
      unfold s1 in Hj. rewrite list_lookup_insert_ne in Hj by done. right. by eapply Hall.
  - rewrite Hp3 in He. by inversion He.
  - rewrite Hp3 in Hd. by inversion Hd.
  - done.
  - unfold entries. cbn [heap slab]. rewrite Hp3, (entries_cons _ it _ v) by (by rewrite vals_lookup, Hv).
    f_equiv. rewrite Hv2. unfold s1. rewrite vals_insert. erewrite entries_frame; [done|].
    intros x Hx. rewrite list_lookup_insert_ne; [done|]. intros E.
    apply list_elem_of_lookup in Hx as [j Hj]. destruct (cross_val _ _ _ _ Hc2 Hj) as [w Hw].
    rewrite Hv2 in Hw. unfold s1 in Hw. rewrite vals_insert, <-E, list_lookup_insert_eq in Hw;
      [done|]. unfold vals. by rewrite length_fmap.
Qed.

Lemma heap_snoc (h : list Item) : h ≠ [] → ∃ h1 lst, h = h1 ++ [lst].
Proof. destruct h as [|x h] using rev_ind; naive_solver. Qed.

Lemma sifted_refl h s : cross h s → heap_ok h → sifted h s h s.
Proof. by split. Qed.

Lemma heap_ok_prefix h1 it : heap_ok (h1 ++ [it]) → heap_ok h1.
Proof.
  intros Hok i p c Hi Hc Hp. apply (Hok i); [done|by apply lookup_app_l_Some..].
Qed.

Lemma entry_slot_lookup q e :
  cross (heap q) (slab q) → e ∈ entries q →
  ∃ i it, heap q !! i = Some it ∧ slab_idx it = ik_slab_idx (e_slot e)
    ∧ item_key it = mkUK (e_key e) (ik_epoch (e_slot e))
    ∧ slab q !! slab_idx it = Some (HeapNode (e_val e) i).
Proof.
  intros Hc (it & Hin & He)%list_elem_of_omap. apply list_elem_of_lookup in Hin as [i Hi].
  destruct (cross_lookup _ _ _ _ Hc Hi) as [v Hv]. exists i, it.
  unfold entry in He. rewrite vals_lookup, Hv in He. simpl in He. simplify_eq. simpl.
  split_and!; [done|done| |done]. by destruct (item_key it).
Qed.

Lemma slot_lookup_entry q i it v :
  heap q !! i = Some it → slab q !! slab_idx it = Some (HeapNode v i) →
  mkEntry (uk_key (item_key it)) v (mkInsertKey (slab_idx it) (item_epoch it)) ∈ entries q.
Proof.
  intros Hi Hv. apply list_elem_of_omap. exists it. split; [by eapply list_elem_of_lookup_2|].
  unfold entry. by rewrite vals_lookup, Hv.
Qed.

(** The order in which entries leave the queue. *)
Definition e_before : relation Entry := stamped_before e_key (λ e, ik_epoch (e_slot e)).

Lemma klt_before a b va vb :
  klt a b ↔ e_before (mkEntry (uk_key (item_key a)) va (mkInsertKey (slab_idx a) (item_epoch a)))
                     (mkEntry (uk_key (item_key b)) vb (mkInsertKey (slab_idx b) (item_epoch b))).
Proof.
  unfold klt, e_before, stamped_before, uk_cmp, lex_cmp, item_epoch. simpl.
  destruct (cmp (uk_key (item_key a)) (uk_key (item_key b))) eqn:E.
  - apply cmp_eq in E. rewrite Z.compare_lt_iff. naive_solver.
  - naive_solver.
  - split; [done|]. intros [?|[Hk _]]; [done|]. rewrite Hk, cmp_refl in E. done.
Qed.

(** *** [pull] *)
Lemma pull_empty q : wf q → entries q = [] → pull q = Ret (None, q).
Proof.
  intros Hw He. unfold pull. destruct (heap q !! 0%nat) as [it|] eqn:Hi; [|done].
  destruct (cross_lookup _ _ _ _ (wf_cross _ Hw) Hi) as [v Hv].
  pose proof (slot_lookup_entry _ _ _ _ Hi Hv) as Hin. rewrite He in Hin. set_solver.
Qed.

Lemma pull_ok q :
  wf q → entries q ≠ [] →
  ∃ e q', pull q = Ret (Some (e_key e, e_val e), q') ∧ wf q' ∧ entries q ≡ₚ e :: entries q'
    ∧ next_epoch q' = next_epoch q ∧ ∀ x, x ∈ entries q → ¬ e_before x e.
Proof.
  intros Hw Hne. pose proof (wf_cross _ Hw) as Hc. pose proof (wf_heap _ Hw) as Hok. unfold pull.
  destruct (heap_snoc (heap q)) as (h1 & lst & Hh).
  { intros E. unfold entries in Hne. by rewrite E in Hne. }
  destruct (heap q !! 0%nat) as [it|] eqn:Hi.
  2: { apply lookup_ge_None in Hi. rewrite Hh, length_app in Hi. simpl in Hi. lia. }
  destruct (cross_lookup _ _ _ _ Hc Hi) as [v Hv].
  assert (slab_idx it < length (slab q))%nat by (by eapply lookup_lt_Some).
  rewrite Hv. cbn [unwrap mbind outcome_bind]. rewrite vec_set_Ret by done.
  cbn [unwrap_value mbind outcome_bind]. rewrite Hh, vec_pop_snoc. ret_step.
  set (s1 := <[slab_idx it:=FreeNode (first_free_node q)]> (slab q)).
  assert (∃ h2 s2, (if decide (slab_idx lst = slab_idx it) then Ret (h1, s1) else sift_down h1 s1 lst 0)
            = Ret (h2, s2)
          ∧ ∃ hf, heap q ≡ₚ it :: hf ∧ sifted hf s1 h2 s2) as (h2 & s2 & -> & hf & Hp & Hs).
  { rewrite Hh in Hc, Hi, Hok. destruct (decide (slab_idx lst = slab_idx it)) as [E|E].
    - exists h1, s1. split; [done|]. exists h1.
      assert (0%nat = length h1) as E0.
      { eapply cross_inj; [done|done| |done]. by rewrite lookup_app_r, Nat.sub_diag by lia. }
      assert (it = lst) as ->. { rewrite E0, lookup_app_r, Nat.sub_diag in Hi by lia. by simplify_eq/=. }
      split; [rewrite Hh; by rewrite (comm (++))|]. apply sifted_refl.
      + by apply cross_removed_last.
      + by eapply heap_ok_prefix.
    - assert (0 < length h1)%nat as Hl.
      { destruct h1; simpl in *; [|lia]. simplify_eq. }
      destruct (sift_down_ok h1 s1 lst 0) as (h2 & s2 & Hsd & Hs); [done| | |].
      + by eapply cross_removed.
      + eapply removed_down_inv; [done|done|done|]. apply (heap_ok_root _ it Hok Hi (length h1)).
        by rewrite lookup_app_r, Nat.sub_diag by lia.
      + exists h2, s2. split; [done|]. exists (<[0%nat:=lst]> h1). split; [|done].
        rewrite Hh. by apply removed_perm. }
  destruct (removal_wf q it v 0 hf h2 s2) as [Hw' Hen]; [done..|].
  exists (mkEntry (uk_key (item_key it)) v (mkInsertKey (slab_idx it) (item_epoch it))).
  eexists. split; [done|]. split_and!; [done|exact Hen|done|].
  intros [xk xv [xi xe]] Hx. destruct (entry_slot_lookup _ _ Hc Hx) as (i & x & Hxi & Hsl & Hk & Hxv).
  simpl in *. replace xk with (uk_key (item_key x)) by by rewrite Hk.
  replace xe with (item_epoch x) by (unfold item_epoch; by rewrite Hk). subst xi.
  intros Hb%klt_before. by eapply (heap_ok_root (heap q)).
Qed.

Lemma ipq_peek_pull q r q' : pull q = Ret (r, q') → peek q = Ret r.
Proof.
  unfold pull, peek. destruct (heap q !! 0%nat) as [it|]; [|naive_solver].
  destruct (slab q !! slab_idx it) as [n|]; [|done]. cbn [unwrap mbind outcome_bind].
  intros (s1 & _ & (v & Hv & (x & _ & Hx)%bind_Ret)%bind_Ret)%bind_Ret. rewrite Hv. simpl.
  destruct x as [lst h1]. inv_ret Hx as ([h2 s2] & _ & Hx). by simplify_eq.
Qed.

Lemma peek_key_peek q : wf q → peek_key q = fst <$> (match peek q with Ret r => r | _ => None end).
Proof.
  intros Hw. unfold peek_key, peek. destruct (heap q !! 0%nat) as [it|] eqn:Hi; [|done].
  destruct (cross_lookup _ _ _ _ (wf_cross _ Hw) Hi) as [v Hv]. by rewrite Hv.
Qed.

(** *** [extract] *)
Lemma extract_stale q ik :
  wf q → (∀ e, e ∈ entries q → e_slot e ≠ ik) → extract ik q = Ret (None, q).
Proof.
  intros Hw Hn. unfold extract. destruct (slab q !! ik_slab_idx ik) as [[|v i]|] eqn:Hs; [done| |done].
  destruct (proj2 (wf_cross _ Hw) _ _ _ Hs) as (it & Hit & Hsl). rewrite Hit. simpl.
  rewrite decide_False; [done|]. intros E.
  apply (Hn (mkEntry (uk_key (item_key it)) v (mkInsertKey (slab_idx it) (item_epoch it)))).
  - eapply slot_lookup_entry; [done|by rewrite Hsl].
  - unfold item_epoch. simpl. rewrite Hsl, E. by destruct ik.
Qed.

Lemma extract_ok q e :
  wf q → e ∈ entries q →
  ∃ q', extract (e_slot e) q = Ret (Some (e_key e, e_val e), q') ∧ wf q'
    ∧ entries q ≡ₚ e :: entries q' ∧ next_epoch q' = next_epoch q.
Proof.
  intros Hw Hin. pose proof (wf_cross _ Hw) as Hc. pose proof (wf_heap _ Hw) as Hok.
  destruct (entry_slot_lookup _ _ Hc Hin) as (i & it & Hi & Hsl & Hk & Hv).
  unfold extract. rewrite <-Hsl, Hv, Hi. cbn [unwrap mbind outcome_bind].
  rewrite decide_True by (by rewrite Hk).
  assert (slab_idx it < length (slab q))%nat by (by eapply lookup_lt_Some).
  rewrite vec_set_Ret by done. ret_step.
  destruct (heap_snoc (heap q)) as (h1 & lst & Hh). { by intros E; rewrite E in Hi. }
  rewrite Hh, vec_pop_snoc. ret_step.
  set (s1 := <[slab_idx it:=FreeNode (first_free_node q)]> (slab q)).
  assert (∃ h2 s2, match h1 !! i with
            | Some item => if key_lt (item_key lst) (item_key item) then sift_up h1 s1 lst i
                           else sift_down h1 s1 lst i
            | None => Ret (h1, s1) end = Ret (h2, s2)
          ∧ ∃ hf, heap q ≡ₚ it :: hf ∧ sifted hf s1 h2 s2) as (h2 & s2 & -> & hf & Hp & Hs).
  { rewrite Hh in Hc, Hi, Hok. destruct (h1 !! i) as [x|] eqn:Hx.
    - assert (i < length h1)%nat as Hl by (by eapply lookup_lt_Some).
      assert (x = it) as -> by (rewrite lookup_app_l in Hi by done; congruence).
      assert (∃ h2 s2, (if key_lt (item_key lst) (item_key it) then sift_up h1 s1 lst i
                        else sift_down h1 s1 lst i) = Ret (h2, s2)
              ∧ sifted (<[i:=lst]> h1) s1 h2 s2) as (h2 & s2 & Heq & Hs).
      { destruct (key_lt (item_key lst) (item_key it)) eqn:Hlt.
        - apply sift_up_ok; [done|by eapply cross_removed|].
          eapply removed_up_inv; [done..|]. by apply key_lt_spec.
        - apply sift_down_ok; [done|by eapply cross_removed|].
          eapply removed_down_inv; [done..|]. rewrite <-key_lt_spec. congruence. }
      exists h2, s2. split; [done|]. exists (<[i:=lst]> h1). split; [|done].
      rewrite Hh. by apply removed_perm.
    - exists h1, s1. split; [done|]. exists h1. apply lookup_ge_None in Hx.
      rewrite lookup_app_r in Hi by done. apply list_lookup_singleton_Some in Hi as [? ->].
      split; [rewrite Hh; by rewrite (comm (++))|]. apply sifted_refl.
      + by apply cross_removed_last.
      + by eapply heap_ok_prefix. }
  destruct (removal_wf q it (e_val e) i hf h2 s2) as [Hw' Hen]; [done..|].
  eexists. ret_step. split; [by rewrite Hk|]. split_and!; [done| |done].
  rewrite Hen. replace (mkEntry _ _ _) with e; [done|]. unfold item_epoch. rewrite Hk, Hsl.
  by destruct e as [? ? []].
Qed.

Lemma new_wf : wf new.
Proof.
  split; cbn [heap slab first_free_node next_epoch new].
  - split; intros *; rewrite lookup_nil; done.
  - intros i p c. by rewrite lookup_nil.
  - exists []. split_and!; [constructor..|]. intros *. by rewrite lookup_nil.
  - constructor.
  - constructor.
  - done.
Qed.

Lemma entries_length q : wf q → length (entries q) = len q.
Proof.
  intros Hw. unfold entries, len. assert (Forall (λ it, is_Some (entry (vals (slab q)) it)) (heap q)) as Hf.
  { apply Forall_forall. intros it [i Hi]%list_elem_of_lookup.
    destruct (cross_val _ _ _ _ (wf_cross _ Hw) Hi) as [v Hv]. unfold entry. by rewrite Hv. }
  induction Hf as [|it h [e He] Hf IH]; [done|]. cbn [omap list_omap]. rewrite He. simpl. by f_equal.
Qed.

(** ** Refinement of the stable queue *)
Definition repr (q : IndexedPriorityQueue) (l : list (K * V)) : Prop :=
  wf q ∧ ∃ es, es ≡ₚ entries q ∧ StronglySorted e_before es
               ∧ l = (λ e, (e_key e, e_val e)) <$> es.

Lemma entries_epochs q : wf q → Forall (λ e, ik_epoch (e_slot e) < next_epoch q) (entries q).
Proof.
  intros Hw. apply Forall_forall. intros e He.
  destruct (entry_slot_lookup _ _ (wf_cross _ Hw) He) as (i & it & Hi & _ & Hk & _).
  pose proof (wf_epochs _ Hw) as Hf. rewrite Forall_forall in Hf.
  specialize (Hf it (list_elem_of_lookup_2 _ _ _ Hi)). simpl in Hf. by rewrite Hk in Hf.
Qed.

Lemma ipq_insert_repr q l k v :
  repr q l → next_epoch q < U64_MAX →
  ∃ q' ik, insert k v q = Ret (q', ik) ∧ repr q' (spq_insert k v l)
    ∧ next_epoch q' = next_epoch q + 1.
Proof.
  intros (Hw & es & Hp & Hs & ->) Hlt.
  destruct (insert_ok q k v Hw Hlt) as (q' & ik & -> & Hw' & Hen & Hne & Hik).
  exists q', ik. split; [done|]. split; [|done]. split; [done|].
  destruct (spq_insert_stamped e_key e_val (λ e, ik_epoch (e_slot e)) es (mkEntry k v ik))
    as (es' & Hp' & Hs' & Heq); [done| |].
  - rewrite Hp. simpl. rewrite Hik. by apply entries_epochs.
  - exists es'. split_and!; [by rewrite Hp', Hp, Hen|done|exact Heq].
Qed.

Lemma ipq_pull_repr q l :
  repr q l → ∃ q', pull q = Ret (head l, q') ∧ repr q' (tail l) ∧ next_epoch q' = next_epoch q.
Proof.
  intros (Hw & es & Hp & Hs & ->). destruct es as [|e es].
  { exists q. split; [|split; [split; [done|]; by exists []|done]]. apply pull_empty; [done|].
    symmetry. by apply Permutation_nil_l. }
  destruct (pull_ok q Hw) as (m & q' & Hpull & Hw' & Hen & Hne & Hmin).
  { intros E. rewrite E in Hp. by apply Permutation_nil_r in Hp. }
  assert (m = e) as ->.
  { eapply sorted_head_min; [done| |].
    - rewrite Hp, Hen. by left.
    - intros x. rewrite Hp. apply Hmin. }
  exists q'. rewrite fmap_cons. split; [done|]. split; [|done]. split; [done|].
  exists es. split_and!; [|by inversion Hs|done].
  rewrite Hen in Hp. by apply (Permutation_cons_inv (a := e)).
Qed.

(** Removal by insertion key takes exactly the pair that the key designates. *)
Lemma ipq_extract_repr q es e :
  wf q → es ≡ₚ entries q → StronglySorted e_before es → e ∈ es →
  ∃ q' es1 es2, es = es1 ++ e :: es2
    ∧ extract (e_slot e) q = Ret (Some (e_key e, e_val e), q')
    ∧ repr q' ((λ e, (e_key e, e_val e)) <$> (es1 ++ es2)).
Proof.
  intros Hw Hp Hs He. apply list_elem_of_split in He as (es1 & es2 & ->).
  destruct (extract_ok q e Hw) as (q' & Hex & Hw' & Hen & _).
  { rewrite <-Hp. set_solver. }
  exists q', es1, es2. split_and!; [done..|]. split; [done|]. exists (es1 ++ es2).
  split_and!; [| |done].
  - rewrite Hen, <-Permutation_middle in Hp. by apply (Permutation_cons_inv (a := e)).
  - apply StronglySorted_app_inv in Hs as (? & Hs2 & HR). inversion Hs2; subst.
    apply StronglySorted_app_intro; [done..|]. intros. apply HR; set_solver.
Qed.
End ipq.
Arguments UniqueKey : clear implicits.
Arguments Item : clear implicits.
Arguments Node : clear implicits.
Arguments IndexedPriorityQueue : clear implicits.
Arguments Entry : clear implicits.

#[global] Instance InsertKey_eq_dec : EqDecision InsertKey.
Proof. solve_decision. Defined.
End IPQ.

(** The queue with deletion implements the contract as well. *)
#[export] Instance IndexedPriorityQueue_StablePQ {K V} `{Ord K} :
  StablePQ K V (IPQ.IndexedPriorityQueue K V).
Proof.
  refine {|
    pq_new := IPQ.new;
    pq_insert k v q := fst <$> IPQ.insert k v q;
    pq_pull := IPQ.pull;
    pq_peek := IPQ.peek;
    pq_repr := IPQ.repr;
    pq_room q := U64_MAX - IPQ.next_epoch q;
    pq_len := IPQ.len
  |}.
  - split; [apply IPQ.new_wf|]. exists []. split_and!; [done|constructor|done].
  - intros q l (_ & es & _ & Hs & ->). by eapply stamped_sorted.
  - intros q l k v Hr Hroom. destruct (IPQ.ipq_insert_repr q l k v Hr) as (q' & ik & -> & Hr' & Hn);
      [lia|]. exists q'. split_and!; [done..|lia].
  - intros q l k v [Hw _] Hroom. rewrite IPQ.insert_exhausted; [done|].
    pose proof (IPQ.wf_bound q Hw). lia.
  - intros q l Hr. destruct (IPQ.ipq_pull_repr q l Hr) as (q' & ? & ? & ?). exists q'.
    split_and!; [done..|lia].
  - intros q l Hr. destruct (IPQ.ipq_pull_repr q l Hr) as (q' & Hp & _).
    by eapply IPQ.ipq_peek_pull.
  - intros q l (Hw & es & Hp & _ & ->). rewrite length_fmap, Hp. symmetry. by apply IPQ.entries_length.
Defined.
