(* ===== verification/Scheduler.v ===== *)
(** * The scheduler: [asynchronix/src/simulation/scheduler.rs]

    Actions, their cancellation keys, and the operations that put actions in the
    scheduler queue.  The queue is any implementation of the contract of
    [StablePq.v]; timestamps are those of the [tai_time] crate, described by the
    class [TaiTime].  An [ActionKey] is a pointer to a shared flag
    ([Arc<AtomicBool>]): the flags live in a store of the scheduler state, and a
    key is the index of its flag, so that clones of a key alias. *)

From S2P Require Import Prelude StablePq.

(** ** Timestamps

    [MonotonicTime] is a type of the external crate [tai_time]: a number of
    nanoseconds in a bounded range, ordered as such, whose addition with a
    [Duration] is checked. *)
Class TaiTime (T : Type) := {
  nanos : T → Z;
  TIME_MAX : T;
  checked_add : T → Z → option T;
  nanos_inj : ∀ a b, nanos a = nanos b → a = b;
  nanos_MAX : ∀ t, nanos t ≤ nanos TIME_MAX;
  checked_add_Some : ∀ t d t', 0 ≤ d → checked_add t d = Some t' → nanos t' = nanos t + d;
  checked_add_None : ∀ t d, 0 ≤ d → checked_add t d = None → nanos TIME_MAX < nanos t + d
}.

#[export] Instance Ord_TaiTime {T} `{TaiTime T} : Ord T.
Proof.
  refine {| cmp a b := Z.compare (nanos a) (nanos b) |}.
  - intros a b. rewrite Z.compare_eq_iff. split; [apply nanos_inj|by intros ->].
  - intros. apply Z.compare_antisym.
  - intros a b c. rewrite !Z.compare_lt_iff. lia.
Defined.

(** [now + duration] panics when the result is out of range. *)
Definition time_add {T} `{TaiTime T} (t : T) (d : Z) : outcome T := unwrap (checked_add t d).

Definition time_le {T} `{TaiTime T} (a b : T) : bool := match cmp a b with Gt => false | _ => true end.
Definition time_lt {T} `{TaiTime T} (a b : T) : bool := match cmp a b with Lt => true | _ => false end.

Section time.
Context {T : Type} `{TaiTime T}.
Implicit Types a b c t : T.

Lemma cmp_time a b : cmp a b = Z.compare (nanos a) (nanos b).
Proof. done. Qed.
Lemma time_le_spec a b : time_le a b = true ↔ nanos a ≤ nanos b.
Proof. unfold time_le. rewrite cmp_time. destruct (Z.compare_spec (nanos a) (nanos b)); naive_solver lia. Qed.
Lemma time_le_false a b : time_le a b = false ↔ nanos b < nanos a.
Proof. rewrite <-not_true_iff_false, time_le_spec. lia. Qed.
Lemma time_lt_spec a b : time_lt a b = true ↔ nanos a < nanos b.
Proof. unfold time_lt. rewrite cmp_time. destruct (Z.compare_spec (nanos a) (nanos b)); naive_solver lia. Qed.
Lemma time_add_later t d t' : 0 ≤ d → time_add t d = Ret t' → nanos t' = nanos t + d.
Proof. intros Hd Ha%unwrap_Ret. by eapply checked_add_Some. Qed.
End time.

#[export] Instance TaiTime_eq_dec {T} `{TaiTime T} : EqDecision T.
Proof.
  intros a b. destruct (decide (nanos a = nanos b)) as [E|E].
  - left. by apply nanos_inj.
  - right. by intros ->.
Defined.

Module Sched.

(** ** Deadlines *)
Inductive Deadline (T : Type) :=
| Duration (d : Z)
| Monotonic (t : T).
Arguments Duration {T} d.
Arguments Monotonic {T} t.

Definition into_time {T} `{TaiTime T} (d : Deadline T) (now : T) : outcome T :=
  match d with
  | Duration d => time_add now d
  | Monotonic t => Ret t
  end.

Inductive SchedulingError := InvalidScheduledTime | NullRepetitionPeriod.

(** ** Keys

    The store of flags: the flag of key [k] is [flags !! k]. *)
Definition ActionKey := nat.
Abbreviation Flags := (list bool).

Definition key_new (fl : Flags) : Flags * ActionKey := (fl ++ [false], length fl).
Definition key_is_cancelled (fl : Flags) (k : ActionKey) : bool := default false (fl !! k).
Definition key_cancel (fl : Flags) (k : ActionKey) : Flags := <[k:=true]> fl.

(** [AutoActionKey]: the same flag, set when the handle is dropped. *)
Record AutoActionKey := mkAuto { auto_flag : ActionKey }.
Definition into_auto (k : ActionKey) : AutoActionKey := mkAuto k.
Definition auto_drop (fl : Flags) (k : AutoActionKey) : Flags := <[auto_flag k:=true]> fl.

(** [PartialEq]: clones of one key are equal, whatever the flags. *)
Definition key_eq (k k' : ActionKey) : bool := bool_decide (k = k').

Abbreviation Chan := Z.

(** ** Actions

    The future of an event sends a closure to a mailbox, identified by its
    channel; the closure of a cancellable event checks its key again when it
    runs. *)
Inductive Msg (Arg : Type) :=
| PlainMsg (arg : Arg)
| KeyedMsg (key : ActionKey) (arg : Arg).
Arguments PlainMsg {Arg} arg.
Arguments KeyedMsg {Arg} key arg.
Abbreviation Fut Arg := (list (Chan * Msg Arg)).

Section sched.
Context {Arg : Type}.

Definition process_event (arg : Arg) (sender : Chan) : Fut Arg := [(sender, PlainMsg arg)].
Definition send_keyed_event (k : ActionKey) (arg : Arg) (sender : Chan) : Fut Arg :=
  [(sender, KeyedMsg k arg)].

(** The four implementors of [ActionInner]. *)
Inductive Action :=
| OnceAction (fut : Fut Arg)
| PeriodicAction (gen : Fut Arg) (period : Z)
| KeyedOnceAction (gen : ActionKey → Fut Arg) (event_key : ActionKey)
| KeyedPeriodicAction (gen : ActionKey → Fut Arg) (period : Z) (event_key : ActionKey).

Definition is_cancelled (fl : Flags) (a : Action) : bool :=
  match a with
  | OnceAction _ | PeriodicAction _ _ => false
  | KeyedOnceAction _ k | KeyedPeriodicAction _ _ k => key_is_cancelled fl k
  end.

Definition next (a : Action) : option (Action * Z) :=
  match a with
  | OnceAction _ | KeyedOnceAction _ _ => None
  | PeriodicAction gen period => Some (PeriodicAction gen period, period)
  | KeyedPeriodicAction gen period k => Some (KeyedPeriodicAction gen period k, period)
  end.

Definition into_future (a : Action) : Fut Arg :=
  match a with
  | OnceAction fut => fut
  | PeriodicAction gen _ => gen
  | KeyedOnceAction gen k | KeyedPeriodicAction gen _ k => gen k
  end.

Context {T Q : Type} `{TaiTime T} `{!StablePQ (T * Chan) Action Q}.

(** ** The scheduler *)
(** [SchedulerQueue]: keyed by time and channel. *)
Definition sq_insert : T * Chan → Action → Q → outcome Q := pq_insert.
Definition sq_pull : Q → outcome (option ((T * Chan) * Action) * Q) := pq_pull.
Definition sq_len (q : Q) : nat := pq_len (K := T * Chan) (V := Action) q.
Definition sq_peek : Q → outcome (option ((T * Chan) * Action)) := pq_peek.

Record Scheduler := mkScheduler {
  scheduler_queue : Q;
  time : T;
  flags : Flags
}.
Implicit Types s : Scheduler.

Definition set_queue s (q : Q) : Scheduler := mkScheduler q (time s) (flags s).
Definition set_flags s (fl : Flags) : Scheduler := mkScheduler (scheduler_queue s) (time s) fl.

Definition schedule (deadline : Deadline T) (action : Action) s
    : outcome (Scheduler * result unit SchedulingError) :=
  let now := time s in
  t ← into_time deadline now;
  if time_le t now then Ret (s, Err InvalidScheduledTime)
  else
    q ← sq_insert (t, 0) action (scheduler_queue s);
    Ret (set_queue s q, Ok tt).

Definition schedule_event (deadline : Deadline T) (arg : Arg) (address : Chan) s
    : outcome (Scheduler * result unit SchedulingError) :=
  let now := time s in
  t ← into_time deadline now;
  if time_le t now then Ret (s, Err InvalidScheduledTime)
  else
    let action := OnceAction (process_event arg address) in
    q ← sq_insert (t, address) action (scheduler_queue s);
    Ret (set_queue s q, Ok tt).

Definition schedule_keyed_event (deadline : Deadline T) (arg : Arg) (address : Chan) s
    : outcome (Scheduler * result ActionKey SchedulingError) :=
  let now := time s in
  t ← into_time deadline now;
  if time_le t now then Ret (s, Err InvalidScheduledTime)
  else
    let '(fl, event_key) := key_new (flags s) in
    let action := KeyedOnceAction (λ ek, send_keyed_event ek arg address) event_key in
    q ← sq_insert (t, address) action (scheduler_queue s);
    Ret (mkScheduler q (time s) fl, Ok event_key).

Definition schedule_periodic_event (deadline : Deadline T) (period : Z) (arg : Arg)
    (address : Chan) s : outcome (Scheduler * result unit SchedulingError) :=
  let now := time s in
  t ← into_time deadline now;
  if time_le t now then Ret (s, Err InvalidScheduledTime)
  else if period =? 0 then Ret (s, Err NullRepetitionPeriod)
  else
    let action := PeriodicAction (process_event arg address) period in
    q ← sq_insert (t, address) action (scheduler_queue s);
    Ret (set_queue s q, Ok tt).

Definition schedule_keyed_periodic_event (deadline : Deadline T) (period : Z) (arg : Arg)
    (address : Chan) s : outcome (Scheduler * result ActionKey SchedulingError) :=
  let now := time s in
  t ← into_time deadline now;
  if time_le t now then Ret (s, Err InvalidScheduledTime)
  else if period =? 0 then Ret (s, Err NullRepetitionPeriod)
  else
    let '(fl, event_key) := key_new (flags s) in
    let action := KeyedPeriodicAction (λ ek, send_keyed_event ek arg address) period event_key in
    q ← sq_insert (t, address) action (scheduler_queue s);
    Ret (mkScheduler q (time s) fl, Ok event_key).

(** ** The local scheduler: a scheduler with the address of its model *)
Record LocalScheduler := mkLocal { scheduler : Scheduler; address : Chan }.
Definition on_scheduler {R} (ls : LocalScheduler) (m : outcome (Scheduler * R))
    : outcome (LocalScheduler * R) :=
  '(s, r) ← m; Ret (mkLocal s (address ls), r).

Definition local_schedule_event deadline arg ls :=
  on_scheduler ls (schedule_event deadline arg (address ls) (scheduler ls)).
Definition local_schedule_keyed_event deadline arg ls :=
  on_scheduler ls (schedule_keyed_event deadline arg (address ls) (scheduler ls)).
Definition local_schedule_periodic_event deadline period arg ls :=
  on_scheduler ls (schedule_periodic_event deadline period arg (address ls) (scheduler ls)).
Definition local_schedule_keyed_periodic_event deadline period arg ls :=
  on_scheduler ls (schedule_keyed_periodic_event deadline period arg (address ls) (scheduler ls)).

(** ** Requests: the five operations under one type *)
Inductive request :=
| ReqSchedule (deadline : Deadline T) (action : Action)
| ReqEvent (deadline : Deadline T) (arg : Arg) (address : Chan)
| ReqKeyedEvent (deadline : Deadline T) (arg : Arg) (address : Chan)
| ReqPeriodicEvent (deadline : Deadline T) (period : Z) (arg : Arg) (address : Chan)
| ReqKeyedPeriodicEvent (deadline : Deadline T) (period : Z) (arg : Arg) (address : Chan).

Definition no_key (m : outcome (Scheduler * result unit SchedulingError))
    : outcome (Scheduler * result (option ActionKey) SchedulingError) :=
  '(s, r) ← m; Ret (s, match r with Ok _ => Ok None | Err e => Err e end).
Definition some_key (m : outcome (Scheduler * result ActionKey SchedulingError))
    : outcome (Scheduler * result (option ActionKey) SchedulingError) :=
  '(s, r) ← m; Ret (s, match r with Ok k => Ok (Some k) | Err e => Err e end).

Definition run_request (r : request) s
    : outcome (Scheduler * result (option ActionKey) SchedulingError) :=
  match r with
  | ReqSchedule d a => no_key (schedule d a s)
  | ReqEvent d arg ch => no_key (schedule_event d arg ch s)
  | ReqKeyedEvent d arg ch => some_key (schedule_keyed_event d arg ch s)
  | ReqPeriodicEvent d p arg ch => no_key (schedule_periodic_event d p arg ch s)
  | ReqKeyedPeriodicEvent d p arg ch => some_key (schedule_keyed_periodic_event d p arg ch s)
  end.

(** What a request asks for: when, on which channel, which action (given the
    key that the request would be given), and with which period. *)
Definition req_deadline (r : request) : Deadline T :=
  match r with
  | ReqSchedule d _ | ReqEvent d _ _ | ReqKeyedEvent d _ _
  | ReqPeriodicEvent d _ _ _ | ReqKeyedPeriodicEvent d _ _ _ => d
  end.
Definition req_chan (r : request) : Chan :=
  match r with
  | ReqSchedule _ _ => 0
  | ReqEvent _ _ ch | ReqKeyedEvent _ _ ch
  | ReqPeriodicEvent _ _ _ ch | ReqKeyedPeriodicEvent _ _ _ ch => ch
  end.
Definition req_action (r : request) (k : ActionKey) : Action :=
  match r with
  | ReqSchedule _ a => a
  | ReqEvent _ arg ch => OnceAction (process_event arg ch)
  | ReqKeyedEvent _ arg ch => KeyedOnceAction (λ ek, send_keyed_event ek arg ch) k
  | ReqPeriodicEvent _ p arg ch => PeriodicAction (process_event arg ch) p
  | ReqKeyedPeriodicEvent _ p arg ch => KeyedPeriodicAction (λ ek, send_keyed_event ek arg ch) p k
  end.
Definition req_null_period (r : request) : bool :=
  match r with
  | ReqPeriodicEvent _ p _ _ | ReqKeyedPeriodicEvent _ p _ _ => p =? 0
  | _ => false
  end.
Definition req_keyed (r : request) : bool :=
  match r with ReqKeyedEvent _ _ _ | ReqKeyedPeriodicEvent _ _ _ _ => true | _ => false end.

(** Insertions left, and the pending actions in the order of their pulling. *)
Definition room s : Z := pq_room (K := T * Chan) (V := Action) (scheduler_queue s).
Definition pending s (l : list ((T * Chan) * Action)) : Prop := pq_repr (scheduler_queue s) l.

(** The contract: a rejected request changes nothing, and the deadline is
    looked at before the period; an accepted one adds the action at its time
    and channel after those already there. *)
Definition accepted (r : request) (t : T) s (l : list ((T * Chan) * Action))
    (o : outcome (Scheduler * result (option ActionKey) SchedulingError)) : Prop :=
  ∃ s', o = Ret (s', Ok (if req_keyed r then Some (length (flags s)) else None))
    ∧ pending s' (spq_insert (t, req_chan r) (req_action r (length (flags s))) l)
    ∧ room s' = room s - 1 ∧ time s' = time s
    ∧ flags s' = if req_keyed r then flags s ++ [false] else flags s.

Lemma run_request_spec r s l t :
  pending s l → into_time (req_deadline r) (time s) = Ret t →
  if time_le t (time s) then run_request r s = Ret (s, Err InvalidScheduledTime)
  else if req_null_period r then run_request r s = Ret (s, Err NullRepetitionPeriod)
  else if room s <=? 0 then run_request r s = Panic
  else accepted r t s l (run_request r s).
Proof.
  intros Hl Ht.
  destruct r; cbn [req_deadline run_request req_null_period] in *;
    unfold schedule, schedule_event, schedule_keyed_event, schedule_periodic_event,
      schedule_keyed_periodic_event; rewrite Ht; ret_step;
    (destruct (time_le t (time s)); [done|]); try (destruct (period =? 0); [done|]);
    unfold key_new, accepted, sq_insert; ret_step;
    (destruct (Z.leb_spec (room s) 0); [by erewrite pq_insert_full|]);
    match goal with
    | |- context [@pq_insert ?K ?V ?Q ?O ?I ?k ?v ?q] =>
        destruct (@pq_insert_repr K V Q O I q l k v Hl) as (q' & -> & Hq' & Hr'); [done|]
    end; eexists; split_and!; [by rewrite ?Hk|done|done|done..].
Qed.

(** A deadline that cannot be represented is a panic of [now + duration]. *)
Lemma run_request_overflow r s :
  into_time (req_deadline r) (time s) = Panic → run_request r s = Panic.
Proof.
  intros Ht. destruct r; cbn [req_deadline run_request] in *;
    unfold schedule, schedule_event, schedule_keyed_event, schedule_periodic_event,
      schedule_keyed_periodic_event; by rewrite Ht.
Qed.

(** ** Well-formed schedulers

    Pending actions lie in the future, have positive periods and refer to
    existing flags. *)
Definition action_key (a : Action) : option ActionKey :=
  match a with
  | OnceAction _ | PeriodicAction _ _ => None
  | KeyedOnceAction _ k | KeyedPeriodicAction _ _ k => Some k
  end.
Definition period_ok (a : Action) : Prop :=
  match next a with Some (_, p) => 0 < p | None => True end.
Definition key_ok (fl : Flags) (a : Action) : Prop :=
  match action_key a with Some k => (k < length fl)%nat | None => True end.
Definition entry_ok (now : T) (fl : Flags) (p : (T * Chan) * Action) : Prop :=
  nanos now < nanos p.1.1 ∧ period_ok p.2 ∧ key_ok fl p.2.
Definition sched_wf s (l : list ((T * Chan) * Action)) : Prop :=
  pending s l ∧ Forall (entry_ok (time s) (flags s)) l.

(** A request that comes from the event methods is always fit to be accepted;
    an action built elsewhere has to be. *)
Definition request_ok s (r : request) : Prop :=
  match r with
  | ReqSchedule _ a => period_ok a ∧ key_ok (flags s) a
  | ReqPeriodicEvent _ p _ _ | ReqKeyedPeriodicEvent _ p _ _ => 0 ≤ p
  | _ => True
  end.

Lemma key_ok_grow fl b a : key_ok fl a → key_ok (fl ++ b) a.
Proof. unfold key_ok. destruct (action_key a); [|done]. rewrite length_app. lia. Qed.

Lemma request_action_ok s r :
  request_ok s r → req_null_period r = false →
  period_ok (req_action r (length (flags s))) ∧
  key_ok (if req_keyed r then flags s ++ [false] else flags s) (req_action r (length (flags s))).
Proof.
  destruct r; unfold period_ok, key_ok; simpl; rewrite ?Z.eqb_neq, ?length_app; simpl;
    intros; try lia; auto with lia.
Qed.

Lemma is_cancelled_grow fl b a : key_ok fl a → is_cancelled (fl ++ b) a = is_cancelled fl a.
Proof.
  unfold key_ok. destruct a; cbn [is_cancelled action_key]; try done; intros Hk;
    unfold key_is_cancelled; by rewrite lookup_app_l.
Qed.

Lemma run_request_wf r s l s' res :
  sched_wf s l → request_ok s r → run_request r s = Ret (s', res) →
  time s' = time s ∧
  match res with
  | Err _ => s' = s
  | Ok ko => ∃ t, into_time (req_deadline r) (time s) = Ret t ∧ nanos (time s) < nanos t
      ∧ sched_wf s' (spq_insert (t, req_chan r) (req_action r (length (flags s))) l)
      ∧ flags s' = (if req_keyed r then flags s ++ [false] else flags s)
      ∧ ko = (if req_keyed r then Some (length (flags s)) else None)
  end.
Proof.
  intros [Hl Hf] Hok Hrun. destruct (into_time (req_deadline r) (time s)) as [t| |] eqn:Ht.
  2,3: destruct r; cbn [req_deadline run_request] in *;
    unfold schedule, schedule_event, schedule_keyed_event, schedule_periodic_event,
      schedule_keyed_periodic_event in Hrun; by rewrite Ht in Hrun.
  pose proof (run_request_spec r s l t Hl Ht) as Hspec.
  destruct (time_le t (time s)) eqn:Hle; [rewrite Hspec in Hrun; by simplify_eq|].
  destruct (req_null_period r) eqn:Hn; [rewrite Hspec in Hrun; by simplify_eq|].
  destruct (room s <=? 0); [by rewrite Hspec in Hrun|].
  destruct Hspec as (s2 & Hrun2 & Hp & _ & Htime & Hfl). rewrite Hrun2 in Hrun. simplify_eq.
  destruct (request_action_ok s r Hok Hn) as [Hpo Hko].
  assert (nanos (time s) < nanos t) as Hlt.
  { destruct (time_le_spec t (time s)) as [_ Hx]. apply Z.nle_gt. intros Hx'.
    rewrite Hx in Hle by done. done. }
  split; [done|]. exists t. split_and!; [done|done| |done|done].
  split; [done|]. rewrite spq_insert_perm. constructor.
  - rewrite Htime, Hfl. by split_and!.
  - eapply Forall_impl; [exact Hf|]. intros p (? & ? & ?). rewrite Htime, Hfl.
    split_and!; [done|done|]. destruct (req_keyed r); [by apply key_ok_grow|done].
Qed.
End sched.
Arguments Action : clear implicits.
Arguments Scheduler : clear implicits.
Arguments request : clear implicits.
Arguments LocalScheduler : clear implicits.
End Sched.
