(* ===== verification/KeyRegistry.v ===== *)
(** * The registry of action keys: [asynchronix/src/grpc/key_registry.rs]

    Keys of scheduled actions handed out to remote clients, in a queue with
    deletion ordered by their expiration. *)

From S2P Require Import Prelude StablePq IndexedPriorityQueue Scheduler.
Import Sched.

Module Registry.
Section registry.
Context {T : Type} `{TaiTime T}.

Record KeyRegistry := mkRegistry { keys : IPQ.IndexedPriorityQueue T ActionKey }.
Definition KeyRegistryId := IPQ.InsertKey.
Implicit Types r : KeyRegistry.

Definition default_registry : KeyRegistry := mkRegistry IPQ.new.

Definition insert_key (action_key : ActionKey) (expiration : T) r
    : outcome (KeyRegistry * KeyRegistryId) :=
  '(q, id) ← IPQ.insert expiration action_key (keys r); Ret (mkRegistry q, id).

Definition insert_eternal_key (action_key : ActionKey) r : outcome (KeyRegistry * KeyRegistryId) :=
  '(q, id) ← IPQ.insert TIME_MAX action_key (keys r); Ret (mkRegistry q, id).

Definition extract_key (key_id : KeyRegistryId) r : outcome (option ActionKey * KeyRegistry) :=
  '(o, q) ← IPQ.extract key_id (keys r); Ret (option_map snd o, mkRegistry q).

(** The loop pulls at most as many keys as there are. *)
Fixpoint remove_expired_loop (fuel : nat) (now : T) (q : IPQ.IndexedPriorityQueue T ActionKey)
    : outcome (IPQ.IndexedPriorityQueue T ActionKey) :=
  match fuel with
  | O => OutOfFuel
  | S fuel =>
      match IPQ.peek_key q with
      | None => Ret q
      | Some expiration =>
          if time_le now expiration then Ret q
          else '(_, q1) ← IPQ.pull q; remove_expired_loop fuel now q1
      end
  end.
Definition remove_expired_keys (now : T) r : outcome KeyRegistry :=
  q ← remove_expired_loop (S (IPQ.len (keys r))) now (keys r); Ret (mkRegistry q).

(** ** What the registry holds *)
Definition holds r : list (IPQ.Entry T ActionKey) := IPQ.entries (keys r).
Definition registry_wf r : Prop := IPQ.wf (keys r).
Definition unexpired (now : T) (e : IPQ.Entry T ActionKey) : Prop := nanos now ≤ nanos (IPQ.e_key e).
#[export] Instance unexpired_dec now e : Decision (unexpired now e).
Proof. unfold unexpired. apply _. Defined.

Lemma remove_expired_loop_ok now fuel : ∀ q,
  IPQ.wf q → (IPQ.len q < fuel)%nat →
  ∃ q', remove_expired_loop fuel now q = Ret q' ∧ IPQ.wf q'
    ∧ IPQ.entries q' ≡ₚ filter (unexpired now) (IPQ.entries q).
Proof.
  induction fuel as [|fuel IH]; intros q Hw Hf; [lia|]. cbn [remove_expired_loop].
  rewrite IPQ.peek_key_peek by done.
  destruct (decide (IPQ.entries q = [])) as [Hnil|Hne].
  { pose proof (IPQ.pull_empty q Hw Hnil) as Hp. rewrite (IPQ.ipq_peek_pull _ _ _ Hp).
    exists q. split_and!; [done|done|by rewrite Hnil]. }
  destruct (IPQ.pull_ok q Hw Hne) as (e & q1 & Hp & Hw1 & Hen & _ & Hmin).
  rewrite (IPQ.ipq_peek_pull _ _ _ Hp). cbn [fmap option_fmap option_map fst].
  destruct (time_le now (IPQ.e_key e)) eqn:Hle.
  - apply time_le_spec in Hle. exists q. split_and!; [done|done|]. rewrite filter_all; [done|].
    apply Forall_forall. intros x Hx. unfold unexpired. specialize (Hmin x Hx).
    apply Z.nlt_ge. intros Hlt. apply Hmin. left. rewrite cmp_time. apply Z.compare_lt_iff. lia.
  - rewrite Hp. ret_step.
    assert (¬ unexpired now e) as Hexp by (unfold unexpired; intros Hx%time_le_spec; congruence).
    destruct (IH q1 Hw1) as (q' & -> & Hw' & Hen').
    { rewrite <-!IPQ.entries_length in * by done. rewrite Hen in Hf. simpl in Hf. lia. }
    exists q'. split_and!; [done..|]. by rewrite Hen', Hen, filter_cons_False.
Qed.
End registry.
End Registry.
