(* ===== verification/Simulation.v ===== *)
(** * The event loop: [asynchronix/src/simulation.rs] *)

From S2P Require Import Prelude StablePq Scheduler.
Import Sched.

Module Sim.

(** ** Collecting the actions of the next time step

    [step_to_next_bounded] holds the queue's mutex while it pulls the actions of
    the next time, so this phase is a function of the queue.  [fl] is the store
    of cancellation flags; [pfuel] bounds the search for a live action, and
    [fuel] the actions of one step.  The length of the queue is enough for both,
    as [collect_ok] shows: a periodic action comes back at a later time. *)
Section collect.
Context {Arg T Q : Type} `{TaiTime T} `{!StablePQ (T * Chan) (Action Arg) Q}.
Abbreviation Key := (T * Chan)%type.
Abbreviation Entry := ((T * Chan) * Action Arg)%type.
Implicit Types (q : Q) (a : Action Arg) (k : T * Chan) (l : list ((T * Chan) * Action Arg)).

Definition pull_next_action q : outcome (Action Arg * Q) :=
  '(o, q1) ← sq_pull q;
  '(t, ch, action) ← unwrap o;
  match next action with
  | Some (action_clone, period) =>
      t' ← time_add t period;
      q2 ← sq_insert (t', ch) action_clone q1;
      Ret (action, q2)
  | None => Ret (action, q1)
  end.

Fixpoint peek_next_key (fuel : nat) (fl : Flags) (upper_time_bound : T) q
    : outcome (option Key * Q) :=
  match fuel with
  | O => OutOfFuel
  | S fuel =>
      o ← sq_peek q;
      match o with
      | Some (key, action) =>
          if time_le key.1 upper_time_bound then
            if negb (is_cancelled fl action) then Ret (Some key, q)
            else '(_, q1) ← sq_pull q; peek_next_key fuel fl upper_time_bound q1
          else Ret (None, q)
      | None => Ret (None, q)
      end
  end.

(** The inner loop: the actions of one mailbox, pushed on one [SeqFuture]. *)
Fixpoint seq_loop (fuel pfuel : nat) (fl : Flags) (bound : T) (current_key : Key) q
    (action_sequence : list (Fut Arg)) : outcome (list (Fut Arg) * option Key * Q) :=
  match fuel with
  | O => OutOfFuel
  | S fuel =>
      '(action, q1) ← pull_next_action q;
      let action_sequence := action_sequence ++ [into_future action] in
      '(next_key, q2) ← peek_next_key pfuel fl bound q1;
      if bool_decide (next_key ≠ Some current_key)
      then Ret (action_sequence, next_key, q2)
      else seq_loop fuel pfuel fl bound current_key q2 action_sequence
  end.

(** What the executor is given: the future of a lone action to poll in place
    ([Executor::run_first]), or the spawned tasks, each the sequence of futures
    of one mailbox. *)
Inductive launch :=
| RunFirst (fut : Fut Arg)
| Spawned (tasks : list (list (Fut Arg))).

Fixpoint step_loop (fuel pfuel : nat) (fl : Flags) (bound : T) (inline_lone_actions first : bool)
    (current_key : Key) q (tasks : list (list (Fut Arg))) : outcome (T * launch * Q) :=
  match fuel with
  | O => OutOfFuel
  | S fuel =>
      '(action, q1) ← pull_next_action q;
      '(next_key, q2) ← peek_next_key pfuel fl bound q1;
      if first && (match next_key with None => true | Some k => time_lt current_key.1 k.1 end)
           && inline_lone_actions
      then Ret (current_key.1, RunFirst (into_future action), q2)
      else
        '(task, next_key, q3) ←
          (if bool_decide (next_key ≠ Some current_key)
           then Ret ([into_future action], next_key, q2)
           else seq_loop fuel pfuel fl bound current_key q2 [into_future action]);
        match next_key with
        | Some k =>
            if bool_decide (k.1 = current_key.1)
            then step_loop fuel pfuel fl bound inline_lone_actions false k q3 (tasks ++ [task])
            else Ret (current_key.1, Spawned (tasks ++ [task]), q3)
        | None => Ret (current_key.1, Spawned (tasks ++ [task]), q3)
        end
  end.

(** The whole phase, from the first peek to the release of the mutex. *)
Definition collect (fl : Flags) (bound : T) (inline_lone_actions : bool) q
    : outcome (option (T * launch) * Q) :=
  let fuel := S (sq_len q) in
  '(o, q1) ← peek_next_key fuel fl bound q;
  match o with
  | None => Ret (None, q1)
  | Some current_key =>
      '(t, ln, q2) ← step_loop fuel fuel fl bound inline_lone_actions true current_key q1 [];
      Ret (Some (t, ln), q2)
  end.

(** ** What the phase does, on the list of pending actions *)
Definition live (fl : Flags) l : list Entry := filter (λ p, is_cancelled fl p.2 = false) l.

(** Cancelled actions before the bound are discarded from the front. *)
Fixpoint drop_cancelled (fl : Flags) (bound : T) l : list Entry :=
  match l with
  | [] => []
  | p :: l' => if time_le p.1.1 bound && is_cancelled fl p.2 then drop_cancelled fl bound l' else l
  end.

Definition head_key (bound : T) l : option Key :=
  match l with
  | [] => None
  | p :: _ => if time_le p.1.1 bound then Some p.1 else None
  end.

(** A periodic action comes back one period later. *)
Definition reinsert (p : Entry) l : list Entry :=
  match next p.2 with
  | Some (a, period) =>
      match checked_add p.1.1 period with
      | Some t' => spq_insert (t', p.1.2) a l
      | None => l
      end
  | None => l
  end.
Definition reinsert_all (ps l : list Entry) : list Entry := foldl (λ l p, reinsert p l) l ps.

(** One task per mailbox, holding the futures of its actions in order. *)
Fixpoint groups l : list (list (Fut Arg)) :=
  match l with
  | [] => []
  | p :: l' =>
      match groups l' with
      | g :: gs =>
          if bool_decide (Some p.1 = fst <$> head l') then (into_future p.2 :: g) :: gs
          else [into_future p.2] :: g :: gs
      | [] => [[into_future p.2]]
      end
  end.

(** ** Lemmas *)
Definition qrepr q l : Prop := pq_repr q l.
Definition qroom q : Z := pq_room (K := T * Chan) (V := Action Arg) q.

(** The next occurrence of a periodic action has a representable time. *)
Definition can_return (p : Entry) : Prop :=
  match next p.2 with Some (_, d) => is_Some (checked_add p.1.1 d) | None => True end.

(** Nothing stops the actions [m] from being pulled: their next times exist,
    and the queue has room for them. *)
Definition safe (m : list Entry) q : Prop :=
  Forall can_return m ∧ Z.of_nat (length m) ≤ qroom q.

Lemma safe_cons p m q q' : safe (p :: m) q → qroom q - 1 ≤ qroom q' → safe m q'.
Proof. intros [Hf Hr] Hq. inversion Hf; subst. split; [done|]. simpl in Hr. lia. Qed.
Lemma safe_app_r m1 m2 q q' :
  safe (m1 ++ m2) q → qroom q - Z.of_nat (length m1) ≤ qroom q' → safe m2 q'.
Proof. intros [[_ Hf]%Forall_app Hr] Hq. split; [done|]. rewrite length_app in Hr. lia. Qed.

Lemma pull_next_action_ok q p l :
  qrepr q (p :: l) →
  (pull_next_action q = Panic ∧ ¬ safe [p] q) ∨
  ∃ q', pull_next_action q = Ret (p.2, q') ∧ qrepr q' (reinsert p l) ∧ qroom q - 1 ≤ qroom q'.
Proof.
  intros Hq. unfold pull_next_action, reinsert, safe, can_return. destruct p as [[t ch] a].
  destruct (pq_pull_repr _ _ Hq) as (q1 & Hpull & Hq1 & Hr1). unfold sq_pull. rewrite Hpull.
  cbn [mbind outcome_bind head unwrap fst snd] in *.
  destruct (next a) as [[a' d]|] eqn:Hn.
  2: { right. exists q1. split_and!; [done..|unfold qroom in *; lia]. }
  unfold time_add. destruct (checked_add t d) as [t'|] eqn:Hadd; cbn [mbind outcome_bind unwrap].
  2: { left. split; [done|]. rewrite Forall_singleton. cbn [fst snd]. rewrite Hn, Hadd.
       intros [Hx _]. by destruct Hx. }
  unfold sq_insert. destruct (Z.leb_spec (qroom q) 0) as [Hr|Hr]; unfold qroom in Hr.
  - left. split; [|simpl; unfold qroom; lia]. erewrite pq_insert_full; [done|done|lia].
  - right. destruct (pq_insert_repr q1 l (t', ch) a' Hq1) as (q2 & Hins & Hq2 & Hr2); [lia|].
    rewrite Hins. exists q2. split_and!; [done..|unfold qroom in *; lia].
Qed.

Lemma peek_next_key_ok fl bound fuel : ∀ q l,
  qrepr q l → (length l < fuel)%nat →
  ∃ q', peek_next_key fuel fl bound q = Ret (head_key bound (drop_cancelled fl bound l), q')
    ∧ qrepr q' (drop_cancelled fl bound l) ∧ qroom q' = qroom q.
Proof.
  induction fuel as [|fuel IH]; intros q l Hq Hf; [lia|]. cbn [peek_next_key].
  unfold sq_peek. rewrite (pq_peek_repr _ _ Hq). ret_step.
  destruct l as [|p l]; cbn [head drop_cancelled head_key].
  { by exists q. }
  destruct p as [k a]. cbn [fst snd]. destruct (time_le k.1 bound) eqn:Hle; cbn [andb].
  2: { exists q. split_and!; [cbn [head_key fst]; by rewrite Hle|done..]. }
  destruct (is_cancelled fl a) eqn:Hc; cbn [negb].
  2: { exists q. split_and!; [cbn [head_key fst]; by rewrite Hle|done..]. }
  destruct (pq_pull_repr _ _ Hq) as (q1 & Hpull & Hq1 & Hr1). unfold sq_pull. rewrite Hpull.
  ret_step. destruct (IH q1 l) as (q2 & -> & Hq2 & Hr2); [done|simpl in Hf; lia|].
  exists q2. split_and!; [done..|]. unfold qroom in *. lia.
Qed.

Lemma drop_cancelled_length fl bound l : (length (drop_cancelled fl bound l) ≤ length l)%nat.
Proof. induction l as [|p l IH]; simpl; [done|]. destruct (_ && _); simpl; lia. Qed.

Lemma reinsert_length p l : (length (reinsert p l) ≤ S (length l))%nat.
Proof.
  unfold reinsert. destruct (next p.2) as [[a d]|]; [|lia].
  destruct (checked_add _ _); [|lia]. by rewrite spq_insert_perm.
Qed.

(** Entries of the current time [t] are followed by later ones. *)
Definition now_part (t : T) l : Prop := Forall (λ p, p.1.1 = t) l.
Definition later_part (t : T) l : Prop := Forall (λ p, nanos t < nanos p.1.1) l.

Lemma spq_insert_skip t k a ls lr :
  now_part t ls → nanos t < nanos k.1 →
  spq_insert k a (ls ++ lr) = ls ++ spq_insert k a lr.
Proof.
  intros Hn Hk. induction Hn as [|[k' a'] ls Hp Hn IH]; [done|]. cbn [app spq_insert].
  cbn [fst] in Hp. assert (cmp k k' = Gt) as ->; [|by rewrite IH].
  cbn. unfold lex_cmp. destruct k as [tk ck], k' as [tk' ck']. cbn in *. subst.
  by rewrite (proj2 (Z.compare_gt_iff _ _)).
Qed.

Lemma reinsert_skip t p ls lr :
  p.1.1 = t → period_ok p.2 → now_part t ls → reinsert p (ls ++ lr) = ls ++ reinsert p lr.
Proof.
  intros Ht Hp Hn. unfold reinsert, period_ok in *. destruct (next p.2) as [[a d]|]; [|done].
  destruct (checked_add p.1.1 d) as [t'|] eqn:Ha; [|done]. eapply spq_insert_skip; [done|].
  apply checked_add_Some in Ha; [|lia]. cbn [fst]. subst t. lia.
Qed.

Lemma reinsert_later t p lr :
  p.1.1 = t → period_ok p.2 → later_part t lr → later_part t (reinsert p lr).
Proof.
  intros Ht Hp Hl. unfold reinsert, period_ok in *. destruct (next p.2) as [[a d]|]; [|done].
  destruct (checked_add p.1.1 d) as [t'|] eqn:Ha; [|done]. unfold later_part.
  rewrite spq_insert_perm. constructor; [|done].
  apply checked_add_Some in Ha; [|lia]. cbn [fst]. subst t. lia.
Qed.

(** The front of the queue after discarding: the next live entry of the
    current time, if there is one. *)
Lemma drop_cancelled_now fl bound t ls lr :
  now_part t ls → time_le t bound = true →
  match live fl ls with
  | [] => drop_cancelled fl bound (ls ++ lr) = drop_cancelled fl bound lr
  | p :: m => ∃ ls', drop_cancelled fl bound (ls ++ lr) = p :: ls' ++ lr
                ∧ now_part t ls' ∧ live fl ls' = m ∧ p.1.1 = t
                ∧ Forall (λ x, x ∈ ls) ls' ∧ p ∈ ls
  end.
Proof.
  intros Hn Hb. induction Hn as [|p ls Hp Hn IH]; [done|].
  unfold live in *. rewrite filter_cons. cbn [app drop_cancelled]. rewrite Hp, Hb. cbn [andb].
  destruct (is_cancelled fl p.2) eqn:Hc.
  - rewrite decide_False by done. destruct (filter _ ls) as [|x m]; [done|].
    destruct IH as (ls' & ? & ? & ? & ? & Hin & ?). exists ls'. split_and!; [done..| |by right].
    eapply Forall_impl; [exact Hin|]. intros. by right.
  - rewrite decide_True by done. exists ls. split_and!; [done..| |by left].
    apply Forall_forall. intros. by right.
Qed.

Lemma drop_cancelled_Forall (P : Entry → Prop) fl bound l :
  Forall P l → Forall P (drop_cancelled fl bound l).
Proof. induction 1; simpl; [done|]. destruct (_ && _); auto. Qed.

Lemma head_key_later t fl bound lr k :
  later_part t lr → head_key bound (drop_cancelled fl bound lr) = Some k → nanos t < nanos k.1.
Proof.
  intros Hl%(drop_cancelled_Forall _ fl bound). unfold head_key.
  destruct (drop_cancelled _ _ _) as [|p l]; [done|]. destruct (time_le _ _); [|done].
  intros [= <-]. by inversion Hl.
Qed.

(** The state between two pulls: [m] are the live actions of the current time
    [t] still in the queue, [lr] the later ones, [nk] the peeked key. *)
Definition front (fl : Flags) (bound t : T) (pfuel : nat) (m lr : list Entry)
    (nk : option Key) q : Prop :=
  later_part t lr ∧
  match m with
  | [] => nk = head_key bound (drop_cancelled fl bound lr) ∧ qrepr q (drop_cancelled fl bound lr)
  | p :: m' => nk = Some p.1 ∧
      ∃ ls, qrepr q (p :: ls ++ lr) ∧ live fl ls = m' ∧ now_part t (p :: ls)
        ∧ Forall (λ x, period_ok x.2) (p :: ls) ∧ (length (p :: ls ++ lr) < pfuel)%nat
  end.

Lemma front_next_ne fl bound t pfuel m lr nk q cur :
  front fl bound t pfuel m lr nk q → cur.1 = t →
  match m with p :: _ => nk = Some p.1 | [] => nk ≠ Some cur end.
Proof.
  intros [Hl Hm] Hc. destruct m as [|p m]; [|by destruct Hm]. destruct Hm as [-> _].
  intros Hk. eapply head_key_later in Hk; [|done]. subst t. lia.
Qed.

Lemma pull_peek fl bound t pfuel p m lr nk q :
  front fl bound t pfuel (p :: m) lr nk q → time_le t bound = true →
  (pull_next_action q = Panic ∧ ¬ safe [p] q) ∨
  ∃ q1 nk' q2, pull_next_action q = Ret (p.2, q1)
    ∧ peek_next_key pfuel fl bound q1 = Ret (nk', q2)
    ∧ front fl bound t pfuel m (reinsert p lr) nk' q2 ∧ qroom q - 1 ≤ qroom q2.
Proof.
  intros (Hl & -> & ls & Hq & Hm & Hn & Hg & Hlen) Hb.
  apply Forall_cons in Hn as [Hpt Hn]. apply Forall_cons in Hg as [Hpp Hg].
  destruct (pull_next_action_ok q p (ls ++ lr) Hq) as [?|(q1 & Hpull & Hq1 & Hr1)]; [by left|].
  right.
  rewrite (reinsert_skip t) in Hq1 by done.
  assert (length (ls ++ reinsert p lr) < pfuel)%nat as Hlen'.
  { pose proof (reinsert_length p lr). simpl in Hlen. rewrite length_app in *. lia. }
  destruct (peek_next_key_ok fl bound pfuel q1 (ls ++ reinsert p lr)) as (q2 & Hpeek & Hq2 & Hr2);
    [done..|].
  eexists q1, _, q2. split_and!; [done|done| |lia]. split; [by apply reinsert_later|].
  pose proof (drop_cancelled_now fl bound t ls (reinsert p lr) Hn Hb) as Hd.
  rewrite Hm in Hd. destruct m as [|p' m'].
  - rewrite Hd in Hq2 |- *. done.
  - destruct Hd as (ls' & Hd & Hn' & Hm' & Hp' & Hin & Hin'). rewrite Hd in Hq2 |- *.
    cbn [head_key]. rewrite Hp', Hb. split; [done|]. exists ls'. split_and!; [done|done|by constructor| |].
    + rewrite Forall_forall in Hg. constructor; [by apply Hg|].
      eapply Forall_impl; [exact Hin|]. intros. by apply Hg.
    + pose proof (drop_cancelled_length fl bound (ls ++ reinsert p lr)) as Hdl.
      rewrite Hd in Hdl. lia.
Qed.

Fixpoint key_prefix (cur : Key) (m : list Entry) : list Entry * list Entry :=
  match m with
  | p :: m' => if bool_decide (p.1 = cur) then (p :: (key_prefix cur m').1, (key_prefix cur m').2)
               else ([], m)
  | [] => ([], [])
  end.

Lemma key_prefix_app cur m : (key_prefix cur m).1 ++ (key_prefix cur m).2 = m.
Proof. induction m as [|p m IH]; simpl; [done|]. case_bool_decide; simpl; [by rewrite IH|done]. Qed.

Lemma groups_prefix p m :
  groups (p :: m) = (into_future p.2 :: (into_future <$> (snd <$> (key_prefix p.1 m).1)))
                      :: groups (key_prefix p.1 m).2.
Proof.
  revert p. induction m as [|p' m IH]; intros p; [done|].
  change (groups (p :: p' :: m)) with
    (match groups (p' :: m) with
     | g :: gs => if bool_decide (Some p.1 = Some p'.1) then (into_future p.2 :: g) :: gs
                  else [into_future p.2] :: g :: gs
     | [] => [[into_future p.2]] end).
  cbn [key_prefix]. rewrite IH. destruct (decide (p.1 = p'.1)) as [E|E].
  - rewrite !bool_decide_true by congruence. cbn [fst snd]. rewrite E. done.
  - rewrite !bool_decide_false by congruence. cbn [fst snd]. by rewrite IH.
Qed.

Lemma reinsert_all_app l1 l2 l : reinsert_all (l1 ++ l2) l = reinsert_all l2 (reinsert_all l1 l).
Proof. apply foldl_app. Qed.

Lemma safe_head p m q : safe (p :: m) q → safe [p] q.
Proof. intros [Hf Hr]. inversion Hf; subst. split; [by constructor|]. simpl in *. lia. Qed.

Lemma seq_loop_ok fl bound t pfuel cur fuel : ∀ m p lr nk q seq,
  cur.1 = t → time_le t bound = true →
  front fl bound t pfuel (p :: m) lr nk q → (length m < fuel)%nat →
  let g := (key_prefix cur m).1 in
  (seq_loop fuel pfuel fl bound cur q seq = Panic ∧ ¬ safe (p :: m) q) ∨
  ∃ nk' q', seq_loop fuel pfuel fl bound cur q seq
              = Ret (seq ++ into_future p.2 :: (into_future <$> (snd <$> g)), nk', q')
    ∧ front fl bound t pfuel (key_prefix cur m).2 (reinsert_all (p :: g) lr) nk' q'
    ∧ qroom q - Z.of_nat (length (p :: g)) ≤ qroom q'.
Proof.
  induction fuel as [|fuel IH]; intros m p lr nk q seq Hcur Hb Hfr Hlen g; [lia|].
  cbn [seq_loop].
  destruct (pull_peek _ _ _ _ _ _ _ _ _ Hfr Hb) as [[-> Hns]|(q1 & nk' & q2 & -> & Hpk & Hfr2 & Hr)].
  { left. split; [done|]. by intros ?%safe_head. }
  ret_step. rewrite Hpk. ret_step.
  pose proof (front_next_ne _ _ _ _ _ _ _ _ cur Hfr2 Hcur) as Hnk.
  destruct m as [|p' m]; simpl in g; subst g.
  { right. rewrite bool_decide_true by done. exists nk', q2. split_and!; [done|done|simpl; lia]. }
  subst nk'. cbn [key_prefix]. destruct (decide (p'.1 = cur)) as [E|E].
  - rewrite bool_decide_false by (intros Hx; by apply Hx; rewrite E).
    rewrite (bool_decide_true (p'.1 = cur)) by done. cbn [fst snd].
    destruct (IH m p' (reinsert p lr) (Some p'.1) q2 (seq ++ [into_future p.2]))
      as [[-> Hns]|(nk2 & q3 & -> & Hfr3 & Hr3)]; [done..|simpl in Hlen; lia| |].
    + left. split; [done|]. intros Hs. apply Hns. by eapply safe_cons.
    + right. exists nk2, q3. split_and!; [|done|simpl in *; lia]. by rewrite <-(assoc_L (++)).
  - rewrite bool_decide_true by congruence.
    rewrite (bool_decide_false (p'.1 = cur)) by done. cbn [fst snd]. right.
    exists (Some p'.1), q2. split_and!; [done|done|simpl in *; lia].
Qed.

(** How the live actions [m] of one time are launched. *)
Definition launched (inline_lone_actions : bool) (m : list Entry) : launch :=
  match m with
  | [p] => if inline_lone_actions then RunFirst (into_future p.2) else Spawned (groups m)
  | _ => Spawned (groups m)
  end.

Lemma lone_test fl bound t pfuel m lr nk q (cur : Key) :
  front fl bound t pfuel m lr nk q → cur.1 = t →
  match nk with None => true | Some k => time_lt cur.1 k.1 end
    = match m with [] => true | _ => false end.
Proof.
  intros [Hl Hm] Hc. destruct m as [|p m].
  - destruct Hm as [Hk _]. destruct nk as [k|]; [|done]. apply time_lt_spec. rewrite Hc.
    by eapply head_key_later.
  - destruct Hm as (-> & ls & _ & _ & Hn & _). apply Forall_cons in Hn as [Hp _].
    rewrite Hp, Hc. apply not_true_is_false. rewrite time_lt_spec. lia.
Qed.

Lemma key_prefix_length cur m : (length (key_prefix cur m).2 ≤ length m)%nat.
Proof. rewrite <-(key_prefix_app cur m) at 2. rewrite length_app. lia. Qed.

(** One task: the pulled action [p] and those of the same mailbox after it. *)
Lemma group_ok fl bound t pfuel fuel m p lr nk q :
  p.1.1 = t → time_le t bound = true →
  front fl bound t pfuel m (reinsert p lr) nk q → (length m ≤ fuel)%nat →
  let g := (key_prefix p.1 m).1 in
  let r := (if bool_decide (nk ≠ Some p.1) then Ret ([into_future p.2], nk, q)
             else seq_loop fuel pfuel fl bound p.1 q [into_future p.2]) in
  (r = Panic ∧ ¬ safe m q) ∨
  ∃ nk' q', r = Ret (into_future p.2 :: (into_future <$> (snd <$> g)), nk', q')
    ∧ front fl bound t pfuel (key_prefix p.1 m).2 (reinsert_all (p :: g) lr) nk' q'
    ∧ qroom q - Z.of_nat (length g) ≤ qroom q'.
Proof.
  intros Hpt Hb Hfr Hlen g r. subst g r.
  pose proof (front_next_ne _ _ _ _ _ _ _ _ p.1 Hfr Hpt) as Hnk. destruct m as [|p' m].
  { right. rewrite bool_decide_true by done. exists nk, q. split_and!; [done..|simpl; lia]. }
  subst nk. cbn [key_prefix]. destruct (decide (p'.1 = p.1)) as [E|E].
  - rewrite bool_decide_false by (intros Hx; by apply Hx; rewrite E).
    rewrite (bool_decide_true (p'.1 = p.1)) by done. cbn [fst snd].
    destruct (seq_loop_ok fl bound t pfuel p.1 fuel m p' (reinsert p lr) (Some p'.1) q [into_future p.2])
      as [?|(nk2 & q3 & -> & Hfr3 & Hr3)]; [done|done|done|simpl in *; lia|by left|].
    right. by exists nk2, q3.
  - right. rewrite bool_decide_true by congruence.
    rewrite (bool_decide_false (p'.1 = p.1)) by done. exists (Some p'.1), q.
    split_and!; [done..|simpl; lia].
Qed.

Lemma step_loop_ok fl bound t pfuel inline fuel : ∀ m p lr nk q first tasks,
  time_le t bound = true → p.1.1 = t →
  front fl bound t pfuel (p :: m) lr nk q → (length m < fuel)%nat →
  let r := step_loop fuel pfuel fl bound inline first p.1 q tasks in
  (r = Panic ∧ ¬ safe (p :: m) q) ∨
  ∃ q', r = Ret (t, (if first && inline && (length m =? 0)%nat then RunFirst (into_future p.2)
                     else Spawned (tasks ++ groups (p :: m))), q')
    ∧ qrepr q' (drop_cancelled fl bound (reinsert_all (p :: m) lr)).
Proof.
  induction fuel as [|fuel IH]; intros m p lr nk q first tasks Hb Hpt Hfr Hlen; [lia|].
  cbn [step_loop].
  destruct (pull_peek _ _ _ _ _ _ _ _ _ Hfr Hb) as [[-> Hns]|(q1 & nk' & q2 & -> & Hpk & Hfr2 & Hr)].
  { left. split; [done|]. by intros ?%safe_head. }
  ret_step. rewrite Hpk. ret_step.
  rewrite (lone_test _ _ _ _ _ _ _ _ p.1 Hfr2 Hpt).
  replace (first && match m with [] => true | _ => false end && inline)
    with (first && inline && (length m =? 0)%nat) by (by destruct first, inline, m).
  destruct (first && inline && (length m =? 0)%nat) eqn:Hlone.
  { apply andb_prop in Hlone as [_ Hm%Nat.eqb_eq]. destruct m; [|done].
    destruct Hfr2 as (_ & _ & Hq2). right. exists q2. by rewrite Hpt. }
  destruct (group_ok fl bound t pfuel fuel m p lr nk' q2) as [[-> Hns]|(nk2 & q3 & -> & Hfr3 & Hr3)];
    [done|done|done|lia| |].
  { left. split; [done|]. intros Hs. apply Hns. by eapply safe_cons. }
  ret_step. rewrite groups_prefix.
  assert (reinsert_all (p :: m) lr = reinsert_all (key_prefix p.1 m).2
            (reinsert_all (p :: (key_prefix p.1 m).1) lr)) as ->
    by (rewrite <-reinsert_all_app; cbn [app]; by rewrite key_prefix_app).
  pose proof (key_prefix_length p.1 m) as Hkl. pose proof (key_prefix_app p.1 m) as Happ.
  destruct (key_prefix p.1 m) as [g [|p2 r]]; cbn [fst snd] in *.
  - destruct Hfr3 as (Hl3 & Hnk3 & Hq3). right. exists q3. split; [|done].
    destruct nk2 as [k|]; [|by rewrite Hpt]. rewrite bool_decide_false; [by rewrite Hpt|].
    symmetry in Hnk3. eapply head_key_later in Hnk3; [|done]. intros E. rewrite E, Hpt in Hnk3. lia.
  - pose proof Hfr3 as (_ & -> & ls & _ & _ & [Hp2 _]%Forall_cons & _).
    rewrite bool_decide_true by congruence.
    destruct (IH r p2 _ _ q3 false (tasks ++ [into_future p.2 :: (into_future <$> (snd <$> g))]) Hb Hp2 Hfr3)
      as [[-> Hns]|(q' & -> & Hq')]; [simpl in *; lia| |].
    + left. split; [done|]. intros Hs. apply Hns. eapply (safe_app_r g _ q2); [|done].
      rewrite Happ. by eapply safe_cons.
    + right. exists q'. split; [|done]. cbn [andb]. by rewrite <-(assoc_L (++)).
Qed.

(** ** The collecting phase, as a whole *)
Definition at_time (t : T) l : list Entry := filter (λ p, p.1.1 = t) l.
Definition not_at_time (t : T) l : list Entry := filter (λ p, p.1.1 ≠ t) l.

(** The earliest live action within the bound. *)
Definition next_time (fl : Flags) (bound : T) l : option T :=
  fst <$> head_key bound (drop_cancelled fl bound l).

Definition later (t : T) l : list Entry := filter (λ p, nanos t < nanos p.1.1) l.

(** The queue after the step at [t]. *)
Definition after_step (fl : Flags) (bound t : T) l : list Entry :=
  drop_cancelled fl bound (reinsert_all (live fl (at_time t l)) (later t l)).

Lemma sorted_times l : StronglySorted key_le l → ∀ t l', l = t :: l' →
  Forall (λ p, nanos t.1.1 ≤ nanos p.1.1) l'.
Proof.
  intros Hs t l' ->. inversion Hs as [|? ? _ Hf]; subst. eapply Forall_impl; [exact Hf|].
  intros [[tp cp] ap]. destruct t as [[tt ct] at']. unfold key_le. cbn. unfold lex_cmp. cbn.
  destruct (Z.compare_spec (nanos tt) (nanos tp)); simpl; [lia|lia|done].
Qed.

Lemma split_at_time p l :
  StronglySorted key_le (p :: l) →
  l = at_time p.1.1 l ++ not_at_time p.1.1 l ∧ later_part p.1.1 (not_at_time p.1.1 l).
Proof.
  revert p. induction l as [|x l IH]; intros p Hs; [split; [done|constructor]|].
  pose proof (sorted_times _ Hs p _ eq_refl) as Hle. apply Forall_cons in Hle as [Hpx Hle].
  inversion Hs as [|? ? Hs1 Hf]; subst. unfold at_time, not_at_time. rewrite !filter_cons.
  destruct (decide (x.1.1 = p.1.1)) as [E|E].
  - rewrite (decide_False (P := x.1.1 ≠ p.1.1)) by (intros Hx; by apply Hx).
    destruct (IH x) as [H1 H2]; [done|].
    rewrite E in *. cbn [app]. split; [by f_equal|done].
  - assert (later_part p.1.1 (x :: l)) as Hlat.
    { assert (nanos p.1.1 ≠ nanos x.1.1) by (intros Hx; by apply E, nanos_inj).
      constructor; [lia|]. pose proof (sorted_times _ Hs1 x _ eq_refl) as Hle2.
      eapply Forall_impl; [exact Hle2|]. simpl. lia. }
    assert (∀ y, y ∈ x :: l → y.1.1 ≠ p.1.1) as Hne.
    { intros y Hy Hx. unfold later_part in Hlat. rewrite Forall_forall in Hlat.
      specialize (Hlat _ Hy). simpl in Hlat. rewrite Hx in Hlat. lia. }
    rewrite (decide_True (P := x.1.1 ≠ p.1.1)) by done.
    rewrite filter_none by (apply Forall_forall; intros y Hy; apply Hne; by right).
    rewrite filter_all by (apply Forall_forall; intros y Hy; apply Hne; by right).
    done.
Qed.

Lemma not_at_time_later t l :
  Forall (λ p, nanos t ≤ nanos p.1.1) l → not_at_time t l = later t l.
Proof.
  induction 1 as [|p l Hp Hl IH]; [done|]. unfold not_at_time, later in *. rewrite !filter_cons.
  rewrite IH. destruct (decide (nanos t < nanos p.1.1)) as [E|E].
  - rewrite decide_True; [done|]. intros Hx. rewrite Hx in E. lia.
  - rewrite decide_False; [done|]. intros Hx. apply Hx, nanos_inj. lia.
Qed.

(** What is discarded before the first live entry [p] is cancelled and not
    later than [p]. *)
Lemma drop_cancelled_split fl bound l p l' :
  StronglySorted key_le l → drop_cancelled fl bound l = p :: l' →
  ∃ ld, l = ld ++ p :: l' ∧ Forall (λ x, is_cancelled fl x.2 = true) ld
    ∧ Forall (λ x, nanos x.1.1 ≤ nanos p.1.1) ld.
Proof.
  intros Hs. induction Hs as [|x l Hs IH Hf]; [done|]. cbn [drop_cancelled].
  destruct (time_le x.1.1 bound && is_cancelled fl x.2) eqn:E.
  2: { intros [= -> ->]. by exists []. }
  intros Hd. destruct (IH Hd) as (ld & -> & Hc & Hle). exists (x :: ld).
  apply andb_prop in E as [_ E]. split_and!; [done|by constructor|]. constructor; [|done].
  assert (StronglySorted key_le (x :: ld ++ p :: l')) as Hs2 by by constructor.
  pose proof (sorted_times _ Hs2 x _ eq_refl) as Ht.
  rewrite Forall_app, Forall_cons in Ht. tauto.
Qed.

Lemma split_after_drop fl bound l p l' :
  StronglySorted key_le l → drop_cancelled fl bound l = p :: l' →
  live fl (at_time p.1.1 l) = live fl (at_time p.1.1 (p :: l'))
  ∧ later p.1.1 l = not_at_time p.1.1 l'
  ∧ l' = at_time p.1.1 l' ++ not_at_time p.1.1 l'
  ∧ later_part p.1.1 (not_at_time p.1.1 l').
Proof.
  intros Hs Hd. destruct (drop_cancelled_split _ _ _ _ _ Hs Hd) as (ld & -> & Hc & Hle).
  apply StronglySorted_app_inv in Hs as (_ & Hs & _).
  pose proof (sorted_times _ Hs p _ eq_refl) as Ht.
  split_and!; [| |apply (split_at_time p l' Hs)..].
  - unfold live, at_time. rewrite filter_app, filter_app. rewrite (filter_none _ (filter _ ld)); [done|].
    rewrite Forall_forall in Hc |- *. intros x [_ Hx]%list_elem_of_filter. rewrite Hc by done. done.
  - unfold later at 1. rewrite filter_app, filter_none.
    + rewrite filter_cons, decide_False by lia. symmetry. by apply not_at_time_later.
    + eapply Forall_impl; [exact Hle|]. simpl. lia.
Qed.

Lemma collect_ok fl bound inline q l :
  qrepr q l → Forall (λ p, period_ok p.2) l →
  match next_time fl bound l with
  | None => ∃ q', collect fl bound inline q = Ret (None, q') ∧ qrepr q' (drop_cancelled fl bound l)
  | Some t =>
      let m := live fl (at_time t l) in
      (collect fl bound inline q = Panic ∧ ¬ safe m q) ∨
      ∃ q', collect fl bound inline q = Ret (Some (t, launched inline m), q')
        ∧ qrepr q' (after_step fl bound t l)
  end.
Proof.
  intros Hq Hgood. unfold next_time, collect, sq_len. rewrite (pq_len_repr _ _ Hq).
  set (pfuel := S (length l)). assert (length l < pfuel)%nat as Hpf by (unfold pfuel; lia).
  destruct (peek_next_key_ok fl bound pfuel q l Hq Hpf) as (q1 & -> & Hq1 & Hr1).
  ret_step. pose proof (pq_sorted _ _ Hq) as Hs.
  destruct (drop_cancelled fl bound l) as [|p l'] eqn:Hd; cbn [head_key fmap option_fmap option_map].
  { by exists q1. }
  destruct (time_le p.1.1 bound) eqn:Hb; cbn [fmap option_fmap option_map]; [|by exists q1].
  cbv zeta. destruct (split_after_drop _ _ _ _ _ Hs Hd) as (Hlive & Hlater & Hsplit & Hlp).
  assert (is_cancelled fl p.2 = false) as Hpl.
  { clear -Hd Hb. induction l as [|x l IH]; [done|]. cbn [drop_cancelled] in Hd.
    destruct (time_le x.1.1 bound && is_cancelled fl x.2) eqn:E; [by apply IH|]. simplify_eq.
    by rewrite Hb in E. }
  assert (at_time p.1.1 (p :: l') = p :: at_time p.1.1 l') as Hat
    by (unfold at_time; by rewrite filter_cons, decide_True).
  assert (live fl (at_time p.1.1 l) = p :: live fl (at_time p.1.1 l')) as Hm
    by (rewrite Hlive, Hat; unfold live; by rewrite filter_cons, decide_True).
  destruct (drop_cancelled_split _ _ _ _ _ Hs Hd) as (ld & Hl & _).
  destruct (step_loop_ok fl bound p.1.1 pfuel inline pfuel (live fl (at_time p.1.1 l')) p
              (later p.1.1 l) (Some p.1) q1 true []) as [[-> Hns]|(q2 & -> & Hq2)]; [done|done| | | |].
  - split; [by rewrite Hlater|]. split; [done|]. exists (at_time p.1.1 l').
    rewrite Hlater, <-Hsplit. split_and!; [done|done| | |].
    + constructor; [done|]. apply Forall_forall. intros x [Hx _]%list_elem_of_filter. done.
    + rewrite Hl, Forall_app, Forall_cons in Hgood. destruct Hgood as (_ & ? & Hgood).
      constructor; [done|]. rewrite Forall_forall in Hgood |- *.
      intros x [_ Hx]%list_elem_of_filter. by apply Hgood.
    + rewrite Hl, length_app in Hpf. lia.
  - rewrite Hl, length_app in Hpf. unfold live, at_time. simpl in Hpf.
    pose proof (length_filter (λ p0 : Entry, is_cancelled fl p0.2 = false) (filter (λ p0 : Entry, p0.1.1 = p.1.1) l')).
    pose proof (length_filter (λ p0 : Entry, p0.1.1 = p.1.1) l'). lia.
  - left. split; [done|]. rewrite Hm. intros [? ?]. apply Hns. split; [done|lia].
  - right. exists q2. unfold after_step. rewrite Hm. cbn [mbind outcome_bind app]. split; [|done].
    unfold launched. destruct (live fl (at_time p.1.1 l')) as [|p2 m2]; cbn [length Nat.eqb andb].
    + by destruct inline.
    + by rewrite andb_false_r.
Qed.

(** ** Live actions and changes of the flags *)
Lemma live_ext fl fl' l :
  Forall (λ p, is_cancelled fl p.2 = is_cancelled fl' p.2) l → live fl l = live fl' l.
Proof.
  induction 1 as [|p l Hp _ IH]; [done|]. unfold live in *. rewrite !filter_cons, IH.
  by destruct (decide (is_cancelled fl p.2 = false)) as [E|E]; rewrite Hp in E; case_decide.
Qed.

Lemma live_insert_cancelled fl k a l :
  is_cancelled fl a = true → live fl (spq_insert k a l) = live fl l.
Proof.
  intros Ha. unfold live. induction l as [|[k' a'] l IH]; cbn [spq_insert].
  - by rewrite filter_cons, decide_False by (cbn [snd]; congruence).
  - destruct (cmp k k').
    2: { by rewrite filter_cons, decide_False by (cbn [snd]; congruence). }
    all: rewrite !(filter_cons _ (k', a')); by rewrite IH.
Qed.

Lemma live_insert_length fl k a l :
  is_cancelled fl a = false → length (live fl (spq_insert k a l)) = S (length (live fl l)).
Proof.
  intros Ha. unfold live. rewrite (spq_insert_perm k a l), filter_cons.
  by rewrite decide_True by done.
Qed.

(** ** A null period

    [Scheduler::schedule] takes any action, and the periodic actions of
    [EventSource] are built without a check of their period.  With a null
    period the action is re-inserted at the time being processed, and the loop
    pulls it again for as long as the epochs last. *)
Lemma seq_loop_null_period fl bound t ch gen pfuel fuel : ∀ q seq,
  qrepr q [((t, ch), PeriodicAction gen 0)] → checked_add t 0 = Some t → time_le t bound = true →
  (0 < pfuel)%nat → Z.of_nat fuel ≤ qroom q →
  seq_loop fuel (S pfuel) fl bound (t, ch) q seq = OutOfFuel.
Proof.
  induction fuel as [|fuel IH]; intros q seq Hq Ht Hb Hpf Hroom; [done|]. cbn [seq_loop].
  destruct (pull_next_action_ok _ _ _ Hq) as [[_ Hns]|(q1 & -> & Hq1 & Hr1)].
  { destruct Hns. split; [by repeat constructor; cbn; rewrite Ht|simpl; lia]. }
  unfold reinsert in Hq1. cbn [next snd fst] in Hq1. rewrite Ht in Hq1. ret_step.
  destruct (peek_next_key_ok fl bound (S pfuel) q1 _ Hq1) as (q2 & -> & Hq2 & Hr2); [simpl; lia|].
  ret_step.
  assert (drop_cancelled fl bound (spq_insert (t, ch) (PeriodicAction gen 0) [])
          = [((t, ch), PeriodicAction gen 0)]) as Hd.
  { cbn. by rewrite Hb. }
  rewrite Hd in Hq2 |- *. cbn [head_key fst]. rewrite Hb.
  rewrite bool_decide_false by (intros Hx; by apply Hx). apply IH; [done..|lia].
Qed.
End collect.
End Sim.
