(* ===== verification/Runtime.v ===== *)
(** * Models, mailboxes and the executor

    What runs between two time steps: the tasks handed to the executor send
    messages to mailboxes ([process_event] and [send_keyed_event] of
    [simulation/scheduler.rs]), and each model's own task receives them one at a
    time and runs the addressed method ([add_model] of [simulation.rs]).  Model
    code is any program over the operations a model has: those of its local
    scheduler, reading the time, cancelling keys and sending through its ports.
    The executor may interleave these steps in any order: it is the relation
    [estep]; a particular executor is a function that follows it. *)

From S2P Require Import Prelude StablePq Scheduler.
Import Sched.

Module Rt.

(** Messages are marked with their origin, a scheduled action or a port. *)
Inductive origin := Scheduled | Port.

#[export] Instance origin_eq_dec : EqDecision origin.
Proof. solve_decision. Defined.

Section runtime.
Context {Arg M T Q : Type} `{TaiTime T} `{!StablePQ (T * Chan) (Action Arg) Q}.

(** ** Model code *)

(** The calls on [LocalScheduler]: the address is that of the model.
    A [Duration] is unsigned, hence the periods in [N]. *)
Inductive local_request :=
| LEvent (deadline : Deadline T) (arg : Arg)
| LKeyedEvent (deadline : Deadline T) (arg : Arg)
| LPeriodicEvent (deadline : Deadline T) (period : N) (arg : Arg)
| LKeyedPeriodicEvent (deadline : Deadline T) (period : N) (arg : Arg).

Definition to_request (address : Chan) (r : local_request) : request Arg T :=
  match r with
  | LEvent d arg => ReqEvent d arg address
  | LKeyedEvent d arg => ReqKeyedEvent d arg address
  | LPeriodicEvent d p arg => ReqPeriodicEvent d (Z.of_N p) arg address
  | LKeyedPeriodicEvent d p arg => ReqKeyedPeriodicEvent d (Z.of_N p) arg address
  end.

Inductive prog :=
| Done (m : M)
| Request (r : local_request) (k : result (option ActionKey) SchedulingError → prog)
| Cancel (key : ActionKey) (p : prog)
| Now (k : T → prog)
| Send (ch : Chan) (arg : Arg) (p : prog).

(** The method that the model of a channel runs for an argument. *)
Variable handler : Chan → M → Arg → prog.

(** ** The system *)

(** One message taken from a mailbox: when, by whom, and whether its method
    was run (it is not when its key was cancelled in the meantime). *)
Record delivery := mkDelivery {
  d_time : T; d_chan : Chan; d_origin : origin; d_msg : Msg Arg; d_run : bool
}.

Record Sys := mkSys {
  sched : Scheduler T Q;
  models : gmap Chan M;
  mailbox : gmap Chan (list (origin * Msg Arg));
  running : gmap Chan prog;
  tasks : list (Fut Arg);
  trace : list delivery
}.
Implicit Types s : Sys.

Definition set_sched s (x : Scheduler T Q) : Sys :=
  mkSys x (models s) (mailbox s) (running s) (tasks s) (trace s).
Definition set_tasks s (ts : list (Fut Arg)) : Sys :=
  mkSys (sched s) (models s) (mailbox s) (running s) ts (trace s).
Definition set_running s (r : gmap Chan prog) : Sys :=
  mkSys (sched s) (models s) (mailbox s) r (tasks s) (trace s).

Definition box s (ch : Chan) : list (origin * Msg Arg) := default [] (mailbox s !! ch).
Definition push s (ch : Chan) (x : origin * Msg Arg) : Sys :=
  mkSys (sched s) (models s) (<[ch:=box s ch ++ [x]]> (mailbox s)) (running s) (tasks s) (trace s).

Definition msg_arg (m : Msg Arg) : Arg := match m with PlainMsg a | KeyedMsg _ a => a end.
Definition msg_cancelled (fl : Flags) (m : Msg Arg) : bool :=
  match m with PlainMsg _ => false | KeyedMsg k _ => key_is_cancelled fl k end.

(** Taking the next message: the method runs unless its key is cancelled. *)
Definition receive s (ch : Chan) (m : M) (o : origin) (msg : Msg Arg)
    (rest : list (origin * Msg Arg)) : Sys :=
  let run := negb (msg_cancelled (flags (sched s)) msg) in
  mkSys (sched s) (models s) (<[ch:=rest]> (mailbox s))
    (if run then <[ch:=handler ch m (msg_arg msg)]> (running s) else running s)
    (tasks s) (trace s ++ [mkDelivery (time (sched s)) ch o msg run]).

Definition set_model s (ch : Chan) (m : M) : Sys :=
  mkSys (sched s) (<[ch:=m]> (models s)) (mailbox s) (delete ch (running s)) (tasks s) (trace s).

Inductive estep : Sys → Sys → Prop :=
| E_send s ts1 ts2 ch msg rest :
    tasks s = ts1 ++ ((ch, msg) :: rest) :: ts2 →
    estep s (set_tasks (push s ch (Scheduled, msg)) (ts1 ++ rest :: ts2))
| E_finish s ts1 ts2 :
    tasks s = ts1 ++ [] :: ts2 → estep s (set_tasks s (ts1 ++ ts2))
| E_receive s ch m o msg rest :
    running s !! ch = None → models s !! ch = Some m → box s ch = (o, msg) :: rest →
    estep s (receive s ch m o msg rest)
| E_done s ch m :
    running s !! ch = Some (Done m) → estep s (set_model s ch m)
| E_request s ch r k sched' res :
    running s !! ch = Some (Request r k) →
    run_request (to_request ch r) (sched s) = Ret (sched', res) →
    estep s (set_running (set_sched s sched') (<[ch:=k res]> (running s)))
| E_cancel s ch key p :
    running s !! ch = Some (Cancel key p) →
    estep s (set_running (set_sched s (set_flags (sched s) (key_cancel (flags (sched s)) key)))
               (<[ch:=p]> (running s)))
| E_now s ch k :
    running s !! ch = Some (Now k) →
    estep s (set_running s (<[ch:=k (time (sched s))]> (running s)))
| E_port s ch dst arg p :
    running s !! ch = Some (Send dst arg p) →
    estep s (set_running (push s dst (Port, PlainMsg arg)) (<[ch:=p]> (running s))).

(** Nothing is left to do: no method runs, and the models have no message
    waiting (messages sent to a mailbox without a model stay there). *)
Definition idle s : Prop := (∀ ch, is_Some (models s !! ch) → box s ch = []) ∧ running s = ∅.
Definition quiescent s : Prop := idle s ∧ tasks s = [].

(** A scheduling call that panics takes the simulation down. *)
Definition panics s : Prop := ∃ ch r k,
  running s !! ch = Some (Request r k) ∧ run_request (to_request ch r) (sched s) = Panic.

(** ** Steps keep the time and only add future actions *)
Record grows (x x' : Scheduler T Q) (l l' : list ((T * Chan) * Action Arg)) : Prop := {
  grows_time : time x' = time x;
  grows_wf : sched_wf x' l';
  grows_mono : ∀ p, p ∈ l → p ∈ l';
  grows_flags : ∀ k, key_is_cancelled (flags x) k = true → key_is_cancelled (flags x') k = true
}.

Lemma grows_refl x l : sched_wf x l → grows x x l l.
Proof. by split. Qed.
Lemma grows_trans x1 x2 x3 l1 l2 l3 : grows x1 x2 l1 l2 → grows x2 x3 l2 l3 → grows x1 x3 l1 l3.
Proof. intros [? _ ? ?] [? ? ? ?]. split; [congruence|done|auto|auto]. Qed.

Lemma to_request_ok (x : Scheduler T Q) ch r : request_ok x (to_request ch r).
Proof. destruct r; simpl; lia || done. Qed.

Lemma key_cancelled_grow fl b k :
  key_is_cancelled fl k = true → key_is_cancelled (fl ++ b) k = true.
Proof.
  unfold key_is_cancelled. destruct (fl !! k) eqn:E; [|done]. by rewrite (lookup_app_l_Some _ _ _ _ E).
Qed.

Lemma key_cancel_other fl k k' :
  k ≠ k' → key_is_cancelled (key_cancel fl k) k' = key_is_cancelled fl k'.
Proof. intros. unfold key_is_cancelled, key_cancel. by rewrite list_lookup_insert_ne. Qed.
Lemma key_cancel_same fl k :
  (k < length fl)%nat → key_is_cancelled (key_cancel fl k) k = true.
Proof. intros. unfold key_is_cancelled, key_cancel. by rewrite list_lookup_insert_eq. Qed.
Lemma key_cancel_mono fl k k' :
  key_is_cancelled fl k' = true → key_is_cancelled (key_cancel fl k) k' = true.
Proof.
  destruct (decide (k = k')) as [<-|]; [|by rewrite key_cancel_other].
  intros Hc. apply key_cancel_same. unfold key_is_cancelled in Hc.
  destruct (fl !! k) eqn:E; [|done]. by eapply lookup_lt_Some.
Qed.

Lemma estep_grows s s' l :
  estep s s' → sched_wf (sched s) l → ∃ l', grows (sched s) (sched s') l l'.
Proof.
  destruct 1 as [| | | |s ch r k sched' res Hr Hreq|s ch key p Hr| |]; intros Hwf;
    try (exists l; by apply grows_refl).
  - destruct (run_request_wf _ _ _ _ _ Hwf (to_request_ok _ _ _) Hreq) as [Ht Hres].
    destruct res as [ko|e]; [|subst sched'; exists l; by apply grows_refl].
    destruct Hres as (t & _ & _ & Hwf' & Hfl & _). eexists. split; simpl; [done|exact Hwf'|..].
    + intros p Hp. apply spq_insert_elem. by right.
    + intros k' Hk'. rewrite Hfl. destruct (req_keyed _); [by apply key_cancelled_grow|done].
  - exists l. split; simpl; [done| |done|intros; by apply key_cancel_mono].
    destruct Hwf as [Hp Hf]. split; [done|]. eapply Forall_impl; [exact Hf|].
    intros x (? & ? & Hk). split_and!; [done|done|]. unfold key_ok in *. simpl.
    destruct (action_key x.2); [|done]. unfold key_cancel. by rewrite length_insert.
Qed.

Lemma esteps_grows s s' l :
  rtc estep s s' → sched_wf (sched s) l → ∃ l', grows (sched s) (sched s') l l'.
Proof.
  intros Hs. revert l. induction Hs as [s|s1 s2 s3 Hst _ IH]; intros l Hwf.
  { exists l. by apply grows_refl. }
  destruct (estep_grows _ _ _ Hst Hwf) as (l2 & Hg). destruct (IH l2) as (l3 & Hg3).
  { by destruct Hg. }
  exists l3. by eapply grows_trans.
Qed.

(** ** Messages to one mailbox keep their order *)
Definition for_chan (ch : Chan) (f : Fut Arg) : list (Msg Arg) :=
  snd <$> filter (λ x, x.1 = ch) f.
Definition to_send (ch : Chan) (ts : list (Fut Arg)) : list (Msg Arg) := for_chan ch (concat ts).
Definition delivered (ch : Chan) (tr : list delivery) : list (Msg Arg) :=
  d_msg <$> filter (λ d, d_chan d = ch ∧ d_origin d = Scheduled) tr.
Definition waiting s (ch : Chan) : list (Msg Arg) :=
  snd <$> filter (λ x, x.1 = Scheduled) (box s ch).

(** No two tasks send to [ch]. *)
Fixpoint sole (ch : Chan) (ts : list (Fut Arg)) : Prop :=
  match ts with
  | [] => True
  | f :: ts' => (for_chan ch f = [] ∨ Forall (λ g, for_chan ch g = []) ts') ∧ sole ch ts'
  end.

Lemma for_chan_app ch f g : for_chan ch (f ++ g) = for_chan ch f ++ for_chan ch g.
Proof. unfold for_chan. by rewrite filter_app, fmap_app. Qed.
Lemma for_chan_cons ch x f :
  for_chan ch (x :: f) = (if decide (x.1 = ch) then [x.2] else []) ++ for_chan ch f.
Proof. unfold for_chan. rewrite filter_cons. by destruct (decide (x.1 = ch)). Qed.
Lemma to_send_none ch ts : Forall (λ g, for_chan ch g = []) ts → to_send ch ts = [].
Proof.
  unfold to_send. induction 1 as [|g ts Hg _ IH]; [done|]. cbn [concat].
  by rewrite for_chan_app, Hg, IH.
Qed.

(** Taking a message of [ch] from a task takes the first one to be sent. *)
Lemma sole_split ch ts1 f ts2 :
  sole ch (ts1 ++ f :: ts2) → for_chan ch f ≠ [] → to_send ch ts1 = [].
Proof.
  intros Hs Hf. apply to_send_none. induction ts1 as [|g ts1 IH]; [done|]. destruct Hs as [Hg Hs].
  constructor; [|by apply IH]. destruct Hg as [|Hall]; [done|].
  apply Forall_app in Hall as [_ Hall]. by inversion Hall.
Qed.

Lemma sole_replace ch ts1 f g ts2 :
  sole ch (ts1 ++ f :: ts2) → (for_chan ch f = [] → for_chan ch g = []) → sole ch (ts1 ++ g :: ts2).
Proof.
  intros Hs Hg. induction ts1 as [|x ts1 IH]; cbn [app sole] in *.
  - destruct Hs as [[?|?] ?]; split; auto.
  - destruct Hs as [Hx Hs]. split; [|by apply IH]. destruct Hx as [?|Hall]; [by left|]. right.
    rewrite Forall_app, Forall_cons in *. naive_solver.
Qed.

Lemma sole_remove ch ts1 f ts2 : sole ch (ts1 ++ f :: ts2) → sole ch (ts1 ++ ts2).
Proof.
  induction ts1 as [|x ts1 IH]; cbn [app sole]; [naive_solver|]. intros [Hx Hs].
  split; [|by apply IH]. destruct Hx as [?|Hall]; [by left|]. right.
  rewrite Forall_app, Forall_cons in *. naive_solver.
Qed.

Lemma to_send_app ch ts1 ts2 : to_send ch (ts1 ++ ts2) = to_send ch ts1 ++ to_send ch ts2.
Proof. unfold to_send. by rewrite concat_app, for_chan_app. Qed.
Lemma to_send_cons ch f ts : to_send ch (f :: ts) = for_chan ch f ++ to_send ch ts.
Proof. unfold to_send. cbn [concat]. by rewrite for_chan_app. Qed.

Definition flow s (ch : Chan) : list (Msg Arg) :=
  delivered ch (trace s) ++ waiting s ch ++ to_send ch (tasks s).

Lemma box_push s ch c x : box (push s c x) ch = if decide (c = ch) then box s ch ++ [x] else box s ch.
Proof.
  unfold box, push. simpl. destruct (decide (c = ch)) as [->|E].
  - by rewrite lookup_insert_eq.
  - by rewrite lookup_insert_ne.
Qed.

Lemma delivered_snoc ch tr d :
  delivered ch (tr ++ [d]) =
    delivered ch tr ++ (if decide (d_chan d = ch ∧ d_origin d = Scheduled) then [d_msg d] else []).
Proof.
  unfold delivered. rewrite filter_app, fmap_app, filter_cons, filter_nil.
  by destruct (decide (d_chan d = ch ∧ d_origin d = Scheduled)).
Qed.

Lemma receive_flow s ch c m o msg rest :
  box s c = (o, msg) :: rest →
  delivered ch (trace (receive s c m o msg rest)) ++ waiting (receive s c m o msg rest) ch
    = delivered ch (trace s) ++ waiting s ch.
Proof.
  intros Hb. unfold receive. cbn [trace]. rewrite delivered_snoc, <-(assoc_L (++)). f_equal.
  cbn [d_chan d_origin d_msg]. unfold waiting, box. cbn [mailbox]. destruct (decide (c = ch)) as [->|E].
  - rewrite lookup_insert_eq. fold (box s ch). rewrite Hb. cbn [default id]. rewrite filter_cons.
    destruct o; cbn [fst].
    + rewrite decide_True by done. by rewrite decide_True.
    + rewrite decide_False by naive_solver. by rewrite decide_False.
  - rewrite lookup_insert_ne by done. by rewrite decide_False by naive_solver.
Qed.

Lemma estep_flow s s' ch :
  estep s s' → sole ch (tasks s) → flow s' ch = flow s ch ∧ sole ch (tasks s').
Proof.
  destruct 1 as [s ts1 ts2 c msg rest Ht|s ts1 ts2 Ht|s c m o msg rest Hr Hm Hb| | | | |s c dst arg p Hr];
    intros Hs; try done.
  - cbn [tasks set_tasks]. rewrite Ht in Hs. split.
    2: { eapply sole_replace; [exact Hs|]. rewrite for_chan_cons. by intros [_ ?]%app_eq_nil. }
    unfold flow, waiting. change (box (set_tasks ?x _) ch) with (box x ch). rewrite box_push.
    cbn [trace set_tasks push tasks]. f_equal. rewrite Ht, !to_send_app, !to_send_cons, for_chan_cons.
    cbn [fst snd]. destruct (decide (c = ch)) as [->|E]; [|done].
    rewrite (sole_split ch ts1 ((ch, msg) :: rest) ts2 Hs).
    2: { rewrite for_chan_cons. cbn [fst]. by rewrite decide_True. }
    rewrite filter_app, fmap_app. cbn [app]. by rewrite <-(assoc_L (++)).
  - cbn [tasks set_tasks]. rewrite Ht in Hs. split; [|by eapply sole_remove].
    unfold flow, waiting. change (box (set_tasks ?x _) ch) with (box x ch).
    cbn [trace set_tasks tasks]. by rewrite Ht, !to_send_app, to_send_cons.
  - split; [|done]. unfold flow. rewrite !(assoc_L (++)). f_equal. by apply receive_flow.
  - split; [|done]. unfold flow, waiting. change (box (set_running ?x _) ch) with (box x ch).
    rewrite box_push. cbn [trace set_running push tasks]. destruct (decide (dst = ch)); [|done].
    rewrite filter_app, filter_cons, filter_nil, decide_False by done. by rewrite app_nil_r.
Qed.

Lemma esteps_flow s s' ch :
  rtc estep s s' → sole ch (tasks s) → flow s' ch = flow s ch.
Proof.
  induction 1 as [s|s1 s2 s3 Hst _ IH]; intros Hs; [done|].
  destruct (estep_flow _ _ ch Hst Hs) as [Hf Hs2]. rewrite IH by done. done.
Qed.

Lemma estep_models s s' ch :
  estep s s' → is_Some (models s !! ch) → is_Some (models s' !! ch).
Proof.
  destruct 1 as [| | |s c m| | | |]; try done. simpl. destruct (decide (c = ch)) as [->|].
  - by rewrite lookup_insert_eq.
  - by rewrite lookup_insert_ne.
Qed.
Lemma esteps_models s s' ch :
  rtc estep s s' → is_Some (models s !! ch) → is_Some (models s' !! ch).
Proof. induction 1; [done|]. intros. by eauto using estep_models. Qed.

(** Running the tasks to the end delivers to the model of [ch] what they send,
    in order. *)
Lemma run_delivers s s' ch :
  rtc estep s s' → idle s → quiescent s' → sole ch (tasks s) → is_Some (models s !! ch) →
  delivered ch (trace s') = delivered ch (trace s) ++ to_send ch (tasks s).
Proof.
  intros Hrun [Hb _] [[Hb' _] Ht'] Hs Hm. pose proof (esteps_flow _ _ ch Hrun Hs) as Hf.
  unfold flow, waiting in Hf. rewrite Hb, Hb', Ht' in Hf by eauto using esteps_models.
  unfold to_send at 1 in Hf. cbn in Hf. by rewrite app_nil_r in Hf.
Qed.
End runtime.
Arguments prog : clear implicits.
Arguments Sys : clear implicits.
End Rt.
