(* ===== verification/Stepping.v ===== *)
(** * Advancing the simulation: [step], [step_by], [step_until] of [simulation.rs]

    The collecting phase of [Simulation.v] followed by a run of the executor of
    [Runtime.v], and the loops over it.  The theorems show that time only moves
    forward, to the earliest live action; that exactly the live actions of that
    time are processed, those of one mailbox in the order of their scheduling;
    and that [step_until] ends at its target with nothing left to do before it. *)

From S2P Require Import Prelude StablePq Scheduler Simulation Runtime.
Import Sched Sim Rt.

Module Step.
Section stepping.
Context {Arg M T Q : Type} `{TaiTime T} `{!StablePQ (T * Chan) (Action Arg) Q}.
Abbreviation Entry := ((T * Chan) * Action Arg)%type.
Variable handler : Chan → M → Arg → prog Arg M T.
Implicit Types (s : Sys Arg M T Q) (l m : list Entry).

(** ** The executor

    [Executor::run] returns once every task is finished; a panic of model code
    in a scheduling call is propagated.  (Model code that does not terminate,
    or mailboxes that deadlock, are outside of this contract.) *)
Class Executor := {
  exec_run : Sys Arg M T Q → outcome (Sys Arg M T Q);
  exec_run_ok s : idle s →
    match exec_run s with
    | Ret s' => rtc (estep handler) s s' ∧ quiescent s'
    | Panic => ∃ s', rtc (estep handler) s s' ∧ panics s'
    | OutOfFuel => False
    end
}.
Context `{Executor}.

(** ** Operations *)
Variable inline_lone_actions : bool.

Definition tasks_of (ln : launch (Arg := Arg)) : list (Fut Arg) :=
  match ln with
  | RunFirst fut => [fut]
  | Spawned ts => (λ fs, concat fs) <$> ts
  end.

Definition step_to_next_bounded (upper_time_bound : T) s : outcome (option T * Sys Arg M T Q) :=
  '(o, q) ← collect (flags (sched s)) upper_time_bound inline_lone_actions (scheduler_queue (sched s));
  match o with
  | None => Ret (None, set_sched s (set_queue (sched s) q))
  | Some (t, ln) =>
      let s1 := set_tasks (set_sched s (mkScheduler q t (flags (sched s)))) (tasks s ++ tasks_of ln) in
      s2 ← exec_run s1;
      Ret (Some t, s2)
  end.

Definition step s : outcome (Sys Arg M T Q) :=
  '(_, s') ← step_to_next_bounded TIME_MAX s; Ret s'.

Definition write_time s (t : T) : Sys Arg M T Q :=
  set_sched s (mkScheduler (scheduler_queue (sched s)) t (flags (sched s))).

Fixpoint step_until_unchecked (fuel : nat) (target_time : T) s : outcome (Sys Arg M T Q) :=
  match fuel with
  | O => OutOfFuel
  | S fuel =>
      '(o, s') ← step_to_next_bounded target_time s;
      match o with
      | Some t => if bool_decide (t = target_time) then Ret s'
                  else step_until_unchecked fuel target_time s'
      | None => Ret (write_time s' target_time)
      end
  end.

Definition step_by (fuel : nat) (duration : Z) s : outcome (Sys Arg M T Q) :=
  target_time ← time_add (time (sched s)) duration;
  step_until_unchecked fuel target_time s.

Definition step_until (fuel : nat) (target_time : T) s
    : outcome (Sys Arg M T Q * result unit SchedulingError) :=
  if time_le target_time (time (sched s)) then Ret (s, Err InvalidScheduledTime)
  else s' ← step_until_unchecked fuel target_time s; Ret (s', Ok tt).

Definition process (action : Action Arg) s : outcome (Sys Arg M T Q) :=
  exec_run (set_tasks s (tasks s ++ [into_future action])).

Definition process_event_now (arg : Arg) (address : Chan) s : outcome (Sys Arg M T Q) :=
  exec_run (set_tasks s (tasks s ++ [process_event arg address])).

(** ** Tasks of one step *)

(** The futures of the event methods only send to the mailbox of their key. *)
Definition addressed (p : Entry) : Prop := Forall (λ x, x.1 = p.1.2) (into_future p.2).

Definition messages (ch : Chan) m : list (Msg Arg) := for_chan ch (concat ((λ p, into_future p.2) <$> m)).

Lemma messages_app ch m1 m2 : messages ch (m1 ++ m2) = messages ch m1 ++ messages ch m2.
Proof. unfold messages. by rewrite fmap_app, concat_app, for_chan_app. Qed.

Lemma for_chan_other ch f c : Forall (λ x : Chan * Msg Arg, x.1 = c) f → c ≠ ch → for_chan ch f = [].
Proof.
  intros Hf Hc. unfold for_chan. rewrite filter_none; [done|].
  eapply Forall_impl; [exact Hf|]. by intros x ->.
Qed.

Lemma messages_other ch m :
  Forall addressed m → Forall (λ p, p.1.2 ≠ ch) m → messages ch m = [].
Proof.
  induction 1 as [|p m Hp _ IH]; intros Ho; [done|]. apply Forall_cons in Ho as [Hc Ho].
  change (p :: m) with ([p] ++ m). rewrite messages_app, IH by done. unfold messages.
  simpl. by rewrite !app_nil_r, (for_chan_other _ _ p.1.2).
Qed.

Lemma concat_snd_fmap m : concat (into_future <$> (snd <$> m)) = concat ((λ p : Entry, into_future p.2) <$> m).
Proof. by rewrite <-list_fmap_compose. Qed.

(** The tasks send what the actions send, and only one task sends to a given
    mailbox when the actions are sorted by channel. *)
Definition chan_sorted m : Prop := StronglySorted (λ p p', p.1.2 ≤ p'.1.2) m.

Lemma key_prefix_keys cur m : Forall (λ p : Entry, p.1 = cur) (key_prefix cur m).1.
Proof. induction m as [|p m IH]; simpl; [done|]. case_bool_decide; simpl; by constructor. Qed.

Lemma chan_sorted_rest (t : T) p m :
  chan_sorted (p :: m) → Forall (λ x, x.1.1 = t) (p :: m) →
  Forall (λ x, p.1.2 < x.1.2) (key_prefix p.1 m).2.
Proof.
  intros Hs [Hp Ht]%Forall_cons. induction m as [|x m IH]; [constructor|].
  inversion Hs as [|? ? Hs' Hf]; subst. inversion Hs' as [|? ? Hs'' Hf']; subst.
  apply Forall_cons in Hf as [Hpx Hf], Ht as [Hx Ht]. cbn [key_prefix]. case_bool_decide as E; cbn [snd].
  - apply IH; [by constructor|done].
  - assert (p.1.2 ≠ x.1.2) as Hne.
    { intros Hc. apply E. rewrite (surjective_pairing x.1), (surjective_pairing p.1). congruence. }
    constructor; [lia|]. eapply Forall_impl; [exact Hf'|]. simpl. lia.
Qed.

Lemma chan_sorted_suffix m1 m2 : chan_sorted (m1 ++ m2) → chan_sorted m2.
Proof. by intros (_ & ? & _)%StronglySorted_app_inv. Qed.

Definition task_list m : list (Fut Arg) := (λ fs, concat fs) <$> groups m.

Lemma messages_cons ch p m : messages ch (p :: m) = for_chan ch (into_future p.2) ++ messages ch m.
Proof. unfold messages. cbn [fmap list_fmap concat]. by rewrite for_chan_app. Qed.

Lemma groups_messages n : ∀ m ch, (length m ≤ n)%nat → to_send ch (task_list m) = messages ch m.
Proof.
  induction n as [|n IH]; intros m ch Hn; destruct m as [|p m]; try done; [simpl in Hn; lia|].
  unfold task_list. rewrite groups_prefix, fmap_cons, to_send_cons.
  pose proof (key_prefix_length p.1 m). simpl in Hn.
  fold (task_list (key_prefix p.1 m).2). rewrite IH by lia. cbn [concat].
  rewrite for_chan_app, concat_snd_fmap, messages_cons, <-(assoc_L (++)). f_equal.
  fold (messages ch (key_prefix p.1 m).1). by rewrite <-messages_app, key_prefix_app.
Qed.

Lemma groups_sole (t : T) n : ∀ m ch, (length m ≤ n)%nat →
  chan_sorted m → Forall (λ x, x.1.1 = t) m → Forall addressed m → sole ch (task_list m).
Proof.
  induction n as [|n IH]; intros m ch Hn Hs Ht Ha; destruct m as [|p m]; try done; [simpl in Hn; lia|].
  unfold task_list. rewrite groups_prefix, fmap_cons. fold (task_list (key_prefix p.1 m).2).
  pose proof (key_prefix_length p.1 m) as Hl. simpl in Hn.
  pose proof (chan_sorted_rest _ _ _ Hs Ht) as Hrest.
  pose proof (key_prefix_app p.1 m) as Happ. pose proof (key_prefix_keys p.1 m) as Hk.
  destruct (key_prefix p.1 m) as [g r]. cbn [fst snd] in *. subst m.
  apply Forall_cons in Ht as [Hpt Ht], Ha as [Hpa Ha].
  apply Forall_app in Ht as [_ Ht], Ha as [Hga Hra].
  assert (chan_sorted r) as Hsr by (apply (chan_sorted_suffix (p :: g)); done).
  split; [|by apply IH; [lia|..]]. destruct (decide (p.1.2 = ch)) as [Hc|Hc].
  - right. assert (to_send ch (task_list r) = []) as Hno.
    { rewrite (groups_messages (length r)) by done. apply messages_other; [done|].
      eapply Forall_impl; [exact Hrest|]. simpl. lia. }
    clear -Hno. induction (task_list r) as [|f ts IH]; [done|]. rewrite to_send_cons in Hno.
    apply app_eq_nil in Hno as [? ?]. by constructor; auto.
  - left. cbn [concat]. rewrite for_chan_app, concat_snd_fmap.
    rewrite (for_chan_other _ _ p.1.2) by done. apply messages_other; [done|].
    eapply Forall_impl; [exact Hk|]. intros x ->. done.
Qed.

Lemma launched_tasks inline m ch : to_send ch (tasks_of (launched inline m)) = messages ch m.
Proof.
  rewrite <-(groups_messages (length m)) by done. unfold launched.
  destruct m as [|p [|p' m]]; try done. destruct inline; [|done].
  unfold to_send, task_list. simpl. by rewrite !app_nil_r.
Qed.

Lemma launched_sole (t : T) inline m ch :
  chan_sorted m → Forall (λ x, x.1.1 = t) m → Forall addressed m →
  sole ch (tasks_of (launched inline m)).
Proof.
  intros Hs Ht Ha. pose proof (groups_sole t (length m) m ch (le_n _) Hs Ht Ha) as Hg.
  unfold launched. destruct m as [|p [|p' m]]; try done. destruct inline; [|done].
  split; [by right|done].
Qed.

(** ** The queue after the collecting phase *)
Lemma reinsert_elem p l x :
  x ∈ reinsert p l → x ∈ l ∨ ∃ a d t', next p.2 = Some (a, d) ∧ checked_add p.1.1 d = Some t'
                                ∧ x = ((t', p.1.2), a).
Proof.
  unfold reinsert. destruct (next p.2) as [[a d]|]; [|by left].
  destruct (checked_add p.1.1 d) as [t'|] eqn:E; [|by left].
  intros [->|?]%spq_insert_elem; [|by left]. right. by exists a, d, t'.
Qed.

Lemma next_same (a a' : Action Arg) d : next a = Some (a', d) → a' = a.
Proof. destruct a; naive_solver. Qed.

(** Re-inserted actions are the same actions, at a later time. *)
Lemma reinsert_all_ok (t : T) fl m l :
  Forall (λ x, x.1.1 = t ∧ period_ok x.2 ∧ key_ok fl x.2) m → Forall (entry_ok t fl) l →
  Forall (entry_ok t fl) (reinsert_all m l).
Proof.
  revert l. induction m as [|p m IH]; intros l Hm Hl; [done|]. apply Forall_cons in Hm as [(Hp & Hpp & Hk) Hm].
  cbn [reinsert_all foldl]. apply IH; [done|]. apply Forall_forall.
  intros x [Hx|(a & d & t' & Hn & Ha & ->)]%reinsert_elem.
  - rewrite Forall_forall in Hl. by apply Hl.
  - pose proof (next_same _ _ _ Hn) as ->. unfold period_ok in Hpp. rewrite Hn in Hpp.
    apply checked_add_Some in Ha; [|lia]. split_and!; cbn [fst snd]; [rewrite <-Hp; lia| |done].
    unfold period_ok. by rewrite Hn.
Qed.

Lemma after_step_ok fl bound t now l :
  Forall (entry_ok now fl) l → Forall (entry_ok t fl) (after_step fl bound t l).
Proof.
  intros Hl. unfold after_step. apply drop_cancelled_Forall, reinsert_all_ok.
  - apply Forall_forall. intros x [_ [Ht Hx]%list_elem_of_filter]%list_elem_of_filter.
    rewrite Forall_forall in Hl. destruct (Hl x Hx) as (_ & ? & ?). done.
  - apply Forall_forall. intros x [Ht Hx]%list_elem_of_filter.
    rewrite Forall_forall in Hl. by destruct (Hl x Hx) as (_ & ? & ?).
Qed.

(** ** The next time *)
Lemma drop_cancelled_sub fl bound l p : p ∈ drop_cancelled fl bound l → p ∈ l.
Proof.
  induction l as [|x l IH]; simpl; [done|]. destruct (_ && _); [|done]. intros. right. auto.
Qed.

Lemma next_time_Some fl bound now l t :
  StronglySorted key_le l → Forall (entry_ok now fl) l → next_time fl bound l = Some t →
  nanos now < nanos t ≤ nanos bound
  ∧ (∃ p, p ∈ l ∧ p.1.1 = t ∧ is_cancelled fl p.2 = false)
  ∧ ∀ p, p ∈ l → is_cancelled fl p.2 = false → nanos t ≤ nanos p.1.1.
Proof.
  intros Hs Hf. unfold next_time. destruct (drop_cancelled fl bound l) as [|p l'] eqn:Hd; [done|].
  cbn [head_key]. destruct (time_le p.1.1 bound) eqn:Hb; [|done]. intros [= <-].
  destruct (drop_cancelled_split _ _ _ _ _ Hs Hd) as (ld & -> & Hc & _).
  assert (p ∈ ld ++ p :: l') as Hin by set_solver.
  assert (is_cancelled fl p.2 = false) as Hlive.
  { clear -Hd Hb. induction (ld ++ p :: l') as [|x l IH]; [done|]. cbn [drop_cancelled] in Hd.
    destruct (time_le x.1.1 bound && is_cancelled fl x.2) eqn:E; [by apply IH|]. simplify_eq.
    by rewrite Hb in E. }
  rewrite Forall_forall in Hf. destruct (Hf p Hin) as (Hnow & _).
  apply time_le_spec in Hb. split_and!; [done|done|by exists p|].
  intros x [Hx|[->|Hx]%elem_of_cons]%elem_of_app Hxl; [|done|].
  - rewrite Forall_forall in Hc. rewrite Hc in Hxl by done. done.
  - apply StronglySorted_app_inv in Hs as (_ & Hs & _).
    pose proof (sorted_times _ Hs p _ eq_refl) as Ht. rewrite Forall_forall in Ht. by apply Ht.
Qed.

Lemma next_time_None fl bound l :
  StronglySorted key_le l → next_time fl bound l = None →
  Forall (λ p, nanos bound < nanos p.1.1) (drop_cancelled fl bound l).
Proof.
  intros Hs. unfold next_time. destruct (drop_cancelled fl bound l) as [|p l'] eqn:Hd; [done|].
  cbn [head_key]. destruct (time_le p.1.1 bound) eqn:Hb; [done|]. intros _.
  destruct (drop_cancelled_split _ _ _ _ _ Hs Hd) as (ld & -> & _).
  apply StronglySorted_app_inv in Hs as (_ & Hs & _).
  assert (nanos bound < nanos p.1.1) as Hlt.
  { apply Z.nle_gt. intros Hle%time_le_spec. congruence. }
  constructor; [done|]. eapply Forall_impl; [exact (sorted_times _ Hs p _ eq_refl)|]. simpl. lia.
Qed.

Lemma at_time_chan_sorted fl t l :
  StronglySorted key_le l → chan_sorted (live fl (at_time t l)).
Proof.
  intros Hs. assert (StronglySorted key_le (live fl (at_time t l))) as Hs'
    by (by apply sorted_filter, sorted_filter).
  assert (Forall (λ x, x.1.1 = t) (live fl (at_time t l))) as Ht.
  { apply Forall_forall. by intros x [_ [? _]%list_elem_of_filter]%list_elem_of_filter. }
  induction Hs' as [|p m Hm IH Hf]; [constructor|]. apply Forall_cons in Ht as [Hp Ht].
  constructor; [by apply IH|]. rewrite Forall_forall in Hf, Ht |- *. intros x Hx.
  specialize (Hf x Hx). specialize (Ht x Hx). unfold key_le in Hf. cbn in Hf. unfold lex_cmp in Hf.
  rewrite Hp, Ht in Hf. cbn in Hf. rewrite Z.compare_refl in Hf.
  destruct (Z.compare_spec p.1.2 x.1.2); [lia|lia|done].
Qed.

(** ** One step *)
Definition sys_ok s l : Prop := sched_wf (sched s) l ∧ quiescent s.

Definition launch_state (t : T) q ln s : Sys Arg M T Q :=
  set_tasks (set_sched s (mkScheduler q t (flags (sched s)))) (tasks s ++ tasks_of ln).

(** What a completed step at [t] has done. *)
Record stepped (bound t : T) s l s' l' : Prop := {
  stepped_ok : sys_ok s' l';
  stepped_time : time (sched s') = t;
  stepped_kept : ∀ p, p ∈ after_step (flags (sched s)) bound t l → p ∈ l';
  stepped_models ch : is_Some (models s !! ch) → is_Some (models s' !! ch);
  stepped_order ch :
    is_Some (models s !! ch) →
    Forall addressed (live (flags (sched s)) (at_time t l)) →
    delivered ch (trace s') = delivered ch (trace s) ++ messages ch (live (flags (sched s)) (at_time t l))
}.

(** A step panics only in the queue or in a scheduling call of model code. *)
Definition step_panics (t : T) s l : Prop :=
  let m := live (flags (sched s)) (at_time t l) in
  ¬ safe m (scheduler_queue (sched s)) ∨
  ∃ q s', rtc (estep handler) (launch_state t q (launched inline_lone_actions m) s) s' ∧ panics s'.

Lemma step_to_next_bounded_ok s l bound :
  sys_ok s l →
  match next_time (flags (sched s)) bound l with
  | None => ∃ s', step_to_next_bounded bound s = Ret (None, s')
      ∧ sys_ok s' (drop_cancelled (flags (sched s)) bound l)
      ∧ time (sched s') = time (sched s) ∧ flags (sched s') = flags (sched s) ∧ trace s' = trace s
  | Some t => (step_to_next_bounded bound s = Panic ∧ step_panics t s l) ∨
      ∃ s' l', step_to_next_bounded bound s = Ret (Some t, s') ∧ stepped bound t s l s' l'
  end.
Proof.
  intros [[Hp Hf] Hq]. pose proof (pq_sorted _ _ Hp) as Hs. unfold step_to_next_bounded.
  assert (Forall (λ p, period_ok p.2) l) as Hper by (eapply Forall_impl; [exact Hf|]; by intros x (_ & ? & _)).
  pose proof (collect_ok (flags (sched s)) bound inline_lone_actions (scheduler_queue (sched s)) l Hp Hper) as Hc.
  destruct (next_time (flags (sched s)) bound l) as [t|] eqn:Hnt.
  2: { destruct Hc as (q' & -> & Hq'). eexists. split; [done|]. split_and!; [|done..].
       split; [|done]. split; [done|]. by apply drop_cancelled_Forall. }
  cbv zeta in Hc. destruct Hc as [[-> Hns]|(q' & -> & Hq')]; [left; split; [done|by left]|].
  set (m := live (flags (sched s)) (at_time t l)) in *. ret_step.
  fold (launch_state t q' (launched inline_lone_actions m) s).
  assert (idle (launch_state t q' (launched inline_lone_actions m) s)) as Hidle by (by destruct Hq).
  pose proof (exec_run_ok _ Hidle) as Hrun. destruct (exec_run _) as [s2| |]; [|left|done].
  2: { split; [done|]. right. by exists q'. }
  right. destruct Hrun as [Hrun Hq2].
  assert (sched_wf (sched (launch_state t q' (launched inline_lone_actions m) s))
            (after_step (flags (sched s)) bound t l)) as Hwf.
  { split; [done|]. by eapply after_step_ok. }
  destruct (esteps_grows _ _ _ _ Hrun Hwf) as (l' & Hg). exists s2, l'. split; [done|].
  destruct Hg as [Hgt Hgw Hgm Hgf].
  split; [by split|done|done|intros ch; by apply (esteps_models _ _ _ ch Hrun)|].
  intros ch Hch Ha. rewrite (run_delivers _ _ _ ch Hrun) by
    (first [done | cbn [launch_state tasks set_tasks]; rewrite (proj2 Hq); cbn [app];
      apply (launched_sole t); [by apply at_time_chan_sorted| |done];
      apply Forall_forall; by intros x [_ [? _]%list_elem_of_filter]%list_elem_of_filter]).
  cbn [trace launch_state set_tasks set_sched tasks]. rewrite (proj2 Hq). cbn [app].
  by rewrite launched_tasks.
Qed.

(** ** Stepping up to a target *)

(** The steps taken: each to the earliest live action not after the target,
    the last one at the target or followed by a jump to it. *)
Inductive steps_to (target : T) : Sys Arg M T Q → list Entry → Sys Arg M T Q → list Entry → Prop :=
| Steps_none s l s' :
    next_time (flags (sched s)) target l = None → trace s' = trace s →
    flags (sched s') = flags (sched s) → time (sched s') = target →
    steps_to target s l s' (drop_cancelled (flags (sched s)) target l)
| Steps_last s l s' l' :
    next_time (flags (sched s)) target l = Some target → stepped target target s l s' l' →
    steps_to target s l s' l'
| Steps_more s l t s1 l1 s' l' :
    next_time (flags (sched s)) target l = Some t → t ≠ target → stepped target t s l s1 l1 →
    steps_to target s1 l1 s' l' → steps_to target s l s' l'.

(** Some of these steps, then one that panics. *)
Inductive steps_panic (target : T) : Sys Arg M T Q → list Entry → Prop :=
| Panics_now s l t :
    next_time (flags (sched s)) target l = Some t → step_panics t s l → steps_panic target s l
| Panics_later s l t s1 l1 :
    next_time (flags (sched s)) target l = Some t → stepped target t s l s1 l1 →
    steps_panic target s1 l1 → steps_panic target s l.

Lemma step_until_unchecked_ok fuel : ∀ s l target,
  sys_ok s l → nanos (time (sched s)) ≤ nanos target →
  (Z.to_nat (nanos target - nanos (time (sched s))) < fuel)%nat →
  (step_until_unchecked fuel target s = Panic ∧ steps_panic target s l) ∨
  ∃ s' l', step_until_unchecked fuel target s = Ret s' ∧ sys_ok s' l'
    ∧ time (sched s') = target ∧ steps_to target s l s' l'.
Proof.
  induction fuel as [|fuel IH]; intros s l target Hok Hle Hf; [lia|]. cbn [step_until_unchecked].
  pose proof (step_to_next_bounded_ok s l target Hok) as Hstep.
  pose proof Hok as [[Hp Hfl] _]. pose proof (pq_sorted _ _ Hp) as Hs.
  destruct (next_time (flags (sched s)) target l) as [t|] eqn:Hnt.
  - destruct Hstep as [[-> Hpan]|(s1 & l1 & -> & Hst)]; [left; split; [done|by eapply Panics_now]|].
    ret_step.
    destruct (next_time_Some _ _ _ _ _ Hs Hfl Hnt) as ([Hlt Hle'] & _).
    destruct (decide (t = target)) as [->|Hne].
    + rewrite bool_decide_true by done. right. exists s1, l1. destruct Hst.
      split_and!; [done..|by apply Steps_last].
    + rewrite bool_decide_false by done.
      assert (nanos t ≠ nanos target) by (intros E; by apply Hne, nanos_inj).
      pose proof (stepped_time _ _ _ _ _ _ Hst) as Ht1.
      destruct (IH s1 l1 target) as [[? ?]|(s' & l' & ? & ? & ? & ?)].
      * by destruct Hst.
      * rewrite Ht1. lia.
      * rewrite Ht1. lia.
      * left. split; [done|by eapply Panics_later].
      * right. exists s', l'. split_and!; [done..|by eapply Steps_more].
  - destruct Hstep as (s1 & -> & [[Hp1 Hf1] Hq1] & Ht1 & Hfl1 & Htr1). ret_step.
    right. eexists _, _. split; [done|].
    assert (time (sched (write_time s1 target)) = target) as Htime by done.
    split_and!; [|done|by apply Steps_none].
    split; [|done]. split; [done|]. cbn [sched write_time set_sched time flags].
    pose proof (next_time_None _ _ _ Hs Hnt) as Hlate.
    rewrite Forall_forall in Hf1, Hlate |- *. intros x Hx. destruct (Hf1 x Hx) as (_ & ? & ?).
    split_and!; [by apply Hlate|done|done].
Qed.

(** ** Scheduling order *)

(** The messages of [ch] are those of the live actions keyed by [ch], in the
    order in which these were scheduled. *)
Lemma messages_with_key fl t ch l :
  Forall addressed (live fl (at_time t l)) →
  messages ch (live fl (at_time t l)) =
    snd <$> concat (into_future <$> filter (λ a, is_cancelled fl a = false) (with_key (t, ch) l)).
Proof.
  induction l as [|p l IH]; intros Ha; [done|]. rewrite with_key_cons.
  unfold live, at_time in *. rewrite (filter_cons _ p l) in Ha |- *.
  destruct p as [[tp cp] a]. cbn [fst snd] in *.
  destruct (decide (tp = t)) as [->|Ht].
  2: { rewrite IH by done. assert (cmp (tp, cp) (t, ch) ≠ Eq) as Hne.
       { intros E%cmp_eq. by simplify_eq. }
       by destruct (cmp (tp, cp) (t, ch)). }
  rewrite filter_cons in Ha |- *. cbn [snd] in *. destruct (decide (is_cancelled fl a = false)) as [Hc|Hc].
  - apply Forall_cons in Ha as [Hp Ha]. rewrite messages_cons, IH by done. cbn [snd].
    destruct (decide (cp = ch)) as [->|Hch].
    + rewrite cmp_refl. cbn [app]. rewrite filter_cons, decide_True by done.
      rewrite fmap_cons. cbn [concat]. rewrite fmap_app. f_equal. unfold for_chan.
      rewrite filter_all; [done|]. exact Hp.
    + rewrite (for_chan_other _ _ cp) by done. cbn [app].
      assert (cmp (t, cp) (t, ch) ≠ Eq) as Hne by (intros E%cmp_eq; by simplify_eq).
      by destruct (cmp (t, cp) (t, ch)).
  - rewrite IH by done. destruct (cmp (t, cp) (t, ch)); [|done|done].
    cbn [app]. by rewrite filter_cons, decide_False.
Qed.

(** A live periodic action is in the queue again after its step. *)
Lemma drop_cancelled_keeps fl bound l p :
  p ∈ l → is_cancelled fl p.2 = false → p ∈ drop_cancelled fl bound l.
Proof.
  induction l as [|x l IH]; [by intros ?%elem_of_nil|]. intros Hp Hc. cbn [drop_cancelled].
  apply elem_of_cons in Hp as [<-|Hp].
  - rewrite Hc, andb_false_r. by left.
  - destruct (_ && _); [by apply IH|by right].
Qed.

Lemma reinsert_all_mono m l p : p ∈ l → p ∈ reinsert_all m l.
Proof.
  revert l. induction m as [|x m IH]; intros l Hp; [done|]. cbn [reinsert_all foldl]. apply IH.
  unfold reinsert. destruct (next x.2) as [[a d]|]; [|done]. destruct (checked_add _ _); [|done].
  apply spq_insert_elem. by right.
Qed.

Lemma reinsert_all_elem m l p a d t' :
  p ∈ m → next p.2 = Some (a, d) → checked_add p.1.1 d = Some t' →
  ((t', p.1.2), a) ∈ reinsert_all m l.
Proof.
  revert l. induction m as [|x m IH]; intros l Hp Hn Ht; [by apply elem_of_nil in Hp|].
  cbn [reinsert_all foldl]. apply elem_of_cons in Hp as [<-|Hp]; [|by apply IH].
  apply reinsert_all_mono. unfold reinsert. rewrite Hn, Ht. apply spq_insert_elem. by left.
Qed.

Lemma after_step_recurs fl bound t l p a d t' :
  p ∈ live fl (at_time t l) → next p.2 = Some (a, d) → checked_add p.1.1 d = Some t' →
  ((t', p.1.2), a) ∈ after_step fl bound t l.
Proof.
  intros Hp Hn Ht. apply drop_cancelled_keeps; [by eapply reinsert_all_elem|].
  cbn [snd]. pose proof (next_same _ _ _ Hn) as ->. by apply list_elem_of_filter in Hp as [? _].
Qed.
End stepping.
End Step.
