(* ===== verification/SeqExecutor.v ===== *)
(** * An executor that runs the tasks one after the other

    The contract of [Stepping.v] is met by running each message's method to its
    end before the next message is sent, when methods do not send through ports;
    this gives a concrete simulation that can be evaluated. *)

From S2P Require Import Prelude StablePq Scheduler Simulation Runtime Stepping.
Import Sched Sim Rt Step.

Module SeqExec.
Section seq.
Context {Arg M T Q : Type} `{TaiTime T} `{!StablePQ (T * Chan) (Action Arg) Q}.
Variable handler : Chan → M → Arg → prog Arg M T.
Implicit Types (s : Sys Arg M T Q) (p : prog Arg M T).

Fixpoint run_prog (ch : Chan) (p : prog Arg M T) s : outcome (Sys Arg M T Q) :=
  match p with
  | Done m => Ret (set_model s ch m)
  | Request r k =>
      '(x, res) ← run_request (to_request ch r) (sched s);
      run_prog ch (k res) (set_running (set_sched s x) (<[ch:=k res]> (running s)))
  | Cancel key p =>
      run_prog ch p (set_running (set_sched s (set_flags (sched s) (key_cancel (flags (sched s)) key)))
                       (<[ch:=p]> (running s)))
  | Now k => run_prog ch (k (time (sched s)))
               (set_running s (<[ch:=k (time (sched s))]> (running s)))
  | Send dst arg p => run_prog ch p (set_running (push s dst (Port, PlainMsg arg)) (<[ch:=p]> (running s)))
  end.

(** Deliver a message that was just sent, if there is a model to take it. *)
Definition deliver (ch : Chan) (msg : Msg Arg) s : outcome (Sys Arg M T Q) :=
  match models s !! ch with
  | None => Ret s
  | Some m =>
      let s1 := receive handler s ch m Scheduled msg [] in
      if msg_cancelled (flags (sched s)) msg then Ret s1
      else run_prog ch (handler ch m (msg_arg msg)) s1
  end.

Fixpoint run_fut (f : Fut Arg) (ts : list (Fut Arg)) s : outcome (Sys Arg M T Q) :=
  match f with
  | [] => Ret (set_tasks s ts)
  | (ch, msg) :: f =>
      s1 ← deliver ch msg (set_tasks (push s ch (Scheduled, msg)) (f :: ts));
      run_fut f ts s1
  end.

Fixpoint run_all (ts : list (Fut Arg)) s : outcome (Sys Arg M T Q) :=
  match ts with
  | [] => Ret s
  | f :: ts => s1 ← run_fut f ts s; run_all ts s1
  end.

Definition seq_run s : outcome (Sys Arg M T Q) := run_all (tasks s) s.

(** ** It follows the step relation *)
Fixpoint send_free (p : prog Arg M T) : Prop :=
  match p with
  | Done _ => True
  | Request _ k => ∀ r, send_free (k r)
  | Cancel _ p => send_free p
  | Now k => ∀ t, send_free (k t)
  | Send _ _ _ => False
  end.

Hypothesis handler_send_free : ∀ ch m arg, send_free (handler ch m arg).
Hypothesis run_request_fuel : ∀ r (x : Scheduler T Q), run_request r x ≠ OutOfFuel.

(** The outcome of a part of the run, with what it leaves unchanged. *)
Definition ran (s : Sys Arg M T Q) (r : outcome (Sys Arg M T Q)) (P : Sys Arg M T Q → Prop) : Prop :=
  match r with
  | Ret s' => rtc (estep handler) s s' ∧ P s'
  | Panic => ∃ s', rtc (estep handler) s s' ∧ panics s'
  | OutOfFuel => False
  end.

Lemma ran_step s1 s2 r P : rtc (estep handler) s1 s2 → ran s2 r P → ran s1 r P.
Proof.
  intros Hst. destruct r; simpl; [|intros (s' & ? & ?); exists s'; split; [|done]|done].
  - intros [? ?]. split; [by etrans|done].
  - by etrans.
Qed.

Lemma ran_bind s r f P P' : ran s r P → (∀ s', P s' → ran s' (f s') P') → ran s (r ≫= f) P'.
Proof.
  destruct r as [s1| |]; simpl; [|done|done]. intros [Hst HP] Hf. eapply ran_step; [done|]. by apply Hf.
Qed.

Lemma run_prog_ran ch p : ∀ s,
  send_free p → running s !! ch = Some p →
  ran s (run_prog ch p s) (λ s', running s' = delete ch (running s) ∧ mailbox s' = mailbox s
     ∧ tasks s' = tasks s ∧ ∀ c, is_Some (models s' !! c) → is_Some (models s !! c) ∨ c = ch).
Proof.
  induction p as [m|r k IH|key p IH|k IH|dst arg p IH]; intros s Hsf Hr; cbn [run_prog send_free] in *; [..|done].
  - split; [by apply rtc_once; constructor|]. simpl. split_and!; [done..|]. intros c.
    destruct (decide (c = ch)) as [->|]; [by right|]. rewrite lookup_insert_ne by done. by left.
  - destruct (run_request (to_request ch r) (sched s)) as [[x res]| |] eqn:Hreq;
      ret_step; [|exists s; split; [done|by exists ch, r, k]|by eapply run_request_fuel].
    eapply ran_step; [apply rtc_once; by econstructor|].
    pose proof (IH res (set_running (set_sched s x) (<[ch:=k res]> (running s))) (Hsf res)) as Hih.
    cbn [running set_running mailbox tasks models set_sched] in Hih.
    rewrite delete_insert_eq in Hih. apply Hih. by rewrite lookup_insert_eq.
  - eapply ran_step; [apply rtc_once; by econstructor|].
    match goal with |- ran ?x _ _ => pose proof (IH x Hsf) as Hih end.
    cbn [running set_running mailbox tasks models set_sched] in Hih.
    rewrite delete_insert_eq in Hih. apply Hih. by rewrite lookup_insert_eq.
  - eapply ran_step; [apply rtc_once; by econstructor|].
    match goal with |- ran ?x _ _ => pose proof (IH (time (sched s)) x (Hsf _)) as Hih end.
    cbn [running set_running mailbox tasks models set_sched] in Hih.
    rewrite delete_insert_eq in Hih. apply Hih. by rewrite lookup_insert_eq.
Qed.

Lemma deliver_ran ch msg s :
  running s = ∅ → (is_Some (models s !! ch) → box s ch = [(Scheduled, msg)]) →
  (∀ c, c ≠ ch → is_Some (models s !! c) → box s c = []) →
  ran s (deliver ch msg s) (λ s', idle s' ∧ tasks s' = tasks s).
Proof.
  intros Hr Hb Ho. unfold deliver. destruct (models s !! ch) as [m|] eqn:Hm.
  2: { split; [done|]. split; [|done]. split; [|done]. intros c Hc.
       apply Ho; [|done]. intros ->. rewrite Hm in Hc. by destruct Hc. }
  assert (estep handler s (receive handler s ch m Scheduled msg [])) as Hst.
  { apply E_receive; [by rewrite Hr, lookup_empty|done|by apply Hb]. }
  eapply ran_step; [by apply rtc_once|].
  assert (∀ c, is_Some (models s !! c) → box (receive handler s ch m Scheduled msg []) c = []) as Hbox.
  { intros c Hc. unfold receive, box. cbn [mailbox]. destruct (decide (ch = c)) as [->|E].
    - by rewrite lookup_insert_eq.
    - rewrite lookup_insert_ne by done. by apply Ho. }
  destruct (msg_cancelled (flags (sched s)) msg) eqn:Hc.
  { split; [done|]. split; [|done]. split; [done|]. unfold receive. by rewrite Hc. }
  assert (running (receive handler s ch m Scheduled msg []) = {[ch := handler ch m (msg_arg msg)]}) as Hrun.
  { unfold receive. rewrite Hc. cbn [negb running]. by rewrite Hr. }
  pose proof (run_prog_ran ch (handler ch m (msg_arg msg)) (receive handler s ch m Scheduled msg [])
    (handler_send_free _ _ _)) as Hp.
  rewrite Hrun, delete_singleton_eq in Hp. specialize (Hp (lookup_singleton_eq _ _)).
  destruct (run_prog _ _ _) as [s'| |]; [|done|done]. destruct Hp as (Hs' & Hr' & Hmb & Ht & Hmod).
  split; [done|]. split; [|done]. split; [|done]. intros c Hc'. unfold box. rewrite Hmb.
  apply Hbox. destruct (Hmod c Hc') as [?| ->]; [done|by rewrite Hm].
Qed.

Lemma run_fut_ran f ts : ∀ s, idle s → tasks s = f :: ts →
  ran s (run_fut f ts s) (λ s', idle s' ∧ tasks s' = ts).
Proof.
  induction f as [|[ch msg] f IH]; intros s Hi Ht; cbn [run_fut].
  { split; [|by split]. apply rtc_once. by apply (E_finish _ _ [] ts). }
  eapply ran_step; [apply rtc_once; by apply (E_send _ _ [] ts)|]. cbn [app].
  destruct Hi as [Hb Hr]. eapply ran_bind.
  - apply deliver_ran; [done| |].
    + intros Hm. change (box (set_tasks ?x _) ch) with (box x ch). rewrite box_push, decide_True by done.
      by rewrite Hb.
    + intros c Hc Hm. change (box (set_tasks ?x _) c) with (box x c). rewrite box_push, decide_False by done.
      by rewrite Hb.
  - intros s' [Hi' Ht']. by apply IH.
Qed.

Lemma seq_run_ran s : idle s → ran s (seq_run s) quiescent.
Proof.
  unfold seq_run. remember (tasks s) as ts eqn:Hts. revert s Hts.
  induction ts as [|f ts IH]; intros s Hts Hi; cbn [run_all].
  { by repeat split; try apply Hi. }
  eapply ran_bind; [by apply run_fut_ran|]. intros s' [Hi' Ht']. by apply IH.
Qed.

Definition seq_executor : Executor handler := {| exec_run := seq_run; exec_run_ok := seq_run_ran |}.
End seq.
End SeqExec.

(** ** A concrete clock: the range of [tai_time] timestamps, in nanoseconds *)
Definition MONO_MIN : Z := - 2 ^ 63 * 10 ^ 9.
Definition MONO_MAX : Z := 2 ^ 63 * 10 ^ 9 - 1.
Definition in_range (z : Z) : bool := (MONO_MIN <=? z) && (z <=? MONO_MAX).
Record mono := mkMono { mono_ns : Z; mono_ok : in_range mono_ns = true }.

Definition mono_checked (z : Z) : option mono :=
  match in_range z as b return in_range z = b → option mono with
  | true => λ Hz, Some (mkMono z Hz)
  | false => λ _, None
  end eq_refl.
Definition mono_max : mono := mkMono MONO_MAX eq_refl.
Definition mono_of (z : Z) : mono := default mono_max (mono_checked z).

Lemma mono_range (t : mono) : MONO_MIN ≤ mono_ns t ≤ MONO_MAX.
Proof. destruct t as [z Hz]. cbn [mono_ns]. unfold in_range in Hz. lia. Qed.

Lemma mono_checked_spec z :
  match mono_checked z with Some t => mono_ns t = z | None => in_range z = false end.
Proof.
  unfold mono_checked. generalize (eq_refl (in_range z)). generalize (in_range z) at 2 3.
  by intros [|] E.
Qed.

#[export] Instance TaiTime_mono : TaiTime mono.
Proof.
  refine {|
    nanos t := mono_ns t;
    TIME_MAX := mono_max;
    checked_add t d := mono_checked (mono_ns t + d)
  |}.
  - intros [a Ha] [b Hb]. cbn [mono_ns]. intros ->. f_equal. apply (proof_irrel Ha).
  - intros t. pose proof (mono_range t). change (mono_ns mono_max) with MONO_MAX. lia.
  - intros t d t' Hd. pose proof (mono_checked_spec (mono_ns t + d)) as Hs.
    destruct (mono_checked _); [|done]. by intros [= <-].
  - intros t d Hd. pose proof (mono_checked_spec (mono_ns t + d)) as Hs.
    destruct (mono_checked _); [done|]. intros _. pose proof (mono_range t).
    change (mono_ns mono_max) with MONO_MAX. unfold in_range in Hs.
    apply andb_false_iff in Hs. rewrite !Z.leb_gt in Hs.
    destruct t as [z Hz]. cbn [mono_ns] in *. lia.
Defined.
