(* ===== verification/Engine.v ===== *)
(** * The properties of the simulation engine

    What [scheduler.rs] and [simulation.rs] promise, as theorems over any queue
    that meets the contract of [StablePq.v] and any executor that meets that of
    [Stepping.v], with a small concrete simulation on which they are evaluated. *)

From S2P Require Import Prelude StablePq PriorityQueue Scheduler Simulation Runtime Stepping SeqExecutor.
Import Sched Sim Rt Step SeqExec.

Section properties.
Context {Arg M T Q : Type} `{TaiTime T} `{!StablePQ (T * Chan) (Action Arg) Q}.

(** ** Scheduling *)

(** C24: a request whose deadline is in the future and whose period is not null
    is accepted as long as the queue has epochs left; the pending actions of its
    time and channel are then the former ones followed by the new one, and those
    of every other time and channel are unchanged, so that events for one model
    at one time stay in their scheduling order. *)
Theorem schedule_fifo (r : request Arg T) (s : Scheduler T Q) l t :
  sched_wf s l → request_ok s r → into_time (req_deadline r) (time s) = Ret t →
  nanos (time s) < nanos t → req_null_period r = false → 0 < room s (Arg := Arg) →
  ∃ s' ko l', run_request r s = Ret (s', Ok ko) ∧ sched_wf s' l' ∧ time s' = time s ∧
    ∀ k, with_key k l' = with_key k l ++
      (if cmp (t, req_chan r) k is Eq then [req_action r (length (flags s))] else []).
Proof.
  intros Hwf Hok Ht Hlt Hn Hroom. pose proof (run_request_spec r s l t (proj1 Hwf) Ht) as Hs.
  rewrite (proj2 (time_le_false _ _) Hlt), Hn, (proj2 (Z.leb_gt _ _) Hroom) in Hs. destruct Hs as (s' & Hrun & _).
  destruct (run_request_wf _ _ _ _ _ Hwf Hok Hrun) as [Htime (t2 & Ht2 & _ & Hwf' & _)].
  rewrite Ht in Ht2. simplify_eq. eexists s', _, _. split_and!; [done|done|done|].
  intros k. apply spq_insert_with_key. by eapply pq_sorted, Hwf.
Qed.

(** a request whose deadline is not in the future is rejected with
    [InvalidScheduledTime], whatever its period, and one with a null period
    with [NullRepetitionPeriod]; a rejected request changes nothing. *)
Theorem schedule_rejects (r : request Arg T) (s : Scheduler T Q) l t :
  pending s l → into_time (req_deadline r) (time s) = Ret t →
  nanos t ≤ nanos (time s) ∨ req_null_period r = true →
  run_request r s =
    Ret (s, Err (if time_le t (time s) then InvalidScheduledTime else NullRepetitionPeriod)).
Proof.
  intros Hp Ht Hr. pose proof (run_request_spec r s l t Hp Ht) as Hs.
  destruct (time_le t (time s)) eqn:Hle; [done|]. destruct Hr as [Hr|Hr]; [|by rewrite Hr in Hs].
  apply time_le_spec in Hr. congruence.
Qed.

(** C25: cancelling the key of an action that was just scheduled undoes the
    scheduling: the actions that can still run are those that could before it.
    In particular no other action is affected by the new key or its flag. *)
Theorem cancel_undoes_schedule (r : request Arg T) (s s' : Scheduler T Q) l key :
  sched_wf s l → request_ok s r → run_request r s = Ret (s', Ok (Some key)) →
  ∃ l', sched_wf s' l' ∧ Sim.live (flags s') l' ≠ Sim.live (flags s) l
    ∧ Sim.live (key_cancel (flags s') key) l' = Sim.live (flags s) l.
Proof.
  intros Hwf Hok Hrun. destruct (run_request_wf _ _ _ _ _ Hwf Hok Hrun) as [_ (t & Ht & Hlt & Hwf' & Hfl & Hk)].
  eexists. split; [exact Hwf'|]. destruct (req_keyed r) eqn:Hkey; [|done]. simplify_eq. rewrite Hfl.
  assert (∀ a : Action Arg, key_ok (flags s) a →
    is_cancelled (key_cancel (flags s ++ [false]) (length (flags s))) a = is_cancelled (flags s) a) as Hother.
  { intros a Ha. rewrite <-(is_cancelled_grow _ [false] a Ha). unfold key_ok in Ha.
    destruct a; cbn [is_cancelled action_key] in *; try done; apply key_cancel_other; lia. }
  assert (∀ fl, is_cancelled fl (req_action r (length (flags s))) = key_is_cancelled fl (length (flags s)))
    as Hc by (by destruct r).
  destruct Hwf as [_ Hf].
  assert (Forall (λ p, key_ok (flags s) p.2) l) as Hko
    by (eapply Forall_impl; [exact Hf|]; by intros ? (_ & _ & ?)).
  split.
  - intros Heq. apply (f_equal length) in Heq. rewrite live_insert_length in Heq.
    + rewrite (live_ext _ (flags s)) in Heq; [lia|]. eapply Forall_impl; [exact Hko|].
      intros p Hp. by apply is_cancelled_grow.
    + rewrite Hc. unfold key_is_cancelled. by rewrite lookup_app_r, Nat.sub_diag by lia.
  - rewrite live_insert_cancelled.
    + apply live_ext. eapply Forall_impl; [exact Hko|]. intros p Hp. by apply Hother.
    + rewrite Hc. apply key_cancel_same. rewrite length_app. simpl. lia.
Qed.

Lemma checked_add_0 (t : T) : checked_add t 0 = Some t.
Proof.
  destruct (checked_add t 0) as [t'|] eqn:E.
  - apply checked_add_Some in E; [|lia]. f_equal. apply nanos_inj. lia.
  - apply checked_add_None in E; [|lia]. pose proof (nanos_MAX t). lia.
Qed.

(** [Scheduler::schedule] accepts a periodic action with a null period (only
    the event methods check it), and the event loop then goes on pulling and
    re-inserting it: however many iterations are allowed, up to the number of
    epochs left in the queue, it has not finished. *)
Theorem null_period_never_ends (s : Scheduler T Q) d t gen :
  pending s [] (Arg := Arg) → into_time d (time s) = Ret t → nanos (time s) < nanos t →
  0 < room s (Arg := Arg) →
  ∃ s', schedule d (PeriodicAction gen 0) s = Ret (s', Ok tt)
    ∧ ∀ n pfuel inline, Z.of_nat n ≤ room s' (Arg := Arg) → (1 < pfuel)%nat →
        step_loop n pfuel (flags s') TIME_MAX inline true (t, 0) (scheduler_queue s') [] = OutOfFuel.
Proof.
  intros Hp Ht Hlt Hroom. unfold schedule. rewrite Ht. ret_step.
  rewrite (proj2 (time_le_false _ _) Hlt). unfold sq_insert.
  destruct (pq_insert_repr _ _ (t, 0) (PeriodicAction gen 0) Hp) as (q & Hi & Hq & Hr); [done|].
  rewrite Hi. ret_step. eexists. split; [done|]. intros n pfuel inline Hn Hpf.
  cbn [scheduler_queue set_queue flags room] in *. pose proof (checked_add_0 t) as H0.
  assert (time_le t TIME_MAX = true) as Hb by apply time_le_spec, nanos_MAX.
  destruct n as [|n]; [done|]. cbn [step_loop].
  destruct (pull_next_action_ok _ _ _ Hq) as [[_ Hns]|(q1 & -> & Hq1 & Hr1)].
  { destruct Hns. split; [by repeat constructor; cbn; rewrite H0|]. simpl. unfold qroom, room in *. simpl in *. lia. }
  unfold reinsert in Hq1. cbn [next snd fst] in Hq1. rewrite H0 in Hq1. ret_step.
  destruct (peek_next_key_ok (flags s) TIME_MAX pfuel q1 _ Hq1) as (q2 & -> & Hq2 & Hr2); [simpl; lia|].
  ret_step. cbn [spq_insert drop_cancelled is_cancelled snd] in *.
  rewrite andb_false_r in *. cbn [head_key fst]. rewrite Hb. cbn [fst].
  assert (time_lt t t = false) as -> by (apply not_true_is_false; rewrite time_lt_spec; lia).
  cbn [andb]. rewrite bool_decide_false by (intros Hx; by apply Hx). destruct pfuel as [|pfuel]; [lia|].
  rewrite (seq_loop_null_period _ _ _ _ gen); [done..|lia|]. unfold qroom, room in *. simpl in *. lia.
Qed.

(** ** Advancing time *)
Variable handler : Chan → M → Arg → prog Arg M T.
Context `{!Executor (Q := Q) handler}.
Variable inline : bool.


(** [step_until] a time that is not in the future is an error and has no
    effect. *)
Theorem step_until_past fuel (s : Sys Arg M T Q) target :
  nanos target ≤ nanos (time (sched s)) →
  step_until handler inline fuel target s = Ret (s, Err InvalidScheduledTime).
Proof. intros Hle. unfold step_until. by rewrite (proj2 (time_le_spec _ _) Hle). Qed.

(** C2: For an executor of class [Executor], when some action is live and all live actions of the
    earliest such time send to the mailbox that they are queued under only (as those of the event methods do; actions
    made by an [EventSource] and scheduled through the [Scheduler] are excluded), [step] either panics, in the queue or in a scheduling call of model
    code as [step_panics] says, or moves the time to that of the earliest action that was not
    cancelled; each model then receives, after what it had received before, the
    messages of its own live actions of that time, in the order in which they
    were scheduled, and nothing else that was scheduled. *)
Theorem step_in_scheduling_order s l t :
  sys_ok (M := M) s l → next_time (flags (sched s)) TIME_MAX l = Some t →
  Forall addressed (live (flags (sched s)) (at_time t l)) →
  (∀ p, p ∈ l → is_cancelled (flags (sched s)) p.2 = false → nanos t ≤ nanos p.1.1) ∧
  ((step handler inline s = Panic ∧ step_panics handler inline t s l) ∨
   ∃ s' l', step handler inline s = Ret s' ∧ sys_ok s' l' ∧ time (sched s') = t ∧
     ∀ ch, is_Some (models s !! ch) →
       delivered ch (trace s') = delivered ch (trace s) ++
         (snd <$> concat (into_future <$>
            filter (λ a, is_cancelled (flags (sched s)) a = false) (with_key (t, ch) l)))).
Proof.
  intros Hok Hnt Ha. pose proof Hok as [[Hp Hf] _].
  destruct (next_time_Some _ _ _ _ _ (pq_sorted _ _ Hp) Hf Hnt) as (_ & _ & Hmin). split; [done|].
  pose proof (step_to_next_bounded_ok handler inline s l TIME_MAX Hok) as Hs. rewrite Hnt in Hs.
  unfold step. destruct Hs as [[-> ?]|(s' & l' & -> & [Hok' Ht _ _ Hord])]; [by left|right].
  exists s', l'. split_and!; [done..|]. intros ch Hch. by rewrite Hord, messages_with_key.
Qed.

(** when every pending action is cancelled, [step] changes neither the time
    nor any model; the cancelled actions are gone from the queue. *)
Theorem step_nothing_live s l :
  sys_ok (M := M) s l → Forall (λ p, is_cancelled (flags (sched s)) p.2 = true) l →
  ∃ s', step handler inline s = Ret s' ∧ sys_ok s' [] ∧ time (sched s') = time (sched s)
    ∧ models s' = models s ∧ trace s' = trace s.
Proof.
  intros Hok Hc. pose proof Hok as [[Hp Hf] _].
  assert (drop_cancelled (flags (sched s)) TIME_MAX l = []) as Hd.
  { clear -Hc. induction Hc as [|p l Hpc _ IH]; [done|]. cbn [drop_cancelled]. rewrite Hpc.
    by rewrite (proj2 (time_le_spec _ _) (nanos_MAX p.1.1)). }
  pose proof (collect_ok (flags (sched s)) TIME_MAX inline (scheduler_queue (sched s)) l Hp) as Hcol.
  unfold next_time in Hcol. rewrite Hd in Hcol.
  destruct Hcol as (q' & Hcol & Hq').
  { eapply Forall_impl; [exact Hf|]. by intros ? (_ & ? & _). }
  unfold step, step_to_next_bounded. rewrite Hcol. eexists. split; [done|].
  split_and!; [|done..]. split; [|by destruct Hok]. by split.
Qed.

(** a live periodic action is scheduled again, one period later and on the
    same channel, by the step that runs it, and is still pending after it. *)
Theorem periodic_action_recurs s l t s' p a period t' :
  sys_ok (M := M) s l → next_time (flags (sched s)) TIME_MAX l = Some t →
  p ∈ live (flags (sched s)) (at_time t l) → next p.2 = Some (a, period) →
  checked_add t period = Some t' → step handler inline s = Ret s' →
  ∃ l', sys_ok s' l' ∧ ((t', p.1.2), a) ∈ l' ∧ a = p.2 ∧ nanos t' = nanos (time (sched s')) + period.
Proof.
  intros Hok Hnt Hp Hn Hadd Hstep.
  pose proof (step_to_next_bounded_ok handler inline s l TIME_MAX Hok) as Hs. rewrite Hnt in Hs.
  unfold step in Hstep. destruct Hs as [[Hx _]|(s2 & l2 & Hx & [Hok' Ht Hkept _ _])];
    rewrite Hx in Hstep; [done|]. cbn in Hstep. simplify_eq.
  pose proof Hp as [_ [Hpt Hpl]%list_elem_of_filter]%list_elem_of_filter.
  exists l2. split_and!; [done| |by eapply next_same|].
  - apply Hkept. eapply after_step_recurs; [done|done|]. by rewrite Hpt.
  - destruct Hok as [[_ Hf] _]. rewrite Forall_forall in Hf. destruct (Hf _ Hpl) as (_ & Hper & _).
    unfold period_ok in Hper. rewrite Hn in Hper. apply checked_add_Some in Hadd; lia.
Qed.

(** [process] runs an action at once: the time does not move, no pending
    action is lost, and each model receives the messages of the action. *)
Theorem process_runs_now s l action s' :
  sys_ok (M := M) s l → process handler action s = Ret s' →
  time (sched s') = time (sched s) ∧ (∃ l', sys_ok s' l' ∧ ∀ p, p ∈ l → p ∈ l')
  ∧ ∀ ch, is_Some (models s !! ch) →
      delivered ch (trace s') = delivered ch (trace s) ++ for_chan ch (into_future action).
Proof.
  intros [Hwf Hq] Hrun. unfold process in Hrun. rewrite (proj2 Hq) in Hrun. cbn [app] in Hrun.
  assert (idle (set_tasks s [into_future action])) as Hi by (by destruct Hq).
  pose proof (exec_run_ok _ _ Hi) as He. rewrite Hrun in He. destruct He as [Hst Hq'].
  destruct (esteps_grows _ _ _ l Hst Hwf) as (l' & [Ht Hwf' Hmono _]).
  split_and!; [done|by exists l'|]. intros ch Hch. rewrite (run_delivers _ _ _ ch Hst); [|done|done| |done].
  - cbn [trace set_tasks tasks]. unfold to_send. simpl. by rewrite app_nil_r.
  - cbn [tasks set_tasks sole]. split; [by right|done].
Qed.
End properties.

(** ** A concrete simulation

    Two models that count the messages they receive; a message [d > 0] makes its
    model schedule a message [0] for itself [d] nanoseconds later. *)
Module Demo.
Definition demo_handler (ch : Chan) (m arg : Z) : prog Z Z mono :=
  if arg =? 0 then Done (m + 1)
  else Request (LEvent (Duration arg) 0) (λ _, Done (m + 1)).

Definition Queue := PQ.PriorityQueue (mono * Chan) (Action Z).

Lemma demo_send_free ch m arg : send_free (demo_handler ch m arg).
Proof. unfold demo_handler. by destruct (arg =? 0). Qed.

Lemma pq_request_fuel (r : request Z mono) (x : Scheduler mono Queue) : run_request r x ≠ OutOfFuel.
Proof.
  assert (∀ (d : Deadline mono) now, into_time d now ≠ OutOfFuel) as Hd.
  { intros [d|t] now; [|done]. simpl. unfold time_add. by destruct (checked_add now d). }
  assert (∀ k a (q : Queue), sq_insert k a q ≠ OutOfFuel) as Hi.
  { intros k a q. cbn. unfold PQ.insert. by destruct (decide _). }
  destruct r; simpl; unfold schedule, schedule_event, schedule_keyed_event, schedule_periodic_event,
    schedule_keyed_periodic_event, key_new;
    (destruct (into_time deadline (time x)) as [t| |] eqn:E; [|done|by apply Hd in E]); ret_step;
    (destruct (time_le t (time x)); [done|]); try (destruct (period =? 0); [done|]); ret_step;
    (match goal with |- context [sq_insert ?k ?a ?q] =>
       destruct (sq_insert k a q) as [q'| |] eqn:E2; [done|done|by apply Hi in E2] end).
Qed.

#[export] Instance demo_executor : Executor (Q := Queue) demo_handler :=
  seq_executor demo_handler demo_send_free pq_request_fuel.

(** Time 0; one message on channel 1 at time 5 which makes it schedule another
    for time 8, a second one on channel 1 and a cancelled one on channel 2, and
    a periodic message on channel 2. *)
Definition t_ (z : Z) : mono := mono_of z.
Definition demo_entries : list ((mono * Chan) * Action Z) :=
  [((t_ 5, 1), OnceAction (process_event 3 1));
   ((t_ 5, 1), OnceAction (process_event 0 1));
   ((t_ 5, 2), KeyedOnceAction (λ k, send_keyed_event k 0 2) 0%nat);
   ((t_ 5, 2), PeriodicAction (process_event 0 2) 4)].
Definition demo_queue : Queue :=
  PQ.mkPQ (imap (λ i p, PQ.mkItem p.1 p.2 (Z.of_nat i)) demo_entries) 4.
Definition demo_sched : Scheduler mono Queue := mkScheduler demo_queue (t_ 0) [true].
Definition demo_sys : Sys Z Z mono Queue :=
  mkSys demo_sched {[1 := 0; 2 := 0]} ∅ ∅ [] [].

Lemma demo_wf : sched_wf demo_sched demo_entries.
Proof.
  split.
  - exists (PQ.heap demo_queue). split_and!; [done| |done| |done].
    + repeat constructor; by first [left; vm_compute|right].
    + by repeat constructor.
  - by repeat constructor.
Qed.
Lemma demo_ok : sys_ok demo_sys demo_entries.
Proof. split; [exact demo_wf|]. by repeat split. Qed.
End Demo.
Import Demo.

(** The demo evaluated: channel 1 receives its messages in scheduling order, the
    cancelled message is not delivered, and the later ones follow in time. *)
Example demo_run :
  match step_until demo_handler true 20 (t_ 9) demo_sys with
  | Ret (s, Ok _) => Some (nanos (time (sched s)), map_to_list (models s),
                           (λ d, (nanos (d_time d), d_chan d, msg_arg (d_msg d))) <$> trace s)
  | _ => None
  end = Some (9, [(2, 2); (1, 3)], [(5, 1, 3); (5, 1, 0); (5, 2, 0); (8, 1, 0); (9, 2, 0)]).
Proof. vm_compute. reflexivity. Qed.

Lemma schedule_fifo_witness :
  ∃ s' ko l', run_request (ReqEvent (Duration 5) 7 1) demo_sched = Ret (s', Ok ko)
    ∧ sched_wf s' l' ∧ time s' = time demo_sched
    ∧ ∀ k, with_key k l' = with_key k demo_entries ++
        (if cmp (t_ 5, 1) k is Eq then [OnceAction (process_event 7 1)] else []).
Proof.
  apply (schedule_fifo (ReqEvent (Duration 5) 7 1) demo_sched demo_entries (t_ 5) demo_wf);
    [exact I|vm_compute; reflexivity..].
Defined.

Lemma schedule_rejects_witness :
  run_request (ReqPeriodicEvent (Monotonic (t_ 0)) 0 7 1) demo_sched
    = Ret (demo_sched, Err InvalidScheduledTime).
Proof.
  etransitivity;
    [apply (schedule_rejects (ReqPeriodicEvent (Monotonic (t_ 0)) 0 7 1) demo_sched demo_entries (t_ 0));
     [apply demo_wf|reflexivity|right; reflexivity]|].
  vm_compute. reflexivity.
Defined.

Lemma cancel_undoes_schedule_witness :
  ∃ s', run_request (ReqKeyedEvent (Duration 5) 7 1) demo_sched = Ret (s', Ok (Some 1%nat))
    ∧ ∃ l', sched_wf s' l' ∧ live (flags s') l' ≠ live (flags demo_sched) demo_entries
      ∧ live (key_cancel (flags s') 1%nat) l' = live (flags demo_sched) demo_entries.
Proof.
  eexists. split; [vm_compute; reflexivity|].
  apply (cancel_undoes_schedule (ReqKeyedEvent (Duration 5) 7 1) demo_sched _ demo_entries 1%nat demo_wf I).
  vm_compute. reflexivity.
Defined.

Lemma null_period_never_ends_witness :
  ∃ s', schedule (Duration 5) (PeriodicAction (process_event 7 1) 0)
          (mkScheduler (PQ.new : Queue) (t_ 0) []) = Ret (s', Ok tt)
    ∧ ∀ n pfuel inline, Z.of_nat n ≤ room s' (Arg := Z) → (1 < pfuel)%nat →
        step_loop n pfuel (flags s') TIME_MAX inline true (t_ 5, 0) (scheduler_queue s') [] = OutOfFuel.
Proof.
  apply (null_period_never_ends (mkScheduler (PQ.new : Queue) (t_ 0) []) (Duration 5) (t_ 5));
    [apply PQ.pq_new_empty|vm_compute; reflexivity..].
Defined.


Lemma step_until_past_witness :
  step_until demo_handler true 20 (t_ 0) demo_sys = Ret (demo_sys, Err InvalidScheduledTime).
Proof. apply (step_until_past demo_handler true 20 demo_sys (t_ 0)). vm_compute. discriminate. Defined.

Lemma step_in_scheduling_order_witness :
  (∀ p, p ∈ demo_entries → is_cancelled [true] p.2 = false → nanos (t_ 5) ≤ nanos p.1.1) ∧
  ((step demo_handler true demo_sys = Panic ∧ step_panics demo_handler true (t_ 5) demo_sys demo_entries) ∨
   ∃ s' l', step demo_handler true demo_sys = Ret s' ∧ sys_ok s' l' ∧ time (sched s') = t_ 5 ∧
     ∀ ch, is_Some (models demo_sys !! ch) →
       delivered ch (trace s') = delivered ch (trace demo_sys) ++
         (snd <$> concat (into_future <$>
            filter (λ a, is_cancelled [true] a = false) (with_key (t_ 5, ch) demo_entries)))).
Proof.
  apply (step_in_scheduling_order demo_handler true demo_sys demo_entries (t_ 5) demo_ok).
  - vm_compute. reflexivity.
  - vm_compute. repeat constructor.
Defined.

Lemma step_nothing_live_witness :
  let s := mkSys (mkScheduler (PQ.mkPQ [PQ.mkItem (t_ 5, 1)
             (KeyedOnceAction (λ k, send_keyed_event k 0 1) 0%nat) 0] 1 : Queue) (t_ 0) [true])
             {[1 := 0]} ∅ ∅ [] [] in
  ∃ s', step demo_handler true s = Ret s' ∧ sys_ok s' [] ∧ time (sched s') = time (sched s)
    ∧ models s' = models s ∧ trace s' = trace s.
Proof.
  intros s.
  apply (step_nothing_live demo_handler true s
           [((t_ 5, 1), KeyedOnceAction (λ k, send_keyed_event k 0 1) 0%nat)]).
  - split; [|by repeat split]. split; [|by repeat constructor].
    exists [PQ.mkItem (t_ 5, 1) (KeyedOnceAction (λ k, send_keyed_event k 0 1) 0%nat) 0].
    split_and!; [reflexivity|by repeat constructor|reflexivity|by repeat constructor|done].
  - by repeat constructor.
Defined.

Lemma periodic_action_recurs_witness :
  ∃ s', step demo_handler true demo_sys = Ret s' ∧
    ∃ l', sys_ok s' l' ∧ ((t_ 9, 2), PeriodicAction (process_event 0 2) 4) ∈ l'
      ∧ PeriodicAction (process_event 0 2) 4 = PeriodicAction (process_event 0 2) 4
      ∧ nanos (t_ 9) = nanos (time (sched s')) + 4.
Proof.
  eexists. split; [vm_compute; reflexivity|].
  apply (periodic_action_recurs demo_handler true demo_sys demo_entries (t_ 5) _
           ((t_ 5, 2), PeriodicAction (process_event 0 2) 4)); [exact demo_ok|..].
  - vm_compute. reflexivity.
  - vm_compute. repeat (first [apply list_elem_of_here | apply list_elem_of_further]).
  - reflexivity.
  - vm_compute. reflexivity.
  - vm_compute. reflexivity.
Defined.

Lemma process_runs_now_witness :
  ∃ s', process demo_handler (OnceAction (process_event 0 1)) demo_sys = Ret s' ∧
    time (sched s') = time (sched demo_sys)
    ∧ (∃ l', sys_ok s' l' ∧ ∀ p, p ∈ demo_entries → p ∈ l')
    ∧ ∀ ch, is_Some (models demo_sys !! ch) →
        delivered ch (trace s') = delivered ch (trace demo_sys) ++ for_chan ch (process_event 0 1).
Proof.
  eexists. split; [vm_compute; reflexivity|].
  apply (process_runs_now demo_handler demo_sys demo_entries (OnceAction (process_event 0 1))); [exact demo_ok|].
  vm_compute. reflexivity.
Defined.
