(* ===== verification/Queues.v ===== *)
(** * The properties of the queues and of the key registry

    [PriorityQueue] sorts stably; [IndexedPriorityQueue] implements, over any
    sequence of its operations, a set of entries with removal of the first one and
    removal by insertion key; [KeyRegistry] forgets exactly the expired keys. *)

From S2P Require Import Prelude StablePq PriorityQueue IndexedPriorityQueue Scheduler KeyRegistry SeqExecutor.

(** ** The scheduler queue sorts stably *)
Section sorting.
Context {K V Q : Type} `{StablePQ K V Q}.

Fixpoint insert_all (kvs : list (K * V)) (q : Q) : outcome Q :=
  match kvs with
  | [] => Ret q
  | (k, v) :: kvs => q1 ← pq_insert k v q; insert_all kvs q1
  end.

Fixpoint pull_all (n : nat) (q : Q) : outcome (list (K * V)) :=
  match n with
  | O => Ret []
  | S n =>
      '(o, q1) ← (pq_pull q : outcome (option (K * V) * Q));
      match o with
      | None => Ret []
      | Some p => l ← pull_all n q1; Ret (p :: l)
      end
  end.

Lemma insert_all_repr kvs : ∀ q l, pq_repr q l → Z.of_nat (length kvs) ≤ pq_room (K := K) (V := V) q →
  ∃ q', insert_all kvs q = Ret q' ∧ pq_repr q' (foldl (λ l p, spq_insert p.1 p.2 l) l kvs).
Proof.
  induction kvs as [|[k v] kvs IH]; intros q l Hq Hr; [by exists q|]. cbn [insert_all].
  destruct (pq_insert_repr q l k v Hq) as (q1 & -> & Hq1 & Hr1); [simpl in Hr; lia|].
  apply IH; [done|]. simpl in Hr. lia.
Qed.

Lemma pull_all_repr l : ∀ q n, pq_repr q l → (length l ≤ n)%nat → pull_all n q = Ret l.
Proof.
  induction l as [|p l IH]; intros q n Hq Hn; destruct n as [|n]; cbn [pull_all]; try done; [| |].
  - destruct (pq_pull_repr _ _ Hq) as (q1 & -> & _). done.
  - simpl in Hn. lia.
  - destruct (pq_pull_repr _ _ Hq) as (q1 & -> & Hq1 & _). cbn [mbind outcome_bind head].
    rewrite (IH q1 n Hq1) by (simpl in Hn; lia). done.
Qed.

Lemma insert_all_spec kvs (l : list (K * V)) :
  StronglySorted key_le l →
  let r := foldl (λ l p, spq_insert p.1 p.2 l) l kvs in
  r ≡ₚ l ++ kvs ∧ StronglySorted key_le r ∧ ∀ k, with_key k r = with_key k l ++ with_key k kvs.
Proof.
  revert l. induction kvs as [|[k v] kvs IH]; intros l Hs r; subst r.
  { split_and!; [by rewrite app_nil_r|done|]. intros. by rewrite app_nil_r. }
  cbn [foldl fst snd]. destruct (IH (spq_insert k v l)) as (Hp & Hs' & Hw); [by apply spq_insert_sorted|].
  split_and!; [|done|].
  - rewrite Hp, spq_insert_perm. cbn [app]. apply Permutation_middle.
  - intros k'. rewrite Hw, spq_insert_with_key, with_key_cons by done. by rewrite <-(assoc_L (++)).
Qed.
End sorting.

(** C27: inserting any pairs in an empty [PriorityQueue] (up to the number of
    epochs) and pulling them all gives the pairs back, in the order of their keys,
    those with equal keys in the order of their insertion; nothing panics. *)
Theorem priority_queue_sorts_stably {K V} `{Ord K} (kvs : list (K * V)) :
  Z.of_nat (length kvs) ≤ U64_MAX →
  ∃ r, (q ← insert_all kvs (PQ.new : PQ.PriorityQueue K V); pull_all (length kvs) q) = Ret r
    ∧ r ≡ₚ kvs ∧ StronglySorted key_le r ∧ ∀ k, with_key k r = with_key k kvs.
Proof.
  intros Hlen. destruct (insert_all_repr kvs (PQ.new : PQ.PriorityQueue K V) []) as (q & -> & Hq).
  { apply PQ.pq_new_empty. } { simpl. lia. }
  destruct (insert_all_spec kvs []) as (Hp & Hs & Hw); [constructor|].
  eexists. ret_step. split; [apply pull_all_repr; [exact Hq|]|done].
  by rewrite Hp.
Qed.

Lemma priority_queue_sorts_stably_witness :
  ∃ r, (q ← insert_all [(5, 1); (3, 2); (5, 3); (3, 4)] (PQ.new : PQ.PriorityQueue Z Z); pull_all 4 q) = Ret r
    ∧ r ≡ₚ [(5, 1); (3, 2); (5, 3); (3, 4)] ∧ StronglySorted key_le r
    ∧ ∀ k, with_key k r = with_key k [(5, 1); (3, 2); (5, 3); (3, 4)].
Proof. apply (priority_queue_sorts_stably [(5, 1); (3, 2); (5, 3); (3, 4)]). vm_compute. discriminate. Defined.
Example priority_queue_sorts_example :
  (q ← insert_all [(5, 1); (3, 2); (5, 3); (3, 4)] (PQ.new : PQ.PriorityQueue Z Z); pull_all 4 q)
    = Ret [(3, 2); (3, 4); (5, 1); (5, 3)].
Proof. reflexivity. Qed.

(** ** The queue with deletion as a set of entries *)
Section deletion.
Context {K V : Type} `{Ord K}.
Abbreviation Entries := (list (IPQ.Entry K V)).

Inductive op := OpInsert (k : K) (v : V) | OpPull | OpExtract (ik : IPQ.InsertKey).
Inductive out := OutKey (ik : IPQ.InsertKey) | OutPair (o : option (K * V)).

Definition ipq_step (o : op) (q : IPQ.IndexedPriorityQueue K V)
    : outcome (out * IPQ.IndexedPriorityQueue K V) :=
  match o with
  | OpInsert k v => '(q', ik) ← IPQ.insert k v q; Ret (OutKey ik, q')
  | OpPull => '(r, q') ← IPQ.pull q; Ret (OutPair r, q')
  | OpExtract ik => '(r, q') ← IPQ.extract ik q; Ret (OutPair r, q')
  end.

Fixpoint ipq_run (os : list op) (q : IPQ.IndexedPriorityQueue K V)
    : outcome (list out * IPQ.IndexedPriorityQueue K V) :=
  match os with
  | [] => Ret ([], q)
  | o :: os =>
      '(r, q1) ← ipq_step o q; '(rs, q2) ← ipq_run os q1; Ret (r :: rs, q2)
  end.

(** The specification: an entry is added under a key newer than all those ever
    given; pulling removes the first entry; extracting removes the entry that
    the key designates, and only that one. *)
Inductive set_step : Z → Entries → op → out → Z → Entries → Prop :=
| Set_insert n es k v ik :
    IPQ.ik_epoch ik = n →
    set_step n es (OpInsert k v) (OutKey ik) (n + 1) (IPQ.mkEntry k v ik :: es)
| Set_pull_empty n : set_step n [] OpPull (OutPair None) n []
| Set_pull n es es' e :
    es ≡ₚ e :: es' → (∀ x, x ∈ es → ¬ IPQ.e_before x e) →
    set_step n es OpPull (OutPair (Some (IPQ.e_key e, IPQ.e_val e))) n es'
| Set_extract n es es' e :
    es ≡ₚ e :: es' →
    set_step n es (OpExtract (IPQ.e_slot e)) (OutPair (Some (IPQ.e_key e, IPQ.e_val e))) n es'
| Set_extract_stale n es ik :
    (∀ e, e ∈ es → IPQ.e_slot e ≠ ik) →
    set_step n es (OpExtract ik) (OutPair None) n es.

Inductive set_run : Z → Entries → list op → list out → Z → Entries → Prop :=
| Run_nil n es es' : es ≡ₚ es' → set_run n es [] [] n es'
| Run_cons n es o r n1 es1 os rs n2 es2 :
    set_step n es o r n1 es1 → set_run n1 es1 os rs n2 es2 →
    set_run n es (o :: os) (r :: rs) n2 es2.

Lemma ipq_step_refines q o :
  IPQ.wf q → IPQ.next_epoch q < U64_MAX →
  ∃ r q', ipq_step o q = Ret (r, q') ∧ IPQ.wf q' ∧ IPQ.next_epoch q' ≤ IPQ.next_epoch q + 1
    ∧ ∃ es', set_step (IPQ.next_epoch q) (IPQ.entries q) o r (IPQ.next_epoch q') es'
             ∧ es' ≡ₚ IPQ.entries q'.
Proof.
  intros Hw Hlt. destruct o as [k v| |ik]; cbn [ipq_step].
  - destruct (IPQ.insert_ok q k v Hw Hlt) as (q' & ik & -> & Hw' & Hen & Hne & Hik).
    eexists _, q'. split_and!; [done|done|lia|]. exists (IPQ.mkEntry k v ik :: IPQ.entries q).
    split; [|by rewrite Hen]. rewrite Hne. by constructor.
  - destruct (decide (IPQ.entries q = [])) as [Hnil|Hn].
    + rewrite IPQ.pull_empty by done. eexists _, q. split_and!; [done|done|lia|].
      rewrite Hnil. eexists. split; [constructor|done].
    + destruct (IPQ.pull_ok q Hw Hn) as (e & q' & -> & Hw' & Hen & Hne & Hmin).
      eexists _, q'. split_and!; [done|done|lia|]. rewrite Hne. exists (IPQ.entries q').
      split; [|done]. by constructor.
  - destruct (decide (Exists (λ e, IPQ.e_slot e = ik) (IPQ.entries q))) as [Hex|Hno].
    + apply Exists_exists in Hex as (e & He & <-).
      destruct (IPQ.extract_ok q e Hw He) as (q' & -> & Hw' & Hen & Hne).
      eexists _, q'. split_and!; [done|done|lia|]. rewrite Hne. exists (IPQ.entries q').
      split; [|done]. by constructor.
    + assert (∀ e, e ∈ IPQ.entries q → IPQ.e_slot e ≠ ik) as Hst.
      { intros e He Heq. apply Hno, Exists_exists. eauto. }
      rewrite IPQ.extract_stale by done. eexists _, q. split_and!; [done|done|lia|].
      eexists. split; [by constructor|done].
Qed.

Lemma set_step_perm n es o r n' es1 es2 :
  es ≡ₚ es2 → set_step n es o r n' es1 → ∃ es1', set_step n es2 o r n' es1' ∧ es1 ≡ₚ es1'.
Proof.
  intros Hp. destruct 1 as [n es k v ik Hik|n|n es es' e He Hmin|n es es' e He|n es ik Hno].
  - eexists. split; [by constructor|by rewrite Hp].
  - apply Permutation_nil_l in Hp. subst. eexists. split; [constructor|done].
  - exists es'. split; [constructor; [by rewrite <-Hp|]|done]. intros x. rewrite <-Hp. apply Hmin.
  - exists es'. split; [constructor; by rewrite <-Hp|done].
  - exists es2. split; [constructor|done]. intros e. rewrite <-Hp. apply Hno.
Qed.

Lemma set_run_perm n es os rs n' es' es2 :
  es ≡ₚ es2 → set_run n es os rs n' es' → set_run n es2 os rs n' es'.
Proof.
  intros Hp Hr. revert es2 Hp. induction Hr as [n es es' Hp'|n es o r n1 es1 os rs n2 es' Hst Hr IH]; intros es2 Hp.
  - constructor. by rewrite <-Hp.
  - destruct (set_step_perm _ _ _ _ _ _ _ Hp Hst) as (es1' & Hst' & Hp1).
    econstructor; [done|]. by apply IH.
Qed.

(** C3: any sequence of [insert], [pull] and [extract], shorter than the epochs
    left, on a well-formed [IndexedPriorityQueue] runs without panicking, leaves
    it well-formed, and answers as the set of entries does: [pull] returns the
    entry with the lowest key, the oldest among equals, [extract] the entry of
    its insertion key or [None] for a key whose entry is gone. *)
Theorem indexed_queue_refines_set os : ∀ q,
  IPQ.wf q → Z.of_nat (length os) ≤ U64_MAX - IPQ.next_epoch q →
  ∃ rs q', ipq_run os q = Ret (rs, q') ∧ IPQ.wf q'
    ∧ set_run (IPQ.next_epoch q) (IPQ.entries q) os rs (IPQ.next_epoch q') (IPQ.entries q').
Proof.
  induction os as [|o os IH]; intros q Hw Hlen; cbn [ipq_run].
  { exists [], q. split_and!; [done..|]. by constructor. }
  simpl in Hlen. destruct (ipq_step_refines q o Hw) as (r & q1 & -> & Hw1 & Hne & es1 & Hst & Hp1); [lia|].
  ret_step. destruct (IH q1 Hw1) as (rs & q2 & -> & Hw2 & Hrun); [lia|].
  exists (r :: rs), q2. split_and!; [done..|]. econstructor; [done|].
  eapply set_run_perm; [|done]. done.
Qed.
End deletion.

Lemma indexed_queue_refines_set_witness :
  ∃ rs q', ipq_run [OpInsert 5 1; OpInsert 3 2; OpInsert 3 4; OpExtract (IPQ.mkInsertKey 1 1); OpPull;
                    OpExtract (IPQ.mkInsertKey 1 1)] (IPQ.new : IPQ.IndexedPriorityQueue Z Z) = Ret (rs, q')
    ∧ IPQ.wf q'
    ∧ set_run 0 [] [OpInsert 5 1; OpInsert 3 2; OpInsert 3 4; OpExtract (IPQ.mkInsertKey 1 1); OpPull;
                    OpExtract (IPQ.mkInsertKey 1 1)] rs (IPQ.next_epoch q') (IPQ.entries q').
Proof.
  apply (indexed_queue_refines_set _ (IPQ.new : IPQ.IndexedPriorityQueue Z Z)).
  - apply IPQ.new_wf.
  - vm_compute. discriminate.
Defined.
Example ipq_run_example :
  match ipq_run [OpInsert 5 1; OpInsert 3 2; OpInsert 3 4; OpExtract (IPQ.mkInsertKey 1 1); OpPull;
                 OpExtract (IPQ.mkInsertKey 1 1)] (IPQ.new : IPQ.IndexedPriorityQueue Z Z) with
  | Ret (rs, _) => drop 3 rs
  | _ => []
  end = [OutPair (Some (3, 2)); OutPair (Some (3, 4)); OutPair None].
Proof. reflexivity. Qed.

(** ** The registry *)
Import Sched Registry.

(** [remove_expired_keys] terminates and removes exactly the keys whose
    expiration is strictly before the given time; the others stay registered
    under their identifiers. *)
Theorem remove_expired_exact {T} `{TaiTime T} (now : T) r :
  registry_wf r →
  ∃ r', remove_expired_keys now r = Ret r' ∧ registry_wf r' ∧ holds r' ≡ₚ filter (unexpired now) (holds r).
Proof.
  intros Hw. destruct (remove_expired_loop_ok now (S (IPQ.len (keys r))) (keys r) Hw) as (q' & Hq & Hw' & Hen);
    [lia|].
  unfold remove_expired_keys. rewrite Hq. by exists (mkRegistry q').
Qed.

(** an identifier returned by [insert_key] gives its action key back once:
    the first [extract_key] returns it and leaves the registry as it was before
    the insertion, a second one returns [None]. *)
Theorem registry_roundtrip {T} `{TaiTime T} k (expiration : T) r :
  registry_wf r → IPQ.next_epoch (keys r) < U64_MAX →
  ∃ r1 id r2, insert_key k expiration r = Ret (r1, id)
    ∧ extract_key id r1 = Ret (Some k, r2) ∧ registry_wf r2 ∧ holds r2 ≡ₚ holds r
    ∧ extract_key id r2 = Ret (None, r2).
Proof.
  intros Hw Hlt. unfold insert_key, extract_key.
  destruct (IPQ.insert_ok (keys r) expiration k Hw Hlt) as (q1 & ik & -> & Hw1 & Hen1 & _ & Hik).
  destruct (IPQ.extract_ok q1 (IPQ.mkEntry expiration k ik) Hw1) as (q2 & Hex & Hw2 & Hen2 & _).
  { rewrite Hen1. by left. }
  exists (mkRegistry q1), ik, (mkRegistry q2). cbn [mbind outcome_bind keys]. cbn [IPQ.e_slot] in Hex.
  rewrite Hex. rewrite Hen1 in Hen2. apply (Permutation_cons_inv (a := IPQ.mkEntry expiration k ik)) in Hen2.
  split_and!; [done..|by rewrite Hen2|]. rewrite IPQ.extract_stale; [done|done|].
  intros e He Heq. rewrite <-Hen2 in He.
  pose proof (IPQ.entries_epochs _ Hw) as Hep. rewrite Forall_forall in Hep. specialize (Hep e He).
  simpl in Hep. rewrite Heq, Hik in Hep. lia.
Qed.

Lemma remove_expired_exact_witness :
  ∃ r', remove_expired_keys (mono_of 5) (default_registry (T := mono)) = Ret r' ∧ registry_wf r'
    ∧ holds r' ≡ₚ filter (unexpired (mono_of 5)) (holds default_registry).
Proof. apply (remove_expired_exact (mono_of 5) default_registry). apply IPQ.new_wf. Defined.
Example remove_expired_example :
  match ('(r1, _) ← insert_key 7%nat (mono_of 3) (default_registry (T := mono));
         '(r2, _) ← insert_key 8%nat (mono_of 9) r1;
         '(r3, _) ← insert_eternal_key 9%nat r2;
         '(r4, _) ← insert_key 10%nat (mono_of 4) r3; remove_expired_keys (mono_of 5) r4) with
  | Ret r => (λ e, (nanos (IPQ.e_key e), IPQ.e_val e)) <$> holds r
  | _ => []
  end = [(9, 8%nat); (MONO_MAX, 9%nat)].
Proof. vm_compute. reflexivity. Qed.

Lemma registry_roundtrip_witness :
  ∃ r1 id r2, insert_key 7%nat (mono_of 3) default_registry = Ret (r1, id)
    ∧ extract_key id r1 = Ret (Some 7%nat, r2) ∧ registry_wf r2 ∧ holds r2 ≡ₚ holds default_registry
    ∧ extract_key id r2 = Ret (None, r2).
Proof.
  apply (registry_roundtrip 7%nat (mono_of 3) default_registry); [apply IPQ.new_wf|].
  vm_compute. reflexivity.
Defined.
