(* ===== verification/Av1.v ===== *)
(** * The AV1 bytestream parser: [Av1Parser] of [examples/lib/mod.rs]

    Splits the bytes read from an encoder into OBUs: a header byte, an optional
    extension byte, the size in LEB128, and the payload.  Bytes are integers in
    [[0, 256)].  The theorems show that encoding and parsing are inverse, that
    the parser does not depend on how the bytes were cut into reads, and that the
    arithmetic on sizes stays in range. *)

From S2P Require Import Prelude.

Module Av1.

Record ObuUnit := mkObu { obu_type : Z; data : list Z; is_sequence_header : bool }.
Record Av1Parser := mkParser { buffer : list Z; sequence_header : option (list Z) }.

Definition new : Av1Parser := mkParser [] None.
Definition add_data (d : list Z) (p : Av1Parser) : Av1Parser :=
  mkParser (buffer p ++ d) (sequence_header p).
Definition update_sequence_header (d : list Z) (p : Av1Parser) : Av1Parser :=
  mkParser (buffer p) (Some d).
Definition get_sequence_header (p : Av1Parser) : option (list Z) := sequence_header p.

(** The loop of [parse_leb128]; it leaves after nine bytes at most. *)
Fixpoint leb128_loop (fuel : nat) (buf : list Z) (offset bytes_read : nat) (shift value : Z)
    : outcome (option (Z * nat)) :=
  match fuel with
  | O => OutOfFuel
  | S fuel =>
      match buf !! (offset + bytes_read)%nat with
      | None => Ret None
      | Some byte =>
          let value := Z.lor value (Z.shiftl (Z.land byte 127) shift) in
          let bytes_read := S bytes_read in
          let shift := shift + 7 in
          if Z.land byte 128 =? 0 then Ret (Some (value, bytes_read))
          else if (8 <? bytes_read)%nat then Ret None
          else leb128_loop fuel buf offset bytes_read shift value
      end
  end.
Definition parse_leb128 (buf : list Z) (offset : nat) : outcome (option (Z * nat)) :=
  leb128_loop 9 buf offset 0 0 0.

Definition next_obu (p : Av1Parser) : outcome (option ObuUnit * Av1Parser) :=
  match buffer p with
  | [] => Ret (None, p)
  | header_byte :: _ =>
      let obu_type := Z.land (Z.shiftr header_byte 3) 15 in
      let extension_flag := Z.land (Z.shiftr header_byte 2) 1 in
      let has_size_field := Z.land (Z.shiftr header_byte 1) 1 in
      if has_size_field =? 0 then Ret (None, p)
      else
        let offset := if extension_flag =? 1 then 2%nat else 1%nat in
        if (extension_flag =? 1) && (length (buffer p) <? offset)%nat then Ret (None, p)
        else
          o ← parse_leb128 (buffer p) offset;
          match o with
          | None => Ret (None, p)
          | Some (payload_size, leb_bytes) =>
              let total_size := Z.of_nat (offset + leb_bytes) + payload_size in
              if U64_MAX <? total_size then Panic
              else if Z.of_nat (length (buffer p)) <? total_size then Ret (None, p)
              else
                let n := Z.to_nat total_size in
                Ret (Some (mkObu obu_type (take n (buffer p)) (obu_type =? 1)),
                     mkParser (drop n (buffer p)) (sequence_header p))
          end
  end.

(** Each unit takes two bytes at least, so the buffer bounds the loop. *)
Fixpoint obu_loop (fuel : nat) (p : Av1Parser) : outcome (list ObuUnit * Av1Parser) :=
  match fuel with
  | O => OutOfFuel
  | S fuel =>
      '(o, p1) ← next_obu p;
      match o with
      | None => Ret ([], p1)
      | Some u => '(us, p2) ← obu_loop fuel p1; Ret (u :: us, p2)
      end
  end.
Definition get_obu_units (p : Av1Parser) : outcome (list ObuUnit * Av1Parser) :=
  obu_loop (S (length (buffer p))) p.

Definition get_frames (p : Av1Parser) : outcome (list (list Z) * Av1Parser) :=
  '(us, p1) ← get_obu_units p; Ret (map data us, p1).

(** ** LEB128 *)
Fixpoint leb128_encode (fuel : nat) (n : Z) : list Z :=
  match fuel with
  | O => []
  | S fuel => if n <? 128 then [n] else (n `mod` 128 + 128) :: leb128_encode fuel (n / 128)
  end.

Lemma lor_shift_add v x s : 0 ≤ s → 0 ≤ v < 2 ^ s → 0 ≤ x → Z.lor v (Z.shiftl x s) = v + x * 2 ^ s.
Proof.
  intros Hs Hv Hx. rewrite Z.shiftl_mul_pow2 by done.
  assert (Z.land v (x * 2 ^ s) = 0) as Hl.
  { apply Z.bits_inj'. intros i Hi. rewrite Z.land_spec, Z.bits_0. destruct (Z.lt_ge_cases i s).
    - rewrite Z.mul_pow2_bits_low by lia. apply andb_false_r.
    - destruct (decide (v = 0)) as [->|]; [by rewrite Z.bits_0|].
      rewrite (Z.bits_above_log2 v i); [done|lia|]. apply Z.log2_lt_pow2; [lia|].
      eapply Z.lt_le_trans; [apply Hv|]. apply Z.pow_le_mono_r; lia. }
  rewrite (Z.add_nocarry_lxor _ _ Hl). symmetry. by apply Z.lxor_lor.
Qed.

Lemma land_127 b : 0 ≤ b → Z.land b 127 = b `mod` 128.
Proof. intros. change 127 with (Z.ones 7). by rewrite Z.land_ones. Qed.
Lemma land_128 b : 0 ≤ b < 256 → (Z.land b 128 =? 0) = (b <? 128).
Proof.
  intros Hb. assert (∀ x : nat, (x < 256)%nat → (Z.land (Z.of_nat x) 128 =? 0) = (Z.of_nat x <? 128)) as Hall.
  { intros x Hx. do 256 (destruct x as [|x]; [reflexivity|]). lia. }
  rewrite <-(Z2Nat.id b) by lia. apply Hall. lia.
Qed.

Definition bytes (l : list Z) : Prop := Forall (λ b, 0 ≤ b < 256) l.

Lemma pow2_7 n : 2 ^ (7 * Z.of_nat (S n)) = 2 ^ (7 * Z.of_nat n) * 128.
Proof. rewrite Nat2Z.inj_succ, Z.mul_succ_r, Z.pow_add_r by lia. done. Qed.

(** One more byte of seven bits. *)
Lemma leb128_value v n b :
  0 ≤ v < 2 ^ (7 * Z.of_nat n) → 0 ≤ b →
  Z.lor v (Z.shiftl (Z.land b 127) (7 * Z.of_nat n)) = v + (b `mod` 128) * 2 ^ (7 * Z.of_nat n)
  ∧ 0 ≤ v + (b `mod` 128) * 2 ^ (7 * Z.of_nat n) < 2 ^ (7 * Z.of_nat (S n)).
Proof.
  intros Hv Hb. rewrite land_127 by done. pose proof (Z.mod_pos_bound b 128 ltac:(lia)).
  rewrite lor_shift_add by lia. rewrite pow2_7. split; [done|]. nia.
Qed.

(** It always ends; sizes are below [2^63] and take at most nine bytes. *)
Lemma leb128_loop_total buf offset fuel : ∀ n v,
  bytes buf → (0 < fuel)%nat → (n + fuel = 9)%nat → 0 ≤ v < 2 ^ (7 * Z.of_nat n) →
  ∃ o, leb128_loop fuel buf offset n (7 * Z.of_nat n) v = Ret o ∧
    ∀ x m, o = Some (x, m) → 0 ≤ x < 2 ^ 63 ∧ (n < m ≤ 9)%nat ∧ (offset + m ≤ length buf)%nat.
Proof.
  induction fuel as [|fuel IH]; intros n v Hb Hf Hn Hv; [lia|]. cbn [leb128_loop].
  destruct (buf !! (offset + n)%nat) as [byte|] eqn:Hl; [|by exists None].
  assert (0 ≤ byte < 256) as Hbyte by (unfold bytes in Hb; rewrite Forall_forall in Hb; apply Hb; by eapply list_elem_of_lookup_2).
  apply lookup_lt_Some in Hl. destruct (leb128_value v n byte Hv) as [-> Hv']; [lia|].
  replace (7 * Z.of_nat n + 7) with (7 * Z.of_nat (S n)) by lia.
  destruct (Z.land byte 128 =? 0).
  - eexists. split; [done|]. intros x m [= <- <-]. split; [|lia]. split; [lia|].
    eapply Z.lt_le_trans; [apply Hv'|]. apply Z.pow_le_mono_r; lia.
  - destruct (Nat.ltb_spec 8 (S n)); [by exists None|].
    destruct (IH (S n) _ Hb ltac:(lia) ltac:(lia) Hv') as (o & -> & Ho). exists o. split; [done|].
    intros x m Hx. destruct (Ho x m Hx) as (? & ? & ?). split_and!; lia.
Qed.

Lemma leb128_loop_app buf c offset fuel : ∀ n sh v x m,
  leb128_loop fuel buf offset n sh v = Ret (Some (x, m)) →
  leb128_loop fuel (buf ++ c) offset n sh v = Ret (Some (x, m)).
Proof.
  induction fuel as [|fuel IH]; intros n sh v x m; cbn [leb128_loop]; [done|].
  destruct (buf !! (offset + n)%nat) as [byte|] eqn:Hl; [|done].
  rewrite (lookup_app_l_Some _ _ _ _ Hl). destruct (Z.land byte 128 =? 0); [done|].
  destruct (8 <? S n)%nat; [done|]. apply IH.
Qed.

Lemma leb128_encode_loop pre post fuel : ∀ n v x enc,
  enc = leb128_encode fuel x →
  (0 < fuel)%nat → (n + fuel = 9)%nat → 0 ≤ v < 2 ^ (7 * Z.of_nat n) → 0 ≤ x < 2 ^ (7 * Z.of_nat fuel) →
  ∀ buf off, buf = pre ++ enc ++ post → (off + n)%nat = length pre →
  leb128_loop fuel buf off n (7 * Z.of_nat n) v
    = Ret (Some (v + x * 2 ^ (7 * Z.of_nat n), (n + length enc)%nat)).
Proof.
  revert pre. induction fuel as [|fuel IH]; intros pre n v x enc -> Hf Hn Hv Hx buf off -> Hlen; [lia|].
  cbn [leb128_loop leb128_encode]. rewrite lookup_app_r, Hlen, Nat.sub_diag by lia.
  replace (7 * Z.of_nat n + 7) with (7 * Z.of_nat (S n)) by lia.
  destruct (Z.ltb_spec x 128) as [Hs|Hs]; cbn [app lookup list_lookup].
  - destruct (leb128_value v n x Hv) as [-> _]; [lia|]. rewrite land_128 by lia.
    rewrite (proj2 (Z.ltb_lt x 128)) by done. rewrite (Z.mod_small x 128) by lia. simpl length. do 4 f_equal. lia.
  - pose proof (Z.mod_pos_bound x 128 ltac:(lia)) as Hm.
    destruct (leb128_value v n (x `mod` 128 + 128) Hv) as [-> Hv']; [lia|].
    rewrite land_128 by lia. rewrite (proj2 (Z.ltb_ge _ 128)) by lia.
    replace ((x `mod` 128 + 128) `mod` 128) with (x `mod` 128) in * by
      (rewrite <-Zplus_mod_idemp_r, Z_mod_same_full, Z.add_0_r; by rewrite Zmod_mod).
    assert (0 < fuel)%nat as Hf'.
    { destruct fuel; [|lia]. change (2 ^ (7 * Z.of_nat 1)) with 128 in Hx. lia. }
    destruct (Nat.ltb_spec 8 (S n)); [lia|].
    rewrite (IH (pre ++ [x `mod` 128 + 128]) (S n) _ (x / 128) _ eq_refl); [|done|lia|done| | |].
    + pose proof (Z.div_mod x 128 ltac:(lia)) as Hdm. rewrite pow2_7. cbn [length]. do 3 f_equal; [nia|lia].
    + rewrite pow2_7 in Hx. split; [apply Z.div_pos; lia|]. apply Z.div_lt_upper_bound; lia.
    + by rewrite <-(assoc_L (++)).
    + rewrite length_app. simpl. lia.
Qed.

(** ** One unit *)
Lemma bytes_suffix l1 l2 : bytes (l1 ++ l2) → bytes l2.
Proof. by intros [_ ?]%Forall_app. Qed.

Lemma next_obu_total p :
  bytes (buffer p) →
  ∃ o p', next_obu p = Ret (o, p') ∧ sequence_header p' = sequence_header p ∧
    match o with
    | None => p' = p
    | Some u => buffer p = data u ++ buffer p' ∧ (2 ≤ length (data u))%nat
    end.
Proof.
  intros Hb. unfold next_obu. destruct (buffer p) as [|h rest] eqn:Hbuf; [by exists None, p|].
  set (obu_type := Z.land (Z.shiftr h 3) 15). cbv zeta.
  destruct (_ =? 0); [by exists None, p|]. destruct (_ && _); [by exists None, p|].
  set (offset := if _ =? 1 then 2%nat else 1%nat).
  destruct (leb128_loop_total (h :: rest) offset 9 0 0 Hb) as (o & Ho & Hr); [lia..|].
  unfold parse_leb128. change (7 * Z.of_nat 0) with 0 in Ho. rewrite Ho. ret_step.
  destruct o as [[x m]|]; [|by exists None, p]. destruct (Hr x m eq_refl) as (Hx & Hm & Hlen).
  assert (1 ≤ offset ≤ 2)%nat as Hoff by (unfold offset; destruct (_ =? 1); lia).
  destruct (Z.ltb_spec U64_MAX (Z.of_nat (offset + m) + x)) as [Hov|_].
  { unfold U64_MAX in Hov. lia. }
  destruct (Z.ltb_spec (Z.of_nat (length (h :: rest))) (Z.of_nat (offset + m) + x)); [by exists None, p|].
  eexists _, _. split; [done|]. cbn [data buffer sequence_header]. split; [done|]. split; [by rewrite take_drop|].
  rewrite length_take. lia.
Qed.

Lemma parse_leb128_app buf c offset x m :
  parse_leb128 buf offset = Ret (Some (x, m)) → parse_leb128 (buf ++ c) offset = Ret (Some (x, m)).
Proof. apply leb128_loop_app. Qed.

Lemma next_obu_app p c u p' :
  next_obu p = Ret (Some u, p') → next_obu (add_data c p) = Ret (Some u, add_data c p').
Proof.
  unfold next_obu, add_data. cbn [buffer sequence_header].
  destruct (buffer p) as [|h rest] eqn:Hbuf; [done|]. cbn [app].
  set (offset := if _ =? 1 then 2%nat else 1%nat).
  destruct (_ =? 0); [done|].
  destruct (_ && (length (h :: rest) <? offset)%nat) eqn:Hext; [done|].
  assert ((Z.land (Z.shiftr h 2) 1 =? 1) && (length (h :: rest ++ c) <? offset)%nat = false) as ->.
  { apply andb_false_iff in Hext as [->|Hext%Nat.ltb_ge]; [done|]. apply andb_false_iff. right.
    apply Nat.ltb_ge. simpl in *. rewrite length_app. lia. }
  intros (o & Ho & Hr)%bind_Ret. destruct o as [[x m]|]; [|done].
  rewrite app_comm_cons, (parse_leb128_app _ c _ _ _ Ho). ret_step.
  destruct (U64_MAX <? _); [done|].
  destruct (Z.ltb_spec (Z.of_nat (length (h :: rest))) (Z.of_nat (offset + m) + x)); [done|].
  destruct (Z.ltb_spec (Z.of_nat (length ((h :: rest) ++ c))) (Z.of_nat (offset + m) + x)).
  { rewrite length_app in *. lia. }
  injection Hr as <- <-. cbn [buffer sequence_header]. rewrite take_app_le, drop_app_le by lia. done.
Qed.

(** ** All units of the buffer *)
Lemma obu_loop_total fuel : ∀ p, bytes (buffer p) → (length (buffer p) < fuel)%nat →
  ∃ us p', obu_loop fuel p = Ret (us, p') ∧ buffer p = concat (data <$> us) ++ buffer p'
    ∧ sequence_header p' = sequence_header p ∧ next_obu p' = Ret (None, p').
Proof.
  induction fuel as [|fuel IH]; intros p Hb Hf; [lia|]. cbn [obu_loop].
  destruct (next_obu_total p Hb) as ([u|] & p1 & Hn & Hsh & Hp); rewrite Hn; ret_step.
  - destruct Hp as [Hbuf Hlen]. rewrite Hbuf in Hf, Hb. rewrite length_app in Hf.
    destruct (IH p1) as (us & p2 & -> & Hbuf2 & Hsh2 & Hn2); [by eapply bytes_suffix|lia|].
    exists (u :: us), p2. split_and!; [done| |by rewrite Hsh2|done].
    rewrite Hbuf, Hbuf2. cbn [fmap list_fmap concat]. by rewrite <-(assoc_L (++)).
  - subst p1. exists [], p. split_and!; done.
Qed.

Lemma obu_loop_more fuel1 fuel2 : ∀ p r, obu_loop fuel1 p = Ret r → (fuel1 ≤ fuel2)%nat → obu_loop fuel2 p = Ret r.
Proof.
  revert fuel2. induction fuel1 as [|fuel1 IH]; intros fuel2 p r Hr Hle; [done|].
  destruct fuel2 as [|fuel2]; [lia|]. cbn [obu_loop] in *.
  inv_ret Hr as ([o p1] & -> & Hr). ret_step. destruct o as [u|]; [|done].
  inv_ret Hr as ([us p2] & Hl & Hr). rewrite (IH fuel2 _ _ Hl) by lia. done.
Qed.

Lemma obu_loop_app fuel : ∀ p c us p1 us2 p2 fuel2,
  obu_loop fuel p = Ret (us, p1) → obu_loop fuel2 (add_data c p1) = Ret (us2, p2) →
  obu_loop (fuel + fuel2) (add_data c p) = Ret (us ++ us2, p2).
Proof.
  induction fuel as [|fuel IH]; intros p c us p1 us2 p2 fuel2 H1 H2; [done|]. cbn [obu_loop Nat.add] in *.
  inv_ret H1 as ([o q] & Hn & H1). destruct o as [u|].
  - rewrite (next_obu_app _ _ _ _ Hn). ret_step.
    inv_ret H1 as ([us1 q1] & Hl & H1). injection H1 as <- <-.
    by rewrite (IH _ _ _ _ _ _ _ Hl H2).
  - injection H1 as <- <-.
    assert (q = p) as ->.
    { clear -Hn. unfold next_obu in Hn. destruct (buffer p); [congruence|]. cbv zeta in Hn.
      destruct (_ =? 0); [congruence|]. destruct (_ && _); [congruence|].
      inv_ret Hn as (o & _ & Hn). destruct o as [[x m]|]; [|congruence].
      destruct (_ <? _); [done|]. destruct (_ <? _); congruence. }
    change ('(o, p1) ← next_obu (add_data c p); match o with None => Ret ([], p1)
      | Some u => '(us, p2) ← obu_loop (fuel + fuel2) p1; Ret (u :: us, p2) end)
      with (obu_loop (S (fuel + fuel2)) (add_data c p)).
    eapply obu_loop_more; [done|]. lia.
Qed.

(** parsing is independent of how the bytes were cut into reads: taking the
    units available after a first part and then those available after a second
    part gives the units, in order, and the leftover of both parts at once; no
    byte is lost and nothing panics. *)
Theorem av1_parse_incremental p c :
  bytes (buffer p ++ c) →
  ∃ us p1 us2 p2, get_obu_units p = Ret (us, p1) ∧ get_obu_units (add_data c p1) = Ret (us2, p2)
    ∧ get_obu_units (add_data c p) = Ret (us ++ us2, p2)
    ∧ buffer p ++ c = concat (data <$> us ++ us2) ++ buffer p2.
Proof.
  intros [Hb Hc]%Forall_app.
  destruct (obu_loop_total (S (length (buffer p))) p Hb) as (us & p1 & H1 & Hbuf1 & _); [lia|].
  assert (bytes (buffer (add_data c p1))) as Hb1.
  { cbn [buffer add_data]. apply Forall_app. split; [|done]. rewrite Hbuf1 in Hb. by eapply bytes_suffix. }
  destruct (obu_loop_total (S (length (buffer (add_data c p1)))) (add_data c p1) Hb1)
    as (us2 & p2 & H2 & Hbuf2 & _); [lia|].
  assert (bytes (buffer (add_data c p))) as Hbc by (by apply Forall_app).
  destruct (obu_loop_total (S (length (buffer (add_data c p)))) (add_data c p) Hbc)
    as (us3 & p3 & H3 & Hbuf3 & _); [lia|].
  pose proof (obu_loop_app _ _ _ _ _ _ _ _ H1 H2) as H4.
  pose proof (obu_loop_more _ (S (length (buffer p)) + S (length (buffer (add_data c p1))) +
    S (length (buffer (add_data c p)))) _ _ H3 ltac:(lia)) as H5.
  pose proof (obu_loop_more _ (S (length (buffer p)) + S (length (buffer (add_data c p1))) +
    S (length (buffer (add_data c p)))) _ _ H4 ltac:(lia)) as H6.
  rewrite H5 in H6. injection H6 as -> ->. unfold get_obu_units.
  exists us, p1, us2, p2. split_and!; [done..|]. exact Hbuf3.
Qed.

(** ** The encoder's side *)
Record obu := mkObuSpec { ty : Z; ext : option Z; reserved : Z; payload : list Z }.
Definition obu_wf (u : obu) : Prop :=
  0 ≤ ty u < 16 ∧ 0 ≤ reserved u < 2 ∧ bytes (payload u) ∧ Z.of_nat (length (payload u)) < 2 ^ 63
  ∧ match ext u with Some e => 0 ≤ e < 256 | None => True end.
Definition obu_header (u : obu) : Z :=
  8 * ty u + 4 * (if ext u is Some _ then 1 else 0) + 2 + reserved u.
Definition obu_bytes (u : obu) : list Z :=
  (obu_header u :: option_list (ext u)) ++ leb128_encode 9 (Z.of_nat (length (payload u))) ++ payload u.

Lemma header_fields t e r : 0 ≤ t < 16 → 0 ≤ e < 2 → 0 ≤ r < 2 →
  let h := 8 * t + 4 * e + 2 + r in
  Z.land (Z.shiftr h 3) 15 = t ∧ Z.land (Z.shiftr h 2) 1 = e ∧ Z.land (Z.shiftr h 1) 1 = 1.
Proof.
  intros Ht He Hr h. rewrite !Z.shiftr_div_pow2 by lia. 
  assert (∀ x, Z.land x 1 = x `mod` 2) as Hl1 by (intros x; exact (Z.land_ones x 1 ltac:(lia))).
  assert (∀ x, Z.land x 15 = x `mod` 16) as Hl4 by (intros x; exact (Z.land_ones x 4 ltac:(lia))).
  rewrite !Hl1, Hl4.
  change (2 ^ 3) with 8. change (2 ^ 2) with 4. change (2 ^ 1) with 2. subst h.
  split_and!.
  - rewrite <-(Z.div_unique_pos (8 * t + 4 * e + 2 + r) 8 t (4 * e + 2 + r)) by lia. by rewrite Z.mod_small.
  - rewrite <-(Z.div_unique_pos (8 * t + 4 * e + 2 + r) 4 (2 * t + e) (2 + r)) by lia.
    symmetry. apply (Z.mod_unique_pos _ 2 t); lia.
  - rewrite <-(Z.div_unique_pos (8 * t + 4 * e + 2 + r) 2 (4 * t + 2 * e + 1) r) by lia.
    symmetry. apply (Z.mod_unique_pos _ 2 (2 * t + e)); lia.
Qed.

Lemma next_obu_encoded u rest sh :
  obu_wf u →
  next_obu (mkParser (obu_bytes u ++ rest) sh)
    = Ret (Some (mkObu (ty u) (obu_bytes u) (ty u =? 1)), mkParser rest sh).
Proof.
  intros (Ht & Hr & Hb & Hlen & He). unfold next_obu, obu_bytes. cbn [buffer sequence_header].
  set (e := if ext u is Some _ then 1 else 0). assert (0 ≤ e < 2) as Hebit by (unfold e; destruct (ext u); lia).
  destruct (header_fields (ty u) e (reserved u) Ht Hebit Hr) as (H1 & H2 & H3).
  change (8 * ty u + 4 * e + 2 + reserved u) with (obu_header u) in H1, H2, H3. cbn [app].
  rewrite H1, H2, H3.
  change (1 =? 0) with false. cbv iota zeta.
  set (pre := obu_header u :: option_list (ext u)).
  set (enc := leb128_encode 9 (Z.of_nat (length (payload u)))).
  assert ((if e =? 1 then 2%nat else 1%nat) = length pre) as Hoff by (unfold e, pre; by destruct (ext u)).
  rewrite Hoff.
  replace (obu_header u :: (option_list (ext u) ++ enc ++ payload u) ++ rest)
    with (pre ++ enc ++ payload u ++ rest) by (unfold pre; cbn [app]; by rewrite <-!(assoc_L (++))).
  rewrite (proj2 (Nat.ltb_ge _ _)) by (rewrite !length_app; lia). rewrite andb_false_r.
  unfold parse_leb128. change 0 with (7 * Z.of_nat 0) at 1.
  rewrite (leb128_encode_loop pre (payload u ++ rest) 9 0 0 (Z.of_nat (length (payload u))) enc eq_refl);
    [|lia|lia|lia|lia|done|lia].
  ret_step. change (2 ^ (7 * Z.of_nat 0)) with 1. rewrite Z.mul_1_r, Z.add_0_l, Nat.add_0_l.
  assert (length enc ≤ 9)%nat as Hel.
  { unfold enc. clear. generalize (Z.of_nat (length (payload u))). generalize 9%nat. intros n.
    induction n as [|n IH]; intros z; simpl; [lia|]. destruct (z <? 128); simpl; [lia|]. specialize (IH (z / 128)). lia. }
  assert (length pre ≤ 2)%nat by (unfold pre; destruct (ext u); simpl; lia).
  rewrite (proj2 (Z.ltb_ge _ _)) by (unfold U64_MAX; lia).
  rewrite (proj2 (Z.ltb_ge _ _)) by (rewrite !length_app; lia).
  replace (Z.to_nat (Z.of_nat (length pre + length enc) + Z.of_nat (length (payload u))))
    with (length (pre ++ enc ++ payload u)) by (rewrite !length_app; lia).
  replace (pre ++ enc ++ payload u ++ rest) with ((pre ++ enc ++ payload u) ++ rest) by (by rewrite <-!(assoc_L (++))).
  by rewrite take_app_length, drop_app_length.
Qed.

(** C31: parsing what an encoder wrote gives back its units: any sequence of OBUs
    with a size field and less than 2^63 bytes of payload, written one after the
    other, is parsed into the same sequence of types and bytes, and nothing is
    left over. *)
Theorem av1_parse_roundtrip us :
  Forall obu_wf us → 
  get_obu_units (add_data (concat (obu_bytes <$> us)) new)
    = Ret ((λ u, mkObu (ty u) (obu_bytes u) (ty u =? 1)) <$> us, new).
Proof.
  intros Hus. unfold get_obu_units, add_data. cbn [buffer sequence_header new app].
  assert (length us ≤ length (concat (obu_bytes <$> us)))%nat as Hlen.
  { clear. induction us as [|u us IH]; [done|]. cbn [fmap list_fmap concat length].
    rewrite length_app. unfold obu_bytes at 1. cbn [app length]. lia. }
  assert (length us < S (length (concat (obu_bytes <$> us))))%nat as Hf by lia. clear Hlen.
  revert Hf. generalize (S (length (concat (obu_bytes <$> us)))). intros fuel. revert fuel.
  induction Hus as [|u us Hu _ IH]; intros fuel Hf; (destruct fuel as [|fuel]; [simpl in Hf; lia|]); cbn [obu_loop].
  { done. }
  cbn [fmap list_fmap concat]. rewrite next_obu_encoded by done. ret_step.
  rewrite IH; [done|]. simpl in Hf. lia.
Qed.

Lemma av1_parse_incremental_witness :
  ∃ us p1 us2 p2,
    get_obu_units (mkParser [18; 0; 10; 2; 7] None) = Ret (us, p1) ∧ get_obu_units (add_data [9; 50] p1) = Ret (us2, p2)
    ∧ get_obu_units (add_data [9; 50] (mkParser [18; 0; 10; 2; 7] None)) = Ret (us ++ us2, p2)
    ∧ [18; 0; 10; 2; 7; 9; 50] = concat (data <$> us ++ us2) ++ buffer p2.
Proof.
  apply (av1_parse_incremental (mkParser [18; 0; 10; 2; 7] None) [9; 50]).
  repeat constructor; lia.
Defined.

Lemma av1_parse_roundtrip_witness :
  get_obu_units (add_data (concat (obu_bytes <$> [mkObuSpec 2 None 0 []; mkObuSpec 1 (Some 5) 0 [7; 9]])) new)
    = Ret ([mkObu 2 [18; 0] false; mkObu 1 [14; 5; 2; 7; 9] true], new).
Proof.
  apply (av1_parse_roundtrip [mkObuSpec 2 None 0 []; mkObuSpec 1 (Some 5) 0 [7; 9]]).
  repeat constructor; simpl; lia.
Defined.
End Av1.
