(* ===== verification/Hevc.v ===== *)
(** * The HEVC bytestream parser: [HevcParser] of [examples/lib/mod.rs]

    Splits the bytes read from an encoder at the start codes into NAL units,
    records the parameter sets, and gathers the units into frames of one picture
    each.  The theorems show that the units written by an encoder are found again,
    that the result does not depend on how the bytes were cut into reads, and that
    every frame handed out holds exactly one picture; and they exhibit the buffers
    on which the scan panics. *)

From S2P Require Import Prelude.

Module Hevc.

Record NalUnit := mkNal { nal_type : Z; data : list Z; is_keyframe : bool }.
Record HevcParser := mkParser {
  buffer : list Z;
  vps : option (list Z);
  sps : option (list Z);
  pps : option (list Z);
  pending_frame : list Z;
  pending_has_vcl : bool
}.

Definition new : HevcParser := mkParser [] None None None [] false.
Definition set_buffer (b : list Z) (p : HevcParser) : HevcParser :=
  mkParser b (vps p) (sps p) (pps p) (pending_frame p) (pending_has_vcl p).
Definition add_data (d : list Z) (p : HevcParser) : HevcParser := set_buffer (buffer p ++ d) p.
Definition reset_for_new_chunk (p : HevcParser) : HevcParser :=
  mkParser [] (vps p) (sps p) (pps p) [] false.

(** [buffer[i]], at indices that the loop bounds keep in range. *)
Definition at_ (b : list Z) (i : nat) : Z := nth i b 0.

Definition is_start_code (b : list Z) (i : nat) : bool :=
  ((at_ b i =? 0) && (at_ b (i + 1) =? 0) && (at_ b (i + 2) =? 1))
  || ((i <? length b - 4)%nat && (at_ b i =? 0) && (at_ b (i + 1) =? 0) && (at_ b (i + 2) =? 0)
      && (at_ b (i + 3) =? 1)).

(** [for i in start..end]: [n] indices from [i] on. *)
Fixpoint scan (n : nat) (b : list Z) (i : nat) : option nat :=
  match n with
  | O => None
  | S n => if is_start_code b i then Some i else scan n b (S i)
  end.

(** [self.buffer.len() - 3] underflows on one or two bytes: a panic, or without
    overflow checks a range whose scan leaves the buffer, a panic as well. *)
Definition find_next_start_code (b : list Z) (start_pos : nat) : outcome (option nat) :=
  match b with
  | [] => Ret None
  | _ => if (length b <? 3)%nat then Panic else Ret (scan (length b - 3 - start_pos) b start_pos)
  end.

Definition slice (b : list Z) (i j : nat) : list Z := take (j - i) (drop i b).
Definition create_full_nal (d : list Z) : list Z := d.

Definition store_parameter_set (ty : Z) (full_nal : list Z) (p : HevcParser) : HevcParser :=
  match ty with
  | 32 => mkParser (buffer p) (Some full_nal) (sps p) (pps p) (pending_frame p) (pending_has_vcl p)
  | 33 => mkParser (buffer p) (vps p) (Some full_nal) (pps p) (pending_frame p) (pending_has_vcl p)
  | 34 => mkParser (buffer p) (vps p) (sps p) (Some full_nal) (pending_frame p) (pending_has_vcl p)
  | _ => p
  end.

Definition next_nal_unit (p : HevcParser) : outcome (option NalUnit * HevcParser) :=
  let b := buffer p in
  o ← find_next_start_code b 0;
  match o with
  | None => Ret (None, p)
  | Some start_pos =>
      let start_code_len := if (start_pos + 3 <? length b)%nat && (at_ b (start_pos + 2) =? 0)
                                 && (at_ b (start_pos + 3) =? 1) then 4%nat else 3%nat in
      next_start ← find_next_start_code b (start_pos + start_code_len);
      match next_start with
      | None => Ret (None, p)
      | Some nal_end =>
          let nal_header_pos := (start_pos + start_code_len)%nat in
          if (length b <=? nal_header_pos)%nat then Ret (None, p)
          else
            let nal_type := Z.land (Z.shiftr (at_ b nal_header_pos) 1) 63 in
            let nal_data := slice b nal_header_pos nal_end in
            let p1 := store_parameter_set nal_type (create_full_nal (slice b start_pos nal_end)) p in
            Ret (Some (mkNal nal_type nal_data ((16 <=? nal_type) && (nal_type <=? 21))),
                 set_buffer (drop nal_end b) p1)
      end
  end.

(** One iteration of [get_frames]: the frame that is closed, if any. *)
Definition frame_step (nal : NalUnit) (p : HevcParser) : list (list Z) * HevcParser :=
  let is_vcl := nal_type nal <=? 31 in
  let '(out, pending, has_vcl) :=
    if is_vcl && pending_has_vcl p
    then ((if decide (pending_frame p = []) then [] else [pending_frame p]),
          (if decide (pending_frame p = []) then pending_frame p else []), false)
    else ([], pending_frame p, pending_has_vcl p) in
  let has_vcl := if is_vcl then true else has_vcl in
  (out, mkParser (buffer p) (vps p) (sps p) (pps p) (pending ++ [0; 0; 0; 1] ++ data nal) has_vcl).

Fixpoint frames_loop (fuel : nat) (p : HevcParser) : outcome (list (list Z) * HevcParser) :=
  match fuel with
  | O => OutOfFuel
  | S fuel =>
      '(o, p1) ← next_nal_unit p;
      match o with
      | None => Ret ([], p1)
      | Some nal =>
          let '(out, p2) := frame_step nal p1 in
          '(fs, p3) ← frames_loop fuel p2; Ret (out ++ fs, p3)
      end
  end.
Definition get_frames (p : HevcParser) : outcome (list (list Z) * HevcParser) :=
  frames_loop (S (length (buffer p))) p.

Definition flush_final_frame (p : HevcParser) : option (list Z) * HevcParser :=
  let p' := mkParser (buffer p) (vps p) (sps p) (pps p) [] false in
  (if pending_has_vcl p && negb (bool_decide (pending_frame p = [])) then Some (pending_frame p) else None, p').

Definition get_vps (p : HevcParser) := vps p.
Definition get_sps (p : HevcParser) := sps p.
Definition get_pps (p : HevcParser) := pps p.
Definition update_vps (d : list Z) (p : HevcParser) : HevcParser :=
  mkParser (buffer p) (Some d) (sps p) (pps p) (pending_frame p) (pending_has_vcl p).
Definition update_sps (d : list Z) (p : HevcParser) : HevcParser :=
  mkParser (buffer p) (vps p) (Some d) (pps p) (pending_frame p) (pending_has_vcl p).
Definition update_pps (d : list Z) (p : HevcParser) : HevcParser :=
  mkParser (buffer p) (vps p) (sps p) (Some d) (pending_frame p) (pending_has_vcl p).
Definition get_parameter_sets (p : HevcParser) := (vps p, sps p, pps p).

(** ** The scan *)
Lemma at_app b c i : (i < length b)%nat → at_ (b ++ c) i = at_ b i.
Proof. apply app_nth1. Qed.

Lemma scan_Some n b : ∀ i j, scan n b i = Some j →
  (i ≤ j < i + n)%nat ∧ is_start_code b j = true ∧ ∀ k, (i ≤ k < j)%nat → is_start_code b k = false.
Proof.
  induction n as [|n IH]; intros i j; cbn [scan]; [done|]. destruct (is_start_code b i) eqn:E.
  - intros [= <-]. split_and!; [lia..|done|]. lia.
  - intros Hs. destruct (IH _ _ Hs) as (? & ? & Hb). split_and!; [lia..|done|]. intros k Hk.
    destruct (decide (k = i)) as [->|]; [done|]. apply Hb. lia.
Qed.

Lemma scan_None n b : ∀ i, scan n b i = None → ∀ k, (i ≤ k < i + n)%nat → is_start_code b k = false.
Proof.
  induction n as [|n IH]; intros i; cbn [scan]; [lia|]. destruct (is_start_code b i) eqn:E; [done|].
  intros Hs k Hk. destruct (decide (k = i)) as [->|]; [done|]. apply (IH _ Hs). lia.
Qed.

Lemma scan_intro n b i j :
  (i ≤ j < i + n)%nat → is_start_code b j = true → (∀ k, (i ≤ k < j)%nat → is_start_code b k = false) →
  scan n b i = Some j.
Proof.
  intros Hj Hs Hb. destruct (scan n b i) as [j'|] eqn:E.
  - apply scan_Some in E as (? & Hs' & Hb'). f_equal. destruct (Nat.lt_trichotomy j j') as [Hlt|[->|Hlt]]; [|done|].
    + rewrite Hb' in Hs by lia. done.
    + rewrite Hb in Hs' by lia. done.
  - rewrite (scan_None _ _ _ E) in Hs by lia. done.
Qed.

(** More bytes after the scanned ones do not change an earlier answer. *)
Lemma is_start_code_app b c i : (i + 4 < length b)%nat → is_start_code (b ++ c) i = is_start_code b i.
Proof.
  intros Hi. unfold is_start_code. rewrite !at_app by lia. rewrite length_app.
  rewrite (proj2 (Nat.ltb_lt i (length b + length c - 4))), (proj2 (Nat.ltb_lt i (length b - 4))) by lia. done.
Qed.
Lemma is_start_code_app_true b c i :
  (i + 3 < length b)%nat → is_start_code b i = true → is_start_code (b ++ c) i = true.
Proof.
  intros Hi. unfold is_start_code. rewrite !at_app by lia. rewrite length_app, !orb_true_iff, !andb_true_iff.
  rewrite !Nat.ltb_lt. intros [?|[[[[? ?] ?] ?] ?]]; [by left|right]. by repeat split; try done; lia.
Qed.

Lemma find_app b c i j :
  find_next_start_code b i = Ret (Some j) → find_next_start_code (b ++ c) i = Ret (Some j).
Proof.
  unfold find_next_start_code. destruct b as [|x b]; [done|]. cbn [app].
  change (x :: b ++ c) with ((x :: b) ++ c). set (bb := x :: b).
  destruct (Nat.ltb_spec (length bb) 3); [done|]. rewrite (proj2 (Nat.ltb_ge _ _)) by (rewrite length_app; lia).
  assert (length bb = S (length b)) as Hbb by done.
  intros [= (Hr & Hs & Hb)%scan_Some]. f_equal. apply scan_intro.
  - rewrite length_app. lia.
  - apply is_start_code_app_true; [lia|done].
  - intros k Hk. rewrite is_start_code_app by lia. by apply Hb.
Qed.

Lemma find_range b i j : find_next_start_code b i = Ret (Some j) → (i ≤ j)%nat ∧ (j + 3 < length b)%nat.
Proof.
  unfold find_next_start_code. destruct b as [|x b]; [done|]. destruct (_ <? 3)%nat; [done|].
  intros [= (Hr & _)%scan_Some]. simpl. lia.
Qed.

(** ** One unit *)
Lemma next_nal_None p p' : next_nal_unit p = Ret (None, p') → p' = p.
Proof.
  unfold next_nal_unit. intros (o & _ & Hp)%bind_Ret. destruct o as [s|]; [|congruence].
  inv_ret Hp as (o2 & _ & Hp). destruct o2 as [e|]; [|congruence].
  destruct (_ <=? _)%nat; congruence.
Qed.

Lemma slice_app b c i j : (i ≤ j)%nat → (j ≤ length b)%nat → slice (b ++ c) i j = slice b i j.
Proof.
  intros. unfold slice. rewrite drop_app_le by lia. rewrite take_app_le; [done|]. rewrite length_drop. lia.
Qed.

Lemma next_nal_app p c u p' :
  next_nal_unit p = Ret (Some u, p') → next_nal_unit (add_data c p) = Ret (Some u, add_data c p').
Proof.
  unfold next_nal_unit. cbn [buffer add_data set_buffer]. set (b := buffer p).
  intros (o & Ho & Hp)%bind_Ret. destruct o as [start|]; [|done].
  inv_ret Hp as (o2 & Ho2 & Hp). destruct o2 as [nal_end|]; [|done].
  pose proof (find_range _ _ _ Ho) as [_ Hst]. pose proof (find_range _ _ _ Ho2) as [Hle Hend].
  rewrite (find_app _ c _ _ Ho). ret_step.
  rewrite !at_app by lia. rewrite length_app, (proj2 (Nat.ltb_lt (start + 3) (length b + length c))) by lia.
  rewrite (proj2 (Nat.ltb_lt (start + 3) (length b))) in Ho2, Hp, Hle by lia. cbn [andb] in *.
  set (len := if (at_ b (start + 2) =? 0) && (at_ b (start + 3) =? 1) then 4%nat else 3%nat) in *. rewrite (find_app _ c _ _ Ho2). ret_step.
  rewrite (proj2 (Nat.leb_gt _ _)) in Hp by lia. rewrite (proj2 (Nat.leb_gt _ _)) by lia.
  rewrite at_app, !slice_app by lia. simplify_eq. do 2 f_equal. rewrite drop_app_le by lia.
  unfold store_parameter_set, set_buffer, add_data. cbn [buffer vps sps pps pending_frame pending_has_vcl].
  repeat case_match; done.
Qed.

Lemma next_nal_shrinks p u p' :
  next_nal_unit p = Ret (Some u, p') → (length (buffer p') < length (buffer p))%nat ∧ (4 ≤ length (buffer p'))%nat.
Proof.
  unfold next_nal_unit. set (b := buffer p). intros (o & Ho & Hp)%bind_Ret. destruct o as [start|]; [|done].
  inv_ret Hp as (o2 & Ho2 & Hp). destruct o2 as [nal_end|]; [|done].
  pose proof (find_range _ _ _ Ho2) as [Hle Hend]. destruct (_ <=? _)%nat; [done|]. simplify_eq.
  cbn [buffer set_buffer]. rewrite length_drop. destruct (_ && _) in *; lia.
Qed.

Lemma next_nal_total p : (length (buffer p) = 0 ∨ 3 ≤ length (buffer p))%nat → ∃ r, next_nal_unit p = Ret r.
Proof.
  intros Hl. assert (∀ i, ∃ o, find_next_start_code (buffer p) i = Ret o) as Hf.
  { intros i. unfold find_next_start_code. destruct (buffer p) as [|x b]; [by eexists|].
    destruct (Nat.ltb_spec (length (x :: b)) 3); [simpl in *; lia|by eexists]. }
  unfold next_nal_unit. destruct (Hf 0%nat) as [[s|] ->]; ret_step; [|by eexists].
  match goal with |- context [find_next_start_code _ (?x + ?y)] => destruct (Hf (x + y)%nat) as [[e|] ->] end;
    ret_step; [|by eexists]. destruct (_ <=? _)%nat; by eexists.
Qed.

(** ** Frames *)
Lemma frame_step_app u p c : frame_step u (add_data c p) = ((frame_step u p).1, add_data c (frame_step u p).2).
Proof.
  unfold frame_step, add_data, set_buffer. cbn [buffer vps sps pps pending_frame pending_has_vcl].
  by destruct (_ && pending_has_vcl p).
Qed.
Lemma frame_step_buffer u p : buffer (frame_step u p).2 = buffer p.
Proof. unfold frame_step. by destruct (_ && pending_has_vcl p). Qed.

Lemma frames_loop_total fuel : ∀ p, (length (buffer p) = 0 ∨ 3 ≤ length (buffer p))%nat →
  (length (buffer p) < fuel)%nat →
  ∃ fs p', frames_loop fuel p = Ret (fs, p') ∧ (length (buffer p') = 0 ∨ 3 ≤ length (buffer p'))%nat.
Proof.
  induction fuel as [|fuel IH]; intros p Hl Hf; [lia|]. cbn [frames_loop].
  destruct (next_nal_total p Hl) as [[[u|] p1] Hn]; rewrite Hn; ret_step.
  - pose proof (next_nal_shrinks _ _ _ Hn) as [Hs H4]. pose proof (frame_step_buffer u p1) as Hb.
    destruct (frame_step u p1) as [out p2]. cbn [fst snd] in *.
    destruct (IH p2) as (fs & p3 & -> & ?); rewrite ?Hb; [lia..|]. by exists (out ++ fs), p3.
  - pose proof (next_nal_None _ _ Hn) as ->. by exists [], p.
Qed.

Lemma frames_loop_more fuel1 fuel2 : ∀ p r,
  frames_loop fuel1 p = Ret r → (fuel1 ≤ fuel2)%nat → frames_loop fuel2 p = Ret r.
Proof.
  revert fuel2. induction fuel1 as [|fuel1 IH]; intros fuel2 p r Hr Hle; [done|].
  destruct fuel2 as [|fuel2]; [lia|]. cbn [frames_loop] in *.
  inv_ret Hr as ([o p1] & -> & Hr). ret_step. destruct o as [u|]; [|done].
  destruct (frame_step u p1) as [out p2]. inv_ret Hr as ([fs p3] & Hl & Hr).
  rewrite (IH fuel2 _ _ Hl) by lia. done.
Qed.

Lemma frames_loop_app fuel : ∀ p c fs p1 fs2 p2 fuel2,
  frames_loop fuel p = Ret (fs, p1) → frames_loop fuel2 (add_data c p1) = Ret (fs2, p2) →
  frames_loop (fuel + fuel2) (add_data c p) = Ret (fs ++ fs2, p2).
Proof.
  induction fuel as [|fuel IH]; intros p c fs p1 fs2 p2 fuel2 H1 H2; [done|]. cbn [frames_loop Nat.add] in *.
  inv_ret H1 as ([o q] & Hn & H1). destruct o as [u|].
  - rewrite (next_nal_app _ _ _ _ Hn). ret_step. rewrite frame_step_app.
    destruct (frame_step u q) as [out q2]. cbn [fst snd].
    inv_ret H1 as ([fs1 q1] & Hl & H1). injection H1 as <- <-.
    rewrite (IH _ _ _ _ _ _ _ Hl H2). ret_step. by rewrite (assoc_L (++)).
  - injection H1 as <- <-. pose proof (next_nal_None _ _ Hn) as ->.
    apply (frames_loop_more fuel2 (S (fuel + fuel2)) (add_data c p) (fs2, p2)) in H2; [exact H2|lia].
Qed.

(** the frames do not depend on how the bytes were cut into reads: taking the
    frames available after a first part and then those available after a second
    part gives the frames, in order, and the state of both parts at once, as long
    as no part has one or two bytes (see [hevc_short_buffer_panics]). *)
Theorem hevc_parse_incremental p c :
  (length (buffer p) = 0 ∨ 3 ≤ length (buffer p))%nat → (3 ≤ length c)%nat →
  ∃ fs p1 fs2 p2, get_frames p = Ret (fs, p1) ∧ get_frames (add_data c p1) = Ret (fs2, p2)
    ∧ get_frames (add_data c p) = Ret (fs ++ fs2, p2).
Proof.
  intros Hl Hc. assert (∀ q, 3 ≤ length (buffer (add_data c q)))%nat as H3.
  { intros q. cbn [buffer add_data set_buffer]. rewrite length_app. lia. }
  unfold get_frames in *.
  destruct (frames_loop_total (S (length (buffer p))) p Hl) as (fs & p1 & H1 & _); [lia|].
  destruct (frames_loop_total (S (length (buffer (add_data c p1)))) (add_data c p1)) as (fs2 & p2 & H2 & _);
    [by right|lia|].
  destruct (frames_loop_total (S (length (buffer (add_data c p)))) (add_data c p)) as (fs3 & p3 & H4 & _);
    [by right|lia|].
  exists fs, p1, fs2, p2. split_and!; [done..|].
  pose proof (frames_loop_app _ _ _ _ _ _ _ _ H1 H2) as H5.
  set (n := (S (length (buffer p)) + S (length (buffer (add_data c p1))))%nat) in *.
  pose proof (frames_loop_more _ (n + S (length (buffer (add_data c p)))) _ _ H4 ltac:(lia)) as H6.
  pose proof (frames_loop_more _ (n + S (length (buffer (add_data c p)))) _ _ H5 ltac:(lia)) as H7.
  rewrite H6 in H7. by injection H7 as -> ->.
Qed.

(** on a buffer of one or two bytes the scan panics: [len() - 3] underflows. *)
Theorem hevc_short_buffer_panics p :
  (0 < length (buffer p) < 3)%nat → get_frames p = Panic ∧ next_nal_unit p = Panic.
Proof.
  intros Hl. assert (next_nal_unit p = Panic) as Hn.
  { unfold next_nal_unit, find_next_start_code. destruct (buffer p) as [|x b] eqn:Hb; [simpl in Hl; lia|].
    by rewrite (proj2 (Nat.ltb_lt _ _)) by lia. }
  split; [|done]. unfold get_frames. cbn [frames_loop]. by rewrite Hn.
Qed.

(** ** The encoder's side: units without start codes, each after a start code *)
Definition clean (n : list Z) : Prop := ∀ i, (i + 2 < length n)%nat →
  ¬ (at_ n i = 0 ∧ at_ n (i + 1) = 0 ∧ at_ n (i + 2) = 1).
Definition nal_ok (n : list Z) : Prop := n ≠ [] ∧ clean n.
Definition encode (ns : list (list Z)) : list Z := concat ((λ n, [0; 0; 0; 1] ++ n) <$> ns).

Definition unit_type (n : list Z) : Z := Z.land (Z.shiftr (at_ n 0) 1) 63.
Definition unit_of (n : list Z) : NalUnit :=
  mkNal (unit_type n) n ((16 <=? unit_type n) && (unit_type n <=? 21)).

Lemma at_app_r b c i : at_ (b ++ c) (length b + i) = at_ c i.
Proof. unfold at_. by rewrite app_nth2_plus. Qed.

(** Inside a unit there is no start code, even across its end. *)
Lemma no_start_inside n m k :
  clean n → (k < length n)%nat → is_start_code ([0; 0; 0; 1] ++ n ++ [0; 0; 0; 1] ++ m) (4 + k) = false.
Proof.
  intros Hc Hk. set (t := n ++ [0; 0; 0; 1] ++ m).
  assert (∀ j, at_ ([0; 0; 0; 1] ++ t) (4 + j) = at_ t j) as Hat by done.
  assert (∀ j, (length n ≤ j < length n + 3)%nat → at_ t j = 0) as Hz.
  { intros j Hj. replace j with (length n + (j - length n))%nat by lia. unfold t. rewrite at_app_r.
    assert (j - length n < 3)%nat as Hd by lia. revert Hd. generalize (j - length n)%nat.
    intros [|[|[|d]]] ?; try done. lia. }
  assert (∀ j, (j < length n)%nat → at_ t j = at_ n j) as Hn by (intros; by apply at_app).
  unfold is_start_code. rewrite !Hat, <-!(Nat.add_assoc 4 k), !Hat.
  apply orb_false_iff. split; apply not_true_is_false; rewrite !andb_true_iff, !Z.eqb_eq.
  - intros [[H0 H1] H2]. destruct (decide (k + 2 < length n)%nat).
    + apply (Hc k); [done|]. rewrite !Hn in * by lia. done.
    + rewrite Hz in H2 by lia. done.
  - intros [[[[_ H0] H1] H2] H3]. destruct (decide (k + 3 < length n)%nat).
    + apply (Hc (k + 1)%nat); [lia|]. rewrite !Hn in * by lia.
      replace (k + 1 + 1)%nat with (k + 2)%nat by lia. replace (k + 1 + 2)%nat with (k + 3)%nat by lia. done.
    + rewrite Hz in H3 by lia. done.
Qed.

Lemma next_nal_encoded n m p :
  nal_ok n → m ≠ [] → buffer p = [0; 0; 0; 1] ++ n ++ [0; 0; 0; 1] ++ m →
  next_nal_unit p = Ret (Some (unit_of n),
    set_buffer ([0; 0; 0; 1] ++ m) (store_parameter_set (unit_type n) ([0; 0; 0; 1] ++ n) p)).
Proof.
  intros [Hne Hcl] Hm Hb. unfold next_nal_unit. rewrite Hb.
  assert (0 < length n)%nat as Hln by (destruct n; simpl; [done|lia]).
  assert (0 < length m)%nat as Hlm by (destruct m; simpl; [done|lia]).
  set (b := [0; 0; 0; 1] ++ n ++ [0; 0; 0; 1] ++ m).
  assert (length b = 8 + length n + length m)%nat as Hlb by (unfold b; rewrite !length_app; simpl; lia).
  assert (∀ i, find_next_start_code b i = Ret (scan (length b - 3 - i) b i)) as Hf.
  { intros i. unfold find_next_start_code. unfold b at 1. cbn [app].
    by rewrite (proj2 (Nat.ltb_ge _ _)) by lia. }
  rewrite Hf, (scan_intro _ _ _ 0); [|lia| |lia].
  2: { unfold is_start_code. rewrite (proj2 (Nat.ltb_lt 0 (length b - 4))) by lia. done. }
  ret_step. rewrite (proj2 (Nat.ltb_lt (0 + 3) (length b))) by lia.
  change (true && (at_ b (0 + 2) =? 0) && (at_ b (0 + 3) =? 1)) with true. cbv iota zeta.
  rewrite Hf, (scan_intro _ _ _ (4 + length n)); [|lia| |].
  2: { unfold is_start_code. rewrite (proj2 (Nat.ltb_lt (4 + length n) (length b - 4))) by lia.
       assert (∀ j, at_ b (4 + length n + j) = at_ ([0; 0; 0; 1] ++ m) j) as Hat.
       { intros j. unfold b. rewrite (assoc_L (++) [0; 0; 0; 1] n).
         replace (4 + length n + j)%nat with (length ([0; 0; 0; 1]%Z ++ n) + j)%nat
           by (rewrite length_app; simpl; lia).
         apply at_app_r. }
       pose proof (Hat 0%nat) as H0. rewrite Nat.add_0_r in H0. rewrite H0, !Hat. done. }
  2: { intros k Hk. replace k with (4 + (k - 4))%nat by lia. apply no_start_inside; [done|lia]. }
  ret_step. rewrite (proj2 (Nat.leb_gt _ _)) by lia.
  assert (at_ b (0 + 4) = at_ n 0) as ->.
  { unfold b. change (0 + 4)%nat with (length [0; 0; 0; 1] + 0)%nat. rewrite at_app_r. by apply at_app. }
  assert (slice b (0 + 4) (4 + length n) = n) as ->.
  { unfold slice, b. replace (4 + length n - (0 + 4))%nat with (length n) by lia. simpl. apply take_app_length. }
  assert (slice b 0 (4 + length n) = [0; 0; 0; 1] ++ n) as ->.
  { unfold slice, b. rewrite drop_0, Nat.sub_0_r. simpl. by rewrite take_app_length. }
  assert (drop (4 + length n) b = [0; 0; 0; 1] ++ m) as ->.
  { unfold b. rewrite (assoc_L (++) [0; 0; 0; 1] n).
    replace (4 + length n)%nat with (length ([0; 0; 0; 1]%Z ++ n)) by (rewrite length_app; simpl; lia).
    apply drop_app_length. }
  done.
Qed.

(** The last unit waits for the start code of the next one. *)
Lemma next_nal_waits n p : nal_ok n → buffer p = [0; 0; 0; 1] ++ n → next_nal_unit p = Ret (None, p).
Proof.
  intros [Hne Hcl] Hb. unfold next_nal_unit. rewrite Hb.
  assert (0 < length n)%nat as Hln by (destruct n; simpl; [done|lia]).
  set (b := [0; 0; 0; 1] ++ n). assert (length b = 4 + length n)%nat as Hlb by done.
  assert (∀ i, find_next_start_code b i = Ret (scan (length b - 3 - i) b i)) as Hf.
  { intros i. unfold find_next_start_code. unfold b at 1. cbn [app].
    by rewrite (proj2 (Nat.ltb_ge _ _)) by lia. }
  rewrite Hf, (scan_intro _ _ _ 0); [|lia| |lia].
  2: { unfold is_start_code. rewrite (proj2 (Nat.ltb_lt 0 (length b - 4))) by lia. done. }
  ret_step. rewrite (proj2 (Nat.ltb_lt (0 + 3) (length b))) by lia.
  change (true && (at_ b (0 + 2) =? 0) && (at_ b (0 + 3) =? 1)) with true. cbv iota.
  rewrite Hf. destruct (scan (length b - 3 - (0 + 4)) b (0 + 4)) as [j|] eqn:Hs; [|done].
  apply scan_Some in Hs as (Hj & Hs & _). exfalso.
  apply (is_start_code_app_true b ([0; 0; 0; 1] ++ [])) in Hs; [|lia].
  unfold b in Hs. rewrite <-(assoc_L (++)) in Hs.
  replace j with (4 + (j - 4))%nat in Hs by lia. rewrite no_start_inside in Hs; [done|done|lia].
Qed.

(** ** Grouping units into pictures *)
Definition is_vcl (n : list Z) : bool := unit_type n <=? 31.

Fixpoint group (cur : list (list Z)) (has : bool) (ns : list (list Z))
    : list (list (list Z)) * (list (list Z) * bool) :=
  match ns with
  | [] => ([], (cur, has))
  | n :: ns =>
      if is_vcl n && has then (cur :: (group [n] true ns).1, (group [n] true ns).2)
      else group (cur ++ [n]) (has || is_vcl n) ns
  end.

Lemma group_concat ns : ∀ cur has, concat (group cur has ns).1 ++ (group cur has ns).2.1 = cur ++ ns.
Proof.
  induction ns as [|n ns IH]; intros cur has; cbn [group]; [by rewrite app_nil_r|].
  destruct (is_vcl n && has); cbn [fst snd concat].
  - rewrite <-(assoc_L (++)), IH. done.
  - rewrite IH. by rewrite <-(assoc_L (++)).
Qed.

Definition pictures (g : list (list Z)) : nat := length (filter (λ n, is_vcl n = true) g).

Lemma group_one_picture ns : ∀ (cur : list (list Z)) (has : bool),
  pictures cur = (if has then 1 else 0)%nat →
  Forall (λ g, pictures g = 1%nat) (group cur has ns).1
  ∧ pictures (group cur has ns).2.1 = (if (group cur has ns).2.2 then 1 else 0)%nat.
Proof.
  induction ns as [|n ns IH]; intros cur has Hc; cbn [group]; [by split; [constructor|]|].
  destruct (is_vcl n) eqn:Hv, has; cbn [andb orb fst snd].
  - assert (pictures [n] = 1%nat) as H1 by (unfold pictures; by rewrite filter_cons_True).
    destruct (IH [n] true H1) as [Hf Hl]. split; [|done]. by constructor.
  - apply IH. unfold pictures in *. rewrite filter_app, filter_cons_True, length_app, Hc by done. done.
  - apply IH. unfold pictures in *. rewrite filter_app, filter_cons_False, length_app, Hc by (rewrite Hv; done). done.
  - apply IH. unfold pictures in *. rewrite filter_app, filter_cons_False, length_app, Hc by (rewrite Hv; done). done.
Qed.

Lemma encode_app a b : encode (a ++ b) = encode a ++ encode b.
Proof. unfold encode. by rewrite fmap_app, concat_app. Qed.
Lemma encode_one n : encode [n] = [0; 0; 0; 1] ++ n.
Proof. unfold encode. simpl. by rewrite app_nil_r. Qed.
Lemma encode_nil cur : encode cur = [] → cur = [].
Proof. by destruct cur. Qed.

Lemma store_parameter_set_pending ty d p b :
  pending_frame (set_buffer b (store_parameter_set ty d p)) = pending_frame p
  ∧ pending_has_vcl (set_buffer b (store_parameter_set ty d p)) = pending_has_vcl p.
Proof. unfold store_parameter_set. repeat case_match; done. Qed.

Lemma frame_step_group n p cur has :
  pending_frame p = encode cur → pending_has_vcl p = has → (has = true → cur ≠ []) →
  let r := if is_vcl n && has then ([cur], [n]) else ([], cur ++ [n]) in
  (frame_step (unit_of n) p).1 = encode <$> r.1
  ∧ pending_frame (frame_step (unit_of n) p).2 = encode r.2
  ∧ pending_has_vcl (frame_step (unit_of n) p).2 = has || is_vcl n.
Proof.
  intros Hp Hh Hne. unfold frame_step. rewrite Hp, Hh. change (nal_type (unit_of n) <=? 31) with (is_vcl n).
  destruct (is_vcl n), has; cbn [andb orb fst snd].
  - assert (encode cur ≠ []) by (intros ?%encode_nil; by apply Hne).
    rewrite !decide_False by done. cbn [pending_frame pending_has_vcl app fmap list_fmap].
    split_and!; [done|by rewrite encode_one|done].
  - split_and!; [done|by rewrite encode_app, encode_one|done].
  - split_and!; [done|by rewrite encode_app, encode_one|done].
  - split_and!; [done|by rewrite encode_app, encode_one|done].
Qed.

Lemma frames_loop_encoded lst fuel : ∀ ns p cur has,
  Forall nal_ok ns → nal_ok lst → buffer p = encode (ns ++ [lst]) → pending_frame p = encode cur →
  pending_has_vcl p = has → (has = true → cur ≠ []) → (length ns < fuel)%nat →
  ∃ p', frames_loop fuel p = Ret (encode <$> (group cur has ns).1, p')
    ∧ pending_frame p' = encode (group cur has ns).2.1 ∧ pending_has_vcl p' = (group cur has ns).2.2
    ∧ buffer p' = encode [lst].
Proof.
  induction fuel as [|fuel IH]; intros ns p cur has Hok Hl Hb Hpf Hh Hne Hf; [lia|]. cbn [frames_loop].
  destruct ns as [|n ns].
  { rewrite (next_nal_waits lst); [|done|by rewrite Hb, <-encode_one]. by exists p. }
  apply Forall_cons in Hok as [Hn Hok].
  assert (∃ m, m ≠ [] ∧ encode (ns ++ [lst]) = [0; 0; 0; 1] ++ m) as (m & Hm & Hem).
  { destruct ns as [|n2 ns]; [exists lst; split; [apply Hl|apply encode_one]|].
    apply Forall_cons in Hok as [[Hn2 _] _]. exists (n2 ++ encode (ns ++ [lst])).
    split; [by destruct n2|]. unfold encode. simpl. done. }
  rewrite (next_nal_encoded n m);
    [|done|done|rewrite Hb; change ((n :: ns) ++ [lst]) with ([n] ++ (ns ++ [lst]));
      by rewrite (encode_app [n]), encode_one, Hem, <-(assoc_L (++))].
  ret_step. set (p1 := set_buffer _ _).
  destruct (store_parameter_set_pending (unit_type n) ([0; 0; 0; 1] ++ n) p ([0; 0; 0; 1] ++ m)) as [Hp1 Hh1].
  rewrite Hpf in Hp1. rewrite Hh in Hh1.
  destruct (frame_step_group n p1 cur has Hp1 Hh1 Hne) as (Ho & Hp2 & Hh2).
  pose proof (frame_step_buffer (unit_of n) p1) as Hb2.
  destruct (frame_step (unit_of n) p1) as [out p2]. cbn [fst snd] in *. cbn [group].
  destruct (is_vcl n && has) eqn:Hc; cbn [fst snd] in *.
  - assert (has || is_vcl n = true) as Hv by (by apply andb_prop in Hc as [_ ->]). rewrite Hv in Hh2.
    destruct (IH ns p2 [n] true) as (p' & -> & ? & ? & ?); [done|done|by rewrite Hb2, Hem|done|done|done|simpl in Hf; lia|].
    exists p'. rewrite Ho. done.
  - destruct (IH ns p2 (cur ++ [n]) (has || is_vcl n)) as (p' & -> & ? & ? & ?);
      [done|done|by rewrite Hb2, Hem|done|done|by intros _ [_ ?]%app_eq_nil|simpl in Hf; lia|].
    exists p'. rewrite Ho. done.
Qed.

(** given the units an encoder wrote, all but the last are gathered, in
    order and without loss, into frames that hold exactly one picture each, plus
    the pending frame; the last unit stays in the buffer, since its end is only
    known from the next start code. *)
Theorem hevc_frames_of_units ns lst :
  Forall nal_ok ns → nal_ok lst →
  ∃ gs cur p', get_frames (add_data (encode (ns ++ [lst])) new) = Ret (encode <$> gs, p')
    ∧ ns = concat gs ++ cur
    ∧ Forall (λ g, pictures g = 1%nat) gs
    ∧ pending_frame p' = encode cur ∧ buffer p' = encode [lst]
    ∧ (flush_final_frame p').1 = (if Nat.eqb (pictures cur) 1 then Some (encode cur) else None).
Proof.
  intros Hok Hl. unfold get_frames.
  destruct (frames_loop_encoded lst (S (length (buffer (add_data (encode (ns ++ [lst])) new)))) ns
    (add_data (encode (ns ++ [lst])) new) [] false) as (p' & Hr & Hp & Hh & Hb); try done.
  { cbn [buffer add_data set_buffer new app]. rewrite encode_app, length_app.
    assert (length ns ≤ length (encode ns))%nat; [|lia]. clear. unfold encode.
    induction ns as [|n ns IH]; [done|]. rewrite fmap_cons. cbn [concat]. rewrite length_app.
    cbn [length app] in *. lia. }
  destruct (group_one_picture ns [] false eq_refl) as [Hone Hlast].
  exists (group [] false ns).1, (group [] false ns).2.1, p'. split_and!; [exact Hr|by rewrite group_concat|done..|].
  unfold flush_final_frame. cbn [fst]. rewrite Hp, Hh, Hlast.
  destruct (group [] false ns).2.2; cbn [andb Nat.eqb]; [|done].
  rewrite bool_decide_false; [done|]. intros He%encode_nil. rewrite He in Hlast. done.
Qed.

Lemma hevc_parse_incremental_witness :
  ∃ fs p1 fs2 p2,
    get_frames (set_buffer [0; 0; 0; 1; 2; 9; 0; 0; 0; 1; 2] new) = Ret (fs, p1)
    ∧ get_frames (add_data [8; 0; 0; 0; 1; 2; 7] p1) = Ret (fs2, p2)
    ∧ get_frames (add_data [8; 0; 0; 0; 1; 2; 7] (set_buffer [0; 0; 0; 1; 2; 9; 0; 0; 0; 1; 2] new))
      = Ret (fs ++ fs2, p2).
Proof.
  apply (hevc_parse_incremental (set_buffer [0; 0; 0; 1; 2; 9; 0; 0; 0; 1; 2] new) [8; 0; 0; 0; 1; 2; 7]);
    simpl; lia.
Defined.

Lemma hevc_short_buffer_panics_witness :
  get_frames (add_data [0] new) = Panic ∧ next_nal_unit (add_data [0] new) = Panic.
Proof. apply (hevc_short_buffer_panics (add_data [0] new)). simpl. lia. Defined.

Lemma hevc_frames_of_units_witness :
  ∃ gs cur p', get_frames (add_data (encode ([[64; 1]; [2; 9]; [2; 8]] ++ [[2; 7]])) new) = Ret (encode <$> gs, p')
    ∧ [[64; 1]; [2; 9]; [2; 8]] = concat gs ++ cur
    ∧ Forall (λ g, pictures g = 1%nat) gs
    ∧ pending_frame p' = encode cur ∧ buffer p' = encode [[2; 7]]
    ∧ (flush_final_frame p').1 = (if Nat.eqb (pictures cur) 1 then Some (encode cur) else None).
Proof.
  assert (∀ a b, nal_ok [a; b]) as Hok.
  { intros a b. split; [done|]. intros i Hi. simpl in Hi. lia. }
  apply (hevc_frames_of_units [[64; 1]; [2; 9]; [2; 8]] [2; 7]).
  - repeat constructor; apply Hok.
  - apply Hok.
Defined.
Example hevc_frames_example :
  match get_frames (add_data (encode [[64; 1]; [2; 9]; [2; 8]; [2; 7]]) new) with
  | Ret (fs, p) => Some (fs, (flush_final_frame p).1, buffer p)
  | _ => None
  end = Some ([encode [[64; 1]; [2; 9]]], Some (encode [[2; 8]]), encode [[2; 7]]).
Proof. reflexivity. Qed.
End Hevc.
