(* ===== verification/F32.v ===== *)
(** * Single-precision floating point

    [f32] arithmetic as the IEEE 754 operations of the Standard Library's
    [SpecFloat] at precision 24 and maximal exponent 128, with the conversions
    that the program uses. *)

From Stdlib Require Import SpecFloat.
From S2P Require Import Prelude.

Definition f32 := spec_float.

Module F32.
Definition prec : Z := 24.
Definition emax : Z := 128.

Definition add : f32 → f32 → f32 := SFadd prec emax.
Definition sub : f32 → f32 → f32 := SFsub prec emax.
Definition mul : f32 → f32 → f32 := SFmul prec emax.
Definition div : f32 → f32 → f32 := SFdiv prec emax.
Definition abs : f32 → f32 := SFabs.
Definition zero : f32 := S754_zero false.

(** [z as f32]: the nearest float, ties to even. *)
Definition of_Z (z : Z) : f32 := binary_normalize prec emax z 0 false.

(** [f32::max]: the other operand when one is NaN. *)
Definition max (x y : f32) : f32 :=
  match x, y with
  | S754_nan, _ => y
  | _, S754_nan => x
  | _, _ => match SFcompare x y with Some Lt => y | _ => x end
  end.

(** [x.ceil() as usize]: the conversion saturates, and NaN is 0. *)
Definition ceil_usize (x : f32) : Z :=
  match x with
  | S754_zero _ | S754_nan => 0
  | S754_infinity s => if s then 0 else U64_MAX
  | S754_finite true _ _ => 0
  | S754_finite false m e =>
      Z.min U64_MAX (if 0 <=? e then Z.pos m * 2 ^ e else - ((- Z.pos m) / 2 ^ (- e)))
  end.

(** The 32 bits of a float; a NaN has the bits of the default one. *)
Definition to_bits (x : f32) : Z :=
  let sgn (s : bool) := if s then 2 ^ 31 else 0 in
  match x with
  | S754_zero s => sgn s
  | S754_infinity s => sgn s + 255 * 2 ^ 23
  | S754_nan => 255 * 2 ^ 23 + 2 ^ 22
  | S754_finite s m e =>
      if Z.pos m <? 2 ^ 23 then sgn s + Z.pos m
      else sgn s + (e + 150) * 2 ^ 23 + (Z.pos m - 2 ^ 23)
  end.
Definition of_bits (b : Z) : f32 :=
  let s := 1 <=? b / 2 ^ 31 in
  let e := (b / 2 ^ 23) `mod` 256 in
  let m := b `mod` 2 ^ 23 in
  if e =? 255 then (if m =? 0 then S754_infinity s else S754_nan)
  else if e =? 0 then match m with Z.pos p => S754_finite s p (-149) | _ => S754_zero s end
  else match m + 2 ^ 23 with Z.pos p => S754_finite s p (e - 150) | _ => S754_zero s end.

(** [Duration::as_secs_f32], of a duration in nanoseconds. *)
Definition of_nanos (n : Z) : f32 :=
  add (of_Z (n / 10 ^ 9)) (div (of_Z (n `mod` 10 ^ 9)) (of_Z (10 ^ 9))).

(** [Duration::from_secs_f32] of a non-negative float: the nearest number of
    nanoseconds, ties to even; a panic when it is not finite or too large. *)
Definition round_half_even (num den : Z) : Z :=
  let q := num / den in
  let r := num `mod` den in
  if 2 * r <? den then q else if den <? 2 * r then q + 1 else if Z.even q then q else q + 1.
Definition to_nanos (x : f32) : outcome Z :=
  match x with
  | S754_zero _ => Ret 0
  | S754_finite false m e =>
      let n := if 0 <=? e then Z.pos m * 2 ^ e * 10 ^ 9
               else round_half_even (Z.pos m * 10 ^ 9) (2 ^ (- e)) in
      if 2 ^ 64 * 10 ^ 9 <=? n then Panic else Ret n
  | _ => Panic
  end.

(** [(x as f64 * 1e6).round() as i64]: the widening is exact, the rounding is half
    away from zero, the conversion saturates, and NaN is 0. *)
Definition to_f64 (x : f32) : spec_float :=
  match x with
  | S754_finite s m e => binary_normalize 53 1024 (cond_Zopp s (Z.pos m)) e s
  | _ => x
  end.
Definition I64_MAX : Z := 2 ^ 63 - 1.
Definition round_i64 (x : spec_float) : Z :=
  match x with
  | S754_zero _ | S754_nan => 0
  | S754_infinity s => if s then - 2 ^ 63 else I64_MAX
  | S754_finite s m e =>
      let n := if 0 <=? e then Z.pos m * 2 ^ e
               else (2 * Z.pos m + 2 ^ (- e)) / (2 * 2 ^ (- e)) in
      Z.max (- 2 ^ 63) (Z.min I64_MAX (cond_Zopp s n))
  end.
Definition as_micros_i64 (x : f32) : Z :=
  round_i64 (SFmul 53 1024 (to_f64 x) (binary_normalize 53 1024 (10 ^ 6) 0 false)).

(** The floats that have a representation: canonical mantissas and exponents. *)
Definition valid (x : f32) : bool := SpecFloat.valid_binary prec emax x.

Example f32_bits : to_bits (of_nanos 1500000000) = 0x3fc00000 ∧ of_bits 0x3fc00000 = of_nanos 1500000000.
Proof. split; vm_compute; reflexivity. Qed.
Example f32_nanos : to_nanos (of_nanos 1500000000) = Ret 1500000000.
Proof. vm_compute. reflexivity. Qed.
Example f32_ceil : ceil_usize (div (of_Z 100001) (of_Z 1000)) = 101.
Proof. vm_compute. reflexivity. Qed.
Example f32_micros : as_micros_i64 (of_nanos 1500000000) = 1500000.
Proof. vm_compute. reflexivity. Qed.
End F32.

(** The number of binary digits of a mantissa. *)
Lemma digits2_pos_bound m : 2 ^ (Z.pos (digits2_pos m) - 1) ≤ Z.pos m < 2 ^ Z.pos (digits2_pos m).
Proof.
  induction m as [m IH|m IH|]; cbn [digits2_pos]; [| |by simpl].
  all: rewrite Pos2Z.inj_succ; replace (Z.succ (Z.pos (digits2_pos m)) - 1) with (Z.succ (Z.pos (digits2_pos m) - 1)) by lia;
    rewrite !Z.pow_succ_r by lia; lia.
Qed.
