(* ===== verification/F32Facts.v ===== *)
(** * Division of integers in [f32]

    The sender counts the shards of a packet with [(data_size as f32 / max_shard_data_size as f32).ceil()].
    Module [F32Facts]: for operands below [2^24], which [f32] represents, the quotient is the float
    nearest to the true one, and its ceiling is the ceiling of the true quotient. *)

From Stdlib Require Import SpecFloat.
From S2P Require Import Prelude F32.

Module F32Facts.
#[local] Abbreviation prec := F32.prec.
#[local] Abbreviation emax := F32.emax.

(** [2^(d-1) ≤ m < 2^d] *)
Lemma digits_unique m d : 0 < d → 2 ^ (d - 1) ≤ Z.pos m < 2 ^ d → Z.pos (digits2_pos m) = d.
Proof.
  intros Hd [H1 H2]. pose proof (digits2_pos_bound m) as [H3 H4].
  assert (d - 1 < Z.pos (digits2_pos m)) by (apply (Z.pow_lt_mono_r_iff 2); lia).
  assert (Z.pos (digits2_pos m) - 1 < d) by (apply (Z.pow_lt_mono_r_iff 2); lia). lia.
Qed.
Lemma fexp_digits e : -125 ≤ e → fexp prec emax e = e - 24.
Proof. unfold fexp, emin, F32.prec, F32.emax. lia. Qed.

(** ** What the operations give is a float of the format *)
Lemma shr_1_half x : 0 ≤ shr_m x → shr_m (shr_1 x) = shr_m x / 2.
Proof.
  destruct x as [m r s]. cbn [shr_m]. intros Hm. destruct m as [|[p|p|]|p]; try done; try lia; cbn [shr_1 shr_m].
  - apply (Z.div_unique _ _ _ 1); lia.
  - apply (Z.div_unique _ _ _ 0); lia.
Qed.
Lemma iter_shr_nonneg p : ∀ x, 0 ≤ shr_m x →
  0 ≤ shr_m (SpecFloat.iter_pos shr_1 p x) ∧ shr_m (SpecFloat.iter_pos shr_1 p x) = shr_m x / 2 ^ Z.pos p.
Proof.
  assert (∀ x, 0 ≤ shr_m x → 0 ≤ shr_m (shr_1 x)) as H2 by (intros; rewrite shr_1_half by done; apply Z.div_pos; lia).
  induction p as [p IH|p IH|]; intros x Hx; cbn [SpecFloat.iter_pos]; [| |by split; [apply H2|apply shr_1_half]].
  - destruct (IH (shr_1 x)) as [P1 E1]; [by apply H2|]. destruct (IH (SpecFloat.iter_pos shr_1 p (shr_1 x)) P1) as [P2 E2]. split; [done|].
    rewrite E2, E1, shr_1_half, !Z.div_div by lia. f_equal.
    replace (Z.pos p~1) with (1 + Z.pos p + Z.pos p) by lia. rewrite !Z.pow_add_r by lia. lia.
  - destruct (IH x Hx) as [P1 E1]. destruct (IH (SpecFloat.iter_pos shr_1 p x) P1) as [P2 E2]. split; [done|].
    rewrite E2, E1, Z.div_div by lia. f_equal. replace (Z.pos p~0) with (Z.pos p + Z.pos p) by lia. rewrite Z.pow_add_r by lia. lia.
Qed.
Lemma iter_shr p x : 0 ≤ shr_m x → shr_m (SpecFloat.iter_pos shr_1 p x) = shr_m x / 2 ^ Z.pos p.
Proof. intros Hx. by apply iter_shr_nonneg. Qed.
Lemma digits_pos z : 0 < z → 2 ^ (Zdigits2 z - 1) ≤ z < 2 ^ Zdigits2 z ∧ 0 < Zdigits2 z.
Proof. destruct z as [|p|p]; try lia. intros _. split; [apply digits2_pos_bound|cbn; lia]. Qed.
Lemma Zdigits_unique z d : 0 < d → 2 ^ (d - 1) ≤ z < 2 ^ d → Zdigits2 z = d.
Proof.
  intros Hd Hz. assert (0 < 2 ^ (d - 1)) by lia. destruct z as [|p|p]; try lia. by apply digits_unique.
Qed.
Lemma digits_shift z p : 0 < z → 0 ≤ p < Zdigits2 z → Zdigits2 (z / 2 ^ p) = Zdigits2 z - p.
Proof.
  intros Hz Hp. destruct (digits_pos z Hz) as [[H1 H2] H3]. apply Zdigits_unique; [lia|]. assert (0 < 2 ^ p) by lia.
  split; [apply Z.div_le_lower_bound|apply Z.div_lt_upper_bound]; try done; rewrite <-Z.pow_add_r by lia.
  - by replace (p + _) with (Zdigits2 z - 1) by lia.
  - by replace (p + _) with (Zdigits2 z) by lia.
Qed.
Lemma digits_mono a b : 0 < a ≤ b → Zdigits2 a ≤ Zdigits2 b.
Proof.
  intros H. destruct (digits_pos a) as [[Ha _] _]; [lia|]. destruct (digits_pos b) as [[_ Hb] Hb0]; [lia|].
  assert (Zdigits2 a - 1 < Zdigits2 b); [|lia]. apply (Z.pow_lt_mono_r_iff 2); lia.
Qed.

Lemma iter_xO p d : Z.pos (Pos.iter xO p d) = Z.pos p * 2 ^ Z.pos d.
Proof.
  induction d as [|d IH] using Pos.peano_ind; [cbn; lia|].
  rewrite Pos.iter_succ, Pos2Z.inj_succ, Z.pow_succ_r by lia. change (Z.pos (Pos.iter xO p d)~0) with (2 * Z.pos (Pos.iter xO p d)). lia.
Qed.

Section valid.
Context (p em : Z) (p_pos : 0 < p) (em_big : 3 < em).
#[local] Abbreviation fexp := (fexp p em).
Lemma fexp_mono a b : a ≤ b → fexp a ≤ fexp b ≤ fexp a + (b - a).
Proof. unfold SpecFloat.fexp. lia. Qed.
(** The mantissa after the shift, with the canonical exponent unless it is zero. *)
Lemma shr_fexp_canonical m e l : 0 ≤ m → e ≤ fexp (Zdigits2 m + e) →
  let x := shr_fexp p em m e l in
  0 ≤ shr_m x.1 ∧ (0 < shr_m x.1 → fexp (Zdigits2 (shr_m x.1) + x.2) = x.2) ∧ (shr_m x.1 = 0 → x.2 = emin p em).
Proof.
  intros Hm He. unfold shr_fexp, shr. remember (fexp (Zdigits2 m + e) - e) as n eqn:En.
  assert (shr_m (shr_record_of_loc m l) = m) as Er by (by destruct l as [|[]]).
  destruct n as [|q|q]; cbn [fst snd]; [| |lia].
  - rewrite Er. split_and!; [done|intros _; lia|]. intros ->. change (Zdigits2 0) with 0 in *. unfold SpecFloat.fexp in *. lia.
  - rewrite iter_shr, Er by (by rewrite Er). assert (0 ≤ m / 2 ^ Z.pos q) by (apply Z.div_pos; lia).
    destruct (decide (m = 0)) as [->|Hnz].
    { rewrite Z.div_0_l in * by lia. split_and!; [lia|lia|intros _]. change (Zdigits2 0) with 0 in *. unfold SpecFloat.fexp in *. lia. }
    destruct (digits_pos m) as [Hd Hd0]; [lia|]. destruct (decide (Z.pos q < Zdigits2 m)).
    + rewrite digits_shift by lia. split_and!; [done| |].
      * intros _. replace (Zdigits2 m - Z.pos q + (e + Z.pos q)) with (Zdigits2 m + e) by lia. lia.
      * intros E. exfalso. apply Z.div_small_iff in E; [|lia]. assert (2 ^ Z.pos q ≤ 2 ^ (Zdigits2 m - 1)) by (apply Z.pow_le_mono_r; lia). lia.
    + assert (m / 2 ^ Z.pos q = 0) as ->.
      { apply Z.div_small. assert (2 ^ Zdigits2 m ≤ 2 ^ Z.pos q) by (apply Z.pow_le_mono_r; lia). lia. }
      split_and!; [lia|lia|intros _]. unfold SpecFloat.fexp in *. lia.
Qed.
Lemma round_aux_valid sx m e l : 0 ≤ m → e ≤ fexp (Zdigits2 m + e) → valid_binary p em (binary_round_aux p em sx m e l) = true.
Proof.
  intros Hm He. unfold binary_round_aux. destruct (shr_fexp_canonical m e l Hm He) as (P1 & C1 & Z1).
  destruct (shr_fexp p em m e l) as [x e1]. cbn [fst snd] in *.
  set (m1 := round_nearest_even (shr_m x) (loc_of_shr_record x)).
  assert (shr_m x ≤ m1 ≤ shr_m x + 1) as Hm1 by (unfold m1, round_nearest_even; repeat case_match; lia).
  assert (e1 ≤ fexp (Zdigits2 m1 + e1)) as He1.
  { destruct (decide (0 < shr_m x)) as [Hpos|Hz].
    - rewrite <-(C1 Hpos) at 1. apply fexp_mono. assert (Zdigits2 (shr_m x) ≤ Zdigits2 m1) by (apply digits_mono; lia). lia.
    - rewrite (Z1 ltac:(lia)). unfold SpecFloat.fexp. lia. }
  destruct (shr_fexp_canonical m1 e1 loc_Exact) as (P2 & C2 & _); [lia|done|].
  destruct (shr_fexp p em m1 e1 loc_Exact) as [y e2]. cbn [fst snd] in *.
  destruct (shr_m y) as [|q|q] eqn:Ey; [done| |done]. destruct (Z.leb_spec e2 (em - p)); [|done].
  cbn. unfold bounded, canonical_mantissa. rewrite (proj2 (Z.leb_le _ _)) by done. rewrite andb_true_r. apply Z.eqb_eq, (C2 ltac:(lia)).
Qed.
Lemma round_valid sx m e : valid_binary p em (binary_round p em sx m e) = true.
Proof.
  unfold binary_round, shl_align. set (f := fexp (Z.pos (digits2_pos m) + e)).
  destruct (f - e) as [|d|d] eqn:Ed; [apply round_aux_valid; [lia|cbn [Zdigits2]; lia]..|].
  apply round_aux_valid; [lia|]. cbn [Zdigits2].
  assert (Z.pos (digits2_pos (Pos.iter xO m d)) = Z.pos (digits2_pos m) + Z.pos d) as ->; [|replace (_ + f) with (Z.pos (digits2_pos m) + e) by lia; lia].
  pose proof (digits2_pos_bound m) as [H1 H2]. apply digits_unique; [lia|]. rewrite iter_xO.
  replace (Z.pos (digits2_pos m) + Z.pos d - 1) with (Z.pos (digits2_pos m) - 1 + Z.pos d) by lia. rewrite !Z.pow_add_r by lia. nia.
Qed.
Lemma normalize_valid z e s : valid_binary p em (binary_normalize p em z e s) = true.
Proof. destruct z as [|m|m]; [done|apply round_valid..]. Qed.
Lemma add_valid x y : valid_binary p em x = true → valid_binary p em y = true → valid_binary p em (SFadd p em x y) = true.
Proof. intros Hx Hy. destruct x as [[]|[]| |], y as [[]|[]| |]; cbn; try done. apply normalize_valid. Qed.
Lemma div_valid x y : valid_binary p em x = true → valid_binary p em y = true → valid_binary p em (SFdiv p em x y) = true.
Proof.
  intros Hx Hy. destruct x as [| | |sx m1 e1], y as [| | |sy m2 e2]; cbn -[SFdiv_core_binary]; try done.
  unfold SFdiv_core_binary. set (d := Zdigits2 (Z.pos m1) + e1 - (Zdigits2 (Z.pos m2) + e2)).
  set (e' := Z.min (fexp d) (e1 - e2)).
  assert ((match e1 - e2 - e' with Z0 => Z.pos m1 | Z.pos _ => Z.shiftl (Z.pos m1) (e1 - e2 - e') | Z.neg _ => 0 end) = Z.pos m1 * 2 ^ (e1 - e2 - e')) as ->.
  { destruct (e1 - e2 - e') eqn:E; [cbn; lia|by rewrite Z.shiftl_mul_pow2 by lia|lia]. }
  set (N := Z.pos m1 * 2 ^ (e1 - e2 - e')). pose proof (Z.div_pos N (Z.pos m2)) as Hq.
  destruct (Z.div_eucl N (Z.pos m2)) as [q r] eqn:Eq. assert (q = N / Z.pos m2) as -> by (unfold Z.div; by rewrite Eq).
  assert (0 < 2 ^ (e1 - e2 - e')) as Hpow by lia. assert (0 ≤ N / Z.pos m2) by (apply Hq; subst N; lia).
  apply round_aux_valid; [done|]. etrans; [apply Z.le_min_l|]. apply fexp_mono.
  pose proof (digits2_pos_bound m1) as [H1 H2]. pose proof (digits2_pos_bound m2) as [H3 H4].
  (* the quotient has at least the digits of the difference *)
  destruct (decide (Zdigits2 (N / Z.pos m2) + e' < d)) as [Hlt|]; [exfalso|lia].
  assert (2 ^ (d - e' - 1) ≤ N / Z.pos m2) as Hbig.
  { destruct (decide (d - e' - 1 < 0)); [rewrite Z.pow_neg_r by lia; lia|].
    apply Z.div_le_lower_bound; [lia|]. cbn [Zdigits2] in d. subst N.
    assert (2 ^ (Z.pos (digits2_pos m2)) * 2 ^ (d - e' - 1) = 2 ^ (Z.pos (digits2_pos m1) - 1) * 2 ^ (e1 - e2 - e')) as Ep
      by (rewrite <-!Z.pow_add_r by lia; f_equal; lia).
    assert (0 < 2 ^ (d - e' - 1)) by lia. nia. }
  destruct (decide (d - e' - 1 < 0)) as [Hneg|].
  - cbn [Zdigits2] in *. destruct (N / Z.pos m2); cbn in Hlt; lia.
  - destruct (digits_pos (N / Z.pos m2)) as [[_ Hd] _]; [assert (0 < 2 ^ (d - e' - 1)) by lia; lia|].
    assert (2 ^ Zdigits2 (N / Z.pos m2) ≤ 2 ^ (d - e' - 1)) by (apply Z.pow_le_mono_r; lia). lia.
Qed.
End valid.
Lemma of_Z_valid z : F32.valid (F32.of_Z z) = true.
Proof. apply normalize_valid; unfold F32.prec, F32.emax; lia. Qed.
Lemma of_nanos_valid n : F32.valid (F32.of_nanos n) = true.
Proof. apply add_valid; [unfold F32.prec, F32.emax; lia..|apply of_Z_valid|apply div_valid; [unfold F32.prec, F32.emax; lia..|apply of_Z_valid|apply of_Z_valid]]. Qed.

(** A mantissa of 24 digits is kept. *)
Lemma shr_fexp_24 q e l : 2 ^ 23 ≤ q < 2 ^ 24 → -149 ≤ e → shr_fexp prec emax q e l = (shr_record_of_loc q l, e).
Proof.
  intros Hq He. destruct q as [|p|p]; try lia. unfold shr_fexp, Zdigits2. rewrite (digits_unique p 24) by lia.
  rewrite fexp_digits by lia. by replace (24 + e - 24 - e) with 0 by lia.
Qed.
(** Of 25 digits the last becomes the rounding bit. *)
Lemma shr_fexp_25 q e l : 2 ^ 24 ≤ q < 2 ^ 25 → -149 ≤ e → shr_fexp prec emax q e l = (shr_1 (shr_record_of_loc q l), e + 1).
Proof.
  intros Hq He. destruct q as [|p|p]; try lia. unfold shr_fexp, Zdigits2. rewrite (digits_unique p 25) by lia.
  rewrite fexp_digits by lia. by replace (25 + e - 24 - e) with 1 by lia.
Qed.

(** Where the true value is between the integers around it: [r] of [D]. *)
Definition loc (r D : Z) : location := if r =? 0 then loc_Exact else loc_Inexact (2 * r ?= D).
Lemma new_location_loc D r : 0 ≤ r < D → new_location D r = loc r D.
Proof.
  intros Hr. unfold new_location, loc. destruct (Z.even D) eqn:Ev; [done|].
  unfold new_location_odd. destruct (Z.eqb_spec r 0); [done|]. f_equal.
  destruct (Z.even_spec D) as [_ Hno]. destruct (Z.Even_or_Odd D) as [He|[k Hk]]; [rewrite Hno in Ev by done; done|].
  destruct (Z.compare_spec (2 * r + 1) D), (Z.compare_spec (2 * r) D); lia || done.
Qed.
Lemma loc_record m r D : loc_of_shr_record (shr_record_of_loc m (loc r D)) = loc r D.
Proof. unfold loc. destruct (r =? 0); [done|]. by destruct (2 * r ?= D). Qed.
Lemma shr_record_m m l : shr_m (shr_record_of_loc m l) = m.
Proof. by destruct l as [|[]]. Qed.
(** After the shift: the half of [q], and [r] with the bit that fell out. *)
Lemma shr_1_loc q r D : 0 < q → 0 ≤ r < D →
  let x := shr_1 (shr_record_of_loc q (loc r D)) in
  shr_m x = q / 2 ∧ loc_of_shr_record x = loc (q `mod` 2 * D + r) (2 * D).
Proof.
  intros Hq Hr. destruct q as [|p|p]; try lia.
  assert (∀ b z, 0 ≤ b < 2 → Z.pos p = 2 * z + b → Z.pos p / 2 = z ∧ Z.pos p `mod` 2 = b) as Hdm.
  { intros b z Hb E. split; [symmetry; apply (Z.div_unique _ _ _ b); lia|symmetry; apply (Z.mod_unique _ _ z); lia]. }
  unfold loc at 1 2. destruct p as [p|p|]; cbn -[Z.div Z.modulo Z.mul Z.compare];
    [destruct (Hdm 1 (Z.pos p)) as [-> ->]; [lia..|]|destruct (Hdm 0 (Z.pos p)) as [-> ->]; [lia..|]|
     destruct (Hdm 1 0) as [-> ->]; [lia..|]].
  all: unfold loc; destruct (Z.eqb_spec r 0) as [->|]; [|destruct (Z.compare_spec (2 * r) D)];
    cbn -[Z.div Z.modulo Z.mul Z.compare]; (split; [done|]).
  all: match goal with |- context [?x =? 0] => destruct (Z.eqb_spec x 0); try lia end; try done.
  all: f_equal; match goal with |- context [?x ?= ?y] => destruct (Z.compare_spec x y) end; done || lia.
Qed.
(** Nearest: at most a half away. *)
Lemma round_nearest q r D : 0 ≤ r < D →
  let m := round_nearest_even q (loc r D) in
  q ≤ m ≤ q + 1 ∧ Z.abs (2 * (m * D) - 2 * (q * D + r)) ≤ D.
Proof.
  intros Hr. unfold loc. destruct (Z.eqb_spec r 0) as [->|]; cbn [round_nearest_even]; [lia|].
  destruct (Z.compare_spec (2 * r) D); [destruct (Z.even q)|..]; lia.
Qed.

(** The second rounding is exact: it only renormalizes [2^24]. *)
Lemma renormalize m e : 2 ^ 23 ≤ m ≤ 2 ^ 24 → -149 ≤ e ≤ 100 →
  ∃ m' e', shr_m (shr_fexp prec emax m e loc_Exact).1 = Z.pos m' ∧ (shr_fexp prec emax m e loc_Exact).2 = e' ∧
    (e' = e ∧ Z.pos m' = m ∨ e' = e + 1 ∧ 2 * Z.pos m' = m).
Proof.
  intros Hm He. destruct (decide (m = 2 ^ 24)) as [->|].
  - rewrite shr_fexp_25 by lia. exists (2 ^ 23)%positive, (e + 1). split_and!; [done|done|right; done].
  - rewrite shr_fexp_24 by lia. destruct m as [|p|p]; try lia. exists p, e. split_and!; [done|done|left; done].
Qed.
(** The rounding of [N / D * 2^e], for a quotient of 24 or 25 digits; [k] digits are dropped. *)
Lemma round_quotient N D e : 0 < D → 2 ^ 23 ≤ N / D < 2 ^ 25 → -149 ≤ e ≤ 90 →
  ∃ k m m' e', 0 ≤ k ≤ 1 ∧ binary_round_aux prec emax false (N / D) e (loc (N `mod` D) D) = S754_finite false m' e' ∧
    (e' = e + k ∧ Z.pos m' = m ∨ e' = e + k + 1 ∧ 2 * Z.pos m' = m) ∧
    Z.abs (2 * (m * (2 ^ k * D)) - 2 * N) ≤ 2 ^ k * D ∧ 2 ^ 23 ≤ m ∧ 2 ^ 23 * (2 ^ k * D) ≤ N.
Proof.
  intros HD Hq He. pose proof (Z.mod_pos_bound N D HD) as Hr. pose proof (Z.div_mod N D) as HN.
  set (q := N / D) in *. set (r := N `mod` D) in *. unfold binary_round_aux.
  destruct (decide (q < 2 ^ 24)) as [Hlt|Hge].
  - rewrite shr_fexp_24 by lia. cbn [fst snd]. rewrite shr_record_m, loc_record.
    pose proof (round_nearest q r D Hr) as [Hm Hn]. set (m := round_nearest_even q (loc r D)) in *.
    destruct (renormalize m e) as (m' & e' & E1 & E2 & Hv); [lia..|]. destruct (shr_fexp _ _ m e loc_Exact) as [x y]. cbn in E1, E2. subst y.
    exists 0, m, m', e'. rewrite E1. rewrite (proj2 (Z.leb_le e' _)) by (unfold F32.prec, F32.emax; lia).
    split_and!; [lia|lia|done|destruct Hv; [left|right]; lia| |lia|]; rewrite Z.pow_0_r; nia.
  - rewrite shr_fexp_25 by lia. destruct (shr_1_loc q r D) as [E3 E4]; [lia..|].
    destruct (shr_1 (shr_record_of_loc q (loc r D))) as [xm xr xs] eqn:Ex. cbn [fst snd]. rewrite E4. cbn [shr_m] in E3 |- *. subst xm.
    pose proof (Z.mod_pos_bound q 2) as Hb. pose proof (Z.div_mod q 2) as Hqb.
    pose proof (round_nearest (q / 2) (q `mod` 2 * D + r) (2 * D)) as [Hm Hn]; [nia|].
    set (m := round_nearest_even (q / 2) _) in *.
    destruct (renormalize m (e + 1)) as (m' & e' & E1 & E2 & Hv); [lia..|].
    destruct (shr_fexp _ _ m (e + 1) loc_Exact) as [x y]. cbn in E1, E2. subst y.
    exists 1, m, m', e'. rewrite E1. rewrite (proj2 (Z.leb_le e' _)) by (unfold F32.prec, F32.emax; lia).
    change (2 ^ 1) with 2. split_and!; [lia|lia|done|destruct Hv; [left|right]; lia| |lia|]; nia.
Qed.

(** ** Integers below [2^24] are floats *)
Lemma of_Z_exact z : 0 < z < 2 ^ 24 →
  ∃ m e, F32.of_Z z = S754_finite false m e ∧ 2 ^ 23 ≤ Z.pos m < 2 ^ 24 ∧ -23 ≤ e ≤ 0 ∧ Z.pos m = z * 2 ^ (- e).
Proof.
  intros Hz. destruct z as [|p|p]; try lia. unfold F32.of_Z, binary_normalize, binary_round.
  pose proof (digits2_pos_bound p) as [H1 H2]. set (d := Z.pos (digits2_pos p)) in *.
  assert (d - 1 < 24) by (apply (Z.pow_lt_mono_r_iff 2); lia). assert (0 < d) by (subst d; lia).
  rewrite Z.add_0_r, fexp_digits by lia.
  assert (∃ m, shl_align p 0 (d - 24) = (m, d - 24) ∧ Z.pos m = Z.pos p * 2 ^ (24 - d)) as (m & -> & Hm).
  { unfold shl_align. rewrite Z.sub_0_r. destruct (d - 24) as [|x|x] eqn:E; [|lia|].
    - exists p. replace (24 - d) with 0 by lia. split; [done|lia].
    - exists (Pos.iter xO p x). replace (24 - d) with (Z.pos x) by lia. split; [done|apply iter_xO]. }
  assert (2 ^ 23 ≤ Z.pos m < 2 ^ 24) as Hr.
  { assert (2 ^ (d - 1) * 2 ^ (24 - d) = 2 ^ 23) by (rewrite <-Z.pow_add_r by lia; f_equal; lia).
    assert (2 ^ d * 2 ^ (24 - d) = 2 ^ 24) by (rewrite <-Z.pow_add_r by lia; f_equal; lia). assert (0 < 2 ^ (24 - d)) by lia. nia. }
  exists m, (d - 24). unfold binary_round_aux. rewrite !shr_fexp_24 by lia. cbn [shr_record_of_loc loc_of_shr_record round_nearest_even shr_m fst snd].
  rewrite shr_fexp_24 by lia. cbn [shr_record_of_loc shr_m]. rewrite (proj2 (Z.leb_le _ _)) by (unfold F32.prec, F32.emax; lia).
  split_and!; [done|lia|lia|lia|lia|]. rewrite Hm. do 2 f_equal. lia.
Qed.

(** ** The quotient *)
(** [v] is [M / 2^E], the float nearest to [n / m]. *)
Definition nearest_quotient (n m : Z) (v : f32) (M E : Z) : Prop :=
  0 ≤ E ∧ Z.abs (2 * (M * m) - 2 * (n * 2 ^ E)) ≤ m ∧ 2 ^ 23 * m ≤ n * 2 ^ E ∧
  ∃ m' e', v = S754_finite false m' e' ∧ (e' = - E ∧ Z.pos m' = M ∨ e' = 1 - E ∧ 2 * Z.pos m' = M).
Lemma div_nearest n m : 0 < n < 2 ^ 24 → 0 < m < 2 ^ 24 →
  ∃ M E, nearest_quotient n m (F32.div (F32.of_Z n) (F32.of_Z m)) M E.
Proof.
  intros Hn Hm. destruct (of_Z_exact n Hn) as (m1 & e1 & -> & Hm1 & He1 & Ev1). destruct (of_Z_exact m Hm) as (m2 & e2 & -> & Hm2 & He2 & Ev2).
  unfold F32.div, SFdiv, SFdiv_core_binary, Zdigits2. rewrite !(digits_unique _ 24) by lia.
  replace (24 + e1 - (24 + e2)) with (e1 - e2) by lia. rewrite fexp_digits by lia. rewrite Z.min_l by lia.
  replace (e1 - e2 - (e1 - e2 - 24)) with 24 by lia. cbv match. rewrite Z.shiftl_mul_pow2 by lia.
  set (N := Z.pos m1 * 2 ^ 24). pose proof (Z.div_mod N (Z.pos m2)) as Hdm. pose proof (Z.mod_pos_bound N (Z.pos m2)) as Hmod.
  destruct (Z.div_eucl N (Z.pos m2)) as [q r] eqn:Eq.
  assert (q = N / Z.pos m2) as -> by (unfold Z.div; by rewrite Eq). assert (r = N `mod` Z.pos m2) as -> by (unfold Z.modulo; by rewrite Eq).
  rewrite new_location_loc by lia. change (xorb false false) with false.
  destruct (round_quotient N (Z.pos m2) (e1 - e2 - 24)) as (k & M & m' & e' & Hk & -> & Hv & Hn' & HM & Hbig); [lia|subst N; nia|lia|].
  assert (2 ^ k * Z.pos m2 = m * 2 ^ (k - e2)) as Hden by (rewrite Ev2; unfold Z.sub; rewrite Z.pow_add_r by lia; lia).
  assert (e1 - e2 - 24 + k ≤ 0) as Hneg.
  { destruct (decide (e1 - e2 - 24 + k ≤ 0)); [done|]. exfalso. rewrite Hden in Hbig. unfold N in Hbig. rewrite Ev1 in Hbig.
    assert (2 ^ (k - e2) = 2 ^ 25 * 2 ^ (e1 - e2 - 25 + k) * 2 ^ (- e1)) as Hpow by (rewrite <-!Z.pow_add_r by lia; f_equal; lia).
    rewrite Hpow in Hbig. assert (0 < 2 ^ (e1 - e2 - 25 + k)) by lia. assert (0 < 2 ^ (- e1)) by lia.
    set (P := 2 ^ (e1 - e2 - 25 + k)) in *. set (Q := 2 ^ (- e1)) in *.
    assert (2 ^ 48 * m * P ≤ n * 2 ^ 24) by (apply (Z.mul_le_mono_pos_r _ _ Q); lia). nia. }
  set (E := - (e1 - e2 - 24 + k)). exists M, E.
  assert (N = n * 2 ^ E * 2 ^ (k - e2)) as HN.
  { unfold N. rewrite Ev1, <-!Z.mul_assoc, <-!Z.pow_add_r by lia. do 2 f_equal. lia. }
  rewrite Hden, HN in Hn'. rewrite Hden, HN in Hbig. assert (0 < 2 ^ (k - e2)) as Hp by lia.
  split_and!; [lia| | |].
  - apply (Z.mul_le_mono_pos_r _ _ (2 ^ (k - e2))); [lia|]. rewrite <-(Z.abs_eq (2 ^ (k - e2))) at 1 by lia. rewrite <-Z.abs_mul. etrans; [|exact Hn'].
    apply Z.eq_le_incl. f_equal. lia.
  - nia.
  - exists m', e'. split; [done|]. lia.
Qed.
Lemma ceil_nearest n m v M E c : nearest_quotient n m v M E → 0 < m → n < 2 ^ 24 → (c - 1) * m < n ≤ c * m → 0 < c < 2 ^ 24 →
  F32.ceil_usize v = c.
Proof.
  intros (HE & Hn & Hbig & m' & e' & -> & Hv) Hm Hlt Hc Hc24. assert (0 < 2 ^ E) as Hp by lia.
  assert (M ≤ c * 2 ^ E) as H1 by nia.
  assert ((c - 1) * 2 ^ E < M) as H2.
  { assert (m < 2 * 2 ^ E) by nia. assert (((c - 1) * m + 1) * 2 ^ E ≤ n * 2 ^ E) by (apply Z.mul_le_mono_nonneg_r; lia). nia. }
  unfold F32.ceil_usize. rewrite Z.min_r; [|destruct (Z.leb_spec 0 e'); unfold U64_MAX].
  - destruct (Z.leb_spec 0 e').
    + assert (E = 0 ∧ e' = 0 ∨ E = 0 ∧ e' = 1 ∨ E = 1 ∧ e' = 0) as [[-> ->]|[[-> ->]|[-> ->]]] by lia; lia.
    + assert (- Z.pos m' / 2 ^ (- e') = - c) as ->; [|lia]. symmetry.
      assert (0 < 2 ^ (- e')) by lia.
      apply (Z.div_unique_pos _ _ _ (c * 2 ^ (- e') - Z.pos m')); [|lia].
      destruct Hv as [[-> HM]|[-> HM]]; [rewrite Z.opp_involutive; lia|].
      assert (2 ^ E = 2 * 2 ^ (- (1 - E))) as E2 by (rewrite <-Z.pow_succ_r by lia; f_equal; lia). lia.
  - assert (E = 0 ∧ e' = 0 ∨ E = 0 ∧ e' = 1 ∨ E = 1 ∧ e' = 0) as [[-> ->]|[[-> ->]|[-> ->]]] by lia; lia.
  - assert (Z.pos m' ≤ c * 2 ^ (- e')) as Hle.
    { destruct Hv as [[-> HM]|[-> HM]]; [rewrite Z.opp_involutive; lia|].
      assert (2 ^ E = 2 * 2 ^ (- (1 - E))) as E2 by (rewrite <-Z.pow_succ_r by lia; f_equal; lia). lia. }
    assert (- c ≤ - Z.pos m' / 2 ^ (- e')) by (apply Z.div_le_lower_bound; lia). lia.
Qed.
(** The number of pieces of [m] that [n] needs is computed exactly. *)
Lemma ceil_div_exact n m : 0 ≤ n < 2 ^ 24 → 0 < m < 2 ^ 24 →
  F32.ceil_usize (F32.div (F32.of_Z n) (F32.of_Z m)) = (n + m - 1) / m.
Proof.
  intros Hn Hm. destruct (decide (n = 0)) as [->|].
  - rewrite Z.div_small by lia. destruct (of_Z_exact m Hm) as (m2 & e2 & -> & _). done.
  - destruct (div_nearest n m) as (M & E & Hq); [lia..|].
    pose proof (Z.div_mod (n + m - 1) m) as Hdm. pose proof (Z.mod_pos_bound (n + m - 1) m) as Hmod.
    apply (ceil_nearest n m _ M E); [done|lia..|]. split; [apply Z.div_str_pos; lia|apply Z.div_lt_upper_bound; nia].
Qed.
End F32Facts.
