(* ===== verification/StreamSocket.v ===== *)
(** * The sharded packet streams: [examples/lib/alvr_stream_socket.rs]

    A packet is cut by [StreamSender::send] into shards that fit the network's
    packets; [StreamSocket::recv] takes the shards of a channel one at a time and
    puts them together again in a buffer per packet, whatever their order, with
    statistics on the video stream; frames that are not complete at their deadline
    are given up; [StreamReceiver::recv] hands the packets over in order.

    Sizes and indices into buffers are [nat], machine integers are [Z] with their
    overflow checks, floats are those of [F32.v].  Hash maps are [gmap]s; what
    depends on the order of their iteration ([find]) goes through the function
    [pick], of which only what the standard library promises is assumed. *)

From Stdlib Require Import SpecFloat.
From S2P Require Import Prelude StablePq Scheduler F32.

Module Socket.

(** ** Constants and helpers *)
Definition SHARD_PREFIX_SIZE : nat := 22.
Definition MAX_PACKET_SIZE_RECV : nat := 16000.
Definition VIDEO : Z := 3.
Definition ALVR_ORIGINAL_SOCKETRX_BEHAVIOR : bool := false.
Definition MAX_FRAMES : nat := 1000.

Fixpoint be_bytes (n : nat) (z : Z) : list Z :=
  match n with
  | O => []
  | S n => (z / 256 ^ Z.of_nat n) `mod` 256 :: be_bytes n z
  end.
Definition from_be (l : list Z) : Z := foldl (λ acc b, acc * 256 + b) 0 l.

(** [a + b] on [u32], and [a as i32]. *)
Definition u32_add (a b : Z) : outcome Z := if a + b <=? U32_MAX then Ret (a + b) else Panic.
Definition as_i32 (z : Z) : Z := let w := wrap 32 z in if 2 ^ 31 <=? w then w - 2 ^ 32 else w.

(** [&l[i..j]], with its panic. *)
Definition slice (l : list Z) (i j : nat) : outcome (list Z) :=
  if (i <=? j)%nat && (j <=? length l)%nat then Ret (take (j - i) (drop i l)) else Panic.
(** [l[i..i + d.len()].copy_from_slice(d)], with its panic. *)
Definition write_at (l : list Z) (i : nat) (d : list Z) : outcome (list Z) :=
  if (i + length d <=? length l)%nat then Ret (take i l ++ d ++ drop (i + length d) l) else Panic.
(** [Vec::resize] with zeros. *)
Definition resize (l : list Z) (n : nat) : list Z := take n l ++ replicate (n - length l) 0.

Definition wrapping_cmp (lhs rhs : Z) : comparison :=
  let diff := wrap 32 (lhs - rhs) in
  if diff =? 0 then Eq else if diff <? U32_MAX / 2 then Gt else Lt.

(** ** The channel: messages, and the one that was peeked at *)
Record BufferedReceiver := mkReceiver {
  receiver : list (list Z);
  disconnected : bool;
  buffer : option (list Z)
}.
Inductive ConnectionError := TryAgain | Other.

(** [try_recv] on the channel. *)
Definition try_recv (r : BufferedReceiver) : result (list Z) unit * BufferedReceiver :=
  match receiver r with
  | d :: q => (Ok d, mkReceiver q (disconnected r) (buffer r))
  | [] => (Err tt, r)
  end.

(** [recv] into a buffer of [n] bytes: the bytes written, none if there is nothing. *)
Definition reader_recv (n : nat) (r : BufferedReceiver) : result (list Z) ConnectionError * BufferedReceiver :=
  match buffer r with
  | Some data =>
      if (length data <=? n)%nat then (Ok data, mkReceiver (receiver r) (disconnected r) None)
      else (Err Other, mkReceiver (receiver r) (disconnected r) (Some data))
  | None =>
      match try_recv r with
      | (Ok data, r') => if (length data <=? n)%nat then (Ok data, r') else (Err Other, r')
      | (Err _, r') => if disconnected r then (Err Other, r') else (Ok [], r')
      end
  end.

(** The message that [peek] looks at is kept for the next [recv]. *)
Definition fill (r : BufferedReceiver) : result (option (list Z)) ConnectionError * BufferedReceiver :=
  match buffer r with
  | Some data => (Ok (Some data), r)
  | None =>
      match try_recv r with
      | (Ok data, r') => (Ok (Some data), mkReceiver (receiver r') (disconnected r) (Some data))
      | (Err _, r') => if disconnected r then (Err Other, r') else (Ok None, r')
      end
  end.
(** The length of the next message and its first [k] bytes. *)
Definition peek_prefix (k max_len : nat) (r : BufferedReceiver)
    : result (nat * list Z) ConnectionError * BufferedReceiver :=
  match fill r with
  | (Ok (Some data), r') =>
      if (max_len <? length data)%nat then (Err Other, r') else (Ok (length data, take k data), r')
  | (Ok None, r') => (Ok (0%nat, []), r')
  | (Err e, r') => (Err e, r')
  end.
Definition peek (n : nat) (r : BufferedReceiver) : result (list Z) ConnectionError * BufferedReceiver :=
  match fill r with
  | (Ok (Some data), r') => if (length data <=? n)%nat then (Ok data, r') else (Err Other, r')
  | (Ok None, r') => (Ok [], r')
  | (Err e, r') => (Err e, r')
  end.
Definition recv_shared (r : BufferedReceiver) : result (option (list Z)) ConnectionError * BufferedReceiver :=
  match buffer r with
  | Some data => (Ok (Some data), mkReceiver (receiver r) (disconnected r) None)
  | None =>
      match try_recv r with
      | (Ok data, r') => (Ok (Some data), r')
      | (Err _, r') => if disconnected r then (Err Other, r') else (Ok None, r')
      end
  end.

Definition exact_len_payload (data : list Z) (len : nat) : list Z :=
  if (length data =? len)%nat then data
  else if (len <? length data)%nat then take len data
  else resize data len.

(** ** The shard prefix *)
Record Prefix := mkPrefix {
  px_length : Z;  (* without its own four bytes *)
  px_stream : Z;
  px_packet : Z;
  px_count : Z;
  px_index : Z;
  px_instant : f32
}.
Definition prefix_bytes (p : Prefix) : list Z :=
  be_bytes 4 (px_length p) ++ be_bytes 2 (px_stream p) ++ be_bytes 4 (px_packet p)
  ++ be_bytes 4 (px_count p) ++ be_bytes 4 (px_index p) ++ be_bytes 4 (F32.to_bits (px_instant p)).
Definition field (l : list Z) (i j : nat) : Z := from_be (take (j - i) (drop i l)).
Definition parse_prefix (l : list Z) : Prefix :=
  mkPrefix (field l 0 4) (field l 4 6) (field l 6 10) (field l 10 14) (field l 14 18)
    (F32.of_bits (field l 18 22)).

Definition parse_shard_data (data : list Z) : outcome (result (Z * Z * Z * Z * Z * f32) unit) :=
  if (length data <? 22)%nat then Ret (Err tt)
  else
    packet_length ← u32_add (field data 0 4) 4;
    let p := parse_prefix data in
    Ret (Ok (packet_length, px_stream p, px_packet p, px_count p, px_index p, px_instant p)).

(** ** The buffer of a packet to send *)
Record Buffer := mkBuffer { inner : list Z; hidden_offset : nat; bf_length : nat }.
Definition buffer_len (b : Buffer) : nat := bf_length b.
Definition buffer_is_empty (b : Buffer) : bool := (buffer_len b =? 0)%nat.
Definition buffer_get (b : Buffer) : outcome (list Z) :=
  slice (inner b) (hidden_offset b) (hidden_offset b + bf_length b).
(** The buffer, and the bytes the returned slice shows. *)
Definition get_range_mut (offset size : nat) (b : Buffer) : outcome (Buffer * list Z) :=
  let required_size := (hidden_offset b + offset + size)%nat in
  let inner' := if (length (inner b) <? required_size)%nat then resize (inner b) required_size else inner b in
  let b' := mkBuffer inner' (hidden_offset b) (Nat.max (bf_length b) (offset + size)) in
  d ← slice inner' (hidden_offset b + offset) (hidden_offset b + offset + size);
  Ret (b', d).
Definition set_len (len : nat) (b : Buffer) : Buffer :=
  mkBuffer (resize (inner b) (hidden_offset b + len)) (hidden_offset b) len.

(** ** Environment

    Configuration read from the process environment, the constant [EPOCH] of the
    [tai_time] crate, [f32::powf] (whose precision the standard library leaves
    open), and the order in which a hash map is iterated (any order of its
    entries; the model takes it to depend on the contents only). *)
Class Env (T : Type) `{TaiTime T} := {
  EPOCH : T;
  EPOCH_nanos : nanos EPOCH = 0;
  nada_fix : bool;
  anchor_first : bool;
  deadline_ : Z;
  powf : f32 → f32 → f32;
  hm_iter : ∀ A : Type, gmap Z A → list (Z * A);
  hm_iter_perm : ∀ A (m : gmap Z A), hm_iter A m ≡ₚ map_to_list m
}.
Arguments hm_iter {T _ _ A} _.

(** [a - b] on [usize]. *)
Definition usub (a b : nat) : outcome nat := if (b <=? a)%nat then Ret (a - b)%nat else Panic.

Section time.
Context {T : Type} `{TaiTime T}.
(** [a.duration_since(b)], and its checked form. *)
Definition checked_duration_since (a b : T) : option Z :=
  if time_le b a then Some (nanos a - nanos b) else None.
Definition duration_since (a b : T) : outcome Z := unwrap (checked_duration_since a b).
Definition time_min (a b : T) : T := if time_le a b then a else b.
Definition time_max (a b : T) : T := if time_le a b then b else a.
End time.

(** ** The sender *)
Section sender.
Context {T : Type} `{TaiTime T} `{!Env T}.

Record FrameTracker := mkTracker { tr_map : gmap Z T; tr_queue : list Z; max_size : nat }.
Definition tracker_new : FrameTracker := mkTracker ∅ [] MAX_FRAMES.
(** [while queue.len() > max_size]: every pass drops the oldest frame. *)
Fixpoint evict (n : nat) (t : FrameTracker) : FrameTracker :=
  match n with
  | O => t
  | S n =>
      if (max_size t <? length (tr_queue t))%nat then
        match tr_queue t with
        | oldest :: q => evict n (mkTracker (delete oldest (tr_map t)) q (max_size t))
        | [] => t
        end
      else t
  end.
Definition tracker_insert (frame_id : Z) (instant : T) (t : FrameTracker) : FrameTracker :=
  let t := mkTracker (<[frame_id:=instant]> (tr_map t)) (tr_queue t ++ [frame_id]) (max_size t) in
  evict (length (tr_queue t)) t.

Record StreamSender := mkSender {
  tx_stream_id : Z;
  tx_max_packet_size : nat;
  next_packet_index : Z;
  used_buffers : list (list Z);
  tx_shards_count : nat;
  ref_time : T;
  frame_tracker : FrameTracker
}.
Definition request_stream (max_packet_size : nat) (stream_id : Z) (t0 : T) : StreamSender :=
  mkSender stream_id max_packet_size 0 [] 0 t0 tracker_new.
Definition get_last_packet_id (tx : StreamSender) : outcome Z :=
  if 1 <=? next_packet_index tx then Ret (next_packet_index tx - 1) else Panic.

Definition set_tracker (tx : StreamSender) (t : FrameTracker) : StreamSender :=
  mkSender (tx_stream_id tx) (tx_max_packet_size tx) (next_packet_index tx) (used_buffers tx)
    (tx_shards_count tx) (ref_time tx) t.

(** The writes of the prefix over the first bytes of [sub_buffer], in their order. *)
Definition write_prefix (p : Prefix) (start : nat) (l : list Z) : outcome (list Z) :=
  l ← write_at l (start + 0) (be_bytes 4 (px_length p));
  l ← write_at l (start + 4) (be_bytes 2 (px_stream p));
  l ← write_at l (start + 6) (be_bytes 4 (px_packet p));
  l ← write_at l (start + 10) (be_bytes 4 (px_count p));
  l ← write_at l (start + 14) (be_bytes 4 (px_index p));
  write_at l (start + 18) (be_bytes 4 (F32.to_bits (px_instant p))).

(** The shards [idx], [idx + 1], ... of the packet; [out] is the channel. *)
Fixpoint send_loop (n idx : nat) (max_shard_data_size actual_buffer_size shards_count : nat) (now : T)
    (inner : list Z) (out : list (list Z)) (tx : StreamSender)
    : outcome (list Z * list (list Z) * StreamSender) :=
  match n with
  | O => Ret (inner, out, tx)
  | S n =>
      let packet_start_position := (idx * max_shard_data_size)%nat in
      _ ← slice inner packet_start_position (length inner);
      rest ← usub actual_buffer_size packet_start_position;
      let packet_length := Nat.min (tx_max_packet_size tx) rest in
      elapsed ← duration_since now (ref_time tx);
      let tx_r_instant := F32.of_nanos elapsed in
      body ← usub packet_length 4;
      inner ← write_prefix (mkPrefix (wrap 32 (Z.of_nat body)) (tx_stream_id tx) (next_packet_index tx)
                (wrap 32 (Z.of_nat shards_count)) (wrap 32 (Z.of_nat idx)) tx_r_instant)
                packet_start_position inner;
      msg ← slice inner packet_start_position (packet_start_position + packet_length);
      let tx := if (idx =? 0)%nat then set_tracker tx (tracker_insert (next_packet_index tx) now (frame_tracker tx))
                else tx in
      send_loop n (S idx) max_shard_data_size actual_buffer_size shards_count now inner (out ++ [msg]) tx
  end.

(** [StreamSender::send]; the channel's receiver is alive, so that no send fails. *)
Definition send (b : Buffer) (now : T) (out : list (list Z)) (tx : StreamSender)
    : outcome (list (list Z) * StreamSender) :=
  max_shard_data_size ← usub (tx_max_packet_size tx) SHARD_PREFIX_SIZE;
  let actual_buffer_size := (hidden_offset b + bf_length b)%nat in
  data_size ← usub actual_buffer_size SHARD_PREFIX_SIZE;
  let shards_count := Z.to_nat (F32.ceil_usize
    (F32.div (F32.of_Z (Z.of_nat data_size)) (F32.of_Z (Z.of_nat max_shard_data_size)))) in
  '(inner, out, tx) ← send_loop shards_count 0 max_shard_data_size actual_buffer_size shards_count now
                        (inner b) out tx;
  Ret (out, mkSender (tx_stream_id tx) (tx_max_packet_size tx) (next_packet_index tx)
              (used_buffers tx ++ [inner]) shards_count (ref_time tx) (frame_tracker tx)).

(** [get_buffer_tracking]; [header] is the serialized header, the bytes [bincode]
    gives for it.  The last buffer sent is used again. *)
Definition get_buffer_tracking (header : list Z) (tx : StreamSender) : outcome (Buffer * StreamSender) :=
  let tx := mkSender (tx_stream_id tx) (tx_max_packet_size tx) (next_packet_index tx)
              (take (length (used_buffers tx) - 1) (used_buffers tx)) (tx_shards_count tx) (ref_time tx)
              (frame_tracker tx) in
  let buffer := resize [] 1000 in
  let hidden_offset := (SHARD_PREFIX_SIZE + length header)%nat in
  let buffer := if (length buffer <? hidden_offset)%nat then resize buffer hidden_offset else buffer in
  buffer ← write_at buffer SHARD_PREFIX_SIZE header;
  Ret (mkBuffer buffer hidden_offset 0, tx).
Definition send_header_tracking (header : list Z) (now : T) (out : list (list Z)) (tx : StreamSender)
    : outcome (list (list Z) * StreamSender) :=
  '(b, tx) ← get_buffer_tracking header tx;
  send b now out tx.
Definition send_header_tracking_with (header : list Z) (now : T) (extra : list Z) (out : list (list Z))
    (tx : StreamSender) : outcome (list (list Z) * StreamSender) :=
  '(b, tx) ← get_buffer_tracking header tx;
  inner ← write_at (inner b) (hidden_offset b) extra;
  send (mkBuffer inner (hidden_offset b + length extra) (bf_length b)) now out tx.
End sender.
Arguments FrameTracker T : clear implicits.
Arguments StreamSender T : clear implicits.

(** ** The receiving socket *)
Section receiver.
Context {T : Type} `{TaiTime T} `{!Env T}.

Record InProgressPacket := mkInProgress {
  ip_buffer : list Z;
  buffer_length : nat;
  received_shard_indices : gset nat;
  deadline : option T;
  num_shards_expected : nat;
  id_frame : Z
}.
Record ShardMapStats := mkStats {
  sm_tx_r_instant : f32;
  sm_rx_instant : T;
  sm_rx_bytes : Z;
  sm_rx_bytes_app : Z
}.
Record RecvState := mkRecvState {
  shard_length : nat;
  stream_id : Z;
  packet_index : Z;
  shards_count : nat;
  shard_index : nat;
  packet_cursor : nat;
  overwritten_data_backup : option (list Z);
  should_discard : bool;
  frame_deadline : option T
}.
Record KalmanFilter := mkKalman {
  ow_delay : f32;
  m_current : f32;
  p_current : f32;
  noise_prev : f32;
  residual_z : f32;
  noise_estimation : f32;
  m_prev : f32;
  p_prev : f32;
  k_gain : f32;
  measured_delay : f32;
  last_tx_time : f32;
  last_rx_time : f32
}.
Definition f0 : f32 := F32.zero.
Definition ratio (n d : Z) : f32 := F32.div (F32.of_Z n) (F32.of_Z d).
Definition Q_KALMAN : f32 := ratio 1 (10 ^ 7).
Definition kalman_default : KalmanFilter :=
  mkKalman f0 f0 (ratio 1 10) f0 f0 f0 f0 f0 f0 f0 f0 f0.

(** The counters that a packet carries to the application. *)
Record ReconstructedPacket := mkReconstructed {
  rp_index : Z;
  rp_buffer : list Z;
  rp_size : nat;  (* with the prefix *)
  rp_frame_index : Z;
  rp_frame_span : f32;
  rp_frame_interarrival : f32;
  rp_interarrival_jitter : f32;
  rp_ow_delay : f32;
  rp_filtered_ow_delay : f32;
  rp_rx_bytes : Z;
  rp_bytes_in_frame : Z;
  rp_bytes_in_frame_app : Z;
  rp_rx_shard_counter : Z;
  rp_duplicated_shard_counter : Z;
  rp_highest_rx_frame_index : Z;
  rp_highest_rx_shard_index : Z;
  rp_tx_instant_packet : f32;
  rp_rx_instant_packet : f32;
  rp_nada_owd_us : option Z;
  rp_shards_in_frame : Z
}.

(** The channel of used buffers and the queue of complete packets are shared with
    the [StreamReceiver] of the stream; their contents are kept here. *)
Record StreamRecvComponents := mkComponents {
  used_buffer : list (list Z);
  packet_queue : list ReconstructedPacket;
  in_progress_packets : gmap Z InProgressPacket;
  discarded_shards_sink : InProgressPacket
}.

(** The fields of [StreamSocket] that hold the statistics of the video stream. *)
Record RxStats := mkRxStats {
  map_rx : gmap Z (gmap Z ShardMapStats);
  rx_bytes : Z;
  prev_shard_tx_r_instant : option f32;
  prev_shard_rx_instant : option T;
  interarrival_jitter : f32;
  kalman : KalmanFilter;
  prev_frame_rx_instant : T;
  prev_frame_tx_r_instant : option f32;
  rx_shard_counter : Z;
  duplicated_shard_counter : Z;
  highest_rx_shard_index : Z;
  highest_rx_frame_index : Z
}.
Record StreamSocket := mkSocket {
  max_packet_size : nat;
  shard_recv_state : option RecvState;
  stream_recv_components : gmap Z StreamRecvComponents;
  rx_stats : RxStats;
  lost_shards_deadline_map : gmap Z nat;
  lost_shards_expected_map : gmap Z nat
}.

(** [StreamSocketBuilder::build] *)
Definition build (max_packet_size : nat) : StreamSocket :=
  mkSocket max_packet_size None ∅
    (mkRxStats ∅ 0 None None f0 kalman_default EPOCH None 0 0 (-1) (-1)) ∅ ∅.

Definition set_components s (c : gmap Z StreamRecvComponents) : StreamSocket :=
  mkSocket (max_packet_size s) (shard_recv_state s) c (rx_stats s) (lost_shards_deadline_map s)
    (lost_shards_expected_map s).
Definition set_state s (st : option RecvState) : StreamSocket :=
  mkSocket (max_packet_size s) st (stream_recv_components s) (rx_stats s) (lost_shards_deadline_map s)
    (lost_shards_expected_map s).
Definition set_stats s (x : RxStats) : StreamSocket :=
  mkSocket (max_packet_size s) (shard_recv_state s) (stream_recv_components s) x
    (lost_shards_deadline_map s) (lost_shards_expected_map s).
Definition set_in_progress c (m : gmap Z InProgressPacket) : StreamRecvComponents :=
  mkComponents (used_buffer c) (packet_queue c) m (discarded_shards_sink c).

Definition subscribe_to_stream (id : Z) (max_concurrent_buffers : nat) s : StreamSocket :=
  set_components s (<[id := mkComponents (replicate max_concurrent_buffers []) [] ∅
                             (mkInProgress [] 0 ∅ None 0 0)]> (stream_recv_components s)).

(** ** Giving up on frames *)
Definition expired (now : T) (p : InProgressPacket) : bool :=
  match deadline p with Some d => time_le d now | None => false end.

(** What the first pass over a stream's packets finds. *)
Fixpoint sweep_expired (now : T) (l : list (Z * InProgressPacket)) (lost expected : gmap Z nat) (keys : list Z)
    : outcome (gmap Z nat * gmap Z nat * list Z) :=
  match l with
  | [] => Ret (lost, expected, keys)
  | (id, shard) :: l =>
      if expired now shard then
        shards_lost ← usub (num_shards_expected shard) (size (received_shard_indices shard));
        sweep_expired now l (<[id_frame shard := shards_lost]> lost)
          (if nada_fix then <[id_frame shard := num_shards_expected shard]> expected else expected)
          (keys ++ [id])
      else sweep_expired now l lost expected keys
  end.
Fixpoint remove_expired (keys : list Z) (c : StreamRecvComponents) : StreamRecvComponents :=
  match keys with
  | [] => c
  | key :: keys =>
      remove_expired keys
        match in_progress_packets c !! key with
        | Some packet =>
            mkComponents
              (if (length (ip_buffer packet) =? 0)%nat then used_buffer c else used_buffer c ++ [[]])
              (packet_queue c) (delete key (in_progress_packets c)) (discarded_shards_sink c)
        | None => c
        end
  end.
Definition sweep_stream (now : T) (lost expected : gmap Z nat) (c : StreamRecvComponents)
    : outcome (gmap Z nat * gmap Z nat * StreamRecvComponents) :=
  '(lost, expected, keys) ← sweep_expired now (hm_iter (in_progress_packets c)) lost expected [];
  Ret (lost, expected, remove_expired keys c).
Fixpoint sweep_streams (now : T) (l : list (Z * StreamRecvComponents)) (cs : gmap Z StreamRecvComponents)
    (lost expected : gmap Z nat) : outcome (gmap Z nat * gmap Z nat * gmap Z StreamRecvComponents) :=
  match l with
  | [] => Ret (lost, expected, cs)
  | (id, c) :: l =>
      '(lost, expected, c') ← sweep_stream now lost expected c;
      sweep_streams now l (<[id:=c']> cs) lost expected
  end.
Definition sweep_expired_deadlines (now : T) s : outcome StreamSocket :=
  '(lost, expected, cs) ← sweep_streams now (hm_iter (stream_recv_components s)) (stream_recv_components s)
                            (lost_shards_deadline_map s) (lost_shards_expected_map s);
  Ret (mkSocket (max_packet_size s) (shard_recv_state s) cs (rx_stats s) lost expected).

Definition flush_shards_expected_deadline s : nat * StreamSocket :=
  (foldr (λ p n, (p.2 + n)%nat) 0%nat (hm_iter (lost_shards_expected_map s)),
       mkSocket (max_packet_size s) (shard_recv_state s) (stream_recv_components s) (rx_stats s)
         (lost_shards_deadline_map s) ∅).
Definition flush_shards_lost_deadline s : (list Z * list nat) * StreamSocket :=
  let l := hm_iter (lost_shards_deadline_map s) in
  ((map fst l, map snd l),
   mkSocket (max_packet_size s) (shard_recv_state s) (stream_recv_components s) (rx_stats s)
     ∅ (lost_shards_expected_map s)).

(** ** Statistics of the video stream, per shard *)
(** The shard's entry in the map of its frame, and the two counters. *)
Definition count_shard (shard : Z) (stats : ShardMapStats) (shards_map : gmap Z ShardMapStats) (x : RxStats)
    : outcome (gmap Z ShardMapStats * Z * Z) :=
  match shards_map !! shard with
  | Some _ =>
      d ← u32_add (duplicated_shard_counter x) 1;
      Ret (shards_map, rx_shard_counter x, d)
  | None =>
      r ← u32_add (rx_shard_counter x) 1;
      Ret (<[shard:=stats]> shards_map, r, duplicated_shard_counter x)
  end.
(** The interarrival jitter of RFC 3550. *)
Definition next_jitter (now : T) (tx_r_instant : f32) (x : RxStats) : outcome f32 :=
  match prev_shard_rx_instant x, prev_shard_tx_r_instant x with
  | Some prev_rx, Some prev_tx =>
      d ← duration_since now prev_rx;
      let transit_diff := F32.sub (F32.of_nanos d) (F32.sub tx_r_instant prev_tx) in
      Ret (F32.add (interarrival_jitter x)
            (F32.div (F32.sub (F32.abs transit_diff) (interarrival_jitter x)) (F32.of_Z 16)))
  | _, _ => Ret (interarrival_jitter x)
  end.
(** The highest frame, and the highest shard of it. *)
Definition next_highest (packet shard : Z) (x : RxStats) : Z * Z :=
  if highest_rx_frame_index x =? as_i32 packet then
    (highest_rx_frame_index x,
     if highest_rx_shard_index x <? as_i32 shard then as_i32 shard else highest_rx_shard_index x)
  else if highest_rx_frame_index x <? as_i32 packet then (as_i32 packet, as_i32 shard)
  else (highest_rx_frame_index x, highest_rx_shard_index x).
Definition HEADER_BYTES_TRANSPORT : Z := 0.

Definition video_shard (now : T) (len : nat) (packet shard : Z) (tx_r_instant : f32) (x : RxStats)
    : outcome RxStats :=
  let highest := next_highest packet shard x in
  app ← usub len SHARD_PREFIX_SIZE;
  shard_bytes ← u32_add (wrap 32 (Z.of_nat len)) HEADER_BYTES_TRANSPORT;
  let stats := mkStats tx_r_instant now shard_bytes (wrap 32 (Z.of_nat app)) in
  '(shards_map, received, duplicated) ← count_shard shard stats (default ∅ (map_rx x !! packet)) x;
  bytes ← u32_add (rx_bytes x) shard_bytes;
  jitter ← next_jitter now tx_r_instant x;
  Ret (mkRxStats (<[packet:=shards_map]> (map_rx x)) bytes (Some tx_r_instant) (Some now) jitter (kalman x)
        (prev_frame_rx_instant x) (prev_frame_tx_r_instant x) received duplicated highest.2 highest.1).

(** The first part of [recv]: the state of the shard being read, from its prefix
    when no shard is being read yet. *)
Definition recv_header (now : T) (rd : BufferedReceiver) s
    : outcome (option RecvState * StreamSocket * BufferedReceiver) :=
  match shard_recv_state s with
  | Some st => Ret (Some st, s, rd)
  | None =>
      match peek_prefix SHARD_PREFIX_SIZE MAX_PACKET_SIZE_RECV rd with
      | (Err _, _) => Panic
      | (Ok (count, bytes), rd) =>
          if (count <? SHARD_PREFIX_SIZE)%nat then Ret (None, s, rd)
          else
            let p := parse_prefix bytes in
            let len := (4 + Z.to_nat (px_length p))%nat in
            x ← (if px_stream p =? VIDEO then
                   video_shard now len (px_packet p) (px_index p) (px_instant p) (rx_stats s)
                 else Ret (rx_stats s));
            generated ← F32.to_nanos (F32.max (px_instant p) F32.zero);
            let frame_gen_instant := checked_add EPOCH generated in
            let st := mkRecvState len (px_stream p) (px_packet p) (Z.to_nat (px_count p))
                        (Z.to_nat (px_index p)) 0 None false
                        (frame_gen_instant ≫= λ t, checked_add t deadline_) in
            Ret (Some st, set_state (set_stats s x) (Some st), rd)
      end
  end.

(** ** The buffer of the packet that the shard belongs to *)
Definition find_key (P : Z → bool) (m : gmap Z InProgressPacket) : option Z :=
  fst <$> head (filter (λ p, P p.1 = true) (hm_iter m)).
Definition is_less (c : comparison) : bool := match c with Lt => true | _ => false end.

(** A used buffer, else that of an old packet, else a new one. *)
Definition acquire_buffer (index : Z) c : list Z * StreamRecvComponents :=
  match used_buffer c with
  | b :: bs => (b, mkComponents bs (packet_queue c) (in_progress_packets c) (discarded_shards_sink c))
  | [] =>
      match find_key (λ idx, is_less (wrapping_cmp idx (wrap 32 (index - 5)))) (in_progress_packets c) with
      | Some idx =>
          match in_progress_packets c !! idx with
          | Some packet => (ip_buffer packet, set_in_progress c (delete idx (in_progress_packets c)))
          | None => ([], c)
          end
      | None => ([], c)
      end
  end.
Definition locate (now : T) (st : RecvState) c : InProgressPacket * StreamRecvComponents :=
  if should_discard st then (discarded_shards_sink c, c)
  else
    match in_progress_packets c !! packet_index st with
    | Some packet => (packet, c)
    | None =>
        let '(b, c) := acquire_buffer (packet_index st) c in
        let packet := mkInProgress b 0 ∅
          (if anchor_first then checked_add now deadline_ else frame_deadline st)
          (shards_count st) (packet_index st) in
        (packet, set_in_progress c (<[packet_index st:=packet]> (in_progress_packets c)))
    end.
(** Writes through the reference that [locate] gives. *)
Definition store (st : RecvState) (p : InProgressPacket) c : StreamRecvComponents :=
  if should_discard st then mkComponents (used_buffer c) (packet_queue c) (in_progress_packets c) p
  else set_in_progress c (<[packet_index st:=p]> (in_progress_packets c)).

(** ** Reading the shard into the buffer

    The loop reads until the shard is complete; it waits for ever if it does not
    come. *)
Fixpoint read_loop (fuel : nat) (start len cursor : nat) (buf : list Z) (rd : BufferedReceiver)
    : outcome (list Z * BufferedReceiver) :=
  match fuel with
  | O => OutOfFuel
  | S fuel =>
      if (cursor <? len)%nat then
        _ ← slice buf (start + cursor) (start + len);
        match reader_recv (len - cursor) rd with
        | (Err _, _) => Panic
        | (Ok data, rd) =>
            buf ← write_at buf (start + cursor) data;
            read_loop fuel start len (cursor + length data) buf rd
        end
      else Ret (buf, rd)
  end.
Definition read_shard (fuel : nat) (max_shard_data_size : nat) (st : RecvState) (p : InProgressPacket)
    (rd : BufferedReceiver) : outcome (InProgressPacket * BufferedReceiver) :=
  let packet_start_index := (shard_index st * max_shard_data_size)%nat in
  let blen := Nat.max (buffer_length p) (packet_start_index + shard_length st) in
  let buf := if (length (ip_buffer p) <? blen)%nat then resize (ip_buffer p) blen else ip_buffer p in
  backup ← match overwritten_data_backup st with
           | Some b => Ret b
           | None => slice buf packet_start_index (packet_start_index + SHARD_PREFIX_SIZE)
           end;
  '(buf, rd) ← read_loop fuel packet_start_index (shard_length st) (packet_cursor st) buf rd;
  buf ← write_at buf packet_start_index backup;
  let received := if should_discard st then received_shard_indices p
                  else {[shard_index st]} ∪ received_shard_indices p in
  Ret (mkInProgress buf blen received (deadline p) (num_shards_expected p) (id_frame p), rd).

(** ** A complete packet *)
Fixpoint sum_u32 (l : list Z) (acc : Z) : outcome Z :=
  match l with
  | [] => Ret acc
  | b :: l => acc ← u32_add acc b; sum_u32 l acc
  end.
Definition as_i64 (z : Z) : Z := let w := wrap 64 z in if 2 ^ 63 <=? w then w - 2 ^ 64 else w.
Definition i64_sub (a b : Z) : outcome Z :=
  if (- 2 ^ 63 <=? a - b) && (a - b <=? F32.I64_MAX) then Ret (a - b) else Panic.

Record FrameStats := mkFrameStats {
  frame_span : f32;
  frame_interarrival : f32;
  all_bytes_in_frame : Z;
  all_bytes_in_frame_app : Z;
  nada_owd_us : option Z
}.
Definition f1 : f32 := F32.of_Z 1.

(** The one-way delay gradient, filtered. *)
Definition kalman_step (interarrival tx_r : f32) (prev_tx_r : option f32) (k : KalmanFilter) : KalmanFilter :=
  let '(ow, last_tx, last_rx) :=
    match prev_tx_r with
    | Some prev => (F32.sub interarrival (F32.sub tx_r prev), tx_r, prev)
    | None => (ow_delay k, last_tx_time k, last_rx_time k)
    end in
  let gain := F32.div (F32.add (p_prev k) Q_KALMAN)
                (F32.add (F32.add (p_prev k) Q_KALMAN) (noise_estimation k)) in
  let m := F32.add (F32.mul (F32.sub f1 gain) (m_prev k)) (F32.mul gain ow) in
  let residual := F32.sub ow (m_prev k) in
  let noise := F32.add (F32.mul (ratio 95 100) (noise_prev k))
                 (F32.mul (powf residual (F32.of_Z 2)) (ratio 5 100)) in
  let p := F32.mul (F32.sub f1 gain) (F32.add (p_prev k) Q_KALMAN) in
  mkKalman ow m p noise residual noise m p gain (F32.add (measured_delay k) m) last_tx last_rx.

(** The frame's one-way delay in microseconds, when its first shard is known. *)
Definition frame_owd (inner_map : gmap Z ShardMapStats) (max_time : T) : outcome (option Z) :=
  match inner_map !! 0 with
  | Some first =>
      d ← duration_since max_time EPOCH;
      o ← i64_sub (as_i64 (d / 1000)) (F32.as_micros_i64 (sm_tx_r_instant first));
      Ret (Some o)
  | None => Ret None
  end.

Definition video_frame (st : RecvState) (x : RxStats) : outcome (FrameStats * RxStats) :=
  match map_rx x !! packet_index st with
  | None => Ret (mkFrameStats f0 f0 0 0 None, x)
  | Some inner_map =>
      match map snd (hm_iter inner_map) with
      | [] => Panic
      | v :: vs =>
          let min_time := foldl (λ t y, time_min t (sm_rx_instant y)) (sm_rx_instant v) vs in
          let max_time := foldl (λ t y, time_max t (sm_rx_instant y)) (sm_rx_instant v) vs in
          span ← duration_since max_time min_time;
          owd ← frame_owd inner_map max_time;
          let interarrival :=
            if decide (prev_frame_rx_instant x = EPOCH) then F32.of_nanos 0
            else F32.of_nanos (default 0 (checked_duration_since min_time (prev_frame_rx_instant x))) in
          bytes ← sum_u32 (map sm_rx_bytes (v :: vs)) 0;
          bytes_app ← sum_u32 (map sm_rx_bytes_app (v :: vs)) 0;
          let '(k, prev_tx) :=
            match inner_map !! 0 with
            | Some first => (kalman_step interarrival (sm_tx_r_instant first) (prev_frame_tx_r_instant x) (kalman x),
                             Some (sm_tx_r_instant first))
            | None => (kalman x, prev_frame_tx_r_instant x)
            end in
          Ret (mkFrameStats (F32.of_nanos span) interarrival bytes bytes_app owd,
               mkRxStats (map_rx x) (rx_bytes x) (prev_shard_tx_r_instant x) (prev_shard_rx_instant x)
                 (interarrival_jitter x) k min_time prev_tx (rx_shard_counter x)
                 (duplicated_shard_counter x) (highest_rx_shard_index x) (highest_rx_frame_index x))
      end
  end.

(** The counters start again after a video frame, and only the shards of the
    latest five frames are kept. *)
Definition next_frame (index : Z) (x : RxStats) : RxStats :=
  let keys := filter (λ idx, is_less (wrapping_cmp (wrap 32 (idx + 5)) index) = true) (map fst (hm_iter (map_rx x))) in
  mkRxStats (foldl (λ m idx, delete idx m) (map_rx x) keys) 0 (prev_shard_tx_r_instant x)
    (prev_shard_rx_instant x) (interarrival_jitter x) (kalman x) (prev_frame_rx_instant x)
    (prev_frame_tx_r_instant x) 0 0 (highest_rx_shard_index x) (highest_rx_frame_index x).

Definition complete_packet (st : RecvState) (blen : nat) c (x : RxStats)
    : outcome (StreamRecvComponents * RxStats) :=
  '(f, x) ← (if stream_id st =? VIDEO then video_frame st x
             else Ret (mkFrameStats f0 f0 0 0 None, x));
  packet ← unwrap (in_progress_packets c !! packet_index st);
  let r := mkReconstructed (packet_index st) (ip_buffer packet) blen (packet_index st)
    (frame_span f) (frame_interarrival f) (interarrival_jitter x) (ow_delay (kalman x))
    (m_current (kalman x)) (rx_bytes x) (all_bytes_in_frame f) (all_bytes_in_frame_app f)
    (rx_shard_counter x) (duplicated_shard_counter x) (highest_rx_frame_index x)
    (highest_rx_shard_index x) (last_tx_time (kalman x)) (last_rx_time (kalman x)) (nada_owd_us f)
    (wrap 32 (Z.of_nat (shards_count st))) in
  Ret (mkComponents (used_buffer c ++ [[]]) (packet_queue c ++ [r])
         (delete (packet_index st) (in_progress_packets c)) (discarded_shards_sink c),
       if stream_id st =? VIDEO then next_frame (packet_index st) x else x).

(** What [ALVR_ORIGINAL_SOCKETRX_BEHAVIOR] adds: packets older than the shard's are
    given up.  Every pass removes one. *)
Fixpoint discard_older (n : nat) (index : Z) (lost expected : gmap Z nat) c
    : outcome (gmap Z nat * gmap Z nat * StreamRecvComponents) :=
  match n with
  | O => Ret (lost, expected, c)
  | S n =>
      match find_key (λ idx, is_less (wrapping_cmp idx index)) (in_progress_packets c) with
      | None => Ret (lost, expected, c)
      | Some idx =>
          packet ← unwrap (in_progress_packets c !! idx);
          shards_lost ← usub (num_shards_expected packet) (size (received_shard_indices packet));
          discard_older n index (<[idx:=shards_lost]> lost)
            (if nada_fix then <[idx:=num_shards_expected packet]> expected else expected)
            (mkComponents (used_buffer c ++ [ip_buffer packet]) (packet_queue c)
               (delete idx (in_progress_packets c)) (discarded_shards_sink c))
      end
  end.

(** ** [StreamSocket::recv] *)
Definition recv_shard (fuel : nat) (st : RecvState) (now : T) c s (rd : BufferedReceiver)
    : outcome (StreamSocket * BufferedReceiver) :=
  let '(p, c) := locate now st c in
  max_shard_data_size ← usub (max_packet_size s) SHARD_PREFIX_SIZE;
  '(p, rd) ← read_shard fuel max_shard_data_size st p rd;
  let c := store st p c in
  '(c, x) ← (if (size (received_shard_indices p) =? shards_count st)%nat then
               complete_packet st (buffer_length p) c (rx_stats s)
             else Ret (c, rx_stats s));
  s ← sweep_expired_deadlines now (set_stats (set_components s (<[stream_id st:=c]> (stream_recv_components s))) x);
  s ← (if ALVR_ORIGINAL_SOCKETRX_BEHAVIOR then
         c ← unwrap (stream_recv_components s !! stream_id st);
         '(lost, expected, c) ← discard_older (size (in_progress_packets c)) (packet_index st)
                                  (lost_shards_deadline_map s) (lost_shards_expected_map s) c;
         Ret (mkSocket (max_packet_size s) (shard_recv_state s) (<[stream_id st:=c]> (stream_recv_components s))
                (rx_stats s) lost expected)
       else Ret s);
  Ret (set_state s None, rd).
Definition recv (fuel : nat) (now : T) s (rd : BufferedReceiver)
    : outcome (result unit ConnectionError * StreamSocket * BufferedReceiver) :=
  '(st, s, rd) ← recv_header now rd s;
  match st with
  | None => Ret (Err TryAgain, s, rd)
  | Some st =>
      match stream_recv_components s !! stream_id st with
      | None => Ret (Err TryAgain, s, rd)
      | Some c =>
          '(s, rd) ← recv_shard fuel st now c s rd;
          Ret (Ok tt, s, rd)
      end
  end.

(** ** [StreamReceiver]: the packets of a stream, in order

    [connected] says whether the socket still holds the other ends of the
    stream's two channels, whose contents are in the components. *)
Record StreamReceiver := mkStreamReceiver {
  last_packet_index : option Z;
  sr_frame_interarrival : f32;
  sr_rx_bytes : Z;
  sr_rx_shard_counter : Z;
  sr_duplicated_shard_counter : Z
}.
Definition stream_receiver_new : StreamReceiver := mkStreamReceiver None f0 0 0 0.

Record ReceiverData := mkReceiverData {
  rd_packet : ReconstructedPacket;  (* the fields taken from the packet *)
  rd_had_packet_loss : bool;
  rd_frames_skipped : Z;
  rd_frame_interarrival : f32;
  rd_rx_bytes : Z;
  rd_rx_shard_counter : Z;
  rd_duplicated_shard_counter : Z
}.
Definition VIDEO_HEADER_SIZE : nat := 13.
(** [ReceiverData::get] *)
Definition data_get (d : ReceiverData) : outcome (list Z) :=
  slice (rp_buffer (rd_packet d)) (SHARD_PREFIX_SIZE + VIDEO_HEADER_SIZE) (rp_size (rd_packet d)).

Definition u32_sub (a b : Z) : outcome Z := if b <=? a then Ret (a - b) else Panic.

(** Whether the packet is to be handed over, and how many before it were skipped. *)
Definition check_order (index : Z) (last : option Z) : outcome (option (bool * Z)) :=
  match last with
  | None => Ret (Some (false, 0))
  | Some last_idx =>
      let next := wrap 32 (last_idx + 1) in
      match wrapping_cmp index next with
      | Eq => Ret (Some (false, 0))
      | Gt => skipped ← u32_sub index next; Ret (Some (true, skipped))
      | Lt => Ret None
      end
  end.

Definition receiver_recv (connected : bool) (r : StreamReceiver) c
    : outcome (result ReceiverData ConnectionError * StreamReceiver * StreamRecvComponents) :=
  match packet_queue c with
  | [] => Ret (Err (if connected then TryAgain else Other), r, c)
  | packet :: q =>
      let c := mkComponents (used_buffer c) q (in_progress_packets c) (discarded_shards_sink c) in
      let interarrival := F32.add (sr_frame_interarrival r) (rp_frame_interarrival packet) in
      bytes ← u32_add (sr_rx_bytes r) (rp_rx_bytes packet);
      shards ← u32_add (sr_rx_shard_counter r) (rp_rx_shard_counter packet);
      duplicated ← u32_add (sr_duplicated_shard_counter r) (rp_duplicated_shard_counter packet);
      verdict ← check_order (rp_index packet) (last_packet_index r);
      Ret match verdict with
          | None =>
              let r := mkStreamReceiver (last_packet_index r) interarrival bytes shards duplicated in
              if connected then
                (Err TryAgain, r,
                 mkComponents (used_buffer c ++ [rp_buffer packet]) q (in_progress_packets c)
                   (discarded_shards_sink c))
              else (Err Other, r, c)
          | Some (loss, skipped) =>
              (Ok (mkReceiverData packet loss skipped interarrival bytes shards duplicated),
               mkStreamReceiver (Some (rp_index packet)) f0 0 0 0, c)
          end
  end.
End receiver.
Arguments InProgressPacket T : clear implicits.
Arguments ShardMapStats T : clear implicits.
Arguments RecvState T : clear implicits.
Arguments StreamRecvComponents T : clear implicits.
Arguments RxStats T : clear implicits.
Arguments StreamSocket T : clear implicits.
End Socket.
