(* ===== verification/Shards.v ===== *)
(** * Shards on the wire

    The bytes of a shard: that [parse_prefix] reads what the sender writes, and
    that [StreamSender::send], which writes the prefix of each shard over the end
    of the one before, sends the payload cut in pieces. *)

From Stdlib Require Import SpecFloat.
From S2P Require Import Prelude StablePq Scheduler SeqExecutor F32 F32Facts StreamSocket.

Module Shards.
Import Socket.

(** ** Bytes *)
Lemma be_bytes_length n z : length (be_bytes n z) = n.
Proof. induction n; simpl; lia. Qed.

Lemma from_be_app l1 l2 acc :
  foldl (λ acc b, acc * 256 + b) acc (l1 ++ l2)
  = foldl (λ acc b, acc * 256 + b) (foldl (λ acc b, acc * 256 + b) acc l1) l2.
Proof. by rewrite foldl_app. Qed.

Lemma from_be_acc n z acc :
  foldl (λ acc b, acc * 256 + b) acc (be_bytes n z) = acc * 256 ^ Z.of_nat n + z `mod` 256 ^ Z.of_nat n.
Proof.
  revert acc. induction n as [|n IH]; intros acc; cbn [be_bytes foldl].
  - rewrite Z.mod_1_r. simpl. lia.
  - rewrite IH. rewrite Nat2Z.inj_succ, Z.pow_succ_r by lia.
    set (p := 256 ^ Z.of_nat n). assert (0 < p) by (apply Z.pow_pos_nonneg; lia).
    rewrite (Z.mul_comm 256 p), Z.rem_mul_r by lia. ring.
Qed.

Lemma from_be_bytes n z : 0 ≤ z < 256 ^ Z.of_nat n → from_be (be_bytes n z) = z.
Proof. intros. unfold from_be. rewrite from_be_acc, Z.mod_small by done. lia. Qed.

(** ** Floats and their bits *)
Lemma valid_finite s m e : F32.valid (S754_finite s m e) = true →
  -149 ≤ e ≤ 104 ∧ Z.pos m < 2 ^ 24 ∧ (2 ^ 23 ≤ Z.pos m ∨ e = -149).
Proof.
  unfold F32.valid. cbn [valid_binary]. unfold bounded. rewrite andb_true_iff, Z.leb_le.
  unfold canonical_mantissa, fexp, emin, F32.prec, F32.emax. rewrite Z.eqb_eq.
  intros [Hc He]. pose proof (digits2_pos_bound m) as [Hl Hu].
  assert (Hd : Z.pos (digits2_pos m) ≤ 24) by lia.
  split; [lia|]. split.
  - eapply Z.lt_le_trans; [done|]. apply Z.pow_le_mono_r; lia.
  - destruct (decide (e = -149)); [by right|left].
    assert (Z.pos (digits2_pos m) = 24) as Hdd by lia. by rewrite Hdd in Hl.
Qed.

Lemma to_bits_range x : F32.valid x = true → 0 ≤ F32.to_bits x < 2 ^ 32.
Proof.
  destruct x as [[]|[]| |s m e]; intros Hv; try (simpl; lia).
  apply valid_finite in Hv as (He & Hm & Hd). unfold F32.to_bits.
  destruct (Z.ltb_spec (Z.pos m) (2 ^ 23)); destruct s; lia.
Qed.

Lemma of_to_bits x : F32.valid x = true → F32.of_bits (F32.to_bits x) = x.
Proof.
  destruct x as [[]|[]| |s m e]; intros Hv; [by vm_compute..|].
  apply valid_finite in Hv as (He & Hm & Hd). unfold F32.to_bits.
  assert (∃ g, (if s then 2 ^ 31 else 0) = g * 2 ^ 31 ∧ g = (if s then 1 else 0) ∧ (g = 0 ∨ g = 1)) as (g & -> & Hg & H01)
    by (destruct s; eexists; repeat split; lia).
  assert ((1 <=? g) = s) as Hs by (subst g; by destruct s). clear Hg.
  change (2 ^ 31) with 2147483648. change (2 ^ 23) with 8388608 in *. change (2 ^ 24) with 16777216 in *.
  destruct (Z.ltb_spec (Z.pos m) 8388608) as [Hl|Hl]; unfold F32.of_bits;
    change (2 ^ 31) with 2147483648; change (2 ^ 23) with 8388608.
  - destruct Hd as [?| ->]; [lia|].
    assert ((g * 2147483648 + Z.pos m) / 2147483648 = g) as -> by (Z.to_euclidean_division_equations; lia).
    assert (((g * 2147483648 + Z.pos m) / 8388608) `mod` 256 = 0) as -> by (Z.to_euclidean_division_equations; lia).
    assert ((g * 2147483648 + Z.pos m) `mod` 8388608 = Z.pos m) as -> by (Z.to_euclidean_division_equations; lia).
    by rewrite Hs.
  - set (b := g * 2147483648 + (e + 150) * 8388608 + (Z.pos m - 8388608)).
    assert (b / 2147483648 = g) as -> by (Z.to_euclidean_division_equations; lia).
    assert ((b / 8388608) `mod` 256 = e + 150) as -> by (Z.to_euclidean_division_equations; lia).
    assert (b `mod` 8388608 = Z.pos m - 8388608) as -> by (Z.to_euclidean_division_equations; lia).
    destruct (Z.eqb_spec (e + 150) 255); [lia|]. destruct (Z.eqb_spec (e + 150) 0); [lia|].
    replace (Z.pos m - 8388608 + 8388608) with (Z.pos m) by lia.
    replace (e + 150 - 150) with e by lia. by rewrite Hs.
Qed.

(** ** The prefix *)
Definition prefix_wf (p : Prefix) : Prop :=
  0 ≤ px_length p < 2 ^ 32 ∧ 0 ≤ px_stream p < 2 ^ 16 ∧ 0 ≤ px_packet p < 2 ^ 32
  ∧ 0 ≤ px_count p < 2 ^ 32 ∧ 0 ≤ px_index p < 2 ^ 32 ∧ F32.valid (px_instant p) = true.

Lemma prefix_bytes_length p : length (prefix_bytes p) = SHARD_PREFIX_SIZE.
Proof. unfold prefix_bytes. by rewrite !length_app, !be_bytes_length. Qed.

Lemma field_app (i : nat) (l1 l2 l3 : list Z) :
  length l1 = i → field (l1 ++ l2 ++ l3) i (i + length l2) = from_be l2.
Proof.
  intros <-. unfold field. rewrite drop_app_length.
  replace (length l1 + length l2 - length l1)%nat with (length l2) by lia. by rewrite take_app_length.
Qed.

Lemma field_be (n i j : nat) l1 z l3 l :
  length l1 = i → j = (i + n)%nat → 0 ≤ z < 256 ^ Z.of_nat n → l = l1 ++ be_bytes n z ++ l3 → field l i j = z.
Proof.
  intros Hl -> Hz ->. rewrite <-(be_bytes_length n z) at 2. rewrite field_app by done. by apply from_be_bytes.
Qed.

Lemma parse_prefix_bytes p rest : prefix_wf p → parse_prefix (prefix_bytes p ++ rest) = p.
Proof.
  intros (H1 & H2 & H3 & H4 & H5 & H6). pose proof (to_bits_range _ H6) as H7.
  unfold prefix_bytes. rewrite <-!app_assoc.
  set (b1 := be_bytes 4 (px_length p)). set (b2 := be_bytes 2 (px_stream p)).
  set (b3 := be_bytes 4 (px_packet p)). set (b4 := be_bytes 4 (px_count p)).
  set (b5 := be_bytes 4 (px_index p)). set (b6 := be_bytes 4 (F32.to_bits (px_instant p))).
  unfold parse_prefix.
  rewrite (field_be 4 0 4 [] (px_length p) (b2 ++ b3 ++ b4 ++ b5 ++ b6 ++ rest)) by (done || lia).
  rewrite (field_be 2 4 6 b1 (px_stream p) (b3 ++ b4 ++ b5 ++ b6 ++ rest)) by (done || lia).
  rewrite (field_be 4 6 10 (b1 ++ b2) (px_packet p) (b4 ++ b5 ++ b6 ++ rest)) by (done || lia).
  rewrite (field_be 4 10 14 (b1 ++ b2 ++ b3) (px_count p) (b5 ++ b6 ++ rest)) by (done || lia).
  rewrite (field_be 4 14 18 (b1 ++ b2 ++ b3 ++ b4) (px_index p) (b6 ++ rest)) by (done || lia).
  rewrite (field_be 4 18 22 (b1 ++ b2 ++ b3 ++ b4 ++ b5) (F32.to_bits (px_instant p)) rest) by (done || lia).
  rewrite of_to_bits by done. by destruct p.
Qed.

(** ** A payload cut in shards *)
Definition shards_of (m n : nat) : nat := ((n + m - 1) / m)%nat.
Definition chunk (m : nat) (data : list Z) (i : nat) : list Z := take m (drop (i * m) data).
Definition shard_prefix (m : nat) (stream packet : Z) (instant : f32) (data : list Z) (i : nat) : Prefix :=
  mkPrefix (Z.of_nat (18 + length (chunk m data i))) stream packet (Z.of_nat (shards_of m (length data)))
    (Z.of_nat i) instant.
Definition shard (m : nat) (stream packet : Z) (instant : f32) (data : list Z) (i : nat) : list Z :=
  prefix_bytes (shard_prefix m stream packet instant data i) ++ chunk m data i.

Lemma shards_of_lt m n i : (0 < m)%nat → (i < shards_of m n)%nat ↔ (i * m < n)%nat.
Proof.
  intros Hm. unfold shards_of.
  assert (i < (n + m - 1) / m ↔ S i <= (n + m - 1) / m)%nat as -> by lia.
  split; intros.
  - assert (m * S i <= n + m - 1)%nat by (etrans; [apply Nat.mul_le_mono_l; eassumption|]; apply Nat.Div0.mul_div_le). nia.
  - apply Nat.div_le_lower_bound; nia.
Qed.

Lemma chunk_length m data i : length (chunk m data i) = Nat.min m (length data - i * m).
Proof. unfold chunk. by rewrite length_take, length_drop. Qed.

Lemma chunks_concat m data i n :
  concat (chunk m data <$> seq i n) = take (n * m) (drop (i * m) data).
Proof.
  revert i. induction n as [|n IH]; intros i; [done|]. cbn [seq]. rewrite fmap_cons. cbn [concat].
  rewrite IH. unfold chunk. replace (S i * m)%nat with (i * m + m)%nat by lia.
  rewrite <-drop_drop. replace (S n * m)%nat with (m + n * m)%nat by lia.
  apply take_take_drop.
Qed.

Lemma chunks_all m data : (0 < m)%nat → concat (chunk m data <$> seq 0 (shards_of m (length data))) = data.
Proof.
  intros Hm. rewrite chunks_concat, drop_0. apply take_ge.
  destruct (decide (shards_of m (length data) * m < length data)%nat) as [Hlt|]; [|lia].
  apply (shards_of_lt m) in Hlt; lia.
Qed.

Lemma drop_shard m stream packet instant data i :
  drop SHARD_PREFIX_SIZE (shard m stream packet instant data i) = chunk m data i.
Proof. unfold shard. apply drop_app_length', eq_sym, prefix_bytes_length. Qed.

(** ** Writing the prefixes *)
Lemma write_at_app l1 l2 i d : i = length l1 → (length d ≤ length l2)%nat →
  write_at (l1 ++ l2) i d = Ret (l1 ++ d ++ drop (length d) l2).
Proof.
  intros -> Hd. unfold write_at. rewrite length_app.
  destruct (Nat.leb_spec (length l1 + length d) (length l1 + length l2)); [|lia].
  by rewrite take_app_length, drop_app_add.
Qed.

Lemma write_prefix_ok p start l : (start + SHARD_PREFIX_SIZE ≤ length l)%nat →
  write_prefix p start l = Ret (take start l ++ prefix_bytes p ++ drop (start + SHARD_PREFIX_SIZE) l).
Proof.
  intros Hl. unfold SHARD_PREFIX_SIZE in *. rewrite <-(take_drop start l) at 1.
  set (l1 := take start l). assert (length l1 = start) as H1 by (unfold l1; rewrite length_take; lia).
  assert (length (drop start l) = length l - start)%nat as H2 by apply length_drop.
  unfold write_prefix, prefix_bytes.
  set (b1 := be_bytes 4 (px_length p)). set (b2 := be_bytes 2 (px_stream p)).
  set (b3 := be_bytes 4 (px_packet p)). set (b4 := be_bytes 4 (px_count p)).
  set (b5 := be_bytes 4 (px_index p)). set (b6 := be_bytes 4 (F32.to_bits (px_instant p))).
  assert (length b1 = 4 ∧ length b2 = 2 ∧ length b3 = 4 ∧ length b4 = 4 ∧ length b5 = 4 ∧ length b6 = 4)%nat
    as (L1 & L2 & L3 & L4 & L5 & L6) by (repeat split; apply be_bytes_length).
  rewrite write_at_app by lia. ret_step.
  rewrite (app_assoc l1 b1), write_at_app by (rewrite ?length_app, ?length_drop; lia). ret_step.
  rewrite (app_assoc (l1 ++ b1) b2), write_at_app by (rewrite ?length_app, ?length_drop; lia). ret_step.
  rewrite (app_assoc ((l1 ++ b1) ++ b2) b3), write_at_app by (rewrite ?length_app, ?length_drop; lia).
  ret_step.
  rewrite (app_assoc (((l1 ++ b1) ++ b2) ++ b3) b4), write_at_app by (rewrite ?length_app, ?length_drop; lia).
  ret_step.
  rewrite (app_assoc ((((l1 ++ b1) ++ b2) ++ b3) ++ b4) b5), write_at_app by (rewrite ?length_app, ?length_drop; lia).
  rewrite !drop_drop, L1, L2, L3, L4, L5, L6, <-!app_assoc. repeat f_equal; lia.
Qed.

Section send.
Context {T : Type} `{TaiTime T}.
Implicit Types (now : T) (tx : StreamSender T).

Lemma duration_since_ok (a b : T) : nanos b ≤ nanos a → duration_since a b = Ret (nanos a - nanos b).
Proof. intros Hle. unfold duration_since, checked_duration_since. by rewrite (proj2 (time_le_spec b a)). Qed.

Lemma slice_ok l i j : (i ≤ j)%nat → (j ≤ length l)%nat → slice l i j = Ret (take (j - i) (drop i l)).
Proof.
  intros Hi Hj. unfold slice.
  by rewrite (proj2 (Nat.leb_le i j)), (proj2 (Nat.leb_le j (length l))).
Qed.

Lemma usub_ok a b : (b ≤ a)%nat → usub a b = Ret (a - b)%nat.
Proof. intros Hle. unfold usub. by rewrite (proj2 (Nat.leb_le b a)). Qed.

Lemma send_loop_ok n idx m data now inner out tx :
  (0 < m)%nat → tx_max_packet_size tx = (m + SHARD_PREFIX_SIZE)%nat → nanos (ref_time tx) ≤ nanos now →
  Z.of_nat (SHARD_PREFIX_SIZE + length data) < 2 ^ 32 →
  (idx + n = shards_of m (length data))%nat →
  (SHARD_PREFIX_SIZE + length data ≤ length inner)%nat →
  (n = 0%nat ∨ take (length data - idx * m) (drop (SHARD_PREFIX_SIZE + idx * m) inner) = drop (idx * m) data) →
  ∃ inner', length inner' = length inner ∧
    send_loop n idx m (SHARD_PREFIX_SIZE + length data) (shards_of m (length data)) now inner out tx =
    Ret (inner',
         out ++ (shard m (tx_stream_id tx) (next_packet_index tx) (F32.of_nanos (nanos now - nanos (ref_time tx))) data
                 <$> seq idx n),
         if (idx =? 0)%nat && (0 <? n)%nat
         then set_tracker tx (tracker_insert (next_packet_index tx) now (frame_tracker tx)) else tx).
Proof.
  intros Hm. revert idx inner out tx.
  induction n as [|n IH]; intros idx inner out tx Hmps Hnow H32 Hk Hlen Hrest.
  - exists inner. split; [done|]. cbn. by rewrite app_nil_r, andb_false_r.
  - destruct Hrest as [|Hrest]; [done|].
    assert (Hidx : (idx * m < length data)%nat) by (apply (shards_of_lt m); lia).
    assert (Hk32 : (shards_of m (length data) ≤ length data)%nat).
    { destruct (decide (shards_of m (length data) ≤ length data)%nat); [done|].
      assert (length data * m < length data)%nat by (apply (shards_of_lt m); lia). nia. }
    unfold SHARD_PREFIX_SIZE in *. cbn [send_loop].
    rewrite slice_ok by lia. ret_step.
    rewrite usub_ok by lia. ret_step.
    rewrite duration_since_ok by done. ret_step. rewrite Hmps.
    set (c := chunk m data idx).
    assert (Hc : length c = Nat.min m (length data - idx * m)) by apply chunk_length.
    replace (Nat.min (m + 22) (22 + length data - idx * m)) with (22 + length c)%nat by lia.
    rewrite usub_ok by lia. ret_step.
    rewrite write_prefix_ok by (unfold SHARD_PREFIX_SIZE; lia). ret_step.
    unfold SHARD_PREFIX_SIZE.
    rewrite !wrap_id by lia. replace (22 + length c - 4)%nat with (18 + length c)%nat by lia.
    change (mkPrefix _ _ _ _ _ _) with
      (shard_prefix m (tx_stream_id tx) (next_packet_index tx) (F32.of_nanos (nanos now - nanos (ref_time tx))) data idx).
    set (p := shard_prefix _ _ _ _ _ _).
    pose proof (prefix_bytes_length p) as Hp. unfold SHARD_PREFIX_SIZE in Hp.
    set (start := (idx * m)%nat) in *.
    set (inner1 := take start inner ++ prefix_bytes p ++ drop (start + 22) inner).
    assert (length inner1 = length inner) as Hl1.
    { unfold inner1. rewrite !length_app, length_take, length_drop. lia. }
    assert (length (take start inner) = start) as Hts by (rewrite length_take; lia).
    rewrite slice_ok by lia. ret_step.
    assert (take (start + (22 + length c) - start) (drop start inner1) = prefix_bytes p ++ c) as ->.
    { unfold inner1. rewrite drop_app_length' by done.
      replace (start + (22 + length c) - start)%nat with (22 + length c)%nat by lia.
      rewrite take_app_ge by lia. f_equal. rewrite Hp.
      replace (22 + length c - 22)%nat with (length c) by lia. rewrite Hc. unfold c, chunk.
      fold start. rewrite <-Hrest, take_take, (Nat.add_comm start 22). f_equal; lia. }
    edestruct (IH (S idx) inner1 (out ++ [prefix_bytes p ++ c])
      (if (idx =? 0)%nat then set_tracker tx (tracker_insert (next_packet_index tx) now (frame_tracker tx)) else tx))
      as (inner' & Hli & Hs).
    + by destruct (idx =? 0)%nat.
    + by destruct (idx =? 0)%nat.
    + done.
    + lia.
    + lia.
    + destruct n as [|n]; [by left|right].
      unfold inner1. rewrite app_assoc, drop_app_ge by (rewrite length_app; lia).
      rewrite length_app, Hts, Hp, drop_drop.
      replace (start + 22 + (22 + S idx * m - (start + 22)))%nat with ((22 + start) + m)%nat by lia.
      replace (S idx * m)%nat with (start + m)%nat by lia.
      transitivity (drop m (drop start data)); [|by rewrite drop_drop].
      rewrite <-Hrest, skipn_firstn_comm, drop_drop. f_equal. lia.
    + exists inner'. split; [congruence|]. rewrite Hs. cbn [seq]. rewrite fmap_cons, <-app_assoc.
      cbn [app Nat.eqb andb].
      destruct (idx =? 0)%nat; reflexivity.
Qed.

(** The payload of a buffer: all that follows the prefix, the header included. *)
Definition payload (b : Buffer) : list Z :=
  take (hidden_offset b + bf_length b - SHARD_PREFIX_SIZE) (drop SHARD_PREFIX_SIZE (inner b)).
Definition buffer_wf (b : Buffer) : Prop :=
  (SHARD_PREFIX_SIZE ≤ hidden_offset b)%nat ∧ (hidden_offset b + bf_length b ≤ length (inner b))%nat.
Definition counted (m n : nat) : Prop :=
  F32.ceil_usize (F32.div (F32.of_Z (Z.of_nat n)) (F32.of_Z (Z.of_nat m))) = Z.of_nat (shards_of m n).
(** Single precision counts the shards of packets below 16 MiB exactly, ... *)
Lemma counted_small m n : (0 < m)%nat → Z.of_nat m < 2 ^ 24 → Z.of_nat n < 2 ^ 24 → counted m n.
Proof.
  intros Hm Hm24 Hn. unfold counted, shards_of. rewrite F32Facts.ceil_div_exact by lia.
  rewrite Nat2Z.inj_div. do 2 f_equal. lia.
Qed.
(** ... and not the one byte more: its last byte gets no shard. *)
Lemma counted_boundary : F32.ceil_usize (F32.div (F32.of_Z (2 ^ 24 + 1)) (F32.of_Z (2 ^ 14))) = 2 ^ 10.
Proof. vm_compute. reflexivity. Qed.

Lemma send_ok b now out tx m :
  (0 < m)%nat → tx_max_packet_size tx = (m + SHARD_PREFIX_SIZE)%nat → buffer_wf b →
  nanos (ref_time tx) ≤ nanos now → Z.of_nat (hidden_offset b + bf_length b) < 2 ^ 32 →
  counted m (length (payload b)) →
  let k := shards_of m (length (payload b)) in
  ∃ used, send b now out tx =
    Ret (out ++ (shard m (tx_stream_id tx) (next_packet_index tx) (F32.of_nanos (nanos now - nanos (ref_time tx))) (payload b) <$> seq 0 k),
         mkSender (tx_stream_id tx) (tx_max_packet_size tx) (next_packet_index tx) (used_buffers tx ++ [used]) k
           (ref_time tx)
           (if (0 <? k)%nat then tracker_insert (next_packet_index tx) now (frame_tracker tx) else frame_tracker tx)).
Proof.
  intros Hm Hmps [Hho Hfit] Hnow H32 Hcount k.
  assert (length (payload b) = hidden_offset b + bf_length b - SHARD_PREFIX_SIZE)%nat as Hlen.
  { unfold payload. rewrite length_take, length_drop. lia. }
  unfold send. rewrite Hmps, usub_ok by lia. ret_step.
  rewrite usub_ok by lia. ret_step. rewrite <-Hlen.
  replace (m + SHARD_PREFIX_SIZE - SHARD_PREFIX_SIZE)%nat with m by lia.
  rewrite Hcount, Nat2Z.id.
  replace (hidden_offset b + bf_length b)%nat with (SHARD_PREFIX_SIZE + length (payload b))%nat by lia.
  destruct (send_loop_ok (shards_of m (length (payload b))) 0 m (payload b) now (inner b) out tx)
    as (used & _ & ->); [done..|lia|done|lia| |].
  - right. rewrite Nat.mul_0_l, Nat.sub_0_r, Nat.add_0_r, drop_0. unfold payload at 2. by rewrite Hlen.
  - exists used. ret_step. rewrite Nat.eqb_refl. cbn [andb]. fold k.
    rewrite <-Hmps. destruct (0 <? k)%nat; reflexivity.
Qed.
(** C30: [StreamSender::send] on a well-formed buffer below 16 MiB, whose number of shards single
    precision counts exactly: the messages it sends are the shards of the payload,
    in order, each with its own prefix, although the prefix of every shard is
    written over the end of the one before; together they carry the payload and
    nothing else; and the sender notes the time of the frame, its number of shards
    and the used buffer. *)
Theorem send_cuts_payload b now out tx m :
  (0 < m)%nat → Z.of_nat m < 2 ^ 24 → tx_max_packet_size tx = (m + SHARD_PREFIX_SIZE)%nat → buffer_wf b →
  nanos (ref_time tx) ≤ nanos now → Z.of_nat (hidden_offset b + bf_length b) < 2 ^ 24 →
  let k := shards_of m (length (payload b)) in
  let msgs := shard m (tx_stream_id tx) (next_packet_index tx) (F32.of_nanos (nanos now - nanos (ref_time tx)))
                (payload b) <$> seq 0 k in
  concat (drop SHARD_PREFIX_SIZE <$> msgs) = payload b ∧
  ∃ used, send b now out tx =
    Ret (out ++ msgs,
         mkSender (tx_stream_id tx) (tx_max_packet_size tx) (next_packet_index tx) (used_buffers tx ++ [used]) k
           (ref_time tx)
           (if (0 <? k)%nat then tracker_insert (next_packet_index tx) now (frame_tracker tx) else frame_tracker tx)).
Proof.
  intros Hm Hm24 Hmps Hwf Hnow H24 k msgs. split.
  2:{ apply send_ok; try done; [lia|]. apply counted_small; [done..|]. unfold payload. rewrite length_take. lia. }
  unfold msgs. rewrite <-list_fmap_compose.
  rewrite (list_fmap_ext _ (chunk m (payload b))) by (intros; apply drop_shard). by apply chunks_all.
Qed.

(** What the receiver reads in the prefix of a shard is what the sender wrote. *)
Theorem prefix_roundtrip p rest : prefix_wf p →
  parse_prefix (take SHARD_PREFIX_SIZE (prefix_bytes p ++ rest)) = p ∧
  parse_shard_data (prefix_bytes p ++ rest) =
    (if px_length p + 4 <=? U32_MAX
     then Ret (Ok (px_length p + 4, px_stream p, px_packet p, px_count p, px_index p, px_instant p))
     else Panic).
Proof.
  intros Hp. pose proof (prefix_bytes_length p) as Hl. split.
  - rewrite take_app_length' by done. rewrite <-(app_nil_r (prefix_bytes p)). by apply parse_prefix_bytes.
  - unfold parse_shard_data. rewrite length_app, Hl. cbn [Nat.ltb Nat.leb Nat.add SHARD_PREFIX_SIZE].
    rewrite parse_prefix_bytes by done.
    assert (field (prefix_bytes p ++ rest) 0 4 = px_length p) as ->.
    { pose proof (parse_prefix_bytes p rest Hp) as E. by apply (f_equal px_length) in E. }
    unfold u32_add. by destruct (px_length p + 4 <=? U32_MAX).
Qed.
End send.
End Shards.

(** ** A payload of ten bytes in shards of four *)
Module ShardsDemo.
Import Socket Shards.

Definition demo_buffer : Buffer := mkBuffer (replicate 22 0 ++ [1; 2; 3; 4; 5; 6; 7; 8; 9; 10; 77; 77]) 24 8.
Definition demo_sender : StreamSender mono := request_stream 26 3 (mono_of 0).

Lemma demo_buffer_wf : buffer_wf demo_buffer.
Proof. split; vm_compute; lia. Qed.
Lemma send_cuts_payload_witness :
  ∃ msgs tx, send demo_buffer (mono_of 1500000000) [] demo_sender = Ret ([] ++ msgs, tx) ∧ tx_shards_count tx = 3%nat ∧
    concat (drop SHARD_PREFIX_SIZE <$> msgs) = [1; 2; 3; 4; 5; 6; 7; 8; 9; 10].
Proof.
  destruct (send_cuts_payload demo_buffer (mono_of 1500000000) [] demo_sender 4) as [Hc [used Hs]].
  - lia.
  - lia.
  - reflexivity.
  - exact demo_buffer_wf.
  - vm_compute. discriminate.
  - vm_compute. reflexivity.
  - eexists _, _. split; [exact Hs|]. split; [vm_compute; reflexivity|]. etrans; [exact Hc|]. vm_compute. reflexivity.
Defined.

Lemma prefix_roundtrip_witness :
  parse_prefix (take SHARD_PREFIX_SIZE (prefix_bytes (mkPrefix 1300 3 70000 12 11 (F32.of_nanos 1500000000)) ++ [1; 2; 3]))
  = mkPrefix 1300 3 70000 12 11 (F32.of_nanos 1500000000).
Proof.
  apply (prefix_roundtrip (mkPrefix 1300 3 70000 12 11 (F32.of_nanos 1500000000)) [1; 2; 3]).
  unfold prefix_wf. cbn [px_length px_stream px_packet px_count px_index px_instant].
  split_and!; try lia. vm_compute. reflexivity.
Defined.

(** A payload of more than 2^24 bytes can lose its last byte: the division in single
    precision counts one shard too few. *)
Example shard_count_rounds :
  F32.ceil_usize (F32.div (F32.of_Z 16778001) (F32.of_Z 1000)) = 16778 ∧ (16778001 + 999) / 1000 = 16779.
Proof. split; vm_compute; reflexivity. Qed.
End ShardsDemo.
