(* ===== verification/FrameDeadlines.v ===== *)
(** * Frames given up at their deadline: [StreamSocket::sweep_expired_deadlines]

    A sweep removes from every stream the frames whose deadline has come and no
    other, records for each the shards that did not come, and gives an empty
    buffer back for each buffer it drops. *)

From S2P Require Import Prelude StablePq Scheduler SeqExecutor F32 StreamSocket.

Module Deadlines.
Import Socket.
Section sweep.
Context {T : Type} `{TaiTime T} `{!Env T}.
Implicit Types (p : InProgressPacket T) (c : StreamRecvComponents T) (s : StreamSocket T).

Definition missing p : nat := (num_shards_expected p - size (received_shard_indices p))%nat.
Definition counts_ok p : Prop := (size (received_shard_indices p) ≤ num_shards_expected p)%nat.

(** What the maps of losses become when [l] is given up: one of the packets of
    [l] with that frame number has the last word. *)
Definition recorded (f : InProgressPacket T → nat) (l : list (InProgressPacket T)) (lost lost' : gmap Z nat) : Prop :=
  ∀ fr, (∃ p, p ∈ l ∧ id_frame p = fr ∧ lost' !! fr = Some (f p)) ∨
        ((∀ p, p ∈ l → id_frame p ≠ fr) ∧ lost' !! fr = lost !! fr).

Lemma recorded_nil f lost : recorded f [] lost lost.
Proof. intros fr. right. split; [|done]. intros p Hp. by apply not_elem_of_nil in Hp. Qed.
Lemma recorded_cons f p l lost lost' :
  recorded f l (<[id_frame p := f p]> lost) lost' → recorded f (p :: l) lost lost'.
Proof.
  intros Hr fr. destruct (Hr fr) as [(q & Hq & Hid & Hl)|[Hn Hl]].
  - left. exists q. split; [by right|done].
  - destruct (decide (id_frame p = fr)) as [<-|Hne].
    + left. exists p. rewrite Hl, lookup_insert_eq. split; [by left|done].
    + right. rewrite Hl, lookup_insert_ne by done. split; [|done].
      intros q [->|Hq]%elem_of_cons; [done|by apply Hn].
Qed.
Lemma recorded_app f l1 l2 m1 m2 m3 :
  recorded f l1 m1 m2 → recorded f l2 m2 m3 → recorded f (l1 ++ l2) m1 m3.
Proof.
  intros H1 H2 fr. destruct (H2 fr) as [(q & Hq & Hid & Hl)|[Hn Hl]].
  - left. exists q. rewrite elem_of_app. eauto.
  - destruct (H1 fr) as [(q & Hq & Hid & Hl1)|[Hn1 Hl1]].
    + left. exists q. rewrite elem_of_app, Hl, Hl1. eauto.
    + right. rewrite Hl, Hl1. split; [|done].
      intros q [Hq|Hq]%elem_of_app; [by apply Hn1|by apply Hn].
Qed.
Lemma recorded_elem f l l' lost lost' : (∀ p, p ∈ l ↔ p ∈ l') → recorded f l lost lost' → recorded f l' lost lost'.
Proof.
  intros Hl Hr fr. destruct (Hr fr) as [(q & Hq & Hrest)|[Hn Hrest]].
  - left. exists q. by rewrite <-Hl.
  - right. split; [|done]. intros p Hp. apply Hn. by apply Hl.
Qed.

Definition is_expired (now : T) (kp : Z * InProgressPacket T) : Prop := expired now kp.2 = true.
#[local] Instance is_expired_dec now kp : Decision (is_expired now kp).
Proof. unfold is_expired. apply _. Defined.

Definition expected_recorded (l : list (InProgressPacket T)) (m m' : gmap Z nat) : Prop :=
  if nada_fix then recorded num_shards_expected l m m' else m' = m.

Lemma sweep_expired_ok now l lost expected keys :
  Forall (λ kp, counts_ok kp.2) l →
  ∃ lost' expected',
    sweep_expired now l lost expected keys =
      Ret (lost', expected', keys ++ (fst <$> filter (is_expired now) l)) ∧
    recorded missing (snd <$> filter (is_expired now) l) lost lost' ∧
    expected_recorded (snd <$> filter (is_expired now) l) expected expected'.
Proof.
  intros Hl. revert lost expected keys. unfold expected_recorded.
  induction Hl as [|[id p] l Hp _ IH]; intros lost expected keys.
  - exists lost, expected. cbn. rewrite app_nil_r. split; [done|]. split; [apply recorded_nil|].
    destruct nada_fix; [apply recorded_nil|done].
  - cbn [sweep_expired]. simpl in Hp. destruct (expired now p) eqn:Ee.
    + rewrite filter_cons_True by done. unfold usub. unfold counts_ok in Hp.
      rewrite (proj2 (Nat.leb_le _ _) Hp). ret_step.
      edestruct IH as (lost' & expected' & -> & Hr1 & Hr2). exists lost', expected'. rewrite <-app_assoc. split; [done|].
      rewrite fmap_cons. split; [by apply recorded_cons|].
      destruct nada_fix; [by apply recorded_cons|done].
    + rewrite filter_cons_False by (unfold is_expired; cbn; congruence). apply IH.
Qed.

Definition dropped_buffer (kp : Z * InProgressPacket T) : Prop := ip_buffer kp.2 ≠ [].
#[local] Instance dropped_buffer_dec kp : Decision (dropped_buffer kp).
Proof. unfold dropped_buffer. apply _. Defined.

Lemma remove_expired_ok l c :
  NoDup (fst <$> l) → (∀ k p, (k, p) ∈ l → in_progress_packets c !! k = Some p) →
  remove_expired (fst <$> l) c =
    mkComponents (used_buffer c ++ replicate (length (filter dropped_buffer l)) []) (packet_queue c)
      (foldl (λ m k, delete k m) (in_progress_packets c) (fst <$> l)) (discarded_shards_sink c).
Proof.
  revert c. induction l as [|[k p] l IH]; intros c Hnd Hin.
  - cbn. rewrite app_nil_r. by destruct c.
  - rewrite fmap_cons in *. cbn [fst remove_expired foldl]. apply NoDup_cons in Hnd as [Hk Hnd].
    rewrite (Hin k p) by left.
    rewrite IH; cbn [used_buffer packet_queue in_progress_packets discarded_shards_sink]; [|done|].
    + destruct (Nat.eqb_spec (length (ip_buffer p)) 0) as [E|E].
      * apply nil_length_inv in E. rewrite filter_cons_False by (by intros Hne; apply Hne). done.
      * rewrite filter_cons_True by (unfold dropped_buffer; cbn; intros Hn; by rewrite Hn in E).
        by rewrite <-app_assoc.
    + intros k' p' Hkp. rewrite lookup_delete_ne; [apply Hin; by right|].
      intros ->. apply Hk, list_elem_of_fmap. by exists (k', p').
Qed.

Lemma foldl_delete_lookup {A} (ks : list Z) (m : gmap Z A) k :
  foldl (λ m k, delete k m) m ks !! k = if decide (k ∈ ks) then None else m !! k.
Proof.
  revert m. induction ks as [|k' ks IH]; intros m; [done|]. cbn [foldl]. rewrite IH.
  destruct (decide (k = k')) as [->|Hne].
  - rewrite lookup_delete_eq, (decide_True (P := k' ∈ k' :: ks)) by left. by case_decide.
  - rewrite lookup_delete_ne by done. repeat case_decide; try done; set_solver.
Qed.

(** A stream without its expired frames. *)
Definition swept (now : T) c : StreamRecvComponents T :=
  mkComponents
    (used_buffer c ++ replicate (length (filter dropped_buffer (filter (is_expired now)
                                   (map_to_list (in_progress_packets c))))) [])
    (packet_queue c)
    (filter (λ kp, expired now kp.2 = false) (in_progress_packets c))
    (discarded_shards_sink c).
(** The expired packets of a stream. *)
Definition gone (now : T) c : list (InProgressPacket T) :=
  snd <$> filter (is_expired now) (map_to_list (in_progress_packets c)).

Lemma hm_iter_elem {A} (m : gmap Z A) k a : (k, a) ∈ hm_iter m ↔ m !! k = Some a.
Proof. rewrite hm_iter_perm. apply elem_of_map_to_list. Qed.
Lemma hm_iter_NoDup {A} (m : gmap Z A) : NoDup (fst <$> hm_iter m).
Proof. rewrite hm_iter_perm. apply NoDup_fst_map_to_list. Qed.

Lemma NoDup_fmap_filter {A B} (f : A → B) (P : A → Prop) `{∀ x, Decision (P x)} (l : list A) :
  NoDup (f <$> l) → NoDup (f <$> filter P l).
Proof.
  induction l as [|a l IH]; [done|]. rewrite fmap_cons. intros [Ha Hnd]%NoDup_cons.
  destruct (decide (P a)); [rewrite filter_cons_True by done|rewrite filter_cons_False by done; by apply IH].
  rewrite fmap_cons. apply NoDup_cons. split; [|by apply IH].
  intros (b & Hb & [_ Hin]%list_elem_of_filter)%list_elem_of_fmap. apply Ha, list_elem_of_fmap. by exists b.
Qed.

Lemma sweep_stream_ok now lost expected c :
  map_Forall (λ _ p, counts_ok p) (in_progress_packets c) →
  ∃ lost' expected', sweep_stream now lost expected c = Ret (lost', expected', swept now c) ∧
    recorded missing (gone now c) lost lost' ∧ expected_recorded (gone now c) expected expected'.
Proof.
  intros Hc. unfold sweep_stream.
  destruct (sweep_expired_ok now (hm_iter (in_progress_packets c)) lost expected [])
    as (lost' & expected' & -> & Hr1 & Hr2).
  { apply Forall_forall. intros [k p] Hkp%hm_iter_elem. by apply (Hc k p). }
  exists lost', expected'. cbn [mbind outcome_bind app].
  set (l := filter (is_expired now) (hm_iter (in_progress_packets c))) in *.
  assert (Hperm : l ≡ₚ filter (is_expired now) (map_to_list (in_progress_packets c))).
  { unfold l. by rewrite hm_iter_perm. }
  assert (Hgone : ∀ p, p ∈ snd <$> l ↔ p ∈ gone now c) by (intros; unfold gone; by rewrite Hperm).
  split; [|split].
  - rewrite remove_expired_ok.
    + unfold swept. assert (length (filter dropped_buffer l) = length (filter dropped_buffer (filter (is_expired now) (map_to_list (in_progress_packets c))))) as -> by (by rewrite Hperm).
      do 3 f_equal. apply map_eq. intros k.
      rewrite foldl_delete_lookup. destruct (in_progress_packets c !! k) as [p|] eqn:Ek.
      * case_decide as Hd.
        -- apply list_elem_of_fmap in Hd as ([k' p'] & -> & [Hx Hk]%list_elem_of_filter).
           apply hm_iter_elem in Hk. cbn in *. symmetry. apply map_lookup_filter_None_2. right.
           intros p'' Hp'' Hex. cbn in Hex. unfold is_expired in Hx. cbn in Hx. congruence.
        -- symmetry. apply map_lookup_filter_Some_2; [done|]. cbn.
           destruct (expired now p) eqn:Ee; [|done]. destruct Hd. apply list_elem_of_fmap. exists (k, p).
           split; [done|]. apply list_elem_of_filter. split; [done|]. by apply hm_iter_elem.
      * rewrite (map_lookup_filter_None_2 _ _ k) by (by left). by case_decide.
    + by apply NoDup_fmap_filter, hm_iter_NoDup.
    + intros k p [_ Hk]%list_elem_of_filter. by apply hm_iter_elem.
  - by eapply recorded_elem.
  - unfold expected_recorded in *. destruct nada_fix; [by eapply recorded_elem|done].
Qed.

Lemma sweep_streams_ok now l cs lost expected :
  NoDup (fst <$> l) → (∀ id c, (id, c) ∈ l → cs !! id = Some c) →
  Forall (λ ic, map_Forall (λ _ p, counts_ok p) (in_progress_packets ic.2)) l →
  ∃ lost' expected' cs', sweep_streams now l cs lost expected = Ret (lost', expected', cs') ∧
    (∀ id, cs' !! id = if decide (id ∈ fst <$> l) then swept now <$> cs !! id else cs !! id) ∧
    recorded missing (concat (gone now <$> (snd <$> l))) lost lost' ∧
    expected_recorded (concat (gone now <$> (snd <$> l))) expected expected'.
Proof.
  revert cs lost expected. induction l as [|[id c] l IH]; intros cs lost expected Hnd Hin Hok.
  - exists lost, expected, cs. cbn. repeat split; [apply recorded_nil|]. unfold expected_recorded.
    destruct nada_fix; [apply recorded_nil|done].
  - rewrite fmap_cons in Hnd. rewrite !fmap_cons. cbn [fst snd sweep_streams] in *. apply NoDup_cons in Hnd as [Hid Hnd].
    apply Forall_cons in Hok as [Hc Hok].
    destruct (sweep_stream_ok now lost expected c Hc) as (lost1 & exp1 & -> & Hr1 & He1).
    ret_step.
    destruct (IH (<[id:=swept now c]> cs) lost1 exp1 Hnd) as (lost2 & exp2 & cs2 & -> & Hcs & Hr2 & He2);
      [|done|].
    { intros id' c' Hic. rewrite lookup_insert_ne; [apply Hin; by right|].
      intros ->. apply Hid, list_elem_of_fmap. by exists (id', c'). }
    exists lost2, exp2, cs2. split; [done|]. cbn [concat]. split; [|split].
    + intros id'. rewrite Hcs. destruct (decide (id' = id)) as [->|Hne].
      * rewrite decide_False, decide_True by (done || left). rewrite lookup_insert_eq, (Hin id c) by left. done.
      * rewrite lookup_insert_ne by done. repeat case_decide; try done; set_solver.
    + by eapply recorded_app.
    + unfold expected_recorded in *. destruct nada_fix; [by eapply recorded_app|congruence].
Qed.

(** The packets of a socket that are given up at [now]. *)
Definition all_gone (now : T) s : list (InProgressPacket T) :=
  concat (gone now <$> (snd <$> map_to_list (stream_recv_components s))).
Definition socket_counts_ok s : Prop :=
  map_Forall (λ _ c, map_Forall (λ _ p, counts_ok p) (in_progress_packets c)) (stream_recv_components s).

Lemma all_gone_elem now s p :
  p ∈ all_gone now s ↔ ∃ id c k, stream_recv_components s !! id = Some c ∧
    in_progress_packets c !! k = Some p ∧ expired now p = true.
Proof.
  unfold all_gone, gone. rewrite list_elem_of_In, in_concat. setoid_rewrite <-list_elem_of_In. split.
  - intros (l & (c & -> & (ic & -> & Hic)%list_elem_of_fmap)%list_elem_of_fmap & Hp). destruct ic as [id c].
    apply elem_of_map_to_list in Hic.
    apply list_elem_of_fmap in Hp as ([k q] & -> & [Hx Hk]%list_elem_of_filter).
    apply elem_of_map_to_list in Hk. by exists id, c, k.
  - intros (id & c & k & Hc & Hk & Hx).
    exists (snd <$> filter (is_expired now) (map_to_list (in_progress_packets c))). split.
    + apply list_elem_of_fmap. exists c. split; [done|]. apply list_elem_of_fmap. exists (id, c).
      split; [done|]. by apply elem_of_map_to_list.
    + apply list_elem_of_fmap. exists (k, p). split; [done|]. apply list_elem_of_filter.
      split; [done|]. by apply elem_of_map_to_list.
Qed.

Lemma sweep_ok now s : socket_counts_ok s →
  ∃ lost expected,
    sweep_expired_deadlines now s =
      Ret (mkSocket (max_packet_size s) (shard_recv_state s) (swept now <$> stream_recv_components s) (rx_stats s)
             lost expected) ∧
    recorded missing (all_gone now s) (lost_shards_deadline_map s) lost ∧
    expected_recorded (all_gone now s) (lost_shards_expected_map s) expected.
Proof.
  intros Hs. unfold sweep_expired_deadlines.
  destruct (sweep_streams_ok now (hm_iter (stream_recv_components s)) (stream_recv_components s)
    (lost_shards_deadline_map s) (lost_shards_expected_map s)) as (lost & expected & cs & -> & Hcs & Hr & He).
  { apply hm_iter_NoDup. }
  { intros id c. apply hm_iter_elem. }
  { apply Forall_forall. intros [id c] Hic%hm_iter_elem. by apply (Hs id c). }
  exists lost, expected. ret_step. split; [|split].
  - do 2 f_equal. apply map_eq. intros id. rewrite Hcs, lookup_fmap. case_decide as Hd; [done|].
    destruct (stream_recv_components s !! id) as [c|] eqn:Ec; [|done].
    destruct Hd. apply list_elem_of_fmap. exists (id, c). split; [done|]. by apply hm_iter_elem.
  - eapply recorded_elem; [|done]. intros p. unfold all_gone. by rewrite hm_iter_perm.
  - unfold expected_recorded in *. destruct nada_fix; [|done].
    eapply recorded_elem; [|done]. intros p. unfold all_gone. by rewrite hm_iter_perm.
Qed.

Lemma swept_swept now c : swept now (swept now c) = swept now c.
Proof.
  assert (filter (is_expired now) (map_to_list (in_progress_packets (swept now c))) = []) as E.
  { apply filter_none, Forall_forall. intros [k p] Hk%elem_of_map_to_list.
    apply map_lookup_filter_Some in Hk as [_ Hx]. unfold is_expired. cbn in *. congruence. }
  unfold swept at 1. rewrite E. cbn. rewrite app_nil_r. unfold swept. f_equal. cbn.
  apply map_eq. intros k. apply option_eq. intros p. rewrite !map_lookup_filter_Some. naive_solver.
Qed.

Lemma swept_counts_ok now s cs : cs = swept now <$> stream_recv_components s →
  socket_counts_ok s → map_Forall (λ _ c, map_Forall (λ _ p, counts_ok p) (in_progress_packets c)) cs.
Proof.
  intros -> Hs id c Hc k p Hk. rewrite lookup_fmap in Hc.
  destruct (stream_recv_components s !! id) as [c0|] eqn:E; [|done]. injection Hc as <-.
  apply map_lookup_filter_Some in Hk as [Hk _]. by apply (Hs id c0 E k p).
Qed.

Lemma recorded_nil_inv f lost lost' : recorded f [] lost lost' → lost' = lost.
Proof.
  intros Hr. apply map_eq. intros fr. destruct (Hr fr) as [(p & Hp & _)|[_ Hl]]; [|done].
  by apply not_elem_of_nil in Hp.
Qed.

(** C28: A sweep of the deadlines never fails, keeps of every stream exactly the
    frames whose deadline has not come, with the packets already complete; it
    records for each frame given up how many of its shards were missing, and no
    other frame; and a second sweep at the same time changes nothing. *)
Theorem sweep_exact now s : socket_counts_ok s →
  ∃ s', sweep_expired_deadlines now s = Ret s' ∧
    (∀ id c, stream_recv_components s !! id = Some c →
       ∃ c', stream_recv_components s' !! id = Some c' ∧ packet_queue c' = packet_queue c ∧
         ∀ k p, in_progress_packets c' !! k = Some p ↔
                in_progress_packets c !! k = Some p ∧ expired now p = false) ∧
    (∀ fr, (∃ id c k p, stream_recv_components s !! id = Some c ∧ in_progress_packets c !! k = Some p ∧
              expired now p = true ∧ id_frame p = fr ∧ lost_shards_deadline_map s' !! fr = Some (missing p)) ∨
           ((∀ id c k p, stream_recv_components s !! id = Some c → in_progress_packets c !! k = Some p →
               expired now p = true → id_frame p ≠ fr) ∧
            lost_shards_deadline_map s' !! fr = lost_shards_deadline_map s !! fr)) ∧
    sweep_expired_deadlines now s' = Ret s'.
Proof.
  intros Hs. destruct (sweep_ok now s Hs) as (lost & expected & -> & Hr & He).
  eexists. split; [done|]. cbn [stream_recv_components lost_shards_deadline_map]. split; [|split].
  - intros id c Hc. exists (swept now c). rewrite lookup_fmap, Hc. split; [done|]. split; [done|].
    intros k p. cbn. by rewrite map_lookup_filter_Some.
  - intros fr. destruct (Hr fr) as [(p & (id & c & k & Hc & Hk & Hx)%all_gone_elem & Hid & Hl)|[Hn Hl]].
    + left. by exists id, c, k, p.
    + right. split; [|done]. intros id c k p Hc Hk Hx. apply Hn, all_gone_elem. by exists id, c, k.
  - set (s' := mkSocket _ _ _ _ _ _).
    destruct (sweep_ok now s') as (lost' & expected' & -> & Hr' & He').
    { by eapply swept_counts_ok. }
    assert (all_gone now s' = []) as Eg.
    { destruct (all_gone now s') as [|p l] eqn:E; [done|exfalso].
      assert (p ∈ all_gone now s') as (id & c & k & Hc & Hk & Hx)%all_gone_elem by (rewrite E; left).
      cbn in Hc. rewrite lookup_fmap in Hc. destruct (stream_recv_components s !! id); [|done].
      injection Hc as <-. apply map_lookup_filter_Some in Hk as [_ Hk]. cbn in Hk. congruence. }
    rewrite Eg in Hr', He'. apply recorded_nil_inv in Hr' as ->.
    assert (expected' = expected) as ->.
    { unfold expected_recorded in He'. destruct nada_fix; [by apply recorded_nil_inv in He'|done]. }
    unfold s'. cbn. do 2 f_equal. apply map_eq. intros id. rewrite !lookup_fmap.
    destruct (stream_recv_components s !! id); [|done]. cbn. f_equal. apply swept_swept.
Qed.
End sweep.
End Deadlines.

(** A concrete environment: the clock of the simulation, the default deadline of
    60 ms after the frame's generation, hash maps iterated in the order of
    [map_to_list]. *)
Module SocketDemo.
Import Socket Deadlines.

#[export] Instance demo_env : Env mono := {|
  EPOCH := mono_of 0; EPOCH_nanos := eq_refl; nada_fix := true; anchor_first := false;
  deadline_ := 60000000; powf x _ := F32.mul x x;
  hm_iter A m := map_to_list m; hm_iter_perm A m := Permutation_refl _
|}.

Definition demo_packet (d : Z) (got : gset nat) (frame : Z) : InProgressPacket mono :=
  mkInProgress [1; 2; 3] 3 got (Some (mono_of d)) 4 frame.
Definition demo_socket : StreamSocket mono :=
  set_components (build 1000)
    {[ 3 := mkComponents [] [] {[ 7 := demo_packet 100 {[0%nat; 2%nat]} 7; 8 := demo_packet 200 {[0%nat; 1%nat]} 8 ]}
             (mkInProgress [] 0 ∅ None 0 0) ]}.

Lemma demo_socket_counts : socket_counts_ok demo_socket.
Proof.
  apply map_Forall_singleton. cbn. apply map_Forall_insert_2; [vm_compute; lia|].
  apply map_Forall_singleton. vm_compute. lia.
Qed.

Lemma sweep_exact_witness : socket_counts_ok demo_socket ∧
  ∃ s', sweep_expired_deadlines (mono_of 150) demo_socket = Ret s' ∧
        sweep_expired_deadlines (mono_of 150) s' = Ret s'.
Proof.
  split; [apply demo_socket_counts|].
  destruct (sweep_exact (mono_of 150) demo_socket demo_socket_counts) as (s' & H1 & _ & _ & H2).
  by exists s'.
Defined.

Example demo_swept :
  (λ s', (map_to_list (lost_shards_deadline_map s'), dom ∘ in_progress_packets <$> stream_recv_components s' !! 3))
    <$> sweep_expired_deadlines (mono_of 150) demo_socket = Ret ([(7, 2%nat)], Some {[8]}).
Proof. vm_compute. reflexivity. Qed.
End SocketDemo.
