(* ===== verification/VideoStats.v ===== *)
(** * The statistics of the video stream do not fail

    [video_shard] and [video_frame] use checked arithmetic: counters of 32 bits,
    differences of times that must not be negative, a one-way delay of 64 bits.
    When the bytes of a frame fit in 32 bits and time does not go back, none of
    these checks fails. *)

From S2P Require Import Prelude StablePq Scheduler F32 StreamSocket Shards FrameDeadlines.

Module VideoStats.
Import Socket Shards Deadlines.

Definition sumZ (l : list Z) : Z := foldr Z.add 0 l.
#[export] Instance sumZ_perm : Proper ((≡ₚ) ==> (=)) sumZ.
Proof. intros l l' Hp. unfold sumZ. induction Hp; cbn [foldr]; lia. Qed.

Lemma u32_add_ok a b : a + b ≤ U32_MAX → u32_add a b = Ret (a + b).
Proof. intros Hab. unfold u32_add. by rewrite (proj2 (Z.leb_le _ _) Hab). Qed.

Lemma sum_u32_ok l acc : Forall (λ b, 0 ≤ b) l → acc + sumZ l ≤ U32_MAX → sum_u32 l acc = Ret (acc + sumZ l).
Proof.
  intros Hl. revert acc. induction Hl as [|b l Hb Hl IH]; intros acc Hacc; cbn in *; [by rewrite Z.add_0_r|].
  assert (0 ≤ sumZ l) by (clear -Hl; unfold sumZ; induction Hl; cbn [foldr]; lia).
  rewrite u32_add_ok by (unfold sumZ in *; lia). ret_step.
  rewrite IH by (unfold sumZ in *; lia). f_equal. unfold sumZ. lia.
Qed.

Section stats.
Context {T : Type} `{TaiTime T} `{!Env T}.
Implicit Types (x : RxStats T) (now : T).

Lemma foldl_time_max (l : list (ShardMapStats T)) t b :
  nanos t ≤ b → Forall (λ y, nanos (sm_rx_instant y) ≤ b) l →
  nanos t ≤ nanos (foldl (λ t y, time_max t (sm_rx_instant y)) t l) ≤ b.
Proof.
  intros Ht Hl. revert t Ht. induction Hl as [|y l Hy _ IH]; intros t Ht; cbn; [lia|].
  assert (nanos t ≤ nanos (time_max t (sm_rx_instant y)) ≤ b) as [H1 H2].
  { unfold time_max. destruct (time_le _ _) eqn:E; [apply time_le_spec in E|]; lia. }
  specialize (IH _ H2). lia.
Qed.
Lemma foldl_time_min (l : list (ShardMapStats T)) t :
  nanos (foldl (λ t y, time_min t (sm_rx_instant y)) t l) ≤ nanos t.
Proof.
  revert t. induction l as [|y l IH]; intros t; cbn; [lia|]. etrans; [apply IH|].
  unfold time_min. destruct (time_le _ _) eqn:E; [lia|]. apply time_le_false in E. lia.
Qed.

Definition TIME_BOUND : Z := 2 ^ 63 * 1000.

(** What is known of the entries of a frame's shards. *)
Definition entry_ok (t : f32) (y : ShardMapStats T) : Prop :=
  sm_tx_r_instant y = t ∧ 0 ≤ nanos (sm_rx_instant y) < TIME_BOUND ∧
  0 ≤ sm_rx_bytes_app y ≤ sm_rx_bytes y.
Definition bytes_of (m : gmap Z (ShardMapStats T)) : Z := sumZ (sm_rx_bytes <$> (snd <$> map_to_list m)).

(** [n] shards and [b] bytes of frame [pi] may still come from [now] on. *)
Record stats_room (pi : Z) (t : f32) (n b : nat) now x : Prop := mkRoom {
  room_time : ∀ prev, prev_shard_rx_instant x = Some prev → nanos prev ≤ nanos now;
  room_bytes : 0 ≤ rx_bytes x ∧ rx_bytes x + Z.of_nat b ≤ U32_MAX;
  room_shards : rx_shard_counter x + Z.of_nat n ≤ U32_MAX;
  room_duplicates : duplicated_shard_counter x + Z.of_nat n ≤ U32_MAX;
  room_entries : map_Forall (λ _ y, entry_ok t y) (default ∅ (map_rx x !! pi));
  room_sum : bytes_of (default ∅ (map_rx x !! pi)) ≤ rx_bytes x
}.

Lemma bytes_of_insert k y (m : gmap Z (ShardMapStats T)) :
  m !! k = None → bytes_of (<[k:=y]> m) = sm_rx_bytes y + bytes_of m.
Proof. intros Hk. unfold bytes_of. by rewrite map_to_list_insert. Qed.

Lemma video_shard_ok pi t n b now len i x :
  stats_room pi t (S n) b now x → (SHARD_PREFIX_SIZE ≤ len ≤ b)%nat → 0 ≤ nanos now < TIME_BOUND →
  ∃ x' inner, video_shard now len pi (Z.of_nat i) t x = Ret x' ∧ map_rx x' !! pi = Some inner ∧ inner ≠ ∅ ∧
    ∀ now', nanos now ≤ nanos now' → stats_room pi t n (b - len) now' x'.
Proof.
  intros [Ht [Hb0 Hb] Hs Hd He Hsum] Hlen Hnow. unfold U32_MAX in *. unfold video_shard. rewrite usub_ok by lia. ret_step.
  unfold HEADER_BYTES_TRANSPORT. rewrite !wrap_id by lia.
  rewrite u32_add_ok by (unfold U32_MAX; lia). ret_step.
  set (y := mkStats _ _ _ _). set (m := default ∅ (map_rx x !! pi)) in *.
  assert (Hj : ∃ j, next_jitter now t x = Ret j).
  { unfold next_jitter. destruct (prev_shard_rx_instant x) as [prev|] eqn:Ep; [|by eexists].
    destruct (prev_shard_tx_r_instant x); [|by eexists]. rewrite duration_since_ok by (by apply Ht).
    by eexists. }
  destruct Hj as [j Hj].
  assert (Hy : entry_ok t y) by (unfold entry_ok, y; cbn; repeat split; lia).
  assert (∃ m' r d, count_shard (Z.of_nat i) y m x = Ret (m', r, d) ∧ m' ≠ ∅ ∧ map_Forall (λ _ y, entry_ok t y) m' ∧
    bytes_of m' ≤ rx_bytes x + Z.of_nat len ∧ r ≤ rx_shard_counter x + 1 ∧ d ≤ duplicated_shard_counter x + 1)
    as (m' & r & d & -> & Hne & Hm' & Hbm & Hr & Hdd).
  { unfold count_shard. destruct (m !! Z.of_nat i) as [y0|] eqn:Em.
    - rewrite u32_add_ok by (unfold U32_MAX; lia). ret_step.
      eexists _, _, _. split; [done|]. split_and!; [|done|lia|lia|lia]. intros E. by rewrite E in Em.
    - rewrite u32_add_ok by (unfold U32_MAX; lia). ret_step.
      eexists _, _, _. split; [done|]. split_and!; [apply insert_non_empty| | |lia|lia].
      + by apply map_Forall_insert_2.
      + rewrite bytes_of_insert by done. cbn. lia. }
  ret_step. rewrite u32_add_ok by (unfold U32_MAX; lia).
  ret_step. rewrite Hj. ret_step.
  eexists _, m'. split; [done|]. cbn. split; [apply lookup_insert_eq|]. split; [done|].
  intros now' Hle. split; cbn [prev_shard_rx_instant rx_bytes rx_shard_counter duplicated_shard_counter map_rx];
    rewrite ?lookup_insert_eq; cbn [default from_option].
  - by intros prev [= <-].
  - unfold U32_MAX. lia.
  - unfold U32_MAX. lia.
  - unfold U32_MAX. lia.
  - done.
  - change (bytes_of m' ≤ rx_bytes x + (Z.of_nat len + 0)). lia.
Qed.

Lemma entries_sums t (l : list (ShardMapStats T)) : Forall (entry_ok t) l →
  Forall (λ b, 0 ≤ b) (sm_rx_bytes <$> l) ∧ Forall (λ b, 0 ≤ b) (sm_rx_bytes_app <$> l) ∧
  sumZ (sm_rx_bytes_app <$> l) ≤ sumZ (sm_rx_bytes <$> l).
Proof.
  induction 1 as [|y l (_ & _ & Hy) _ (IH1 & IH2 & IH3)]; [by cbn|]. rewrite !fmap_cons. unfold sumZ in *. cbn [foldr].
  repeat split; [constructor; [lia|done]..|lia].
Qed.

Lemma video_frame_ok pi t n b now x inner (st : RecvState T) :
  stats_room pi t n b now x → packet_index st = pi → map_rx x !! pi = Some inner → inner ≠ ∅ →
  0 ≤ F32.as_micros_i64 t → ∃ f x', video_frame st x = Ret (f, x').
Proof.
  intros [_ [_ Hb] _ _ He Hsum] <- Hin Hne Ht. rewrite Hin in He, Hsum. cbn in He, Hsum.
  unfold video_frame. rewrite Hin. change (map snd ?l) with (snd <$> l).
  assert (Hperm : (snd <$> hm_iter inner) ≡ₚ (snd <$> map_to_list inner)) by (by rewrite hm_iter_perm).
  assert (Hvs : Forall (entry_ok t) (snd <$> hm_iter inner)).
  { apply Forall_forall. intros y ([k y'] & -> & Hk%hm_iter_elem)%list_elem_of_fmap. by apply (He k y'). }
  assert (Hsum' : sumZ (sm_rx_bytes <$> (snd <$> hm_iter inner)) = bytes_of inner) by (unfold bytes_of; by rewrite Hperm).
  destruct (snd <$> hm_iter inner) as [|v vs] eqn:Ev.
  { apply Permutation_nil_l, eq_sym, fmap_nil_inv in Hperm. by apply map_to_list_empty_iff in Hperm. }
  assert (Hnn : Forall (λ b, 0 ≤ b) (sm_rx_bytes <$> v :: vs) ∧ Forall (λ b, 0 ≤ b) (sm_rx_bytes_app <$> v :: vs) ∧
    sumZ (sm_rx_bytes_app <$> v :: vs) ≤ sumZ (sm_rx_bytes <$> v :: vs)) by (by apply (entries_sums t)).
  apply Forall_cons in Hvs as [Hv Hvs]. destruct Hv as (_ & Hv & _).
  set (mn := foldl _ _ vs). set (mx := foldl (λ t y, time_max _ _) _ vs).
  assert (nanos (sm_rx_instant v) ≤ nanos mx ≤ TIME_BOUND - 1) as Hmx.
  { apply foldl_time_max; [lia|]. eapply Forall_impl; [exact Hvs|]. intros y (_ & Hy & _). lia. }
  assert (nanos mn ≤ nanos (sm_rx_instant v)) as Hmn by apply foldl_time_min.
  rewrite (duration_since_ok mx mn) by lia. ret_step.
  assert (∃ owd, frame_owd inner mx = Ret owd) as [owd ->].
  { unfold frame_owd. destruct (inner !! 0) as [first|] eqn:E0; [|by eexists]. destruct (He 0 first E0) as (-> & _).
    rewrite (duration_since_ok mx EPOCH) by (rewrite EPOCH_nanos; lia). rewrite EPOCH_nanos. ret_step.
    assert (0 ≤ (nanos mx - 0) / 1000 < 2 ^ 63) as Hd.
    { unfold TIME_BOUND in *. split; [apply Z.div_pos; lia|apply Z.div_lt_upper_bound; lia]. }
    unfold as_i64. rewrite wrap_id by lia. rewrite (proj2 (Z.leb_gt _ _)) by lia.
    assert (F32.as_micros_i64 t ≤ F32.I64_MAX) as Hmax.
    { unfold F32.as_micros_i64, F32.round_i64, F32.I64_MAX. destruct (SpecFloat.SFmul _ _ _ _) as [|[]| |]; lia. }
    unfold i64_sub. rewrite (proj2 (andb_true_iff _ _)); [by eexists|]. unfold F32.I64_MAX in *. split; apply Z.leb_le; lia. }
  ret_step.
  destruct Hnn as (Hn1 & Hn2 & Hle). change (map ?f ?l) with (f <$> l).
  rewrite (sum_u32_ok _ 0 Hn1) by lia. ret_step. rewrite (sum_u32_ok _ 0 Hn2) by lia.
  ret_step. destruct (match inner !! 0 with Some _ => _ | None => _ end) as [k prev_tx]. by eexists _, _.
Qed.
End stats.
End VideoStats.
