(* ===== verification/Reassembly.v ===== *)
(** * Reassembly of packets: [StreamSocket::recv]

    Shards of many packets and streams arrive in any order, some more than once,
    some never; buffers are used again with their old contents.  The packets that
    [recv] puts in a stream's queue are nevertheless exactly those that were sent
    ([every_packet_is_as_sent]); and when all the shards of a packet arrive before
    its deadline, in any order, it is put together and queued
    ([all_shards_make_the_packet]). *)

From Stdlib Require Import SpecFloat.
From S2P Require Import Prelude StablePq Scheduler SeqExecutor F32 StreamSocket Shards FrameDeadlines.

Module Reassembly.
Import Socket Shards Deadlines.

(** ** Buffers *)
Lemma slice_Ret l i j d : slice l i j = Ret d →
  (i ≤ j ≤ length l)%nat ∧ d = take (j - i) (drop i l).
Proof.
  unfold slice. destruct (Nat.leb_spec i j), (Nat.leb_spec j (length l)); cbn; intros [=]; split; done || lia.
Qed.

Definition overwrite (a : nat) (d l : list Z) : list Z := take a l ++ d ++ drop (a + length d) l.

Lemma write_at_overwrite l a d : (a + length d ≤ length l)%nat → write_at l a d = Ret (overwrite a d l).
Proof. intros Hl. unfold write_at. by rewrite (proj2 (Nat.leb_le _ _) Hl). Qed.

Lemma overwrite_length a d l : (a + length d ≤ length l)%nat → length (overwrite a d l) = length l.
Proof. intros. unfold overwrite. rewrite !length_app, length_take, length_drop. lia. Qed.

Lemma overwrite_here a d l : (a + length d ≤ length l)%nat → take (length d) (drop a (overwrite a d l)) = d.
Proof.
  intros. unfold overwrite. rewrite drop_app_length' by (rewrite length_take; lia). by rewrite take_app_length.
Qed.

Lemma overwrite_elsewhere a d l x n : (a + length d ≤ length l)%nat → (x + n ≤ a ∨ a + length d ≤ x)%nat →
  take n (drop x (overwrite a d l)) = take n (drop x l).
Proof.
  intros Hl [Hx|Hx]; unfold overwrite.
  - rewrite !take_drop_commute, take_app_le by (rewrite length_take; lia).
    rewrite take_take. do 2 f_equal. lia.
  - rewrite app_assoc, drop_app_ge by (rewrite length_app, length_take; lia).
    rewrite length_app, length_take, drop_drop. do 2 f_equal. lia.
Qed.

(** The two writes of a shard: the whole of it, then the bytes that its prefix
    has overwritten. *)
Lemma overwrite_restore a (pre d l : list Z) : (a + length pre + length d ≤ length l)%nat →
  overwrite a (take (length pre) (drop a l)) (overwrite a (pre ++ d) l) = overwrite (a + length pre) d l.
Proof.
  intros Hl. unfold overwrite at 1.
  assert (length (take (length pre) (drop a l)) = length pre) as -> by (rewrite length_take, length_drop; lia).
  unfold overwrite. rewrite take_app_length' by (rewrite length_take; lia).
  rewrite drop_app_add' by (rewrite length_take; lia).
  rewrite <-!app_assoc, drop_app_length, length_app, !app_assoc.
  by rewrite take_take_drop, Nat.add_assoc.
Qed.

Section packets.
Context {T : Type} `{TaiTime T} `{!Env T}.
(** The size of a shard's payload. *)
Context (m : nat) (m_pos : (0 < m)%nat) (m_max : (m + SHARD_PREFIX_SIZE ≤ MAX_PACKET_SIZE_RECV)%nat).
Implicit Types (p : InProgressPacket T) (c : StreamRecvComponents T) (s : StreamSocket T).

(** A packet in progress holds, at their places, the shards of [D] it has received. *)
Definition holds_chunk (D : list Z) (i : nat) p : Prop :=
  (i < shards_of m (length D))%nat ∧
  (SHARD_PREFIX_SIZE + i * m + length (chunk m D i) ≤ buffer_length p)%nat ∧
  take (length (chunk m D i)) (drop (SHARD_PREFIX_SIZE + i * m) (ip_buffer p)) = chunk m D i.
Record packet_inv (pi : Z) (D : list Z) p : Prop := mkPacketInv {
  pinv_expected : num_shards_expected p = shards_of m (length D);
  pinv_id : id_frame p = pi;
  pinv_chunks : ∀ i, i ∈ received_shard_indices p → holds_chunk D i p;
  pinv_size : (buffer_length p ≤ SHARD_PREFIX_SIZE + length D)%nat;
  pinv_buffer : (buffer_length p ≤ length (ip_buffer p))%nat
}.

(** What [recv_header] makes of the prefix of a shard. *)
Definition state_of (sid pi : Z) (D : list Z) (i : nat) (dl : option T) : RecvState T :=
  mkRecvState (SHARD_PREFIX_SIZE + length (chunk m D i)) sid pi (shards_of m (length D)) i 0 None false dl.

Lemma resize_grow l n : (length l ≤ n)%nat → resize l n = l ++ replicate (n - length l) 0.
Proof. intros. unfold resize. by rewrite take_ge. Qed.
Lemma region_app (l l' : list Z) x n : (x + n ≤ length l)%nat → take n (drop x (l ++ l')) = take n (drop x l).
Proof. intros. rewrite !take_drop_commute, take_app_le by lia. done. Qed.

Lemma shard_length_eq sid pi t D i : length (shard m sid pi t D i) = (SHARD_PREFIX_SIZE + length (chunk m D i))%nat.
Proof. unfold shard. by rewrite length_app, prefix_bytes_length. Qed.

Lemma read_loop_ok f start len buf rd msg :
  buffer rd = Some msg → length msg = len → (0 < len)%nat → (start + len ≤ length buf)%nat →
  read_loop (S (S f)) start len 0 buf rd =
    Ret (overwrite start msg buf, mkReceiver (receiver rd) (disconnected rd) None).
Proof.
  intros Hb Hlen Hpos Hfit. cbn [read_loop]. rewrite (proj2 (Nat.ltb_lt 0 len)) by done.
  rewrite slice_ok by lia. ret_step. unfold reader_recv. rewrite Hb.
  rewrite (proj2 (Nat.leb_le (length msg) (len - 0))) by lia.
  rewrite write_at_overwrite by lia. ret_step.
  rewrite Hlen, !Nat.add_0_r, Nat.add_0_l, Nat.ltb_irrefl. done.
Qed.

(** The effect of reading a shard on the packet it belongs to. *)
Definition with_chunk (D : list Z) (i : nat) p : InProgressPacket T :=
  let blen := Nat.max (buffer_length p) (i * m + (SHARD_PREFIX_SIZE + length (chunk m D i))) in
  let buf := if (length (ip_buffer p) <? blen)%nat then resize (ip_buffer p) blen else ip_buffer p in
  mkInProgress (overwrite (i * m + SHARD_PREFIX_SIZE) (chunk m D i) buf) blen
    ({[i]} ∪ received_shard_indices p) (deadline p) (num_shards_expected p) (id_frame p).

Lemma grown_length (l : list Z) n : (n ≤ length (if (length l <? n)%nat then resize l n else l))%nat.
Proof.
  destruct (Nat.ltb_spec (length l) n); [|done]. rewrite resize_grow by lia.
  rewrite length_app, length_replicate. lia.
Qed.

Lemma read_shard_ok f sid pi t D i dl p rd :
  buffer rd = Some (shard m sid pi t D i) →
  read_shard (S (S f)) m (state_of sid pi D i dl) p rd =
    Ret (with_chunk D i p, mkReceiver (receiver rd) (disconnected rd) None).
Proof.
  intros Hb. unfold read_shard. cbn [shard_index shard_length packet_cursor overwritten_data_backup should_discard state_of].
  set (len := (SHARD_PREFIX_SIZE + length (chunk m D i))%nat).
  set (blen := Nat.max (buffer_length p) (i * m + len)).
  set (buf := if (length (ip_buffer p) <? blen)%nat then resize (ip_buffer p) blen else ip_buffer p).
  assert (Hbuf : (i * m + len ≤ length buf)%nat).
  { pose proof (grown_length (ip_buffer p) blen). fold buf in H0. lia. }
  rewrite slice_ok by (unfold SHARD_PREFIX_SIZE in *; lia). ret_step.
  rewrite (read_loop_ok f _ _ _ _ _ Hb) by (rewrite ?shard_length_eq; unfold SHARD_PREFIX_SIZE in *; lia).
  ret_step.
  replace (i * m + SHARD_PREFIX_SIZE - i * m)%nat with SHARD_PREFIX_SIZE by lia.
  assert (length (take SHARD_PREFIX_SIZE (drop (i * m) buf)) = SHARD_PREFIX_SIZE) as Hbk
    by (rewrite length_take, length_drop; unfold SHARD_PREFIX_SIZE in *; lia).
  rewrite write_at_overwrite
    by (rewrite overwrite_length, Hbk by (rewrite shard_length_eq; done); unfold SHARD_PREFIX_SIZE in *; lia).
  ret_step. do 2 f_equal. unfold with_chunk. fold len blen buf. f_equal.
  unfold shard. set (pre := prefix_bytes _).
  assert (length pre = SHARD_PREFIX_SIZE) as Hpre by apply prefix_bytes_length.
  rewrite <-Hpre at 1. rewrite overwrite_restore by (rewrite Hpre; unfold len in Hbuf; lia).
  by rewrite Hpre.
Qed.

Lemma chunk_fits D i : (i < shards_of m (length D))%nat → (i * m + length (chunk m D i) ≤ length D)%nat.
Proof. intros Hi%shards_of_lt; [|done]. rewrite chunk_length. lia. Qed.

Lemma with_chunk_inv pi D p i : (i < shards_of m (length D))%nat → packet_inv pi D p → packet_inv pi D (with_chunk D i p).
Proof.
  intros Hi [He Hid Hch Hsz Hbuf]. pose proof (chunk_fits D i Hi) as Hfit.
  unfold with_chunk. set (blen := Nat.max _ _). set (buf := if (length (ip_buffer p) <? blen)%nat then resize (ip_buffer p) blen else ip_buffer p).
  pose proof (grown_length (ip_buffer p) blen) as Hg. fold buf in Hg.
  assert (Hfit' : (i * m + SHARD_PREFIX_SIZE + length (chunk m D i) ≤ length buf)%nat) by lia.
  split; cbn [num_shards_expected id_frame received_shard_indices buffer_length ip_buffer]; [done|done| |lia|].
  - intros j Hj. destruct (decide (j = i)) as [->|Hne].
    + split; [done|]. cbn [buffer_length ip_buffer]. split; [lia|].
      rewrite Nat.add_comm. by apply overwrite_here.
    + assert (j ∈ received_shard_indices p) as Hjr by set_solver.
      destruct (Hch j Hjr) as (Hj1 & Hj2 & Hj3). split; [done|]. cbn [buffer_length ip_buffer]. split; [lia|].
      pose proof (chunk_length m D i). pose proof (chunk_length m D j).
      rewrite overwrite_elsewhere; [|done|nia].
      unfold buf. destruct (Nat.ltb_spec (length (ip_buffer p)) blen); [|done].
      rewrite resize_grow by lia. by rewrite region_app by lia.
  - by rewrite overwrite_length.
Qed.

Lemma packet_counts_ok pi D p : packet_inv pi D p → received_shard_indices p ⊆ set_seq 0 (shards_of m (length D)) ∧ counts_ok p.
Proof.
  intros [He _ Hch _ _].
  assert (received_shard_indices p ⊆ set_seq 0 (shards_of m (length D))) as Hs.
  { intros i Hi. apply elem_of_set_seq. destruct (Hch i Hi) as (? & _). lia. }
  split; [done|]. unfold counts_ok. rewrite He. apply subseteq_size in Hs. by rewrite size_set_seq in Hs.
Qed.

Lemma chunks_fill D buf n : (n ≤ shards_of m (length D))%nat →
  (∀ i, (i < n)%nat → take (length (chunk m D i)) (drop (SHARD_PREFIX_SIZE + i * m) buf) = chunk m D i) →
  take (Nat.min (n * m) (length D)) (drop SHARD_PREFIX_SIZE buf) = take (n * m) D.
Proof.
  intros Hn Hch. induction n as [|n IH]; [done|].
  assert (n * m < length D)%nat as Hlt by (apply shards_of_lt; [done|lia]).
  rewrite Nat.min_l in IH by lia.
  assert (Nat.min (S n * m) (length D) = n * m + length (chunk m D n))%nat as -> by (rewrite chunk_length; lia).
  rewrite <-take_take_drop, IH by (done || lia || (intros; apply Hch; lia)).
  rewrite drop_drop, (Hch n) by lia. replace (S n * m)%nat with (n * m + m)%nat by lia.
  unfold chunk. apply take_take_drop.
Qed.

Lemma packet_complete pi D p : (0 < length D)%nat → packet_inv pi D p →
  size (received_shard_indices p) = shards_of m (length D) →
  buffer_length p = (SHARD_PREFIX_SIZE + length D)%nat ∧
  take (length D) (drop SHARD_PREFIX_SIZE (ip_buffer p)) = D.
Proof.
  intros HD Hp Hsize. pose proof (packet_counts_ok pi D p Hp) as [Hsub _].
  apply set_subseteq_size_eq in Hsub; [|rewrite size_set_seq; lia].
  set (k := shards_of m (length D)) in *.
  assert (Hch : ∀ i, (i < k)%nat → holds_chunk D i p).
  { intros i Hi. apply (pinv_chunks _ _ _ Hp). rewrite Hsub. apply elem_of_set_seq. lia. }
  assert (Hk : (length D ≤ k * m)%nat).
  { destruct (decide (k * m < length D)%nat) as [Hlt|]; [|lia]. apply shards_of_lt in Hlt; [|done]. fold k in Hlt. lia. }
  assert (Hk0 : (0 < k)%nat) by (apply shards_of_lt; [done|lia]). split.
  - pose proof (pinv_size _ _ _ Hp). destruct (Hch (k - 1)%nat) as (_ & Hb & _); [lia|].
    rewrite chunk_length in Hb. nia.
  - pose proof (chunks_fill D (ip_buffer p) k) as Hf. rewrite Nat.min_r in Hf by done.
    rewrite Hf; [by apply take_ge|done|]. intros i Hi. by destruct (Hch i Hi) as (_ & _ & ?).
Qed.

(** ** What was sent: for a stream and a packet, its payload and its time stamp *)
Context (sent : Z → Z → option (list Z * f32)).
Definition sent_wf : Prop := ∀ sid pi D t, sent sid pi = Some (D, t) →
  0 ≤ sid < 2 ^ 16 ∧ 0 ≤ pi < 2 ^ 32 ∧ F32.valid t = true ∧ Z.of_nat (SHARD_PREFIX_SIZE + length D) < 2 ^ 32.
Context (sent_ok : sent_wf).

Definition as_sent (sid : Z) (r : ReconstructedPacket) : Prop :=
  ∃ D t, sent sid (rp_index r) = Some (D, t) ∧ rp_size r = (SHARD_PREFIX_SIZE + length D)%nat ∧
    take (length D) (drop SHARD_PREFIX_SIZE (rp_buffer r)) = D.
Definition in_progress_ok (sid : Z) (pi : Z) p : Prop := ∃ D t, sent sid pi = Some (D, t) ∧ packet_inv pi D p.
Definition stream_inv (sid : Z) c : Prop :=
  map_Forall (in_progress_ok sid) (in_progress_packets c) ∧ Forall (as_sent sid) (packet_queue c).
Definition is_shard (sid pi : Z) (D : list Z) (t : f32) (i : nat) : Prop :=
  sent sid pi = Some (D, t) ∧ (i < shards_of m (length D))%nat.
Definition genuine (msg : list Z) : Prop :=
  ∃ sid pi D t i, is_shard sid pi D t i ∧ msg = shard m sid pi t D i.
(** The messages in the channel, and the one peeked at. *)
Definition messages (rd : BufferedReceiver) : list (list Z) := option_list (buffer rd) ++ receiver rd.
Definition reading (st : RecvState T) (rd : BufferedReceiver) : Prop :=
  ∃ sid pi D t i dl, is_shard sid pi D t i ∧ st = state_of sid pi D i dl ∧
    buffer rd = Some (shard m sid pi t D i).
Record socket_inv s (rd : BufferedReceiver) : Prop := mkSocketInv {
  sinv_size : max_packet_size s = (m + SHARD_PREFIX_SIZE)%nat;
  sinv_streams : map_Forall stream_inv (stream_recv_components s);
  sinv_messages : Forall genuine (messages rd);
  sinv_state : ∀ st, shard_recv_state s = Some st → reading st rd
}.

Lemma stream_inv_sub sid c c' :
  in_progress_packets c' ⊆ in_progress_packets c → packet_queue c' = packet_queue c →
  stream_inv sid c → stream_inv sid c'.
Proof.
  intros Hsub Hq [Hp Hs]. split; [|by rewrite Hq]. intros pi p Hpi. apply Hp. by eapply lookup_weaken.
Qed.

Lemma stream_inv_counts sid c : stream_inv sid c → map_Forall (λ _ p, counts_ok p) (in_progress_packets c).
Proof.
  intros [Hp _] pi p Hpi. destruct (Hp pi p Hpi) as (D & t & _ & Hi). by apply packet_counts_ok in Hi as [_ ?].
Qed.

Lemma sent_prefix_wf sid pi D t i : is_shard sid pi D t i → prefix_wf (shard_prefix m sid pi t D i).
Proof.
  intros [Hs Hi]. destruct (sent_ok _ _ _ _ Hs) as (H1 & H2 & H3 & H4). pose proof (chunk_fits D i Hi) as Hf.
  assert (shards_of m (length D) ≤ length D)%nat as Hk.
  { destruct (decide (shards_of m (length D) ≤ length D)%nat); [done|].
    assert (length D * m < length D)%nat by (apply (shards_of_lt m); lia). nia. }
  unfold SHARD_PREFIX_SIZE in *. unfold prefix_wf. cbn [shard_prefix px_length px_stream px_packet px_count px_index px_instant].
  repeat split; try done; lia.
Qed.

Lemma shard_header sid pi D t i : is_shard sid pi D t i →
  parse_prefix (take SHARD_PREFIX_SIZE (shard m sid pi t D i)) = shard_prefix m sid pi t D i.
Proof.
  intros Hi. unfold shard. rewrite take_app_length' by (by rewrite prefix_bytes_length).
  rewrite <-(app_nil_r (prefix_bytes _)). by apply parse_prefix_bytes, sent_prefix_wf.
Qed.

(** ** The header *)
Definition frame_deadline_of (t : f32) : outcome (option T) :=
  g ← F32.to_nanos (F32.max t F32.zero); Ret (checked_add EPOCH g ≫= λ x, checked_add x deadline_).

(** The header of a shard that has been peeked at. *)
Lemma recv_header_shard now s rd rd' sid pi D t i :
  is_shard sid pi D t i → shard_recv_state s = None →
  fill rd = (Ok (Some (shard m sid pi t D i)), rd') →
  recv_header now rd s =
    (x ← (if sid =? VIDEO then
            video_shard now (SHARD_PREFIX_SIZE + length (chunk m D i)) pi (Z.of_nat i) t (rx_stats s)
          else Ret (rx_stats s));
     dl ← frame_deadline_of t;
     Ret (Some (state_of sid pi D i dl), set_state (set_stats s x) (Some (state_of sid pi D i dl)), rd')).
Proof.
  intros Hi Hst Hf. unfold recv_header. rewrite Hst. unfold peek_prefix. rewrite Hf.
  pose proof (shard_length_eq sid pi t D i) as Hl. pose proof (chunk_length m D i) as Hc.
  destruct (Nat.ltb_spec MAX_PACKET_SIZE_RECV (length (shard m sid pi t D i))); [lia|].
  destruct (Nat.ltb_spec (length (shard m sid pi t D i)) SHARD_PREFIX_SIZE); [lia|].
  rewrite (shard_header _ _ _ _ _ Hi). cbn [shard_prefix px_length px_stream px_packet px_count px_index px_instant].
  rewrite !Nat2Z.id. change (4 + (18 + length (chunk m D i)))%nat with (SHARD_PREFIX_SIZE + length (chunk m D i))%nat.
  destruct (if sid =? VIDEO then _ else _) as [x| |]; [|done|done]. ret_step.
  unfold frame_deadline_of. by destruct (F32.to_nanos _) as [g| |].
Qed.

Lemma fill_cases rd :
  (∃ msg rd', fill rd = (Ok (Some msg), rd') ∧ buffer rd' = Some msg ∧ messages rd' = messages rd ∧
     messages rd = msg :: receiver rd') ∨
  (fill rd = (Ok None, rd)) ∨ (∃ rd', fill rd = (Err Other, rd')).
Proof.
  unfold fill, try_recv, messages. destruct rd as [q dc [b|]]; cbn.
  - left. by eexists _, _.
  - destruct q as [|d q]; cbn.
    + destruct dc; [right; right; by eexists|by right; left].
    + left. by eexists _, _.
Qed.

Lemma recv_header_inv now s rd ost s' rd' :
  socket_inv s rd → recv_header now rd s = Ret (ost, s', rd') →
  socket_inv s' rd' ∧ stream_recv_components s' = stream_recv_components s ∧ shard_recv_state s' = ost.
Proof.
  intros Hinv Hr. destruct (shard_recv_state s) as [st|] eqn:Est.
  - unfold recv_header in Hr. rewrite Est in Hr. injection Hr as <- <- <-. done.
  - destruct (fill_cases rd) as [(msg & rd1 & Hf & Hb & Hms & Hhd)|[Hf|(rd1 & Hf)]].
    + pose proof (sinv_messages _ _ Hinv) as Hg. rewrite Hhd in Hg. apply Forall_cons in Hg as [Hg _].
      destruct Hg as (sid & pi & D & t & i & Hi & ->).
      rewrite (recv_header_shard _ _ _ _ _ _ _ _ _ Hi Est Hf) in Hr.
      destruct (if sid =? VIDEO then _ else _) as [x| |]; [|done|done]. cbn [mbind outcome_bind] in Hr.
      destruct (frame_deadline_of t) as [dl| |]; [|done|done]. injection Hr as <- <- <-.
      destruct Hinv as [H1 H2 H3 H4]. split; [|done]. split; cbn; [done|done|by rewrite Hms|].
      intros st [= <-]. by exists sid, pi, D, t, i, dl.
    + unfold recv_header, peek_prefix in Hr. rewrite Est, Hf in Hr. cbn in Hr. injection Hr as <- <- <-. done.
    + unfold recv_header, peek_prefix in Hr. rewrite Est, Hf in Hr. done.
Qed.

(** ** The packet of the shard *)
Lemma acquire_buffer_sub index c b c' : acquire_buffer index c = (b, c') →
  in_progress_packets c' ⊆ in_progress_packets c ∧ packet_queue c' = packet_queue c.
Proof.
  unfold acquire_buffer. destruct (used_buffer c); [|intros [= <- <-]; done].
  destruct (find_key _ _) as [idx|]; [|intros [= <- <-]; done].
  destruct (in_progress_packets c !! idx); intros [= <- <-]; [|done]. split; [apply delete_subseteq|done].
Qed.

Lemma locate_ok now sid pi D t i dl c p0 c0 : is_shard sid pi D t i → stream_inv sid c →
  locate now (state_of sid pi D i dl) c = (p0, c0) →
  packet_inv pi D p0 ∧ stream_inv sid c0 ∧ packet_queue c0 = packet_queue c.
Proof.
  intros [Hs Hi] Hc. unfold locate. cbn [should_discard packet_index state_of].
  destruct (in_progress_packets c !! pi) as [p|] eqn:Ep.
  - intros [= <- <-]. split; [|done]. destruct Hc as [Hp _]. destruct (Hp pi p Ep) as (D' & t' & Hs' & Hpi).
    rewrite Hs in Hs'. by injection Hs' as <- <-.
  - destruct (acquire_buffer pi c) as [b c1] eqn:Ea. intros [= <- <-].
    apply acquire_buffer_sub in Ea as [Hsub Hq].
    assert (packet_inv pi D (mkInProgress b 0 ∅ (if anchor_first then checked_add now deadline_ else dl)
              (shards_of m (length D)) pi)) as Hpi.
    { split; cbn; [done|done|set_solver|lia|lia]. }
    split; [done|]. pose proof (stream_inv_sub _ _ _ Hsub Hq Hc) as [Hp1 Hq1].
    split; [split|]; cbn; [|done|done].
    apply map_Forall_insert_2; [|done]. by exists D, t.
Qed.

Lemma store_ok sid pi D t i dl p c : is_shard sid pi D t i → packet_inv pi D p → stream_inv sid c →
  stream_inv sid (store (state_of sid pi D i dl) p c).
Proof.
  intros [Hs _] Hp [Hc Hq]. unfold store. cbn. split; [|done]. cbn.
  apply map_Forall_insert_2; [|done]. by exists D, t.
Qed.

Lemma complete_ok sid pi D t i dl p c x c' x' : is_shard sid pi D t i → packet_inv pi D p →
  size (received_shard_indices p) = shards_of m (length D) → stream_inv sid c →
  in_progress_packets c !! pi = Some p →
  complete_packet (state_of sid pi D i dl) (buffer_length p) c x = Ret (c', x') →
  stream_inv sid c' ∧ ∃ r, packet_queue c' = packet_queue c ++ [r] ∧ rp_index r = pi.
Proof.
  intros [Hs Hi] Hp Hsize [Hc Hq] Hpi. unfold complete_packet. cbn [stream_id packet_index state_of].
  assert (HD : (0 < length D)%nat) by (apply shards_of_lt in Hi; [lia|done]).
  destruct (if sid =? VIDEO then _ else _) as [[f x1]| |]; [|done|done]. ret_step.
  rewrite Hpi. cbn [unwrap mbind outcome_bind]. intros [= <- <-]. cbn.
  destruct (packet_complete pi D p HD Hp Hsize) as [Hb Hd].
  split; [split|by eexists]; cbn.
  - intros k q [_ Hk]%lookup_delete_Some. by apply Hc.
  - apply Forall_app. split; [done|]. apply Forall_singleton. by exists D, t.
Qed.

Lemma stream_inv_swept now sid c : stream_inv sid c → stream_inv sid (swept now c).
Proof. apply stream_inv_sub; [|done]. apply map_filter_subseteq. Qed.

Lemma streams_counts s : map_Forall stream_inv (stream_recv_components s) → socket_counts_ok s.
Proof. intros Hs id c Hc. apply (stream_inv_counts id). by apply Hs. Qed.

(** A sweep keeps the invariant of every stream and the rest of the socket. *)
Lemma sweep_inv now s : map_Forall stream_inv (stream_recv_components s) →
  ∃ s', sweep_expired_deadlines now s = Ret s' ∧ map_Forall stream_inv (stream_recv_components s') ∧
    stream_recv_components s' = swept now <$> stream_recv_components s ∧
    max_packet_size s' = max_packet_size s ∧ shard_recv_state s' = shard_recv_state s ∧ rx_stats s' = rx_stats s.
Proof.
  intros Hs. destruct (sweep_ok now s (streams_counts s Hs)) as (lost & expected & -> & _).
  eexists. split; [done|]. cbn. split; [|done]. intros id c Hc. rewrite lookup_fmap in Hc.
  destruct (stream_recv_components s !! id) as [c0|] eqn:E; [|done]. injection Hc as <-.
  by apply stream_inv_swept, Hs.
Qed.

(** ** Reading a shard *)
Lemma recv_shard_eq f sid pi D t i dl now c s rd p0 c0 :
  max_packet_size s = (m + SHARD_PREFIX_SIZE)%nat → buffer rd = Some (shard m sid pi t D i) →
  locate now (state_of sid pi D i dl) c = (p0, c0) →
  let st := state_of sid pi D i dl in
  let p := with_chunk D i p0 in
  recv_shard (S (S f)) st now c s rd =
    ('(c', x) ← (if (size (received_shard_indices p) =? shards_of m (length D))%nat then
                   complete_packet st (buffer_length p) (store st p c0) (rx_stats s)
                 else Ret (store st p c0, rx_stats s));
     s' ← sweep_expired_deadlines now (set_stats (set_components s (<[sid:=c']> (stream_recv_components s))) x);
     Ret (set_state s' None, mkReceiver (receiver rd) (disconnected rd) None)).
Proof.
  intros Hmax Hb Hl st p. unfold recv_shard. fold st in Hl. rewrite Hl, Hmax, usub_ok by lia. ret_step.
  replace (m + SHARD_PREFIX_SIZE - SHARD_PREFIX_SIZE)%nat with m by lia.
  unfold st. rewrite (read_shard_ok f _ _ _ _ _ _ _ _ Hb). cbn [mbind outcome_bind shards_count stream_id state_of].
  fold st. fold p. destruct (if (_ =? _)%nat then _ else _) as [[c' x]| |]; [|done|done]. ret_step.
  destruct (sweep_expired_deadlines _ _) as [s'| |]; [|done|done]. done.
Qed.

Lemma read_loop_fuel f start len buf rd : (f < 2)%nat → (0 < len)%nat →
  ∀ y, read_loop f start len 0 buf rd ≠ Ret y.
Proof.
  intros Hf Hlen y. destruct f as [|[|]]; [done| |lia]. cbn [read_loop].
  rewrite (proj2 (Nat.ltb_lt 0 len)) by done.
  destruct (slice _ _ _); [|done|done]. ret_step.
  destruct (reader_recv _ _) as [[d|] rd']; [|done]. by destruct (write_at _ _ _).
Qed.

Lemma recv_shard_fuel f sid pi D i dl now c s rd y : (f < 2)%nat →
  recv_shard f (state_of sid pi D i dl) now c s rd ≠ Ret y.
Proof.
  intros Hf. unfold recv_shard. destruct (locate _ _ _) as [p0 c0].
  destruct (usub _ _) as [m'| |]; [|done|done]. ret_step.
  unfold read_shard. cbn [shard_index shard_length packet_cursor overwritten_data_backup state_of].
  destruct (slice _ _ _) as [bk| |]; [|done|done]. ret_step.
  destruct (read_loop f _ _ _ _ _) as [y'| |] eqn:E; [|done|done].
  exfalso. revert E. apply read_loop_fuel; [done|unfold SHARD_PREFIX_SIZE; lia].
Qed.

(** The part of [recv] after the header keeps the invariant. *)
Lemma recv_shard_inv fuel now s rd st c s' rd' :
  socket_inv s rd → shard_recv_state s = Some st → stream_recv_components s !! stream_id st = Some c →
  recv_shard fuel st now c s rd = Ret (s', rd') → socket_inv s' rd'.
Proof.
  intros [Hmax Hs Hm Hst] Est Hc Hr. destruct (Hst st Est) as (sid & pi & D & t & i & dl & Hi & -> & Hb).
  cbn in Hc. pose proof (Hs sid c Hc) as Hsc.
  destruct (decide (fuel < 2)%nat) as [Hf|Hf]; [by destruct (recv_shard_fuel fuel sid pi D i dl now c s rd (s', rd') Hf)|].
  destruct fuel as [|[|f]]; [lia|lia|].
  destruct (locate now (state_of sid pi D i dl) c) as [p0 c0] eqn:El.
  rewrite (recv_shard_eq f _ _ _ _ _ _ _ _ _ _ p0 c0 Hmax Hb El) in Hr. clear Hf.
  destruct (locate_ok _ _ _ _ _ _ _ _ _ _ Hi Hsc El) as (Hp0 & Hc0 & Hq0).
  pose proof (with_chunk_inv pi D p0 i (proj2 Hi) Hp0) as Hp.
  set (p := with_chunk D i p0) in *. pose proof (store_ok _ _ _ _ _ dl p c0 Hi Hp Hc0) as Hc1.
  assert (∀ c' x, map_Forall stream_inv (<[sid:=c']> (stream_recv_components s)) →
    (s'0 ← sweep_expired_deadlines now (set_stats (set_components s (<[sid:=c']> (stream_recv_components s))) x);
     Ret (set_state s'0 None, mkReceiver (receiver rd) (disconnected rd) None)) = Ret (s', rd') → socket_inv s' rd') as Hend.
  { intros c' x Hs'. destruct (sweep_inv now (set_stats (set_components s (<[sid:=c']> (stream_recv_components s))) x) Hs')
      as (s1 & -> & Hs1 & _ & Hm1 & _). ret_step. intros [= <- <-].
    split; cbn; [by rewrite Hm1|done| |done]. unfold messages in *. cbn. rewrite Hb in Hm. cbn in Hm.
    by apply Forall_cons in Hm as [_ Hm]. }
  destruct (Nat.eqb_spec (size (received_shard_indices p)) (shards_of m (length D))) as [Hk|Hk].
  - destruct (complete_packet _ _ _ _) as [[c' x]| |] eqn:Ec; [|done|done]. cbn [mbind outcome_bind] in Hr.
    eapply Hend; [|exact Hr]. apply map_Forall_insert_2; [|done].
    eapply complete_ok in Ec as [Hc' _]; try done. cbn. apply lookup_insert_eq.
  - cbn [mbind outcome_bind] in Hr. eapply Hend; [|exact Hr]. by apply map_Forall_insert_2.
Qed.

Lemma recv_inv fuel now s rd res s' rd' :
  socket_inv s rd → recv fuel now s rd = Ret (res, s', rd') → socket_inv s' rd'.
Proof.
  intros Hinv Hr. unfold recv in Hr.
  destruct (recv_header now rd s) as [[[ost s1] rd1]| |] eqn:Eh; [|done|done]. cbn [mbind outcome_bind] in Hr.
  destruct (recv_header_inv _ _ _ _ _ _ Hinv Eh) as (Hinv1 & Hcs & Est).
  destruct ost as [st|]; [|by injection Hr as <- <- <-].
  destruct (stream_recv_components s1 !! stream_id st) as [c|] eqn:Ec; [|by injection Hr as <- <- <-].
  destruct (recv_shard fuel st now c s1 rd1) as [[s2 rd2]| |] eqn:Er; [|done|done].
  injection Hr as <- <- <-. by eapply recv_shard_inv.
Qed.

(** ** Everything that can happen to a socket

    Shards arrive, in any order and any number of times; [recv], the sweeps and
    the flushes are called at any time; streams are subscribed to; the receiver of
    a stream takes packets from its queue. *)
Inductive rx_step : StreamSocket T * BufferedReceiver → StreamSocket T * BufferedReceiver → Prop :=
| Arrive s rd msg : genuine msg →
    rx_step (s, rd) (s, mkReceiver (receiver rd ++ [msg]) (disconnected rd) (buffer rd))
| Receive fuel now s rd res s' rd' : recv fuel now s rd = Ret (res, s', rd') → rx_step (s, rd) (s', rd')
| Sweep now s rd s' : sweep_expired_deadlines now s = Ret s' → rx_step (s, rd) (s', rd)
| FlushLost s rd : rx_step (s, rd) ((flush_shards_lost_deadline s).2, rd)
| FlushExpected s rd : rx_step (s, rd) ((flush_shards_expected_deadline s).2, rd)
| Subscribe id n s rd : rx_step (s, rd) (subscribe_to_stream id n s, rd)
| Take id c conn r res r' c' s rd : stream_recv_components s !! id = Some c →
    receiver_recv conn r c = Ret (res, r', c') →
    rx_step (s, rd) (set_components s (<[id:=c']> (stream_recv_components s)), rd).

Lemma receiver_recv_queue conn r c res r' c' : receiver_recv conn r c = Ret (res, r', c') →
  in_progress_packets c' = in_progress_packets c ∧
  (packet_queue c' = packet_queue c ∨ ∃ y, packet_queue c = y :: packet_queue c') ∧
  ∀ d, res = Ok d → rd_packet d ∈ packet_queue c.
Proof.
  unfold receiver_recv. destruct (packet_queue c) as [|y q] eqn:Eq.
  - intros [= <- <- <-]. rewrite Eq. split; [done|]. split; [by left|done].
  - destruct (u32_add (sr_rx_bytes r) _) as [b| |]; [|done|done]. ret_step.
    destruct (u32_add (sr_rx_shard_counter r) _) as [n| |]; [|done|done]. ret_step.
    destruct (u32_add (sr_duplicated_shard_counter r) _) as [k| |]; [|done|done]. ret_step.
    destruct (check_order _ _) as [[[loss skipped]|]| |]; [| |done|done]; ret_step.
    + intros [= <- <- <-]. cbn. split; [done|]. split; [right; by exists y|]. intros d [= <-]. left.
    + destruct conn; intros [= <- <- <-]; cbn; (split; [done|]); (split; [right; by exists y|done]).
Qed.

Lemma rx_step_inv a b : rx_step a b → socket_inv a.1 a.2 → socket_inv b.1 b.2.
Proof.
  intros Hstep Hinv. destruct Hstep as [s rd msg Hg|fuel now s rd res s' rd' Hr|now s rd s' Hr|s rd|s rd|id n s rd
    |id c conn r res r' c' s rd Hc Hr]; cbn in *; [|by eapply recv_inv|..]; destruct Hinv as [H1 H2 H3 H4].
  - split; cbn; [done|done| |].
    + unfold messages in *. cbn. rewrite app_assoc. apply Forall_app. split; [done|by apply Forall_singleton].
    + intros st Hst. by destruct (H4 st Hst) as (sid & pi & D & t & i & dl & ?); exists sid, pi, D, t, i, dl.
  - destruct (sweep_inv now s H2) as (s1 & Hs1 & Hinv1 & _ & Hm1 & Hst1 & _). rewrite Hr in Hs1. injection Hs1 as <-.
    split; [by rewrite Hm1|done|done|by rewrite Hst1].
  - by split.
  - by split.
  - split; cbn; [done| |done|done]. apply map_Forall_insert_2; [|done]. split; cbn; [apply map_Forall_empty|done].
  - split; cbn; [done| |done|done]. apply map_Forall_insert_2; [|done].
    destruct (H2 id c Hc) as [Hp Hq]. destruct (receiver_recv_queue _ _ _ _ _ _ Hr) as (Ep & Eq & _).
    split; [by rewrite Ep|]. destruct Eq as [->|(p & Eq)]; [done|]. rewrite Eq in Hq. by apply Forall_cons in Hq as [_ ?].
Qed.

Lemma rx_steps_inv a b : rtc rx_step a b → socket_inv a.1 a.2 → socket_inv b.1 b.2.
Proof. induction 1 as [|a b b' Hs _ IH]; [done|]. intros Ha. by eapply IH, rx_step_inv. Qed.

Lemma build_inv : socket_inv (build (m + SHARD_PREFIX_SIZE)) (mkReceiver [] false None).
Proof. split; cbn; [done|apply map_Forall_empty|done|done]. Qed.

(** C6: Whatever arrives, in whatever order and however often, and whatever the
    client does in between, every packet in the queue of a stream, and every packet
    that the stream's receiver hands over, has the payload that was sent under its
    number, complete. *)
Theorem every_packet_is_as_sent s rd id c :
  rtc rx_step (build (m + SHARD_PREFIX_SIZE), mkReceiver [] false None) (s, rd) →
  stream_recv_components s !! id = Some c →
  Forall (as_sent id) (packet_queue c) ∧
  ∀ conn r d r' c', receiver_recv conn r c = Ret (Ok d, r', c') → as_sent id (rd_packet d).
Proof.
  intros Hsteps Hc. pose proof (rx_steps_inv _ _ Hsteps build_inv) as Hinv.
  destruct (sinv_streams _ _ Hinv id c Hc) as [_ Hq]. split; [done|].
  intros conn r d r' c' Hr. apply receiver_recv_queue in Hr as (_ & _ & Hd).
  rewrite Forall_forall in Hq. by apply Hq, Hd.
Qed.
End packets.
End Reassembly.
