(* ===== verification/Delivery.v ===== *)
(** * Delivery: all the shards of a packet, in any order, make the packet *)

From S2P Require Import Prelude StablePq Scheduler SeqExecutor F32 StreamSocket Shards FrameDeadlines VideoStats Reassembly.

Module Delivery.
Import Socket Shards Deadlines VideoStats Reassembly.

Section delivery.
Context {T : Type} `{TaiTime T} `{!Env T}.
Context (m : nat) (m_pos : (0 < m)%nat) (m_max : (m + SHARD_PREFIX_SIZE ≤ MAX_PACKET_SIZE_RECV)%nat).
Context (sent : Z → Z → option (list Z * f32)) (sent_ok : sent_wf sent).
Implicit Types (p : InProgressPacket T) (c : StreamRecvComponents T) (s : StreamSocket T) (now : T).

(** The shards of packet [pi] that stream [c] has, and the deadline of the packet,
    as a shard read at [now] finds them. *)
Definition progress now (dl : option T) (pi : Z) c : gset nat * option T :=
  match in_progress_packets c !! pi with
  | Some p => (received_shard_indices p, deadline p)
  | None => (∅, if anchor_first then checked_add now deadline_ else dl)
  end.

Lemma locate_progress now sid pi D i dl c p0 c0 : locate now (state_of m sid pi D i dl) c = (p0, c0) →
  (received_shard_indices p0, deadline p0) = progress now dl pi c ∧ packet_queue c0 = packet_queue c.
Proof.
  unfold locate, progress. cbn [should_discard packet_index state_of].
  destruct (in_progress_packets c !! pi) as [p|]; [by intros [= <- <-]|].
  destruct (acquire_buffer pi c) as [b c1] eqn:Ea. apply acquire_buffer_sub in Ea as [_ Hq]. by intros [= <- <-].
Qed.

Definition before (dl : option T) now : Prop := match dl with Some d => nanos now < nanos d | None => True end.
Lemma before_expired p now : before (deadline p) now → expired now p = false.
Proof. unfold before, expired. destruct (deadline p); [|done]. by rewrite time_le_false. Qed.

(** One shard of packet [pi], read before the packet's deadline. *)
Definition after_shard (k : nat) (pi : Z) (got : gset nat) (dl : option T) c c' : Prop :=
  if (size got =? k)%nat then
    (∃ r, packet_queue c' = packet_queue c ++ [r] ∧ rp_index r = pi) ∧ in_progress_packets c' !! pi = None
  else packet_queue c' = packet_queue c ∧
    ∃ p, in_progress_packets c' !! pi = Some p ∧ received_shard_indices p = got ∧ deadline p = dl.

(** The statistics that go with it: [x] after the shard, and those of the frame
    when it is complete. *)
Definition header_stats now sid pi D t i s (x : RxStats T) : Prop :=
  (if sid =? VIDEO then video_shard now (SHARD_PREFIX_SIZE + length (chunk m D i)) pi (Z.of_nat i) t (rx_stats s)
   else Ret (rx_stats s)) = Ret x.
Definition frame_stats_ok sid pi (x : RxStats T) : Prop :=
  sid = VIDEO → ∀ st : RecvState T, packet_index st = pi → ∃ f x', video_frame st x = Ret (f, x').

Lemma recv_one f now s q dc sid pi D t i c dl x :
  socket_inv m sent s (mkReceiver (shard m sid pi t D i :: q) dc None) → shard_recv_state s = None →
  is_shard m sent sid pi D t i → stream_recv_components s !! sid = Some c →
  frame_deadline_of t = Ret dl → header_stats now sid pi D t i s x → frame_stats_ok sid pi x →
  before (progress now dl pi c).2 now →
  let got := {[i]} ∪ (progress now dl pi c).1 in
  ∃ s' c', recv (S (S f)) now s (mkReceiver (shard m sid pi t D i :: q) dc None) = Ret (Ok tt, s', mkReceiver q dc None) ∧
    stream_recv_components s' !! sid = Some c' ∧ shard_recv_state s' = None ∧
    after_shard (shards_of m (length D)) pi got (progress now dl pi c).2 c c' ∧
    ((size got ≠ shards_of m (length D))%nat → rx_stats s' = x).
Proof.
  intros Hinv Hst Hi Hc Hdl Hx Hfr Hbef got. subst got. destruct (progress now dl pi c) as [R dlx] eqn:Ep.
  cbn [fst snd] in *. unfold recv.
  rewrite (recv_header_shard m m_pos m_max sent sent_ok now s _ (mkReceiver q dc (Some (shard m sid pi t D i))) sid pi D t i Hi Hst)
    by done.
  rewrite Hx, Hdl. cbn [mbind outcome_bind stream_recv_components set_state set_stats stream_id state_of]. rewrite Hc.
  set (s1 := set_state (set_stats s x) (Some (state_of m sid pi D i dl))).
  pose proof (sinv_streams _ _ _ _ Hinv sid c Hc) as Hsc.
  destruct (locate now (state_of m sid pi D i dl) c) as [p0 c0] eqn:El.
  destruct (locate_progress _ _ _ _ _ _ _ _ _ El) as [Hprog Hq0].
  destruct (locate_ok m m_pos m_max sent sent_ok now sid pi D t i dl c p0 c0 Hi Hsc El) as (Hp0 & Hc0 & _).
  pose proof (with_chunk_inv m m_pos m_max pi D p0 i (proj2 Hi) Hp0) as Hp.
  rewrite Ep in Hprog. injection Hprog as <- <-.
  rewrite (recv_shard_eq m m_pos m_max f sid pi D t i dl now c s1 (mkReceiver q dc (Some (shard m sid pi t D i))) p0 c0
    (sinv_size _ _ _ _ Hinv) eq_refl El).
  set (st := state_of m sid pi D i dl) in *. set (p := with_chunk m D i p0) in *.
  pose proof (store_ok m sent sid pi D t i dl p c0 Hi Hp Hc0) as Hc1. fold st in Hc1.
  assert (Hsweep : ∀ c' x', stream_inv m sent sid c' →
    ∃ s', sweep_expired_deadlines now (set_stats (set_components s1 (<[sid:=c']> (stream_recv_components s1))) x') = Ret s' ∧
      stream_recv_components s' !! sid = Some (swept now c') ∧ rx_stats s' = x').
  { intros c' x' Hc'. destruct (sweep_inv m m_pos m_max sent now (set_stats (set_components s1 (<[sid:=c']> (stream_recv_components s1))) x'))
      as (s' & -> & _ & Hcs & _ & _ & Hrs).
    - cbn. apply map_Forall_insert_2; [done|apply (sinv_streams _ _ _ _ Hinv)].
    - exists s'. split; [done|]. split; [|done]. rewrite Hcs, lookup_fmap. cbn. by rewrite lookup_insert_eq. }
  set (got := {[i]} ∪ received_shard_indices p0). change (received_shard_indices p) with got. unfold after_shard.
  destruct (Nat.eqb_spec (size got) (shards_of m (length D))) as [Hk|Hk].
  - assert (∃ c' x', complete_packet st (buffer_length p) (store st p c0) (rx_stats s1) = Ret (c', x')) as (c' & x' & Ecp).
    { unfold complete_packet. cbn [stream_id packet_index st state_of rx_stats s1 set_state set_stats].
      destruct (Z.eqb_spec sid VIDEO) as [Hv|Hv].
      - destruct (Hfr Hv st eq_refl) as (fs & x' & ->). cbn. rewrite lookup_insert_eq. cbn. by eexists _, _.
      - cbn. rewrite lookup_insert_eq. cbn. by eexists _, _. }
    rewrite Ecp. ret_step.
    pose proof Ecp as Ecp'. unfold complete_packet in Ecp'.
    destruct (complete_ok m m_pos m_max sent sid pi D t i dl p (store st p c0) _ c' x' Hi Hp Hk Hc1 (lookup_insert_eq _ _ _) Ecp)
      as (Hc' & r & Hr & Hri).
    destruct (Hsweep c' x' Hc') as (s' & -> & Hs' & _). ret_step.
    eexists _, (swept now c'). split; [done|]. split; [done|]. split; [done|]. split; [|done]. split.
    + exists r. cbn. by rewrite Hr, <-Hq0.
    + cbn. apply map_lookup_filter_None_2. left.
      apply bind_Ret in Ecp' as ([fs xs] & _ & (p' & _ & [= <- _])%bind_Ret). cbn. apply lookup_delete_eq.
  - ret_step. destruct (Hsweep (store st p c0) (rx_stats s1) Hc1) as (s' & -> & Hs' & Hxs).
    ret_step. eexists _, (swept now (store st p c0)). split; [done|]. split; [done|].
    split; [done|]. split; [|by intros _].
    split; [done|]. exists p. split; [|done]. cbn. apply map_lookup_filter_Some_2; [apply lookup_insert_eq|].
    by apply before_expired.
Qed.

(** ** All the shards *)
Fixpoint recv_all (fuel : nat) (ts : list T) s (rd : BufferedReceiver)
    : outcome (list (result unit ConnectionError) * StreamSocket T * BufferedReceiver) :=
  match ts with
  | [] => Ret ([], s, rd)
  | now :: ts =>
      '(res, s, rd) ← recv fuel now s rd;
      '(rs, s, rd) ← recv_all fuel ts s rd;
      Ret (res :: rs, s, rd)
  end.

Definition wire_bytes (D : list Z) (l : list nat) : nat :=
  sum_list_with (λ i, SHARD_PREFIX_SIZE + length (chunk m D i))%nat l.
Lemma wire_bytes_cons D i l : wire_bytes D (i :: l) = (SHARD_PREFIX_SIZE + length (chunk m D i) + wire_bytes D l)%nat.
Proof. done. Qed.
Definition in_order (ts : list T) : Prop := StronglySorted (λ a b, nanos a ≤ nanos b) ts.

(** What the statistics need when the stream is that of the video: counters with
    room for the shards, and a clock that does not go back. *)
Definition video_room sid pi t D (l : list (nat * T)) s : Prop :=
  sid = VIDEO → 0 ≤ F32.as_micros_i64 t ∧ in_order (snd <$> l) ∧
    Forall (λ now, 0 ≤ nanos now < TIME_BOUND) (snd <$> l) ∧
    ∀ now, head (snd <$> l) = Some now → stats_room pi t (length l) (wire_bytes D (fst <$> l)) now (rx_stats s).

Lemma video_room_step sid pi t D i now l s : video_room sid pi t D ((i, now) :: l) s →
  ∃ x, header_stats now sid pi D t i s x ∧ frame_stats_ok sid pi x ∧
    ∀ s', rx_stats s' = x → video_room sid pi t D l s'.
Proof.
  intros Hv. destruct (decide (sid = VIDEO)) as [->|Hne].
  - destruct (Hv eq_refl) as (Ht & Hord & Htimes & Hroom). rewrite fmap_cons in *. cbn [snd] in *.
    apply Forall_cons in Htimes as [Hnow Htimes]. apply StronglySorted_inv in Hord as [Hord Hlater].
    destruct (video_shard_ok pi t (length l) (wire_bytes D (i :: (fst <$> l))) now
      (SHARD_PREFIX_SIZE + length (chunk m D i)) i (rx_stats s)) as (x & inner & Hx & Hin & Hne & Hnext);
      [by apply Hroom|rewrite wire_bytes_cons; lia|done|].
    exists x. split; [done|]. split.
    + intros _ st Hst. by eapply video_frame_ok; [apply (Hnext now); lia|..].
    + intros s' Hs' _. split; [done|]. split; [done|]. split; [done|]. intros now' Hhd. rewrite Hs'.
      replace (wire_bytes D (fst <$> l)) with (wire_bytes D (i :: (fst <$> l)) - (SHARD_PREFIX_SIZE + length (chunk m D i)))%nat
        by (rewrite wire_bytes_cons; lia).
      apply Hnext. rewrite Forall_forall in Hlater. apply Hlater. destruct (snd <$> l); [done|]. injection Hhd as ->. left.
  - exists (rx_stats s). unfold header_stats. rewrite (proj2 (Z.eqb_neq _ _) Hne). split; [done|]. split.
    + intros Hvid. by destruct Hne.
    + intros s' _ Hvid. by destruct Hne.
Qed.

Lemma recv_rest f sid pi D t dl dlx l : ∀ s c dc R,
  l ≠ [] → sent sid pi = Some (D, t) → frame_deadline_of t = Ret dl →
  Forall (λ i, i < shards_of m (length D))%nat (fst <$> l) → NoDup (fst <$> l) →
  Forall (λ i, i ∉ R) (fst <$> l) → (size R + length l = shards_of m (length D))%nat →
  Forall (before dlx) (snd <$> l) → video_room sid pi t D l s →
  socket_inv m sent s (mkReceiver (shard m sid pi t D <$> (fst <$> l)) dc None) → shard_recv_state s = None →
  stream_recv_components s !! sid = Some c →
  (∀ now, head (snd <$> l) = Some now → progress now dl pi c = (R, dlx)) →
  ∃ s' c' r, recv_all (S (S f)) (snd <$> l) s (mkReceiver (shard m sid pi t D <$> (fst <$> l)) dc None) =
      Ret (replicate (length l) (Ok tt), s', mkReceiver [] dc None) ∧
    socket_inv m sent s' (mkReceiver [] dc None) ∧ stream_recv_components s' !! sid = Some c' ∧
    packet_queue c' = packet_queue c ++ [r] ∧ rp_index r = pi ∧ in_progress_packets c' !! pi = None.
Proof.
  induction l as [|[i now] l IH]; [done|]. intros s c dc R _ Hs Hdl Hlt Hnd Hdisj Hsize Hbef Hv Hinv Hst Hc Hprog.
  destruct (video_room_step _ _ _ _ _ _ _ _ Hv) as (x & Hx & Hfr & Hnextv).
  rewrite !fmap_cons in *. cbn [fst snd length] in *.
  apply Forall_cons in Hlt as [Hi Hlt]. apply Forall_cons in Hdisj as [HiR Hdisj].
  apply Forall_cons in Hbef as [Hb Hbef]. apply NoDup_cons in Hnd as [Hil Hnd].
  pose proof (Hprog now eq_refl) as Hp.
  destruct (recv_one f now s (shard m sid pi t D <$> (fst <$> l)) dc sid pi D t i c dl x Hinv Hst (conj Hs Hi) Hc Hdl Hx Hfr)
    as (s1 & c1 & Hr & Hc1 & Hst1 & Haft & Hrx); [by rewrite Hp|]. rewrite Hp in *. cbn [fst snd] in *.
  pose proof (recv_inv m m_pos m_max sent sent_ok _ _ _ _ _ _ _ Hinv Hr) as Hinv1.
  cbn [recv_all]. rewrite Hr. ret_step.
  assert (size ({[i]} ∪ R) = S (size R)) as Hsz by (rewrite size_union by set_solver; by rewrite size_singleton).
  unfold after_shard in Haft. rewrite Hsz in *. destruct l as [|[i2 now2] l].
  - cbn [length] in Hsize. rewrite (proj2 (Nat.eqb_eq _ _)) in Haft by lia.
    destruct Haft as ((r & Hq & Hri) & Hgone). exists s1, c1, r. cbn. done.
  - cbn [length] in Hsize. rewrite (proj2 (Nat.eqb_neq _ _)) in Haft by lia.
    destruct Haft as (Hq & p & Hpi & Hgot & Hdp).
    destruct (IH s1 c1 dc ({[i]} ∪ R)) as (s' & c' & r & Hall & Hinv' & Hc' & Hq' & Hri & Hgone); try done.
    + rewrite Forall_forall in Hdisj |- *. intros j Hj [->%elem_of_singleton|HjR]%elem_of_union; [done|].
      by apply (Hdisj j).
    + rewrite Hsz. cbn [length]. lia.
    + apply Hnextv, Hrx. lia.
    + intros now' _. unfold progress. rewrite Hpi. by rewrite Hgot, Hdp.
    + rewrite Hall. ret_step. exists s', c', r. split; [done|]. by rewrite <-Hq.
Qed.

(** C4: A packet none of whose shards has been read yet: when its shards are in the
    channel, each once, in any order, and are read before its deadline, every
    [recv] succeeds, whatever buffers the stream uses again and whatever frames
    expire meanwhile; exactly one packet is added to the stream's queue, and it has
    the number and the payload that were sent. *)
Theorem all_shards_make_the_packet f sid pi D t dl s c dc (l : list (nat * T)) :
  sent sid pi = Some (D, t) → (0 < length D)%nat → frame_deadline_of t = Ret dl →
  fst <$> l ≡ₚ seq 0 (shards_of m (length D)) →
  socket_inv m sent s (mkReceiver (shard m sid pi t D <$> (fst <$> l)) dc None) → shard_recv_state s = None →
  stream_recv_components s !! sid = Some c → in_progress_packets c !! pi = None →
  (∀ now, head (snd <$> l) = Some now →
     Forall (before (if anchor_first then checked_add now deadline_ else dl)) (snd <$> l)) →
  video_room sid pi t D l s →
  ∃ s' c' r, recv_all (S (S f)) (snd <$> l) s (mkReceiver (shard m sid pi t D <$> (fst <$> l)) dc None) =
      Ret (replicate (length l) (Ok tt), s', mkReceiver [] dc None) ∧
    stream_recv_components s' !! sid = Some c' ∧
    packet_queue c' = packet_queue c ++ [r] ∧ rp_index r = pi ∧
    rp_size r = (SHARD_PREFIX_SIZE + length D)%nat ∧
    take (length D) (drop SHARD_PREFIX_SIZE (rp_buffer r)) = D.
Proof.
  intros Hs HD Hdl Hperm Hinv Hst Hc Hpi Hbef Hv.
  assert (0 < shards_of m (length D))%nat as Hk by (apply shards_of_lt; [done|lia]).
  assert (length l = shards_of m (length D)) as Hlen.
  { rewrite <-(length_fmap fst l), Hperm. apply length_seq. }
  destruct l as [|[i now] l']; [cbn in Hlen; lia|]. set (l := (i, now) :: l') in *.
  destruct (recv_rest f sid pi D t dl (if anchor_first then checked_add now deadline_ else dl) l s c dc ∅)
    as (s' & c' & r & Hall & Hinv' & Hc' & Hq & Hri & _); try done.
  - rewrite Hperm. apply Forall_forall. intros j Hj%elem_of_seq. lia.
  - rewrite Hperm. apply NoDup_seq.
  - apply Forall_forall. set_solver.
  - by apply Hbef.
  - intros now' [= <-]. unfold progress. by rewrite Hpi.
  - exists s', c', r. destruct (sinv_streams _ _ _ _ Hinv' sid c' Hc') as [_ Hqs]. rewrite Hq in Hqs.
    apply Forall_app in Hqs as [_ Hr]. apply Forall_cons in Hr as [Hr _]. destruct Hr as (D' & t' & Hs' & Hsz & Hd).
    rewrite Hri, Hs in Hs'. by injection Hs' as <- <-.
Qed.

(** The runs of [recv_all] are runs of the socket. *)
Lemma recv_all_steps fuel ts s rd rs s' rd' : recv_all fuel ts s rd = Ret (rs, s', rd') →
  rtc (rx_step m sent) (s, rd) (s', rd').
Proof.
  revert s rd rs. induction ts as [|now ts IH]; intros s rd rs; cbn [recv_all].
  - intros [= _ <- <-]. apply rtc_refl.
  - intros ([[res s1] rd1] & Hr & ([[rs1 s2] rd2] & Hall & [= _ <- <-])%bind_Ret)%bind_Ret.
    eapply rtc_l; [by eapply Receive|]. by eapply IH.
Qed.

Lemma arrive_steps msgs s q dc b : Forall (genuine m sent) msgs →
  rtc (rx_step m sent) (s, mkReceiver q dc b) (s, mkReceiver (q ++ msgs) dc b).
Proof.
  intros Hm. revert q. induction Hm as [|msg msgs Hg _ IH]; intros q; [rewrite app_nil_r; apply rtc_refl|].
  eapply rtc_l; [by apply (Arrive _ _ s (mkReceiver q dc b) msg)|]. cbn.
  replace (q ++ msg :: msgs) with ((q ++ [msg]) ++ msgs) by (by rewrite <-app_assoc). apply IH.
Qed.
End delivery.
End Delivery.

(** ** A packet of the video stream, its three shards in the order 2, 0, 1 *)
Module DeliveryDemo.
Import Socket Shards Deadlines VideoStats Reassembly Delivery SocketDemo.

Definition demo_data : list Z := [10; 11; 12; 13; 14; 15; 16; 17; 18; 19].
Definition demo_stamp : f32 := F32.of_nanos 1000000000.
Definition demo_sent (sid pi : Z) : option (list Z * f32) :=
  if (sid =? 3) && (pi =? 5) then Some (demo_data, demo_stamp) else None.
Definition demo_arrivals : list (nat * mono) :=
  [(2%nat, mono_of 1010000000); (0%nat, mono_of 1020000000); (1%nat, mono_of 1030000000)].
Definition demo_start : StreamSocket mono := subscribe_to_stream 3 2 (build 26).
Definition demo_shards : list (list Z) := shard 4 3 5 demo_stamp demo_data <$> (fst <$> demo_arrivals).

Lemma demo_sent_inv sid pi D t : demo_sent sid pi = Some (D, t) → sid = 3 ∧ pi = 5 ∧ D = demo_data ∧ t = demo_stamp.
Proof.
  unfold demo_sent. destruct (Z.eqb_spec sid 3), (Z.eqb_spec pi 5); cbn; intros [=]; by subst.
Qed.
Lemma demo_sent_ok : sent_wf demo_sent.
Proof.
  intros sid pi D t (-> & -> & -> & ->)%demo_sent_inv. split_and!; vm_compute; done.
Qed.
Lemma demo_genuine : Forall (genuine 4 demo_sent) demo_shards.
Proof.
  assert (∀ i, (i < 3)%nat → genuine 4 demo_sent (shard 4 3 5 demo_stamp demo_data i)) as Hg.
  { intros i Hi. exists 3, 5, demo_data, demo_stamp, i. split; [split; [done|exact Hi]|done]. }
  change demo_shards with (shard 4 3 5 demo_stamp demo_data <$> [2; 0; 1]%nat). rewrite !fmap_cons.
  repeat (apply Forall_cons; split; [apply Hg; lia|]). apply Forall_nil_2.
Qed.
Lemma demo_inv : socket_inv 4 demo_sent demo_start (mkReceiver demo_shards false None).
Proof.
  split; cbn; [done| |apply demo_genuine|done].
  apply map_Forall_insert_2; [split; [apply map_Forall_empty|done]|apply map_Forall_empty].
Qed.
Lemma demo_room : video_room 4 3 5 demo_stamp demo_data demo_arrivals demo_start.
Proof.
  intros _. split_and!.
  - vm_compute. done.
  - repeat constructor; vm_compute; done.
  - repeat constructor; vm_compute; done.
  - intros now [= <-]. split; cbn [demo_start subscribe_to_stream set_components build rx_stats map_rx rx_bytes
      prev_shard_rx_instant rx_shard_counter duplicated_shard_counter]; rewrite ?lookup_empty.
    + done.
    + vm_compute. split; done.
    + vm_compute. done.
    + vm_compute. done.
    + apply map_Forall_empty.
    + vm_compute. done.
Qed.

Lemma all_shards_make_the_packet_witness :
  ∃ s' c' r, recv_all 2 (snd <$> demo_arrivals) demo_start (mkReceiver demo_shards false None) =
      Ret (replicate 3 (Ok tt), s', mkReceiver [] false None) ∧
    stream_recv_components s' !! 3 = Some c' ∧ packet_queue c' = [] ++ [r] ∧ rp_index r = 5 ∧ rp_size r = 32%nat ∧
    take 10 (drop SHARD_PREFIX_SIZE (rp_buffer r)) = demo_data.
Proof.
  apply (all_shards_make_the_packet 4 ltac:(lia) ltac:(vm_compute; lia) demo_sent demo_sent_ok 0 3 5 demo_data
    demo_stamp (Some (mono_of 1060000000)) demo_start (mkComponents [[]; []] [] ∅ (mkInProgress [] 0 ∅ None 0 0)) false
    demo_arrivals).
  - reflexivity.
  - cbn. lia.
  - vm_compute. reflexivity.
  - change ([2; 0; 1] ≡ₚ [0; 1] ++ [2])%nat. apply (Permutation_app_comm [2%nat]).
  - apply demo_inv.
  - reflexivity.
  - vm_compute. reflexivity.
  - reflexivity.
  - intros now [= <-]. repeat constructor; vm_compute; done.
  - apply demo_room.
Defined.

Lemma demo_received : ∃ rs s c,
  recv_all 2 (snd <$> demo_arrivals) demo_start (mkReceiver demo_shards false None) = Ret (rs, s, mkReceiver [] false None) ∧
  stream_recv_components s !! 3 = Some c ∧ packet_queue c ≠ [].
Proof. eexists _, _, _. split; [vm_compute; reflexivity|]. split; [vm_compute; reflexivity|]. vm_compute. done. Qed.

Lemma every_packet_is_as_sent_witness :
  ∃ s rd c, rtc (rx_step 4 demo_sent) (build (4 + SHARD_PREFIX_SIZE), mkReceiver [] false None) (s, rd) ∧
    stream_recv_components s !! 3 = Some c ∧ packet_queue c ≠ [] ∧ Forall (as_sent demo_sent 3) (packet_queue c).
Proof.
  destruct demo_received as (rs & s & c & Hall & Hc & Hq).
  assert (rtc (rx_step 4 demo_sent) (build (4 + SHARD_PREFIX_SIZE), mkReceiver [] false None)
            (s, mkReceiver [] false None)) as Hsteps.
  { eapply rtc_l; [apply (Subscribe 4 demo_sent 3 2)|]. etrans; [apply (arrive_steps 4 demo_sent demo_shards), demo_genuine|].
    by eapply recv_all_steps. }
  exists s, (mkReceiver [] false None), c. split; [exact Hsteps|]. split; [exact Hc|]. split; [exact Hq|].
  exact (proj1 (every_packet_is_as_sent 4 ltac:(lia) ltac:(vm_compute; lia) demo_sent demo_sent_ok s
    (mkReceiver [] false None) 3 c Hsteps Hc)).
Defined.
End DeliveryDemo.
