(* ===== verification/StreamOrder.v ===== *)
(** * The order of packets: [StreamReceiver::recv]

    Packet numbers are compared modulo 2^32.  The receiver of a stream hands over a
    packet when it is newer than the last one, with the number of packets that were
    skipped; older ones are dropped and their counters kept for the next. *)

From S2P Require Import Prelude StablePq Scheduler SeqExecutor F32 StreamSocket Shards FrameDeadlines VideoStats.

Module StreamOrder.
Import Socket VideoStats.

Definition HALF : Z := U32_MAX / 2.

Lemma wrapping_cmp_near a b : Z.abs (a - b) < HALF → wrapping_cmp (wrap 32 a) (wrap 32 b) = Z.compare a b.
Proof.
  intros Hd. unfold wrapping_cmp, HALF, wrap in *. change (U32_MAX / 2) with 2147483647 in *. change (2 ^ 32) with 4294967296.
  rewrite <-Zminus_mod. destruct (Z.compare_spec a b) as [->|Hlt|Hgt].
  - by rewrite Z.sub_diag.
  - assert ((a - b) `mod` 4294967296 = a - b + 4294967296) as -> by (Z.to_euclidean_division_equations; lia).
    destruct (Z.eqb_spec (a - b + 4294967296) 0); [lia|]. destruct (Z.ltb_spec (a - b + 4294967296) 2147483647); [lia|done].
  - rewrite Z.mod_small by lia. destruct (Z.eqb_spec (a - b) 0); [lia|]. destruct (Z.ltb_spec (a - b) 2147483647); [done|lia].
Qed.

(** [wrapping_cmp] orders packet numbers as the numbers they stand for, whenever
    these are less than 2^31 - 1 apart, across the wrap of the counter too; at a
    distance of 2^31 - 1 to 2^31 + 1 each of two numbers is older than the other. *)
Theorem wrapping_cmp_order a b :
  (Z.abs (a - b) < HALF → wrapping_cmp (wrap 32 a) (wrap 32 b) = Z.compare a b) ∧
  (HALF ≤ a - b ≤ HALF + 2 →
   wrapping_cmp (wrap 32 a) (wrap 32 b) = Lt ∧ wrapping_cmp (wrap 32 b) (wrap 32 a) = Lt).
Proof.
  split; [apply wrapping_cmp_near|]. intros Hd. unfold wrapping_cmp, HALF, wrap in *.
  change (U32_MAX / 2) with 2147483647 in *. change (2 ^ 32) with 4294967296. rewrite <-!Zminus_mod.
  assert ((a - b) `mod` 4294967296 = a - b) as -> by (apply Z.mod_small; lia).
  assert ((b - a) `mod` 4294967296 = b - a + 4294967296) as -> by (Z.to_euclidean_division_equations; lia).
  destruct (Z.eqb_spec (a - b) 0); [lia|]. destruct (Z.ltb_spec (a - b) 2147483647); [lia|].
  destruct (Z.eqb_spec (b - a + 4294967296) 0); [lia|].
  destruct (Z.ltb_spec (b - a + 4294967296) 2147483647); [lia|done].
Qed.

Section receiver.
Context {T : Type} `{TaiTime T} `{!Env T}.
Implicit Types (c : StreamRecvComponents T) (r : StreamReceiver).




Definition counter_room (r : StreamReceiver) (q : list ReconstructedPacket) : Prop :=
  Forall (λ p, 0 ≤ rp_rx_bytes p ∧ 0 ≤ rp_rx_shard_counter p ∧ 0 ≤ rp_duplicated_shard_counter p) q ∧
  0 ≤ sr_rx_bytes r ∧ sr_rx_bytes r + sumZ (rp_rx_bytes <$> q) ≤ U32_MAX ∧
  0 ≤ sr_rx_shard_counter r ∧ sr_rx_shard_counter r + sumZ (rp_rx_shard_counter <$> q) ≤ U32_MAX ∧
  0 ≤ sr_duplicated_shard_counter r ∧
  sr_duplicated_shard_counter r + sumZ (rp_duplicated_shard_counter <$> q) ≤ U32_MAX.



Lemma sumZ_nonneg (l : list Z) : Forall (λ b, 0 ≤ b) l → 0 ≤ sumZ l.
Proof. unfold sumZ. induction 1; cbn [foldr]; lia. Qed.
Lemma sumZ_cons (b : Z) l : sumZ (b :: l) = b + sumZ l.
Proof. done. Qed.

(** The counters with those of a packet added. *)
Definition plus r (p : ReconstructedPacket) : StreamReceiver :=
  mkStreamReceiver (last_packet_index r) (F32.add (sr_frame_interarrival r) (rp_frame_interarrival p))
    (sr_rx_bytes r + rp_rx_bytes p) (sr_rx_shard_counter r + rp_rx_shard_counter p)
    (sr_duplicated_shard_counter r + rp_duplicated_shard_counter p).
Definition restarted (p : ReconstructedPacket) : StreamReceiver := mkStreamReceiver (Some (rp_index p)) f0 0 0 0.

Lemma counter_room_cons r p q : counter_room r (p :: q) →
  counter_room (plus r p) q ∧ counter_room (restarted p) q ∧
  sr_rx_bytes r + rp_rx_bytes p ≤ U32_MAX ∧ sr_rx_shard_counter r + rp_rx_shard_counter p ≤ U32_MAX ∧
  sr_duplicated_shard_counter r + rp_duplicated_shard_counter p ≤ U32_MAX.
Proof.
  unfold counter_room. rewrite !fmap_cons, !sumZ_cons. intros (Hnn & H1 & H2 & H3 & H4 & H5 & H6).
  apply Forall_cons in Hnn as [(Hp1 & Hp2 & Hp3) Hnn].
  assert (0 ≤ sumZ (rp_rx_bytes <$> q) ∧ 0 ≤ sumZ (rp_rx_shard_counter <$> q) ∧ 0 ≤ sumZ (rp_duplicated_shard_counter <$> q)).
  { split_and!; apply sumZ_nonneg, Forall_fmap; (eapply Forall_impl; [exact Hnn|]); naive_solver. }
  cbn [plus restarted sr_rx_bytes sr_rx_shard_counter sr_duplicated_shard_counter]. split_and!; done || lia.
Qed.





(** The count of skipped packets is not computed modulo 2^32: when the packet
    before the counter wraps is lost, the first packet after it makes the receiver
    panic. *)
Theorem receiver_wrap_panics conn r c p q :
  packet_queue c = p :: q → rp_index p = 0 → last_packet_index r = Some (U32_MAX - 1) →
  counter_room r (p :: q) → receiver_recv conn r c = Panic.
Proof.
  intros Hq Hp Hl (_ & _ & Hb & Hs & Hd)%counter_room_cons. unfold receiver_recv. rewrite Hq.
  rewrite !u32_add_ok by done. ret_step. by rewrite Hp, Hl.
Qed.
End receiver.
End StreamOrder.

Module OrderDemo.
Import Socket StreamOrder VideoStats SocketDemo.

Definition demo_rp (index bytes : Z) : ReconstructedPacket :=
  mkReconstructed index [] 22 index f0 f0 f0 f0 f0 bytes 0 0 1 0 0 0 f0 f0 None 1.
Definition demo_components (q : list ReconstructedPacket) : StreamRecvComponents mono :=
  mkComponents [] q ∅ (mkInProgress [] 0 ∅ None 0 0).

Lemma wrapping_cmp_order_witness :
  wrapping_cmp (wrap 32 (2 ^ 32 + 3)) (wrap 32 (2 ^ 32 - 2)) = Gt ∧ wrapping_cmp (wrap 32 (2 ^ 31)) (wrap 32 0) = Lt.
Proof.
  split; [apply (proj1 (wrapping_cmp_order (2 ^ 32 + 3) (2 ^ 32 - 2))); vm_compute; reflexivity|].
  apply (proj2 (wrapping_cmp_order (2 ^ 31) 0)). vm_compute. split; discriminate.
Defined.


Lemma receiver_wrap_panics_witness :
  receiver_recv true (mkStreamReceiver (Some (U32_MAX - 1)) f0 0 0 0) (demo_components [demo_rp 0 10]) = Panic.
Proof.
  apply (receiver_wrap_panics true _ _ (demo_rp 0 10) []); [reflexivity..|].
  split_and!; [repeat constructor; cbn; lia|vm_compute; congruence..].
Defined.
End OrderDemo.
