(* ===== verification/SimRng.v ===== *)
(** * Seeded random streams

    [examples/lib/sim_rng.rs]: the SplitMix64 generator behind every random draw
    of the simulator, the tags that name its streams, the run's counter of
    construction-time streams, and the multiply-rotate hasher.  A [u64] is a [Z]
    in [[0, 2^64)]; thread-local storage of the run is an explicit [RunRng].

    The theorems: the mixing function is a bijection of [u64], so a stream draws
    every 64-bit value exactly once in [2^64] draws, and the streams that one run
    derives for different owners start in different states. *)

From S2P Require Import Prelude.

Module Rng.
Definition u64 (z : Z) : Prop := 0 ≤ z < 2 ^ 64.
Definition wrapping_add (a b : Z) : Z := wrap 64 (a + b).
Definition wrapping_mul (a b : Z) : Z := wrap 64 (a * b).

Definition GAMMA : Z := 0x9E3779B97F4A7C15.
Definition MIX_1 : Z := 0xBF58476D1CE4E5B9.
Definition MIX_2 : Z := 0x94D049BB133111EB.
Definition DEFAULT_SEED : Z := 0x51573D57A5EED001.

(** [z ^ (z >> k)] *)
Definition xorshift (k z : Z) : Z := Z.lxor z (Z.shiftr z k).
(** The three rounds that [mix64] and [next_u64] share. *)
Definition finalize (z : Z) : Z :=
  let z := wrapping_mul (xorshift 30 z) MIX_1 in
  let z := wrapping_mul (xorshift 27 z) MIX_2 in
  xorshift 31 z.

Definition mix64 (z : Z) : Z := finalize (wrapping_add z GAMMA).

Definition tag (parts : list Z) : Z :=
  foldl (λ acc p, mix64 (Z.lxor acc (mix64 p))) 0x243F6A8885A308D3 parts.
(** FNV-1a, of the bytes of a string. *)
Definition tag_str (bytes : list Z) : Z :=
  foldl (λ h b, wrapping_mul (Z.lxor h b) 0x100000001B3) 0xCBF29CE484222325 bytes.

Record SimRng := mkRng { state : Z }.
Definition new (seed : Z) : SimRng := mkRng (mix64 seed).
Definition for_seed (seed tag : Z) : SimRng := new (Z.lxor seed (mix64 tag)).

Definition next_u64 (r : SimRng) : Z * SimRng :=
  let state := wrapping_add (state r) GAMMA in
  (finalize state, mkRng state).
Definition next_u32 (r : SimRng) : Z * SimRng :=
  let '(v, r) := next_u64 r in
  (Z.shiftr v 32, r).

(** [to_le_bytes] *)
Definition le_bytes (v : Z) : list Z := (λ i : nat, (v / 2 ^ (8 * Z.of_nat i)) `mod` 256) <$> seq 0 8.
(** The loop over [dest.chunks_mut(8)]; [n] is the length of [dest]. *)
Fixpoint fill_chunks (fuel n : nat) (r : SimRng) : list Z * SimRng :=
  match fuel with
  | O => ([], r)
  | S fuel =>
      if decide (n = 0%nat) then ([], r)
      else let '(v, r) := next_u64 r in
           let '(bs, r) := fill_chunks fuel (n - 8) r in
           (take n (le_bytes v) ++ bs, r)
  end.
Definition fill_bytes (n : nat) (r : SimRng) : list Z * SimRng := fill_chunks n n r.

(** ** The run: seed, construction counter and one-time draws *)
Record RunRng := mkRun { seed : Z; counter : Z; once_map : gmap (list Z) Z }.
Definition set_global_seed (seed : Z) : RunRng := mkRun seed 0 ∅.
Definition stream (run : RunRng) (tag : Z) : SimRng := for_seed (seed run) tag.
Definition next_stream (tag_name : list Z) (run : RunRng) : SimRng * RunRng :=
  (stream run (tag [tag_str tag_name; counter run]),
   mkRun (seed run) (wrapping_add (counter run) 1) (once_map run)).
Definition once (key : list Z) (draw : RunRng → Z) (run : RunRng) : Z * RunRng :=
  match once_map run !! key with
  | Some v => (v, run)
  | None => let v := draw run in (v, mkRun (seed run) (counter run) (<[key:=v]> (once_map run)))
  end.

(** ** The hasher of maps that are only looked up *)
Module FastHasher.
Definition K : Z := 0xf1357aea2e62a9c5.
Definition add (hash w : Z) : Z := wrapping_mul (wrapping_add hash w) K.
(** [u64::from_le_bytes] *)
Definition from_le_bytes (bs : list Z) : Z := foldr (λ b n, b + 256 * n) 0 bs.
Fixpoint write_chunks (fuel : nat) (hash : Z) (bytes : list Z) : Z :=
  match fuel with
  | O => hash
  | S fuel =>
      if decide (8 ≤ length bytes)%nat
      then write_chunks fuel (add hash (from_le_bytes (take 8 bytes))) (drop 8 bytes)
      else match bytes with
           | [] => hash
           | rest => add hash (Z.lxor (from_le_bytes rest) (Z.shiftl (Z.of_nat (length rest)) 56))
           end
  end.
Definition write (hash : Z) (bytes : list Z) : Z := write_chunks (S (length bytes)) hash bytes.
(** [write_u8], [write_u32], [write_u64], [write_usize]: one word. *)
Definition write_word (hash i : Z) : Z := add hash i.
(** [write_i32]: through [u32]. *)
Definition write_i32 (hash i : Z) : Z := add hash (wrap 32 i).
(** [rotate_left(26)] *)
Definition finish (hash : Z) : Z := wrap 64 (Z.shiftl hash 26) + Z.shiftr hash 38.
End FastHasher.

(** ** Bijections of [u64] *)
Lemma xor_u64 a b : u64 a → u64 b → u64 (Z.lxor a b).
Proof.
  intros [Ha Ha'] [Hb Hb']. split; [rewrite Z.lxor_nonneg; lia|].
  destruct (decide (Z.lxor a b = 0)) as [->|Hne]; [lia|].
  assert (0 < Z.lxor a b) by (pose proof (proj2 (Z.lxor_nonneg a b)); lia).
  apply Z.log2_lt_pow2; [done|].
  pose proof (Z.log2_lxor a b Ha Hb).
  assert (∀ x, 0 ≤ x < 2 ^ 64 → Z.log2 x < 64) as Hl.
  { intros x Hx. destruct (decide (x = 0)) as [->|]; [done|]. apply Z.log2_lt_pow2; lia. }
  pose proof (Hl a ltac:(lia)). pose proof (Hl b ltac:(lia)). lia.
Qed.
Lemma shiftr_u64 k z : 0 ≤ k → u64 z → u64 (Z.shiftr z k).
Proof.
  intros Hk [H1 H2]. rewrite Z.shiftr_div_pow2 by done.
  split; [apply Z.div_pos; lia|]. apply Z.div_lt_upper_bound; [lia|].
  assert (1 ≤ 2 ^ k) by (pose proof (Z.pow_pos_nonneg 2 k); lia). nia.
Qed.
Lemma xorshift_u64 k z : 0 ≤ k → u64 z → u64 (xorshift k z).
Proof. intros. by apply xor_u64; [|apply shiftr_u64]. Qed.
Lemma wrap_u64 z : u64 (wrap 64 z).
Proof. by apply wrap_range. Qed.

(** The inverse of [xorshift k] when [3 * k] is at least 64. *)
Definition unxorshift (k z : Z) : Z := Z.lxor (Z.lxor z (Z.shiftr z k)) (Z.shiftr z (k + k)).
Lemma shiftr_out k z : 64 ≤ k → u64 z → Z.shiftr z k = 0.
Proof.
  intros Hk [H1 H2]. rewrite Z.shiftr_div_pow2 by lia. apply Z.div_small. split; [done|].
  apply (Z.lt_le_trans _ (2 ^ 64)); [done|]. apply Z.pow_le_mono_r; lia.
Qed.
Lemma unxorshift_xorshift k z : 0 ≤ k → 64 ≤ k + k + k → u64 z → unxorshift k (xorshift k z) = z.
Proof.
  intros Hk H3 Hz. unfold unxorshift, xorshift.
  rewrite !Z.shiftr_lxor, !Z.shiftr_shiftr by lia.
  replace (k + (k + k)) with (k + k + k) by lia. rewrite (shiftr_out (k + k + k)) by done.
  apply Z.bits_inj'. intros n Hn. rewrite !Z.lxor_spec, Z.bits_0.
  destruct (Z.testbit z n), (Z.testbit (Z.shiftr z k) n), (Z.testbit (Z.shiftr z (k + k)) n); done.
Qed.
Lemma xorshift_unxorshift k z : 0 ≤ k → 64 ≤ k + k + k → u64 z → xorshift k (unxorshift k z) = z.
Proof.
  intros Hk H3 Hz. unfold unxorshift, xorshift.
  rewrite !Z.shiftr_lxor, !Z.shiftr_shiftr by lia.
  replace (k + k + k) with (k + (k + k)) in H3 by lia.
  rewrite <-?Z.add_assoc, (shiftr_out (k + (k + k))) by (done || lia).
  apply Z.bits_inj'. intros n Hn. rewrite !Z.lxor_spec, Z.bits_0.
  destruct (Z.testbit z n), (Z.testbit (Z.shiftr z k) n), (Z.testbit (Z.shiftr z (k + k)) n); done.
Qed.
Lemma unxorshift_u64 k z : 0 ≤ k → u64 z → u64 (unxorshift k z).
Proof. intros. apply xor_u64; [by apply xorshift_u64|apply shiftr_u64; [lia|done]]. Qed.

(** Multiplication by a number with an inverse modulo [2^64]. *)
Lemma mul_inverse c d z : (c * d) `mod` 2 ^ 64 = 1 → u64 z →
  wrapping_mul (wrapping_mul z c) d = z.
Proof.
  intros Hcd Hz. unfold wrapping_mul, wrap.
  rewrite Z.mul_mod_idemp_l by done. rewrite <-Z.mul_assoc, <-Z.mul_mod_idemp_r, Hcd by done.
  rewrite Z.mul_1_r. by apply Z.mod_small.
Qed.

Definition INV_1 : Z := 0x96de1b173f119089.
Definition INV_2 : Z := 0x319642b2d24d8ec3.
Definition INV_GAMMA : Z := 0xf1de83e19937733d.
Definition unfinalize (z : Z) : Z :=
  let z := wrapping_mul (unxorshift 31 z) INV_2 in
  let z := wrapping_mul (unxorshift 27 z) INV_1 in
  unxorshift 30 z.

Lemma inv_1 : (MIX_1 * INV_1) `mod` 2 ^ 64 = 1 ∧ (INV_1 * MIX_1) `mod` 2 ^ 64 = 1.
Proof. split; reflexivity. Qed.
Lemma inv_2 : (MIX_2 * INV_2) `mod` 2 ^ 64 = 1 ∧ (INV_2 * MIX_2) `mod` 2 ^ 64 = 1.
Proof. split; reflexivity. Qed.
Lemma inv_gamma : (GAMMA * INV_GAMMA) `mod` 2 ^ 64 = 1.
Proof. reflexivity. Qed.
Create HintDb rng.
#[local] Hint Resolve wrap_u64 xorshift_u64 unxorshift_u64 xor_u64 : rng.
#[local] Hint Extern 1 (u64 (wrapping_mul _ _)) => apply wrap_u64 : rng.
#[local] Hint Extern 1 (u64 (wrapping_add _ _)) => apply wrap_u64 : rng.
#[local] Hint Extern 3 (_ ≤ _) => lia : rng.

Lemma finalize_u64 z : u64 (finalize z).
Proof. unfold finalize. auto with rng. Qed.
Lemma unfinalize_u64 z : u64 (unfinalize z).
Proof. unfold unfinalize. auto with rng. Qed.
#[local] Hint Resolve finalize_u64 unfinalize_u64 : rng.

Lemma unfinalize_finalize z : u64 z → unfinalize (finalize z) = z.
Proof.
  intros Hz. unfold unfinalize, finalize.
  rewrite (unxorshift_xorshift 31) by auto with rng.
  rewrite (mul_inverse MIX_2 INV_2) by (apply inv_2 || auto with rng).
  rewrite (unxorshift_xorshift 27) by auto with rng.
  rewrite (mul_inverse MIX_1 INV_1) by (apply inv_1 || auto with rng).
  apply unxorshift_xorshift; auto with rng.
Qed.
Lemma finalize_unfinalize z : u64 z → finalize (unfinalize z) = z.
Proof.
  intros Hz. unfold unfinalize, finalize.
  rewrite (xorshift_unxorshift 30) by auto with rng.
  rewrite (mul_inverse INV_1 MIX_1) by (apply inv_1 || auto with rng).
  rewrite (xorshift_unxorshift 27) by auto with rng.
  rewrite (mul_inverse INV_2 MIX_2) by (apply inv_2 || auto with rng).
  apply xorshift_unxorshift; auto with rng.
Qed.
Lemma finalize_inj a b : u64 a → u64 b → finalize a = finalize b → a = b.
Proof. intros Ha Hb E. rewrite <-(unfinalize_finalize a), <-(unfinalize_finalize b), E; done. Qed.

Lemma wrapping_add_inj a b c : u64 a → u64 b → wrapping_add a c = wrapping_add b c → a = b.
Proof.
  unfold u64, wrapping_add, wrap. intros Ha Hb E. change (2 ^ 64) with 18446744073709551616 in *.
  Z.to_euclidean_division_equations. lia.
Qed.
Lemma mix64_u64 z : u64 (mix64 z).
Proof. apply finalize_u64. Qed.
#[local] Hint Resolve mix64_u64 : rng.
Lemma mix64_inj a b : u64 a → u64 b → mix64 a = mix64 b → a = b.
Proof.
  intros Ha Hb E. apply finalize_inj in E; [|auto with rng..].
  by eapply wrapping_add_inj.
Qed.
Lemma lxor_inj_r a b c : Z.lxor c a = Z.lxor c b → a = b.
Proof.
  intros E. apply (f_equal (Z.lxor c)) in E.
  by rewrite <-!Z.lxor_assoc, !Z.lxor_nilpotent, !Z.lxor_0_l in E.
Qed.

(** ** The period of a stream *)
(** The state after [n] draws, and the draw that follows. *)
Definition after (n : nat) (r : SimRng) : SimRng := Nat.iter n (snd ∘ next_u64) r.
Definition draw (n : nat) (r : SimRng) : Z := (next_u64 (after n r)).1.

Lemma after_state n r : u64 (state r) → state (after n r) = wrap 64 (state r + Z.of_nat n * GAMMA).
Proof.
  intros Hr. induction n as [|n IH]; [simpl; rewrite Z.add_0_r; by rewrite wrap_id|].
  change (state (after (S n) r)) with (wrapping_add (state (after n r)) GAMMA).
  rewrite IH. unfold wrapping_add, wrap. rewrite Z.add_mod_idemp_l by done.
  f_equal. lia.
Qed.
Lemma draw_eq n r : u64 (state r) → draw n r = finalize (wrap 64 (state r + Z.of_nat (S n) * GAMMA)).
Proof.
  intros Hr. unfold draw, next_u64. simpl fst. f_equal.
  change (wrapping_add (state (after n r)) GAMMA) with (state (after (S n) r)).
  by apply after_state.
Qed.
Lemma gamma_step a m n : 0 ≤ m < 2 ^ 64 → 0 ≤ n < 2 ^ 64 →
  wrap 64 (a + m * GAMMA) = wrap 64 (a + n * GAMMA) → m = n.
Proof.
  intros Hm Hn E. unfold wrap in E.
  assert (((m - n) * GAMMA) `mod` 2 ^ 64 = 0) as E1.
  { replace ((m - n) * GAMMA) with ((a + m * GAMMA) - (a + n * GAMMA)) by lia.
    by rewrite Zminus_mod, E, Z.sub_diag. }
  assert ((m - n) `mod` 2 ^ 64 = 0) as E2.
  { replace (m - n) with ((m - n) * 1) by lia. rewrite <-inv_gamma, Z.mul_mod_idemp_r by done.
    by rewrite Z.mul_assoc, <-Z.mul_mod_idemp_l, E1 by done. }
  apply Z.mod_divide in E2 as [q Hq]; [|done]. nia.
Qed.

(** C33: A stream is a permutation of the 64-bit numbers: whatever state it starts
    from, every value is the result of exactly one of the first [2^64] draws. *)
Theorem stream_full_period r v : u64 (state r) → u64 v →
  ∃ n : nat, Z.of_nat n < 2 ^ 64 ∧ draw n r = v ∧
    ∀ m : nat, Z.of_nat m < 2 ^ 64 → draw m r = v → m = n.
Proof.
  intros Hr Hv.
  set (z := wrap 64 ((unfinalize v - state r - GAMMA) * INV_GAMMA)).
  assert (0 ≤ z < 2 ^ 64) as Hz by apply wrap_u64.
  assert (draw (Z.to_nat z) r = v) as Hd.
  { rewrite draw_eq, Nat2Z.inj_succ, Z2Nat.id by (done || lia).
    transitivity (finalize (unfinalize v)); [f_equal|by apply finalize_unfinalize].
    assert ((z * GAMMA) `mod` 2 ^ 64 = (unfinalize v - state r - GAMMA) `mod` 2 ^ 64) as E.
    { unfold z, wrap. rewrite Z.mul_mod_idemp_l, <-Z.mul_assoc by done.
      by rewrite (Z.mul_comm INV_GAMMA), <-Z.mul_mod_idemp_r, inv_gamma, Z.mul_1_r by done. }
    rewrite <-(wrap_id 64 (unfinalize v)) by apply unfinalize_u64. unfold wrap.
    rewrite Z.mul_succ_l. replace (state r + _) with (z * GAMMA + (state r + GAMMA)) by lia.
    rewrite <-Z.add_mod_idemp_l, E, Z.add_mod_idemp_l by done. f_equal. lia. }
  exists (Z.to_nat z). split; [lia|]. split; [done|]. intros m Hm E.
  rewrite <-Hd, !draw_eq in E by done. apply finalize_inj in E; [|apply wrap_u64..].
  rewrite !Nat2Z.inj_succ, !Z.mul_succ_l, !Z.add_assoc in E.
  rewrite <-!(Z.add_comm GAMMA), !Z.add_assoc in E.
  apply gamma_step in E; lia.
Qed.

(** ** Streams of one run *)
#[local] Opaque mix64 finalize.
Lemma for_seed_inj s t1 t2 : u64 s → u64 t1 → u64 t2 → for_seed s t1 = for_seed s t2 → t1 = t2.
Proof.
  intros Hs H1 H2 E. apply (f_equal state) in E.
  apply mix64_inj in E; [|apply xor_u64; [done|apply mix64_u64]..].
  apply lxor_inj_r in E. apply mix64_inj in E; done.
Qed.
Lemma tag_pair_inj a m n : u64 m → u64 n → tag [a; m] = tag [a; n] → m = n.
Proof.
  intros Hm Hn E. unfold tag in E. cbn [foldl] in E.
  apply mix64_inj in E; [|apply xor_u64; apply mix64_u64..].
  apply lxor_inj_r in E. apply mix64_inj in E; done.
Qed.
Lemma tag_u64 p l : u64 (tag (l ++ [p])).
Proof. unfold tag. rewrite foldl_snoc. apply mix64_u64. Qed.

(** The [i]-th stream that a run hands out, when all are asked for with one name. *)
Definition nth_stream (name : list Z) (i : nat) (run : RunRng) : SimRng :=
  (next_stream name (Nat.iter i (snd ∘ next_stream name) run)).1.

Lemma iter_next_stream name i run :
  u64 (counter run) →
  let run' := Nat.iter i (snd ∘ next_stream name) run in
  seed run' = seed run ∧ counter run' = wrap 64 (counter run + Z.of_nat i).
Proof.
  intros Hc. induction i as [|i [IH1 IH2]]; simpl.
  - split; [done|]. by rewrite Z.add_0_r, wrap_id.
  - split; [done|]. simpl. rewrite IH2. unfold wrapping_add, wrap.
    rewrite Z.add_mod_idemp_l by done. f_equal. lia.
Qed.

(** The streams that a run hands out at construction time are different: no two
    of the first [2^64] start in the same state. *)
Theorem next_streams_distinct name run i j :
  u64 (seed run) → u64 (counter run) → Z.of_nat i < 2 ^ 64 → Z.of_nat j < 2 ^ 64 →
  nth_stream name i run = nth_stream name j run → i = j.
Proof.
  intros Hs Hc Hi Hj E. unfold nth_stream in E.
  destruct (iter_next_stream name i run Hc) as [Si Ci].
  destruct (iter_next_stream name j run Hc) as [Sj Cj].
  unfold next_stream at 1 3, stream in E. cbn [fst] in E. rewrite Si, Sj, Ci, Cj in E.
  apply for_seed_inj in E; [|done|apply (tag_u64 _ [_])..].
  apply tag_pair_inj in E; [|apply wrap_u64..].
  rewrite !(Z.add_comm (counter run)) in E.
  unfold wrap, u64 in *. change (2 ^ 64) with 18446744073709551616 in *.
  Z.to_euclidean_division_equations. lia.
Qed.

(** A one-time draw is made once: the second request for a key gives the first
    value, whatever it would have drawn. *)
Lemma once_is_stable key d1 d2 run :
  let '(v, run') := once key d1 run in once key d2 run' = (v, run').
Proof.
  unfold once. destruct (once_map run !! key) eqn:E; [by rewrite E|].
  simpl. by rewrite lookup_insert_eq.
Qed.

(** ** Concrete draws *)
Lemma stream_full_period_witness :
  u64 (state (new 0)) ∧
  ∃ n : nat, Z.of_nat n < 2 ^ 64 ∧ draw n (new 0) = 12345 ∧
    ∀ m : nat, Z.of_nat m < 2 ^ 64 → draw m (new 0) = 12345 → m = n.
Proof.
  split; [apply mix64_u64|].
  apply (stream_full_period (new 0) 12345); [apply mix64_u64|split; [lia|reflexivity]].
Defined.
Lemma next_streams_distinct_witness :
  nth_stream [97; 112] 3 (set_global_seed DEFAULT_SEED) ≠ nth_stream [97; 112] 4 (set_global_seed DEFAULT_SEED).
Proof.
  intros E. apply (next_streams_distinct [97; 112] (set_global_seed DEFAULT_SEED)) in E;
    [done|split; [done|reflexivity]|split; [done|reflexivity]|reflexivity|reflexivity].
Defined.
(** The published test vector of SplitMix64 with seed 0. *)
Example splitmix_vector : draw 0 (mkRng 0) = 0xE220A8397B1DCDAF ∧ draw 1 (mkRng 0) = 0x6E789E6AA1B965F4.
Proof. split; vm_compute; reflexivity. Qed.
End Rng.
