(* ===== verification/Airtime.v ===== *)
(** * Double precision and the airtime of an A-MPDU

    Module [F64]: [f64] arithmetic as the IEEE 754 operations of [SpecFloat] at
    precision 53, with the conversions that the program uses.  Module [Phy]:
    [padded_mpdu_bits], [collision_delay], [path_loss] and [airtime_ampdu] of
    [examples/lib/mod.rs].  [f64::log10] is a parameter, since the standard library
    leaves its precision open; the number of spatial streams and the preamble
    duration are the process's configuration ([XRSIM_SU_NSS], [XRSIM_EHT_PHY_US]). *)

From Stdlib Require Import SpecFloat.
From S2P Require Import Prelude F32.

Definition f64 := spec_float.

Module F64.
Definition add : f64 → f64 → f64 := SFadd 53 1024.
Definition sub : f64 → f64 → f64 := SFsub 53 1024.
Definition mul : f64 → f64 → f64 := SFmul 53 1024.
Definition div : f64 → f64 → f64 := SFdiv 53 1024.
Definition sqrt : f64 → f64 := SFsqrt 53 1024.
Definition zero : f64 := S754_zero false.
Definition infinity : f64 := S754_infinity false.
(** [a < b], [a <= b], [a == b]: false when an operand is NaN. *)
Definition lt : f64 → f64 → bool := SFltb.
Definition le : f64 → f64 → bool := SFleb.
Definition eqb : f64 → f64 → bool := SFeqb.

(** [z as f64] *)
Definition of_Z (z : Z) : f64 := binary_normalize 53 1024 z 0 false.
(** The literal [n / d]: the nearest float when [n] and [d] are floats themselves
    (below [2^53], or powers of ten up to [10^22]). *)
Definition lit (n d : Z) : f64 := div (of_Z n) (of_Z d).

Definition ceil (x : f64) : f64 :=
  match x with
  | S754_finite s m e =>
      if 0 <=? e then x
      else let c := - ((- cond_Zopp s (Z.pos m)) / 2 ^ (- e)) in
           if c =? 0 then S754_zero s else of_Z c
  | _ => x
  end.

(** [x as f32], [x as f64] *)
Definition to_f32 (x : f64) : f32 :=
  match x with
  | S754_finite s m e => binary_normalize F32.prec F32.emax (cond_Zopp s (Z.pos m)) e s
  | _ => x
  end.
Definition of_f32 : f32 → f64 := F32.to_f64.

(** [Duration::as_secs_f64] and [Duration::from_secs_f64]; durations are in
    nanoseconds.  The second rounds and panics as [from_secs_f32] does. *)
Definition of_nanos (n : Z) : f64 :=
  add (of_Z (n / 10 ^ 9)) (div (of_Z (n `mod` 10 ^ 9)) (of_Z (10 ^ 9))).
Definition to_nanos : f64 → outcome Z := F32.to_nanos.

Lemma to_nanos_nonneg x n : to_nanos x = Ret n → 0 ≤ n.
Proof.
  unfold to_nanos, F32.to_nanos. destruct x as [| | |[] m e]; try done; [naive_solver|].
  case_match; [done|]. intros [= <-]. destruct (0 <=? e); [lia|].
  unfold F32.round_half_even.
  assert (0 ≤ (Z.pos m * 10 ^ 9) / 2 ^ (- e)).
  { apply Z_div_nonneg_nonneg; [lia|]. apply Z.pow_nonneg. lia. }
  repeat case_match; lia.
Qed.
End F64.

Module Phy.
Import F64.
Record Coords := mkCoords { x : f64; y : f64; z : f64 }.

Class PhyEnv := {
  log10 : f64 → f64;
  su_spatial_streams : f64;
  eht_phy_duration : f64
}.

Definition LEGACY_PHY_DURATION : f64 := lit 20 (10 ^ 6).
Definition EHT_PHY_DURATION : f64 := lit 76 (10 ^ 6).
Definition PE_DURATION : f64 := zero.
Definition SIFS : f64 := lit 16 (10 ^ 6).
Definition SYMBOL_TIME_LEGACY : f64 := lit 4 (10 ^ 6).
Definition SYMBOL_TIME_11AX : f64 := lit 16 (10 ^ 6).
Definition DEFAULT_TMAX_AGG : f64 := lit 5484 (10 ^ 6).
Definition NET_STACK_OVERHEAD_BITS : f64 := of_Z 288.
Definition MAC_H_SIZE_BITS : f64 := of_Z 288.

Definition calculate_distance (x y z x_ y_ z_ : f64) : f64 :=
  let dx := sub x_ x in
  let dy := sub y_ y in
  let dz := sub z_ z in
  sqrt (add (add (mul dx dx) (mul dy dy)) (mul dz dz)).

Definition path_loss `{PhyEnv} (d : f64) : f64 :=
  let gamma := lit 206067 (10 ^ 5) in
  add (add (lit 5412 100) (mul (mul (of_Z 10) gamma) (log10 d)))
      (mul (mul (lit 525 100) (lit 1467 (10 ^ 4))) d).

(** [1.0 / 2.0 * 4.0 * 48.0] bits per symbol, and the duration of a control frame
    of [bits] bits at that rate. *)
Definition OBasicRate : f64 := mul (mul (div (of_Z 1) (of_Z 2)) (of_Z 4)) (of_Z 48).
Definition control_frame (bits : f64) : f64 :=
  add LEGACY_PHY_DURATION
    (mul (ceil (div (add (add (of_Z 16) bits) (of_Z 18)) OBasicRate)) SYMBOL_TIME_LEGACY).
Definition collision_delay : f32 :=
  to_f32 (add (add (control_frame (of_Z 160)) SIFS) (control_frame (of_Z 112))).

Definition padded_mpdu_bits (app_payload_bits : f64) : f64 :=
  let mpdu_length_bits := add (add app_payload_bits NET_STACK_OVERHEAD_BITS) MAC_H_SIZE_BITS in
  mul (ceil (div mpdu_length_bits (of_Z 32))) (of_Z 32).

Definition tx_power (channel_width : Z) : f64 :=
  if channel_width =? 160 then of_Z 23
  else if channel_width =? 320 then lit 3005 100
  else of_Z 20.
Definition noise_adjustment_db (channel_width : Z) : f64 :=
  if channel_width =? 40 then lit 301 100
  else if channel_width =? 80 then lit 602 100
  else if channel_width =? 160 then lit 903 100
  else if channel_width =? 320 then lit 1204 100
  else zero.
Definition subcarriers (channel_width : Z) : Z :=
  if channel_width =? 320 then 3920
  else if channel_width =? 160 then 1960
  else if channel_width =? 80 then 980
  else if channel_width =? 40 then 468
  else if channel_width =? 20 then 234
  else 0.

(** Bits per symbol, coding rate and MCS index of the bands of received power:
    the lower end of each band above the first, and its entry. *)
Definition rate (a b : Z) : f64 := div (of_Z a) (of_Z b).
Definition mcs_bands : list (Z * (Z * f64 * Z)) :=
  [(-82, (1, rate 1 2, 0)); (-79, (2, rate 1 2, 1)); (-77, (2, rate 3 4, 2)); (-74, (4, rate 1 2, 3));
   (-70, (4, rate 3 4, 4)); (-66, (6, rate 1 2, 5)); (-65, (6, rate 2 3, 6)); (-64, (6, rate 3 4, 7));
   (-59, (8, rate 3 4, 8)); (-57, (8, rate 5 6, 9)); (-55, (10, rate 3 4, 10)); (-53, (10, rate 5 6, 11));
   (-49, (12, rate 3 4, 12)); (-46, (12, rate 5 6, 13))].
(** The arms [Pr >= low && Pr < high], in their order; the last band has no upper
    end, and the catch-all arm is for a [Pr] that is not a number. *)
Fixpoint mcs_arm (Pr : f64) (l : list (Z * (Z * f64 * Z))) : Z * f64 * Z :=
  match l with
  | [] => (1, rate 1 2, 1)
  | (low, e) :: l =>
      match l with
      | [] => if le (of_Z low) Pr then e else (1, rate 1 2, 1)
      | (high, _) :: _ => if le (of_Z low) Pr && lt Pr (of_Z high) then e else mcs_arm Pr l
      end
  end.
Definition mcs_of_power (Pr : f64) : Z * f64 * Z :=
  if lt Pr (of_Z (-82)) then (1, rate 1 2, 0) else mcs_arm Pr mcs_bands.

Definition received_power `{PhyEnv} (src dest : Coords) (channel_width : Z) : f64 :=
  let distance := calculate_distance (x src) (y src) (z src) (x dest) (y dest) (z dest) in
  sub (sub (tx_power channel_width) (path_loss distance)) (noise_adjustment_db channel_width).

(** The airtime in seconds and the MCS index. *)
Definition airtime_ampdu `{PhyEnv} (padded_payload_bits_sum : f64) (n_mpdus : Z) (coords_src coords_dest : Coords)
    (channel_width : Z) : f64 * Z :=
  let Pr := received_power coords_src coords_dest channel_width in
  let '(bits_symbol, coding_rate, mcs_val) := mcs_of_power Pr in
  let ORate := mul (mul (mul su_spatial_streams (of_Z bits_symbol)) coding_rate) (of_Z (subcarriers channel_width)) in
  let T_RTS := control_frame (of_Z 160) in
  let T_CTS := control_frame (of_Z 112) in
  let data_bits := add (add (add (of_Z 16) (mul (of_Z n_mpdus) (of_Z 32))) padded_payload_bits_sum) (of_Z 18) in
  let T_DATA := add (add eht_phy_duration (mul (ceil (div data_bits ORate)) SYMBOL_TIME_11AX)) PE_DURATION in
  let ba_bitmap_bytes := if n_mpdus <=? 64 then of_Z 8 else of_Z 32 in
  let T_ACK := control_frame (mul (add (of_Z 24) ba_bitmap_bytes) (of_Z 8)) in
  (add (add (add (add (add (add T_RTS SIFS) T_CTS) SIFS) T_DATA) SIFS) T_ACK, mcs_val).

(** A collision occupies the medium for the two control frames and a SIFS: 76 us. *)
Example collision_delay_nanos : F32.to_nanos collision_delay = Ret 76000.
Proof. vm_compute. reflexivity. Qed.
Example padded_mpdu_bits_example :
  padded_mpdu_bits (of_Z 8000) = of_Z 8576 ∧ padded_mpdu_bits (of_Z 8001) = of_Z 8608.
Proof. split; vm_compute; reflexivity. Qed.
End Phy.
