(* ===== verification/Edca.v ===== *)
(** * Channel access: EDCA functions and the medium

    The contention state of the access point's MAC in
    [examples/lib/models_mm1k.rs]: the parameter table of the access categories,
    [DcfStats] (contention window, back-off counter, retries), [Medium] (carrier
    sense of one link), the 9 us slot tick [tick_backoff] and the resolution of
    virtual collisions.  The functions take the fields of [QueueModule] that they
    use and return those they change; AccessPoint.v composes them.

    Visualisation ([viz_bo], the [VizEvent]s) and debug output are left out: they
    are off unless [XRSIM_VIZ] is set, and the MAC does not read them. *)

From Stdlib Require Import SpecFloat.
From S2P Require Import Prelude Scheduler F32 SimRng.

Module Edca.
Import Rng.

(** [HashMap] iteration order: any order of the entries, a function of the map. *)
Class HashOrder := {
  hm_iter : ∀ (K : Type) (EqK : EqDecision K) (CK : Countable K) (A : Type), gmap K A → list (K * A);
  hm_iter_perm : ∀ K EqK CK A (m : gmap K A), hm_iter K EqK CK A m ≡ₚ map_to_list m
}.
Arguments hm_iter {_ K EqK CK A} m.

(** The constant [TaiTime::EPOCH] of the [tai_time] crate. *)
Class Epoch (T : Type) := EPOCH : T.

(** The draws of the [rand] crate: [gen_range(0..=hi)], [gen::<f64>()], [gen_bool(0.5)]. *)
Class Rand := {
  gen_range : SimRng → Z → Z * SimRng;
  gen_range_bound : ∀ r hi, 0 ≤ hi → 0 ≤ (gen_range r hi).1 ≤ hi;
  gen_f64 : SimRng → spec_float * SimRng;
  gen_bool_half : SimRng → bool * SimRng
}.

(** ** Access categories *)
Inductive EdcaAc := Voice | Video | BestEffort | Background.
#[export] Instance EdcaAc_eq_dec : EqDecision EdcaAc.
Proof. solve_decision. Defined.
Definition ac_prio (ac : EdcaAc) : Z :=
  match ac with Voice => 0 | Video => 1 | BestEffort => 2 | Background => 3 end.
Definition ac_idx (ac : EdcaAc) : nat :=
  match ac with Voice => 0 | Video => 1 | BestEffort => 2 | Background => 3 end.
Definition ac_of_idx (n : nat) : EdcaAc :=
  match n with O => Voice | S O => Video | S (S O) => BestEffort | _ => Background end.
#[export] Instance EdcaAc_countable : Countable EdcaAc.
Proof. by refine (inj_countable' ac_idx ac_of_idx _); intros []. Defined.
Definition all_acs : list EdcaAc := [Voice; Video; BestEffort; Background].

(** [(sta, access category, link)]; station -1 is the access point. *)
Definition MacKey : Type := Z * EdcaAc * Z.
Definition WindowKey : Type := Z * Z.
Definition key_sta (k : MacKey) : Z := k.1.1.
Definition key_ac (k : MacKey) : EdcaAc := k.1.2.
Definition key_link (k : MacKey) : Z := k.2.

Record EdcaParam := mkParam { cw_min : Z; cw_max : Z; aifsn : Z; txop_limit_us : Z }.
Definition SIFS_US : Z := 16.
Definition SLOT_TIME_US : Z := 9.
(** Durations are in nanoseconds. *)
Definition aifs (p : EdcaParam) : Z := (SIFS_US + aifsn p * SLOT_TIME_US) * 1000.
Definition EDCA_TABLE (ac : EdcaAc) : EdcaParam :=
  match ac with
  | Voice => mkParam 3 7 2 1504
  | Video => mkParam 7 15 2 3008
  | BestEffort => mkParam 15 1023 3 0
  | Background => mkParam 15 1023 7 0
  end.
Definition MAX_RETRIES_MAC : Z := 10.

Section edca.
Context {T : Type} `{TaiTime T} `{!Epoch T} `{!Rand}.

(** ** The contention state of one EDCA function *)
Record DcfStats := mkDcf {
  mac_key : MacKey;
  cw : Z;
  backoff_counter : Z;
  retry_count : Z;
  param : EdcaParam;
  medium_free_since : T;
  backoff_frozen : bool;
  rng : SimRng;
  last_backoff_drawn_logs : Z
}.
Implicit Types st : DcfStats.

(** ["edcaf"] *)
Definition edcaf_bytes : list Z := [101; 100; 99; 97; 102].
Definition edcaf_tag (k : MacKey) : Z :=
  tag [tag_str edcaf_bytes; wrap 64 (key_sta k); ac_prio (key_ac k); key_link k].
Definition dcf_new (run : RunRng) (ac : EdcaAc) (k : MacKey) : DcfStats :=
  let p := EDCA_TABLE ac in
  let '(drawn, r) := gen_range (stream run (edcaf_tag k)) (cw_min p) in
  mkDcf k (cw_min p) drawn 0 p EPOCH false r drawn.

Definition reload_backoff st : DcfStats :=
  let '(drawn, r) := gen_range (rng st) (cw st) in
  mkDcf (mac_key st) (cw st) drawn (retry_count st) (param st) (medium_free_since st)
    (backoff_frozen st) r drawn.
Definition set_window (c retries : Z) st : DcfStats :=
  mkDcf (mac_key st) c (backoff_counter st) retries (param st) (medium_free_since st)
    (backoff_frozen st) (rng st) (last_backoff_drawn_logs st).
Definition on_success (cw_min : Z) st : DcfStats := reload_backoff (set_window cw_min 0 st).

(** [u8] and [u32] arithmetic that overflows is a panic. *)
Definition U8_MAX : Z := 255.
Definition add_checked (max a b : Z) : outcome Z := if a + b <=? max then Ret (a + b) else Panic.
Definition mul_checked (max a b : Z) : outcome Z := if a * b <=? max then Ret (a * b) else Panic.
Definition on_failure st : outcome (bool * DcfStats) :=
  retries ← add_checked U8_MAX (retry_count st) 1;
  if MAX_RETRIES_MAC <? retries then
    Ret (false, reload_backoff (set_window (cw_min (param st)) 0 st))
  else
    c1 ← add_checked U32_MAX (cw st) 1;
    c2 ← mul_checked U32_MAX c1 2;
    let c := c2 - 1 in
    let c := if cw_max (param st) <? c then cw_max (param st) else c in
    Ret (true, reload_backoff (set_window c retries st)).

(** ** The medium of one link *)
Record Medium := mkMedium {
  busy_until : T;
  nav_until : T;
  tx_owner : option MacKey;
  last_txop_owner : option MacKey;
  last_txop_end : T;
  max_busy_reached : T;
  accumulated_busy_s : f32
}.
Implicit Types m : Medium.
Definition medium_default : Medium := mkMedium EPOCH EPOCH None None EPOCH EPOCH F32.zero.

Definition is_idle m (now : T) : bool := time_le (busy_until m) now && time_le (nav_until m) now.

(** [t.duration_since(TaiTime::EPOCH).as_secs_f32()] *)
Definition secs_f32 (t : T) : outcome f32 :=
  if time_le EPOCH t then Ret (F32.of_nanos (nanos t - nanos EPOCH)) else Panic.
Definition integrate_busy_time (now until : T) m : outcome Medium :=
  let start := if time_lt (max_busy_reached m) now then now else max_busy_reached m in
  if time_lt start until then
    u ← secs_f32 until;
    s ← secs_f32 start;
    Ret (mkMedium (busy_until m) (nav_until m) (tx_owner m) (last_txop_owner m) (last_txop_end m)
           until (F32.add (accumulated_busy_s m) (F32.sub u s)))
  else Ret m.
Definition start_txop (now t : T) (owner : MacKey) m : outcome Medium :=
  m ← integrate_busy_time now t m;
  Ret (mkMedium t (nav_until m) (Some owner) (last_txop_owner m) (last_txop_end m)
         (max_busy_reached m) (accumulated_busy_s m)).
Definition occupy_collision (now until : T) m : outcome Medium :=
  m ← integrate_busy_time now until m;
  Ret (mkMedium until (nav_until m) None (last_txop_owner m) (last_txop_end m)
         (max_busy_reached m) (accumulated_busy_s m)).
Definition set_nav_until (now t : T) m : outcome Medium :=
  m ← integrate_busy_time now t m;
  Ret (mkMedium (busy_until m) t (tx_owner m) (last_txop_owner m) (last_txop_end m)
         (max_busy_reached m) (accumulated_busy_s m)).
Definition release_txop (now : T) m : Medium :=
  match tx_owner m with
  | Some owner => mkMedium (busy_until m) (nav_until m) None (Some owner) now
                    (max_busy_reached m) (accumulated_busy_s m)
  | None => m
  end.
Definition clear_owner m : Medium :=
  mkMedium (busy_until m) (nav_until m) None (last_txop_owner m) (last_txop_end m)
    (max_busy_reached m) (accumulated_busy_s m).
Definition clear_if_idle (now : T) m : Medium := if is_idle m now then clear_owner m else m.

(** ** The slot tick *)
Definition set_backoff (counter : Z) (frozen : bool) st : DcfStats :=
  mkDcf (mac_key st) (cw st) counter (retry_count st) (param st) (medium_free_since st)
    frozen (rng st) (last_backoff_drawn_logs st).
(** One EDCA function with packets, on a slot that is idle or not; the flag says
    that it contends. *)
Definition tick_one (now : T) (idle_slot : bool) st : outcome (DcfStats * bool) :=
  aifs_until ← time_add (medium_free_since st) (aifs (param st));
  let aifs_satisfied := idle_slot && time_le aifs_until now in
  let frozen := if aifs_satisfied then false else backoff_frozen st in
  let counter := if idle_slot && negb frozen && (0 <? backoff_counter st)
                 then backoff_counter st - 1 else backoff_counter st in
  Ret (set_backoff counter frozen st, (counter =? 0) && negb frozen).

Definition push_ready (k : MacKey) (ready : gmap Z (list MacKey)) : gmap Z (list MacKey) :=
  <[key_link k := default [] (ready !! key_link k) ++ [k]]> ready.

Definition push_if (contends : bool) (k : MacKey) (ready : gmap Z (list MacKey)) : gmap Z (list MacKey) :=
  if contends then push_ready k ready else ready.

Fixpoint tick_loop (now : T) (mediums : gmap Z Medium) (active : gmap (Z * EdcaAc) Z)
    (sts : list DcfStats) (ready : gmap Z (list MacKey))
    : outcome (list DcfStats * gmap Z (list MacKey)) :=
  match sts with
  | [] => Ret ([], ready)
  | st :: sts =>
      let k := mac_key st in
      if default 0 (active !! (key_sta k, key_ac k)) =? 0 then
        '(sts, ready) ← tick_loop now mediums active sts ready;
        Ret (st :: sts, ready)
      else
        m ← unwrap (mediums !! key_link k);
        '(st, contends) ← tick_one now (is_idle m now) st;
        '(sts, ready) ← tick_loop now mediums active sts (push_if contends k ready);
        Ret (st :: sts, ready)
  end.
(** [tick_backoff]: the media with stale owners cleared, the new contention
    states, and the contenders of every link. *)
Definition tick_backoff (now : T) (mediums : gmap Z Medium) (active : gmap (Z * EdcaAc) Z)
    (dcf_values : list DcfStats)
    : outcome (gmap Z Medium * list DcfStats * gmap Z (list MacKey)) :=
  let mediums := clear_if_idle now <$> mediums in
  '(dcf_values, ready) ← tick_loop now mediums active dcf_values ∅;
  Ret (mediums, dcf_values, ready).

(** ** Virtual collisions *)
(** [ready.sort_by_key(|k| ac_prio(k.1))], a stable sort. *)
Fixpoint insert_prio (k : MacKey) (l : list MacKey) : list MacKey :=
  match l with
  | [] => [k]
  | k' :: l' => if ac_prio (key_ac k) <=? ac_prio (key_ac k') then k :: l else k' :: insert_prio k l'
  end.
Definition sort_prio (l : list MacKey) : list MacKey := foldr insert_prio [] l.

(** [f(self.dcf_mut(&key))] *)
Definition dcf_mut (index : gmap MacKey nat) (k : MacKey) (f : DcfStats → outcome DcfStats)
    (dcf_values : list DcfStats) : outcome (list DcfStats) :=
  idx ← unwrap (index !! k);
  st ← unwrap (dcf_values !! idx);
  st ← f st;
  Ret (<[idx:=st]> dcf_values).
Definition dcf (index : gmap MacKey nat) (k : MacKey) (dcf_values : list DcfStats) : outcome DcfStats :=
  idx ← unwrap (index !! k);
  unwrap (dcf_values !! idx).
Definition fail_one (index : gmap MacKey nat) (k : MacKey) (dcf_values : list DcfStats)
    : outcome (list DcfStats) :=
  dcf_mut index k (λ st, snd <$> on_failure st) dcf_values.

Fixpoint virtual_loop (index : gmap MacKey nat) (ready : list MacKey) (winner : gmap Z MacKey)
    (dcf_values : list DcfStats) : outcome (gmap Z MacKey * list DcfStats) :=
  match ready with
  | [] => Ret (winner, dcf_values)
  | k :: ready =>
      match winner !! key_sta k with
      | None => virtual_loop index ready (<[key_sta k:=k]> winner) dcf_values
      | Some _ =>
          dcf_values ← fail_one index k dcf_values;
          virtual_loop index ready winner dcf_values
      end
  end.
Definition resolve_virtual_collision `{!HashOrder} (index : gmap MacKey nat) (ready : list MacKey)
    (dcf_values : list DcfStats) : outcome (list MacKey * list DcfStats) :=
  '(winner, dcf_values) ← virtual_loop index (sort_prio ready) ∅ dcf_values;
  Ret (snd <$> hm_iter winner, dcf_values).
End edca.
Arguments DcfStats T : clear implicits.
Arguments Medium T : clear implicits.
End Edca.
