(* ===== verification/MacData.v ===== *)
(** * The state of the access point

    The data of [QueueModule] in [examples/lib/models_mm1k.rs], and of the packets
    in [examples/lib/mod.rs]: MPDUs and A-MPDUs, link configuration, the window and
    cumulative statistics, the rate cache, and the module's record with its setters.

    The payload of a packet ([data_inner], [header_alvr] and the fields of the
    emulated link) is the type [P]: the MAC carries it and does not read it.
    Counters of packets are unbounded.  The calls that a handler makes on the
    scheduler and on its ports are recorded in [scheduled] and [outputs], in their
    order.  The logging writers ([csv_metrics_network], [parquet_metrics_network])
    are off in the source ([NETWORK_CSV_LOGGING]). *)

From Stdlib Require Import SpecFloat.
From S2P Require Import Prelude Scheduler F32 SimRng Airtime Edca.

Module MacData.
Import Rng Edca.
Export Phy.

(** [models_mm1k.rs]: which link a packet is assigned to. *)
Inductive LinkSelectionStrategy :=
  Opportunistic | PrimaryFirst | LoadBalanced | QualityBased | RoundRobin | LowestLatency
| LyapunovBackpressure.
Definition STR_PLUS_MODE_MLO : bool := true.
Definition UPLINK_QUEUE_SIZE : nat := 1024.
Definition DOWNLINK_QUEUE_SIZE : nat := N.to_nat (1024 * 8).

Record LinkConfig := mkLink { lc_link_id : Z; bandwidth_mhz : Z }.

(** ** Statistics *)
Record CumulativeStats := mkCum { values : list f64; cum_sum : f64; sum_of_squares : f64 }.
Definition cum_new : CumulativeStats := mkCum [] F64.zero F64.zero.
Definition cum_add (value : f64) (c : CumulativeStats) : CumulativeStats :=
  mkCum (values c ++ [value]) (F64.add (cum_sum c) value)
    (F64.add (sum_of_squares c) (F64.mul value value)).
Definition get_average (c : CumulativeStats) : f64 :=
  match values c with
  | [] => F64.zero
  | _ => F64.div (cum_sum c) (F64.of_Z (Z.of_nat (length (values c))))
  end.

Record QueueStats := mkQueueStats {
  waiting_time_cum : CumulativeStats;
  service_time_cum : CumulativeStats;
  qs_queue_length_counter : nat;
  num_packets_dropped : nat;
  num_packets_rx : nat
}.
Definition queue_stats_new : QueueStats := mkQueueStats cum_new cum_new 0 0 0.
Definition update_cumstats (ts tq : f64) (packet_drops packets_rx queue_length : nat) (s : QueueStats) : QueueStats :=
  mkQueueStats (cum_add tq (waiting_time_cum s)) (cum_add ts (service_time_cum s))
    (qs_queue_length_counter s + queue_length) packet_drops packets_rx.

(** Utilisation and rate of one station on one link, over a window. *)
Record WindowMetrics := mkWindow {
  wm_key : WindowKey;
  window_start : f64;
  window_duration : Z;
  total_busy_time : f64;
  sta_tx_time : f64;
  sta_collision_time : f64;
  mcs_sum : f64;
  wm_packet_count : nat
}.
Definition window_at (k : WindowKey) (start : f64) (duration : Z) : WindowMetrics :=
  mkWindow k start duration F64.zero F64.zero F64.zero F64.zero 0.
(** [MCS_REPORT_PERIOD_F32], as a duration. *)
Definition MCS_REPORT_PERIOD : Z := 100000001.
Definition window_new (k : WindowKey) : WindowMetrics := window_at k F64.zero MCS_REPORT_PERIOD.
Definition window_reset (now : f64) (w : WindowMetrics) : WindowMetrics :=
  window_at (wm_key w) now (window_duration w).
Definition update_metrics_mcs_util (mcs : option Z) (duration : f64) (success : bool) (w : WindowMetrics) : WindowMetrics :=
  if success then
    match mcs with
    | Some emecese =>
        mkWindow (wm_key w) (window_start w) (window_duration w) (F64.add (total_busy_time w) duration)
          (F64.add (sta_tx_time w) duration) (sta_collision_time w)
          (F64.add (mcs_sum w) (F64.of_Z emecese)) (wm_packet_count w + 1)
    | None => w
    end
  else
    mkWindow (wm_key w) (window_start w) (window_duration w) (F64.add (total_busy_time w) duration)
      (sta_tx_time w) (F64.add (sta_collision_time w) duration) (mcs_sum w) (wm_packet_count w).
(** Average MCS, total and own utilisation of the window, and the next window. *)
Definition compute_and_reset (now : f64) (w : WindowMetrics) : (WindowKey * f64 * f64 * f64) * WindowMetrics :=
  let duration := F64.sub now (window_start w) in
  if F64.le duration F64.zero then ((wm_key w, F64.zero, F64.zero, F64.zero), w)
  else
    let avg_mcs := if (0 <? wm_packet_count w)%nat
                   then F64.div (mcs_sum w) (F64.of_Z (Z.of_nat (wm_packet_count w))) else F64.zero in
    let sta_util := F64.div (F64.add (sta_tx_time w) (sta_collision_time w)) duration in
    let total_util := F64.div (total_busy_time w) duration in
    ((wm_key w, avg_mcs, total_util, sta_util), window_reset now w).

(** The cached rate of one flow. *)
Record StaRateInfo := mkRate {
  total_transmission_delay_single : f64;
  total_transmission_delay_fullampdu : f64;
  fullampdu_max_size : Z;
  packet_count : nat;
  weighted_rate_single : f64;
  weighted_rate_fullampdu : f64;
  per_packet_channel_access_efficiency : f64;
  expected_queue_delivery_ms : f64
}.
(** A new count, with the delivery time that follows from it. *)
Definition set_packet_count (n : nat) (i : StaRateInfo) : StaRateInfo :=
  mkRate (total_transmission_delay_single i) (total_transmission_delay_fullampdu i)
    (fullampdu_max_size i) n (weighted_rate_single i) (weighted_rate_fullampdu i)
    (per_packet_channel_access_efficiency i)
    (F64.mul (F64.mul (per_packet_channel_access_efficiency i) (F64.of_Z (Z.of_nat n))) (F64.of_Z 1000)).

Section data.
Context {T P : Type} `{TaiTime T} `{!Epoch T}.

(** ** Packets *)
Record MpduPacket := mkMpdu {
  packet_id : Z;
  length_packet_bits : Z;
  queue_in_instant : T;
  queue_out_instant : T;
  T_q : Z;
  T_s : Z;
  sta_src_id : Z;
  sta_dest_id : Z;
  sta_src_coords : Coords;
  queue_length_when_out : nat;
  payload : P;
  edca_ac : EdcaAc;
  mac_key_cached : option MacKey;
  assigned_link_id : option Z
}.
Implicit Types p : MpduPacket.

(** A packet is uplink when its source has the larger identifier. *)
Definition is_ul p : bool := sta_dest_id p <? sta_src_id p.
Definition assign_link (link_id : Z) p : outcome MpduPacket :=
  let assigned l := mkMpdu (packet_id p) (length_packet_bits p) (queue_in_instant p) (queue_out_instant p)
    (T_q p) (T_s p) (sta_src_id p) (sta_dest_id p) (sta_src_coords p) (queue_length_when_out p)
    (payload p) (edca_ac p) (mac_key_cached p) l in
  if STR_PLUS_MODE_MLO then Ret (assigned None)
  else match assigned_link_id p with None => Ret (assigned (Some link_id)) | Some _ => Panic end.
Definition set_cached (k : MacKey) p : MpduPacket :=
  mkMpdu (packet_id p) (length_packet_bits p) (queue_in_instant p) (queue_out_instant p)
    (T_q p) (T_s p) (sta_src_id p) (sta_dest_id p) (sta_src_coords p) (queue_length_when_out p)
    (payload p) (edca_ac p) (Some k) (assigned_link_id p).
Definition set_queue_in (now : T) p : MpduPacket :=
  mkMpdu (packet_id p) (length_packet_bits p) now (queue_out_instant p)
    (T_q p) (T_s p) (sta_src_id p) (sta_dest_id p) (sta_src_coords p) (queue_length_when_out p)
    (payload p) (edca_ac p) (mac_key_cached p) (assigned_link_id p).
(** The packet as it leaves the queue: backlog, instant and waiting time. *)
Definition set_queue_out (backlog : nat) (now : T) (waited : Z) p : MpduPacket :=
  mkMpdu (packet_id p) (length_packet_bits p) (queue_in_instant p) now
    waited (T_s p) (sta_src_id p) (sta_dest_id p) (sta_src_coords p) backlog
    (payload p) (edca_ac p) (mac_key_cached p) (assigned_link_id p).
Definition set_T_s (d : Z) p : MpduPacket :=
  mkMpdu (packet_id p) (length_packet_bits p) (queue_in_instant p) (queue_out_instant p)
    (T_q p) d (sta_src_id p) (sta_dest_id p) (sta_src_coords p) (queue_length_when_out p)
    (payload p) (edca_ac p) (mac_key_cached p) (assigned_link_id p).

Record AmpduPacket := mkAmpdu {
  mpdu_packets : list MpduPacket;
  total_length : Z;
  padded_bits_sum : f64;
  am_src_id : Z;
  am_dest_id : Z;
  size : Z;
  coordinates : Coords;
  am_mac_key : MacKey;
  link_id : Z;
  mcs_assigned : Z
}.
Implicit Types a : AmpduPacket.
Definition origin : Coords := mkCoords F64.zero F64.zero F64.zero.
Definition ampdu_new : AmpduPacket :=
  mkAmpdu [] 0 F64.zero (-1) (-1) 0 origin (0, BestEffort, 0) 0 0.
Definition ampdu_reset a : AmpduPacket :=
  mkAmpdu [] 0 F64.zero (am_src_id a) (-1) 0 origin (am_mac_key a) (link_id a) (mcs_assigned a).

(** What is sent to the statistics of the module for a packet or a collision;
    [up_header] is the packet it is about, [None] the default header. *)
Record StatsUpdate := mkUpdate {
  up_T_s : f64;
  up_T_q : f64;
  up_blocked : nat;
  up_arrived : nat;
  up_queue_length : nat;
  up_src : Z;
  up_dest : Z;
  up_packet_id : Z;
  up_now : T;
  up_length : Z;
  up_ac : EdcaAc;
  up_ampdu_id : Z;
  up_collision : bool;
  up_backoff : f64;
  up_link : Z;
  up_header : option P
}.

(** ** The module *)
(** The events that the module schedules for itself: [deque_schedule_service] and
    [send_ampdu]. *)
Inductive Event :=
| Service
| SendAmpdu (a : AmpduPacket).

(** The fields of [QueueModule] that no handler assigns. *)
Record Config := mkConfig {
  queue_maxsize_dl : nat;
  ul_capacity_queue_device : nat;
  coords_queue : Coords;
  PL_probability : f64;
  link_channel_widths : gmap Z Z;
  sta_capabilities : gmap Z (list Z);
  mac_key_index : gmap MacKey nat;
  link_outputs : gset Z;
  mlo_linkselection_strat : LinkSelectionStrategy;
  packs_per_ampdu : nat
}.

Record QueueModule := mkQueue {
  cfg : Config;
  ap_rng : SimRng;
  link_rng : SimRng;
  per_flow_queues : list (list MpduPacket);
  aux_ampdu_serviced : AmpduPacket;
  link_is_transmitting : gmap Z bool;
  blocked_packet_counter : nat;
  arrived_packet_counter : nat;
  queue_length_counter : nat;
  STA_coords_map : gmap Z Coords;
  sta_stats_cache : gmap (Z * Z) StaRateInfo;
  stats_channel : list StatsUpdate;
  cumulative_stats_queue : QueueStats;
  ampdu_id : Z;
  link_mediums : gmap Z (Medium T);
  link_queue_depths : gmap Z nat;
  dcf_values : list (DcfStats T);
  window_metrics_mcs_util : gmap WindowKey WindowMetrics;
  active_mac_key_counts : gmap (Z * EdcaAc) Z;
  slot_tick_pending : bool;
  scheduled : list (T * Event);
  outputs : list (Z * AmpduPacket)
}.
Implicit Types q : QueueModule.

(** Field updates. *)
Definition set_ap_rng (v : SimRng) q : QueueModule :=
  mkQueue (cfg q) v (link_rng q) (per_flow_queues q) (aux_ampdu_serviced q) (link_is_transmitting q)
    (blocked_packet_counter q) (arrived_packet_counter q) (queue_length_counter q) (STA_coords_map q)
    (sta_stats_cache q) (stats_channel q) (cumulative_stats_queue q) (ampdu_id q) (link_mediums q)
    (link_queue_depths q) (dcf_values q) (window_metrics_mcs_util q) (active_mac_key_counts q) (slot_tick_pending
    q) (scheduled q) (outputs q).
Definition set_link_rng (v : SimRng) q : QueueModule :=
  mkQueue (cfg q) (ap_rng q) v (per_flow_queues q) (aux_ampdu_serviced q) (link_is_transmitting q)
    (blocked_packet_counter q) (arrived_packet_counter q) (queue_length_counter q) (STA_coords_map q)
    (sta_stats_cache q) (stats_channel q) (cumulative_stats_queue q) (ampdu_id q) (link_mediums q)
    (link_queue_depths q) (dcf_values q) (window_metrics_mcs_util q) (active_mac_key_counts q) (slot_tick_pending
    q) (scheduled q) (outputs q).
Definition set_per_flow_queues (v : list (list MpduPacket)) q : QueueModule :=
  mkQueue (cfg q) (ap_rng q) (link_rng q) v (aux_ampdu_serviced q) (link_is_transmitting q)
    (blocked_packet_counter q) (arrived_packet_counter q) (queue_length_counter q) (STA_coords_map q)
    (sta_stats_cache q) (stats_channel q) (cumulative_stats_queue q) (ampdu_id q) (link_mediums q)
    (link_queue_depths q) (dcf_values q) (window_metrics_mcs_util q) (active_mac_key_counts q) (slot_tick_pending
    q) (scheduled q) (outputs q).
Definition set_aux_ampdu_serviced (v : AmpduPacket) q : QueueModule :=
  mkQueue (cfg q) (ap_rng q) (link_rng q) (per_flow_queues q) v (link_is_transmitting q) (blocked_packet_counter
    q) (arrived_packet_counter q) (queue_length_counter q) (STA_coords_map q) (sta_stats_cache q) (stats_channel
    q) (cumulative_stats_queue q) (ampdu_id q) (link_mediums q) (link_queue_depths q) (dcf_values q)
    (window_metrics_mcs_util q) (active_mac_key_counts q) (slot_tick_pending q) (scheduled q) (outputs q).
Definition set_link_is_transmitting (v : gmap Z bool) q : QueueModule :=
  mkQueue (cfg q) (ap_rng q) (link_rng q) (per_flow_queues q) (aux_ampdu_serviced q) v (blocked_packet_counter
    q) (arrived_packet_counter q) (queue_length_counter q) (STA_coords_map q) (sta_stats_cache q) (stats_channel
    q) (cumulative_stats_queue q) (ampdu_id q) (link_mediums q) (link_queue_depths q) (dcf_values q)
    (window_metrics_mcs_util q) (active_mac_key_counts q) (slot_tick_pending q) (scheduled q) (outputs q).
Definition set_blocked_packet_counter (v : nat) q : QueueModule :=
  mkQueue (cfg q) (ap_rng q) (link_rng q) (per_flow_queues q) (aux_ampdu_serviced q) (link_is_transmitting q) v
    (arrived_packet_counter q) (queue_length_counter q) (STA_coords_map q) (sta_stats_cache q) (stats_channel q)
    (cumulative_stats_queue q) (ampdu_id q) (link_mediums q) (link_queue_depths q) (dcf_values q)
    (window_metrics_mcs_util q) (active_mac_key_counts q) (slot_tick_pending q) (scheduled q) (outputs q).
Definition set_arrived_packet_counter (v : nat) q : QueueModule :=
  mkQueue (cfg q) (ap_rng q) (link_rng q) (per_flow_queues q) (aux_ampdu_serviced q) (link_is_transmitting q)
    (blocked_packet_counter q) v (queue_length_counter q) (STA_coords_map q) (sta_stats_cache q) (stats_channel q)
    (cumulative_stats_queue q) (ampdu_id q) (link_mediums q) (link_queue_depths q) (dcf_values q)
    (window_metrics_mcs_util q) (active_mac_key_counts q) (slot_tick_pending q) (scheduled q) (outputs q).
Definition set_queue_length_counter (v : nat) q : QueueModule :=
  mkQueue (cfg q) (ap_rng q) (link_rng q) (per_flow_queues q) (aux_ampdu_serviced q) (link_is_transmitting q)
    (blocked_packet_counter q) (arrived_packet_counter q) v (STA_coords_map q) (sta_stats_cache q) (stats_channel
    q) (cumulative_stats_queue q) (ampdu_id q) (link_mediums q) (link_queue_depths q) (dcf_values q)
    (window_metrics_mcs_util q) (active_mac_key_counts q) (slot_tick_pending q) (scheduled q) (outputs q).
Definition set_STA_coords_map (v : gmap Z Coords) q : QueueModule :=
  mkQueue (cfg q) (ap_rng q) (link_rng q) (per_flow_queues q) (aux_ampdu_serviced q) (link_is_transmitting q)
    (blocked_packet_counter q) (arrived_packet_counter q) (queue_length_counter q) v (sta_stats_cache q)
    (stats_channel q) (cumulative_stats_queue q) (ampdu_id q) (link_mediums q) (link_queue_depths q) (dcf_values
    q) (window_metrics_mcs_util q) (active_mac_key_counts q) (slot_tick_pending q) (scheduled q) (outputs q).
Definition set_sta_stats_cache (v : gmap (Z * Z) StaRateInfo) q : QueueModule :=
  mkQueue (cfg q) (ap_rng q) (link_rng q) (per_flow_queues q) (aux_ampdu_serviced q) (link_is_transmitting q)
    (blocked_packet_counter q) (arrived_packet_counter q) (queue_length_counter q) (STA_coords_map q) v
    (stats_channel q) (cumulative_stats_queue q) (ampdu_id q) (link_mediums q) (link_queue_depths q) (dcf_values
    q) (window_metrics_mcs_util q) (active_mac_key_counts q) (slot_tick_pending q) (scheduled q) (outputs q).
Definition set_stats_channel (v : list StatsUpdate) q : QueueModule :=
  mkQueue (cfg q) (ap_rng q) (link_rng q) (per_flow_queues q) (aux_ampdu_serviced q) (link_is_transmitting q)
    (blocked_packet_counter q) (arrived_packet_counter q) (queue_length_counter q) (STA_coords_map q)
    (sta_stats_cache q) v (cumulative_stats_queue q) (ampdu_id q) (link_mediums q) (link_queue_depths q)
    (dcf_values q) (window_metrics_mcs_util q) (active_mac_key_counts q) (slot_tick_pending q) (scheduled q)
    (outputs q).
Definition set_cumulative_stats_queue (v : QueueStats) q : QueueModule :=
  mkQueue (cfg q) (ap_rng q) (link_rng q) (per_flow_queues q) (aux_ampdu_serviced q) (link_is_transmitting q)
    (blocked_packet_counter q) (arrived_packet_counter q) (queue_length_counter q) (STA_coords_map q)
    (sta_stats_cache q) (stats_channel q) v (ampdu_id q) (link_mediums q) (link_queue_depths q) (dcf_values q)
    (window_metrics_mcs_util q) (active_mac_key_counts q) (slot_tick_pending q) (scheduled q) (outputs q).
Definition set_ampdu_id (v : Z) q : QueueModule :=
  mkQueue (cfg q) (ap_rng q) (link_rng q) (per_flow_queues q) (aux_ampdu_serviced q) (link_is_transmitting q)
    (blocked_packet_counter q) (arrived_packet_counter q) (queue_length_counter q) (STA_coords_map q)
    (sta_stats_cache q) (stats_channel q) (cumulative_stats_queue q) v (link_mediums q) (link_queue_depths q)
    (dcf_values q) (window_metrics_mcs_util q) (active_mac_key_counts q) (slot_tick_pending q) (scheduled q)
    (outputs q).
Definition set_link_mediums (v : gmap Z (Medium T)) q : QueueModule :=
  mkQueue (cfg q) (ap_rng q) (link_rng q) (per_flow_queues q) (aux_ampdu_serviced q) (link_is_transmitting q)
    (blocked_packet_counter q) (arrived_packet_counter q) (queue_length_counter q) (STA_coords_map q)
    (sta_stats_cache q) (stats_channel q) (cumulative_stats_queue q) (ampdu_id q) v (link_queue_depths q)
    (dcf_values q) (window_metrics_mcs_util q) (active_mac_key_counts q) (slot_tick_pending q) (scheduled q)
    (outputs q).
Definition set_link_queue_depths (v : gmap Z nat) q : QueueModule :=
  mkQueue (cfg q) (ap_rng q) (link_rng q) (per_flow_queues q) (aux_ampdu_serviced q) (link_is_transmitting q)
    (blocked_packet_counter q) (arrived_packet_counter q) (queue_length_counter q) (STA_coords_map q)
    (sta_stats_cache q) (stats_channel q) (cumulative_stats_queue q) (ampdu_id q) (link_mediums q) v (dcf_values
    q) (window_metrics_mcs_util q) (active_mac_key_counts q) (slot_tick_pending q) (scheduled q) (outputs q).
Definition set_dcf_values (v : list (DcfStats T)) q : QueueModule :=
  mkQueue (cfg q) (ap_rng q) (link_rng q) (per_flow_queues q) (aux_ampdu_serviced q) (link_is_transmitting q)
    (blocked_packet_counter q) (arrived_packet_counter q) (queue_length_counter q) (STA_coords_map q)
    (sta_stats_cache q) (stats_channel q) (cumulative_stats_queue q) (ampdu_id q) (link_mediums q)
    (link_queue_depths q) v (window_metrics_mcs_util q) (active_mac_key_counts q) (slot_tick_pending q) (scheduled
    q) (outputs q).
Definition set_window_metrics_mcs_util (v : gmap WindowKey WindowMetrics) q : QueueModule :=
  mkQueue (cfg q) (ap_rng q) (link_rng q) (per_flow_queues q) (aux_ampdu_serviced q) (link_is_transmitting q)
    (blocked_packet_counter q) (arrived_packet_counter q) (queue_length_counter q) (STA_coords_map q)
    (sta_stats_cache q) (stats_channel q) (cumulative_stats_queue q) (ampdu_id q) (link_mediums q)
    (link_queue_depths q) (dcf_values q) v (active_mac_key_counts q) (slot_tick_pending q) (scheduled q) (outputs
    q).
Definition set_active_mac_key_counts (v : gmap (Z * EdcaAc) Z) q : QueueModule :=
  mkQueue (cfg q) (ap_rng q) (link_rng q) (per_flow_queues q) (aux_ampdu_serviced q) (link_is_transmitting q)
    (blocked_packet_counter q) (arrived_packet_counter q) (queue_length_counter q) (STA_coords_map q)
    (sta_stats_cache q) (stats_channel q) (cumulative_stats_queue q) (ampdu_id q) (link_mediums q)
    (link_queue_depths q) (dcf_values q) (window_metrics_mcs_util q) v (slot_tick_pending q) (scheduled q)
    (outputs q).
Definition set_slot_tick_pending (v : bool) q : QueueModule :=
  mkQueue (cfg q) (ap_rng q) (link_rng q) (per_flow_queues q) (aux_ampdu_serviced q) (link_is_transmitting q)
    (blocked_packet_counter q) (arrived_packet_counter q) (queue_length_counter q) (STA_coords_map q)
    (sta_stats_cache q) (stats_channel q) (cumulative_stats_queue q) (ampdu_id q) (link_mediums q)
    (link_queue_depths q) (dcf_values q) (window_metrics_mcs_util q) (active_mac_key_counts q) v (scheduled q)
    (outputs q).
Definition set_scheduled (v : list (T * Event)) q : QueueModule :=
  mkQueue (cfg q) (ap_rng q) (link_rng q) (per_flow_queues q) (aux_ampdu_serviced q) (link_is_transmitting q)
    (blocked_packet_counter q) (arrived_packet_counter q) (queue_length_counter q) (STA_coords_map q)
    (sta_stats_cache q) (stats_channel q) (cumulative_stats_queue q) (ampdu_id q) (link_mediums q)
    (link_queue_depths q) (dcf_values q) (window_metrics_mcs_util q) (active_mac_key_counts q) (slot_tick_pending
    q) v (outputs q).
Definition set_outputs (v : list (Z * AmpduPacket)) q : QueueModule :=
  mkQueue (cfg q) (ap_rng q) (link_rng q) (per_flow_queues q) (aux_ampdu_serviced q) (link_is_transmitting q)
    (blocked_packet_counter q) (arrived_packet_counter q) (queue_length_counter q) (STA_coords_map q)
    (sta_stats_cache q) (stats_channel q) (cumulative_stats_queue q) (ampdu_id q) (link_mediums q)
    (link_queue_depths q) (dcf_values q) (window_metrics_mcs_util q) (active_mac_key_counts q) (slot_tick_pending
    q) (scheduled q) v.
End data.
Arguments MpduPacket T P : clear implicits.
Arguments AmpduPacket T P : clear implicits.
Arguments StatsUpdate T P : clear implicits.
Arguments Event T P : clear implicits.
Arguments QueueModule T P : clear implicits.

(** The period of the window reports is the duration of the single-precision 0.1. *)
Example mcs_report_period :
  F32.to_nanos (F64.to_f32 (F64.lit 1 10)) = Ret MCS_REPORT_PERIOD.
Proof. vm_compute. reflexivity. Qed.
End MacData.
