(* ===== verification/AccessPoint.v ===== *)
(** * The access point

    The operations of [QueueModule] in [examples/lib/models_mm1k.rs]: link
    selection, admission of downlink and uplink packets, aggregation of an A-MPDU
    with its losses and retransmissions, the slot service that resolves contention
    on every link, and the end of a transmission.  A handler takes the time
    [now] of its context and returns the module, with the events it scheduled and
    the A-MPDUs it sent appended to [scheduled] and [outputs], or panics. *)

From Stdlib Require Import SpecFloat.
From S2P Require Import Prelude Scheduler F32 SimRng Airtime Edca MacData.

Module Ap.
Import Rng.
Export Edca MacData.

(** [XRSIM_DL_ID_LEGACY] *)
Class LegacyIds := dl_packet_id_legacy : bool.

Section ap.
Context {T P : Type} `{TaiTime T} `{!Epoch T} `{!Rand} `{!HashOrder} `{!PhyEnv} `{!LegacyIds}.
Abbreviation QueueModule := (QueueModule T P).
Abbreviation MpduPacket := (MpduPacket T P).
Abbreviation AmpduPacket := (AmpduPacket T P).
Abbreviation StatsUpdate := (StatsUpdate T P).
Implicit Types q : QueueModule.
Implicit Types p : MpduPacket.
Implicit Types a : AmpduPacket.

(** ** Queues of the flows *)
Definition index_of (k : MacKey) q : outcome nat := unwrap (mac_key_index (cfg q) !! k).
Definition queue_at (idx : nat) q : outcome (list MpduPacket) := unwrap (per_flow_queues q !! idx).
Definition set_queue (idx : nat) (l : list MpduPacket) q : QueueModule :=
  set_per_flow_queues (<[idx:=l]> (per_flow_queues q)) q.
Definition queue_depth (k : MacKey) q : outcome nat :=
  idx ← index_of k q;
  l ← queue_at idx q;
  Ret (length l).

(** ** Contention state *)
Definition dcf_update (k : MacKey) (f : DcfStats T → outcome (DcfStats T)) q : outcome QueueModule :=
  v ← dcf_mut (mac_key_index (cfg q)) k f (dcf_values q);
  Ret (set_dcf_values v q).
Definition dcf_get (k : MacKey) q : outcome (DcfStats T) := dcf (mac_key_index (cfg q)) k (dcf_values q).
Definition succeed_key (k : MacKey) q : outcome QueueModule :=
  dcf_update k (λ st, Ret (on_success (cw_min (param st)) st)) q.
Definition fail_key (k : MacKey) q : outcome QueueModule :=
  dcf_update k (λ st, snd <$> on_failure st) q.
(** All functions of a link wait until [until] and then for their AIFS. *)
Definition freeze_one (link_id : Z) (until : T) (st : DcfStats T) : DcfStats T :=
  if key_link (mac_key st) =? link_id then
    mkDcf (mac_key st) (cw st) (backoff_counter st) (retry_count st) (param st) until true
      (rng st) (last_backoff_drawn_logs st)
  else st.
Definition freeze_link (link_id : Z) (until : T) q : QueueModule :=
  set_dcf_values (freeze_one link_id until <$> dcf_values q) q.
Definition txop_cap_secs (k : MacKey) q : outcome f64 :=
  st ← dcf_get k q;
  Ret (if txop_limit_us (param st) =? 0 then F64.infinity
       else F64.mul (F64.of_Z (txop_limit_us (param st))) (F64.lit 1 (10 ^ 6))).

(** ** Events *)
(** [context.scheduler.schedule_event(d, ..).unwrap()]: the scheduler rejects a
    deadline that is not after the present time. *)
Definition schedule (now : T) (d : Z) (e : Event T P) q : outcome QueueModule :=
  t ← time_add now d;
  if time_le t now then Panic else Ret (set_scheduled (scheduled q ++ [(t, e)]) q).
Definition schedule_tick (now : T) q : outcome QueueModule :=
  if slot_tick_pending q then Ret q
  else schedule now (SLOT_TIME_US * 1000) Service (set_slot_tick_pending true q).

(** ** Link selection *)
Definition get_link_queue_depth (link_id : Z) q : nat := default 0%nat (link_queue_depths q !! link_id).
Definition link_idle (now : T) (link_id : Z) q : bool :=
  match link_mediums q !! link_id with Some m => is_idle m now | None => false end.

Definition lyapunov_step q (best : Z * Z) (link_id : Z) : Z * Z :=
  let depth := Z.of_nat (get_link_queue_depth link_id q) in
  if depth <? best.1 then (depth, link_id) else best.
Definition select_mlo_channel_lyapunov_backpressure (available_links : list Z) q : option Z :=
  match available_links with
  | [] => None
  | [l] => Some l
  | l :: _ => Some (foldl (lyapunov_step q) (U64_MAX, l) available_links).2
  end.
(** The draw is made only when both links are idle or both are busy. *)
Definition select_mlo_channel_opportunistic (available_links : list Z) (now : T) q : option Z * QueueModule :=
  match available_links with
  | [] => (None, q)
  | [l] => (Some l, q)
  | link_a :: link_b :: _ =>
      match link_idle now link_a q, link_idle now link_b q with
      | true, false => (Some link_a, q)
      | false, true => (Some link_b, q)
      | _, _ => let '(b, r) := gen_bool_half (link_rng q) in
                (Some (if b then link_a else link_b), set_link_rng r q)
      end
  end.
Definition select_mlo_channel_primary_first (available_links : list Z) (now : T) q : outcome (option Z) :=
  match available_links with
  | [] => Panic
  | primary :: rest =>
      if link_idle now primary q then Ret (Some primary)
      else if (get_link_queue_depth primary q <? 10)%nat then Ret (Some primary)
      else match head (filter (λ l, link_idle now l q = true) rest) with
           | Some l => Ret (Some l)
           | None => Ret (Some primary)
           end
  end.
Definition select_link_for_packet p (now : T) q : outcome (option Z * QueueModule) :=
  let sta_id := if is_ul p then sta_src_id p else sta_dest_id p in
  match sta_capabilities (cfg q) !! sta_id with
  | None => Ret (Some 0, q)
  | Some [] => Ret (None, q)
  | Some [l] => Ret (Some l, q)
  | Some links =>
      match mlo_linkselection_strat (cfg q) with
      | PrimaryFirst => l ← select_mlo_channel_primary_first links now q; Ret (l, q)
      | LyapunovBackpressure => Ret (select_mlo_channel_lyapunov_backpressure links q, q)
      | _ => Ret (select_mlo_channel_opportunistic links now q)
      end
  end.

(** ** The rate cache *)
Definition as_i32 (z : Z) : Z := let w := wrap 32 z in if w <? 2 ^ 31 then w else w - 2 ^ 32.
Definition I32_MAX : Z := 2 ^ 31 - 1.
(** The binary search for the largest aggregate; [airtime n] is the airtime of
    [n] packets.  Gives the size found and the last accepted airtime. *)
Fixpoint ampdu_search (fuel : nat) (airtime : Z → f64) (cap : f64) (low high best : Z) (res : f64)
    : outcome (Z * f64) :=
  if low <=? high then
    match fuel with
    | O => OutOfFuel
    | S fuel =>
        s ← add_checked I32_MAX low high;
        let mid := s / 2 in
        if F64.le (airtime mid) DEFAULT_TMAX_AGG || F64.le (airtime mid) cap
        then ampdu_search fuel airtime cap (mid + 1) high mid (airtime mid)
        else ampdu_search fuel airtime cap low (mid - 1) best res
    end
  else Ret (best, res).
Definition rate_info (single : f64) (airtime : Z → f64) (cap : f64) (packs : Z) : outcome StaRateInfo :=
  '(n, full) ← ampdu_search (S (Z.to_nat packs)) airtime cap 1 packs 0 (airtime packs);
  Ret (mkRate single full n 0 single full (F64.div full (F64.of_Z (Z.max n 1))) F64.zero).
Definition flow_rate_info (length_packet_bits : Z) (src_coords : Coords) (width : Z) (cap : f64) q : outcome StaRateInfo :=
  let padded_bits_one := padded_mpdu_bits (F64.of_Z length_packet_bits) in
  let airtime bits n := (airtime_ampdu bits n (coords_queue (cfg q)) src_coords width).1 in
  rate_info (airtime padded_bits_one 1) (λ n, airtime (F64.mul padded_bits_one (F64.of_Z n)) n) cap (as_i32 (Z.of_nat (packs_per_ampdu (cfg q)))).
Definition cache_input_packet p (link_id : Z) q : outcome QueueModule :=
  let flow := (sta_src_id p, sta_dest_id p) in
  let k : MacKey := if is_ul p then (sta_src_id p, edca_ac p, link_id) else (-1, edca_ac p, link_id) in
  width ← unwrap (link_channel_widths (cfg q) !! link_id);
  cap ← txop_cap_secs k q;
  entry ← match sta_stats_cache q !! flow with
          | Some e => Ret e
          | None => flow_rate_info (length_packet_bits p) (sta_src_coords p) width cap q
          end;
  Ret (set_sta_stats_cache (<[flow:=set_packet_count (packet_count entry + 1) entry]> (sta_stats_cache q)) q).

(** ** Admission *)
Definition incr_depth (link_id : Z) q : QueueModule :=
  set_link_queue_depths (<[link_id := S (default 0%nat (link_queue_depths q !! link_id))]> (link_queue_depths q)) q.
Definition incr_active (k : Z * EdcaAc) q : QueueModule :=
  set_active_mac_key_counts (<[k := default 0 (active_mac_key_counts q !! k) + 1]> (active_mac_key_counts q)) q.
Definition any_link_idle (link_id : Z) q : outcome bool :=
  if STR_PLUS_MODE_MLO
  then Ret (existsb (λ e, negb e.2) (map_to_list (link_is_transmitting q)))
  else negb <$> unwrap (link_is_transmitting q !! link_id).
Definition push_packet (k : MacKey) p q : outcome QueueModule :=
  idx ← index_of k q;
  l ← queue_at idx q;
  Ret (set_queue idx (l ++ [p]) q).
Definition block_packet q : QueueModule := set_blocked_packet_counter (S (blocked_packet_counter q)) q.

(** Admission to the queue of [k], below its capacity; the packet is already
    counted as arrived.  Gives whether there was room. *)
Definition enqueue (now : T) (k : MacKey) (capacity : nat) p q : outcome (bool * QueueModule) :=
  depth ← queue_depth k q;
  if (depth <? capacity)%nat then
    q ← cache_input_packet p (key_link k) q;
    let q := incr_active (key_sta k, key_ac k) (incr_depth (key_link k) q) in
    idle ← any_link_idle (key_link k) q;
    q ← push_packet k p q;
    q ← (if ((depth =? 0)%nat && idle)%bool then schedule_tick now q else Ret q);
    Ret (true, q)
  else Ret (false, q).

Definition input (now : T) p q : outcome QueueModule :=
  let p := set_queue_in now p in
  let q := set_arrived_packet_counter (S (arrived_packet_counter q)) q in
  '(selected, q) ← select_link_for_packet p now q;
  if is_ul p then Ret q
  else match selected with
       | Some l =>
           p ← assign_link l p;
           let k : MacKey := (-1, edca_ac p, l) in
           '(admitted, q) ← enqueue now k (queue_maxsize_dl (cfg q)) (set_cached k p) q;
           Ret (if admitted : bool then q else block_packet q)
       | None => Ret (block_packet q)
       end.
(** The uplink handler does not count a packet that finds its queue full. *)
Definition input_UL (now : T) p q : outcome QueueModule :=
  let q := set_arrived_packet_counter (S (arrived_packet_counter q)) q in
  let q := set_queue_length_counter
             (queue_length_counter q + foldr (λ l n, (length l + n)%nat) 0%nat (per_flow_queues q)) q in
  '(selected, q) ← select_link_for_packet p now q;
  if is_ul p then
    match selected with
    | Some l =>
        p ← assign_link l p;
        let k : MacKey := (sta_src_id p, edca_ac p, l) in
        '(_, q) ← enqueue now k (ul_capacity_queue_device (cfg q)) (set_queue_in now (set_cached k p)) q;
        Ret q
    | None => Ret (block_packet q)
    end
  else Ret q.
Definition input_coords_update (sta : Z) (c : Coords) q : QueueModule :=
  set_STA_coords_map (<[wrap 64 sta := c]> (STA_coords_map q)) q.

(** ** Window statistics *)
(** The report of a finished window is computed; the future that would send it
    ([self.output_metrics.send(report)], without [.await]) is dropped. *)
Definition update_window_stats (k : WindowKey) (mcs : option Z) (duration : f64) (success : bool) (now : f64) q
    : QueueModule :=
  let w := default (window_new k) (window_metrics_mcs_util q !! k) in
  let elapsed := F64.sub now (window_start w) in
  let w := if F64.le (F64.of_nanos (window_duration w)) elapsed then (compute_and_reset now w).2 else w in
  set_window_metrics_mcs_util
    (<[k := update_metrics_mcs_util mcs duration success w]> (window_metrics_mcs_util q)) q.
(** [now.duration_since(TaiTime::EPOCH).as_secs_f64()], and the same between two times. *)
Definition since_nanos (now t : T) : outcome Z := if time_le t now then Ret (nanos now - nanos t) else Panic.
Definition secs_f64 (now : T) : outcome f64 := F64.of_nanos <$> since_nanos now EPOCH.

(** ** Aggregation *)
(** The accumulators of the loop over the source queues. *)
Record Agg := mkAgg {
  ag_ampdu : AmpduPacket;
  ag_snapshot : list (nat * MpduPacket);
  ag_resultz : f64;
  ag_backlog : nat;
  ag_airtime : Z
}.
(** The airtime and the MCS of the aggregate with one packet more. *)
Definition tentative_airtime (width : Z) (ul : bool) (bits : f64) (n : Z) p q : outcome (f64 * Z) :=
  if ul then Ret (airtime_ampdu bits n (sta_src_coords p) (coords_queue (cfg q)) width)
  else dest ← unwrap (STA_coords_map q !! wrap 64 (sta_dest_id p));
       Ret (airtime_ampdu bits n (coords_queue (cfg q)) dest width).
Definition with_mcs (mcs : Z) a : AmpduPacket :=
  mkAmpdu (mpdu_packets a) (total_length a) (padded_bits_sum a) (am_src_id a) (am_dest_id a) (size a)
    (coordinates a) (am_mac_key a) (link_id a) mcs.
Definition with_packets (l : list MpduPacket) a : AmpduPacket :=
  mkAmpdu l (total_length a) (padded_bits_sum a) (am_src_id a) (am_dest_id a) (size a)
    (coordinates a) (am_mac_key a) (link_id a) (mcs_assigned a).
Definition with_link (l : Z) a : AmpduPacket :=
  mkAmpdu (mpdu_packets a) (total_length a) (padded_bits_sum a) (am_src_id a) (am_dest_id a) (size a)
    (coordinates a) (am_mac_key a) l (mcs_assigned a).
Definition limit_reached (resultz cap : f64) (new_size : Z) q : bool :=
  F64.le DEFAULT_TMAX_AGG resultz || (as_i32 (Z.of_nat (packs_per_ampdu (cfg q))) <? new_size) || F64.le cap resultz.
(** The packet as it is aggregated, and the aggregate that holds it. *)
Definition take_packet (now : T) (k : MacKey) (deq_idx : nat) (new_bits resultz : f64) (mcs : Z) p (g : Agg) : outcome Agg :=
  waited ← since_nanos now (queue_in_instant p);
  let p' := set_cached k (set_queue_out (ag_backlog g) now waited p) in
  d ← F64.to_nanos resultz;
  let a := ag_ampdu g in
  Ret (mkAgg (mkAmpdu (mpdu_packets a ++ [p']) (total_length a + length_packet_bits p) new_bits
                (am_src_id a) (am_dest_id a) (size a + 1) (coordinates a) (am_mac_key a) (link_id a) mcs)
         (ag_snapshot g ++ [(deq_idx, p')]) resultz (ag_backlog g - 1) d).
(** One packet of a source queue: [None] when it is for another station, else the
    new accumulators and whether the limits are reached (then nothing is taken). *)
Definition agg_packet (now : T) (k : MacKey) (width : Z) (ul : bool) (dest : Z) (deq_idx : nat) q p (g : Agg)
    : outcome (option (Agg * bool)) :=
  if negb ul && negb (sta_dest_id p =? dest) then Ret None
  else
    let a := ag_ampdu g in
    let new_size := size a + 1 in
    let new_bits := F64.add (padded_bits_sum a) (padded_mpdu_bits (F64.of_Z (length_packet_bits p))) in
    '(resultz, mcs) ← tentative_airtime width ul new_bits new_size p q;
    cap ← txop_cap_secs k q;
    if limit_reached resultz cap new_size q
    then Ret (Some (mkAgg (with_mcs mcs a) (ag_snapshot g) resultz (ag_backlog g) (ag_airtime g), true))
    else g ← take_packet now k deq_idx new_bits resultz mcs p g;
         Ret (Some (g, false)).
(** The positions of one source queue; gives the number taken and whether the
    aggregation is over. *)
Fixpoint agg_queue (now : T) (k : MacKey) (width : Z) (ul : bool) (dest : Z) (deq_idx : nat) q
    (l : list MpduPacket) (taken : nat) (g : Agg) : outcome (Agg * nat * bool) :=
  match l with
  | [] => Ret (g, taken, false)
  | p :: l =>
      r ← agg_packet now k width ul dest deq_idx q p g;
      match r with
      | None => agg_queue now k width ul dest deq_idx q l taken g
      | Some (g, true) => Ret (g, taken, true)
      | Some (g, false) => agg_queue now k width ul dest deq_idx q l (S taken) g
      end
  end.
(** [deque_sources]: how many packets were taken from which queue. *)
Fixpoint aggregate (now : T) (k : MacKey) (width : Z) (ul : bool) (dest : Z) q (idxs : list nat)
    (sources : list (nat * nat)) (g : Agg) : outcome (Agg * list (nat * nat)) :=
  match idxs with
  | [] => Ret (g, sources)
  | idx :: idxs =>
      l ← queue_at idx q;
      '(g, taken, stop) ← agg_queue now k width ul dest idx q l 0 g;
      let sources := if (0 <? taken)%nat then sources ++ [(idx, taken)] else sources in
      if (stop : bool) then Ret (g, sources) else aggregate now k width ul dest q idxs sources g
  end.

(** The other links, in increasing order. *)
Definition other_links (link_id : Z) q : list Z :=
  merge_sort Z.le (filter (λ l, l ≠ link_id) ((map_to_list (link_mediums q)).*1)).
(** The non-empty queues of the same station and category on other links. *)
Definition alt_queue (sta : Z) (ac : EdcaAc) q (l : Z) : option nat :=
  idx ← mac_key_index (cfg q) !! (sta, ac, l);
  match per_flow_queues q !! idx with Some (_ :: _) => Some idx | _ => None end.
Definition source_deque_idxs (k : MacKey) (primary : nat) q : list nat :=
  primary :: (if STR_PLUS_MODE_MLO
              then omap (alt_queue (key_sta k) (key_ac k) q) (other_links (key_link k) q) else []).

(** ** Losses *)
Definition packet_update (now : T) (link : Z) (resultz : f64) p q : StatsUpdate :=
  mkUpdate resultz (F64.of_nanos (T_q p)) (blocked_packet_counter q) (arrived_packet_counter q)
    (queue_length_when_out p) (sta_src_id p) (sta_dest_id p) (as_i32 (packet_id p)) now
    (length_packet_bits p) (edca_ac p) (ampdu_id q) false F64.zero link (Some (payload p)).
Definition send_stats (u : StatsUpdate) q : QueueModule := set_stats_channel (stats_channel q ++ [u]) q.
(** The packets of the aggregate in order: a draw at most [PL_probability] is a
    loss.  Gives the packets that get through. *)
Fixpoint draw_losses (now : T) (link : Z) (resultz : f64) (l : list MpduPacket) q
    : outcome (list MpduPacket * QueueModule) :=
  match l with
  | [] => Ret ([], q)
  | p :: l =>
      d ← F64.to_nanos resultz;
      let p := set_T_s d p in
      let '(v, r) := gen_f64 (ap_rng q) in
      let q := set_ap_rng r q in
      if F64.le v (PL_probability (cfg q)) then draw_losses now link resultz l (block_packet q)
      else
        '(ok, q) ← draw_losses now link resultz l (send_stats (packet_update now link resultz p q) q);
        Ret (p :: ok, q)
  end.

(** ** Removal of the packets sent *)
Definition id_key p : Z * Z * Z :=
  if dl_packet_id_legacy then (0, 0, packet_id p) else (sta_src_id p, sta_dest_id p, packet_id p).
Definition pop_sources (sources : list (nat * nat)) q : outcome QueueModule :=
  foldl (λ r s, q ← r; l ← queue_at s.1 q; Ret (set_queue s.1 (drop s.2 l) q)) (Ret q) sources.
Definition retain_not_taken (taken : list (Z * Z * Z)) (idx : nat) q : outcome QueueModule :=
  l ← queue_at idx q;
  Ret (set_queue idx (filter (λ p, id_key p ∉ taken) l) q).
Definition remove_taken (ul : bool) (sources : list (nat * nat)) (snapshot : list (nat * MpduPacket)) q
    : outcome QueueModule :=
  if ul then pop_sources sources q
  else
    let taken := id_key <$> snapshot.*2 in
    foldl (λ r idx, q ← r; retain_not_taken taken idx q) (Ret q) (remove_dups snapshot.*1).
(** The packets that did not get through, by queue: those whose [packet_id] is not
    among the identifiers of the packets that did. *)
Definition failed_by_deque (successful_ids : list Z) (snapshot : list (nat * MpduPacket)) : gmap nat (list MpduPacket) :=
  foldl (λ m s, if decide (packet_id s.2 ∈ successful_ids) then m
                else <[s.1 := default [] (m !! s.1) ++ [s.2]]> m) ∅ snapshot.
Definition requeue_one (idx : nat) (failed : list MpduPacket) q : outcome QueueModule :=
  l ← queue_at idx q;
  Ret (set_queue idx (foldl (λ l p, p :: l) l (reverse failed)) q).
Definition requeue (failed : gmap nat (list MpduPacket)) q : outcome QueueModule :=
  foldl (λ r e, q ← r; requeue_one e.1 e.2 q) (Ret q) (hm_iter failed).

(** ** Counters of the packets that left *)
Definition decr_depth (link_id : Z) q : QueueModule :=
  match link_queue_depths q !! link_id with
  | Some c => set_link_queue_depths (<[link_id := (c - 1)%nat]> (link_queue_depths q)) q
  | None => q
  end.
Definition decr_active (k : Z * EdcaAc) q : QueueModule :=
  match active_mac_key_counts q !! k with
  | Some c => set_active_mac_key_counts (<[k := Z.max 0 (c - 1)]> (active_mac_key_counts q)) q
  | None => q
  end.
Definition ac_key p : Z * EdcaAc := if is_ul p then (sta_src_id p, edca_ac p) else (-1, edca_ac p).
Definition count_sent q p : QueueModule :=
  let q := match assigned_link_id p with Some l => decr_depth l q | None => q end in
  decr_active (ac_key p) q.
Definition packets_removed_by_key (l : list MpduPacket) : gmap (Z * Z) nat :=
  foldl (λ m p, let f := (sta_src_id p, sta_dest_id p) in <[f := S (default 0%nat (m !! f))]> m) ∅ l.
Definition uncache (flow : Z * Z) (n : nat) q : QueueModule :=
  match sta_stats_cache q !! flow with
  | Some e => set_sta_stats_cache (<[flow := set_packet_count (packet_count e - n) e]> (sta_stats_cache q)) q
  | None => q
  end.
Definition count_all_sent (l : list MpduPacket) q : QueueModule :=
  let q := foldl count_sent q l in
  foldl (λ q e, uncache e.1 e.2 q) q (hm_iter (packets_removed_by_key l)).

(** ** [build_new_ampdu] *)
Definition start_ampdu (first : MpduPacket) (k : MacKey) (link : Z) q : AmpduPacket :=
  let a := ampdu_reset (aux_ampdu_serviced q) in
  mkAmpdu (mpdu_packets a) (total_length a) (padded_bits_sum a) (sta_src_id first) (sta_dest_id first)
    (size a) (sta_src_coords first) k link (mcs_assigned a).
Definition flow_key (first : MpduPacket) (link : Z) : MacKey :=
  if is_ul first then (sta_src_id first, edca_ac first, link) else (-1, edca_ac first, link).
(** The aggregate before losses, and the module it was taken from. *)
Definition gather (first : MpduPacket) (link : Z) (now : T) q : outcome (Agg * list (nat * nat)) :=
  width ← unwrap (link_channel_widths (cfg q) !! link);
  if (sta_src_id first <=? 0) || (sta_dest_id first <=? 0) then Panic
  else
    let k := flow_key first link in
    _ ← dcf_get k q;
    backlog ← queue_depth k q;
    primary ← index_of k q;
    aggregate now k width (is_ul first) (sta_dest_id first) q (source_deque_idxs k primary q) []
      (mkAgg (start_ampdu first k link q) [] F64.zero backlog 0).
(** What follows the losses: queues, counters, and the link marked as busy. *)
Definition settle (ul : bool) (sources : list (nat * nat)) (snapshot : list (nat * MpduPacket))
    (sent : list MpduPacket) (link : Z) q : outcome QueueModule :=
  q ← remove_taken ul sources snapshot q;
  q ← requeue (failed_by_deque (packet_id <$> sent) snapshot) q;
  let q := count_all_sent sent q in
  Ret (set_aux_ampdu_serviced ampdu_new
         (set_link_is_transmitting (<[link:=true]> (link_is_transmitting q)) q)).
Definition build_new_ampdu (first : MpduPacket) (link : Z) (now : T) q : outcome (AmpduPacket * Z * QueueModule) :=
  '(g, sources) ← gather first link now q;
  '(sent, q) ← draw_losses now link (ag_resultz g) (mpdu_packets (ag_ampdu g)) q;
  q ← settle (is_ul first) sources (ag_snapshot g) sent link q;
  Ret (with_packets sent (ag_ampdu g), ag_airtime g, q).

(** ** Overflowing flows *)
Definition flow_limit (flow : Z * Z) q : nat :=
  if flow.2 <? flow.1 then ul_capacity_queue_device (cfg q) else queue_maxsize_dl (cfg q).
Definition overflowing_flows q : gmap (Z * Z) nat :=
  map_imap (λ flow e, if (flow_limit flow q <? packet_count e)%nat
                      then Some (packet_count e - flow_limit flow q)%nat else None) (sta_stats_cache q).
(** The counters of one dropped packet. *)
Definition count_drop (link : Z) (k : Z * EdcaAc) q : QueueModule := decr_active k (decr_depth link (block_packet q)).
(** Uplink: the last [n] packets of the queue, the last one first. *)
Definition drop_back (link : Z) (k : Z * EdcaAc) (idx : nat) (n : nat) q : outcome (nat * QueueModule) :=
  l ← queue_at idx q;
  let n := Nat.min n (length l) in
  let q := foldl (λ q p, uncache (sta_src_id p, sta_dest_id p) 1 (count_drop link k q))
             (set_queue idx (take (length l - n) l) q) (reverse (drop (length l - n) l)) in
  Ret (n, q).
(** Downlink: the first [n] packets for the destination, from any source. *)
Fixpoint drop_dest (dest : Z) (n : nat) (l : list MpduPacket) : nat * list MpduPacket :=
  match l with
  | [] => (0%nat, [])
  | p :: l =>
      match n with
      | S n' => if sta_dest_id p =? dest
                then let '(d, l) := drop_dest dest n' l in (S d, l)
                else let '(d, l) := drop_dest dest n l in (d, p :: l)
      | O => let '(d, l) := drop_dest dest n l in (d, p :: l)
      end
  end.
Definition drop_front (link : Z) (k : Z * EdcaAc) (flow : Z * Z) (idx : nat) (n : nat) q : outcome (nat * QueueModule) :=
  l ← queue_at idx q;
  let '(d, l) := drop_dest flow.2 n l in
  let q := Nat.iter d (count_drop link k) (set_queue idx l q) in
  Ret (d, uncache flow d q).
(** One link of the drop loop; [n] is what remains to drop. *)
Definition drop_on_link (flow : Z * Z) (ac : EdcaAc) (link : Z) (n : nat) q : outcome (nat * QueueModule) :=
  let ul := flow.2 <? flow.1 in
  let sta := if ul then flow.1 else -1 in
  if (n =? 0)%nat then Ret (n, q)
  else match mac_key_index (cfg q) !! (sta, ac, link) with
       | None => Ret (n, q)
       | Some idx =>
           '(d, q) ← (if ul then drop_back link (sta, ac) idx n q else drop_front link (sta, ac) flow idx n q);
           Ret ((n - d)%nat, q)
       end.
Definition drop_ac (flow : Z * Z) (excess : nat) (links : list Z) (ac : EdcaAc) q : outcome QueueModule :=
  '(_, q) ← foldl (λ r link, '(n, q) ← r; drop_on_link flow ac link n q) (Ret (excess, q)) links;
  Ret q.
Definition drop_flow (links : list Z) (e : (Z * Z) * nat) q : outcome QueueModule :=
  foldl (λ r ac, q ← r; drop_ac e.1 e.2 links ac q) (Ret q) all_acs.
Definition drop_overflow q : outcome QueueModule :=
  foldl (λ r e, q ← r; drop_flow (hm_iter (link_mediums q)).*1 e q) (Ret q) (hm_iter (overflowing_flows q)).

(** ** Contention on one link *)
Definition with_medium (link : Z) (f : Medium T → outcome (Medium T)) q : outcome QueueModule :=
  match link_mediums q !! link with
  | Some m => m ← f m; Ret (set_link_mediums (<[link:=m]> (link_mediums q)) q)
  | None => Ret q
  end.
Definition collision_update (now : T) (link : Z) (t_col : f64) (k : MacKey) q : outcome StatsUpdate :=
  let front := idx ← mac_key_index (cfg q) !! k; l ← per_flow_queues q !! idx; head l in
  match front with
  | Some p =>
      waited ← since_nanos now (queue_in_instant p);
      Ret (mkUpdate F64.zero (F64.of_nanos waited) (blocked_packet_counter q) (arrived_packet_counter q) 0
             (sta_src_id p) (sta_dest_id p) (as_i32 (packet_id p)) now (length_packet_bits p) (edca_ac p)
             (ampdu_id q) true t_col link (Some (payload p)))
  | None =>
      Ret (mkUpdate F64.zero F64.zero 0 0 0 (key_sta k) (if key_sta k =? -1 then 1 else -1) 0 now 0
             BestEffort 0 true t_col link None)
  end.
Definition collision_window (now_s t_col : f64) q (k : MacKey) : QueueModule :=
  update_window_stats (key_sta k, key_link k) None t_col false now_s q.
Definition collision_stats (now : T) (link : Z) (t_col : f64) (contenders : list MacKey) q : outcome QueueModule :=
  foldl (λ r k, q ← r; u ← collision_update now link t_col k q; Ret (send_stats u q)) (Ret q) contenders.
(** A collision: the medium is occupied, every contender backs off, and the link
    is looked at again when the collision is over. *)
Definition handle_collision (now : T) (link : Z) (contenders : list MacKey) q : outcome QueueModule :=
  d ← F32.to_nanos collision_delay;
  until ← time_add now d;
  q ← with_medium link (occupy_collision now until) q;
  q ← foldl (λ r k, q ← r; fail_key k q) (Ret q) contenders;
  let q := freeze_link link until q in
  now_s ← secs_f64 now;
  let t_col := F64.of_f32 collision_delay in
  let q := foldl (collision_window now_s t_col) q contenders in
  q ← collision_stats now link t_col contenders q;
  q ← schedule now d Service q;
  Ret (set_slot_tick_pending true q).

(** The packet that decides which flow is served: the front of the winner's queue,
    else that of the same station and category on another link. *)
Definition first_packet (winner : MacKey) q : outcome (option MpduPacket) :=
  idx ← index_of winner q;
  l ← queue_at idx q;
  match l with
  | p :: _ => Ret (Some p)
  | [] =>
      if STR_PLUS_MODE_MLO then
        Ret (idx ← head (omap (alt_queue (key_sta winner) (key_ac winner) q) (other_links (key_link winner) q));
             l ← per_flow_queues q !! idx; head l)
      else Ret None
  end.
(** The aggregate of the winner goes on air, or the winner backs off when nothing
    could be sent. *)
Definition start_transmission (now : T) (link : Z) (winner : MacKey) a (airtime : Z) q : outcome QueueModule :=
  until ← time_add now airtime;
  q ← with_medium link (start_txop now until winner) q;
  schedule now airtime (SendAmpdu a) (freeze_link link until q).
Definition skip_transmission (now : T) (link : Z) (winner : MacKey) q : outcome QueueModule :=
  q ← fail_key winner (set_link_is_transmitting (<[link:=false]> (link_is_transmitting q)) q);
  schedule_tick now q.
Definition handle_winner (now : T) (link : Z) (winner : MacKey) q : outcome QueueModule :=
  first ← first_packet winner q;
  match first with
  | None => succeed_key winner q
  | Some first =>
      '(a, airtime, q) ← build_new_ampdu first link now q;
      let a := with_link link a in
      match mpdu_packets a with
      | [] => skip_transmission now link winner q
      | _ => if airtime =? 0 then skip_transmission now link winner q
             else start_transmission now link winner a airtime q
      end
  end.
Definition handle_contenders (now : T) (link : Z) (contenders : list MacKey) q : outcome QueueModule :=
  match contenders with
  | [] => Ret q
  | [winner] => handle_winner now link winner q
  | _ => handle_collision now link contenders q
  end.
Definition handle_link (now : T) (link : Z) (pre_contenders : list MacKey) q : outcome QueueModule :=
  '(contenders, v) ← resolve_virtual_collision (mac_key_index (cfg q)) pre_contenders (dcf_values q);
  handle_contenders now link contenders (set_dcf_values v q).

(** ** The slot service *)
(** A function with packets on a link that is not transmitting. *)
Definition needs_slot q (st : DcfStats T) : bool :=
  negb (default false (link_is_transmitting q !! key_link (mac_key st)))
  && (0 <? default 0 (active_mac_key_counts q !! (key_sta (mac_key st), key_ac (mac_key st)))).
Definition need_next_slot q : bool :=
  existsb (λ e, (0 <? e.2)%nat) (map_to_list (link_queue_depths q)) && existsb (needs_slot q) (dcf_values q).
Definition tick_all (now : T) q : outcome (gmap Z (list MacKey) * QueueModule) :=
  '(m, v, ready) ← tick_backoff now (link_mediums q) (active_mac_key_counts q) (dcf_values q);
  Ret (ready, set_dcf_values v (set_link_mediums m q)).
Definition handle_links (now : T) (ready : gmap Z (list MacKey)) q : outcome QueueModule :=
  foldl (λ r e, q ← r; handle_link now e.1 e.2 q) (Ret q) (hm_iter ready).
Definition deque_schedule_service (now : T) q : outcome QueueModule :=
  q ← drop_overflow (set_slot_tick_pending false q);
  '(ready, q) ← tick_all now q;
  q ← handle_links now ready q;
  if need_next_slot q then schedule_tick now q else Ret q.

(** ** The end of a transmission *)
Definition release_link (now : T) (link : Z) q : QueueModule :=
  match link_mediums q !! link with
  | Some m => set_link_mediums (<[link := release_txop now m]> (link_mediums q)) q
  | None => q
  end.
Definition put_output a q : QueueModule :=
  if decide (link_id a ∈ link_outputs (cfg q)) then set_outputs (outputs q ++ [(link_id a, a)]) q else q.
Definition drain_one (s : QueueStats) (u : StatsUpdate) : QueueStats :=
  update_cumstats (up_T_s u) (up_T_q u) (up_blocked u) (up_arrived u) (up_queue_length u) s.
(** The statistics received so far; the window takes the service time of the first. *)
Definition drain_stats (a : AmpduPacket) (now_s : f64) q : QueueModule :=
  match stats_channel q with
  | [] => q
  | u :: _ =>
      let q := set_cumulative_stats_queue (foldl drain_one (cumulative_stats_queue q) (stats_channel q))
                 (set_stats_channel [] q) in
      update_window_stats (key_sta (am_mac_key a), key_link (am_mac_key a)) (Some (mcs_assigned a))
        (up_T_s u) true now_s q
  end.
Definition end_transmission (now : T) a q : QueueModule :=
  let q := release_link now (link_id a) q in
  let q := set_ampdu_id (ampdu_id q + 1) q in
  set_link_is_transmitting (<[link_id a := false]> (link_is_transmitting q)) q.
Definition send_ampdu (now : T) a q : outcome QueueModule :=
  let q := end_transmission now a q in
  now_s ← secs_f64 now;
  let q := put_output a q in
  q ← (if existsb (λ l, negb (bool_decide (l = []))) (per_flow_queues q) then schedule_tick now q else Ret q);
  q ← succeed_key (am_mac_key a) q;
  Ret (drain_stats a now_s q).

(** ** Construction *)
(** The place of the function of the [s]-th station and the [l]-th link. *)
Definition slot_of (num_links s l : nat) (ac : EdcaAc) : nat := s * (num_links * 4) + l * 4 + ac_idx ac.
(** The functions in the order in which they are built: for every link those of the
    access point, whose place is after the last station, then those of the stations. *)
Definition mac_slots (num_stas : nat) (vec_ids : list Z) (links : list LinkConfig) : list (MacKey * nat) :=
  let n := length links in
  concat (imap (λ l lc,
    ((λ ac, ((-1, ac, lc_link_id lc), slot_of n num_stas l ac)) <$> all_acs) ++
    concat (imap (λ s sta, (λ ac, ((sta, ac, lc_link_id lc), slot_of n s l ac)) <$> all_acs) vec_ids)) links).
Definition dummy_key : MacKey := (-2, BestEffort, 0).
Definition fill_slot (run : RunRng) (v : list (DcfStats T)) (e : MacKey * nat) : outcome (list (DcfStats T)) :=
  if (e.2 <? length v)%nat then Ret (<[e.2 := dcf_new run (key_ac e.1) e.1]> v) else Panic.
Definition new (run : RunRng) (num_stas : nat) (vec_ids : list Z) (PL_prob : f64) (links : list LinkConfig)
    (strat : LinkSelectionStrategy) (packs : nat) (coords_queue : Coords) : outcome QueueModule :=
  let total_entries := ((num_stas + 1) * length links * 4)%nat in
  let slots := mac_slots num_stas vec_ids links in
  if (length vec_ids <? num_stas)%nat then Panic
  else
    v ← foldl (λ r e, v ← r; fill_slot run v e)
          (Ret (replicate total_entries (dcf_new run BestEffort dummy_key))) slots;
    let per_link {A} (f : LinkConfig → A) : gmap Z A :=
      foldl (λ m lc, <[lc_link_id lc := f lc]> m) ∅ links in
    let cfg := mkConfig DOWNLINK_QUEUE_SIZE UPLINK_QUEUE_SIZE coords_queue PL_prob (per_link bandwidth_mhz) ∅
                 (foldl (λ m e, <[e.1:=e.2]> m) ∅ slots) (list_to_set (lc_link_id <$> links)) strat packs in
    Ret (mkQueue cfg (stream run (tag_str [97; 112]))
           (stream run (tag_str [97; 112; 32; 108; 105; 110; 107; 32; 99; 104; 111; 105; 99; 101]))
           (replicate total_entries []) ampdu_new (per_link (λ _, false)) 0 0 0 ∅ ∅ [] queue_stats_new 0
           (per_link (λ _, medium_default)) (per_link (λ _, 0%nat)) v
           (foldl (λ m e, <[(key_sta e.1, key_link e.1) := window_new (key_sta e.1, key_link e.1)]> m) ∅ slots)
           ∅ false [] []).
(** Setup inserts the capabilities and the position of the stations afterwards. *)
Definition with_capabilities (caps : gmap Z (list Z)) (coords : gmap Z Coords) q : QueueModule :=
  let c := cfg q in
  let c := mkConfig (queue_maxsize_dl c) (ul_capacity_queue_device c) (coords_queue c) (PL_probability c)
             (link_channel_widths c) caps (mac_key_index c) (link_outputs c) (mlo_linkselection_strat c)
             (packs_per_ampdu c) in
  mkQueue c (ap_rng q) (link_rng q) (per_flow_queues q) (aux_ampdu_serviced q) (link_is_transmitting q)
    (blocked_packet_counter q) (arrived_packet_counter q) (queue_length_counter q) coords (sta_stats_cache q)
    (stats_channel q) (cumulative_stats_queue q) (ampdu_id q) (link_mediums q) (link_queue_depths q)
    (dcf_values q) (window_metrics_mcs_util q) (active_mac_key_counts q) (slot_tick_pending q) (scheduled q)
    (outputs q).
End ap.
End Ap.
