(* ===== verification/EdcaFacts.v ===== *)
(** * Properties of channel access

    The invariant of one EDCA function (its contention window is a function of its
    retry count), the closed form of binary exponential back-off, the countdown of
    the slot tick, and the outcome of virtual collisions. *)

From Stdlib Require Import ZifyBool.
From S2P Require Import Prelude Scheduler F32 SimRng Edca.

Module EdcaFacts.
Import Rng Edca.

Lemma add_checked_ok max a b : a + b ≤ max → add_checked max a b = Ret (a + b).
Proof. intros. unfold add_checked. by rewrite (proj2 (Z.leb_le _ _)). Qed.
Lemma mul_checked_ok max a b : a * b ≤ max → mul_checked max a b = Ret (a * b).
Proof. intros. unfold mul_checked. by rewrite (proj2 (Z.leb_le _ _)). Qed.

Section facts.
Context {T : Type} `{TaiTime T} `{!Epoch T} `{!Rand}.
Implicit Types st : DcfStats T.

(** ** The contention window *)
(** The window after [n] failures in a row. *)
Definition window (p : EdcaParam) (n : Z) : Z := Z.min (cw_max p) ((cw_min p + 1) * 2 ^ n - 1).

Definition dcf_ok st : Prop :=
  param st = EDCA_TABLE (key_ac (mac_key st)) ∧
  0 ≤ retry_count st ≤ MAX_RETRIES_MAC ∧
  cw st = window (param st) (retry_count st) ∧
  0 ≤ backoff_counter st ≤ last_backoff_drawn_logs st ∧
  last_backoff_drawn_logs st ≤ cw st.

Lemma table_range ac : 0 ≤ cw_min (EDCA_TABLE ac) ≤ cw_max (EDCA_TABLE ac) ∧ cw_max (EDCA_TABLE ac) ≤ 1023.
Proof. destruct ac; simpl; lia. Qed.
Lemma aifs_pos ac : 0 < aifs (EDCA_TABLE ac).
Proof. by destruct ac. Qed.
Lemma window_range ac n : 0 ≤ n → cw_min (EDCA_TABLE ac) ≤ window (EDCA_TABLE ac) n ≤ cw_max (EDCA_TABLE ac).
Proof.
  intros Hn. unfold window. pose proof (table_range ac). assert (1 ≤ 2 ^ n).
  { pose proof (Z.pow_pos_nonneg 2 n). lia. }
  nia.
Qed.
Lemma window_0 ac : window (EDCA_TABLE ac) 0 = cw_min (EDCA_TABLE ac).
Proof. by destruct ac. Qed.
(** Doubling the window and cutting it at [cw_max] is the next window. *)
Lemma window_next ac n : 0 ≤ n →
  window (EDCA_TABLE ac) (n + 1) =
    let c := (window (EDCA_TABLE ac) n + 1) * 2 - 1 in
    if cw_max (EDCA_TABLE ac) <? c then cw_max (EDCA_TABLE ac) else c.
Proof.
  intros Hn. unfold window. rewrite Z.pow_add_r, Z.pow_1_r by lia. simpl.
  pose proof (table_range ac). destruct (Z.ltb_spec (cw_max (EDCA_TABLE ac))
    ((Z.min (cw_max (EDCA_TABLE ac)) ((cw_min (EDCA_TABLE ac) + 1) * 2 ^ n - 1) + 1) * 2 - 1)); lia.
Qed.

Lemma reload_ok st :
  param st = EDCA_TABLE (key_ac (mac_key st)) → 0 ≤ retry_count st ≤ MAX_RETRIES_MAC →
  cw st = window (param st) (retry_count st) → dcf_ok (reload_backoff st).
Proof.
  intros Hp Hr Hc. unfold reload_backoff. pose proof (gen_range_bound (rng st) (cw st)) as Hb.
  destruct (gen_range (rng st) (cw st)) as [v r]. simpl in *.
  assert (0 ≤ cw st) by (rewrite Hc, Hp; pose proof (table_range (key_ac (mac_key st)));
    pose proof (window_range (key_ac (mac_key st)) (retry_count st)); lia).
  unfold dcf_ok. simpl. split_and!; auto; lia.
Qed.
Lemma dcf_new_ok run ac sta l : dcf_ok (dcf_new run ac (sta, ac, l)).
Proof.
  unfold dcf_new. pose proof (gen_range_bound (stream run (edcaf_tag (sta, ac, l))) (cw_min (EDCA_TABLE ac))) as Hb.
  destruct (gen_range _ _) as [v r]. simpl in *. pose proof (table_range ac).
  unfold dcf_ok. cbn. rewrite window_0. split_and!; try done; unfold MAX_RETRIES_MAC; lia.
Qed.
Lemma on_success_ok st : dcf_ok st → dcf_ok (on_success (cw_min (param st)) st).
Proof.
  intros (Hp & _). apply reload_ok; simpl; [done|unfold MAX_RETRIES_MAC; lia|].
  by rewrite Hp, window_0.
Qed.

(** A failure gives up exactly at the eleventh in a row, and otherwise moves to the
    next window; the counter is drawn in the window. *)
Lemma on_failure_ok st : dcf_ok st →
  ∃ st', on_failure st = Ret (bool_decide (retry_count st < MAX_RETRIES_MAC), st') ∧ dcf_ok st' ∧
    retry_count st' = (if bool_decide (retry_count st < MAX_RETRIES_MAC) then retry_count st + 1 else 0) ∧
    mac_key st' = mac_key st ∧ backoff_frozen st' = backoff_frozen st ∧
    medium_free_since st' = medium_free_since st.
Proof.
  intros (Hp & Hr & Hc & _). unfold on_failure. unfold MAX_RETRIES_MAC in *.
  rewrite (add_checked_ok U8_MAX (retry_count st) 1) by (unfold U8_MAX; lia). ret_step.
  case_bool_decide as Hlt; [rewrite (proj2 (Z.ltb_ge _ _)) by lia|rewrite (proj2 (Z.ltb_lt _ _)) by lia].
  - assert (0 ≤ cw st ≤ 1023).
    { rewrite Hc, Hp. pose proof (window_range (key_ac (mac_key st)) (retry_count st) ltac:(lia)).
      pose proof (table_range (key_ac (mac_key st))). lia. }
    rewrite (add_checked_ok U32_MAX (cw st) 1) by (unfold U32_MAX; lia). ret_step.
    rewrite (mul_checked_ok U32_MAX (cw st + 1) 2) by (unfold U32_MAX; lia). ret_step.
    eexists. split; [done|]. split.
    + apply reload_ok; simpl; [done|unfold MAX_RETRIES_MAC; lia|].
      rewrite Hp, (window_next _ (retry_count st)) by lia. by rewrite Hc, Hp.
    + unfold reload_backoff. by destruct (gen_range _ _).
  - eexists. split; [done|]. split.
    + apply reload_ok; simpl; [done|unfold MAX_RETRIES_MAC; lia|]. by rewrite Hp, window_0.
    + unfold reload_backoff. by destruct (gen_range _ _).
Qed.

(** [n] failures in a row, with what each answered. *)
Fixpoint failures (n : nat) st : outcome (list bool * DcfStats T) :=
  match n with
  | O => Ret ([], st)
  | S n => '(l, st) ← failures n st; '(b, st) ← on_failure st; Ret (l ++ [b], st)
  end.

(** Binary exponential back-off: after a success, the window is [cw_min]; [n]
    failures in a row, up to ten, keep the packet and leave a window of
    [min cw_max ((cw_min + 1) * 2^n - 1)] with a counter drawn in it; the eleventh
    failure gives up and starts again from [cw_min].  Nothing panics. *)
Theorem backoff_doubles st n : dcf_ok st → (n ≤ 10)%nat →
  ∃ st', failures n (on_success (cw_min (param st)) st) = Ret (replicate n true, st') ∧
    cw st' = Z.min (cw_max (param st)) ((cw_min (param st) + 1) * 2 ^ Z.of_nat n - 1) ∧
    0 ≤ backoff_counter st' ≤ cw st' ∧ retry_count st' = Z.of_nat n ∧
    (n = 10%nat → ∃ st'', on_failure st' = Ret (false, st'') ∧ cw st'' = cw_min (param st) ∧
       retry_count st'' = 0 ∧ 0 ≤ backoff_counter st'' ≤ cw st'').
Proof.
  intros Hok Hn. set (s0 := on_success (cw_min (param st)) st).
  assert (param s0 = param st ∧ mac_key s0 = mac_key st ∧ retry_count s0 = 0) as (P0 & K0 & R0).
  { unfold s0, on_success, reload_backoff. by destruct (gen_range _ _). }
  assert (∀ m, (m ≤ 10)%nat → ∃ st', failures m s0 = Ret (replicate m true, st') ∧ dcf_ok st' ∧
            mac_key st' = mac_key st ∧ retry_count st' = Z.of_nat m) as Hf.
  { induction m as [|m IH]; intros Hm; [by exists s0; split; [done|]; split; [apply on_success_ok|]|].
    destruct (IH ltac:(lia)) as (st1 & E1 & Hok1 & K1 & R1). simpl failures. rewrite E1. ret_step.
    destruct (on_failure_ok st1 Hok1) as (st2 & E2 & Hok2 & R2 & K2 & _).
    rewrite bool_decide_true in E2, R2 by (unfold MAX_RETRIES_MAC; lia).
    rewrite E2. ret_step. exists st2. split; [by rewrite <-replicate_S_end|].
    split; [done|]. split; [congruence|lia]. }
  destruct (Hf n Hn) as (st' & E & Hok' & K & R).
  destruct Hok as (Hp & _). pose proof Hok' as (Hp' & Hr' & Hc' & Hb' & Hl').
  assert (param st' = param st) as Hpp by congruence.
  exists st'. split_and!; [done|rewrite Hc', R, Hpp; done|lia|lia|done|].
  intros ->. destruct (on_failure_ok st') as (st2 & E2 & (Hp2 & _ & Hc2 & Hb2 & Hl2) & R2 & K2 & _); [done|].
  rewrite bool_decide_false in E2, R2 by (unfold MAX_RETRIES_MAC; lia).
  exists st2. split_and!; [done| |done|lia|lia].
  rewrite Hc2, R2, Hp2, window_0. congruence.
Qed.

(** ** The slot tick of one function *)
Lemma tick_one_Ret now idle st st' b : tick_one now idle st = Ret (st', b) →
  mac_key st' = mac_key st ∧ medium_free_since st' = medium_free_since st ∧ (dcf_ok st → dcf_ok st').
Proof.
  unfold tick_one. destruct (time_add _ _) as [u| |]; ret_step; [|done..].
  intros [= <- _]. split_and!; [done..|]. intros (Hp & Hr & Hc & Hb & Hl). unfold dcf_ok. simpl.
  do 3 (split; [done|]). split; [|done]. case_match eqn:E; [|done].
  apply andb_prop in E as [_ E%Z.ltb_lt]. lia.
Qed.

(** The ticks of one function that has packets; a slot is its time and whether the
    link is idle. *)
Fixpoint ticks (slots : list (T * bool)) st : outcome (list bool * DcfStats T) :=
  match slots with
  | [] => Ret ([], st)
  | (now, idle) :: slots =>
      '(st, b) ← tick_one now idle st;
      '(l, st) ← ticks slots st;
      Ret (b :: l, st)
  end.
(** A slot counts when the link is idle and the AIFS (which ends at [u]) is over. *)
Definition counts (u : T) (slot : T * bool) : Z := if slot.2 && time_le u slot.1 then 1 else 0.
Definition counted (u : T) (slots : list (T * bool)) : Z := foldr (λ s n, counts u s + n) 0 slots.
(** When the function contends: the counter [b] is used up by the slots counted so
    far, of which there is at least one. *)
Fixpoint contention (u : T) (b n : Z) (slots : list (T * bool)) : list bool :=
  match slots with
  | [] => []
  | s :: slots =>
      let n := n + counts u s in
      ((b <=? n) && (1 <=? n)) :: contention u b n slots
  end.
Definition before (s s' : T * bool) : Prop := nanos s.1 ≤ nanos s'.1.

Lemma counts_range u s : 0 ≤ counts u s ≤ 1.
Proof. unfold counts. destruct (_ && _); lia. Qed.
Lemma counted_nonneg u slots : 0 ≤ counted u slots.
Proof. induction slots as [|s slots IH]; simpl; [done|]. pose proof (counts_range u s). lia. Qed.

Lemma tick_one_counts now idle st u b n :
  time_add (medium_free_since st) (aifs (param st)) = Ret u →
  0 ≤ b → 0 ≤ n → backoff_counter st = Z.max 0 (b - n) → backoff_frozen st = (n =? 0) →
  (0 < n → nanos u ≤ nanos now) →
  tick_one now idle st =
    let n' := n + counts u (now, idle) in
    Ret (set_backoff (Z.max 0 (b - n')) (n' =? 0) st, (b <=? n') && (1 <=? n')).
Proof.
  intros Hu Hb Hn Hc Hf Hafter. unfold tick_one. rewrite Hu, Hf, Hc. ret_step.
  unfold counts. cbn [fst snd].
  destruct (time_le u now) eqn:Et; [|apply time_le_false in Et];
    destruct idle; cbn [andb]; (f_equal; f_equal; [f_equal|]); cbn [negb]; repeat case_match; lia.
Qed.

Lemma ticks_counts slots : ∀ st u b n,
  time_add (medium_free_since st) (aifs (param st)) = Ret u →
  0 ≤ b → 0 ≤ n → backoff_counter st = Z.max 0 (b - n) → backoff_frozen st = (n =? 0) →
  (0 < n → Forall (λ s, nanos u ≤ nanos s.1) slots) → StronglySorted before slots →
  let n' := n + counted u slots in
  ticks slots st = Ret (contention u b n slots, set_backoff (Z.max 0 (b - n')) (n' =? 0) st).
Proof.
  induction slots as [|[now idle] slots IH]; intros st u b n Hu Hb Hn Hc Hf Hafter Hs; simpl.
  - rewrite Z.add_0_r, <-Hc, <-Hf. by destruct st.
  - apply StronglySorted_inv in Hs as [Hs Hhd].
    assert (0 < n → nanos u ≤ nanos now ∧ Forall (λ s, nanos u ≤ nanos s.1) slots) as Hafter'.
    { intros Hp. specialize (Hafter Hp). by inversion Hafter. }
    rewrite (tick_one_counts now idle st u b n) by naive_solver. ret_step.
    pose proof (counts_range u (now, idle)).
    rewrite (IH _ u b (n + counts u (now, idle))); ret_step; try done; try lia.
    + unfold set_backoff. simpl. by rewrite Z.add_assoc.
    + unfold counts. simpl. intros Hp. destruct (decide (0 < n)) as [Hpn|]; [by apply Hafter'|].
      destruct idle, (time_le u now) eqn:Et; simpl in Hp; try lia. apply time_le_spec in Et.
      eapply Forall_impl; [exact Hhd|]. unfold before. simpl. lia.
Qed.

(** A frozen function with packets counts exactly the slots that are idle and
    after its AIFS: it contends at a slot when those counted so far, that slot
    included, have used up its counter; no other slot changes anything. *)
Theorem slot_countdown st u slots : dcf_ok st → backoff_frozen st = true →
  time_add (medium_free_since st) (aifs (param st)) = Ret u → StronglySorted before slots →
  let b := backoff_counter st in
  ticks slots st =
    Ret (contention u b 0 slots,
         set_backoff (Z.max 0 (b - counted u slots)) (counted u slots =? 0) st).
Proof.
  intros Hok Hf Hu Hs. assert (0 ≤ backoff_counter st) by apply Hok.
  apply (ticks_counts slots st u (backoff_counter st) 0); try done; lia.
Qed.

(** ** The slot tick of all functions *)
Definition active_key (active : gmap (Z * EdcaAc) Z) (k : MacKey) : bool :=
  negb (default 0 (active !! (key_sta k, key_ac k)) =? 0).
(** What the tick of one entry of the table may do. *)
Definition ticked (now : T) (mediums : gmap Z (Medium T)) (st st' : DcfStats T) (b : bool) : Prop :=
  (st' = st ∧ b = false) ∨
  ∃ m, mediums !! key_link (mac_key st) = Some m ∧ tick_one now (is_idle m now) st = Ret (st', b).

Lemma elem_of_push_ready k k' l ready :
  k' ∈ default [] (push_ready k ready !! l) ↔ k' ∈ default [] (ready !! l) ∨ (k' = k ∧ l = key_link k).
Proof.
  unfold push_ready. destruct (decide (l = key_link k)) as [->|Hne].
  - rewrite lookup_insert_eq. simpl. rewrite elem_of_app, list_elem_of_singleton. naive_solver.
  - rewrite lookup_insert_ne by done. naive_solver.
Qed.

Lemma tick_loop_spec now mediums active sts : ∀ ready sts' ready',
  tick_loop now mediums active sts ready = Ret (sts', ready') →
  ∃ bs, length bs = length sts ∧ length sts' = length sts ∧
    (∀ i st, sts !! i = Some st →
       ∃ st' b, sts' !! i = Some st' ∧ bs !! i = Some b ∧ ticked now mediums st st' b) ∧
    (∀ l k, k ∈ default [] (ready' !! l) ↔ k ∈ default [] (ready !! l) ∨
       ∃ i st, sts !! i = Some st ∧ bs !! i = Some true ∧ mac_key st = k ∧ key_link k = l).
Proof.
  induction sts as [|st sts IH]; intros ready sts' ready'; simpl.
  { intros [= <- <-]. exists []. split_and!; [done..|]. intros l k. split; [by left|]. naive_solver. }
  destruct (Z.eqb_spec (default 0 (active !! (key_sta (mac_key st), key_ac (mac_key st)))) 0).
  - intros [[sts1 r1] [E [= <- <-]]]%bind_Ret. destruct (IH _ _ _ E) as (bs & L1 & L2 & Hi & Hr).
    exists (false :: bs). simpl. split_and!; [lia..| |].
    + intros [|i] s Hs; simpl in *; [|by apply Hi]. simplify_eq. exists s, false. split_and!; [done..|by left].
    + intros l k. rewrite Hr. split; (intros [?|(i & s & Hs & Hb & Hk)]; [by left|]).
      * right. by exists (S i), s.
      * destruct i as [|i]; simpl in *; [done|]. right. by exists i, s.
  - intros [m [Em%unwrap_Ret [[st1 b] [Et [[sts1 r1] [E [= <- <-]]]%bind_Ret]]%bind_Ret]]%bind_Ret.
    destruct (IH _ _ _ E) as (bs & L1 & L2 & Hi & Hr).
    exists (b :: bs). simpl. split_and!; [lia..| |].
    + intros [|i] s Hs; simpl in *; [|by apply Hi]. simplify_eq. exists st1, b. split_and!; [done..|].
      right. eauto.
    + intros l k. rewrite Hr. unfold push_if. destruct b; [rewrite elem_of_push_ready|]; split.
      * intros [[?|[-> ->]]|(i & s & Hs & Hb & Hk)]; [by left| |].
        { right. by exists 0%nat, st. } { right. by exists (S i), s. }
      * intros [?|([|i] & s & Hs & Hb & Hk)]; [by do 2 left| |]; simpl in *; [|right; by exists i, s].
        simplify_eq. left. right. naive_solver.
      * intros [?|(i & s & Hs & Hb & Hk)]; [by left|]. right. by exists (S i), s.
      * intros [?|([|i] & s & Hs & Hb & Hk)]; [by left|done|]. right. by exists i, s.
Qed.

(** The contenders of a link are pushed in the order of the table. *)
Lemma tick_loop_sublist now mediums active sts l : ∀ ready sts' ready',
  tick_loop now mediums active sts ready = Ret (sts', ready') →
  ∃ ks, default [] (ready' !! l) = default [] (ready !! l) ++ ks ∧ ks `sublist_of` (mac_key <$> sts).
Proof.
  induction sts as [|st sts IH]; intros ready sts' ready'; simpl.
  { intros [= <- <-]. exists []. by rewrite app_nil_r. }
  destruct (default 0 _ =? 0).
  - intros ([sts1 r1] & E & [= <- <-])%bind_Ret. destruct (IH _ _ _ E) as (ks & E1 & E2).
    exists ks. split; [done|]. by apply sublist_cons.
  - intros (m & _ & ([st1 b] & _ & ([sts1 r1] & E & [= <- <-])%bind_Ret)%bind_Ret)%bind_Ret.
    destruct (IH _ _ _ E) as (ks & E1 & E2). unfold push_if, push_ready in E1.
    destruct b; [destruct (decide (l = key_link (mac_key st))) as [->|Hne]|].
    + rewrite lookup_insert_eq in E1. simpl in E1. rewrite <-(assoc_L (++)) in E1.
      exists (mac_key st :: ks). split; [done|]. by apply sublist_skip.
    + rewrite lookup_insert_ne in E1 by done. exists ks. split; [done|]. by apply sublist_cons.
    + exists ks. split; [done|]. by apply sublist_cons.
Qed.

(** ** The table of functions *)
(** The index and the table agree on who is where. *)
Definition table_ok (index : gmap MacKey nat) (v : list (DcfStats T)) : Prop :=
  (∀ i st, v !! i = Some st → index !! mac_key st = Some i) ∧
  (∀ k i, index !! k = Some i → ∃ st, v !! i = Some st ∧ mac_key st = k).
Definition all_ok (v : list (DcfStats T)) : Prop := Forall dcf_ok v.
(** Same functions, in the same places. *)
Definition same_keys (v v' : list (DcfStats T)) : Prop := mac_key <$> v' = mac_key <$> v.

Lemma table_ok_NoDup index v : table_ok index v → NoDup (mac_key <$> v).
Proof.
  intros [Ht _]. apply NoDup_alt. intros i j k. rewrite !list_lookup_fmap, !fmap_Some.
  intros (st & Hi & ->) (st' & Hj & E). apply Ht in Hi, Hj. rewrite E in Hi. congruence.
Qed.
Lemma same_keys_length v v' : same_keys v v' → length v' = length v.
Proof. intros E%(f_equal length). by rewrite !length_fmap in E. Qed.
Lemma same_keys_lookup v v' i st : same_keys v v' → v' !! i = Some st →
  ∃ st0, v !! i = Some st0 ∧ mac_key st0 = mac_key st.
Proof.
  intros E Hi. assert ((mac_key <$> v) !! i = Some (mac_key st)) as Hk.
  { unfold same_keys in E. rewrite <-E, list_lookup_fmap, Hi. done. }
  rewrite list_lookup_fmap in Hk. destruct (v !! i) as [s|]; naive_solver.
Qed.
Lemma table_ok_same_keys index v v' : same_keys v v' → table_ok index v → table_ok index v'.
Proof.
  intros E [H1 H2]. split.
  - intros i st Hi. destruct (same_keys_lookup v v' i st E Hi) as (s & Hs & <-). by apply H1.
  - intros k i Hk. destruct (H2 k i Hk) as (s & Hs & Hks).
    destruct (same_keys_lookup v' v i s) as (s' & Hs' & Hk'); [by symmetry|done|]. exists s'. naive_solver.
Qed.
Lemma same_keys_insert v i st st' : v !! i = Some st → mac_key st' = mac_key st → same_keys v (<[i:=st']> v).
Proof.
  intros Hi E. unfold same_keys. rewrite list_fmap_insert, E. apply list_insert_id.
  by rewrite list_lookup_fmap, Hi.
Qed.
Lemma same_keys_trans v1 v2 v3 : same_keys v1 v2 → same_keys v2 v3 → same_keys v1 v3.
Proof. unfold same_keys. congruence. Qed.

(** ** Virtual collisions *)
(** The state after a failure. *)
Definition failed st : DcfStats T := match on_failure st with Ret (_, st') => st' | _ => st end.
Lemma failed_ok st : dcf_ok st → dcf_ok (failed st) ∧ mac_key (failed st) = mac_key st ∧
  backoff_frozen (failed st) = backoff_frozen st ∧ medium_free_since (failed st) = medium_free_since st ∧
  snd <$> on_failure st = Ret (failed st).
Proof.
  intros Hok. destruct (on_failure_ok st Hok) as (st' & E & H1 & H2 & H3 & H4 & H5).
  unfold failed. by rewrite E.
Qed.
Lemma dcf_mut_ok index k f v st i : index !! k = Some i → v !! i = Some st →
  dcf_mut index k f v = (st' ← f st; Ret (<[i:=st']> v)).
Proof. intros E1 E2. unfold dcf_mut. by rewrite E1; cbn [unwrap mbind outcome_bind]; rewrite E2. Qed.

Lemma all_ok_insert v i st : all_ok v → dcf_ok st → all_ok (<[i:=st]> v).
Proof. intros. by apply Forall_insert. Qed.

Lemma virtual_loop_spec index ready : ∀ w v,
  table_ok index v → all_ok v → NoDup ready → Forall (λ k, is_Some (index !! k)) ready →
  (∀ s k, w !! s = Some k → k ∉ ready) →
  ∃ w' v', virtual_loop index ready w v = Ret (w', v') ∧
    (∀ s, w' !! s = match w !! s with
                    | Some k => Some k
                    | None => head (filter (λ k, key_sta k = s) ready)
                    end) ∧
    same_keys v v' ∧ all_ok v' ∧
    ∀ i st, v !! i = Some st → v' !! i = Some
      (if bool_decide (mac_key st ∈ ready ∧ w' !! key_sta (mac_key st) ≠ Some (mac_key st))
       then failed st else st).
Proof.
  induction ready as [|k ready IH]; intros w v Ht Hok Hnd Hidx Hw; cbn [virtual_loop].
  { exists w, v. split_and!; [done| |done|done|].
    - intros s. by destruct (w !! s).
    - intros i st Hi. rewrite bool_decide_false; [done|]. set_solver. }
  apply NoDup_cons in Hnd as [Hk Hnd]. apply Forall_cons in Hidx as [[i Hi] Hidx].
  destruct (w !! key_sta k) as [k0|] eqn:Ew.
  - destruct (proj2 Ht k i Hi) as (st & Hst & Hkey).
    destruct (failed_ok st) as (F1 & F2 & _ & _ & F5); [by eapply Forall_lookup_1|].
    unfold fail_one. rewrite (dcf_mut_ok _ _ _ _ st i) by done. rewrite F5. ret_step.
    assert (same_keys v (<[i:=failed st]> v)) as Hsk by by eapply same_keys_insert.
    destruct (IH w (<[i:=failed st]> v)) as (w' & v' & E & Hw' & Hs & Hok' & Hv'); [|by apply all_ok_insert|done..| |].
    { by eapply table_ok_same_keys. } { intros s k1 Hs. specialize (Hw s k1 Hs). set_solver. }
    exists w', v'. split_and!; [done| |by eapply same_keys_trans|done|].
    + intros s. rewrite Hw'. destruct (w !! s) eqn:Es; [done|].
      rewrite filter_cons_False; [done|]. intros <-. congruence.
    + intros j s Hj. destruct (decide (j = i)) as [->|Hne].
      * assert (s = st) as -> by congruence. rewrite (bool_decide_true (_ ∧ _)).
        -- rewrite (Hv' i (failed st)) by (apply list_lookup_insert_eq; by eapply lookup_lt_Some).
           rewrite bool_decide_false; [done|]. rewrite F2, Hkey. tauto.
        -- rewrite Hkey. split; [set_solver|]. rewrite Hw', Ew. intros [= ->]. apply (Hw _ _ Ew). set_solver.
      * rewrite (Hv' j s) by (by rewrite list_lookup_insert_ne). f_equal.
        assert (mac_key s ≠ k) by (intros <-; apply (proj1 Ht) in Hj; congruence).
        apply (f_equal (λ b : bool, if b then failed s else s)). apply bool_decide_ext. set_solver.
  - destruct (IH (<[key_sta k:=k]> w) v) as (w' & v' & E & Hw' & Hs & Hok' & Hv'); [done..| |].
    { intros s k1. rewrite lookup_insert_Some. intros [[_ <-]|[_ Hs]]; [done|].
      specialize (Hw s k1 Hs). set_solver. }
    exists w', v'. split_and!; [done| |done|done|].
    + intros s. rewrite Hw'. destruct (decide (s = key_sta k)) as [->|Hne].
      * rewrite lookup_insert_eq, Ew. by rewrite filter_cons_True.
      * rewrite lookup_insert_ne by done. by rewrite filter_cons_False.
    + intros j s Hj. rewrite (Hv' j s Hj). f_equal.
      apply (f_equal (λ b : bool, if b then failed s else s)). apply bool_decide_ext.
      rewrite elem_of_cons. split; [tauto|]. intros [[->|?] Hn]; [|done]. destruct Hn.
      by rewrite Hw', lookup_insert_eq.
Qed.

Lemma insert_prio_perm k l : insert_prio k l ≡ₚ k :: l.
Proof. induction l as [|k' l IH]; simpl; [done|]. case_match; [done|]. rewrite IH. apply Permutation_swap. Qed.
Lemma sort_prio_perm l : sort_prio l ≡ₚ l.
Proof. induction l as [|k l IH]; simpl; [done|]. by rewrite insert_prio_perm, IH. Qed.
Definition prio_le (a b : MacKey) : Prop := ac_prio (key_ac a) ≤ ac_prio (key_ac b).
Lemma insert_prio_sorted k l : StronglySorted prio_le l → StronglySorted prio_le (insert_prio k l).
Proof.
  induction 1 as [|k' l Hs IH Hall]; simpl; [by repeat constructor|].
  destruct (Z.leb_spec (ac_prio (key_ac k)) (ac_prio (key_ac k'))).
  - constructor; [by constructor|]. constructor; [done|]. eapply Forall_impl; [exact Hall|].
    unfold prio_le. lia.
  - constructor; [done|]. rewrite insert_prio_perm. constructor; [unfold prio_le; lia|done].
Qed.
Lemma sort_prio_sorted l : StronglySorted prio_le (sort_prio l).
Proof. induction l; simpl; [constructor|]. by apply insert_prio_sorted. Qed.

Lemma sorted_head_filter s l k : StronglySorted prio_le l →
  head (filter (λ k, key_sta k = s) l) = Some k →
  k ∈ l ∧ key_sta k = s ∧ ∀ k', k' ∈ l → key_sta k' = s → prio_le k k'.
Proof.
  induction 1 as [|k0 l Hs IH Hall]; [done|]. destruct (decide (key_sta k0 = s)) as [E|E].
  - rewrite filter_cons_True by done. intros [= <-]. split_and!; [set_solver|done|].
    intros k' [->|Hk']%elem_of_cons _; [unfold prio_le; lia|]. by eapply Forall_forall in Hk'.
  - rewrite filter_cons_False by done. intros (H1 & H2 & H3)%IH. split_and!; [set_solver|done|].
    intros k' [->|Hk']%elem_of_cons Hks; [done|]. by apply H3.
Qed.

(** C26: Virtual collisions of the ready functions of one link: every station keeps
    exactly one contender, the one of its highest-priority category; every other
    ready function backs off as after a failure, and no other function changes.
    Nothing panics. *)
Theorem virtual_collision_exact `{!HashOrder} index ready v l :
  table_ok index v → all_ok v → NoDup ready →
  Forall (λ k, is_Some (index !! k) ∧ key_link k = l) ready →
  ∃ winners v', resolve_virtual_collision index ready v = Ret (winners, v') ∧
    NoDup (key_sta <$> winners) ∧
    (∀ k, k ∈ winners ↔ k ∈ ready ∧ ∀ k', k' ∈ ready → key_sta k' = key_sta k → prio_le k k') ∧
    (∀ i st, v !! i = Some st → v' !! i = Some
       (if bool_decide (mac_key st ∈ ready ∧ mac_key st ∉ winners) then failed st else st)).
Proof.
  intros Ht Hok Hnd Hidx. unfold resolve_virtual_collision.
  pose proof (sort_prio_perm ready) as Hp.
  destruct (virtual_loop_spec index (sort_prio ready) ∅ v Ht Hok) as (w & v' & E & Hw & Hs & Hok' & Hv').
  { by rewrite Hp. } { rewrite Hp. eapply Forall_impl; [exact Hidx|]. by intros k [? _]. } { done. }
  rewrite E. ret_step. setoid_rewrite lookup_empty in Hw.
  assert (∀ s k, w !! s = Some k → key_sta k = s ∧ k ∈ ready ∧ ∀ k', k' ∈ ready → key_sta k' = s → prio_le k k') as Hwin.
  { intros s k Hk. rewrite Hw in Hk. apply sorted_head_filter in Hk as (W1 & W2 & W3); [|apply sort_prio_sorted].
    rewrite Hp in W1. split_and!; [done..|]. intros k' Hk'. apply W3. by rewrite Hp. }
  assert (∀ k, k ∈ snd <$> hm_iter w ↔ w !! key_sta k = Some k) as Hin.
  { intros k. rewrite hm_iter_perm, list_elem_of_fmap. split.
    - intros ([s k1] & -> & Hk%elem_of_map_to_list). simpl. by destruct (Hwin s k1 Hk) as [-> _].
    - intros Hk. exists (key_sta k, k). split; [done|]. by apply elem_of_map_to_list. }
  exists (snd <$> hm_iter w), v'. split_and!; [done| | |].
  - rewrite <-list_fmap_compose.
    assert ((key_sta ∘ snd) <$> hm_iter w = fst <$> hm_iter w) as ->.
    { apply list_fmap_ext. intros i [s k] Hi%list_elem_of_lookup_2. rewrite hm_iter_perm in Hi.
      apply elem_of_map_to_list in Hi. by destruct (Hwin s k Hi) as [<- _]. }
    rewrite hm_iter_perm. apply NoDup_fst_map_to_list.
  - intros k. rewrite Hin. split.
    + intros Hk. destruct (Hwin _ k Hk) as (_ & W1 & W2). by split.
    + intros [Hk Hmin]. destruct (w !! key_sta k) as [k0|] eqn:Ek.
      * destruct (Hwin _ k0 Ek) as (W1 & W2 & W3). f_equal.
        assert (prio_le k0 k ∧ prio_le k k0) as [L1 L2] by naive_solver.
        rewrite Forall_forall in Hidx. destruct (Hidx k Hk) as [_ Hl], (Hidx k0 W2) as [_ Hl0].
        destruct k as [[s a] x], k0 as [[s0 a0] x0]. unfold prio_le in *.
        cbv [key_sta key_ac key_link fst snd] in *.
        assert (a = a0) by (destruct a, a0; simpl in *; (done || lia)). congruence.
      * rewrite Hw in Ek. assert (k ∈ filter (λ k', key_sta k' = key_sta k) (sort_prio ready)) as Hf.
        { apply list_elem_of_filter. by rewrite Hp. }
        by destruct (filter _ (sort_prio ready)); [apply elem_of_nil in Hf|].
  - intros i st Hi. rewrite (Hv' i st Hi). f_equal.
    apply (f_equal (λ b : bool, if b then failed st else st)). apply bool_decide_ext. by rewrite Hp, Hin.
Qed.
End facts.
End EdcaFacts.
