(* ===== verification/ApFrames.v ===== *)
(** * What the operations of the access point leave alone

    The module's state has two halves that the proofs treat apart: the contention
    half ([mac_part]: functions, media, links on air, events) and the queueing half
    ([queue_part]: queues and their counters).  The lemmas of this file say which
    operation leaves which half unchanged. *)

From S2P Require Import Prelude Scheduler SimRng Airtime Edca EdcaFacts MacData AccessPoint.

(** A loop that stops at a panic. *)
Lemma foldl_panic {A B} (f : A → B → outcome A) l :
  foldl (λ r x, a ← r; f a x) Panic l = Panic ∧ foldl (λ r x, a ← r; f a x) OutOfFuel l = OutOfFuel.
Proof. split; by induction l. Qed.
(** A property kept by every step of a loop that stops at a panic. *)
Lemma foldl_outcome_ind {A B} (Inv : A → Prop) (f : A → B → outcome A) l : ∀ a a',
  Inv a → (∀ a x a', x ∈ l → Inv a → f a x = Ret a' → Inv a') →
  foldl (λ r x, a ← r; f a x) (Ret a) l = Ret a' → Inv a'.
Proof.
  induction l as [|x l IH]; intros a a' Ha Hstep; simpl; [by intros [= <-]|].
  destruct (f a x) as [a1| |] eqn:E.
  - apply IH; [by eapply Hstep; [left|..]|]. intros ????. apply Hstep. by right.
  - by rewrite (proj1 (foldl_panic f l)).
  - by rewrite (proj2 (foldl_panic f l)).
Qed.
(** The same for a loop that cannot panic. *)
Lemma foldl_ind {A B} (Inv : A → Prop) (f : A → B → A) l : ∀ a,
  Inv a → (∀ a x, x ∈ l → Inv a → Inv (f a x)) → Inv (foldl f a l).
Proof.
  induction l as [|x l IH]; intros a Ha Hstep; simpl; [done|].
  apply IH; [by apply Hstep; [left|]|]. intros ???. apply Hstep. by right.
Qed.

Module ApFrames.
Import Rng Ap EdcaFacts.

Section frames.
Context {T P : Type} `{TaiTime T} `{!Epoch T} `{!Rand} `{!HashOrder} `{!PhyEnv} `{!LegacyIds}.
Implicit Types q : QueueModule T P.

Definition mac_part q :=
  (cfg q, dcf_values q, link_mediums q, link_is_transmitting q, slot_tick_pending q, scheduled q).
Definition queue_part q :=
  (cfg q, per_flow_queues q, link_queue_depths q, active_mac_key_counts q).

Lemma mac_part_scheduled q q' : mac_part q' = mac_part q → scheduled q' = scheduled q.
Proof. by intros [= _ _ _ _ _ ->]. Qed.
Lemma queue_part_cfg q q' : queue_part q' = queue_part q → cfg q' = cfg q.
Proof. by intros [= -> _ _ _]. Qed.
Lemma mac_part_cfg q q' : mac_part q' = mac_part q → cfg q' = cfg q.
Proof. by intros [= -> _ _ _ _ _]. Qed.

(** ** Operations on the queues *)
Lemma set_queue_mac i l q : mac_part (set_queue i l q) = mac_part q.
Proof. done. Qed.
Lemma update_window_mac k mcs d s now q : mac_part (update_window_stats k mcs d s now q) = mac_part q.
Proof. done. Qed.
Lemma update_window_queue k mcs d s now q : queue_part (update_window_stats k mcs d s now q) = queue_part q.
Proof. done. Qed.
Lemma decr_depth_mac l q : mac_part (decr_depth l q) = mac_part q.
Proof. unfold decr_depth. by case_match. Qed.
Lemma decr_active_mac k q : mac_part (decr_active k q) = mac_part q.
Proof. unfold decr_active. by case_match. Qed.
Lemma uncache_mac f n q : mac_part (uncache f n q) = mac_part q.
Proof. unfold uncache. by case_match. Qed.
Lemma uncache_queue f n q : queue_part (uncache f n q) = queue_part q.
Proof. unfold uncache. by case_match. Qed.
Lemma count_drop_mac l k q : mac_part (count_drop l k q) = mac_part q.
Proof. unfold count_drop. by rewrite decr_active_mac, decr_depth_mac. Qed.
Lemma count_sent_mac q p : mac_part (count_sent q p) = mac_part q.
Proof. unfold count_sent. rewrite decr_active_mac. case_match; [apply decr_depth_mac|done]. Qed.
Lemma count_all_sent_mac l q : mac_part (count_all_sent l q) = mac_part q.
Proof.
  unfold count_all_sent. apply (foldl_ind (λ q', mac_part q' = mac_part q)).
  - apply (foldl_ind (λ q', mac_part q' = mac_part q)); [done|]. intros. by rewrite count_sent_mac.
  - intros. by rewrite uncache_mac.
Qed.
Lemma select_link_mac p now q l q' : select_link_for_packet p now q = Ret (l, q') →
  mac_part q' = mac_part q ∧ queue_part q' = queue_part q.
Proof.
  unfold select_link_for_packet. destruct (_ !! _) as [[|l1 [|l2 ls]]|]; try (by intros [= <- <-]).
  destruct (mlo_linkselection_strat _).
  2: { intros (? & ? & [= <- <-])%bind_Ret. done. }
  6: { by intros [= <- <-]. }
  all: unfold select_mlo_channel_opportunistic; destruct (link_idle _ _ _), (link_idle _ _ _);
    try (by intros [= <- <-]); destruct (gen_bool_half _); by intros [= <- <-].
Qed.
Lemma cache_input_mac p l q q' : cache_input_packet p l q = Ret q' →
  mac_part q' = mac_part q ∧ queue_part q' = queue_part q.
Proof.
  unfold cache_input_packet. intros (? & _ & (? & _ & (? & _ & [= <-])%bind_Ret)%bind_Ret)%bind_Ret. done.
Qed.
Lemma push_packet_mac k p q q' : push_packet k p q = Ret q' → mac_part q' = mac_part q.
Proof. unfold push_packet. by intros (? & _ & (? & _ & [= <-])%bind_Ret)%bind_Ret. Qed.

Lemma draw_losses_mac now l r ps : ∀ q sent q', draw_losses now l r ps q = Ret (sent, q') →
  mac_part q' = mac_part q ∧ queue_part q' = queue_part q.
Proof.
  induction ps as [|p ps IH]; intros q sent q'; simpl; [by intros [= <- <-]|].
  intros (d & _ & E)%bind_Ret. destruct (gen_f64 _) as [v g]. case_match.
  - by apply IH in E.
  - inv_ret E as ([ok q1] & E & [= <- <-]). by apply IH in E.
Qed.
Lemma pop_sources_mac s q q' : pop_sources s q = Ret q' → mac_part q' = mac_part q.
Proof.
  apply (foldl_outcome_ind (λ q', mac_part q' = mac_part q)
    (λ (q : QueueModule T P) s, l ← queue_at s.1 q; Ret (set_queue s.1 (drop s.2 l) q))); [done|].
  intros q0 x q1 _ IH (l & _ & [= <-])%bind_Ret. by rewrite set_queue_mac.
Qed.
Lemma remove_taken_mac ul s snap q q' : remove_taken ul s snap q = Ret q' → mac_part q' = mac_part q.
Proof.
  unfold remove_taken. destruct ul; [apply pop_sources_mac|].
  apply (foldl_outcome_ind (λ q', mac_part q' = mac_part q)); [done|].
  unfold retain_not_taken. intros q0 x q1 _ IH (l & _ & [= <-])%bind_Ret. by rewrite set_queue_mac.
Qed.
Lemma requeue_mac f q q' : requeue f q = Ret q' → mac_part q' = mac_part q.
Proof.
  unfold requeue. apply (foldl_outcome_ind (λ q', mac_part q' = mac_part q)
    (λ (q : QueueModule T P) (e : nat * list (MpduPacket T P)), requeue_one e.1 e.2 q)); [done|].
  unfold requeue_one. intros q0 x q1 _ IH (l & _ & [= <-])%bind_Ret. by rewrite set_queue_mac.
Qed.

Lemma drop_back_mac l k i n q d q' : drop_back l k i n q = Ret (d, q') → mac_part q' = mac_part q.
Proof.
  unfold drop_back. intros (ps & _ & [= <- <-])%bind_Ret.
  apply (foldl_ind (λ q', mac_part q' = mac_part q)); [done|].
  intros. by rewrite uncache_mac, count_drop_mac.
Qed.
Lemma drop_front_mac l k f i n q d q' : drop_front l k f i n q = Ret (d, q') → mac_part q' = mac_part q.
Proof.
  unfold drop_front. intros (ps & _ & E)%bind_Ret. destruct (drop_dest _ _ _) as [d1 l1].
  injection E as <- <-. rewrite uncache_mac. clear. induction d1 as [|d1 IH]; [done|].
  simpl Nat.iter. by rewrite count_drop_mac.
Qed.
Lemma drop_on_link_mac f ac l n q d q' : drop_on_link f ac l n q = Ret (d, q') → mac_part q' = mac_part q.
Proof.
  unfold drop_on_link. case_match; [by intros [= <- <-]|]. case_match; [|by intros [= <- <-]].
  intros ([d1 q1] & E & [= <- <-])%bind_Ret. case_match; [by eapply drop_back_mac|by eapply drop_front_mac].
Qed.
Lemma drop_ac_mac f n ls ac q q' : drop_ac f n ls ac q = Ret q' → mac_part q' = mac_part q.
Proof.
  unfold drop_ac. intros ([n1 q1] & E & [= <-])%bind_Ret.
  change q1 with (n1, q1).2. revert E.
  apply (foldl_outcome_ind (λ nq, mac_part nq.2 = mac_part q)
    (λ (nq : nat * QueueModule T P) l, let '(n, q) := nq in drop_on_link f ac l n q)); [done|].
  intros [n0 q0] x [n2 q2] _ IH E. apply drop_on_link_mac in E. simpl in *. congruence.
Qed.
Lemma drop_overflow_mac q q' : drop_overflow q = Ret q' → mac_part q' = mac_part q.
Proof.
  unfold drop_overflow. apply (foldl_outcome_ind (λ q', mac_part q' = mac_part q)
    (λ (q : QueueModule T P) e, drop_flow (hm_iter (link_mediums q)).*1 e q)); [done|].
  intros q0 x q1 _ IH. unfold drop_flow.
  apply (foldl_outcome_ind (λ q', mac_part q' = mac_part q)); [done|].
  intros q2 ac q3 _ IH2 E%drop_ac_mac. congruence.
Qed.

(** ** Operations on the contention state *)
Lemma dcf_update_queue k f q q' : dcf_update k f q = Ret q' → queue_part q' = queue_part q.
Proof. unfold dcf_update. by intros (v & _ & [= <-])%bind_Ret. Qed.
Lemma schedule_queue now d e q q' : schedule now d e q = Ret q' → queue_part q' = queue_part q.
Proof. unfold schedule. intros (t & _ & E)%bind_Ret. case_match; by simplify_eq. Qed.
Lemma schedule_tick_queue now q q' : schedule_tick now q = Ret q' → queue_part q' = queue_part q.
Proof. unfold schedule_tick. case_match; [by intros [= <-]|]. by intros E%schedule_queue. Qed.
Lemma with_medium_queue l f q q' : with_medium l f q = Ret q' → queue_part q' = queue_part q.
Proof. unfold with_medium. case_match; [by intros (? & _ & [= <-])%bind_Ret|by intros [= <-]]. Qed.
Lemma collision_stats_parts now l t ks q q' : collision_stats now l t ks q = Ret q' →
  mac_part q' = mac_part q ∧ queue_part q' = queue_part q.
Proof.
  unfold collision_stats. apply (foldl_outcome_ind (λ q', mac_part q' = mac_part q ∧ queue_part q' = queue_part q)
    (λ (q : QueueModule T P) k, u ← collision_update now l t k q; Ret (send_stats u q))); [done|].
  by intros q0 x q1 _ IH (u & _ & [= <-])%bind_Ret.
Qed.
Lemma collision_window_parts now_s t ks q :
  mac_part (foldl (collision_window now_s t) q ks) = mac_part q ∧
  queue_part (foldl (collision_window now_s t) q ks) = queue_part q.
Proof.
  apply (foldl_ind (λ q', mac_part q' = mac_part q ∧ queue_part q' = queue_part q)); [done|].
  intros q0 x _ [<- <-]. done.
Qed.
Lemma fail_all_queue ks q q' : foldl (λ r k, q ← r; fail_key k q) (Ret q) ks = Ret q' → queue_part q' = queue_part q.
Proof.
  apply (foldl_outcome_ind (λ q', queue_part q' = queue_part q)); [done|].
  intros q0 x q1 _ IH E%dcf_update_queue. congruence.
Qed.
Lemma handle_collision_queue now l ks q q' : handle_collision now l ks q = Ret q' → queue_part q' = queue_part q.
Proof.
  unfold handle_collision. intros (d & _ & (u & _ & (q1 & E1 & E)%bind_Ret)%bind_Ret)%bind_Ret.
  inv_ret E as (q2 & E2 & E). inv_ret E as (s & _ & E).
  inv_ret E as (q3 & E3 & E). inv_ret E as (q4 & E4 & [= <-]).
  apply with_medium_queue in E1. apply fail_all_queue in E2.
  apply collision_stats_parts in E3 as [_ E3]. apply schedule_queue in E4.
  destruct (collision_window_parts s (F64.of_f32 collision_delay) ks (freeze_link l u q2)) as [_ E5].
  change (queue_part (set_slot_tick_pending true q4)) with (queue_part q4).
  rewrite E4, E3, E5, <-E1, <-E2. done.
Qed.
Lemma skip_transmission_queue now l w q q' : skip_transmission now l w q = Ret q' → queue_part q' = queue_part q.
Proof. unfold skip_transmission. intros (q1 & E1%dcf_update_queue & E2%schedule_tick_queue)%bind_Ret. by rewrite E2, E1. Qed.
Lemma start_transmission_queue now l w a d q q' : start_transmission now l w a d q = Ret q' → queue_part q' = queue_part q.
Proof.
  unfold start_transmission.
  intros (u & _ & (q1 & E1%with_medium_queue & E2%schedule_queue)%bind_Ret)%bind_Ret. by rewrite E2, <-E1.
Qed.
Lemma drain_stats_parts a s q : mac_part (drain_stats a s q) = mac_part q ∧ queue_part (drain_stats a s q) = queue_part q.
Proof. unfold drain_stats. by case_match. Qed.
Lemma put_output_parts a q : mac_part (put_output a q) = mac_part q ∧ queue_part (put_output a q) = queue_part q.
Proof. unfold put_output. by case_match. Qed.
Lemma end_transmission_queue now a q : queue_part (end_transmission now a q) = queue_part q.
Proof. unfold end_transmission, release_link. by case_match. Qed.
End frames.
End ApFrames.
