(* ===== verification/MacSafety.v ===== *)
(** * Safety of channel access

    The invariant of the contention half of the access point, kept by every
    handler: the table of functions is well formed, a link on air has its
    completion scheduled, every function of such a link waits for the end of the
    transmission, and no function counts down on a busy medium. *)

From S2P Require Import Prelude Scheduler F32 SimRng Airtime Edca EdcaFacts MacData AccessPoint ApFrames.

Module MacSafety.
Import Rng Ap EdcaFacts ApFrames.

Section safety.
Context {T P : Type} `{TaiTime T} `{!Epoch T} `{!Rand} `{!HashOrder} `{!PhyEnv} `{!LegacyIds}.
Implicit Types q : QueueModule T P.
Implicit Types st : DcfStats T.

Lemma elem_of_snoc {A} (l : list A) (x : A) : x ∈ l ++ [x].
Proof. apply elem_of_app. right. by left. Qed.

(** The links of the A-MPDUs on air: their completion is a pending event. *)
Definition sending_links (l : list (T * Event T P)) : list Z :=
  omap (λ e, match e.2 with SendAmpdu a => Some (link_id a) | Service => None end) l.
#[local] Arguments sending_links : simpl never.
Definition on_air q (l : Z) : Prop := l ∈ sending_links (scheduled q).

(** The function waits at least until [t]. *)
Definition waits_until (t : T) st : Prop :=
  backoff_frozen st = true ∧ nanos t ≤ nanos (medium_free_since st).

(** [x] is a link whose medium has just been occupied, [y] one that is marked as
    transmitting before its completion is scheduled; [None] between handlers. *)
Record minv (x y : option Z) (now : T) q : Prop := {
  mi_table : table_ok (mac_key_index (cfg q)) (dcf_values q);
  mi_ok : all_ok (dcf_values q);
  mi_future : ∀ t e, (t, e) ∈ scheduled q → nanos now ≤ nanos t;
  mi_one : NoDup (sending_links (scheduled q));
  mi_waits : ∀ t a st, (t, SendAmpdu a) ∈ scheduled q → st ∈ dcf_values q →
    key_link (mac_key st) = link_id a → waits_until t st;
  mi_nav : ∀ l m, link_mediums q !! l = Some m → nanos (nav_until m) ≤ nanos now;
  mi_carrier : ∀ st m, st ∈ dcf_values q → Some (key_link (mac_key st)) ≠ x →
    link_mediums q !! key_link (mac_key st) = Some m →
    nanos (busy_until m) ≤ nanos now ∨ waits_until (busy_until m) st;
  mi_tick : slot_tick_pending q = true → ∃ t, (t, Service) ∈ scheduled q;
  mi_tx : ∀ l, link_is_transmitting q !! l = Some true → Some l ≠ y → on_air q l;
  mi_cover : ∀ k, is_Some (mac_key_index (cfg q) !! k) → is_Some (link_is_transmitting q !! key_link k)
}.
Abbreviation mac_inv := (minv None None).

Lemma minv_part x y now q q' : mac_part q' = mac_part q → minv x y now q → minv x y now q'.
Proof.
  unfold mac_part. intros [= E1 E2 E3 E4 E5 E6] [].
  split; unfold on_air in *; rewrite ?E1, ?E2, ?E3, ?E4, ?E5, ?E6; done.
Qed.
Lemma minv_later x y now now' q : nanos now ≤ nanos now' →
  (∀ t e, (t, e) ∈ scheduled q → nanos now' ≤ nanos t) → minv x y now q → minv x y now' q.
Proof.
  intros Hle Hf []. split; try done.
  - intros l m Hl. specialize (mi_nav0 l m Hl). lia.
  - intros st m Hst Hx Hm. destruct (mi_carrier0 st m Hst Hx Hm); [left; lia|by right].
Qed.

Lemma elem_of_sending l ev : l ∈ sending_links ev ↔ ∃ t a, (t, SendAmpdu a) ∈ ev ∧ link_id a = l.
Proof.
  unfold sending_links. rewrite list_elem_of_omap. split.
  - intros ([t [|a]] & Hin & E); simpl in E; [done|]. exists t, a. naive_solver.
  - intros (t & a & Hin & <-). by exists (t, SendAmpdu a).
Qed.
Lemma sending_app l1 l2 : sending_links (l1 ++ l2) = sending_links l1 ++ sending_links l2.
Proof. apply omap_app. Qed.

(** ** Updates of the functions that do not touch their waiting *)
Definition same_wait (v v' : list (DcfStats T)) : Prop :=
  Forall2 (λ st st', mac_key st' = mac_key st ∧ backoff_frozen st' = backoff_frozen st ∧
                     medium_free_since st' = medium_free_since st) v v'.
Lemma same_wait_keys v v' : same_wait v v' → same_keys v v'.
Proof.
  unfold same_wait, same_keys. induction 1 as [|st st' v v' [E _] _ IH]; [done|]. csimpl. congruence.
Qed.
Lemma same_wait_elem v v' st' : same_wait v v' → st' ∈ v' →
  ∃ st, st ∈ v ∧ mac_key st' = mac_key st ∧ backoff_frozen st' = backoff_frozen st ∧
        medium_free_since st' = medium_free_since st.
Proof.
  intros Hs [i Hi]%list_elem_of_lookup_1. destruct (Forall2_lookup_r _ _ _ _ _ Hs Hi) as (st & Hst & E).
  exists st. split; [by eapply list_elem_of_lookup_2|done].
Qed.
Lemma same_wait_insert v i st st' : v !! i = Some st → mac_key st' = mac_key st →
  backoff_frozen st' = backoff_frozen st → medium_free_since st' = medium_free_since st →
  same_wait v (<[i:=st']> v).
Proof.
  intros Hi E1 E2 E3. apply Forall2_same_length_lookup. split; [by rewrite length_insert|].
  intros j s s' Hs Hs'. destruct (decide (j = i)) as [->|Hne].
  - rewrite list_lookup_insert_eq in Hs' by (by eapply lookup_lt_Some). naive_solver.
  - rewrite list_lookup_insert_ne in Hs' by done. naive_solver.
Qed.
Lemma minv_same_wait x y now q v : minv x y now q → same_wait (dcf_values q) v → all_ok v →
  minv x y now (set_dcf_values v q).
Proof.
  intros [] Hs Hok. split; try done.
  - cbn. eapply table_ok_same_keys; [by apply same_wait_keys|done].
  - cbn. intros t a st' Ht Hst' Hl. destruct (same_wait_elem _ _ _ Hs Hst') as (st & Hst & E1 & E2 & E3).
    rewrite E1 in Hl. unfold waits_until. rewrite E2, E3. by eapply mi_waits0.
  - cbn. intros st' m Hst' Hx Hm. destruct (same_wait_elem _ _ _ Hs Hst') as (st & Hst & E1 & E2 & E3).
    rewrite E1 in Hx, Hm. unfold waits_until. rewrite E2, E3. by eapply mi_carrier0.
Qed.

Lemma dcf_update_minv x y now k f q q' :
  (∀ st st', dcf_ok st → f st = Ret st' → dcf_ok st' ∧ mac_key st' = mac_key st ∧
     backoff_frozen st' = backoff_frozen st ∧ medium_free_since st' = medium_free_since st) →
  minv x y now q → dcf_update k f q = Ret q' →
  minv x y now q' ∧ scheduled q' = scheduled q ∧ link_mediums q' = link_mediums q.
Proof.
  intros Hf Hi (v & E & [= <-])%bind_Ret. unfold dcf_mut in E.
  inv_ret E as (i & _ & (st & Hst%unwrap_Ret & (st' & Hst' & [= <-])%bind_Ret)%bind_Ret).
  destruct (Hf st st') as (F1 & F2 & F3 & F4); [|done|].
  { eapply Forall_lookup_1; [apply Hi|done]. }
  split; [|done]. apply minv_same_wait; [done|by eapply same_wait_insert|].
  apply all_ok_insert; [apply Hi|done].
Qed.
Lemma fail_key_minv x y now k q q' : minv x y now q → fail_key k q = Ret q' →
  minv x y now q' ∧ scheduled q' = scheduled q ∧ link_mediums q' = link_mediums q.
Proof.
  apply dcf_update_minv. intros st st' Hok. destruct (failed_ok st Hok) as (F1 & F2 & F3 & F4 & ->).
  by intros [= <-].
Qed.
Lemma succeed_key_minv x y now k q q' : minv x y now q → succeed_key k q = Ret q' →
  minv x y now q' ∧ scheduled q' = scheduled q ∧ link_mediums q' = link_mediums q.
Proof.
  apply dcf_update_minv. intros st st' Hok [= <-]. split; [by apply on_success_ok|].
  unfold on_success, reload_backoff. by destruct (gen_range _ _).
Qed.
Lemma fail_all_minv x y now ks q q' : minv x y now q →
  foldl (λ r k, q ← r; fail_key k q) (Ret q) ks = Ret q' →
  minv x y now q' ∧ scheduled q' = scheduled q ∧ link_mediums q' = link_mediums q.
Proof.
  intros Hi. apply (foldl_outcome_ind (λ q', minv x y now q' ∧ scheduled q' = scheduled q ∧
                                             link_mediums q' = link_mediums q)); [done|].
  intros q0 k q1 _ (I & E1 & E2) (I' & F1 & F2)%(fail_key_minv x y now); [|done]. split_and!; congruence || done.
Qed.

(** ** Events *)
Lemma schedule_Ret now d e q q' : schedule now d e q = Ret q' →
  ∃ t, time_add now d = Ret t ∧ nanos now < nanos t ∧ q' = set_scheduled (scheduled q ++ [(t, e)]) q.
Proof.
  unfold schedule. intros (t & Et & E)%bind_Ret. exists t. destruct (time_le t now) eqn:El; [done|].
  apply time_le_false in El. naive_solver.
Qed.
Lemma minv_schedule_service x y now t q : minv x y now q → nanos now < nanos t →
  minv x y now (set_scheduled (scheduled q ++ [(t, Service)]) q).
Proof.
  intros [] Ht.
  assert (sending_links (scheduled q ++ [(t, Service)]) = sending_links (scheduled q)) as Es.
  { rewrite sending_app. apply app_nil_r. }
  split; unfold on_air in *; cbn; rewrite ?Es; try done.
  - intros t' e' [?|[= -> ->]%list_elem_of_singleton]%elem_of_app; [by eapply mi_future0|lia].
  - intros t' a st [?|[=]%list_elem_of_singleton]%elem_of_app; by eapply mi_waits0.
  - intros Hp. destruct (mi_tick0 Hp) as [t' Ht']. exists t'. set_solver.
Qed.
Lemma minv_pending x y now t q : minv x y now q → (t, Service) ∈ scheduled q →
  minv x y now (set_slot_tick_pending true q).
Proof. intros [] Ht. split; try done. intros _. by exists t. Qed.
Lemma schedule_tick_minv x y now q q' : minv x y now q → schedule_tick now q = Ret q' →
  minv x y now q' ∧ slot_tick_pending q' = true ∧ sending_links (scheduled q') = sending_links (scheduled q) ∧
  link_mediums q' = link_mediums q ∧ link_is_transmitting q' = link_is_transmitting q.
Proof.
  intros Hi. unfold schedule_tick. destruct (slot_tick_pending q) eqn:Ep; [by intros [= <-]|].
  intros (t & Et & Hlt & ->)%schedule_Ret. split.
  - apply (minv_pending x y now t (set_scheduled (scheduled q ++ [(t, Service)]) q)).
    + by apply minv_schedule_service.
    + apply elem_of_snoc.
  - cbn. split_and!; try done. rewrite sending_app. apply app_nil_r.
Qed.
(** The completion of a transmission on a link that is not on air. *)
Lemma minv_schedule_send x now t a q : minv x (Some (link_id a)) now q → nanos now < nanos t →
  ¬ on_air q (link_id a) →
  (∀ st, st ∈ dcf_values q → key_link (mac_key st) = link_id a → waits_until t st) →
  minv x None now (set_scheduled (scheduled q ++ [(t, SendAmpdu a)]) q).
Proof.
  intros [] Ht Hair Hw.
  assert (sending_links (scheduled q ++ [(t, SendAmpdu a)]) = sending_links (scheduled q) ++ [link_id a]) as Es.
  { by rewrite sending_app. }
  split; unfold on_air in *; cbn; rewrite ?Es; try done.
  - intros t' e' [?|[= -> ->]%list_elem_of_singleton]%elem_of_app; [by eapply mi_future0|lia].
  - apply NoDup_app. split_and!; [done| |apply NoDup_singleton].
    intros l Hl ->%list_elem_of_singleton. done.
  - intros t' a' st [?|[= -> ->]%list_elem_of_singleton]%elem_of_app; [by eapply mi_waits0|by apply Hw].
  - intros Hp. destruct (mi_tick0 Hp) as [t' Ht']. exists t'. set_solver.
  - intros l Hl _. destruct (decide (l = link_id a)) as [->|Hne]; [set_solver|].
    apply elem_of_app. left. apply mi_tx0; [done|congruence].
Qed.

(** ** Occupying a medium *)
Lemma integrate_busy_time_Ret now until m m' : integrate_busy_time now until m = Ret m' →
  nav_until m' = nav_until m.
Proof.
  unfold integrate_busy_time. case_match; [|by intros [= <-]].
  by intros (? & _ & (? & _ & [= <-])%bind_Ret)%bind_Ret.
Qed.
Lemma occupy_Ret now until m m' :
  (∃ owner, start_txop now until owner m = Ret m') ∨ occupy_collision now until m = Ret m' →
  busy_until m' = until ∧ nav_until m' = nav_until m.
Proof.
  intros [[owner (m1 & E%integrate_busy_time_Ret & [= <-])%bind_Ret]|(m1 & E%integrate_busy_time_Ret & [= <-])%bind_Ret];
    by cbn.
Qed.
(** The medium of [l] is busy until [until]. *)
Definition busy_till q (l : Z) (until : T) : Prop :=
  ∀ m, link_mediums q !! l = Some m → nanos (busy_until m) ≤ nanos until.
Lemma with_medium_minv y now l until f q q' :
  (∀ m m', f m = Ret m' → busy_until m' = until ∧ nav_until m' = nav_until m) →
  minv None y now q → with_medium l f q = Ret q' →
  minv (Some l) y now q' ∧ busy_till q' l until ∧ scheduled q' = scheduled q.
Proof.
  intros Hf [] E. unfold with_medium in E. destruct (link_mediums q !! l) as [m|] eqn:Em.
  - inv_ret E as (m' & Em' & [= <-]). destruct (Hf m m' Em') as [B1 B2].
    split_and!; [|intros m1; cbn; rewrite lookup_insert_eq; intros [= <-]; by rewrite B1|done].
    split; try done; cbn.
    + intros l1 m1. rewrite lookup_insert_Some. intros [[<- <-]|[_ Hm1]]; [|by eapply mi_nav0].
      rewrite B2. by eapply mi_nav0.
    + intros st m1 Hst Hx. rewrite lookup_insert_ne by congruence. by apply mi_carrier0.
  - injection E as <-. split_and!; [|intros m; congruence|done]. split; try done.
    intros st m Hst _ Hm. by eapply mi_carrier0.
Qed.
Lemma freeze_one_facts l until st :
  let st' := freeze_one l until st in
  mac_key st' = mac_key st ∧ (dcf_ok st → dcf_ok st') ∧
  (key_link (mac_key st) = l → waits_until until st') ∧ (key_link (mac_key st) ≠ l → st' = st).
Proof.
  unfold freeze_one. destruct (Z.eqb_spec (key_link (mac_key st)) l) as [E|E]; [|by split_and!].
  split_and!; [done..| |done]. intros _. split; [done|]. cbn. lia.
Qed.
Lemma elem_of_freeze l until q st' : st' ∈ dcf_values (freeze_link l until q) →
  ∃ st, st ∈ dcf_values q ∧ st' = freeze_one l until st.
Proof. cbn. rewrite list_elem_of_fmap. naive_solver. Qed.
Lemma freeze_link_minv y now l until q : minv (Some l) y now q → busy_till q l until → ¬ on_air q l →
  minv None y now (freeze_link l until q) ∧
  (∀ st, st ∈ dcf_values (freeze_link l until q) → key_link (mac_key st) = l → waits_until until st).
Proof.
  intros [] Hb Hair. split.
  - split; try done.
    + eapply table_ok_same_keys; [|done]. unfold same_keys. cbn. rewrite <-list_fmap_compose.
      apply list_fmap_ext. intros i st _. by apply freeze_one_facts.
    + cbn. apply Forall_fmap. eapply Forall_impl; [exact mi_ok0|]. intros st. by apply freeze_one_facts.
    + intros t a st' Ht Hst' Hl. apply elem_of_freeze in Hst' as (st & Hst & ->).
      destruct (freeze_one_facts l until st) as (F1 & _ & _ & F4). rewrite F1 in Hl.
      rewrite F4; [by eapply mi_waits0|]. intros El. apply Hair, elem_of_sending. exists t, a. by split; [|congruence].
    + intros st' m Hst' _ Hm. apply elem_of_freeze in Hst' as (st & Hst & ->).
      destruct (freeze_one_facts l until st) as (F1 & _ & F3 & F4). cbn in Hm. rewrite F1 in Hm.
      destruct (decide (key_link (mac_key st) = l)) as [El|El].
      * right. destruct (F3 El) as [W1 W2]. split; [done|]. rewrite El in Hm. specialize (Hb m Hm). lia.
      * rewrite F4 by done. apply mi_carrier0; [done|congruence|done].
  - intros st' Hst' Hl. apply elem_of_freeze in Hst' as (st & Hst & ->).
    destruct (freeze_one_facts l until st) as (F1 & _ & F3 & _). apply F3. congruence.
Qed.

(** ** One link *)
Lemma handle_collision_minv now l ks q q' : mac_inv now q → ¬ on_air q l →
  handle_collision now l ks q = Ret q' →
  mac_inv now q' ∧ sending_links (scheduled q') = sending_links (scheduled q).
Proof.
  intros Hi Hair. unfold handle_collision.
  intros (d & _ & (u & _ & (q1 & E1 & E)%bind_Ret)%bind_Ret)%bind_Ret.
  inv_ret E as (q2 & E2 & E). inv_ret E as (s & _ & E).
  inv_ret E as (q3 & E3 & E). inv_ret E as (q4 & E4 & [= <-]).
  apply (with_medium_minv None now l u) in E1 as (I1 & B1 & S1); [|by intros m m' ?; eapply occupy_Ret; right|done].
  apply (fail_all_minv (Some l) None now) in E2 as (I2 & S2 & M2); [|done].
  destruct (freeze_link_minv None now l u q2 I2) as [I3 _].
  { unfold busy_till. by rewrite M2. } { unfold on_air. by rewrite S2, S1. }
  destruct (collision_window_parts s (F64.of_f32 collision_delay) ks (freeze_link l u q2)) as [E5 _].
  apply collision_stats_parts in E3 as [E3 _].
  assert (mac_inv now q3) as I4 by (eapply minv_part; [exact E3|]; eapply minv_part; [exact E5|done]).
  assert (scheduled q3 = scheduled q) as S3.
  { rewrite (mac_part_scheduled _ _ E3), (mac_part_scheduled _ _ E5). cbn. by rewrite S2, S1. }
  apply schedule_Ret in E4 as (t & _ & Ht & ->). split.
  - apply (minv_pending _ _ _ t); [by apply minv_schedule_service|]. apply elem_of_snoc.
  - cbn. rewrite S3, sending_app. apply app_nil_r.
Qed.

Lemma build_mac first l now q a d q' : build_new_ampdu first l now q = Ret (a, d, q') →
  mac_part q' = mac_part (set_link_is_transmitting (<[l:=true]> (link_is_transmitting q)) q).
Proof.
  unfold build_new_ampdu. intros ([g src] & _ & ([sent q1] & E1 & (q2 & E2 & [= _ _ <-])%bind_Ret)%bind_Ret)%bind_Ret.
  apply draw_losses_mac in E1 as [E1 _]. unfold settle in E2.
  inv_ret E2 as (q3 & E3%remove_taken_mac & (q4 & E4%requeue_mac & [= <-])%bind_Ret).
  pose proof (count_all_sent_mac sent q4) as E5.
  assert (mac_part (count_all_sent sent q4) = mac_part q) as E by by rewrite E5, E4, E3.
  unfold mac_part in *. cbn. by injection E as -> -> -> -> -> ->.
Qed.

Lemma skip_transmission_minv now l w q q' : minv None (Some l) now q → skip_transmission now l w q = Ret q' →
  mac_inv now q' ∧ sending_links (scheduled q') = sending_links (scheduled q).
Proof.
  intros [] (q1 & E1 & E2)%bind_Ret.
  apply (fail_key_minv None None now) in E1 as (I1 & S1 & _).
  - apply (schedule_tick_minv None None now) in E2 as (I2 & _ & S2 & _); [|done]. split; [done|]. by rewrite S2, S1.
  - split; try done; cbn.
    + intros l1 Hl1 _. destruct (decide (l1 = l)) as [->|Hne]; [by rewrite lookup_insert_eq in Hl1|].
      rewrite lookup_insert_ne in Hl1 by done. apply mi_tx0; [done|congruence].
    + intros k Hk. rewrite lookup_insert_is_Some. destruct (decide (l = key_link k)); naive_solver.
Qed.
Lemma start_transmission_minv now l w a d q q' : minv None (Some l) now q → ¬ on_air q l → link_id a = l →
  start_transmission now l w a d q = Ret q' →
  mac_inv now q' ∧ sending_links (scheduled q') = sending_links (scheduled q) ++ [l].
Proof.
  intros Hi Hair Hl (u & Eu & (q1 & E1 & E2)%bind_Ret)%bind_Ret.
  apply (with_medium_minv (Some l) now l u) in E1 as (I1 & B1 & S1); [|intros m m' ?; eapply occupy_Ret; left; eauto|done].
  destruct (freeze_link_minv (Some l) now l u q1 I1 B1) as [I2 W2]; [unfold on_air; by rewrite S1|].
  apply schedule_Ret in E2 as (t & Et & Ht & ->). assert (t = u) as -> by congruence. subst l. split.
  - apply minv_schedule_send; [done..| |done]. unfold on_air. cbn. by rewrite S1.
  - cbn. by rewrite sending_app, S1.
Qed.
Lemma handle_winner_minv now l w q q' : mac_inv now q → ¬ on_air q l → handle_winner now l w q = Ret q' →
  mac_inv now q' ∧ sending_links (scheduled q') ⊆ l :: sending_links (scheduled q).
Proof.
  intros Hi Hair (first & _ & E)%bind_Ret. destruct first as [first|].
  - inv_ret E as ([[a d] q1] & Eb & E). apply build_mac in Eb.
    assert (minv None (Some l) now q1) as I1.
    { eapply minv_part; [exact Eb|]. destruct Hi. split; try done; cbn.
      - intros l1 Hl1 Hne. rewrite lookup_insert_ne in Hl1 by congruence. by apply mi_tx0.
      - intros k Hk. rewrite lookup_insert_is_Some. destruct (decide (l = key_link k)); naive_solver. }
    assert (scheduled q1 = scheduled q) as S1 by apply (mac_part_scheduled _ _ Eb).
    assert (¬ on_air q1 l) as A1 by (unfold on_air; by rewrite S1).
    assert (∀ q2, skip_transmission now l w q1 = Ret q2 →
      mac_inv now q2 ∧ sending_links (scheduled q2) ⊆ l :: sending_links (scheduled q)) as Hskip.
    { intros q2 E2. apply skip_transmission_minv in E2 as [? ->]; [|done]. rewrite S1. set_solver. }
    cbv zeta in E. destruct (mpdu_packets (with_link l a)); [by apply Hskip|]. destruct (d =? 0); [by apply Hskip|].
    apply start_transmission_minv in E as [? ->]; [|done..]. rewrite S1. set_solver.
  - apply (succeed_key_minv None None now) in E as (I & -> & _); [|done]. set_solver.
Qed.

Lemma resolve_minv x y now ready q ks v : minv x y now q →
  NoDup ready → Forall (λ k, is_Some (mac_key_index (cfg q) !! k)) ready →
  resolve_virtual_collision (mac_key_index (cfg q)) ready (dcf_values q) = Ret (ks, v) →
  minv x y now (set_dcf_values v q).
Proof.
  intros Hi Hnd Hidx E. unfold resolve_virtual_collision in E.
  destruct (virtual_loop_spec (mac_key_index (cfg q)) (sort_prio ready) ∅ (dcf_values q))
    as (w & v' & E' & _ & Hs & Hok & Hv); [apply Hi|apply Hi|by rewrite sort_prio_perm..|done|].
  rewrite E' in E. injection E as _ <-. apply minv_same_wait; [done| |done].
  apply Forall2_same_length_lookup. split; [by apply eq_sym, same_keys_length|].
  intros i st st' Hst Hst'. rewrite (Hv i st Hst) in Hst'. injection Hst' as <-.
  case_bool_decide; [|done].
  destruct (failed_ok st) as (_ & ? & ? & ? & _); [eapply Forall_lookup_1; [apply Hi|done]|done].
Qed.

(** ** The slot tick *)
(** A contender of link [l]: it is in the table, the link is not on air and its
    medium is idle. *)
Definition may_contend (now : T) q (l : Z) (k : MacKey) : Prop :=
  key_link k = l ∧ is_Some (mac_key_index (cfg q) !! k) ∧ ¬ on_air q l ∧ link_idle now l q = true.

Lemma clear_if_idle_facts now m : is_idle (clear_if_idle now m) now = is_idle m now ∧
  busy_until (clear_if_idle now m) = busy_until m ∧ nav_until (clear_if_idle now m) = nav_until m.
Proof. unfold clear_if_idle. by destruct (is_idle m now) eqn:E. Qed.

(** A function that waits stays as it is; one that is ready to contend does so on
    an idle medium. *)
Lemma tick_one_waits now idle st st' b t : dcf_ok st → tick_one now idle st = Ret (st', b) →
  waits_until t st → nanos now ≤ nanos t → backoff_frozen st' = true ∧ b = false.
Proof.
  intros Hok E [Hf Ht] Hnow. unfold tick_one in E. inv_ret E as (u & Eu & [= <- <-]).
  pose proof (aifs_pos (key_ac (mac_key st))) as Ha. destruct Hok as (Hp & _). rewrite <-Hp in Ha.
  apply time_add_later in Eu; [|lia].
  assert (time_le u now = false) as -> by (apply time_le_false; lia). cbn.
  by rewrite andb_false_r, Hf, !andb_false_r.
Qed.
Lemma tick_one_unfrozen now idle st st' b : tick_one now idle st = Ret (st', b) →
  backoff_frozen st' = false → backoff_frozen st = false ∨ idle = true.
Proof.
  intros (u & _ & [= <- _])%bind_Ret. cbn. destruct (backoff_frozen st), idle; cbn; auto.
Qed.
Lemma tick_one_ready now idle st st' : tick_one now idle st = Ret (st', true) → backoff_frozen st' = false.
Proof.
  intros (u & _ & [= <- E])%bind_Ret. cbn. apply andb_prop in E as [_ E]. by apply negb_true_iff in E.
Qed.
Lemma idle_of_carrier now q st m x y : minv x y now q → st ∈ dcf_values q → Some (key_link (mac_key st)) ≠ x →
  link_mediums q !! key_link (mac_key st) = Some m → backoff_frozen st = false → is_idle m now = true.
Proof.
  intros [] Hst Hx Hm Hf. unfold is_idle. apply andb_true_intro. split; apply time_le_spec; [|by eapply mi_nav0].
  destruct (mi_carrier0 st m Hst Hx Hm) as [?|[? _]]; [done|congruence].
Qed.

Section tick.
Context (now : T) (q : QueueModule T P) (ready : gmap Z (list MacKey)) (q' : QueueModule T P).
Hypothesis Hinv : mac_inv now q.
Hypothesis Htick : tick_all now q = Ret (ready, q').

Lemma tick_all_shape : ∃ (v : list (DcfStats T)) (bs : list bool),
  q' = set_dcf_values v (set_link_mediums (clear_if_idle now <$> link_mediums q) q) ∧
  length v = length (dcf_values q) ∧
  (∀ i st, dcf_values q !! i = Some st → ∃ st' b, v !! i = Some st' ∧ bs !! i = Some b ∧
     ticked now (clear_if_idle now <$> link_mediums q) st st' b) ∧
  (∀ l k, k ∈ default [] (ready !! l) ↔
     ∃ i st, dcf_values q !! i = Some st ∧ bs !! i = Some true ∧ mac_key st = k ∧ key_link k = l).
Proof.
  unfold tick_all, tick_backoff in Htick.
  inv_ret Htick as ([[m v] r] & E & [= <- <-]).
  inv_ret E as ([v1 r1] & E & [= <- <- <-]).
  apply tick_loop_spec in E as (bs & _ & L2 & Hv & Hr). exists v1, bs. split_and!; try done.
  intros l k. rewrite Hr, lookup_empty. simpl. set_solver.
Qed.

Lemma tick_all_minv : mac_inv now q'.
Proof.
  destruct tick_all_shape as (v & bs & -> & Hl & Hv & _).
  assert (∀ st', st' ∈ v → ∃ st b, st ∈ dcf_values q ∧ ticked now (clear_if_idle now <$> link_mediums q) st st' b ∧
            mac_key st' = mac_key st ∧ medium_free_since st' = medium_free_since st ∧ dcf_ok st ∧ dcf_ok st') as Hel.
  { intros st' [i Hi]%list_elem_of_lookup_1.
    destruct (lookup_lt_is_Some_2 (dcf_values q) i) as [st Hst]; [rewrite <-Hl; by eapply lookup_lt_Some|].
    destruct (Hv i st Hst) as (st1 & b & Hst1 & _ & Ht). simplify_eq.
    exists st, b. assert (dcf_ok st) by (eapply Forall_lookup_1; [apply Hinv|done]).
    split; [by eapply list_elem_of_lookup_2|]. split; [done|].
    destruct Ht as [[-> _]|(m & _ & (E1 & E2 & E3)%tick_one_Ret)]; naive_solver. }
  pose proof Hinv as []. split; try done.
  - eapply table_ok_same_keys; [|done]. apply list_eq_same_length with (length v); cbn; rewrite ?length_fmap; [done..|].
    intros i k k' _. rewrite !list_lookup_fmap, !fmap_Some. intros (st' & Hst' & ->) (st & Hst & ->).
    destruct (Hv i st Hst) as (st1 & b & Hst1 & _ & Ht). simplify_eq.
    destruct Ht as [[-> _]|(m & _ & (E1 & _)%tick_one_Ret)]; congruence.
  - cbn. apply Forall_forall. intros st' (st & b & _ & _ & _ & _ & _ & ?)%Hel. done.
  - cbn. intros t a st' Ht (st & b & Hst & Htk & Ek & Ef & Hok & _)%Hel Hl'. rewrite Ek in Hl'.
    pose proof (mi_waits0 t a st Ht Hst Hl') as Hw. unfold waits_until. rewrite Ef.
    destruct Htk as [[-> _]|(m & _ & E)]; [done|]. split; [|apply Hw].
    by destruct (tick_one_waits now _ st st' b t Hok E Hw (mi_future0 _ _ Ht)).
  - cbn. intros l m. rewrite lookup_fmap, fmap_Some. intros (m0 & Hm0 & ->).
    destruct (clear_if_idle_facts now m0) as (_ & _ & ->). by eapply mi_nav0.
  - cbn. intros st' m (st & b & Hst & Htk & Ek & Ef & Hok & _)%Hel Hx. rewrite lookup_fmap, fmap_Some, Ek.
    intros (m0 & Hm0 & ->). destruct (clear_if_idle_facts now m0) as (_ & -> & _).
    destruct (mi_carrier0 st m0 Hst ltac:(congruence) Hm0) as [?|Hw]; [by left|].
    destruct (decide (nanos (busy_until m0) ≤ nanos now)); [by left|]. right. unfold waits_until. rewrite Ef.
    destruct Htk as [[-> _]|(m1 & _ & E)]; [done|]. split; [|apply Hw].
    by destruct (tick_one_waits now _ st st' b (busy_until m0) Hok E Hw ltac:(lia)).
Qed.

Lemma tick_all_ready : scheduled q' = scheduled q ∧ ∀ l k, k ∈ default [] (ready !! l) → may_contend now q' l k.
Proof.
  destruct tick_all_shape as (v & bs & Eq & Hl & Hv & Hr).
  split; [by rewrite Eq|]. intros l k (i & st & Hst & Hb & Hk & Hkl)%Hr.
  destruct (Hv i st Hst) as (st' & b & Hst' & Hb' & Ht). simplify_eq.
  destruct Ht as [[_ ?]|(m & Hm & E)]; [done|]. rewrite lookup_fmap, fmap_Some in Hm.
  destruct Hm as (m0 & Hm0 & ->). destruct (clear_if_idle_facts now m0) as (Ei & _ & _). rewrite Ei in E.
  pose proof Hinv as []. assert (dcf_ok st) as Hok by (eapply Forall_lookup_1; done).
  assert (st ∈ dcf_values q) as Hin by (by eapply list_elem_of_lookup_2).
  split_and!; [done|cbn; eapply mk_is_Some, (proj1 mi_table0 i st Hst)| |].
  - intros (t & a & Ht & Ha)%elem_of_sending. cbn in Ht.
    by destruct (tick_one_waits now _ st st' true t Hok E (mi_waits0 _ _ _ Ht Hin ltac:(congruence)) (mi_future0 _ _ Ht)).
  - unfold link_idle. cbn. rewrite lookup_fmap, Hm0. cbn. rewrite Ei.
    pose proof (tick_one_ready _ _ _ _ E) as Hu. apply tick_one_unfrozen in E as [Hf|?]; [|done|done].
    eapply idle_of_carrier; try done.
Qed.
Lemma tick_all_NoDup l : NoDup (default [] (ready !! l)).
Proof.
  unfold tick_all, tick_backoff in Htick.
  inv_ret Htick as ([[m v] r] & E & [= <- <-]).
  inv_ret E as ([v1 r1] & E & [= <- <- <-]).
  destruct (tick_loop_sublist _ _ _ _ l _ _ _ E) as (ks & -> & Hs). rewrite lookup_empty. simpl.
  eapply sublist_NoDup; [|exact Hs]. eapply table_ok_NoDup, Hinv.
Qed.
End tick.

(** ** The handlers *)
Lemma handle_link_cfg now l ks q q' : handle_link now l ks q = Ret q' → cfg q' = cfg q.
Proof.
  intros ([cs v] & _ & E)%bind_Ret. destruct cs as [|w [|w2 cs]]; cbn [handle_contenders] in E.
  - by injection E as <-.
  - inv_ret E as ([first|] & _ & E); [|by apply dcf_update_queue, queue_part_cfg in E].
    inv_ret E as ([[a d] q1] & Eb%build_mac%mac_part_cfg & E). cbv zeta in E. cbn in Eb.
    rewrite <-Eb. destruct (mpdu_packets _); [|destruct (d =? 0)];
      by first [apply skip_transmission_queue, queue_part_cfg in E|apply start_transmission_queue, queue_part_cfg in E].
  - by apply handle_collision_queue, queue_part_cfg in E.
Qed.
Lemma handle_link_minv now l ks q q' : mac_inv now q → ¬ on_air q l → NoDup ks →
  Forall (λ k, is_Some (mac_key_index (cfg q) !! k)) ks → handle_link now l ks q = Ret q' →
  mac_inv now q' ∧ sending_links (scheduled q') ⊆ l :: sending_links (scheduled q).
Proof.
  intros Hi Hair Hnd Hidx ([cs v] & E1 & E2)%bind_Ret.
  apply (resolve_minv None None now) in E1; [|done..].
  destruct cs as [|w [|w2 cs]]; cbn [handle_contenders] in E2.
  - injection E2 as <-. split; [done|]. cbn. set_solver.
  - by apply handle_winner_minv in E2.
  - apply handle_collision_minv in E2 as [I E]; [|done..]. split; [done|]. rewrite E. cbn. set_solver.
Qed.

(** A property [J] that every link's contention keeps is kept by the loop over the links. *)
Lemma handle_links_ind (J : QueueModule T P → Prop) now q ready q' :
  (∀ l ks q0 q1, cfg q0 = cfg q → mac_inv now q0 → NoDup ks → Forall (λ k, is_Some (mac_key_index (cfg q) !! k)) ks →
     handle_link now l ks q0 = Ret q1 → J q0 → J q1) →
  mac_inv now q →
  (∀ l, NoDup (default [] (ready !! l))) →
  (∀ l k, k ∈ default [] (ready !! l) → is_Some (mac_key_index (cfg q) !! k) ∧ ¬ on_air q l) →
  handle_links now ready q = Ret q' → J q → mac_inv now q' ∧ J q'.
Proof.
  intros HJ Hi Hnd Hready. unfold handle_links.
  assert (∀ e, e ∈ hm_iter ready → ready !! e.1 = Some e.2) as Hin.
  { intros [l ks]. rewrite hm_iter_perm. apply elem_of_map_to_list. }
  assert (NoDup (hm_iter ready).*1) as Hkeys by (rewrite hm_iter_perm; apply NoDup_fst_map_to_list).
  assert (∀ e k, e ∈ hm_iter ready → k ∈ e.2 → ¬ on_air q e.1) as Hfree.
  { intros e k He Hk. apply (Hready e.1 k). by rewrite (Hin e He). }
  assert (∀ e, e ∈ hm_iter ready → NoDup e.2 ∧ Forall (λ k, is_Some (mac_key_index (cfg q) !! k)) e.2) as Hks.
  { intros e He. pose proof (Hin e He) as E. specialize (Hnd e.1). rewrite E in Hnd. split; [done|].
    apply Forall_forall. intros k Hk. apply (Hready e.1). by rewrite E. }
  revert Hkeys Hfree Hks. generalize (hm_iter ready). intros es. clear Hnd Hready Hin.
  assert (∀ q0, cfg q0 = cfg q → mac_inv now q0 →
    NoDup es.*1 → (∀ e k, e ∈ es → k ∈ e.2 → ¬ on_air q0 e.1) →
    (∀ e, e ∈ es → NoDup e.2 ∧ Forall (λ k, is_Some (mac_key_index (cfg q) !! k)) e.2) →
    foldl (λ r e, q ← r; handle_link now e.1 e.2 q) (Ret q0) es = Ret q' → J q0 → mac_inv now q' ∧ J q') as Hgen; [|by intros; eapply Hgen].
  clear Hi. induction es as [|[l ks] es IH]; intros q0 Ec Hi Hkeys Hfree Hks.
  { by intros [= <-] ?. }
  cbn [fmap list_fmap] in Hkeys. apply NoDup_cons in Hkeys as [Hl Hkeys]. simpl foldl.
  destruct (Hks (l, ks)) as [Hnd Hidx]; [by left|].
  destruct (handle_link now l ks q0) as [q1| |] eqn:E.
  - intros Ef J0. pose proof (HJ l ks q0 q1 Ec Hi Hnd Hidx E J0) as J1. revert Ef. destruct ks as [|k ks].
    { (* nothing to do on this link *)
      assert (q1 = set_dcf_values (dcf_values q0) q0) as Eq.
      { unfold handle_link, resolve_virtual_collision in E. cbn in E.
        assert (hm_iter (∅ : gmap Z MacKey) = []) as Eh.
        { apply Permutation_nil_r. by rewrite hm_iter_perm, map_to_list_empty. }
        rewrite Eh in E. by injection E as <-. }
      assert (mac_part q1 = mac_part q0) as Em by by rewrite Eq.
      intros Ef. revert Ef J1. apply IH; [by rewrite Eq|by eapply minv_part|done| |naive_solver set_solver].
      intros e k He Hk. unfold on_air. rewrite (mac_part_scheduled _ _ Em). eapply Hfree; [by right|done]. }
    assert (¬ on_air q0 l) as Hair by (apply (Hfree (l, k :: ks) k); [by left|by left]).
    pose proof (handle_link_cfg _ _ _ _ _ E) as Ec1.
    apply handle_link_minv in E as [I1 S1]; [|done..|by rewrite Ec].
    intros Ef. revert Ef J1. apply IH; [congruence|done|done| |].
    + intros e k' He Hk' Ho. unfold on_air in Ho. apply S1, elem_of_cons in Ho as [El|Ho].
      * apply Hl, list_elem_of_fmap. by exists e.
      * eapply Hfree; [by right|done|done].
    + intros e He. apply Hks. by right.
  - by rewrite (proj1 (foldl_panic (λ q0 e, handle_link now e.1 e.2 q0) es)).
  - by rewrite (proj2 (foldl_panic (λ q0 e, handle_link now e.1 e.2 q0) es)).
Qed.
Lemma handle_links_minv now q ready q' : mac_inv now q →
  (∀ l, NoDup (default [] (ready !! l))) →
  (∀ l k, k ∈ default [] (ready !! l) → is_Some (mac_key_index (cfg q) !! k) ∧ ¬ on_air q l) →
  handle_links now ready q = Ret q' → mac_inv now q'.
Proof. intros Hi Hnd Hr E. by eapply (handle_links_ind (λ _, True)). Qed.
End safety.
Abbreviation mac_inv := (minv None None).
End MacSafety.
