(* ===== verification/Aggregation.v ===== *)
(** * Aggregation, losses and retransmission

    What [build_new_ampdu] takes from the queues, what it sends and what it puts
    back.  Module [Aggregation]: the shape of the aggregate (a prefix of the queue
    for uplink, the packets of one station in order for downlink, within the size and
    airtime limits), the packets that survive the losses, and the queues after it. *)

From S2P Require Import Prelude Scheduler F32 SimRng Airtime Edca EdcaFacts MacData AccessPoint ApFrames.

Module Aggregation.
Import Rng Ap EdcaFacts ApFrames.

Section agg.
Context {T P : Type} `{TaiTime T} `{!Epoch T} `{!Rand} `{!HashOrder} `{!PhyEnv} `{!LegacyIds}.
Implicit Types q : QueueModule T P.
Implicit Types p : MpduPacket T P.
Implicit Types g : Agg (T := T) (P := P).

(** The fields of a packet that queueing and sending do not change. *)
Definition core p :=
  (packet_id p, length_packet_bits p, queue_in_instant p, sta_src_id p, sta_dest_id p, sta_src_coords p,
   payload p, edca_ac p, assigned_link_id p).
Lemma core_fields p p' : core p = core p' →
  packet_id p = packet_id p' ∧ sta_src_id p = sta_src_id p' ∧ sta_dest_id p = sta_dest_id p' ∧
  edca_ac p = edca_ac p' ∧ assigned_link_id p = assigned_link_id p'.
Proof. unfold core. intros E. injection E. auto. Qed.
Lemma core_id_key p p' : core p = core p' → id_key p = id_key p'.
Proof. intros (E1 & E2 & E3 & _)%core_fields. unfold id_key. by rewrite E1, E2, E3. Qed.
Lemma core_ac_key p p' : core p = core p' → ac_key p = ac_key p'.
Proof. intros (_ & E2 & E3 & E4 & _)%core_fields. unfold ac_key, is_ul. by rewrite E2, E3, E4. Qed.

(** ** The aggregate *)
(** Within the limits of [limit_reached], for the category's cap. *)
Definition within_limits (cap : f64) (airtime : Z) : Prop :=
  ∃ r, F64.to_nanos r = Ret airtime ∧ F64.le DEFAULT_TMAX_AGG r = false ∧ F64.le cap r = false.
Definition agg_ok (cap : f64) q g : Prop :=
  mpdu_packets (ag_ampdu g) = (ag_snapshot g).*2 ∧
  size (ag_ampdu g) = Z.of_nat (length (mpdu_packets (ag_ampdu g))) ∧
  (mpdu_packets (ag_ampdu g) = [] ∧ ag_airtime g = 0 ∨
   size (ag_ampdu g) ≤ as_i32 (Z.of_nat (packs_per_ampdu (cfg q))) ∧ within_limits cap (ag_airtime g)).

Lemma agg_packet_None now k w ul dest i q p g :
  agg_packet now k w ul dest i q p g = Ret None → ul = false ∧ sta_dest_id p ≠ dest.
Proof.
  unfold agg_packet. destruct ul; cbn [negb andb].
  - intros ([r m] & _ & (cap & _ & E)%bind_Ret)%bind_Ret. destruct (limit_reached _ _ _ _); [done|].
    inv_ret E as (? & _ & E). discriminate E.
  - destruct (Z.eqb_spec (sta_dest_id p) dest); [|done]. cbn [negb].
    intros ([r m] & _ & (cap & _ & E)%bind_Ret)%bind_Ret. destruct (limit_reached _ _ _ _); [done|].
    inv_ret E as (? & _ & E). discriminate E.
Qed.
Lemma agg_packet_Some now k w ul dest i q p g g' stop cap : txop_cap_secs k q = Ret cap → agg_ok cap q g →
  agg_packet now k w ul dest i q p g = Ret (Some (g', stop)) →
  agg_ok cap q g' ∧ (ul = true ∨ sta_dest_id p = dest) ∧
  (if stop then ag_snapshot g' = ag_snapshot g
   else ∃ p', core p' = core p ∧ ag_snapshot g' = ag_snapshot g ++ [(i, p')]).
Proof.
  intros Hcap (A1 & A2 & A3). unfold agg_packet.
  destruct (negb ul && negb (sta_dest_id p =? dest)) eqn:Ed; [done|].
  intros ([r m] & _ & (cap' & Ecap & E)%bind_Ret)%bind_Ret. assert (cap' = cap) as -> by congruence.
  assert (ul = true ∨ sta_dest_id p = dest) as Hd.
  { destruct ul; [by left|]. right. destruct (Z.eqb_spec (sta_dest_id p) dest); [assumption|discriminate Ed]. }
  destruct (limit_reached r cap (size (ag_ampdu g) + 1) q) eqn:El.
  - injection E as <- <-. split; [exact (conj A1 (conj A2 A3))|split; [exact Hd|reflexivity]].
  - inv_ret E as (g1 & E1 & [= <- <-]). unfold take_packet in E1.
    inv_ret E1 as (waited & _ & (d & Hdur & [= <-])%bind_Ret).
    unfold limit_reached in El. apply orb_false_elim in El as [[El1 El2]%orb_false_elim El3].
    apply Z.ltb_ge in El2. split; [|split; [exact Hd|eexists; split; [|reflexivity]; reflexivity]].
    unfold agg_ok. cbn [ag_ampdu ag_snapshot ag_airtime mpdu_packets size]. split_and!.
    + by rewrite fmap_app, A1.
    + rewrite length_app, A2. cbn. lia.
    + right. split; [done|]. exists r. exact (conj Hdur (conj El1 El3)).
Qed.

Lemma agg_queue_spec now k w ul dest i q cap l : txop_cap_secs k q = Ret cap → ∀ taken g g' taken' stop,
  agg_ok cap q g → agg_queue now k w ul dest i q l taken g = Ret (g', taken', stop) →
  agg_ok cap q g' ∧ ∃ ps new, core <$> new = core <$> ps ∧ ps `sublist_of` l ∧
    Forall (λ p, ul = true ∨ sta_dest_id p = dest) ps ∧
    (ul = true → ps `prefix_of` l) ∧ ag_snapshot g' = ag_snapshot g ++ (pair i <$> new) ∧
    taken' = (taken + length new)%nat.
Proof.
  intros Hcap. induction l as [|p l IH]; intros taken g g' taken' stop Hok; cbn [agg_queue].
  { intros [= <- <- <-]. split; [done|]. exists [], []. cbn. rewrite app_nil_r. split_and!; done || lia. }
  intros (r & E & E2)%bind_Ret. destruct r as [[g1 [|]]|].
  - injection E2 as <- <- <-. eapply agg_packet_Some in E as (Hok' & _ & Es); [|done..]. split; [done|].
    exists [], []. cbn. rewrite app_nil_r. split_and!; auto using sublist_nil_l, prefix_nil.
  - eapply agg_packet_Some in E as (Hok' & Hd & p' & Hc & Es); [|done..].
    destruct (IH _ _ _ _ _ Hok' E2) as (Hok'' & ps & new & C1 & C2 & C3 & C4 & C5 & C6). split; [done|].
    exists (p :: ps), (p' :: new). csimpl. split_and!; [by rewrite Hc, C1|by apply sublist_skip|by constructor| |..].
    + intros Hu. apply prefix_cons, C4, Hu.
    + rewrite C5, Es, <-(assoc_L (++)). done.
    + lia.
  - apply agg_packet_None in E as [-> _]. destruct (IH _ _ _ _ _ Hok E2) as (Hok'' & ps & new & C1 & C2 & C3 & C4 & C5 & C6).
    split; [done|]. exists ps, new. split_and!; try done. by apply sublist_cons.
Qed.

(** What one source queue [l] contributed: [new], which are packets of [l] in their
    order, up to the fields that sending changes. *)
Definition taken_from (ul : bool) (dest : Z) (l new : list (MpduPacket T P)) : Prop :=
  ∃ ps, core <$> new = core <$> ps ∧ ps `sublist_of` l ∧
    Forall (λ p, ul = true ∨ sta_dest_id p = dest) ps ∧ (ul = true → ps `prefix_of` l).
(** The contributions, as entries of [taken_snapshot] and of [deque_sources]. *)
Definition snapshot_of (parts : list (nat * list (MpduPacket T P))) : list (nat * MpduPacket T P) :=
  concat ((λ e : nat * list (MpduPacket T P), pair e.1 <$> e.2) <$> parts).
Definition sources_of (parts : list (nat * list (MpduPacket T P))) : list (nat * nat) :=
  omap (λ e : nat * list (MpduPacket T P), match e.2 with [] => None | _ => Some (e.1, length e.2) end) parts.

Lemma aggregate_spec now k w ul dest q cap : txop_cap_secs k q = Ret cap → ∀ idxs sources g g' sources',
  agg_ok cap q g → aggregate now k w ul dest q idxs sources g = Ret (g', sources') →
  agg_ok cap q g' ∧ ∃ parts, parts.*1 `prefix_of` idxs ∧
    ag_snapshot g' = ag_snapshot g ++ snapshot_of parts ∧ sources' = sources ++ sources_of parts ∧
    Forall (λ e, ∃ l, per_flow_queues q !! e.1 = Some l ∧ taken_from ul dest l e.2) parts.
Proof.
  intros Hcap. induction idxs as [|i idxs IH]; intros sources g g' sources' Hok; cbn [aggregate].
  { intros [= <- <-]. split; [done|]. exists []. cbn. rewrite !app_nil_r. by split_and!. }
  intros (l & El%unwrap_Ret & ([[g1 taken] stop] & E1 & E2)%bind_Ret)%bind_Ret.
  eapply agg_queue_spec in E1 as (Hok1 & ps & new & C1 & C2 & C3 & C4 & C5 & C6); [|done..].
  assert (taken_from ul dest l new) as Htf by (exists ps; by split_and!).
  assert ((if (0 <? taken)%nat then sources ++ [(i, taken)] else sources) =
    sources ++ sources_of [(i, new)]) as Hsrc.
  { subst taken. destruct new; cbn; [by rewrite app_nil_r|done]. }
  cbv zeta in E2. rewrite Hsrc in E2. destruct stop.
  - injection E2 as <- <-. split; [done|]. exists [(i, new)]. split_and!.
    + cbn. by apply prefix_cons, prefix_nil.
    + rewrite C5. unfold snapshot_of. cbn. by rewrite app_nil_r.
    + done.
    + constructor; [|constructor]. by exists l.
  - destruct (IH _ _ _ _ Hok1 E2) as (Hok2 & parts & D1 & D2 & D3 & D4). split; [done|].
    exists ((i, new) :: parts). split_and!.
    + csimpl. by apply prefix_cons.
    + rewrite D2, C5, <-(assoc_L (++)). done.
    + rewrite D3, <-(assoc_L (++)). f_equal. unfold sources_of. cbn. by destruct new.
    + constructor; [by exists l|done].
Qed.

(** ** The losses *)
Lemma draw_losses_spec now link r ps : ∀ q sent q', draw_losses now link r ps q = Ret (sent, q') →
  ∃ kept, kept `sublist_of` ps ∧ core <$> sent = core <$> kept.
Proof.
  induction ps as [|p ps IH]; intros q sent q'; simpl.
  { intros [= <- <-]. by exists []. }
  intros (d & _ & E)%bind_Ret. destruct (gen_f64 _) as [v rg]. case_match.
  - apply IH in E as (kept & K1 & K2). exists kept. split; [by apply sublist_cons|done].
  - inv_ret E as ([ok q1] & E & [= <- <-]). apply IH in E as (kept & K1 & K2).
    exists (p :: kept). split; [by apply sublist_skip|]. csimpl. by rewrite K2.
Qed.

(** ** The source queues *)
Definition index_inj (index : gmap MacKey nat) : Prop :=
  ∀ k k' i, index !! k = Some i → index !! k' = Some i → k = k'.
Lemma other_links_spec l l' q : l' ∈ other_links l q → l' ≠ l.
Proof. unfold other_links. rewrite merge_sort_Permutation, list_elem_of_filter. naive_solver. Qed.
Lemma other_links_NoDup l q : NoDup (other_links l q).
Proof.
  unfold other_links. rewrite merge_sort_Permutation. apply NoDup_filter, NoDup_fst_map_to_list.
Qed.
Lemma source_idxs_spec k i q : mac_key_index (cfg q) !! k = Some i → index_inj (mac_key_index (cfg q)) →
  NoDup (source_deque_idxs k i q) ∧
  ∀ j, j ∈ source_deque_idxs k i q → ∃ k', mac_key_index (cfg q) !! k' = Some j ∧
    key_sta k' = key_sta k ∧ key_ac k' = key_ac k.
Proof.
  intros Hk Hinj. unfold source_deque_idxs, STR_PLUS_MODE_MLO.
  assert (∀ l j, alt_queue (key_sta k) (key_ac k) q l = Some j →
    mac_key_index (cfg q) !! (key_sta k, key_ac k, l) = Some j) as Halt.
  { intros l j. unfold alt_queue. intros (j' & E & E2)%bind_Some. by destruct (per_flow_queues q !! j') as [[]|]; simplify_eq. }
  split.
  - apply NoDup_cons. split.
    + rewrite list_elem_of_omap. intros (l & Hl%other_links_spec & E%Halt).
      pose proof (f_equal key_link (Hinj _ _ _ Hk E)) as Ek. by apply Hl.
    + pose proof (other_links_NoDup (key_link k) q) as Hnd. revert Hnd. generalize (other_links (key_link k) q).
      induction l as [|l ls IH]; [constructor|]. intros [Hl Hnd]%NoDup_cons. cbn.
      destruct (alt_queue _ _ _ l) as [j|] eqn:E; [|by apply IH]. apply NoDup_cons. split; [|by apply IH].
      rewrite list_elem_of_omap. intros (l' & Hl' & E'). apply Halt in E, E'.
      pose proof (Hinj _ _ _ E E') as [= ->]. done.
  - intros j [->|Hj]%elem_of_cons; [by exists k|]. apply list_elem_of_omap in Hj as (l & _ & E%Halt).
    by exists (key_sta k, key_ac k, l).
Qed.

(** ** The queues afterwards *)
(** The packets of the snapshot that came from queue [i]. *)
Definition at_idx (i : nat) (snap : list (nat * MpduPacket T P)) : list (MpduPacket T P) :=
  (filter (λ s, s.1 = i) snap).*2.
Lemma at_idx_app i s1 s2 : at_idx i (s1 ++ s2) = at_idx i s1 ++ at_idx i s2.
Proof. unfold at_idx. by rewrite filter_app, fmap_app. Qed.
Lemma at_idx_pair i j l : at_idx i (pair j <$> l) = if decide (j = i) then l else [].
Proof.
  unfold at_idx. case_decide as E.
  - rewrite filter_all; [by rewrite <-list_fmap_compose, list_fmap_id|]. by apply Forall_fmap, Forall_true.
  - rewrite filter_none; [done|]. by apply Forall_fmap, Forall_true.
Qed.
Lemma at_idx_snapshot i parts : NoDup parts.*1 →
  (∀ new, (i, new) ∈ parts → at_idx i (snapshot_of parts) = new) ∧
  (i ∉ parts.*1 → at_idx i (snapshot_of parts) = []).
Proof.
  induction parts as [|[j new] parts IH]; [by split; [intros ? ?%elem_of_nil|]|].
  csimpl. intros [Hj Hnd]%NoDup_cons. specialize (IH Hnd) as [IH1 IH2].
  unfold snapshot_of in *. csimpl. rewrite at_idx_app, at_idx_pair. split.
  - intros new' [[= -> ->]|Hin]%elem_of_cons.
    + rewrite decide_True, IH2 by done. apply app_nil_r.
    + rewrite decide_False; [by apply IH1|]. intros ->. apply Hj. by apply (list_elem_of_fmap_2 fst) in Hin.
  - rewrite not_elem_of_cons. intros [Hne Hni]. rewrite decide_False by done. by apply IH2.
Qed.

Lemma queue_set i j l q : per_flow_queues (set_queue i l q) !! j =
  if decide (i = j ∧ (i < length (per_flow_queues q))%nat) then Some l else per_flow_queues q !! j.
Proof. apply list_lookup_insert. Qed.
Lemma queue_set_eq i l l' q : per_flow_queues q !! i = Some l' → per_flow_queues (set_queue i l q) !! i = Some l.
Proof. intros E. rewrite queue_set, decide_True; [done|]. split; [done|]. by eapply lookup_lt_Some. Qed.
Lemma queue_set_ne i j l q : i ≠ j → per_flow_queues (set_queue i l q) !! j = per_flow_queues q !! j.
Proof. intros. rewrite queue_set, decide_False; naive_solver. Qed.

(** A loop that rewrites different queues one after the other. *)
Lemma foldl_queues {E} (f : E → list (MpduPacket T P) → list (MpduPacket T P)) (key : E → nat) es :
  NoDup (key <$> es) → ∀ q q',
  foldl (λ r e, q ← r; l ← queue_at (key e) q; Ret (set_queue (key e) (f e l) q)) (Ret q) es = Ret q' →
  (∀ i l, per_flow_queues q !! i = Some l → i ∉ key <$> es → per_flow_queues q' !! i = Some l) ∧
  (∀ e l, e ∈ es → per_flow_queues q !! key e = Some l → per_flow_queues q' !! key e = Some (f e l)) ∧
  length (per_flow_queues q') = length (per_flow_queues q).
Proof.
  induction es as [|e es IH]; csimpl.
  { intros _ q q' [= <-]. split_and!; [done|by intros ? ? ?%elem_of_nil|done]. }
  intros [He Hnd]%NoDup_cons q q'. unfold queue_at at 2.
  destruct (per_flow_queues q !! key e) as [l|] eqn:El; cbn [unwrap mbind outcome_bind].
  2: { by rewrite (proj1 (foldl_panic (λ q0 x, l ← queue_at (key x) q0; Ret (set_queue (key x) (f x l) q0)) es)). }
  intros (I1 & I2 & I3)%IH; [|done]. split_and!.
  - intros i l' Hi. rewrite not_elem_of_cons. intros [Hne Hni]. apply I1; [|done]. by rewrite queue_set_ne.
  - intros e' l' [->|He']%elem_of_cons Hl'.
    + rewrite (I1 (key e) (f e l)); [congruence|by eapply queue_set_eq|done].
    + apply I2; [done|]. rewrite queue_set_ne; [done|]. intros Ek. apply He. rewrite Ek. by apply list_elem_of_fmap_2.
  - rewrite I3. cbn. by rewrite length_insert.
Qed.

Lemma pop_sources_spec parts q q' : NoDup parts.*1 → pop_sources (sources_of parts) q = Ret q' →
  ∀ i l, per_flow_queues q !! i = Some l →
    per_flow_queues q' !! i = Some (drop (length (at_idx i (snapshot_of parts))) l).
Proof.
  intros Hnd E i l Hi. unfold pop_sources in E.
  assert (fst <$> sources_of parts `sublist_of` parts.*1) as Hsub.
  { clear. unfold sources_of. induction parts as [|[j [|p new]] parts IH]; csimpl; [done|..];
      [by apply sublist_cons|by apply sublist_skip]. }
  destruct (foldl_queues (λ s : nat * nat, drop s.2) fst (sources_of parts)) with q q' as (I1 & I2 & _);
    [by eapply sublist_NoDup|done|].
  destruct (at_idx_snapshot i parts Hnd) as [A1 A2].
  destruct (decide (i ∈ fst <$> sources_of parts)) as [Hin|Hni].
  - apply list_elem_of_fmap in Hin as ([j n] & -> & Hin). pose proof (I2 (j, n) l Hin Hi) as E'.
    cbn [fst snd] in *. rewrite E'. do 2 f_equal. apply list_elem_of_omap in Hin as ([j' new] & Hp & Ej). cbn in Ej.
    destruct new as [|p new]; [done|]. injection Ej as -> <-. by rewrite (A1 _ Hp).
  - rewrite (I1 i l Hi Hni). assert (at_idx i (snapshot_of parts) = []) as ->; [|done].
    destruct (decide (i ∈ parts.*1)) as [Hp|Hp]; [|by apply A2].
    apply list_elem_of_fmap in Hp as ([j new] & -> & Hp). cbn [fst snd] in *. rewrite (A1 new Hp). destruct new as [|p new]; [done|].
    destruct Hni. apply list_elem_of_fmap. exists (j, length (p :: new)). split; [done|].
    apply list_elem_of_omap. by exists (j, p :: new).
Qed.

Lemma retain_spec snap q q' : remove_taken false [] snap q = Ret q' → ∀ i l, per_flow_queues q !! i = Some l →
  per_flow_queues q' !! i = Some (if decide (i ∈ snap.*1)
    then filter (λ p, id_key p ∉ id_key <$> snap.*2) l else l).
Proof.
  intros E i l Hi. unfold remove_taken, retain_not_taken in E.
  destruct (foldl_queues (λ (_ : nat) l, filter (λ p, id_key p ∉ id_key <$> snap.*2) l) id (remove_dups snap.*1))
    with q q' as (I1 & I2 & _); [rewrite list_fmap_id; apply NoDup_remove_dups|done|].
  rewrite list_fmap_id in I1. case_decide as Hin.
  - apply (I2 i l); [by apply elem_of_remove_dups|done].
  - apply (I1 i l Hi). by rewrite elem_of_remove_dups.
Qed.

(** The packets put back to queue [i]. *)
Definition unsent (ids : list Z) (l : list (MpduPacket T P)) : list (MpduPacket T P) :=
  filter (λ p, packet_id p ∉ ids) l.
Lemma failed_by_deque_spec ids snap i :
  default [] (failed_by_deque ids snap !! i) = unsent ids (at_idx i snap).
Proof.
  unfold failed_by_deque. induction snap as [|[j p] snap IH] using rev_ind; [done|].
  rewrite foldl_snoc, at_idx_app. unfold unsent in *. rewrite filter_app, <-IH.
  change [(j, p)] with (pair j <$> [p]). rewrite at_idx_pair. cbn [fst snd].
  destruct (decide (packet_id p ∈ ids)) as [Hp|Hp]; destruct (decide (j = i)) as [->|Hne].
  - rewrite filter_cons_False by tauto. by rewrite filter_nil, app_nil_r.
  - by rewrite filter_nil, app_nil_r.
  - rewrite lookup_insert_eq. by rewrite filter_cons_True.
  - rewrite lookup_insert_ne by done. by rewrite filter_nil, app_nil_r.
Qed.
Lemma push_front_all (failed l : list (MpduPacket T P)) : foldl (λ l p, p :: l) l (reverse failed) = failed ++ l.
Proof.
  induction failed as [|p failed IH]; [done|]. by rewrite reverse_cons, foldl_app, IH.
Qed.
Lemma requeue_spec failed q q' : requeue failed q = Ret q' → ∀ i l, per_flow_queues q !! i = Some l →
  per_flow_queues q' !! i = Some (default [] (failed !! i) ++ l).
Proof.
  intros E i l Hi. unfold requeue, requeue_one in E.
  destruct (foldl_queues (λ (e : nat * list (MpduPacket T P)) l, foldl (λ l p, p :: l) l (reverse e.2)) fst (hm_iter failed))
    with q q' as (I1 & I2 & _); [rewrite hm_iter_perm; apply NoDup_fst_map_to_list|done|].
  destruct (failed !! i) as [f|] eqn:Ef.
  - cbn [default]. rewrite <-push_front_all. apply (I2 (i, f) l); [|done].
    by rewrite hm_iter_perm, elem_of_map_to_list.
  - apply I1; [done|]. rewrite hm_iter_perm. intros ([j f] & -> & Hin)%list_elem_of_fmap.
    apply elem_of_map_to_list in Hin. naive_solver.
Qed.

(** ** Counters *)
Definition active_of q (c : Z * EdcaAc) : Z := default 0 (active_mac_key_counts q !! c).
Definition depth_of q (l : Z) : nat := default 0%nat (link_queue_depths q !! l).
Lemma decr_active_of k q c :
  active_of q c - (if decide (c = k) then 1 else 0) ≤ active_of (decr_active k q) c.
Proof.
  unfold active_of, decr_active. destruct (active_mac_key_counts q !! k) as [n|] eqn:E; cbn.
  - destruct (decide (c = k)) as [->|Hne].
    + rewrite lookup_insert_eq, E. cbn. lia.
    + rewrite lookup_insert_ne by done. lia.
  - case_decide; lia.
Qed.
Lemma decr_depth_of l q l' :
  (depth_of q l' ≤ depth_of (decr_depth l q) l' + (if decide (l' = l) then 1 else 0))%nat.
Proof.
  unfold depth_of, decr_depth. destruct (link_queue_depths q !! l) as [n|] eqn:E; cbn.
  - destruct (decide (l' = l)) as [->|Hne].
    + rewrite lookup_insert_eq, E. cbn. lia.
    + rewrite lookup_insert_ne by done. lia.
  - case_decide; lia.
Qed.
Lemma decr_active_frame k q : cfg (decr_active k q) = cfg q ∧
  per_flow_queues (decr_active k q) = per_flow_queues q ∧ link_queue_depths (decr_active k q) = link_queue_depths q.
Proof. unfold decr_active. by case_match. Qed.
Lemma decr_depth_frame l q : cfg (decr_depth l q) = cfg q ∧
  per_flow_queues (decr_depth l q) = per_flow_queues q ∧ active_mac_key_counts (decr_depth l q) = active_mac_key_counts q.
Proof. unfold decr_depth. by case_match. Qed.

(** The packets of category [c] in a list. *)
Definition of_category (c : Z * EdcaAc) (l : list (MpduPacket T P)) : nat := length (filter (λ p, ac_key p = c) l).
Lemma count_all_sent_spec l q : Forall (λ p, assigned_link_id p = None) l →
  let q' := count_all_sent l q in
  cfg q' = cfg q ∧ per_flow_queues q' = per_flow_queues q ∧ link_queue_depths q' = link_queue_depths q ∧
  ∀ c, active_of q c - Z.of_nat (of_category c l) ≤ active_of q' c.
Proof.
  intros Hl. unfold count_all_sent.
  assert (let q1 := foldl count_sent q l in
    cfg q1 = cfg q ∧ per_flow_queues q1 = per_flow_queues q ∧ link_queue_depths q1 = link_queue_depths q ∧
    ∀ c, active_of q c - Z.of_nat (of_category c l) ≤ active_of q1 c) as H1'.
  { revert q. induction Hl as [|p l Hp Hl IH]; intros q; cbn [foldl]; [split_and!; try done; intros; cbn; lia|].
    assert (count_sent q p = decr_active (ac_key p) q) as E by (unfold count_sent; by rewrite Hp).
    specialize (IH (count_sent q p)). destruct IH as (I1 & I2 & I3 & I4).
    destruct (decr_active_frame (ac_key p) q) as (F1 & F2 & F3). rewrite E in *.
    split_and!; [by rewrite I1|by rewrite I2|by rewrite I3|]. intros c. specialize (I4 c).
    pose proof (decr_active_of (ac_key p) q c). unfold of_category in *. rewrite filter_cons.
    repeat case_decide; try congruence; cbn [length]; lia. }
  destruct H1' as (I1 & I2 & I3 & I4).
  assert (queue_part (foldl (λ q e, uncache e.1 e.2 q) (foldl count_sent q l) (hm_iter (packets_removed_by_key l))) =
    queue_part (foldl count_sent q l)) as Eq.
  { apply (foldl_ind (λ q', queue_part q' = queue_part (foldl count_sent q l))); [done|].
    intros. by rewrite uncache_queue. }
  unfold queue_part in Eq. injection Eq as E1 E2 E3 E4. cbv zeta. rewrite E1, E2, E3. unfold active_of. rewrite E4.
  split_and!; done.
Qed.

(** ** [build_new_ampdu] *)
(** What one call does: the aggregate is [parts], of which [sent] gets through. *)
Record built (first : MpduPacket T P) (link : Z) q (a : AmpduPacket T P) (airtime : Z) q'
    (parts : list (nat * list (MpduPacket T P))) : Prop := {
  bt_NoDup : NoDup parts.*1;
  bt_keys : ∀ i, i ∈ parts.*1 → ∃ k, mac_key_index (cfg q) !! k = Some i ∧
    key_sta k = key_sta (flow_key first link) ∧ key_ac k = key_ac (flow_key first link);
  bt_parts : Forall (λ e, ∃ l, per_flow_queues q !! e.1 = Some l ∧
    taken_from (is_ul first) (sta_dest_id first) l e.2) parts;
  bt_sent : ∃ kept, kept `sublist_of` (snapshot_of parts).*2 ∧ core <$> mpdu_packets a = core <$> kept;
  bt_limits : ∃ cap, txop_cap_secs (flow_key first link) q = Ret cap ∧
    (snapshot_of parts = [] ∧ airtime = 0 ∨
     Z.of_nat (length (snapshot_of parts)) ≤ as_i32 (Z.of_nat (packs_per_ampdu (cfg q))) ∧ within_limits cap airtime);
  bt_queues : ∀ i l, per_flow_queues q !! i = Some l → per_flow_queues q' !! i = Some
    (unsent (packet_id <$> mpdu_packets a) (at_idx i (snapshot_of parts)) ++
     (if is_ul first then drop (length (at_idx i (snapshot_of parts))) l
      else if decide (i ∈ (snapshot_of parts).*1)
      then filter (λ p, id_key p ∉ id_key <$> (snapshot_of parts).*2) l else l));
  bt_length : length (per_flow_queues q') = length (per_flow_queues q);
  bt_counts : ∃ q1, cfg q1 = cfg q ∧ per_flow_queues q1 = per_flow_queues q' ∧
    active_mac_key_counts q1 = active_mac_key_counts q ∧ link_queue_depths q1 = link_queue_depths q ∧
    queue_part q' = queue_part (count_all_sent (mpdu_packets a) q1)
}.

(** Removing and putting back packets leaves the counters. *)
Definition counters q := (cfg q, active_mac_key_counts q, link_queue_depths q, length (per_flow_queues q)).
Lemma set_queue_counters i l q : counters (set_queue i l q) = counters q.
Proof. unfold counters. cbn. by rewrite length_insert. Qed.
Lemma remove_taken_counters ul s snap q q' : remove_taken ul s snap q = Ret q' → counters q' = counters q.
Proof.
  unfold remove_taken, pop_sources, retain_not_taken. destruct ul;
    (apply (foldl_outcome_ind (λ q', counters q' = counters q)); [done|]);
    intros q0 x q1 _ IH (l & _ & [= <-])%bind_Ret; by rewrite set_queue_counters.
Qed.
Lemma requeue_counters f q q' : requeue f q = Ret q' → counters q' = counters q.
Proof.
  unfold requeue, requeue_one.
  apply (foldl_outcome_ind (λ q', counters q' = counters q)
    (λ (q : QueueModule T P) (e : nat * list (MpduPacket T P)),
       l ← queue_at e.1 q; Ret (set_queue e.1 (foldl (λ l p, p :: l) l (reverse e.2)) q))); [done|].
  intros q0 x q1 _ IH (l & _ & [= <-])%bind_Ret. by rewrite set_queue_counters.
Qed.
Lemma count_all_sent_queues l q : per_flow_queues (count_all_sent l q) = per_flow_queues q ∧ cfg (count_all_sent l q) = cfg q.
Proof.
  unfold count_all_sent.
  apply (foldl_ind (λ q', per_flow_queues q' = per_flow_queues q ∧ cfg q' = cfg q)).
  - apply (foldl_ind (λ q', per_flow_queues q' = per_flow_queues q ∧ cfg q' = cfg q)); [done|].
    intros q0 p _ [E1 E2]. unfold count_sent.
    assert (∀ q1, per_flow_queues (decr_active (ac_key p) q1) = per_flow_queues q1 ∧ cfg (decr_active (ac_key p) q1) = cfg q1) as Hd.
    { intros q1. by destruct (decr_active_frame (ac_key p) q1) as (? & ? & _). }
    destruct (Hd (match assigned_link_id p with Some l => decr_depth l q0 | None => q0 end)) as [-> ->].
    destruct (assigned_link_id p) as [l0|]; [|done]. destruct (decr_depth_frame l0 q0) as (-> & -> & _). done.
  - intros q0 e _ [E1 E2]. pose proof (uncache_queue e.1 e.2 q0) as Eu. unfold queue_part in Eu.
    injection Eu as -> -> _ _. done.
Qed.

Lemma remove_taken_queues ul parts q q' : NoDup parts.*1 →
  remove_taken ul (sources_of parts) (snapshot_of parts) q = Ret q' →
  ∀ i l, per_flow_queues q !! i = Some l → per_flow_queues q' !! i = Some
    (if ul then drop (length (at_idx i (snapshot_of parts))) l
     else if decide (i ∈ (snapshot_of parts).*1)
     then filter (λ p, id_key p ∉ id_key <$> (snapshot_of parts).*2) l else l).
Proof.
  intros Hnd E. destruct ul; [by apply pop_sources_spec|]. by apply retain_spec.
Qed.

Lemma build_built first link now q a airtime q' : index_inj (mac_key_index (cfg q)) →
  build_new_ampdu first link now q = Ret (a, airtime, q') → ∃ parts, built first link q a airtime q' parts.
Proof.
  intros Hinj ([g src] & Eg & ([sent q1] & E1 & (q2 & E2 & [= <- <- <-])%bind_Ret)%bind_Ret)%bind_Ret.
  unfold gather in Eg. inv_ret Eg as (w & _ & Eg). destruct (_ || _); [done|].
  inv_ret Eg as (st & Est & Eg). inv_ret Eg as (backlog & _ & Eg).
  inv_ret Eg as (i0 & Ei0%unwrap_Ret & Eg).
  set (k := flow_key first link) in *.
  destruct (txop_cap_secs k q) as [cap| |] eqn:Ecap; [|by unfold txop_cap_secs in Ecap; rewrite Est in Ecap..].
  eapply aggregate_spec in Eg as (Hok & parts & D1 & D2 & D3 & D4); [|done|].
  2: { split; [done|]. split; [done|]. by left. }
  cbn in D2, D3. subst src. destruct (source_idxs_spec k i0 q Ei0 Hinj) as [Hnd Hkeys].
  destruct D1 as [tl Htl]. rewrite Htl in Hnd. apply NoDup_app in Hnd as [Hnd' _].
  destruct Hok as (A1 & A2 & A3). rewrite A1, D2 in *.
  destruct (draw_losses_mac _ _ _ _ _ _ _ E1) as [_ Q1]. destruct (draw_losses_spec _ _ _ _ _ _ _ E1) as (kept & K1 & K2).
  unfold settle in E2. inv_ret E2 as (q3 & E3 & (q4 & E4 & [= <-])%bind_Ret).
  pose proof (remove_taken_counters _ _ _ _ _ E3) as C3. pose proof (requeue_counters _ _ _ E4) as C4.
  destruct (count_all_sent_queues sent q4) as [F1 F2].
  unfold queue_part in Q1. injection Q1 as Q1 Q2 Q3 Q4. unfold counters in C3, C4.
  injection C3 as C31 C32 C33 C34. injection C4 as C41 C42 C43 C44.
  exists parts. split.
  - done.
  - intros i Hi. apply Hkeys. rewrite Htl. apply elem_of_app. by left.
  - done.
  - cbn. by exists kept.
  - exists cap. split; [done|]. destruct A3 as [[A3 A4]|[A3 A4]].
    + left. split; [by apply fmap_nil_inv in A3|done].
    + right. split; [|done]. by rewrite A2, length_fmap in A3.
  - intros i l Hi. cbn. rewrite F1. rewrite <-Q2 in Hi.
    pose proof (remove_taken_queues _ _ _ _ Hnd' E3 i l Hi) as R3.
    rewrite (requeue_spec _ _ _ E4 i _ R3), failed_by_deque_spec. done.
  - cbn. rewrite F1. congruence.
  - exists q4. split_and!; [congruence|by cbn; rewrite F1|congruence|congruence|done].
Qed.
End agg.
End Aggregation.
