(* ===== verification/QueueInv.v ===== *)
(** * The queues of the access point and their counters

    The invariant of the queueing half, kept by every handler: a queue holds packets
    of its own station and category and never more than its capacity, and the two
    counters that the MAC consults ([active_mac_key_counts] per station and
    category, [link_queue_depths] per link) are never below the number of packets
    queued.  The counters may be above it, and the depths of the links are. *)

From stdpp Require Import list_numbers.
From S2P Require Import Prelude Scheduler F32 SimRng Airtime Edca EdcaFacts MacData AccessPoint ApFrames Aggregation.

(** ** Sums over the index *)
Section wsum.
Context {Key C : Type} `{Countable Key} `{EqDecision C} (f : Key → C) (c : C).
Implicit Types idx : gmap Key nat.

(** The sum of [w i] over the entries [(k, i)] with [f k = c]. *)
Definition wsum idx (w : nat → nat) : nat :=
  sum_list_with (λ e, if decide (f e.1 = c) then w e.2 else 0%nat) (map_to_list idx).

Lemma sum_list_with_mono {A} (g h : A → nat) l : (∀ x, x ∈ l → (g x ≤ h x)%nat) →
  (sum_list_with g l ≤ sum_list_with h l)%nat.
Proof.
  induction l as [|x l IH]; intros Hle; simpl; [done|].
  pose proof (Hle x ltac:(by left)). specialize (IH (λ y Hy, Hle y ltac:(by right))). lia.
Qed.
Lemma sum_list_with_add {A} (g h : A → nat) l :
  sum_list_with (λ x, (g x + h x)%nat) l = (sum_list_with g l + sum_list_with h l)%nat.
Proof. induction l; simpl; lia. Qed.

Lemma wsum_mono idx w w' : (∀ k i, idx !! k = Some i → f k = c → (w i ≤ w' i)%nat) →
  (wsum idx w ≤ wsum idx w')%nat.
Proof.
  intros Hle. apply sum_list_with_mono. intros [k i] Hin%elem_of_map_to_list. cbn.
  case_decide; [by eapply Hle|lia].
Qed.
Lemma wsum_add idx w w' : wsum idx (λ i, (w i + w' i)%nat) = (wsum idx w + wsum idx w')%nat.
Proof.
  unfold wsum.
  induction (map_to_list idx) as [|e l IH]; simpl; [done|]. rewrite IH. case_decide; lia.
Qed.
Lemma wsum_ge idx w k i : idx !! k = Some i → f k = c → (w i ≤ wsum idx w)%nat.
Proof.
  intros Hk Hf. assert ((k, i) ∈ map_to_list idx) as Hin by by apply elem_of_map_to_list.
  pose proof (sum_list_with_in (k, i) (λ e, if decide (f e.1 = c) then w e.2 else 0%nat) _ Hin) as Hs.
  cbn in Hs. by rewrite decide_True in Hs.
Qed.
(** A weight at one place. *)
Lemma wsum_at idx k i n : idx !! k = Some i → (∀ k', idx !! k' = Some i → k' = k) →
  (wsum idx (λ j, if decide (j = i) then n else 0) ≤ if decide (f k = c) then n else 0)%nat.
Proof.
  intros Hk Hinj. unfold wsum. rewrite <-(insert_delete_id idx k i Hk) at 1.
  rewrite map_to_list_insert by apply lookup_delete_eq. simpl. rewrite (decide_True (P := i = i)) by done.
  assert (sum_list_with (λ e : Key * nat, if decide (f e.1 = c) then if decide (e.2 = i) then n else 0 else 0)
            (map_to_list (delete k idx)) ≤ 0)%nat; [|lia].
  etrans; [apply (sum_list_with_mono _ (λ _, 0%nat))|clear; induction (map_to_list (delete k idx)); simpl; lia].
  intros [k' j] Hin%elem_of_map_to_list. apply lookup_delete_Some in Hin as [Hne Hk']. cbn.
  repeat case_decide; try done. subst j. apply Hinj in Hk'. congruence.
Qed.
(** Every element of a list of places counts. *)
Lemma wsum_count idx (l : list nat) : (∀ i, i ∈ l → ∃ k, idx !! k = Some i ∧ f k = c) →
  (length l ≤ wsum idx (λ i, length (filter (i =.) l)))%nat.
Proof.
  induction l as [|x l IH]; intros Hl; [simpl; lia|].
  etrans; [|apply (wsum_mono idx (λ i, (length (filter (i =.) l) + if decide (i = x) then 1 else 0)%nat))].
  - rewrite wsum_add. specialize (IH (λ i Hi, Hl i ltac:(by right))).
    destruct (Hl x ltac:(by left)) as (k & Hk & Hf).
    pose proof (wsum_ge idx (λ i, if decide (i = x) then 1%nat else 0%nat) k x Hk Hf) as Hg. cbn in Hg.
    rewrite decide_True in Hg by done. simpl. lia.
  - intros k i _ _. rewrite filter_cons. repeat case_decide; simpl; lia || congruence.
Qed.
End wsum.

Module QueueInv.
Import Rng Ap EdcaFacts ApFrames Aggregation.

Section qinv.
Context {T P : Type} `{TaiTime T} `{!Epoch T} `{!Rand} `{!HashOrder} `{!PhyEnv} `{!LegacyIds}.
Implicit Types q : QueueModule T P.
Implicit Types p : MpduPacket T P.

Definition queue_of q (i : nat) : list (MpduPacket T P) := default [] (per_flow_queues q !! i).
Definition qlen q (i : nat) : nat := length (queue_of q i).
Definition sta_ac (k : MacKey) : Z * EdcaAc := (key_sta k, key_ac k).
(** The packets queued under a station and category, and on a link. *)
Definition load_ac q (c : Z * EdcaAc) : nat := wsum sta_ac c (mac_key_index (cfg q)) (qlen q).
Definition load_link q (l : Z) : nat := wsum key_link l (mac_key_index (cfg q)) (qlen q).
Definition capacity q (k : MacKey) : nat :=
  if key_sta k =? -1 then queue_maxsize_dl (cfg q) else ul_capacity_queue_device (cfg q).
(** The packet belongs to the queue of [k]. *)
Definition fits (k : MacKey) p : Prop := ac_key p = sta_ac k ∧ assigned_link_id p = None.

Record qinv q : Prop := {
  qi_inj : index_inj (mac_key_index (cfg q));
  qi_active : ∀ c, Z.of_nat (load_ac q c) ≤ active_of q c;
  qi_depth : ∀ l, (load_link q l ≤ depth_of q l)%nat;
  qi_packets : ∀ k i, mac_key_index (cfg q) !! k = Some i → Forall (fits k) (queue_of q i);
  qi_capacity : ∀ k i, mac_key_index (cfg q) !! k = Some i → (qlen q i ≤ capacity q k)%nat;
  qi_caps : (ul_capacity_queue_device (cfg q) ≤ queue_maxsize_dl (cfg q))%nat
}.

Lemma qinv_part q q' : queue_part q' = queue_part q → qinv q → qinv q'.
Proof.
  unfold queue_part. intros E. injection E as E1 E2 E3 E4. intros [].
  split; unfold load_ac, load_link, active_of, depth_of, capacity, qlen, queue_of in *;
    rewrite ?E1, ?E2, ?E3, ?E4; done.
Qed.

(** Packets leave: every queue has at most what it had, [out i] fewer packets at
    least, and the counters go down by no more. *)
Lemma qinv_leave q q' (out : nat → nat) : qinv q → cfg q' = cfg q →
  (∀ k i, mac_key_index (cfg q) !! k = Some i → (qlen q' i + out i ≤ qlen q i)%nat ∧ Forall (fits k) (queue_of q' i)) →
  (∀ c, active_of q c - Z.of_nat (wsum sta_ac c (mac_key_index (cfg q)) out) ≤ active_of q' c) →
  (∀ l, (depth_of q l - wsum key_link l (mac_key_index (cfg q)) out ≤ depth_of q' l)%nat) →
  qinv q'.
Proof.
  intros [] Ec Hq Ha Hd. split; rewrite ?Ec; try done.
  - intros c. specialize (Ha c). specialize (qi_active0 c). unfold load_ac in *. rewrite Ec.
    assert (wsum sta_ac c (mac_key_index (cfg q)) (qlen q') + wsum sta_ac c (mac_key_index (cfg q)) out ≤
      wsum sta_ac c (mac_key_index (cfg q)) (qlen q))%nat; [|lia].
    rewrite <-wsum_add. apply wsum_mono. intros k i Hk _. by apply Hq with k.
  - intros l. specialize (Hd l). specialize (qi_depth0 l). unfold load_link in *. rewrite Ec.
    assert (wsum key_link l (mac_key_index (cfg q)) (qlen q') + wsum key_link l (mac_key_index (cfg q)) out ≤
      wsum key_link l (mac_key_index (cfg q)) (qlen q))%nat; [|lia].
    rewrite <-wsum_add. apply wsum_mono. intros k i Hk _. by apply Hq with k.
  - intros k i Hk. by apply (Hq k i).
  - intros k i Hk. destruct (Hq k i Hk) as [Hl _]. specialize (qi_capacity0 k i Hk).
    unfold capacity in *. rewrite Ec. lia.
Qed.
(** One packet joins the queue of [k], and both counters go up. *)
Lemma qinv_join q q' k i p : qinv q → cfg q' = cfg q → mac_key_index (cfg q) !! k = Some i → fits k p →
  (qlen q i < capacity q k)%nat →
  (∀ j, queue_of q' j = if decide (j = i) then queue_of q i ++ [p] else queue_of q j) →
  (∀ c, active_of q' c = active_of q c + if decide (sta_ac k = c) then 1 else 0) →
  (∀ l, depth_of q' l = (depth_of q l + if decide (key_link k = l) then 1 else 0)%nat) →
  qinv q'.
Proof.
  intros [] Ec Hk Hfits Hroom Hq Ha Hd.
  assert (∀ j, (qlen q' j = qlen q j + if decide (j = i) then 1 else 0)%nat) as Hlen.
  { intros j. unfold qlen. rewrite Hq. case_decide as E; [subst; rewrite length_app; simpl|]; lia. }
  assert (∀ (C : Type) (E : EqDecision C) (f : MacKey → C) c,
    (wsum f c (mac_key_index (cfg q)) (qlen q') ≤
     wsum f c (mac_key_index (cfg q)) (qlen q) + if decide (f k = c) then 1 else 0)%nat) as Hw.
  { intros C E f c. etrans; [apply (wsum_mono f c _ _ (λ j, (qlen q j + if decide (j = i) then 1 else 0)%nat))|].
    - intros. rewrite Hlen. lia.
    - rewrite wsum_add. pose proof (wsum_at f c (mac_key_index (cfg q)) k i 1 Hk) as Hat.
      specialize (Hat (λ k' Hk', qi_inj0 _ _ _ Hk' Hk)). lia. }
  split; rewrite ?Ec; try done.
  - intros c. unfold load_ac. rewrite Ec, Ha. specialize (Hw _ _ sta_ac c). specialize (qi_active0 c).
    unfold load_ac in *. repeat case_decide; lia.
  - intros l. unfold load_link. rewrite Ec, Hd. specialize (Hw _ _ key_link l). specialize (qi_depth0 l).
    unfold load_link in *. repeat case_decide; lia.
  - intros k' j Hk'. rewrite Hq. case_decide as E; [subst j|by apply qi_packets0].
    pose proof (qi_inj0 _ _ _ Hk' Hk) as ->. apply Forall_app. split; [by apply qi_packets0|by constructor].
  - intros k' j Hk'. unfold capacity in *. rewrite Ec, Hlen. specialize (qi_capacity0 k' j Hk').
    case_decide as E; [subst j|lia]. pose proof (qi_inj0 _ _ _ Hk' Hk) as ->. lia.
Qed.

(** ** Admission *)
Lemma incr_facts k q : let q' := incr_active (sta_ac k) (incr_depth (key_link k) q) in
  cfg q' = cfg q ∧ per_flow_queues q' = per_flow_queues q ∧
  (∀ c, active_of q' c = active_of q c + if decide (sta_ac k = c) then 1 else 0) ∧
  (∀ l, depth_of q' l = (depth_of q l + if decide (key_link k = l) then 1 else 0)%nat).
Proof.
  split_and!; [done..| |].
  - intros c. unfold active_of. cbn. case_decide as E.
    + subst c. by rewrite lookup_insert_eq.
    + rewrite lookup_insert_ne by done. lia.
  - intros l. unfold depth_of. cbn. case_decide as E.
    + subst l. rewrite lookup_insert_eq. cbn. lia.
    + rewrite lookup_insert_ne by done. lia.
Qed.
Lemma enqueue_qinv now k cap p q b q' : qinv q → fits k p → (cap ≤ capacity q k)%nat →
  enqueue now k cap p q = Ret (b, q') →
  qinv q' ∧ cfg q' = cfg q.
Proof.
  intros Hi Hfits Hcap (depth & Ed & E)%bind_Ret.
  destruct (Nat.ltb_spec depth cap); [|by injection E as <- <-].
  inv_ret E as (q1 & E1 & E). cbv zeta in E. inv_ret E as (idle & _ & E).
  inv_ret E as (q2 & E2 & E). inv_ret E as (q3 & E3 & [= <- <-]).
  apply cache_input_mac in E1 as [_ E1]. assert (qinv q1) as Hi1 by by eapply qinv_part.
  destruct (incr_facts k q1) as (F1 & F2 & F3 & F4). unfold sta_ac in F1, F2, F3, F4.
  set (q1' := incr_active _ _) in *.
  inv_ret E2 as (i & Ei%unwrap_Ret & (l & El%unwrap_Ret & [= <-])%bind_Ret).
  inv_ret Ed as (i' & Ei'%unwrap_Ret & (l' & El'%unwrap_Ret & [= <-])%bind_Ret).
  unfold queue_part in E1. injection E1 as C1 C2 C3 C4. rewrite F1 in Ei. rewrite F2 in El. rewrite C1 in Ei.
  assert (i' = i) as -> by congruence. assert (l' = l) as -> by congruence.
  assert (queue_part q3 = queue_part (set_queue i (l ++ [p]) q1')) as Eq.
  { case_match; [by apply schedule_tick_queue in E3|by injection E3 as <-]. }
  split; [|injection Eq; congruence].
  eapply qinv_part; [exact Eq|]. apply (qinv_join q1 _ k i p); [done|done|by rewrite C1|done| |..].
  - unfold capacity, qlen, queue_of in *. rewrite C1, El. cbn. lia.
  - intros j. unfold queue_of. rewrite queue_set, F2. case_decide as Ed1.
    + destruct Ed1 as [<- _]. by rewrite decide_True, El by done.
    + case_decide as Ed2; [|done]. subst j. destruct Ed1. split; [done|]. by eapply lookup_lt_Some.
  - intros c. apply F3.
  - intros l1. apply F4.
Qed.
Lemma input_qinv now p q q' : qinv q → input now p q = Ret q' → qinv q' ∧ cfg q' = cfg q.
Proof.
  intros Hi E. unfold input in E. inv_ret E as ([sel q1] & [_ E1]%select_link_mac & E).
  assert (qinv q1) as Hi1 by (eapply qinv_part; [exact E1|]; by apply (qinv_part q)).
  assert (cfg q1 = cfg q) as C1 by by injection E1.
  destruct (is_ul _) eqn:Eu; [by injection E as <-|]. destruct sel as [l|]; [|injection E as <-; split; [by apply (qinv_part q1)|done]].
  unfold assign_link, STR_PLUS_MODE_MLO in E. cbn [mbind outcome_bind] in E.
  inv_ret E as ([b q2] & E2 & [= <-]). apply enqueue_qinv in E2 as [Hi2 C2]; [|done|..].
  - assert (qinv (if b then q2 else block_packet q2) ∧ cfg (if b then q2 else block_packet q2) = cfg q2) as [? ->].
    { destruct b; [done|]. split; [|done]. by apply (qinv_part q2). }
    by rewrite C2.
  - split; [|done]. unfold ac_key. change (is_ul _) with (is_ul (set_queue_in now p)). by rewrite Eu.
  - done.
Qed.
Lemma input_UL_qinv now p q q' : qinv q → input_UL now p q = Ret q' → qinv q' ∧ cfg q' = cfg q.
Proof.
  intros Hi E. unfold input_UL in E. inv_ret E as ([sel q1] & [_ E1]%select_link_mac & E).
  assert (qinv q1) as Hi1 by (eapply qinv_part; [exact E1|]; by apply (qinv_part q)).
  assert (cfg q1 = cfg q) as C1 by by injection E1.
  destruct (is_ul p) eqn:Eu; [|by injection E as <-]. destruct sel as [l|]; [|injection E as <-; split; [by apply (qinv_part q1)|done]].
  unfold assign_link, STR_PLUS_MODE_MLO in E. cbn [mbind outcome_bind] in E.
  inv_ret E as ([b q2] & E2 & [= <-]). apply enqueue_qinv in E2 as [Hi2 C2]; [by rewrite C2|done|..].
  - split; [|done]. unfold ac_key. change (is_ul _) with (is_ul p). by rewrite Eu.
  - unfold capacity. case_match; [apply Hi1|done].
Qed.

(** ** Drops *)
(** The counters of [c] and [l] go down by [n] at most, and the queues stay. *)
Definition uncounted (n : nat) (c : Z * EdcaAc) (l : Z) q q' : Prop :=
  cfg q' = cfg q ∧ per_flow_queues q' = per_flow_queues q ∧
  (∀ c', active_of q c' - (if decide (c' = c) then Z.of_nat n else 0) ≤ active_of q' c') ∧
  (∀ l', (depth_of q l' ≤ depth_of q' l' + if decide (l' = l) then n else 0)%nat).
Lemma uncounted_trans n m c l q1 q2 q3 :
  uncounted n c l q1 q2 → uncounted m c l q2 q3 → uncounted (n + m) c l q1 q3.
Proof.
  intros (A1 & A2 & A3 & A4) (B1 & B2 & B3 & B4). split_and!; [congruence..| |].
  - intros c'. specialize (A3 c'). specialize (B3 c'). case_decide; lia.
  - intros l'. specialize (A4 l'). specialize (B4 l'). case_decide; lia.
Qed.
Lemma uncounted_part c l q q' : queue_part q' = queue_part q → uncounted 0 c l q q'.
Proof.
  unfold queue_part. intros E. injection E as E1 E2 E3 E4. unfold uncounted, active_of, depth_of.
  rewrite E1, E2, E3, E4. split_and!; [done..| |]; intros; case_decide; lia.
Qed.
Lemma count_drop_uncounted l c q : uncounted 1 c l q (count_drop l c q).
Proof.
  unfold count_drop. pose proof (decr_active_frame c (decr_depth l (block_packet q))) as (A1 & A2 & A3).
  pose proof (decr_depth_frame l (block_packet q)) as (B1 & B2 & B3).
  split_and!; [exact (eq_trans A1 B1)|exact (eq_trans A2 B2)| |].
  - intros c'. pose proof (decr_active_of c (decr_depth l (block_packet q)) c') as Hd.
    assert (active_of (decr_depth l (block_packet q)) c' = active_of q c') as E by (unfold active_of; by rewrite B3).
    rewrite E in Hd. done.
  - intros l'. pose proof (decr_depth_of l (block_packet q) l') as Hd. unfold depth_of in *. rewrite A3. done.
Qed.
(** [n] packets leave the queue of [k]. *)
Lemma qinv_drop q q' k i n l : qinv q → mac_key_index (cfg q) !! k = Some i →
  per_flow_queues q !! i = Some l → ∀ l', (length l' + n ≤ length l)%nat → (∀ p, p ∈ l' → p ∈ l) →
  uncounted n (sta_ac k) (key_link k) (set_queue i l' q) q' → qinv q' ∧ cfg q' = cfg q.
Proof.
  intros Hi Hk Hl l' Hlen Hin (U1 & U2 & U3 & U4). split; [|done].
  apply (qinv_leave q q' (λ j, if decide (j = i) then n else 0%nat)); [done|done| | |].
  - intros k' j Hk'. pose proof (qi_packets _ Hi _ _ Hk') as Hf. unfold qlen, queue_of in *. rewrite U2, queue_set.
    destruct (decide (j = i)) as [->|Hne].
    + rewrite decide_True by (split; [done|by eapply lookup_lt_Some]). rewrite Hl in *. cbn in *. split; [done|].
      rewrite Forall_forall in *. naive_solver.
    + rewrite decide_False by naive_solver. split; [lia|done].
  - intros c. specialize (U3 c). change (active_of (set_queue i l' q) c) with (active_of q c) in U3.
    destruct (decide (c = sta_ac k)) as [->|Hne]; [|lia].
    pose proof (wsum_ge sta_ac (sta_ac k) _ (λ j, if decide (j = i) then n else 0%nat) k i Hk eq_refl) as Hw.
    cbn in Hw. rewrite decide_True in Hw by done. lia.
  - intros l1. specialize (U4 l1). change (depth_of (set_queue i l' q) l1) with (depth_of q l1) in U4.
    destruct (decide (l1 = key_link k)) as [->|Hne]; [|lia].
    pose proof (wsum_ge key_link (key_link k) _ (λ j, if decide (j = i) then n else 0%nat) k i Hk eq_refl) as Hw.
    cbn in Hw. rewrite decide_True in Hw by done. lia.
Qed.
Lemma drop_back_qinv k i n q d q' : qinv q → mac_key_index (cfg q) !! k = Some i →
  drop_back (key_link k) (sta_ac k) i n q = Ret (d, q') → qinv q' ∧ cfg q' = cfg q.
Proof.
  intros Hi Hk (l & El%unwrap_Ret & [= _ E])%bind_Ret.
  set (m := Nat.min n (length l)) in *. set (gone := drop (length l - m) l) in *.
  apply (qinv_drop q q' k i m l Hi Hk El (take (length l - m) l)).
  - rewrite length_take. lia.
  - intros p. apply subseteq_take.
  - assert (m = length (reverse gone)) as Em by (rewrite length_reverse; unfold gone; rewrite length_drop; lia).
    rewrite <-E, Em at 1. generalize (set_queue i (take (length l - m) l) q). generalize (reverse gone). clear.
    intros ps. induction ps as [|p ps IH]; intros q0.
    { by apply uncounted_part. }
    cbn [foldl length]. eapply (uncounted_trans 1); [|apply IH].
    apply (uncounted_trans 1 0 _ _ _ (count_drop (key_link k) (sta_ac k) q0)); [apply count_drop_uncounted|].
    apply uncounted_part, uncache_queue.
Qed.
Lemma drop_dest_spec dest n l : let '(d, l') := drop_dest dest n l in
  (length l' + d = length l)%nat ∧ ∀ p, p ∈ l' → p ∈ l.
Proof.
  revert n. induction l as [|p l IH]; intros n; cbn [drop_dest]; [by split; [|intros]|].
  assert (let '(d, l1) := drop_dest dest n l in
    (length (p :: l1) + d = length (p :: l))%nat ∧ ∀ p', p' ∈ p :: l1 → p' ∈ p :: l) as Hkeep.
  { specialize (IH n). destruct (drop_dest dest n l) as [d l1]. destruct IH as [I1 I2]. split; [simpl; lia|].
    intros p'. rewrite !elem_of_cons. naive_solver. }
  destruct n as [|n]; [by destruct (drop_dest dest 0 l)|]. destruct (sta_dest_id p =? dest).
  - specialize (IH n). destruct (drop_dest dest n l) as [d l1]. destruct IH as [I1 I2]. split; [simpl; lia|].
    intros p' Hp'. right. by apply I2.
  - by destruct (drop_dest dest (S n) l).
Qed.
Lemma drop_front_qinv k f i n q d q' : qinv q → mac_key_index (cfg q) !! k = Some i →
  drop_front (key_link k) (sta_ac k) f i n q = Ret (d, q') → qinv q' ∧ cfg q' = cfg q.
Proof.
  intros Hi Hk (l & El%unwrap_Ret & E)%bind_Ret. pose proof (drop_dest_spec f.2 n l) as Hd.
  destruct (drop_dest f.2 n l) as [d1 l1]. destruct Hd as [L1 L2]. injection E as <- <-.
  apply (qinv_drop q _ k i d1 l Hi Hk El l1); [lia|done|].
  replace d1 with (d1 + 0)%nat at 1 by lia. eapply uncounted_trans; [|apply uncounted_part, uncache_queue].
  clear. induction d1 as [|d1 IH]; [by apply uncounted_part|].
  replace (S d1) with (d1 + 1)%nat at 1 by lia. eapply uncounted_trans; [exact IH|]. apply count_drop_uncounted.
Qed.
Lemma drop_on_link_qinv f ac l n q n' q' : qinv q → drop_on_link f ac l n q = Ret (n', q') → qinv q' ∧ cfg q' = cfg q.
Proof.
  intros Hi. unfold drop_on_link. destruct (n =? 0)%nat; [by intros [= <- <-]|].
  set (sta := if f.2 <? f.1 then f.1 else -1). destruct (mac_key_index (cfg q) !! (sta, ac, l)) as [i|] eqn:Hk; [|by intros [= <- <-]].
  intros ([d q1] & E & [= <- <-])%bind_Ret. destruct (f.2 <? f.1).
  - by apply (drop_back_qinv (sta, ac, l) i n q d q1).
  - by apply (drop_front_qinv (sta, ac, l) f i n q d q1).
Qed.
Lemma drop_overflow_qinv q q' : qinv q → drop_overflow q = Ret q' → qinv q' ∧ cfg q' = cfg q.
Proof.
  intros Hi. unfold drop_overflow. apply (foldl_outcome_ind (λ q', qinv q' ∧ cfg q' = cfg q)
    (λ (q : QueueModule T P) e, drop_flow (hm_iter (link_mediums q)).*1 e q)); [done|].
  intros q0 x q1 _ IH. unfold drop_flow. apply (foldl_outcome_ind (λ q', qinv q' ∧ cfg q' = cfg q)); [done|].
  intros q2 ac q3 _ [I2 C2]. unfold drop_ac. intros ([n1 q4] & E & [= <-])%bind_Ret.
  change q4 with (n1, q4).2. revert E.
  apply (foldl_outcome_ind (λ nq, qinv nq.2 ∧ cfg nq.2 = cfg q)
    (λ (nq : nat * QueueModule T P) l, let '(n, q) := nq in drop_on_link x.1 ac l n q)); [done|].
  intros [n0 q5] l [n6 q6] _ [I5 C5] [I6 C6]%drop_on_link_qinv; [|done]. split; [done|]. cbn in *. congruence.
Qed.

(** ** Aggregation *)
Lemma length_filter_split {A} (Q : A → Prop) `{∀ x, Decision (Q x)} l :
  (length (filter Q l) + length (filter (λ x, ¬ Q x) l) = length l)%nat.
Proof. induction l as [|x l IH]; [done|]. rewrite !filter_cons. repeat case_decide; simpl; lia || tauto. Qed.
Lemma filter_sublist {A} (Q : A → Prop) `{∀ x, Decision (Q x)} l1 l2 :
  l1 `sublist_of` l2 → filter Q l1 `sublist_of` filter Q l2.
Proof.
  induction 1 as [|x l1 l2 Hs IH|x l1 l2 Hs IH]; [constructor|..]; rewrite ?filter_cons; case_decide;
    [by apply sublist_skip|done|by apply sublist_cons|done].
Qed.
Lemma filter_fmap {A B} (g : A → B) (Q : B → Prop) `{∀ x, Decision (Q x)} (l : list A) :
  filter Q (g <$> l) = g <$> filter (λ x, Q (g x)) l.
Proof. induction l as [|x l IH]; [done|]. csimpl. rewrite !filter_cons. case_decide; csimpl; by rewrite IH. Qed.
Lemma fits_core k p p' : core p = core p' → fits k p' → fits k p.
Proof.
  intros E [F1 F2]. split; [by rewrite (core_ac_key _ _ E)|].
  destruct (core_fields _ _ E) as (_ & _ & _ & _ & ->). done.
Qed.
Lemma core_elem (l l' : list (MpduPacket T P)) p : core <$> l = core <$> l' → p ∈ l → ∃ p', p' ∈ l' ∧ core p = core p'.
Proof.
  intros E Hp. apply (list_elem_of_fmap_2 core) in Hp. rewrite E in Hp.
  apply list_elem_of_fmap in Hp as (p' & -> & Hp'). by exists p'.
Qed.

(** A function of the core gives the same list. *)
Lemma fmap_core {B} (g : MpduPacket T P → B) (l l' : list (MpduPacket T P)) : core <$> l = core <$> l' →
  (∀ p p', core p = core p' → g p = g p') → g <$> l = g <$> l'.
Proof.
  intros E Hg. revert l' E. induction l as [|p l IH]; intros [|p' l'] E; csimpl in *; try done.
  apply (inj2 cons) in E as [E1 E2]. f_equal; [by apply Hg|by apply IH].
Qed.

Section built.
Context (first : MpduPacket T P) (link : Z) (q : QueueModule T P) (a : AmpduPacket T P) (airtime : Z)
  (q' : QueueModule T P) (parts : list (nat * list (MpduPacket T P))).
Hypothesis Hi : qinv q.
Hypothesis Hb : built first link q a airtime q' parts.
Let snap := snapshot_of parts.
Let ids := packet_id <$> mpdu_packets a.

(** The contribution of a queue, as packets of that queue. *)
Lemma at_idx_taken i l : per_flow_queues q !! i = Some l →
  taken_from (is_ul first) (sta_dest_id first) l (at_idx i snap).
Proof.
  intros Hl. destruct (at_idx_snapshot i parts (bt_NoDup _ _ _ _ _ _ _ Hb)) as [A1 A2]. fold snap in A1, A2.
  destruct (decide (i ∈ parts.*1)) as [Hin|Hni].
  - apply list_elem_of_fmap in Hin as ([j new] & -> & Hin). cbn [fst] in *. rewrite (A1 new Hin).
    pose proof (bt_parts _ _ _ _ _ _ _ Hb) as Hp. rewrite Forall_forall in Hp.
    destruct (Hp _ Hin) as (l' & Hl' & Ht). cbn in *. by simplify_eq.
  - rewrite (A2 Hni). exists []. split_and!; [done|apply sublist_nil_l|done|intros _; apply prefix_nil].
Qed.
Lemma snap_elem i p : (i, p) ∈ snap → p ∈ at_idx i snap.
Proof. intros Hin. apply list_elem_of_fmap. exists (i, p). split; [done|]. by apply list_elem_of_filter. Qed.
Lemma at_idx_elem i p : p ∈ at_idx i snap → (i, p) ∈ snap.
Proof.
  intros ([j p'] & -> & Hf)%list_elem_of_fmap. apply list_elem_of_filter in Hf as [<- Hf]. done.
Qed.
Lemma snap_part i p : (i, p) ∈ snap → ∃ new, (i, new) ∈ parts.
Proof.
  intros Hin. apply list_elem_of_In, in_concat in Hin as (x & Hx & Hin). apply list_elem_of_In in Hx, Hin.
  apply list_elem_of_fmap in Hx as ([j new] & -> & Hp). apply list_elem_of_fmap in Hin as (p' & [= -> ->] & _).
  by exists new.
Qed.
Lemma snap_key i : i ∈ snap.*1 → ∃ k, mac_key_index (cfg q) !! k = Some i ∧ sta_ac k = sta_ac (flow_key first link).
Proof.
  intros ([j p] & -> & Hin)%list_elem_of_fmap. cbn.
  destruct (bt_keys _ _ _ _ _ _ _ Hb j) as (k & Hk & E1 & E2).
  - apply snap_part in Hin as [new Hp]. by apply (list_elem_of_fmap_2 fst) in Hp.
  - exists k. split; [done|]. unfold sta_ac. by rewrite E1, E2.
Qed.

Definition rest (i : nat) (l : list (MpduPacket T P)) : list (MpduPacket T P) :=
  if is_ul first then drop (length (at_idx i snap)) l
  else if decide (i ∈ snap.*1) then filter (λ p, id_key p ∉ id_key <$> snap.*2) l else l.
Lemma rest_shorter i l : per_flow_queues q !! i = Some l →
  (length (rest i l) + length (at_idx i snap) ≤ length l)%nat ∧ ∀ p, p ∈ rest i l → p ∈ l.
Proof.
  intros Hl. destruct (at_idx_taken i l Hl) as (ps & Ec & Hsub & _ & Hpre).
  assert (length (at_idx i snap) = length ps) as El by (apply (f_equal length) in Ec; by rewrite !length_fmap in Ec).
  assert (length ps ≤ length l)%nat as Hle by by apply sublist_length.
  unfold rest. destruct (is_ul first).
  - split; [rewrite length_drop; lia|]. intros p. apply subseteq_drop.
  - case_decide as Hin; [split; [|intros p; by rewrite list_elem_of_filter; intros [_ ?]]|split; [|done]].
    + rewrite El. pose proof (length_filter_split (λ p, id_key p ∈ id_key <$> snap.*2) l) as Hs.
      assert (length ps ≤ length (filter (λ p, id_key p ∈ id_key <$> snap.*2) l))%nat; [|lia].
      apply sublist_length. rewrite <-(filter_all (λ p, id_key p ∈ id_key <$> snap.*2) ps); [by apply filter_sublist|].
      apply Forall_forall. intros p Hp. destruct (core_elem ps (at_idx i snap) p) as (p' & Hp' & Ep); [done..|].
      rewrite (core_id_key _ _ Ep). apply list_elem_of_fmap_2. apply at_idx_elem in Hp'. by apply (list_elem_of_fmap_2 snd) in Hp'.
    + rewrite El. assert (at_idx i snap = []) as E0; [|rewrite E0 in El; simpl in El; lia].
      destruct (at_idx i snap) as [|p l0] eqn:E0; [done|]. destruct Hin.
      assert ((i, p) ∈ snap) as Hin by (apply at_idx_elem; rewrite E0; by left).
      by apply (list_elem_of_fmap_2 fst) in Hin.
Qed.
Definition out (i : nat) : nat := length (filter (λ p, packet_id p ∈ ids) (at_idx i snap)).

Lemma built_queue k i : mac_key_index (cfg q) !! k = Some i →
  (qlen q' i + out i ≤ qlen q i)%nat ∧ Forall (fits k) (queue_of q' i).
Proof.
  intros Hk. pose proof (qi_packets _ Hi k i Hk) as Hf. unfold qlen, queue_of in *.
  destruct (per_flow_queues q !! i) as [l|] eqn:Hl.
  2: { assert (per_flow_queues q' !! i = None) as ->.
       { apply lookup_ge_None. rewrite (bt_length _ _ _ _ _ _ _ Hb). by apply lookup_ge_None. }
       split; [|done]. unfold out. assert (at_idx i snap = []) as ->; [|done].
       destruct (at_idx i snap) as [|p l] eqn:E; [done|].
       assert ((i, p) ∈ snap) as Hin by (apply at_idx_elem; rewrite E; by left).
       apply snap_part in Hin as [new Hp].
       pose proof (bt_parts _ _ _ _ _ _ _ Hb) as Hpt. rewrite Forall_forall in Hpt.
       destruct (Hpt _ Hp) as (l' & Hl' & _). cbn in Hl'. congruence. }
  rewrite (bt_queues _ _ _ _ _ _ _ Hb i l Hl). fold snap ids. change (if is_ul first then _ else _) with (rest i l).
  destruct (rest_shorter i l Hl) as [Hlen Hrest]. cbn [default id] in *. split.
  - rewrite length_app. unfold unsent, out. pose proof (length_filter_split (λ p, packet_id p ∈ ids) (at_idx i snap)). lia.
  - apply Forall_app. split; [|rewrite Forall_forall in *; naive_solver].
    apply Forall_forall. intros p [_ Hp]%list_elem_of_filter. destruct (at_idx_taken i l Hl) as (ps & Ec & Hsub & _ & _).
    destruct (core_elem _ ps p Ec Hp) as (p0 & Hp0 & Ep). apply (fits_core k p p0 Ep).
    rewrite Forall_forall in Hf. apply Hf. by eapply elem_of_sublist.
Qed.

(** All packets that get through belong to the flow's station and category. *)
Lemma sent_fits : Forall (fits (flow_key first link)) (mpdu_packets a).
Proof.
  destruct (bt_sent _ _ _ _ _ _ _ Hb) as (kept & Hsub & Ec). apply Forall_forall. intros p Hp.
  destruct (core_elem _ kept p Ec Hp) as (p1 & Hp1 & E1). apply (fits_core _ p p1 E1).
  eapply elem_of_sublist in Hp1; [|exact Hsub]. apply list_elem_of_fmap in Hp1 as ([i p2] & -> & Hin). cbn.
  assert (i ∈ snap.*1) as Hs by by apply (list_elem_of_fmap_2 fst) in Hin.
  destruct (snap_key i Hs) as (k & Hk & Ek). destruct (snap_part i p2 Hin) as [new Hnew].
  pose proof (bt_parts _ _ _ _ _ _ _ Hb) as Hpt. rewrite Forall_forall in Hpt.
  destruct (Hpt _ Hnew) as (l & Hl & _). cbn in Hl. destruct (at_idx_taken i l Hl) as (ps & Ec' & Hsub' & _).
  destruct (core_elem _ ps p2 Ec' (snap_elem i p2 Hin)) as (p3 & Hp3 & E3). apply (fits_core _ p2 p3 E3).
  pose proof (qi_packets _ Hi k i Hk) as Hf. unfold queue_of in Hf. rewrite Hl, Forall_forall in Hf.
  destruct (Hf p3) as [F1 F2]; [by eapply elem_of_sublist|]. split; [by rewrite <-Ek|done].
Qed.
Lemma sent_out : (length (mpdu_packets a) ≤
  wsum sta_ac (sta_ac (flow_key first link)) (mac_key_index (cfg q)) out)%nat.
Proof.
  destruct (bt_sent _ _ _ _ _ _ _ Hb) as (kept & Hsub & Ec). fold snap in Hsub.
  assert (ids = packet_id <$> kept) as Eids.
  { apply (fmap_core packet_id _ _ Ec). by intros p p' (? & _)%core_fields. }
  assert (length (mpdu_packets a) = length kept) as -> by (apply (f_equal length) in Ec; by rewrite !length_fmap in Ec).
  set (L := (filter (λ s, packet_id s.2 ∈ ids) snap).*1).
  assert (length kept ≤ length L)%nat as Hk.
  { unfold L. rewrite length_fmap. assert (length (filter (λ p, packet_id p ∈ ids) snap.*2) = length (filter (λ s, packet_id s.2 ∈ ids) snap)) as <-.
    { by rewrite filter_fmap, length_fmap. }
    apply sublist_length. rewrite <-(filter_all (λ p, packet_id p ∈ ids) kept); [by apply filter_sublist|].
    apply Forall_forall. intros p Hp. rewrite Eids. by apply list_elem_of_fmap_2. }
  etrans; [exact Hk|]. etrans; [apply (wsum_count sta_ac (sta_ac (flow_key first link)) (mac_key_index (cfg q)))|].
  - intros i (s & -> & Hs)%list_elem_of_fmap. apply list_elem_of_filter in Hs as [_ Hs]. apply snap_key. by apply list_elem_of_fmap_2.
  - apply wsum_mono. intros k i _ _. unfold L, out, at_idx.
    rewrite !filter_fmap, !length_fmap, !list_filter_filter. apply Nat.eq_le_incl. f_equal.
    apply list_filter_iff. intros [j p]. cbn. naive_solver.
Qed.
Lemma built_qinv : qinv q' ∧ cfg q' = cfg q.
Proof.
  destruct (bt_counts _ _ _ _ _ _ _ Hb) as (q1 & C1 & C2 & C3 & C4 & C5).
  pose proof sent_fits as Hfit.
  assert (Forall (λ p, assigned_link_id p = None) (mpdu_packets a)) as Hnone.
  { eapply Forall_impl; [exact Hfit|]. by intros p [_ ?]. }
  destruct (count_all_sent_spec (mpdu_packets a) q1 Hnone) as (D1 & D2 & D3 & D4).
  unfold queue_part in C5. injection C5 as E1 E2 E3 E4.
  assert (cfg q' = cfg q) as Ec by congruence. split; [|done].
  apply (qinv_leave q q' out Hi Ec).
  - apply built_queue.
  - intros c. specialize (D4 c). unfold active_of in *. rewrite E4, <-C3.
    assert (of_category c (mpdu_packets a) ≤ wsum sta_ac c (mac_key_index (cfg q)) out)%nat; [|lia].
    unfold of_category. destruct (decide (c = sta_ac (flow_key first link))) as [->|Hne].
    + rewrite filter_all; [apply sent_out|]. eapply Forall_impl; [exact Hfit|]. by intros p [? _].
    + rewrite filter_none; [simpl; lia|]. eapply Forall_impl; [exact Hfit|]. intros p [-> _]. congruence.
  - intros l. unfold depth_of. rewrite E3, D3, C4. lia.
Qed.
End built.
End qinv.
End QueueInv.
