(* ===== verification/MacSystem.v ===== *)
(** * The access point as an event system

    The handlers of the access point run one after the other: a packet arrives on
    one of the two inputs, a station reports its position, time passes, or the
    earliest pending event of the module (a slot service or the end of a
    transmission) is run.  The step relation allows any packets, any arrival times
    and, among events of the same time, any order.  The theorems are invariants of
    the reachable states. *)

From S2P Require Import Prelude Scheduler F32 SimRng Airtime Edca EdcaFacts MacData AccessPoint ApFrames.
From S2P Require Import MacSafety Aggregation QueueInv.

Module MacSystem.
Import Rng Ap EdcaFacts ApFrames MacSafety Aggregation QueueInv.

Section system.
Context {T P : Type} `{TaiTime T} `{!Epoch T} `{!Rand} `{!HashOrder} `{!PhyEnv} `{!LegacyIds}.
Implicit Types q : QueueModule T P.

(** ** The step relation *)
Definition run_event (t : T) (e : Event T P) q : outcome (QueueModule T P) :=
  match e with
  | Service => deque_schedule_service t q
  | SendAmpdu a => send_ampdu t a q
  end.
Definition not_before (t : T) q : Prop := ∀ t' e', (t', e') ∈ scheduled q → nanos t ≤ nanos t'.

Inductive mac_step : T * QueueModule T P → T * QueueModule T P → Prop :=
| step_input now p q q' : input now p q = Ret q' → mac_step (now, q) (now, q')
| step_input_UL now p q q' : input_UL now p q = Ret q' → mac_step (now, q) (now, q')
| step_coords now sta c q : mac_step (now, q) (now, input_coords_update sta c q)
| step_wait now t q : nanos now ≤ nanos t → not_before t q → mac_step (now, q) (t, q)
| step_event now t e l1 l2 q q' : scheduled q = l1 ++ (t, e) :: l2 → not_before t q →
    run_event t e (set_scheduled (l1 ++ l2) q) = Ret q' → mac_step (now, q) (t, q').
Definition reachable (s0 s : T * QueueModule T P) : Prop := rtc mac_step s0 s.
#[export] Instance reachable_preorder : PreOrder reachable.
Proof. split; [by constructor|]. intros x y z. unfold reachable. intros Hxy Hyz. by etrans. Qed.

(** ** The invariant *)
Definition backlogged q : Prop := ∃ k i, mac_key_index (cfg q) !! k = Some i ∧ queue_of q i ≠ [].
Record sys_inv (s : T * QueueModule T P) : Prop := {
  si_mac : minv None None s.1 s.2;
  si_queue : qinv s.2;
  si_live : backlogged s.2 → scheduled s.2 ≠ []
}.

Lemma backlogged_part q q' : queue_part q' = queue_part q → backlogged q' → backlogged q.
Proof.
  unfold queue_part, backlogged, queue_of. intros E. injection E as -> -> _ _. done.
Qed.
Lemma scheduled_tick x y now q : minv x y now q → slot_tick_pending q = true → scheduled q ≠ [].
Proof. intros Hi Hp E. destruct (mi_tick _ _ _ _ Hi Hp) as [t Ht]. rewrite E in Ht. by apply elem_of_nil in Ht. Qed.
Lemma scheduled_on_air q l : on_air q l → scheduled q ≠ [].
Proof. unfold on_air. intros Ha E. rewrite E in Ha. by apply elem_of_nil in Ha. Qed.

(** ** Arrivals *)
Lemma enqueue_sys now k cap p q b q' : minv None None now q → qinv q → (backlogged q → scheduled q ≠ []) →
  enqueue now k cap p q = Ret (b, q') →
  minv None None now q' ∧ (backlogged q' → scheduled q' ≠ []).
Proof.
  intros Hm Hq Hl (depth & Ed & E)%bind_Ret. destruct (Nat.ltb_spec depth cap); [|by injection E as <- <-].
  inv_ret E as (q1 & E1 & E). cbv zeta in E. inv_ret E as (idle & Eidle & E).
  inv_ret E as (q2 & E2 & E). inv_ret E as (q3 & E3 & [= <- <-]).
  inv_ret Ed as (i & Ei%unwrap_Ret & (l & El%unwrap_Ret & [= <-])%bind_Ret).
  apply cache_input_mac in E1 as [M1 _]. apply push_packet_mac in E2.
  assert (mac_part q2 = mac_part q) as M2 by (rewrite E2; exact M1).
  assert (minv None None now q2) as I2 by by eapply minv_part.
  destruct ((length l =? 0)%nat && idle) eqn:Et.
  - apply (schedule_tick_minv None None) in E3 as (I3 & P3 & _); [|done]. split; [done|]. intros _.
    by eapply scheduled_tick.
  - injection E3 as <-. split; [done|]. intros _. rewrite (mac_part_scheduled _ _ M2).
    destruct l as [|p0 l].
    + destruct idle; [done|]. unfold any_link_idle, STR_PLUS_MODE_MLO in Eidle. injection Eidle as Eidle.
      destruct (mi_cover _ _ _ _ Hm k) as [tx Htx]; [by eexists|].
      apply (scheduled_on_air q (key_link k)). apply (mi_tx _ _ _ _ Hm); [|done].
      destruct tx; [done|]. assert (link_is_transmitting q1 = link_is_transmitting q) as Etx by (injection M1; done).
      rewrite <-Etx in Htx.
      exfalso. apply not_true_iff_false in Eidle. apply Eidle, existsb_exists.
      exists (key_link k, false). split; [|done]. apply list_elem_of_In, elem_of_map_to_list. done.
    + apply Hl. exists k, i. split; [done|]. unfold queue_of. by rewrite El.
Qed.
Lemma input_sys now p q q' : sys_inv (now, q) → input now p q = Ret q' → sys_inv (now, q').
Proof.
  intros [Hm Hq Hl] E. destruct (input_qinv now p q q' Hq E) as [Hq' _].
  unfold input in E. inv_ret E as ([sel q1] & [M1 Q1]%select_link_mac & E).
  assert (minv None None now q1) as Hm1 by (eapply minv_part; [exact M1|]; by apply (minv_part _ _ _ q)).
  assert (qinv q1) as Hq1 by (eapply qinv_part; [exact Q1|]; by apply (qinv_part q)).
  assert (backlogged q1 → scheduled q1 ≠ []) as Hl1.
  { intros Hb%(backlogged_part _ _ Q1). rewrite (mac_part_scheduled _ _ M1). by apply Hl. }
  assert (∀ q2, mac_part q2 = mac_part q1 → queue_part q2 = queue_part q1 → qinv q2 → sys_inv (now, q2)) as Hsame.
  { intros q2 M2 Q2 I2. split; [by eapply minv_part|done|]. cbn. intros Hb%(backlogged_part _ _ Q2).
    rewrite (mac_part_scheduled _ _ M2). by apply Hl1. }
  destruct (is_ul _); [injection E as <-; by apply Hsame|].
  destruct sel as [l|]; [|injection E as <-; by apply Hsame].
  unfold assign_link, STR_PLUS_MODE_MLO in E. cbn [mbind outcome_bind] in E.
  inv_ret E as ([b q2] & E2 & [= <-]). apply enqueue_sys in E2 as [Hm2 Hl2]; [|done..].
  destruct b; split; try done. by apply (minv_part _ _ _ q2).
Qed.
Lemma input_UL_sys now p q q' : sys_inv (now, q) → input_UL now p q = Ret q' → sys_inv (now, q').
Proof.
  intros [Hm Hq Hl] E. destruct (input_UL_qinv now p q q' Hq E) as [Hq' _].
  unfold input_UL in E. inv_ret E as ([sel q1] & [M1 Q1]%select_link_mac & E).
  assert (minv None None now q1) as Hm1 by (eapply minv_part; [exact M1|]; by apply (minv_part _ _ _ q)).
  assert (qinv q1) as Hq1 by (eapply qinv_part; [exact Q1|]; by apply (qinv_part q)).
  assert (backlogged q1 → scheduled q1 ≠ []) as Hl1.
  { intros Hb%(backlogged_part _ _ Q1). rewrite (mac_part_scheduled _ _ M1). by apply Hl. }
  destruct (is_ul _); [|by injection E as <-].
  destruct sel as [l|]; [|injection E as <-; split; try done; by apply (minv_part _ _ _ q1)].
  unfold assign_link, STR_PLUS_MODE_MLO in E. cbn [mbind outcome_bind] in E.
  inv_ret E as ([b q2] & E2 & [= <-]). by apply enqueue_sys in E2 as [Hm2 Hl2]; [|done..].
Qed.

(** ** The slot service *)
Lemma handle_winner_qinv now l w q q' : qinv q → handle_winner now l w q = Ret q' → qinv q' ∧ cfg q' = cfg q.
Proof.
  intros Hq (first & _ & E)%bind_Ret. destruct first as [first|].
  - inv_ret E as ([[a d] q1] & Eb & E). destruct (build_built _ _ _ _ _ _ _ (qi_inj _ Hq) Eb) as [parts Hb].
    destruct (built_qinv _ _ _ _ _ _ _ Hq Hb) as [Hq1 C1]. cbv zeta in E.
    assert (queue_part q' = queue_part q1) as Eq.
    { destruct (mpdu_packets (with_link l a)); [|destruct (d =? 0)];
        by first [apply skip_transmission_queue in E|apply start_transmission_queue in E]. }
    split; [by eapply qinv_part|]. by rewrite (queue_part_cfg _ _ Eq).
  - apply dcf_update_queue in E. split; [by eapply qinv_part|by apply queue_part_cfg].
Qed.
Lemma handle_link_qinv now l ks q q' : qinv q → handle_link now l ks q = Ret q' → qinv q'.
Proof.
  intros Hq ([cs v] & _ & E)%bind_Ret. assert (qinv (set_dcf_values v q)) as Hq1 by by apply (qinv_part q).
  destruct cs as [|w [|w2 cs]]; cbn [handle_contenders] in E.
  - by injection E as <-.
  - by apply handle_winner_qinv in E as [? _].
  - apply handle_collision_queue in E. by eapply qinv_part.
Qed.
Lemma handle_links_qinv now ready q q' : qinv q → handle_links now ready q = Ret q' → qinv q'.
Proof.
  intros Hq. apply (foldl_outcome_ind qinv (λ (q : QueueModule T P) e, handle_link now e.1 e.2 q)); [done|].
  intros q0 e q1 _. apply handle_link_qinv.
Qed.

(** A queue with packets makes the service ask for another slot, unless its link is
    on air. *)
Lemma backlogged_needs_slot x y now q : minv x y now q → qinv q → backlogged q →
  need_next_slot q = true ∨ ∃ l, link_is_transmitting q !! l = Some true.
Proof.
  intros Hm Hq (k & i & Hk & Hne). destruct (proj2 (mi_table _ _ _ _ Hm) k i Hk) as (st & Hst & Ek).
  assert (1 ≤ qlen q i)%nat as Hlen by (unfold qlen; destruct (queue_of q i); [done|simpl; lia]).
  pose proof (wsum_ge sta_ac (sta_ac k) _ (qlen q) k i Hk eq_refl) as Ha.
  pose proof (wsum_ge key_link (key_link k) _ (qlen q) k i Hk eq_refl) as Hd.
  pose proof (qi_active _ Hq (sta_ac k)) as Ha'. pose proof (qi_depth _ Hq (key_link k)) as Hd'.
  unfold load_ac, load_link in *.
  destruct (mi_cover _ _ _ _ Hm k) as [[] Htx]; [by eexists|right; by eexists|]. left.
  unfold need_next_slot. apply andb_true_intro. split; apply existsb_exists.
  - unfold depth_of in Hd'. destruct (link_queue_depths q !! key_link k) as [n|] eqn:En; [|cbn in Hd'; lia].
    exists (key_link k, n). split; [by apply list_elem_of_In, elem_of_map_to_list|].
    apply Nat.ltb_lt. cbn in *. lia.
  - exists st. split; [by eapply list_elem_of_In, list_elem_of_lookup_2|]. unfold needs_slot. rewrite Ek, Htx. cbn.
    apply Z.ltb_lt. change (0 < active_of q (sta_ac k)). lia.
Qed.
Lemma service_sys now q q' : minv None None now (set_slot_tick_pending false q) → qinv q →
  deque_schedule_service now q = Ret q' → sys_inv (now, q').
Proof.
  intros Hm Hq E. unfold deque_schedule_service in E.
  inv_ret E as (q1 & E1 & E). inv_ret E as ([ready q2] & E2 & E).
  inv_ret E as (q3 & E3 & E).
  pose proof (drop_overflow_mac _ _ E1) as M1.
  apply drop_overflow_qinv in E1 as [Hq1 _]; [|by apply (qinv_part q)].
  assert (minv None None now q1) as Hm1 by by eapply minv_part.
  pose proof (tick_all_minv _ _ _ _ Hm1 E2) as Hm2.
  destruct (tick_all_ready _ _ _ _ Hm1 E2) as [_ Hready].
  pose proof (tick_all_NoDup _ _ _ _ Hm1 E2) as Hnd.
  assert (queue_part q2 = queue_part q1) as Q2.
  { unfold tick_all in E2. by inv_ret E2 as ([[m v] r] & _ & [= _ <-]). }
  assert (qinv q2) as Hq2 by by eapply qinv_part.
  pose proof (handle_links_qinv _ _ _ _ Hq2 E3) as Hq3.
  apply handle_links_minv in E3; [|done|done|].
  2: { intros l k Hk. destruct (Hready l k Hk) as (_ & ? & ? & _). done. }
  destruct (need_next_slot q3) eqn:En.
  - pose proof (schedule_tick_queue _ _ _ E) as Q4. apply (schedule_tick_minv None None) in E as (Hm4 & P4 & _); [|done].
    split; [done|by eapply qinv_part|]. intros _. by eapply scheduled_tick.
  - injection E as <-. split; [done|done|]. cbn. intros Hb.
    destruct (backlogged_needs_slot _ _ _ _ E3 Hq3 Hb) as [?|[l Hl]]; [congruence|].
    apply (scheduled_on_air q3 l). by apply (mi_tx _ _ _ _ E3).
Qed.

(** ** The end of a transmission *)
Lemma end_transmission_minv now a q : minv None (Some (link_id a)) now q → minv None None now (end_transmission now a q).
Proof.
  intros Hi. unfold end_transmission.
  assert (minv None (Some (link_id a)) now (release_link now (link_id a) q) ∧
    link_is_transmitting (release_link now (link_id a) q) = link_is_transmitting q) as [Hi1 Etx].
  { unfold release_link. destruct (link_mediums q !! link_id a) as [m|] eqn:Em; [|done]. split; [|done].
    assert (busy_until (release_txop now m) = busy_until m ∧ nav_until (release_txop now m) = nav_until m) as [B N].
    { unfold release_txop. by case_match. }
    destruct Hi. split; try done; cbn.
    - intros l m'. rewrite lookup_insert_Some. intros [[<- <-]|[_ ?]]; [rewrite N|]; by eapply mi_nav0.
    - intros st m' Hst Hx. rewrite lookup_insert_Some. intros [[El <-]|[_ ?]]; [rewrite B|]; apply mi_carrier0; congruence || done. }
  destruct Hi1. split; try done; cbn.
  - intros l Hl _. destruct (decide (l = link_id a)) as [->|Hne]; [by rewrite lookup_insert_eq in Hl|].
    rewrite lookup_insert_ne in Hl by done. apply mi_tx0; [done|congruence].
  - intros k Hk. rewrite lookup_insert_is_Some. destruct (decide (link_id a = key_link k)); naive_solver.
Qed.
Lemma existsb_nonempty (l : list (list (MpduPacket T P))) i ps : l !! i = Some ps → ps ≠ [] →
  existsb (λ l, negb (bool_decide (l = []))) l = true.
Proof.
  intros Hi Hne. apply existsb_exists. exists ps. split; [by eapply list_elem_of_In, list_elem_of_lookup_2|].
  by rewrite bool_decide_false.
Qed.
Lemma send_sys now a q q' : minv None (Some (link_id a)) now q → qinv q → send_ampdu now a q = Ret q' → sys_inv (now, q').
Proof.
  intros Hm Hq E. unfold send_ampdu in E. cbv zeta in E. inv_ret E as (s & _ & E).
  apply end_transmission_minv in Hm. pose proof (end_transmission_queue now a q) as Q0.
  set (q0 := end_transmission now a q) in *. destruct (put_output_parts a q0) as [M1 Q1].
  set (q1 := put_output a q0) in *. inv_ret E as (q2 & E2 & E). inv_ret E as (q3 & E3 & [= <-]).
  assert (minv None None now q1) as Hm1 by by eapply minv_part.
  assert (qinv q1) as Hq1 by (eapply qinv_part; [exact Q1|]; by eapply qinv_part).
  destruct (drain_stats_parts a s q3) as [M4 Q4].
  pose proof (dcf_update_queue _ _ _ _ E3) as Q3.
  assert (minv None None now q2 ∧ queue_part q2 = queue_part q1 ∧ (backlogged q1 → scheduled q2 ≠ [])) as (Hm2 & Q2 & L2).
  { destruct (existsb _ _) eqn:Eb.
    - pose proof (schedule_tick_queue _ _ _ E2). apply (schedule_tick_minv None None) in E2 as (? & P2 & _); [|done].
      split_and!; [done..|]. intros _. by eapply scheduled_tick.
    - injection E2 as <-. split_and!; [done..|]. intros (k & i & Hk & Hne). exfalso. unfold queue_of in Hne.
      destruct (per_flow_queues q1 !! i) as [ps|] eqn:Ei; [|done].
      rewrite (existsb_nonempty _ i ps) in Eb; done. }
  apply (succeed_key_minv None None now) in E3 as (Hm3 & S3 & _); [|done]. split; cbn.
  - by eapply minv_part.
  - eapply qinv_part; [|exact Hq1]. by rewrite Q4, Q3.
  - intros Hb%(backlogged_part _ _ Q4). rewrite (mac_part_scheduled _ _ M4), S3. apply L2.
    eapply backlogged_part; [|exact Hb]. by rewrite Q3.
Qed.

(** ** Every step keeps the invariant *)
#[local] Arguments sending_links : simpl never.
Lemma unschedule_sends q t a l1 l2 now : minv None None now q → scheduled q = l1 ++ (t, SendAmpdu a) :: l2 →
  minv None (Some (link_id a)) now (set_scheduled (l1 ++ l2) q).
Proof.
  intros [] E.
  assert (sending_links (scheduled q) ≡ₚ link_id a :: sending_links (l1 ++ l2)) as Es.
  { rewrite E, !sending_app. unfold sending_links at 2. cbn. by rewrite Permutation_middle. }
  assert (∀ e, e ∈ l1 ++ l2 → e ∈ scheduled q) as Hin by (intros e; rewrite E; set_solver).
  split; cbn; try done.
  - intros t' e' ?. by eapply mi_future0, Hin.
  - rewrite Es in mi_one0. by apply NoDup_cons in mi_one0 as [_ ?].
  - intros t' a' st ?. by eapply mi_waits0, Hin.
  - intros Hp. destruct (mi_tick0 Hp) as [t' Ht']. exists t'. rewrite E in Ht'.
    apply elem_of_app in Ht' as [?|[?|?]%elem_of_cons]; [set_solver|done|set_solver].
  - intros l Hl Hne. specialize (mi_tx0 l Hl ltac:(done)). unfold on_air in *. cbn. rewrite Es in mi_tx0.
    apply elem_of_cons in mi_tx0 as [->|?]; [done|done].
Qed.
Lemma unschedule_service q t l1 l2 now : minv None None now q → scheduled q = l1 ++ (t, Service) :: l2 →
  minv None None now (set_slot_tick_pending false (set_scheduled (l1 ++ l2) q)).
Proof.
  intros [] E.
  assert (sending_links (scheduled q) = sending_links (l1 ++ l2)) as Es.
  { by rewrite E, !sending_app. }
  assert (∀ e, e ∈ l1 ++ l2 → e ∈ scheduled q) as Hin by (intros e; rewrite E; set_solver).
  split; unfold on_air in *; cbn; try rewrite <-Es; try done.
  - intros t' e' ?. by eapply mi_future0, Hin.
  - intros t' a' st ?. by eapply mi_waits0, Hin.
Qed.

Lemma mac_step_sys s s' : mac_step s s' → sys_inv s → sys_inv s'.
Proof.
  intros Hs. destruct Hs as [now p q q' E|now p q q' E|now sta c q|now t q Hle Hnb|now t e l1 l2 q q' E Hnb Er]; intros Hi.
  - by eapply input_sys.
  - by eapply input_UL_sys.
  - destruct Hi as [Hm Hq Hl]. split; [by apply (minv_part _ _ _ q)|by apply (qinv_part q)|done].
  - destruct Hi as [Hm Hq Hl]. split; [by apply (minv_later _ _ now)|done|done].
  - destruct Hi as [Hm Hq Hl]. cbn in *.
    assert (minv None None t q) as Hm'.
    { apply (minv_later _ _ now); [|done|done]. apply (mi_future _ _ _ _ Hm t e). rewrite E. set_solver. }
    destruct e as [|a]; cbn in Er.
    + apply (service_sys t (set_scheduled (l1 ++ l2) q)); [by eapply unschedule_service|by apply (qinv_part q)|done].
    + apply (send_sys t a (set_scheduled (l1 ++ l2) q)); [by eapply unschedule_sends|by apply (qinv_part q)|done].
Qed.
Lemma reachable_sys s0 s : sys_inv s0 → reachable s0 s → sys_inv s.
Proof. intros Hi. induction 1 as [|s1 s2 s3 Hs _ IH]; [done|]. apply IH. by eapply mac_step_sys. Qed.
End system.
End MacSystem.
