(* ===== verification/MacInit.v ===== *)
(** * Construction of the access point

    [QueueModule::new] builds the table of contention states and its index by a
    formula for the place of every function; with distinct stations and links the
    formula is a bijection, nothing panics, and the result satisfies the invariant
    of MacSystem.v. *)

From S2P Require Import Prelude Scheduler F32 SimRng Airtime Edca EdcaFacts MacData AccessPoint ApFrames.
From S2P Require Import MacSafety Aggregation QueueInv MacSystem.

(** A map built by inserting the pairs of a list in order. *)
Definition build_map {K A} `{Countable K} (l : list (K * A)) : gmap K A := foldl (λ m e, <[e.1:=e.2]> m) ∅ l.
Lemma build_map_elem {K A} `{Countable K} (l : list (K * A)) k a :
  build_map l !! k = Some a → (k, a) ∈ l.
Proof.
  unfold build_map. induction l as [|[k' a'] l IH] using rev_ind; [done|]. rewrite foldl_snoc. cbn.
  rewrite lookup_insert_Some, elem_of_app, list_elem_of_singleton. naive_solver.
Qed.
Lemma build_map_Some {K A} `{Countable K} (l : list (K * A)) k a : (k, a) ∈ l → is_Some (build_map l !! k).
Proof.
  unfold build_map. induction l as [|[k' a'] l IH] using rev_ind; [by intros ?%elem_of_nil|].
  rewrite foldl_snoc, elem_of_app, list_elem_of_singleton, lookup_insert_is_Some. cbn.
  intros [Hin|[= -> ->]]; [|by left]. destruct (decide (k' = k)); naive_solver.
Qed.
Lemma build_map_iff {K A} `{Countable K} (l : list (K * A)) k a :
  (∀ a a', (k, a) ∈ l → (k, a') ∈ l → a = a') → build_map l !! k = Some a ↔ (k, a) ∈ l.
Proof.
  intros Hf. split; [apply build_map_elem|]. intros Hin.
  destruct (build_map_Some l k a Hin) as [a' Ha']. rewrite Ha'. f_equal. apply Hf; [by apply build_map_elem|done].
Qed.

Module MacInit.
Import Rng Ap EdcaFacts ApFrames MacSafety Aggregation QueueInv MacSystem.

Section init.
Context {T P : Type} `{TaiTime T} `{!Epoch T} `{!Rand} `{!HashOrder} `{!PhyEnv} `{!LegacyIds}.

(** ** Places *)
Lemma ac_idx_lt ac : (ac_idx ac < 4)%nat.
Proof. destruct ac; simpl; lia. Qed.
Lemma ac_idx_inj ac ac' : ac_idx ac = ac_idx ac' → ac = ac'.
Proof. by destruct ac, ac'. Qed.
Lemma slot_of_inj n s l ac s' l' ac' : (l < n)%nat → (l' < n)%nat →
  slot_of n s l ac = slot_of n s' l' ac' → s = s' ∧ l = l' ∧ ac = ac'.
Proof.
  intros Hl Hl'. unfold slot_of. pose proof (ac_idx_lt ac). pose proof (ac_idx_lt ac'). intros E.
  assert (s = s') as -> by nia. assert (l = l') as -> by lia. split_and!; [done..|]. apply ac_idx_inj. lia.
Qed.
Lemma slot_of_onto n m i : (i < m * (n * 4))%nat →
  ∃ s l ac, (s < m)%nat ∧ (l < n)%nat ∧ i = slot_of n s l ac.
Proof.
  intros Hi. assert (0 < n)%nat by nia.
  exists (i / (n * 4))%nat, ((i `mod` (n * 4)) / 4)%nat, (ac_of_idx ((i `mod` (n * 4)) `mod` 4)).
  pose proof (Nat.div_mod_eq i (n * 4)). pose proof (Nat.mod_upper_bound i (n * 4) ltac:(lia)).
  pose proof (Nat.div_mod_eq (i `mod` (n * 4)) 4). pose proof (Nat.mod_upper_bound (i `mod` (n * 4)) 4 ltac:(lia)).
  split_and!; [apply Nat.Div0.div_lt_upper_bound; lia|apply Nat.Div0.div_lt_upper_bound; lia|].
  assert (ac_idx (ac_of_idx ((i `mod` (n * 4)) `mod` 4)) = (i `mod` (n * 4)) `mod` 4)%nat as Ea.
  { destruct ((i `mod` (n * 4)) `mod` 4)%nat as [|[|[|[|]]]]; simpl; lia. }
  unfold slot_of. rewrite Ea. nia.
Qed.

Lemma elem_of_mac_slots ids links k i : (k, i) ∈ mac_slots (length ids) ids links ↔
  ∃ s l ac sta lc, (ids ++ [-1]) !! s = Some sta ∧ links !! l = Some lc ∧
    k = (sta, ac, lc_link_id lc) ∧ i = slot_of (length links) s l ac.
Proof.
  unfold mac_slots. rewrite list_elem_of_In, in_concat.
  assert (∀ ac, ac ∈ all_acs) as Hac by (intros []; set_solver).
  split.
  - intros (x & Hx%list_elem_of_In & Hin%list_elem_of_In). apply elem_of_lookup_imap in Hx as (l & lc & -> & Hl).
    apply elem_of_app in Hin as [Hin|Hin].
    + apply list_elem_of_fmap in Hin as (ac & [= -> ->] & _).
      exists (length ids), l, ac, (-1), lc. by rewrite lookup_app_r, Nat.sub_diag by lia.
    + apply list_elem_of_In, in_concat in Hin as (y & Hy%list_elem_of_In & Hin%list_elem_of_In).
      apply elem_of_lookup_imap in Hy as (s & sta & -> & Hs). apply list_elem_of_fmap in Hin as (ac & [= -> ->] & _).
      exists s, l, ac, sta, lc. split_and!; try done. rewrite lookup_app_l; [done|]. by eapply lookup_lt_Some.
  - intros (s & l & ac & sta & lc & Hs & Hl & -> & ->).
    eexists. rewrite <-!list_elem_of_In. split; [apply elem_of_lookup_imap; by exists l, lc|].
    apply lookup_app_Some in Hs as [Hs|[Hlen Hs]]; apply elem_of_app.
    + right. apply list_elem_of_In, in_concat. eexists. rewrite <-!list_elem_of_In.
      split; [apply elem_of_lookup_imap; by exists s, sta|]. apply list_elem_of_fmap. by exists ac.
    + left. assert (s = length ids ∧ sta = -1) as [-> ->].
      { destruct (s - length ids)%nat eqn:E; simpl in Hs; [|done]. split; [lia|congruence]. }
      apply list_elem_of_fmap. by exists ac.
Qed.

(** The stations and links of one access point: all different. *)
Definition distinct (ids : list Z) (links : list LinkConfig) : Prop :=
  NoDup ids ∧ ¬ (-1 ∈ ids) ∧ NoDup (lc_link_id <$> links).

Section slots.
Context (ids : list Z) (links : list LinkConfig).
Hypothesis Hd : distinct ids links.
Let slots := mac_slots (length ids) ids links.
Let total := ((length ids + 1) * length links * 4)%nat.

Lemma NoDup_lookup_eq {A} (l : list A) i j x : NoDup l → l !! i = Some x → l !! j = Some x → i = j.
Proof. intros Hnd. by apply NoDup_lookup. Qed.
Lemma slots_stas : NoDup (ids ++ [-1]).
Proof.
  destruct Hd as (H1' & H2' & _). apply NoDup_app. split_and!; [done| |apply NoDup_singleton].
  intros x Hx ->%list_elem_of_singleton. done.
Qed.
Lemma slots_key_fun k i i' : (k, i) ∈ slots → (k, i') ∈ slots → i = i'.
Proof.
  intros (s & l & ac & sta & lc & Hs & Hl & -> & ->)%elem_of_mac_slots
         (s' & l' & ac' & sta' & lc' & Hs' & Hl' & [= <- <- E] & ->)%elem_of_mac_slots.
  assert (s = s') as -> by (eapply NoDup_lookup_eq; [apply slots_stas|done..]).
  assert (l = l') as -> by (eapply (NoDup_lookup_eq (lc_link_id <$> links)); [apply Hd|by rewrite list_lookup_fmap, ?Hl, ?Hl', ?E..]).
  done.
Qed.
Lemma slots_place_fun k k' i : (k, i) ∈ slots → (k', i) ∈ slots → k = k'.
Proof.
  intros (s & l & ac & sta & lc & Hs & Hl & -> & ->)%elem_of_mac_slots
         (s' & l' & ac' & sta' & lc' & Hs' & Hl' & -> & E)%elem_of_mac_slots.
  apply slot_of_inj in E as (-> & -> & ->); [|by eapply lookup_lt_Some..]. congruence.
Qed.
Lemma slots_range k i : (k, i) ∈ slots → (i < total)%nat.
Proof.
  intros (s & l & ac & sta & lc & Hs & Hl & -> & ->)%elem_of_mac_slots.
  apply lookup_lt_Some in Hs, Hl. rewrite length_app in Hs. simpl in Hs. unfold slot_of, total.
  pose proof (ac_idx_lt ac). nia.
Qed.
Lemma slots_onto i : (i < total)%nat → ∃ k, (k, i) ∈ slots.
Proof.
  intros Hi. destruct (slot_of_onto (length links) (length ids + 1) i) as (s & l & ac & Hs & Hl & ->); [unfold total in Hi; lia|].
  destruct (lookup_lt_is_Some_2 (ids ++ [-1]) s) as [sta Hsta]; [rewrite length_app; simpl; lia|].
  destruct (lookup_lt_is_Some_2 links l Hl) as [lc Hlc].
  exists (sta, ac, lc_link_id lc). apply elem_of_mac_slots. naive_solver.
Qed.
Lemma slots_index k i : build_map slots !! k = Some i ↔ (k, i) ∈ slots.
Proof. apply build_map_iff. intros i1 i2. apply slots_key_fun. Qed.

(** The table after the loops. *)
Lemma fill_slots_spec run es (v0 : list (DcfStats T)) :
  (∀ e, e ∈ es → e ∈ slots) → length v0 = total →
  ∃ v, foldl (λ r e, v ← r; fill_slot run v e) (Ret v0) es = Ret v ∧ length v = total ∧
    ∀ k i, (k, i) ∈ es → v !! i = Some (dcf_new run (key_ac k) k).
Proof.
  induction es as [|[k i] es IH] using rev_ind; intros Hes Hlen.
  { exists v0. split_and!; [done..|]. by intros ?? ?%elem_of_nil. }
  destruct IH as (v & E & Hl & Hv); [set_solver|done|].
  assert ((k, i) ∈ slots) as Hki by (apply Hes; set_solver).
  rewrite foldl_snoc, E. ret_step. unfold fill_slot. cbn [fst snd].
  rewrite (proj2 (Nat.ltb_lt _ _)) by (rewrite Hl; by eapply slots_range).
  eexists. split_and!; [done|by rewrite length_insert|]. intros k' i' [Hin|[= -> ->]%list_elem_of_singleton]%elem_of_app.
  - destruct (decide (i' = i)) as [->|Hne]; [|rewrite list_lookup_insert_ne by done; by apply Hv].
    assert (k' = k) as -> by (apply (slots_place_fun k' k i); [apply Hes; set_solver|done]).
    apply list_lookup_insert_eq. rewrite Hl. by eapply slots_range.
  - apply list_lookup_insert_eq. rewrite Hl. by eapply slots_range.
Qed.
Lemma fill_table run v : length v = total →
  (∀ k i, (k, i) ∈ slots → v !! i = Some (dcf_new (T := T) run (key_ac k) k)) →
  table_ok (build_map slots) v ∧ all_ok v ∧ Forall (λ st, backoff_frozen st = false) v.
Proof.
  intros Hl Hv. assert (∀ ac k, mac_key (dcf_new (T := T) run ac k) = k ∧ backoff_frozen (dcf_new (T := T) run ac k) = false) as Hkey.
  { intros ac k. unfold dcf_new. by destruct (gen_range _ _). }
  assert (∀ i st, v !! i = Some st → ∃ k, (k, i) ∈ slots ∧ st = dcf_new run (key_ac k) k) as Hst.
  { intros i st Hi. destruct (slots_onto i) as [k Hk]; [rewrite <-Hl; by eapply lookup_lt_Some|].
    exists k. split; [done|]. rewrite (Hv k i Hk) in Hi. congruence. }
  split; [split|split].
  - intros i st Hi. destruct (Hst i st Hi) as (k & Hk & ->). rewrite (proj1 (Hkey _ k)). by apply slots_index.
  - intros k i Hk%slots_index. eexists. split; [by apply Hv|]. apply Hkey.
  - apply Forall_lookup. intros i st Hi. destruct (Hst i st Hi) as ([[sta ac] l] & Hk & ->). apply dcf_new_ok.
  - apply Forall_lookup. intros i st Hi. destruct (Hst i st Hi) as (k & Hk & ->). apply Hkey.
Qed.
End slots.

(** ** The new module *)
Lemma per_link_lookup {A} (g : LinkConfig → A) (links : list LinkConfig) l a :
  foldl (λ m lc, <[lc_link_id lc := g lc]> m) (∅ : gmap Z A) links !! l = Some a → ∃ lc, lc ∈ links ∧ a = g lc.
Proof.
  induction links as [|lc links IH] using rev_ind; [done|]. rewrite foldl_snoc, lookup_insert_Some.
  intros [[_ <-]|[_ Hl]]; [exists lc; set_solver|].
  apply IH in Hl as (lc' & ? & ->). exists lc'. set_solver.
Qed.
Lemma per_link_Some {A} (g : LinkConfig → A) (links : list LinkConfig) lc : lc ∈ links →
  is_Some (foldl (λ m lc, <[lc_link_id lc := g lc]> m) (∅ : gmap Z A) links !! lc_link_id lc).
Proof.
  induction links as [|lc' links IH] using rev_ind; [by intros ?%elem_of_nil|].
  rewrite foldl_snoc, elem_of_app, list_elem_of_singleton, lookup_insert_is_Some.
  intros [Hin| ->]; [|by left]. destruct (decide (lc_link_id lc' = lc_link_id lc)); [by left|right; auto].
Qed.
Lemma wsum_zero {Key C} `{Countable Key} `{EqDecision C} (f : Key → C) c idx : wsum f c idx (λ _, 0%nat) = 0%nat.
Proof.
  unfold wsum. induction (map_to_list idx) as [|e l IH]; simpl; [done|]. rewrite IH. by case_decide.
Qed.

(** Construction never panics with distinct stations and links: the formula for the
    place of a function is a bijection between functions and places, every place of
    the table is filled with the fresh state of its function, and all queues and
    counters are empty. *)
Theorem new_builds_table run ids pl links strat packs coords : distinct ids links →
  ∃ q : QueueModule T P, new run (length ids) ids pl links strat packs coords = Ret q ∧
    table_ok (mac_key_index (cfg q)) (dcf_values q) ∧ all_ok (dcf_values q) ∧
    (∀ sta ac l, is_Some (mac_key_index (cfg q) !! (sta, ac, l)) ↔ sta ∈ ids ++ [-1] ∧ l ∈ lc_link_id <$> links) ∧
    Forall (λ l, l = []) (per_flow_queues q) ∧ length (per_flow_queues q) = length (dcf_values q).
Proof.
  intros Hd. unfold new. rewrite Nat.ltb_irrefl.
  set (v0 := replicate _ (dcf_new _ _ _)). destruct (fill_slots_spec ids links Hd run (mac_slots (length ids) ids links) v0)
    as (v & E & Hl & Hv); [done|by apply length_replicate|]. rewrite E. ret_step.
  destruct (fill_table ids links Hd run v Hl Hv) as (Ht & Hok & _).
  eexists. split; [done|]. split; [done|]. split; [done|]. split; [|split].
  - intros sta ac l. cbn. split.
    + intros [i Hi]. apply slots_index, elem_of_mac_slots in Hi as (s & l0 & ac0 & sta0 & lc & Hs & Hlc & [= -> -> ->] & _); [|done].
      split; [by eapply list_elem_of_lookup_2|]. apply list_elem_of_fmap_2. by eapply list_elem_of_lookup_2.
    + intros [[s Hs]%list_elem_of_lookup_1 Hlk]. apply list_elem_of_fmap in Hlk as (lc & -> & [l0 Hlc]%list_elem_of_lookup_1).
      exists (slot_of (length links) s l0 ac). apply slots_index; [done|]. apply elem_of_mac_slots. naive_solver.
  - by apply Forall_replicate.
  - cbn. rewrite length_replicate, Hl. done.
Qed.

(** The states that the simulator starts from: a new module with the capabilities
    and positions that setup inserts. *)
Definition initial (s : T * QueueModule T P) : Prop :=
  ∃ run ids pl links strat packs coords caps pos q0,
    distinct ids links ∧ new run (length ids) ids pl links strat packs coords = Ret q0 ∧
    nanos EPOCH ≤ nanos s.1 ∧ s.2 = with_capabilities caps pos q0.
Lemma initial_sys s : initial s → sys_inv s.
Proof.
  intros (run & ids & pl & links & strat & packs & coords & caps & pos & q0 & Hd & E & Ht & Eq).
  unfold new in E. rewrite Nat.ltb_irrefl in E. destruct s as [t q]. cbn [fst snd] in *. subst q.
  set (v0 := replicate _ (dcf_new _ _ _)) in E.
  destruct (fill_slots_spec ids links Hd run (mac_slots (length ids) ids links) v0)
    as (v & Ev & Hl & Hv); [done|by apply length_replicate|].
  rewrite Ev in E. cbn [mbind outcome_bind] in E. injection E as <-.
  destruct (fill_table ids links Hd run v Hl Hv) as (Htab & Hok & Hfr).
  assert (∀ n i, length (default [] (replicate n ([] : list (MpduPacket T P)) !! i)) = 0%nat) as Hempty.
  { intros n i. destruct (replicate n [] !! i) eqn:Er; [|done]. by apply lookup_replicate in Er as [-> _]. }
  split; cbn [fst snd].
  - split; cbn; try done.
    + by intros t' e ?%elem_of_nil. + constructor. + by intros t' a st ?%elem_of_nil.
    + intros l m Hm. apply (per_link_lookup (λ _, medium_default)) in Hm as (lc & _ & ->). done.
    + intros st m _ _ Hm. apply (per_link_lookup (λ _, medium_default)) in Hm as (lc & _ & ->). by left.
    + intros l Hlk. by apply (per_link_lookup (λ _, false)) in Hlk as (lc & _ & ?).
    + intros k [i Hi]. apply slots_index, elem_of_mac_slots in Hi as (s & l0 & ac & sta & lc & _ & Hlc & -> & _); [|done].
      apply (per_link_Some (λ _, false)). by eapply list_elem_of_lookup_2.
  - split; cbn.
    + intros k k' i Hk%slots_index Hk'%slots_index; [|done..]. by eapply slots_place_fun.
    + intros c. unfold load_ac, active_of. cbn. rewrite lookup_empty. cbn.
      assert (∀ w, (∀ i, w i = 0%nat) → wsum sta_ac c (build_map (mac_slots (length ids) ids links)) w = 0%nat) as Hz.
      { intros w Hw. pose proof (wsum_mono sta_ac c (build_map (mac_slots (length ids) ids links)) w (λ _, 0%nat)) as Hm.
        rewrite wsum_zero in Hm. specialize (Hm ltac:(intros; rewrite Hw; lia)). lia. }
      unfold build_map in Hz. rewrite Hz; [done|]. intros i. apply Hempty.
    + intros l. unfold load_link. cbn.
      assert (∀ w, (∀ i, w i = 0%nat) → wsum key_link l (build_map (mac_slots (length ids) ids links)) w = 0%nat) as Hz.
      { intros w Hw. pose proof (wsum_mono key_link l (build_map (mac_slots (length ids) ids links)) w (λ _, 0%nat)) as Hm.
        rewrite wsum_zero in Hm. specialize (Hm ltac:(intros; rewrite Hw; lia)). lia. }
      unfold build_map in Hz. rewrite Hz; [lia|]. intros i. apply Hempty.
    + intros k i _. unfold queue_of. cbn. rewrite (nil_length_inv _ (Hempty _ i)). constructor.
    + intros k i _. unfold qlen, queue_of. cbn. rewrite Hempty. lia.
    + unfold UPLINK_QUEUE_SIZE, DOWNLINK_QUEUE_SIZE. lia.
  - intros (k & i & _ & Hne). destruct Hne. apply nil_length_inv, Hempty.
Qed.
End init.
End MacInit.
