(* ===== verification/Conservation.v ===== *)
(** * Conservation of packets

    What the aggregation takes from the queues is either sent or put back ([built_conserves]; [OnAir] follows it through
    a slot service).  The
    code identifies the packets it puts back by their number alone, so the lemma
    needs the numbers of the packets that compete for the aggregate to differ; the
    counterexample in [MacDemo] shows what happens otherwise. *)

From S2P Require Import Prelude Scheduler F32 SimRng Airtime Edca EdcaFacts MacData AccessPoint ApFrames.
From S2P Require Import MacSafety Aggregation QueueInv MacSystem MacInit.

(** ** Lists of lists *)
Section lists.
Context {A : Type}.
Implicit Types (l : list A) (ls : list (list A)).

Lemma filter_concat (Q : A → Prop) `{∀ x, Decision (Q x)} ls : filter Q (concat ls) = concat (filter Q <$> ls).
Proof. induction ls as [|l ls IH]; [done|]. csimpl. by rewrite filter_app, IH. Qed.
Lemma NoDup_concat_index ls i j l l' x : NoDup (concat ls) → ls !! i = Some l → ls !! j = Some l' →
  x ∈ l → x ∈ l' → i = j.
Proof.
  assert (∀ ls j l', ls !! j = Some l' → x ∈ l' → x ∈ concat ls) as Hc.
  { intros ls0 j0 l0 Hl Hx. apply list_elem_of_In, in_concat. exists l0. rewrite <-!list_elem_of_In.
    split; [by eapply list_elem_of_lookup_2|done]. }
  revert i j. induction ls as [|l0 ls IH]; intros i j; [done|]. csimpl. intros (_ & Hd & Hnd)%NoDup_app.
  destruct i as [|i], j as [|j]; cbn; intros Hi Hj Hx Hx'; simplify_eq; [done|exfalso..|f_equal; by eapply IH];
    by eapply Hd; [|eapply Hc].
Qed.
Lemma NoDup_concat_lookup ls i l : NoDup (concat ls) → ls !! i = Some l → NoDup l.
Proof.
  revert i. induction ls as [|l0 ls IH]; intros i; [done|]. csimpl. intros (H1 & _ & H2)%NoDup_app.
  destruct i; cbn; intros; simplify_eq; [done|by eapply IH].
Qed.
Lemma filter_split_perm (Q : A → Prop) `{∀ x, Decision (Q x)} l : l ≡ₚ filter Q l ++ filter (λ x, ¬ Q x) l.
Proof.
  induction l as [|x l IH]; [done|]. rewrite !filter_cons. repeat case_decide; try tauto; cbn.
  - by f_equiv.
  - by rewrite <-Permutation_middle, <-IH.
Qed.
Lemma concat_imap_app {B} (f g : nat → A → list B) l :
  concat (imap (λ i x, f i x ++ g i x) l) ≡ₚ concat (imap f l) ++ concat (imap g l).
Proof.
  revert f g. induction l as [|x l IH]; intros f g; [done|]. csimpl.
  rewrite (IH (f ∘ S) (g ∘ S)). solve_Permutation.
Qed.
Lemma concat_imap_perm {B} (f g : nat → A → list B) l :
  (∀ i x, l !! i = Some x → f i x ≡ₚ g i x) → concat (imap f l) ≡ₚ concat (imap g l).
Proof.
  revert f g. induction l as [|x l IH]; intros f g Hfg; [done|]. csimpl. f_equiv; [by apply Hfg|].
  apply IH. intros i y. apply (Hfg (S i)).
Qed.
Lemma concat_imap_submseteq {B} (f g : nat → A → list B) l :
  (∀ i x, l !! i = Some x → f i x ⊆+ g i x) → concat (imap f l) ⊆+ concat (imap g l).
Proof.
  revert f g. induction l as [|x l IH]; intros f g Hfg; [done|]. csimpl. apply submseteq_app; [by apply Hfg|].
  apply IH. intros i y. apply (Hfg (S i)).
Qed.
Lemma NoDup_submseteq_down l l' : l ⊆+ l' → NoDup l' → NoDup l.
Proof. intros [k ->]%submseteq_Permutation. by intros [? _]%NoDup_app. Qed.
Lemma fmap_concat_imap {B C} (h : B → C) (f : nat → A → list B) l : h <$> concat (imap f l) = concat (imap (λ i x, h <$> f i x) l).
Proof. revert f. induction l as [|x l IH]; intros f; [done|]. csimpl. by rewrite fmap_app, (IH (f ∘ S)). Qed.
Lemma filter_concat_imap {B} (Q : B → Prop) `{∀ x, Decision (Q x)} (f : nat → A → list B) l :
  filter Q (concat (imap f l)) = concat (imap (λ i x, filter Q (f i x)) l).
Proof. revert f. induction l as [|x l IH]; intros f; [done|]. csimpl. by rewrite filter_app, (IH (f ∘ S)). Qed.
Lemma NoDup_fmap_elem {B} (h : A → B) l x y : NoDup (h <$> l) → x ∈ l → y ∈ l → h x = h y → x = y.
Proof.
  intros Hnd [n Hn]%list_elem_of_lookup [m Hm]%list_elem_of_lookup E. assert (n = m) as ->; [|congruence].
  eapply (proj1 (NoDup_alt _) Hnd); rewrite list_lookup_fmap; [by rewrite Hn|by rewrite Hm, E].
Qed.
(** A sublist that holds all elements with [Q], when those that may have it occur once. *)
Lemma filter_is_sublist (Q R : A → Prop) `{∀ x, Decision (Q x)} `{∀ x, Decision (R x)} ps l :
  ps `sublist_of` l → NoDup (filter R l) → Forall R ps → Forall Q ps → (∀ x, x ∈ l → Q x → x ∈ ps) → filter Q l = ps.
Proof.
  induction 1 as [|x ps l Hs IH|x ps l Hs IH]; intros Hnd HR HQ Hall; [done|..]; rewrite filter_cons in *.
  - inversion HR; inversion HQ; subst. rewrite (decide_True (P := Q x)) by done. rewrite (decide_True (P := R x)) in Hnd by done.
    apply NoDup_cons in Hnd as [Hx Hnd].
    f_equal. apply IH; try done. intros y Hy Qy. pose proof (Hall y ltac:(by right) Qy) as [-> | ?]%elem_of_cons; [|done].
    destruct Hx. by apply list_elem_of_filter.
  - assert (¬ Q x) as Hn.
    { intros Qx. assert (x ∈ ps) as Hx by (apply Hall; [by left|done]). rewrite Forall_forall in HR.
      rewrite decide_True in Hnd by by apply HR. apply NoDup_cons in Hnd as [Hd _].
      destruct Hd. apply list_elem_of_filter. split; [by apply HR|by eapply elem_of_sublist]. }
    rewrite decide_False by done. apply IH; try done; [|set_solver]. case_decide; [|done].
    by apply NoDup_cons in Hnd as [? ?].
Qed.
End lists.

Module Conservation.
Import Rng Ap EdcaFacts ApFrames MacSafety Aggregation QueueInv MacSystem MacInit.

Section conservation.
Context {T P : Type} `{TaiTime T} `{!Epoch T} `{!Rand} `{!HashOrder} `{!PhyEnv} `{!LegacyIds}.
Implicit Types q : QueueModule T P.
Implicit Types p : MpduPacket T P.

Lemma at_idx_all (snap : list (nat * MpduPacket T P)) {B} (ls : list B) :
  concat (imap (λ i _, at_idx i snap) ls) ≡ₚ (filter (λ s, (s.1 < length ls)%nat) snap).*2.
Proof.
  induction ls as [|x ls IH] using rev_ind; [cbn; rewrite filter_none; [done|apply Forall_forall; lia]|].
  rewrite imap_app, concat_app, IH, length_app. cbn [length imap concat]. rewrite app_nil_r, Nat.add_0_r.
  unfold at_idx. rewrite <-fmap_app. f_equiv. symmetry.
  rewrite (filter_split_perm (λ s, (s.1 < length ls)%nat) (filter _ snap)), !list_filter_filter.
  f_equiv; (match goal with |- ?x ≡ₚ ?y => cut (x = y); [by intros ->|] end); apply list_filter_iff; intros s; lia.
Qed.

#[export] Instance unsent_perm (ids : list Z) : Proper ((≡ₚ) ==> (≡ₚ)) (unsent (T := T) (P := P) ids).
Proof. intros l l' E. unfold unsent. by rewrite E. Qed.

(** The packets that an aggregate for [first] may take. *)
Definition competes (first p : MpduPacket T P) : Prop :=
  ac_key p = ac_key first ∧ (is_ul first = true ∨ sta_dest_id p = sta_dest_id first).
#[export] Instance competes_dec first p : Decision (competes first p).
Proof. apply _. Defined.
Definition competing (first : MpduPacket T P) q : list (MpduPacket T P) :=
  filter (competes first) (concat (per_flow_queues q)).

Section built.
Context (first : MpduPacket T P) (link : Z) (q : QueueModule T P) (a : AmpduPacket T P) (airtime : Z)
  (q' : QueueModule T P) (parts : list (nat * list (MpduPacket T P))).
Hypothesis Hi : qinv q.
Hypothesis Hb : built first link q a airtime q' parts.
Hypothesis Hids : NoDup (packet_id <$> competing first q).
Hypothesis Hmode : dl_packet_id_legacy = false.
Abbreviation snap := (snapshot_of parts).
Abbreviation ids := (packet_id <$> mpdu_packets a).

Lemma ids_inj i j l l' p p' : per_flow_queues q !! i = Some l → per_flow_queues q !! j = Some l' →
  p ∈ l → p' ∈ l' → competes first p → competes first p' → packet_id p = packet_id p' → p = p' ∧ i = j.
Proof.
  intros Hl Hl' Hp Hp' Hc Hc' E.
  assert (∀ i l p, per_flow_queues q !! i = Some l → p ∈ l → competes first p → p ∈ competing first q) as Hin.
  { intros i0 l0 p0 ? ? ?. apply list_elem_of_filter. split; [done|]. apply list_elem_of_In, in_concat. exists l0.
    rewrite <-!list_elem_of_In. split; [by eapply list_elem_of_lookup_2|done]. }
  assert (p = p') as ->.
  { eapply (NoDup_fmap_elem packet_id); [exact Hids|by apply (Hin i l)|by apply (Hin j l')|done]. }
  split; [done|]. apply NoDup_fmap_1 in Hids. unfold competing in Hids. rewrite filter_concat in Hids.
  eapply (NoDup_concat_index _ i j _ _ p' Hids); rewrite ?list_lookup_fmap, ?Hl, ?Hl'; try done; by apply list_elem_of_filter.
Qed.
(** What queue [i] contributed, as packets of the queue. *)
Lemma contribution i l : per_flow_queues q !! i = Some l → ∃ ps, core <$> at_idx i snap = core <$> ps ∧
  ps `sublist_of` l ∧ Forall (competes first) ps ∧ (is_ul first = true → ps `prefix_of` l).
Proof.
  intros Hl. destruct (at_idx_taken first link q a airtime q' parts Hb i l Hl) as (ps & Ec & Hs & Hf & Hp).
  exists ps. split_and!; try done. rewrite Forall_forall in *. intros p Hin. split; [|by apply Hf].
  destruct (core_elem ps (at_idx i snap) p) as (p' & Hp' & Ep); [done..|].
  apply at_idx_elem in Hp'. assert (i ∈ snap.*1) as Hik by by apply (list_elem_of_fmap_2 fst) in Hp'.
  destruct (snap_key first link q a airtime q' parts Hb i Hik) as (k & Hk & Ek).
  pose proof (qi_packets _ Hi k i Hk) as Hq. unfold queue_of in Hq. rewrite Hl, Forall_forall in Hq.
  destruct (Hq p) as [-> _]; [by eapply elem_of_sublist|]. rewrite Ek.
  unfold flow_key, ac_key. by destruct (is_ul first).
Qed.
(** A packet of a source queue with the key of a packet taken is the packet taken. *)
Lemma taken_same i l ps p : is_ul first = false → per_flow_queues q !! i = Some l →
  core <$> at_idx i snap = core <$> ps → ps `sublist_of` l → Forall (competes first) ps → i ∈ snap.*1 →
  p ∈ l → id_key p ∈ id_key <$> snap.*2 → p ∈ ps.
Proof.
  intros Eu Hl Ec Hs Hf Hik Hp Hin. rewrite Forall_forall in Hf.
  apply list_elem_of_fmap in Hin as (s & Es & ([j s'] & -> & Hsnap)%list_elem_of_fmap). cbn in *.
  destruct (snap_part _ _ _ Hsnap) as [new Hnew]. pose proof (bt_parts _ _ _ _ _ _ _ Hb) as Hparts.
  rewrite Forall_forall in Hparts. destruct (Hparts _ Hnew) as (lj & Hlj & _). cbn in Hlj.
  destruct (contribution j lj Hlj) as (psj & Ecj & Hsj & Hfj & _). rewrite Forall_forall in Hfj.
  destruct (core_elem _ psj s' Ecj (snap_elem _ _ _ Hsnap)) as (p2 & Hp2 & E2).
  assert (id_key p = id_key p2) as Ek by (rewrite Es; by apply core_id_key).
  unfold id_key in Ek. rewrite Hmode in Ek. injection Ek as _ Ed Eid.
  assert (competes first p) as Hcp.
  { destruct (snap_key first link q a airtime q' parts Hb i Hik) as (k & Hk & Ekk).
    pose proof (qi_packets _ Hi k i Hk) as Hq. unfold queue_of in Hq. rewrite Hl, Forall_forall in Hq.
    destruct (Hq p Hp) as [E1 _]. split; [|right; destruct (Hfj p2 Hp2) as [_ [?|Ed2]]; congruence].
    rewrite E1, Ekk. unfold flow_key, ac_key. by rewrite Eu. }
  destruct (ids_inj i j l lj p p2) as [-> ->]; try done; [by eapply elem_of_sublist|by apply Hfj|].
  destruct (core_elem _ ps s' Ec (snap_elem _ _ _ Hsnap)) as (p3 & Hp3 & E3).
  destruct (ids_inj j j l l p2 p3) as [-> _]; try done; [by eapply elem_of_sublist|by apply Hf|].
  destruct (core_fields p2 p3) as [? _]; congruence.
Qed.

(** What is not taken stays. *)
Lemma taken_or_left i l : per_flow_queues q !! i = Some l →
  core <$> l ≡ₚ core <$> (at_idx i snap ++ rest first parts i l).
Proof.
  intros Hl. destruct (contribution i l Hl) as (ps & Ec & Hs & Hf & Hp).
  rewrite fmap_app, Ec, <-fmap_app. f_equiv. unfold rest. destruct (is_ul first) eqn:Eu.
  { destruct (Hp eq_refl) as [tl ->]. assert (length (at_idx i snap) = length ps) as ->.
    { apply (f_equal length) in Ec. by rewrite !length_fmap in Ec. }
    by rewrite drop_app_length. }
  assert (∀ p, p ∈ ps → id_key p ∈ id_key <$> snap.*2 ∧ i ∈ snap.*1) as Hps.
  { intros p Hin. destruct (core_elem ps (at_idx i snap) p) as (p' & Hp'%at_idx_elem & Ep); [done..|].
    rewrite (core_id_key _ _ Ep). split; [apply list_elem_of_fmap_2; by apply (list_elem_of_fmap_2 snd) in Hp'|].
    by apply (list_elem_of_fmap_2 fst) in Hp'. }
  case_decide as Hin.
  2: { destruct ps as [|p ps]; [done|]. destruct Hin. apply (Hps p). by left. }
  rewrite (filter_split_perm (λ p, id_key p ∈ id_key <$> snap.*2) l) at 1. f_equiv.
  rewrite (filter_is_sublist _ (competes first) ps l); try done.
  - apply NoDup_fmap_1 in Hids. unfold competing in Hids. rewrite filter_concat in Hids.
    eapply NoDup_concat_lookup; [exact Hids|]. rewrite list_lookup_fmap, Hl. done.
  - apply Forall_forall. intros p Hpp. by apply Hps.
  - intros p Hpl Hk. by eapply taken_same.
Qed.

Lemma snap_perm : concat (imap (λ i _, at_idx i snap) (per_flow_queues q)) ≡ₚ snap.*2.
Proof.
  rewrite at_idx_all, filter_all; [done|]. apply Forall_forall. intros [i p] [new Hnew]%snap_part.
  pose proof (bt_parts _ _ _ _ _ _ _ Hb) as Hparts. rewrite Forall_forall in Hparts.
  destruct (Hparts _ Hnew) as (l & Hl & _). by eapply lookup_lt_Some.
Qed.
Lemma snap_ids : NoDup (packet_id <$> snap.*2).
Proof.
  rewrite <-snap_perm, fmap_concat_imap. eapply NoDup_submseteq_down; [|exact Hids].
  unfold competing. rewrite filter_concat.
  assert (packet_id <$> concat (filter (competes first) <$> per_flow_queues q) =
    concat (imap (λ _ l, packet_id <$> filter (competes first) l) (per_flow_queues q))) as ->.
  { rewrite <-(fmap_concat_imap packet_id (λ _ l, filter (competes first) l)). do 2 f_equal.
    symmetry. apply (imap_const (filter (competes first))). }
  apply concat_imap_submseteq. intros i l Hl. destruct (contribution i l Hl) as (ps & Ec & Hs & Hf & _).
  rewrite (fmap_core packet_id _ ps Ec) by by intros p p' (? & _)%core_fields.
  apply fmap_submseteq, sublist_submseteq. rewrite <-(filter_all (competes first) ps Hf) at 1. by apply filter_sublist.
Qed.

(** What is taken is sent or put back. *)
Lemma sent_or_unsent : core <$> snap.*2 ≡ₚ core <$> (mpdu_packets a ++ unsent ids snap.*2).
Proof.
  destruct (bt_sent _ _ _ _ _ _ _ Hb) as (kept & Hsub & Ec).
  assert (ids = packet_id <$> kept) as Eids by (apply (fmap_core packet_id _ _ Ec); by intros p p' (? & _)%core_fields).
  rewrite fmap_app, Ec, <-fmap_app. f_equiv. unfold unsent. rewrite Eids.
  rewrite (filter_split_perm (λ p, packet_id p ∈ packet_id <$> kept) snap.*2) at 1. f_equiv.
  rewrite (filter_is_sublist _ (λ _, True) kept snap.*2); try done.
  - rewrite filter_all by by apply Forall_true. by eapply NoDup_fmap_1, snap_ids.
  - by apply Forall_true.
  - apply Forall_forall. intros p Hp. by apply list_elem_of_fmap_2.
  - intros p Hp (p' & E & Hp')%list_elem_of_fmap. assert (p = p') as ->; [|done].
    eapply (NoDup_fmap_elem packet_id); [exact snap_ids|done|by eapply elem_of_sublist|done].
Qed.

Lemma unsent_all : concat (imap (λ i _, unsent ids (at_idx i snap)) (per_flow_queues q)) ≡ₚ unsent ids snap.*2.
Proof.
  rewrite <-snap_perm. unfold unsent. by rewrite filter_concat_imap.
Qed.
Lemma queues_after : per_flow_queues q' =
  imap (λ i l, unsent ids (at_idx i snap) ++ rest first parts i l) (per_flow_queues q).
Proof.
  apply list_eq. intros i. rewrite list_lookup_imap. destruct (per_flow_queues q !! i) as [l|] eqn:E; cbn.
  - rewrite (bt_queues _ _ _ _ _ _ _ Hb i l E). done.
  - apply lookup_ge_None. rewrite (bt_length _ _ _ _ _ _ _ Hb). by apply lookup_ge_None.
Qed.
Lemma built_conserves :
  core <$> concat (per_flow_queues q) ≡ₚ core <$> (mpdu_packets a ++ concat (per_flow_queues q')).
Proof.
  rewrite queues_after, concat_imap_app, unsent_all, (assoc_L (++)), fmap_app, <-sent_or_unsent, <-snap_perm.
  rewrite <-fmap_app, <-concat_imap_app, fmap_concat_imap.
  rewrite <-(concat_imap_perm (λ _ l, core <$> l)) by (intros; by apply taken_or_left).
  rewrite <-(fmap_concat_imap core (λ _ l, l)). do 2 f_equiv. rewrite (imap_const id). by rewrite list_fmap_id.
Qed.
End built.
End conservation.
End Conservation.
