(* ===== verification/MacTheorems.v ===== *)
(** * Theorems about the access point

    Stated for every state that the simulator can reach from its setup: the MAC
    does not stall, at most one A-MPDU is on air per link and contention happens on
    idle media only, and queues stay within their capacity.  Module [MacDemo] runs the model on a small network and has
    the witnesses. *)

From Stdlib Require Import SpecFloat.
From S2P Require Import Prelude Scheduler SeqExecutor F32 SimRng Airtime Edca EdcaFacts MacData AccessPoint ApFrames.
From S2P Require Import MacSafety Aggregation QueueInv MacSystem MacInit Conservation.

Module MacTheorems.
Import Rng Ap EdcaFacts ApFrames MacSafety Aggregation QueueInv MacSystem MacInit Conservation.

Section theorems.
Context {T P : Type} `{TaiTime T} `{!Epoch T} `{!Rand} `{!HashOrder} `{!PhyEnv} `{!LegacyIds}.
Implicit Types q : QueueModule T P.

(** ** The configuration does not change *)
Lemma handle_links_cfg now ready q q' : handle_links now ready q = Ret q' → cfg q' = cfg q.
Proof.
  apply (foldl_outcome_ind (λ q', cfg q' = cfg q) (λ (q : QueueModule T P) e, handle_link now e.1 e.2 q)); [done|].
  intros q0 e q1 _ IH E%handle_link_cfg. congruence.
Qed.
Lemma run_event_cfg t e q q' : run_event t e q = Ret q' → cfg q' = cfg q.
Proof.
  destruct e as [|a]; cbn [run_event].
  - intros (q1 & E1%drop_overflow_mac & ([ready q2] & E2 & (q3 & E3%handle_links_cfg & E4)%bind_Ret)%bind_Ret)%bind_Ret.
    unfold tick_all in E2. inv_ret E2 as ([[m v] r] & _ & [= _ <-]). cbn in E3.
    assert (cfg q' = cfg q3) as ->; [|by rewrite E3; apply (mac_part_cfg _ _ E1)].
    case_match; [by apply schedule_tick_queue, queue_part_cfg in E4|by injection E4 as <-].
  - intros (s & _ & (q2 & E2 & (q3 & E3%dcf_update_queue%queue_part_cfg & [= <-])%bind_Ret)%bind_Ret)%bind_Ret.
    destruct (drain_stats_parts a s q3) as [_ D%queue_part_cfg]. rewrite D, E3.
    destruct (put_output_parts a (end_transmission t a q)) as [_ O%queue_part_cfg].
    pose proof (queue_part_cfg _ _ (end_transmission_queue t a q)) as N. rewrite <-N, <-O.
    case_match; [by apply schedule_tick_queue, queue_part_cfg in E2|by injection E2 as <-].
Qed.
Lemma reachable_cfg (s0 s : T * QueueModule T P) : sys_inv s0 → reachable s0 s → cfg s.2 = cfg s0.2.
Proof.
  intros Hi. induction 1 as [|s1 s2 s3 Hs Hr IH]; [done|].
  rewrite IH by by eapply mac_step_sys. clear IH Hr.
  destruct Hs as [now p q q' E|now p q q' E|now sta c q|now t q Hle Hnb|now t e l1 l2 q q' E Hnb Er]; try done; cbn.
  - by destruct (input_qinv now p q q' (si_queue _ Hi) E).
  - by destruct (input_UL_qinv now p q q' (si_queue _ Hi) E).
  - by apply run_event_cfg in Er.
Qed.

(** ** Progress *)
(** C8: The MAC does not stall: in every reachable state in which some queue holds a
    packet, the module has an event pending, so that the queues will be looked at
    again, whatever arrived and whatever collided or was lost before. *)
Theorem mac_never_stalls s0 now q : initial s0 → reachable s0 (now, q) → backlogged q →
  ∃ t e, (t, e) ∈ scheduled q ∧ nanos now ≤ nanos t.
Proof.
  intros Hi Hr Hb. pose proof (reachable_sys _ _ (initial_sys _ Hi) Hr) as [Hm _ Hl].
  specialize (Hl Hb). cbn in *. destruct (scheduled q) as [|[t e] l] eqn:E; [done|].
  exists t, e. split; [by left|]. apply (mi_future _ _ _ _ Hm t e). rewrite E. by left.
Qed.

(** ** Safety *)
(** C9: At most one A-MPDU is on air per link: in every reachable state the pending ends
    of transmission are for different links, every link marked as transmitting has
    one, and every contention function of such a link is frozen until it is over. *)
Theorem one_ampdu_per_link s0 now q : initial s0 → reachable s0 (now, q) →
  NoDup (sending_links (scheduled q)) ∧
  (∀ l, link_is_transmitting q !! l = Some true → l ∈ sending_links (scheduled q)) ∧
  (∀ t a st, (t, SendAmpdu a) ∈ scheduled q → st ∈ dcf_values q → key_link (mac_key st) = link_id a →
     backoff_frozen st = true ∧ nanos t ≤ nanos (medium_free_since st)).
Proof.
  intros Hi Hr. pose proof (reachable_sys _ _ (initial_sys _ Hi) Hr) as [Hm _ _].
  split_and!; [apply Hm|intros l Hl; by apply (mi_tx _ _ _ _ Hm)|apply (mi_waits _ _ _ _ Hm)].
Qed.
(** Carrier sense: whenever the slot tick of the next event runs, a function contends
    only on its own link, when the medium of that link is idle and no A-MPDU is on
    air there. *)
Theorem contention_on_idle_links s0 now q t ready q' l k : initial s0 → reachable s0 (now, q) →
  nanos now ≤ nanos t → not_before t q → tick_all t q = Ret (ready, q') → k ∈ default [] (ready !! l) →
  key_link k = l ∧ (l ∉ sending_links (scheduled q)) ∧ link_idle t l q' = true.
Proof.
  intros Hi Hr Hle Hnb Ht Hk. pose proof (reachable_sys _ _ (initial_sys _ Hi) Hr) as [Hm _ _].
  apply (minv_later _ _ _ t) in Hm; [|done..].
  destruct (tick_all_ready _ _ _ _ Hm Ht) as [Es Hready]. destruct (Hready l k Hk) as (K1 & _ & K3 & K4).
  split_and!; [done| |done]. unfold on_air in K3. by rewrite Es in K3.
Qed.
(** Every contention function of a reachable state has the window that belongs to its
    number of retries (at most ten), and a counter within that window. *)
Theorem windows_follow_retries s0 now q st : initial s0 → reachable s0 (now, q) → st ∈ dcf_values q →
  0 ≤ retry_count st ≤ MAX_RETRIES_MAC ∧
  cw st = Z.min (cw_max (param st)) ((cw_min (param st) + 1) * 2 ^ retry_count st - 1) ∧
  0 ≤ backoff_counter st ≤ cw st ∧ param st = EDCA_TABLE (key_ac (mac_key st)).
Proof.
  intros Hi Hr Hst. pose proof (reachable_sys _ _ (initial_sys _ Hi) Hr) as [Hm _ _].
  pose proof (mi_ok _ _ _ _ Hm) as Hok. cbn in Hok. unfold all_ok in Hok. rewrite Forall_forall in Hok.
  destruct (Hok st Hst) as (D1 & D2 & D3 & D4 & D5). split_and!; try done; lia.
Qed.
(** C11: Queues are bounded: a reachable queue holds at most 8192 packets for the access
    point and 1024 for a station, all of its own station and category, and the two
    counters that the MAC consults are not below the number of packets queued. *)
Theorem queues_bounded s0 now q k i : initial s0 → reachable s0 (now, q) →
  mac_key_index (cfg q) !! k = Some i →
  (length (queue_of q i) ≤ (if (key_sta k =? -1)%Z then DOWNLINK_QUEUE_SIZE else UPLINK_QUEUE_SIZE))%nat ∧
  Forall (λ p, ac_key p = (key_sta k, key_ac k)) (queue_of q i) ∧
  Z.of_nat (load_ac q (key_sta k, key_ac k)) ≤ default 0 (active_mac_key_counts q !! (key_sta k, key_ac k)) ∧
  (load_link q (key_link k) ≤ default 0 (link_queue_depths q !! key_link k))%nat.
Proof.
  intros Hi Hr Hk. pose proof (initial_sys _ Hi) as H0'. pose proof (reachable_sys _ _ H0' Hr) as [_ Hq _].
  pose proof (reachable_cfg _ _ H0' Hr) as Ec. cbn in Hq, Ec. split_and!.
  - pose proof (qi_capacity _ Hq k i Hk) as Hc. unfold capacity, qlen in Hc.
    destruct Hi as (run & ids & pl & links & strat & packs & coords & caps & pos & q0 & Hd & E & _ & E2).
    rewrite E2 in Ec. unfold new in E. rewrite Nat.ltb_irrefl in E. inv_ret E as (v & _ & [= <-]).
    rewrite Ec in Hc. done.
  - eapply Forall_impl; [apply (qi_packets _ Hq k i Hk)|]. by intros p [? _].
  - apply (qi_active _ Hq).
  - apply (qi_depth _ Hq).
Qed.

(** ** Counters *)
(** The depth that link selection compares is not lowered when packets leave: a link
    is not recorded in the packets of the default mode, so that an aggregate that is
    sent leaves the depths of all links as they were. *)
Theorem link_depths_not_lowered s0 now q first link a airtime q' :
  initial s0 → reachable s0 (now, q) → build_new_ampdu first link now q = Ret (a, airtime, q') →
  link_queue_depths q' = link_queue_depths q.
Proof.
  intros Hi Hr E. pose proof (reachable_sys _ _ (initial_sys _ Hi) Hr) as [_ Hq _]. cbn in Hq.
  destruct (build_built _ _ _ _ _ _ _ (qi_inj _ Hq) E) as [parts Hb].
  destruct (bt_counts _ _ _ _ _ _ _ Hb) as (q1 & _ & _ & _ & C4 & C5).
  pose proof (sent_fits _ _ _ _ _ _ _ Hq Hb) as Hfit.
  destruct (count_all_sent_spec (mpdu_packets a) q1) as (_ & _ & D3 & _).
  { eapply Forall_impl; [exact Hfit|]. by intros p [_ ?]. }
  unfold queue_part in C5. injection C5 as _ _ E3 _. congruence.
Qed.

(** ** Link selection *)
Lemma lyapunov_least q ls : ∀ best, let r := foldl (lyapunov_step q) best ls in
  r.1 ≤ best.1 ∧ Forall (λ l, r.1 ≤ Z.of_nat (get_link_queue_depth l q)) ls ∧
  (r = best ∨ r.2 ∈ ls ∧ r.1 = Z.of_nat (get_link_queue_depth r.2 q)).
Proof.
  induction ls as [|l ls IH]; intros best; cbn [foldl]; [split_and!; [done|done|by left]|].
  destruct (IH (lyapunov_step q best l)) as (I1 & I2 & I3). cbv zeta.
  set (r := foldl _ _ ls) in *. unfold lyapunov_step in I1, I3.
  destruct (Z.ltb_spec (Z.of_nat (get_link_queue_depth l q)) best.1); cbn in I1.
  - split_and!; [lia|by constructor|]. right. destruct I3 as [->|[? ?]]; [|by split; [right|]]. cbn. split; [by left|done].
  - split_and!; [lia|constructor; [lia|done]|]. destruct I3 as [->|[? ?]]; [by left|right; by split; [right|]].
Qed.
Lemma primary_first_member ls now q o : select_mlo_channel_primary_first ls now q = Ret o → ∃ k, o = Some k ∧ k ∈ ls.
Proof.
  destruct ls as [|k ls]; [done|]. cbn. repeat case_match; intros [= <-]; eexists; (split; [done|]); try by left.
  right. eapply list_elem_of_filter. by eapply head_Some_elem_of.
Qed.
(** Link selection only gives a link that the station has; with back-pressure, one of
    those with the least recorded depth.  A station without an entry uses link 0, one
    without links none, and the queues and counters are left alone. *)
Theorem selected_link p now q l q' :
  (∀ k, Z.of_nat (get_link_queue_depth k q) ≤ U64_MAX) → select_link_for_packet p now q = Ret (l, q') →
  queue_part q' = queue_part q ∧ mac_part q' = mac_part q ∧
  match sta_capabilities (cfg q) !! (if is_ul p then sta_src_id p else sta_dest_id p) with
  | None => l = Some 0
  | Some [] => l = None
  | Some links => ∃ k, l = Some k ∧ k ∈ links ∧
      (mlo_linkselection_strat (cfg q) = LyapunovBackpressure →
       ∀ k', k' ∈ links → (get_link_queue_depth k q ≤ get_link_queue_depth k' q)%nat)
  end.
Proof.
  intros Hmax E. destruct (select_link_mac _ _ _ _ _ E) as [M Q]. split; [exact Q|]. split; [exact M|].
  unfold select_link_for_packet in E. destruct (sta_capabilities _ !! _) as [[|k1 [|k2 ls]]|].
  - by injection E as <- _.
  - injection E as <- _. exists k1. split_and!; [done|by left|]. by intros _ k' ->%list_elem_of_singleton.
  - assert (∀ q'' o, (o, q'') = select_mlo_channel_opportunistic (k1 :: k2 :: ls) now q →
      ∃ k, o = Some k ∧ k ∈ k1 :: k2 :: ls) as Hopp.
    { intros q'' o. unfold select_mlo_channel_opportunistic. destruct (gen_bool_half _) as [[|] r];
        destruct (link_idle now k1 q), (link_idle now k2 q); intros [= -> ->]; eexists; split; try done; set_solver. }
    destruct (mlo_linkselection_strat (cfg q)) eqn:Es;
      try (injection E as E; destruct (Hopp q' l) as (k & -> & Hk); [done|]; exists k; by split_and!).
    + inv_ret E as (o & E & [= <- _]). apply primary_first_member in E as (k & -> & Hk). exists k. by split_and!.
    + injection E as <- _. destruct (lyapunov_least q (k1 :: k2 :: ls) (U64_MAX, k1)) as (_ & L2 & L3).
      set (r := foldl _ _ _) in *. exists r.2. rewrite Forall_forall in L2.
      assert (r.2 ∈ k1 :: k2 :: ls ∧ Z.of_nat (get_link_queue_depth r.2 q) ≤ r.1) as [Hr1 Hr2].
      { destruct L3 as [->|[? ->]]; [|done]. cbn. split; [by left|apply Hmax]. }
      split_and!; [done..|]. intros _ k' Hk'. specialize (L2 k' Hk'). lia.
  - by injection E as <- _.
Qed.
End theorems.
End MacTheorems.
