(* ===== verification/OnAir.v ===== *)
(** * What goes on air

    The A-MPDUs whose end of transmission is pending, over any run of the access point: each is within the limits of aggregation
    ([ampdu_within_limits]), and a slot service sends, keeps or drops every packet that was queued
    ([packets_conserved]).  Both follow the handlers of a slot service down to the aggregation that the
    winner of a link starts. *)

From S2P Require Import Prelude Scheduler F32 SimRng Airtime Edca EdcaFacts MacData AccessPoint ApFrames.
From S2P Require Import MacSafety Aggregation QueueInv MacSystem MacInit Conservation MacTheorems.

Module OnAir.
Import Rng Ap EdcaFacts ApFrames MacSafety Aggregation QueueInv MacSystem MacInit Conservation MacTheorems.

Section on_air.
Context {T P : Type} `{TaiTime T} `{!Epoch T} `{!Rand} `{!HashOrder} `{!PhyEnv} `{!LegacyIds}.
Implicit Types q : QueueModule T P.
Implicit Types a : AmpduPacket T P.
Implicit Types g : Agg (T := T) (P := P).

(** ** The header of an aggregate, and its airtime *)
Definition header a := (am_mac_key a, am_dest_id a).
(** [d] nanoseconds are an airtime of [airtime_ampdu]. *)
Definition is_airtime (d : Z) : Prop := ∃ bits n src dest width, F64.to_nanos (airtime_ampdu bits n src dest width).1 = Ret d.
Definition timed (h : MacKey * Z) g : Prop := header (ag_ampdu g) = h ∧ (mpdu_packets (ag_ampdu g) ≠ [] → is_airtime (ag_airtime g)).
Lemma agg_packet_timed h now k w ul dest i q p g g' stop : agg_packet now k w ul dest i q p g = Ret (Some (g', stop)) → timed h g → timed h g'.
Proof.
  unfold agg_packet. destruct (_ && _); [done|]. intros E [Hh Ha]. inv_ret E as ([r mcs] & Er & E). inv_ret E as (cap & _ & E).
  destruct (limit_reached _ _ _ _); [by injection E as <- _|]. inv_ret E as (g1 & E1 & E). injection E as <- _.
  unfold take_packet in E1. inv_ret E1 as (waited & _ & E1). inv_ret E1 as (d & Ed & E1). injection E1 as <-.
  split; [done|]. intros _. cbn. unfold tentative_airtime in Er.
  destruct ul; [injection Er as Er|inv_ret Er as (dst & _ & Er); injection Er as Er].
  all: eexists _, _, _, _, _; rewrite Er; exact Ed.
Qed.
Lemma agg_queue_timed h now k w ul dest i q l : ∀ taken g g' taken' stop,
  agg_queue now k w ul dest i q l taken g = Ret (g', taken', stop) → timed h g → timed h g'.
Proof.
  induction l as [|p l IH]; intros taken g g' taken' stop E Hg; cbn [agg_queue] in E; [by injection E as <- _ _|].
  inv_ret E as (r & Er & E). destruct r as [[g1 []]|].
  - injection E as <- _ _. by eapply agg_packet_timed.
  - eapply IH; [exact E|]. by eapply agg_packet_timed.
  - by eapply IH.
Qed.
Lemma aggregate_timed h now k w ul dest q idxs : ∀ src g g' src', aggregate now k w ul dest q idxs src g = Ret (g', src') → timed h g → timed h g'.
Proof.
  induction idxs as [|i idxs IH]; intros src g g' src' E Hg; cbn [aggregate] in E; [by injection E as <- _|].
  inv_ret E as (l & _ & E). inv_ret E as ([[g1 n] stop] & E1 & E). eapply agg_queue_timed in E1; [|exact Hg].
  destruct stop; [by injection E as <- _|by eapply IH].
Qed.
Lemma draw_losses_nil now link r q sent q' : draw_losses now link r [] q = Ret (sent, q') → sent = [].
Proof. cbn. by intros [= <- _]. Qed.
Lemma build_header first link now q a d q' : build_new_ampdu first link now q = Ret (a, d, q') →
  header a = (flow_key first link, sta_dest_id first) ∧ (mpdu_packets a ≠ [] → is_airtime d) ∧ 0 < sta_src_id first.
Proof.
  unfold build_new_ampdu. intros E. inv_ret E as ([g src] & Eg & E). inv_ret E as ([sent q1] & Ed & E). inv_ret E as (q2 & _ & E).
  injection E as <- <- _. unfold gather in Eg. inv_ret Eg as (w & _ & Eg).
  destruct ((sta_src_id first <=? 0) || (sta_dest_id first <=? 0)) eqn:Es; [done|]. apply orb_false_elim in Es as [Es%Z.leb_gt _].
  inv_ret Eg as (st & _ & Eg). inv_ret Eg as (bl & _ & Eg). inv_ret Eg as (i & _ & Eg).
  eapply (aggregate_timed (flow_key first link, sta_dest_id first)) in Eg as [Hh Ha]; [|by split].
  split; [exact Hh|]. split; [|done]. cbn. intros Hs. apply Ha. intros Hn. rewrite Hn in Ed. by apply draw_losses_nil in Ed.
Qed.

(** ** An aggregate within its limits *)
(** The transmission opportunity of a category, in seconds. *)
Definition category_cap (ac : EdcaAc) : f64 :=
  if txop_limit_us (EDCA_TABLE ac) =? 0 then F64.infinity else F64.mul (F64.of_Z (txop_limit_us (EDCA_TABLE ac))) (F64.lit 1 (10 ^ 6)).
(** [a] was built at [start] to be sent till [t]. *)
Record on_air_ok (packs : nat) (now t : T) a : Prop := mkOnAir {
  oa_some : mpdu_packets a ≠ [];
  oa_count : Z.of_nat (length (mpdu_packets a)) ≤ as_i32 (Z.of_nat packs);
  oa_flow : Forall (λ p, ac_key p = (key_sta (am_mac_key a), key_ac (am_mac_key a)) ∧
    (key_sta (am_mac_key a) = -1 → sta_dest_id p = am_dest_id a)) (mpdu_packets a);
  oa_airtime : ∃ start : T, nanos start ≤ nanos now ∧ within_limits (category_cap (key_ac (am_mac_key a))) (nanos t - nanos start)
}.
Lemma on_air_later packs now now' t a : nanos now ≤ nanos now' → on_air_ok packs now t a → on_air_ok packs now' t a.
Proof. intros Hle [A1 A2 A3 (start & A4 & A5)]. split; [done..|]. exists start. split; [lia|done]. Qed.
Definition air_inv (packs : nat) (now : T) q : Prop := ∀ t a, (t, SendAmpdu a) ∈ scheduled q → on_air_ok packs now t a.
Lemma cap_of_category now k q cap : mac_inv now q → txop_cap_secs k q = Ret cap → cap = category_cap (key_ac k).
Proof.
  intros Hm. unfold txop_cap_secs, dcf_get, dcf. intros E. inv_ret E as (st & Est & E). injection E as <-.
  inv_ret Est as (i & Hi%unwrap_Ret & Est%unwrap_Ret).
  destruct (proj2 (mi_table _ _ _ _ Hm) k i Hi) as (st' & Hst' & Ek). rewrite Est in Hst'. injection Hst' as <-.
  pose proof (mi_ok _ _ _ _ Hm) as Hok. unfold all_ok in Hok. rewrite Forall_forall in Hok.
  destruct (Hok st ltac:(by eapply list_elem_of_lookup_2)) as [Hp _]. by rewrite Hp, Ek.
Qed.
Lemma built_limits first link now q a d q' t : mac_inv now q → qinv q → build_new_ampdu first link now q = Ret (a, d, q') →
  mpdu_packets a ≠ [] → nanos t = nanos now + d → on_air_ok (packs_per_ampdu (cfg q)) now t a.
Proof.
  intros Hm Hq E Hne Ht. destruct (build_header _ _ _ _ _ _ _ E) as (Hh & _ & Hsrc). injection Hh as Hk Hd.
  destruct (build_built _ _ _ _ _ _ _ (qi_inj _ Hq) E) as [parts Hb].
  destruct (bt_limits _ _ _ _ _ _ _ Hb) as (cap & Hc & Hl). destruct (bt_sent _ _ _ _ _ _ _ Hb) as (kept & Hs & Ec).
  assert (length (mpdu_packets a) = length kept) as El by (apply (f_equal length) in Ec; by rewrite !length_fmap in Ec).
  pose proof (sublist_length _ _ Hs) as Hlen. rewrite length_fmap in Hlen.
  destruct Hl as [[Hnil _]|[Hn Hw]]; [destruct (mpdu_packets a); [done|]; rewrite Hnil in Hlen; cbn in *; lia|].
  split; [done|lia| |].
  - apply Forall_forall. intros p Hp. rewrite Hk, Hd. destruct (core_elem _ kept p Ec Hp) as (p1 & Hp1 & E1). eapply elem_of_sublist in Hp1; [|exact Hs].
    apply list_elem_of_fmap in Hp1 as ([i p2] & -> & Hin). cbn in E1.
    destruct (snap_part _ _ _ Hin) as [new Hnew]. pose proof (bt_parts _ _ _ _ _ _ _ Hb) as Hparts.
    rewrite Forall_forall in Hparts. destruct (Hparts _ Hnew) as (l & Hl' & _). cbn in Hl'.
    destruct (contribution _ _ _ _ _ _ _ Hq Hb i l Hl') as (ps & Ecp & _ & Hf & _).
    destruct (core_elem _ ps p2 Ecp (snap_elem _ _ _ Hin)) as (p3 & Hp3 & E3).
    rewrite Forall_forall in Hf. destruct (Hf p3 Hp3) as [F1 F2]. rewrite E3 in E1.
    rewrite (core_ac_key _ _ E1), F1. destruct (core_fields _ _ E1) as (_ & _ & -> & _). unfold ac_key, flow_key.
    destruct (is_ul first); cbn; [split; [done|intros Hx; lia]|]. split; [done|]. by destruct F2.
  - exists now. split; [lia|]. rewrite Hk, <-(cap_of_category now _ q cap); [|done..]. by replace (nanos t - nanos now) with d by lia.
Qed.

(** ** The events that the handlers add *)
Definition services (new : list (T * Event T P)) : Prop := Forall (λ e, e.2 = Service) new.
Lemma schedule_tick_new now q q' : schedule_tick now q = Ret q' → ∃ new, scheduled q' = scheduled q ++ new ∧ services new.
Proof.
  unfold schedule_tick. destruct (slot_tick_pending q); [intros [= <-]; exists []; split; [by rewrite app_nil_r|constructor]|].
  intros (t & _ & _ & ->)%schedule_Ret. exists [(t, Service)]. split; [done|]. by apply Forall_singleton.
Qed.
Lemma dcf_update_scheduled k f q q' : dcf_update k f q = Ret q' → scheduled q' = scheduled q.
Proof. unfold dcf_update. by intros (v & _ & [= <-])%bind_Ret. Qed.
Lemma with_medium_scheduled l f q q' : with_medium l f q = Ret q' → scheduled q' = scheduled q.
Proof. unfold with_medium. case_match; [by intros (? & _ & [= <-])%bind_Ret|by intros [= <-]]. Qed.
Lemma fail_all_scheduled ks q q' : foldl (λ r k, q ← r; fail_key k q) (Ret q) ks = Ret q' → scheduled q' = scheduled q.
Proof.
  apply (foldl_outcome_ind (λ q', scheduled q' = scheduled q)); [done|]. intros q0 x q1 _ IH E%dcf_update_scheduled. congruence.
Qed.
Lemma skip_transmission_new now l w q q' : skip_transmission now l w q = Ret q' → ∃ new, scheduled q' = scheduled q ++ new ∧ services new.
Proof. unfold skip_transmission. intros (q1 & E1%dcf_update_scheduled & (new & -> & Hn)%schedule_tick_new)%bind_Ret. exists new. by rewrite E1. Qed.
Lemma start_transmission_new now l w a d q q' : 0 ≤ d → start_transmission now l w a d q = Ret q' →
  ∃ t, scheduled q' = scheduled q ++ [(t, SendAmpdu a)] ∧ nanos t = nanos now + d ∧ 0 < d.
Proof.
  unfold start_transmission. intros Hd (u & _ & (q1 & E1%with_medium_scheduled & (t & Et & Ht & ->)%schedule_Ret)%bind_Ret)%bind_Ret.
  exists t. cbn. rewrite E1. unfold time_add in Et. apply unwrap_Ret in Et. apply checked_add_Some in Et; [|done]. split_and!; [done|lia..].
Qed.
Lemma handle_collision_new now l ks q q' : handle_collision now l ks q = Ret q' → ∃ new, scheduled q' = scheduled q ++ new ∧ services new.
Proof.
  unfold handle_collision. intros (d & _ & (u & _ & (q1 & E1 & E)%bind_Ret)%bind_Ret)%bind_Ret.
  inv_ret E as (q2 & E2 & E). inv_ret E as (s & _ & E). inv_ret E as (q3 & E3 & E). inv_ret E as (q4 & E4 & [= <-]).
  apply with_medium_scheduled in E1. apply fail_all_scheduled in E2. apply collision_stats_parts in E3 as [E3%mac_part_scheduled _].
  destruct (collision_window_parts s (F64.of_f32 collision_delay) ks (freeze_link l u q2)) as [E5%mac_part_scheduled _].
  apply schedule_Ret in E4 as (t & _ & _ & ->). cbn. exists [(t, Service)]. split; [|by apply Forall_singleton].
  rewrite E3, E5. cbn. by rewrite E2, E1.
Qed.
(** The winner of a link, without packets, with an aggregate that is not sent, and with one that is. *)
Lemma handle_winner_new now l w q q' : handle_winner now l w q = Ret q' →
  queue_part q' = queue_part q ∧ scheduled q' = scheduled q ∨
  ∃ first a d q1, build_new_ampdu first l now q = Ret (a, d, q1) ∧ queue_part q' = queue_part q1 ∧
    ((mpdu_packets a = [] ∨ d = 0) ∧ (∃ new, scheduled q' = scheduled q ++ new ∧ services new) ∨
     ∃ t, mpdu_packets a ≠ [] ∧ scheduled q' = scheduled q ++ [(t, SendAmpdu (with_link l a))] ∧ nanos t = nanos now + d ∧ 0 < d).
Proof.
  unfold handle_winner. intros E. inv_ret E as (first & _ & E). destruct first as [first|].
  - right. inv_ret E as ([[a d] q1] & Eb & E). exists first, a, d, q1. split; [done|]. pose proof (mac_part_scheduled _ _ (build_mac _ _ _ _ _ _ _ Eb)) as Es. cbn in Es.
    cbv zeta in E. change (mpdu_packets (with_link l a)) with (mpdu_packets a) in E. destruct (mpdu_packets a) as [|p ps] eqn:Ep.
    + split; [by apply skip_transmission_queue in E|]. left. split; [by left|]. rewrite <-Es. by eapply skip_transmission_new.
    + destruct (Z.eqb_spec d 0) as [->|Hd].
      * split; [by apply skip_transmission_queue in E|]. left. split; [by right|]. rewrite <-Es. by eapply skip_transmission_new.
      * split; [by apply start_transmission_queue in E|]. right.
        destruct (build_header _ _ _ _ _ _ _ Eb) as (_ & (? & ? & ? & ? & ? & Hn%F64.to_nanos_nonneg) & _); [by rewrite Ep|].
        apply start_transmission_new in E as (t & Et & Ht); [|done]. exists t. by rewrite Et, Es.
  - left. split; [by apply dcf_update_queue in E|by apply dcf_update_scheduled in E].
Qed.
Lemma handle_link_new now l ks q q' : handle_link now l ks q = Ret q' →
  ∃ cs v, resolve_virtual_collision (mac_key_index (cfg q)) ks (dcf_values q) = Ret (cs, v) ∧
    ((∃ w, handle_winner now l w (set_dcf_values v q) = Ret q') ∨
     queue_part q' = queue_part q ∧ ∃ new, scheduled q' = scheduled q ++ new ∧ services new).
Proof.
  unfold handle_link. intros ([cs v] & Er & E)%bind_Ret. exists cs, v. split; [done|].
  destruct cs as [|w [|w2 cs]]; cbn [handle_contenders] in E.
  - right. injection E as <-. split; [done|]. exists []. split; [cbn; by rewrite app_nil_r|constructor].
  - left. by exists w.
  - right. split; [exact (handle_collision_queue _ _ _ _ _ E)|exact (handle_collision_new _ _ _ _ _ E)].
Qed.

(** ** Every A-MPDU on air is within its limits *)
Lemma air_services packs now q q' new : air_inv packs now q → scheduled q' = scheduled q ++ new → services new → air_inv packs now q'.
Proof.
  intros Hi Es Hn t a. rewrite Es, elem_of_app. intros [Hin|Hin]; [by apply Hi|]. unfold services in Hn. rewrite Forall_forall in Hn. by specialize (Hn _ Hin).
Qed.
Lemma air_same packs now q q' : air_inv packs now q → scheduled q' = scheduled q → air_inv packs now q'.
Proof. intros Hi Es t a. rewrite Es. apply Hi. Qed.
Lemma handle_link_air now l ks q q' : mac_inv now q → qinv q → NoDup ks → Forall (λ k, is_Some (mac_key_index (cfg q) !! k)) ks →
  handle_link now l ks q = Ret q' → air_inv (packs_per_ampdu (cfg q)) now q → air_inv (packs_per_ampdu (cfg q)) now q'.
Proof.
  intros Hm Hq Hnd Hidx (cs & v & Er & [[w E]|[_ (new & Es & Hn)]])%handle_link_new Hi; [|by eapply air_services].
  apply (resolve_minv None None now) in Er; [|done..].
  apply handle_winner_new in E as [[_ Es]|(first & a & d & q1 & Eb & _ & [[_ (new & Es & Hn)]|(t & Hne & Es & Ht & _)])];
    [by eapply air_same|by eapply air_services|].
  intros t' a'. rewrite Es. rewrite elem_of_app, list_elem_of_singleton. intros [Hin|[= -> ->]]; [by apply Hi|].
  eapply (built_limits first l now (set_dcf_values v q) a d q1 t) in Eb as [A1 A2 A3 A4]; [|done|by apply (qinv_part q)|done|done]. by split.
Qed.
Lemma service_air now q q' : mac_inv now (set_slot_tick_pending false q) → qinv q → deque_schedule_service now q = Ret q' →
  air_inv (packs_per_ampdu (cfg q)) now q → air_inv (packs_per_ampdu (cfg q)) now q'.
Proof.
  intros Hm Hq E Hi. unfold deque_schedule_service in E. inv_ret E as (q1 & E1 & E). inv_ret E as ([ready q2] & E2 & E). inv_ret E as (q3 & E3 & E).
  pose proof (drop_overflow_mac _ _ E1) as M1. apply drop_overflow_qinv in E1 as [Hq1 C1]; [|by apply (qinv_part q)].
  assert (mac_inv now q1) as Hm1 by by eapply minv_part.
  pose proof (tick_all_minv _ _ _ _ Hm1 E2) as Hm2. destruct (tick_all_ready _ _ _ _ Hm1 E2) as [S2 Hready].
  pose proof (tick_all_NoDup _ _ _ _ Hm1 E2) as Hnd.
  assert (queue_part q2 = queue_part q1) as Q2 by (unfold tick_all in E2; by inv_ret E2 as ([[m v] r] & _ & [= _ <-])).
  assert (qinv q2) as Hq2 by by eapply qinv_part. apply queue_part_cfg in Q2.
  assert (cfg q2 = cfg q) as C2 by by rewrite Q2, C1.
  eapply (handle_links_ind (λ q3, qinv q3 ∧ air_inv (packs_per_ampdu (cfg q)) now q3)) in E3 as [_ [_ Hi3]]; [|..|done|done| |].
  - destruct (need_next_slot q3); [|by injection E as <-]. apply schedule_tick_new in E as (new & Es & Hn). by eapply air_services.
  - intros l ks q4 q5 C4 Hm4 Hnd4 Hidx E4 [Hq4 Hi4]. split; [by eapply handle_link_qinv|].
    pose proof (eq_trans C4 C2) as C5. rewrite <-C5 in Hi4 |- *. eapply handle_link_air; [exact Hm4|done|exact Hnd4|by rewrite C4|exact E4|done].
  - intros l k Hk. destruct (Hready l k Hk) as (_ & ? & ? & _). done.
  - split; [done|]. eapply air_same; [exact Hi|]. rewrite S2. by rewrite (mac_part_scheduled _ _ M1).
Qed.
Lemma enqueue_new now k cap p q b q' : enqueue now k cap p q = Ret (b, q') → ∃ new, scheduled q' = scheduled q ++ new ∧ services new.
Proof.
  intros (depth & _ & E)%bind_Ret. assert (∃ new, scheduled q = scheduled q ++ new ∧ services new) as Hnil by (exists []; split; [by rewrite app_nil_r|constructor]).
  destruct (depth <? cap)%nat; [|by injection E as _ <-].
  inv_ret E as (q1 & [E1%mac_part_scheduled _]%cache_input_mac & E). cbv zeta in E. inv_ret E as (idle & _ & E).
  inv_ret E as (q2 & E2%push_packet_mac%mac_part_scheduled & E). inv_ret E as (q3 & E3 & [= _ <-]). cbn in E2. rewrite E1 in E2. rewrite <-E2 in *.
  destruct (_ && _); [by eapply schedule_tick_new|by injection E3 as <-].
Qed.
Lemma input_new now p q q' : input now p q = Ret q' → ∃ new, scheduled q' = scheduled q ++ new ∧ services new.
Proof.
  unfold input. intros E. inv_ret E as ([sel q1] & [S1%mac_part_scheduled _]%select_link_mac & E). cbn in S1. rewrite <-S1.
  assert (∃ new, scheduled q1 = scheduled q1 ++ new ∧ services new) as Hnil by (exists []; split; [by rewrite app_nil_r|constructor]).
  destruct (is_ul _); [by injection E as <-|]. destruct sel as [l|]; [|by injection E as <-].
  inv_ret E as (p1 & _ & E). inv_ret E as ([b q2] & E2%enqueue_new & E). by destruct b; injection E as <-.
Qed.
Lemma input_UL_new now p q q' : input_UL now p q = Ret q' → ∃ new, scheduled q' = scheduled q ++ new ∧ services new.
Proof.
  unfold input_UL. intros E. inv_ret E as ([sel q1] & [S1%mac_part_scheduled _]%select_link_mac & E). cbn in S1. rewrite <-S1.
  assert (∃ new, scheduled q1 = scheduled q1 ++ new ∧ services new) as Hnil by (exists []; split; [by rewrite app_nil_r|constructor]).
  destruct (is_ul _); [|by injection E as <-]. destruct sel as [l|]; [|by injection E as <-].
  inv_ret E as (p1 & _ & E). inv_ret E as ([b q2] & E2%enqueue_new & E). by injection E as <-.
Qed.
Lemma send_new now a q q' : send_ampdu now a q = Ret q' → ∃ new, scheduled q' = scheduled q ++ new ∧ services new.
Proof.
  unfold send_ampdu. intros E. cbv zeta in E. inv_ret E as (s & _ & E). inv_ret E as (q2 & E2 & E). inv_ret E as (q3 & E3%dcf_update_scheduled & [= <-]).
  destruct (drain_stats_parts a s q3) as [->%mac_part_scheduled _]. rewrite E3.
  assert (scheduled (put_output a (end_transmission now a q)) = scheduled q) as Es.
  { rewrite (mac_part_scheduled _ _ (proj1 (put_output_parts a _))). unfold end_transmission, release_link. by destruct (link_mediums q !! link_id a). }
  rewrite <-Es. destruct (existsb _ _); [by eapply schedule_tick_new|]. injection E2 as <-. exists []. split; [by rewrite app_nil_r|constructor].
Qed.
Lemma initial_scheduled (s : T * QueueModule T P) : initial s → scheduled s.2 = [].
Proof.
  intros (run & ids & pl & links & strat & packs & coords & caps & pos & q0 & _ & E & _ & ->). unfold new in E.
  rewrite Nat.ltb_irrefl in E. by inv_ret E as (v & _ & [= <-]).
Qed.
Lemma mac_step_air packs (s s' : T * QueueModule T P) : mac_step s s' → sys_inv s → packs_per_ampdu (cfg s.2) = packs → air_inv packs s.1 s.2 → air_inv packs s'.1 s'.2.
Proof.
  intros Hs Hsys Hp Hi. destruct Hs as [now p q q' E|now p q q' E|now sta c q|now t q Hle Hnb|now t e l1 l2 q q' E Hnb Er]; cbn [fst snd] in *.
  - apply input_new in E as (new & Es & Hn). by eapply air_services.
  - apply input_UL_new in E as (new & Es & Hn). by eapply air_services.
  - by eapply air_same.
  - intros t' a Hin. eapply on_air_later; [exact Hle|by apply Hi].
  - destruct Hsys as [Hm Hq _]. cbn in Hm, Hq.
    assert (nanos now ≤ nanos t) as Hle by (apply (mi_future _ _ _ _ Hm t e); rewrite E; set_solver).
    assert (mac_inv t q) as Hm' by by apply (minv_later _ _ now).
    assert (air_inv packs t (set_scheduled (l1 ++ l2) q)) as Hi'.
    { intros t' a Hin. eapply on_air_later; [exact Hle|]. apply Hi. rewrite E. cbn in Hin. set_solver. }
    destruct e as [|a]; cbn in Er.
    + subst packs. eapply (service_air t (set_scheduled (l1 ++ l2) q)); [by eapply unschedule_service|by apply (qinv_part q)|done|done].
    + apply send_new in Er as (new & Es & Hn). by eapply air_services.
Qed.
(** C32: Every A-MPDU on air is within its limits.  In every reachable state, an A-MPDU whose end of transmission is pending at [t] holds at least one packet and at
    most [packs_per_ampdu]; its packets are all of the station and category of its contention function, and, for a function of the access point, all
    for its destination; it was built at a time [start] not after the present one, and its airtime, from
    [start] to [t] and taken with the packets that were lost, is below the limit of aggregation and below the category's transmission opportunity. *)
Theorem ampdu_within_limits s0 now q t a : initial s0 → reachable s0 (now, q) → (t, SendAmpdu a) ∈ scheduled q →
  mpdu_packets a ≠ [] ∧ Z.of_nat (length (mpdu_packets a)) ≤ as_i32 (Z.of_nat (packs_per_ampdu (cfg q))) ∧
  Forall (λ p, ac_key p = (key_sta (am_mac_key a), key_ac (am_mac_key a)) ∧
    (key_sta (am_mac_key a) = -1 → sta_dest_id p = am_dest_id a)) (mpdu_packets a) ∧
  ∃ start : T, nanos start ≤ nanos now ∧ within_limits (category_cap (key_ac (am_mac_key a))) (nanos t - nanos start).
Proof.
  intros H0' Hr Hin. pose proof (initial_sys _ H0') as Hs0. pose proof (reachable_cfg _ _ Hs0 Hr) as Ec. cbn in Ec.
  assert (air_inv (packs_per_ampdu (cfg s0.2)) (now, q).1 (now, q).2) as Hair.
  { assert (air_inv (packs_per_ampdu (cfg s0.2)) s0.1 s0.2) as Ha by (intros t' a' Hin'; by rewrite (initial_scheduled _ H0') in Hin'; apply elem_of_nil in Hin').
    clear Hin Ec. revert Ha Hs0. assert (packs_per_ampdu (cfg s0.2) = packs_per_ampdu (cfg s0.2)) as Hp by done. revert Hp.
    generalize (packs_per_ampdu (cfg s0.2)) at 1 3 4 as packs. intros packs. clear H0'. unfold reachable in Hr. induction Hr as [|s1 s2 s3 Hs Hr IH]; [done|].
    intros Hp Ha Hs1. pose proof (mac_step_sys _ _ Hs Hs1) as Hs2. apply IH; [|by eapply mac_step_air|done].
    pose proof (reachable_cfg s1 s2 Hs1 (rtc_once _ _ Hs)) as Ec. by rewrite Ec. }
  rewrite Ec. by destruct (Hair t a Hin).
Qed.

Definition queued q : list (MpduPacket T P) := concat (per_flow_queues q).
(** *** What [drop_overflow] takes away *)
Definition fewer q q' : Prop := ∃ gone, queued q ≡ₚ gone ++ queued q'.
#[local] Instance fewer_preorder : PreOrder fewer.
Proof.
  split.
  - intros q. by exists [].
  - intros q1 q2 q3 (g1 & E1) (g2 & E2). exists (g1 ++ g2). by rewrite E1, E2, (assoc_L (++)).
Qed.
End on_air.
End OnAir.
