(* ===== verification/MacDemo.v ===== *)
(** * A small network

    One access point, two stations and two links, with concrete choices for what
    the simulator takes from elsewhere (the clock, the draws, the order of hash
    maps).  The runs show that the hypotheses of the theorems on the access point
    can hold, and what happens to packets with the same number. *)

From Stdlib Require Import SpecFloat.
From S2P Require Import Prelude Scheduler SeqExecutor F32 SimRng Airtime Edca EdcaFacts MacData AccessPoint ApFrames.
From S2P Require Import MacSafety Aggregation QueueInv MacSystem MacInit Conservation MacTheorems OnAir.

Module MacDemo.
Import Rng Ap EdcaFacts ApFrames MacSafety Aggregation QueueInv MacSystem MacInit Conservation MacTheorems OnAir.

(** ** The environment *)
#[local] Instance Epoch_demo : Epoch mono := mono_of 0.
#[local] Instance HashOrder_demo : HashOrder.
Proof. refine {| hm_iter K EqK CK A m := map_to_list m |}. done. Defined.
(** A counter is drawn as 0; the draws for losses are 1/2 and 1/4 in turn. *)
#[local] Instance Rand_demo : Rand.
Proof.
  refine {|
    gen_range r hi := (Z.min 1 hi, r);
    gen_f64 r := (if Z.even (state r) then F64.lit 1 4 else F64.lit 1 2, mkRng (state r + 1));
    gen_bool_half r := (true, r)
  |}.
  intros r hi Hhi. cbn. lia.
Defined.
#[local] Instance PhyEnv_demo : PhyEnv := {|
  log10 _ := F64.zero; su_spatial_streams := F64.of_Z 2; eht_phy_duration := EHT_PHY_DURATION
|}.
#[local] Instance LegacyIds_demo : LegacyIds := false.

Abbreviation Q := (QueueModule mono nat).
Definition links : list LinkConfig := [mkLink 0 80; mkLink 1 80].
Definition at_x (n : Z) : Coords := mkCoords (F64.of_Z n) F64.zero F64.zero.
Definition run0 : RunRng := set_global_seed 7.
Definition get {A} (d : A) (o : outcome A) : A := match o with Ret a => a | _ => d end.
Definition no_queue : Q := mkQueue (mkConfig 0 0 origin F64.zero ∅ ∅ ∅ ∅ PrimaryFirst 0) (mkRng 0) (mkRng 0) [] ampdu_new
  ∅ 0 0 0 ∅ ∅ [] queue_stats_new 0 ∅ ∅ [] ∅ ∅ false [] [].
(** The module for the stations 2 and 3: a third of the draws is a loss. *)
Definition fresh : outcome Q := new run0 2 [2; 3] (F64.lit 1 3) links LyapunovBackpressure 64 (at_x 0).
Definition s0 : mono * Q :=
  (mono_of 0, with_capabilities {[ 2 := [0; 1]; 3 := [0] ]} {[ 2 := at_x 1; 3 := at_x 2 ]} (get no_queue fresh)).
Definition packet (id src dest : Z) (ac : EdcaAc) : MpduPacket mono nat :=
  mkMpdu id 8000 (mono_of 0) (mono_of 0) 0 0 src dest (at_x src) 0 (Z.to_nat id) ac None None.

(** ** Runs *)
(** Arrivals at a time, and the [i]-th pending event, which must be the earliest. *)
Inductive action := Down (t : Z) (p : MpduPacket mono nat) | Up (t : Z) (p : MpduPacket mono nat) | Next (i : nat).
Definition earliest (t : mono) (q : Q) : bool := forallb (λ e, nanos t <=? nanos e.1) (scheduled q).
Definition wait (t : Z) (s : mono * Q) : outcome (mono * Q) :=
  if (nanos s.1 <=? nanos (mono_of t)) && earliest (mono_of t) s.2 then Ret (mono_of t, s.2) else Panic.
Definition act (s : mono * Q) (x : action) : outcome (mono * Q) :=
  match x with
  | Down t p => s ← wait t s; q ← input s.1 p s.2; Ret (s.1, q)
  | Up t p => s ← wait t s; q ← input_UL s.1 p s.2; Ret (s.1, q)
  | Next i =>
      e ← unwrap (scheduled s.2 !! i);
      if earliest e.1 s.2 then
        q ← run_event e.1 e.2 (set_scheduled (take i (scheduled s.2) ++ drop (S i) (scheduled s.2)) s.2);
        Ret (e.1, q)
      else Panic
  end.
Definition acts (s : mono * Q) (xs : list action) : outcome (mono * Q) := foldl (λ r x, s ← r; act s x) (Ret s) xs.

Lemma earliest_spec t q : earliest t q = true → not_before t q.
Proof.
  intros E t' e' Hin. unfold earliest in E. rewrite forallb_forall in E.
  specialize (E (t', e')). cbn in E. rewrite <-list_elem_of_In in E. apply E in Hin. by apply Z.leb_le.
Qed.
Lemma wait_reachable t s s' : wait t s = Ret s' → reachable s s'.
Proof.
  unfold wait. destruct s as [now q]. cbn. destruct (_ && _) eqn:E; [|done]. intros [= <-].
  apply andb_true_iff in E as [E1 E2]. apply rtc_once, step_wait; [by apply Z.leb_le|by apply earliest_spec].
Qed.
Lemma acts_reachable xs s s' : acts s xs = Ret s' → reachable s s'.
Proof.
  apply (foldl_outcome_ind (reachable s)); [constructor|]. intros s1 x s2 _ IH E. etrans; [exact IH|]. clear IH.
  destruct x as [t p|t p|i]; cbn [act] in E.
  - inv_ret E as ([now q] & W%wait_reachable & (q' & E & [= <-])%bind_Ret).
    etrans; [exact W|]. by eapply rtc_once, step_input.
  - inv_ret E as ([now q] & W%wait_reachable & (q' & E & [= <-])%bind_Ret).
    etrans; [exact W|]. by eapply rtc_once, step_input_UL.
  - destruct s1 as [now q]. inv_ret E as ([t e] & He%unwrap_Ret & E). cbn in *.
    destruct (earliest t q) eqn:Ee; [|done]. inv_ret E as (q' & E & [= <-]).
    eapply rtc_once, step_event; [|by apply earliest_spec|exact E]. symmetry. by apply take_drop_middle.
Qed.


Lemma demo_distinct : distinct [2; 3] links.
Proof. split_and!; [by apply (bool_decide_unpack _)|by apply (bool_decide_unpack _)|by apply (bool_decide_unpack _)]. Qed.
Lemma s0_initial : initial s0.
Proof.
  eexists run0, [2; 3], _, links, _, _, _, _, _, (get no_queue fresh).
  split; [apply demo_distinct|]. split; [|split; [|reflexivity]]; [vm_compute; reflexivity|vm_compute; discriminate].
Qed.
(** The state after some actions. *)
Definition after (xs : list action) : mono * Q := get s0 (acts s0 xs).
Definition returns {A} (o : outcome A) : bool := match o with Ret _ => true | _ => false end.
Lemma after_reachable xs : returns (acts s0 xs) = true → reachable s0 ((after xs).1, (after xs).2).
Proof.
  unfold after. destruct (acts s0 xs) as [s| |] eqn:E; [|done..]. intros _. cbn [get].
  destruct s. by apply (acts_reachable xs).
Qed.

(** Two packets for station 2 arrive; the service at 10 us sends one on each link;
    then a packet of station 2 arrives. *)
Definition arrived : list action := [Down 1000 (packet 1 1 2 Video); Down 1000 (packet 2 1 2 Video)].
Definition loaded : list action := arrived ++ [Next 0; Up 20000 (packet 5 2 1 Voice)].
(** Station 2 and the access point contend on both links, and collide. *)
Definition collided : list action := arrived ++ [Up 1000 (packet 5 2 1 Voice); Next 0].
(** Three packets for station 3, which has one link. *)
Definition one_link : list action :=
  [Down 1000 (packet 1 1 3 Video); Down 1000 (packet 2 1 3 Video); Down 1000 (packet 3 1 3 Video)].

Example loaded_run :
  (nanos (after loaded).1, (λ e, nanos e.1) <$> scheduled (after loaded).2, map (map packet_id) (per_flow_queues (after loaded).2)) =
  (20000, [246000; 246000], [[5]] ++ replicate 23 []).
Proof. vm_compute. reflexivity. Qed.

Lemma mac_never_stalls_witness : ∃ t e, (t, e) ∈ scheduled (after loaded).2 ∧ nanos (after loaded).1 ≤ nanos t.
Proof.
  apply (mac_never_stalls s0 (after loaded).1 (after loaded).2 s0_initial).
  - apply after_reachable. vm_compute. reflexivity.
  - exists (2, Voice, 0), 0%nat. split; [vm_compute; reflexivity|]. vm_compute. discriminate.
Defined.
Lemma one_ampdu_per_link_witness : NoDup (sending_links (scheduled (after loaded).2)) ∧
  sending_links (scheduled (after loaded).2) = [1; 0].
Proof.
  split; [|vm_compute; reflexivity].
  apply (one_ampdu_per_link s0 (after loaded).1 (after loaded).2 s0_initial).
  apply after_reachable. vm_compute. reflexivity.
Defined.
Definition no_ready : gmap Z (list MacKey) * Q := (∅, no_queue).
Definition first_tick : gmap Z (list MacKey) * Q := get no_ready (tick_all (mono_of 10000) (after arrived).2).
Lemma contention_on_idle_links_witness : first_tick.1 !! 0 = Some [(-1, Video, 0)] ∧ link_idle (mono_of 10000) 0 first_tick.2 = true.
Proof.
  split; [vm_compute; reflexivity|].
  apply (contention_on_idle_links s0 (after arrived).1 (after arrived).2 (mono_of 10000) first_tick.1 first_tick.2
           0 (-1, Video, 0) s0_initial).
  - apply after_reachable. vm_compute. reflexivity.
  - vm_compute. discriminate.
  - apply earliest_spec. vm_compute. reflexivity.
  - vm_compute. reflexivity.
  - apply (bool_decide_unpack _). vm_compute. exact I.
Defined.
Definition no_dcf : DcfStats mono := dcf_new run0 Video (-1, Video, 0).
Definition loser : DcfStats mono := default no_dcf (dcf_values (after collided).2 !! 17%nat).
Lemma windows_follow_retries_witness : retry_count loser = 1 ∧ cw loser = 15 ∧ 0 ≤ backoff_counter loser ≤ cw loser.
Proof.
  split; [vm_compute; reflexivity|]. split; [vm_compute; reflexivity|].
  apply (windows_follow_retries s0 (after collided).1 (after collided).2 loser s0_initial).
  - apply after_reachable. vm_compute. reflexivity.
  - apply (list_elem_of_lookup_2 _ 17). vm_compute. reflexivity.
Defined.
Lemma queues_bounded_witness : (length (queue_of (after loaded).2 0) ≤ UPLINK_QUEUE_SIZE)%nat ∧ queue_of (after loaded).2 0 ≠ [].
Proof.
  split; [|vm_compute; discriminate].
  apply (queues_bounded s0 (after loaded).1 (after loaded).2 (2, Voice, 0) 0%nat s0_initial).
  - apply after_reachable. vm_compute. reflexivity.
  - vm_compute. reflexivity.
Defined.

(** ** An aggregate with a loss *)
Definition no_built : AmpduPacket mono nat * Z * Q := (ampdu_new, 0, no_queue).
Definition sta3_first : MpduPacket mono nat := packet 1 1 3 Video.
Definition sta3_built : AmpduPacket mono nat * Z * Q :=
  get no_built (build_new_ampdu sta3_first 0 (mono_of 10000) (after one_link).2).
(** The slot service sends the first and the third, the second is lost on air. *)
Definition served : mono * Q := after (one_link ++ [Next 0]).
Definition no_event : mono * Event mono nat := (mono_of 0, Service).
Definition sent3 : mono * AmpduPacket mono nat :=
  match default no_event (scheduled served.2 !! 0%nat) with (t, SendAmpdu a) => (t, a) | (t, Service) => (t, ampdu_new) end.
Lemma ampdu_within_limits_witness : packet_id <$> mpdu_packets sent3.2 = [1; 3] ∧
  Z.of_nat (length (mpdu_packets sent3.2)) ≤ as_i32 (Z.of_nat (packs_per_ampdu (cfg served.2))).
Proof.
  split; [vm_compute; reflexivity|].
  apply (ampdu_within_limits s0 served.1 served.2 sent3.1 sent3.2 s0_initial).
  - apply after_reachable. vm_compute. reflexivity.
  - apply (list_elem_of_lookup_2 _ 0). vm_compute. reflexivity.
Defined.
Lemma link_depths_not_lowered_witness : link_queue_depths sta3_built.2 = link_queue_depths (after one_link).2 ∧
  get_link_queue_depth 0 sta3_built.2 = 3%nat.
Proof.
  split; [|vm_compute; reflexivity].
  apply (link_depths_not_lowered s0 (mono_of 10000) (after one_link).2 sta3_first 0 sta3_built.1.1 sta3_built.1.2 sta3_built.2 s0_initial).
  - etrans; [apply (after_reachable one_link); vm_compute; reflexivity|].
    apply rtc_once, step_wait; [vm_compute; discriminate|]. apply earliest_spec. vm_compute. reflexivity.
  - vm_compute. reflexivity.
Defined.

(** Packets of two sources for station 3, with the same number. *)
Definition same_number : list action := [Down 1000 (packet 1 1 3 Video); Down 1000 (packet 1 2 3 Video)].
(** A packet that is lost on air can disappear: the packets to put back are those
    whose number was not received, and numbers are per flow.  Two packets for one
    station from different sources with the same number are queued, the second
    is lost and the first received: neither is queued any more. *)
Theorem same_number_vanishes : ∃ q a airtime q', reachable s0 (mono_of 1000, q) ∧
  (λ p, (sta_src_id p, packet_id p)) <$> concat (per_flow_queues q) = [(1, 1); (2, 1)] ∧
  build_new_ampdu (packet 1 1 3 Video) 0 (mono_of 10000) q = Ret (a, airtime, q') ∧
  (λ p, (sta_src_id p, packet_id p)) <$> mpdu_packets a = [(1, 1)] ∧ concat (per_flow_queues q') = [].
Proof.
  set (r := get no_built (build_new_ampdu (packet 1 1 3 Video) 0 (mono_of 10000) (after same_number).2)).
  exists (after same_number).2, r.1.1, r.1.2, r.2. split; [|split_and!; vm_compute; reflexivity].
  apply (after_reachable same_number). vm_compute. reflexivity.
Qed.

(** ** Link selection *)
Definition next_packet : MpduPacket mono nat := packet 9 1 2 Video.
Lemma demo_depths k : Z.of_nat (get_link_queue_depth k (after loaded).2) ≤ U64_MAX.
Proof.
  assert (map_Forall (λ _ d, Z.of_nat d ≤ U64_MAX) (link_queue_depths (after loaded).2)) as Hd
    by (apply (bool_decide_unpack _); vm_compute; exact I).
  unfold get_link_queue_depth. destruct (link_queue_depths _ !! k) as [d|] eqn:E; [|done]. exact (Hd k d E).
Qed.
Lemma selected_link_witness :
  select_link_for_packet next_packet (mono_of 20000) (after loaded).2 = Ret (Some 1, (after loaded).2) ∧
  (get_link_queue_depth 1 (after loaded).2 ≤ get_link_queue_depth 0 (after loaded).2)%nat.
Proof.
  assert (select_link_for_packet next_packet (mono_of 20000) (after loaded).2 = Ret (Some 1, (after loaded).2)) as E
    by (vm_compute; reflexivity).
  split; [exact E|].
  destruct (selected_link next_packet (mono_of 20000) (after loaded).2 (Some 1) (after loaded).2 demo_depths E) as (_ & _ & Hl).
  assert (sta_capabilities (cfg (after loaded).2) !!
    (if is_ul next_packet then sta_src_id next_packet else sta_dest_id next_packet) = Some [0; 1]) as Ec
    by (vm_compute; reflexivity).
  rewrite Ec in Hl. destruct Hl as (k & Hk & _ & Hmin). injection Hk as <-. apply Hmin; [vm_compute; reflexivity|by left].
Defined.

(** ** Contention *)
Lemma s0_minv : minv None None s0.1 s0.2.
Proof. apply (initial_sys _ s0_initial). Qed.
Lemma no_dcf_ok : dcf_ok no_dcf.
Proof. apply dcf_new_ok. Qed.
Lemma backoff_doubles_witness : ∃ st, failures 2 (on_success (cw_min (param no_dcf)) no_dcf) = Ret ([true; true], st) ∧ cw st = 15.
Proof.
  destruct (backoff_doubles no_dcf 2 no_dcf_ok ltac:(lia)) as (st & E & Hcw & _).
  exists st. split; [exact E|]. rewrite Hcw. vm_compute. reflexivity.
Defined.
(** A frozen function, the medium free since 20 us, and six slots of which the fourth is busy. *)
Definition frozen_dcf : DcfStats mono := freeze_one 0 (mono_of 20000) no_dcf.
Definition slots : list (mono * bool) :=
  [(mono_of 29000, true); (mono_of 38000, true); (mono_of 47000, true); (mono_of 56000, false); (mono_of 65000, true);
   (mono_of 74000, true)].
Lemma slot_countdown_witness : ∃ u st, time_add (medium_free_since frozen_dcf) (aifs (param frozen_dcf)) = Ret u ∧
  ticks slots frozen_dcf = Ret (contention u (backoff_counter frozen_dcf) 0 slots, st) ∧
  contention u (backoff_counter frozen_dcf) 0 slots = [false; false; false; false; true; true].
Proof.
  eexists _, _. split; [vm_compute; reflexivity|]. split; [|vm_compute; reflexivity].
  apply (slot_countdown frozen_dcf _ slots).
  - exact no_dcf_ok.
  - reflexivity.
  - vm_compute. reflexivity.
  - repeat constructor; vm_compute; discriminate.
Defined.
Lemma virtual_collision_exact_witness :
  let index := mac_key_index (cfg s0.2) in
  let ready := [(-1, BestEffort, 0); (2, Video, 0); (-1, Video, 0)] in
  ∃ winners v', resolve_virtual_collision index ready (dcf_values s0.2) = Ret (winners, v') ∧
    (-1, Video, 0) ∈ winners ∧ (2, Video, 0) ∈ winners ∧ (-1, BestEffort, 0) ∉ winners.
Proof.
  cbv zeta. destruct (virtual_collision_exact (mac_key_index (cfg s0.2)) [(-1, BestEffort, 0); (2, Video, 0); (-1, Video, 0)]
    (dcf_values s0.2) 0) as (winners & v' & E & _ & Hw & _).
  - apply (mi_table _ _ _ _ s0_minv).
  - apply (mi_ok _ _ _ _ s0_minv).
  - apply (bool_decide_unpack _). vm_compute. exact I.
  - repeat constructor; vm_compute; eauto.
  - exists winners, v'. split; [exact E|]. unfold prio_le in Hw. setoid_rewrite <-Forall_forall in Hw. rewrite !Hw.
    apply (bool_decide_unpack _). vm_compute. exact I.
Defined.
Lemma new_builds_table_witness : ∃ q : Q, fresh = Ret q ∧ is_Some (mac_key_index (cfg q) !! (3, Voice, 1)).
Proof.
  destruct (new_builds_table (T := mono) (P := nat) run0 [2; 3] (F64.lit 1 3) links LyapunovBackpressure 64 (at_x 0)
    demo_distinct) as (q & E & _ & _ & Hk & _).
  exists q. split; [exact E|]. apply Hk. split; apply (bool_decide_unpack _); vm_compute; exact I.
Defined.
End MacDemo.
