(* ===== verification/MpscQueue.v ===== *)
(** * The mailbox queue: [asynchronix/src/channel/queue.rs]

    A bounded queue with many producers and one consumer, without locks: every slot
    carries a stamp that says for which position it is free or holds a message;
    producers reserve a position by a compare-and-swap on [enqueue_pos], write the
    message and publish it by the stamp; the consumer borrows the message in place
    and frees the slot when the borrow is dropped.

    A call is cut at its accesses to shared memory; [run] executes any schedule of
    these steps, any number of producers, spurious failures of the weak
    compare-and-swap included.  Steps interleave: the memory orderings of the
    source (Acquire and Release on the stamps, Relaxed on the positions) are not
    modelled.  An overflow, a failed debug assertion, an index out of range and
    [unreachable!()] are panics. *)

From S2P Require Import Prelude.

Module Mpsc.

Definition add_usize (a b : Z) : outcome Z := if a + b <=? U64_MAX then Ret (a + b) else Panic.
(** [x as isize] *)
Definition as_isize (z : Z) : Z := if z <? 2 ^ 63 then z else z - 2 ^ 64.
(** [usize::next_power_of_two] *)
Definition next_power_of_two (n : Z) : Z := 2 ^ Z.log2_up n.

Section mpsc.
Context {M : Type}.

(** ** Data *)
Inductive MessageBox := Populated (m : M) | Vacated | NoMessage.
Record Slot := mkSlot { stamp : Z; message : MessageBox }.
Record Queue := mkQueue {
  enqueue_pos : Z;
  dequeue_pos : Z;
  buffer : list Slot;
  right_mask : Z;
  closed_channel_mask : Z
}.
Implicit Types q : Queue.

Definition new (capacity : Z) : outcome Queue :=
  if negb (1 <=? capacity) then Panic
  else if negb (capacity <=? 2 ^ 63) then Panic
  else
    let buffer := (λ i, mkSlot (Z.of_nat i) Vacated) <$> seq 0 (Z.to_nat capacity) in
    let closed_channel_mask := next_power_of_two capacity in
    let right_mask := wrap 64 (wrap 64 (Z.shiftl closed_channel_mask 1) - 1) in
    Ret (mkQueue 0 0 buffer right_mask closed_channel_mask).

Definition set_enqueue_pos (p : Z) q : Queue :=
  mkQueue p (dequeue_pos q) (buffer q) (right_mask q) (closed_channel_mask q).
Definition set_dequeue_pos (p : Z) q : Queue :=
  mkQueue (enqueue_pos q) p (buffer q) (right_mask q) (closed_channel_mask q).
Definition set_slot (i : nat) (s : Slot) q : Queue :=
  mkQueue (enqueue_pos q) (dequeue_pos q) (<[i:=s]> (buffer q)) (right_mask q) (closed_channel_mask q).
Definition slot_at (i : nat) q : outcome Slot := unwrap (buffer q !! i).

(** The position after [queue_pos]. *)
Definition next_queue_pos q (queue_pos : Z) : outcome Z :=
  if negb (Z.land queue_pos (closed_channel_mask q) =? 0) then Panic
  else
    new_queue_pos ← add_usize queue_pos 1;
    let new_index := Z.land new_queue_pos (right_mask q) in
    if new_index <? Z.of_nat (length (buffer q)) then Ret new_queue_pos
    else
      sequence_increment ← add_usize (right_mask q) 1;
      let sequence_count := Z.ldiff queue_pos (right_mask q) in
      Ret (wrap 64 (sequence_count + sequence_increment)).
Definition close q : Queue := set_enqueue_pos (Z.lor (enqueue_pos q) (closed_channel_mask q)) q.
Definition is_closed q : bool := negb (Z.land (enqueue_pos q) (closed_channel_mask q) =? 0).

(** ** A producer in a call to [push], before its next access to the queue *)
Inductive producer :=
| PIdle
| PLoad (m : M)
| PStamp (m : M) (enqueue_pos : Z)
| PCas (m : M) (enqueue_pos stamp : Z)
| PWrite (m : M) (index : nat) (stamp : Z)
| PStore (index : nat) (stamp : Z).
(** What an access decides. *)
Inductive event :=
| EReserve (i : nat) (m : M)
| ECommit (i : nat)
| EFull (i : nat)
| EPushClosed (i : nat)
| EMiss
| EPop (m : M)
| EEmpty
| EPopClosed
| ERelease
| EClose.

(** Producer [i]; [spurious] lets the weak compare-and-swap fail. *)
Definition push_step (i : nat) (spurious : bool) (p : producer) q : outcome (producer * Queue * list event) :=
  match p with
  | PIdle => Ret (PIdle, q, [])
  | PLoad m => Ret (PStamp m (enqueue_pos q), q, [])
  | PStamp m pos =>
      if negb (Z.land pos (closed_channel_mask q) =? 0) then Ret (PIdle, q, [EPushClosed i])
      else
        slot ← slot_at (Z.to_nat (Z.land pos (right_mask q))) q;
        let stamp_delta := as_isize (wrap 64 (stamp slot - pos)) in
        Ret match stamp_delta ?= 0 with
            | Eq => (PCas m pos (stamp slot), q, [])
            | Lt => (PIdle, q, [EFull i])
            | Gt => (PLoad m, q, [])
            end
  | PCas m pos st =>
      next ← next_queue_pos q pos;
      Ret (if (enqueue_pos q =? pos) && negb spurious
           then (PWrite m (Z.to_nat (Z.land pos (right_mask q))) st, set_enqueue_pos next q, [EReserve i m])
           else (PStamp m (enqueue_pos q), q, []))
  | PWrite m index st =>
      slot ← slot_at index q;
      match message slot with
      | Vacated => Ret (PStore index st, set_slot index (mkSlot (stamp slot) (Populated m)) q, [])
      | _ => Panic
      end
  | PStore index st =>
      slot ← slot_at index q;
      Ret (PIdle, set_slot index (mkSlot (wrap 64 (st + 1)) (message slot)) q, [ECommit i])
  end.

(** ** The consumer: [pop], the borrow of the message, and its drop *)
Inductive consumer :=
| CIdle
| CMissed (dequeue_pos : Z)
| CTake (index : nat) (stamp : Z)
| CBorrow (m : M) (index : nat) (stamp : Z)
| CVacated (index : nat) (stamp : Z).
Definition pop_step (c : consumer) q : outcome (consumer * Queue * list event) :=
  match c with
  | CIdle =>
      let pos := dequeue_pos q in
      let index := Z.to_nat (Z.land pos (right_mask q)) in
      slot ← slot_at index q;
      if pos =? stamp slot then Ret (CMissed pos, q, [EMiss])
      else if negb (stamp slot =? pos + 1) then Panic
      else next ← next_queue_pos q pos;
           Ret (CTake index (stamp slot), set_dequeue_pos next q, [])
  | CMissed pos =>
      Ret (CIdle, q, [if enqueue_pos q =? Z.lor pos (closed_channel_mask q) then EPopClosed else EEmpty])
  | CTake index st =>
      slot ← slot_at index q;
      match message slot with
      | Populated m =>
          Ret (CBorrow m index (wrap 64 (st + right_mask q)), set_slot index (mkSlot (stamp slot) NoMessage) q, [EPop m])
      | _ => Panic
      end
  | CBorrow m index st =>
      slot ← slot_at index q;
      Ret (CVacated index st, set_slot index (mkSlot (stamp slot) Vacated) q, [])
  | CVacated index st =>
      slot ← slot_at index q;
      Ret (CIdle, set_slot index (mkSlot st (message slot)) q, [ERelease])
  end.

(** ** Schedules *)
Record State := mkState { queue : Queue; producers : gmap nat producer; cons : consumer }.
Implicit Types s : State.
Inductive action :=
| Push (i : nat) (m : M)
| Producer (i : nat) (spurious : bool)
| Consumer
| Close.
(** A producer begins a call only when it is not in one. *)
Definition step (a : action) s : outcome (State * list event) :=
  match a with
  | Push i m =>
      match default PIdle (producers s !! i) with
      | PIdle => Ret (mkState (queue s) (<[i := PLoad m]> (producers s)) (cons s), [])
      | _ => Ret (s, [])
      end
  | Producer i spurious =>
      '(p, q, es) ← push_step i spurious (default PIdle (producers s !! i)) (queue s);
      Ret (mkState q (<[i := p]> (producers s)) (cons s), es)
  | Consumer =>
      '(c, q, es) ← pop_step (cons s) (queue s);
      Ret (mkState q (producers s) c, es)
  | Close => Ret (mkState (close (queue s)) (producers s) (cons s), [EClose])
  end.
Fixpoint run (sched : list action) s : outcome (State * list event) :=
  match sched with
  | [] => Ret (s, [])
  | a :: sched =>
      '(s, es) ← step a s;
      '(s, es') ← run sched s;
      Ret (s, es ++ es')
  end.
Definition start (capacity : Z) : outcome State := q ← new capacity; Ret (mkState q ∅ CIdle).
End mpsc.
Arguments MessageBox : clear implicits.
Arguments Slot : clear implicits.
Arguments Queue : clear implicits.
Arguments producer : clear implicits.
Arguments event : clear implicits.
Arguments consumer : clear implicits.
Arguments State : clear implicits.
Arguments action : clear implicits.

(** Two producers and the consumer on a queue of two slots. *)
Example mpsc_example :
  (λ r, r.2) <$> (s ← start 2; run ([Push 0 7; Push 1 8; Producer 0 false; Producer 1 false; Producer 1 false;
    Producer 0 false; Producer 0 false; Producer 1 false; Producer 0 false; Producer 0 false] ++
    replicate 8 Consumer ++ replicate 8 (Producer 1 false) ++ [Close] ++ replicate 7 Consumer) s)
  = Ret [EReserve 0 7; ECommit 0; EPop 7; ERelease; EMiss; EEmpty; EMiss; EEmpty; EReserve 1 8; ECommit 1; EClose; EPop 8;
         ERelease; EMiss; EPopClosed; EMiss].
Proof. vm_compute. reflexivity. Qed.
End Mpsc.
