(* ===== verification/MpscFacts.v ===== *)
(** * The mailbox queue is a bounded FIFO queue

    [mpsc_refines_fifo]: whatever the schedule, no step panics and the events are
    those of an abstract queue: positions are reserved in order while there is room
    and the queue is open, a message can be popped when it is the oldest one and is
    written, and a queue is reported full, empty or closed only when it is.
    [slots_exclusive]: no two threads are about to access the same message. *)

From S2P Require Import Prelude MpscQueue.

Module MpscFacts.
Import Mpsc.

(** ** The abstract queue *)
Section spec.
Context {M : Type}.
(** The reserved positions, the oldest first, with their producer, their message and
    whether it is written; whether the consumer has a message in hand. *)
Record Spec := mkSpec { items : list (nat * M * bool); borrowed : bool; closed : bool }.
Definition occupied (sp : Spec) : nat := length (items sp) + (if borrowed sp then 1 else 0).
Inductive spec_step (cap : nat) : Spec → event M → Spec → Prop :=
| spec_reserve l b i m : (occupied (mkSpec l b false) < cap)%nat →
    spec_step cap (mkSpec l b false) (EReserve i m) (mkSpec (l ++ [(i, m, false)]) b false)
| spec_commit l1 l2 b c i m :
    spec_step cap (mkSpec (l1 ++ (i, m, false) :: l2) b c) (ECommit i) (mkSpec (l1 ++ (i, m, true) :: l2) b c)
| spec_full sp i : occupied sp = cap → spec_step cap sp (EFull i) sp
| spec_push_closed sp i : closed sp = true → spec_step cap sp (EPushClosed i) sp
| spec_miss sp : (∀ i m, head (items sp) ≠ Some (i, m, true)) → spec_step cap sp EMiss sp
| spec_pop l c i m : spec_step cap (mkSpec ((i, m, true) :: l) false c) (EPop m) (mkSpec l true c)
| spec_empty sp : items sp ≠ [] ∨ closed sp = false → spec_step cap sp EEmpty sp
| spec_pop_closed sp : items sp = [] → closed sp = true → spec_step cap sp EPopClosed sp
| spec_release l c : spec_step cap (mkSpec l true c) ERelease (mkSpec l false c)
| spec_close l b c : spec_step cap (mkSpec l b c) EClose (mkSpec l b true).
Inductive spec_run (cap : nat) : Spec → list (event M) → Spec → Prop :=
| spec_nil sp : spec_run cap sp [] sp
| spec_cons sp e sp' es sp'' : spec_step cap sp e sp' → spec_run cap sp' es sp'' → spec_run cap sp (e :: es) sp''.
Definition spec_start : Spec := mkSpec [] false false.

Lemma spec_run_app cap sp es sp' es' sp'' :
  spec_run cap sp es sp' → spec_run cap sp' es' sp'' → spec_run cap sp (es ++ es') sp''.
Proof. induction 1; [done|]. intros. cbn. econstructor; eauto. Qed.

Definition reserved (es : list (event M)) : list M := omap (λ e, match e with EReserve _ m => Some m | _ => None end) es.
Definition popped (es : list (event M)) : list M := omap (λ e, match e with EPop m => Some m | _ => None end) es.
Definition messages (sp : Spec) : list M := (λ e, e.1.2) <$> items sp.
(** What was reserved is what was popped and what is queued, in order. *)
Lemma spec_run_fifo cap sp es sp' : spec_run cap sp es sp' → messages sp ++ reserved es = popped es ++ messages sp'.
Proof.
  induction 1 as [sp|sp e sp' es sp'' Hs _ IH]; [by rewrite app_nil_r|]. unfold messages, reserved, popped in *.
  destruct Hs; cbn in *; try done.
  - rewrite <-IH, fmap_app, <-app_assoc. done.
  - rewrite <-IH, !fmap_app. done.
  - by rewrite IH.
Qed.
End spec.
Arguments Spec : clear implicits.

(** ** Positions *)
Section positions.
Context (cap k : nat).
Hypothesis cap_pos : (1 ≤ cap)%nat.
Hypothesis cap_k : Z.of_nat cap ≤ 2 ^ Z.of_nat k.
Abbreviation W := (2 ^ (Z.of_nat k + 1)).
(** The position of the [n]-th push. *)
Definition pos (n : nat) : Z := Z.of_nat (n / cap) * W + Z.of_nat (n `mod` cap).

Lemma W_pos : 0 < W.
Proof. apply Z.pow_pos_nonneg; lia. Qed.
Lemma W_double : W = 2 * 2 ^ Z.of_nat k.
Proof. rewrite Z.add_1_r, Z.pow_succ_r; lia. Qed.
Lemma index_lt n : Z.of_nat (n `mod` cap) < 2 ^ Z.of_nat k.
Proof. pose proof (Nat.mod_upper_bound n cap). lia. Qed.
Lemma pos_nonneg n : 0 ≤ pos n.
Proof. unfold pos. pose proof W_pos. nia. Qed.
Lemma pos_S n : pos (S n) = if (S (n `mod` cap) <? cap)%nat then pos n + 1 else Z.of_nat (S (n / cap)) * W.
Proof.
  unfold pos. pose proof (Nat.div_mod_eq n cap) as E. pose proof (Nat.mod_upper_bound n cap).
  destruct (Nat.ltb_spec (S (n `mod` cap)) cap).
  - rewrite <-(Nat.div_unique (S n) cap (n / cap) (S (n `mod` cap))) by lia.
    rewrite <-(Nat.mod_unique (S n) cap (n / cap) (S (n `mod` cap))) by lia. lia.
  - rewrite <-(Nat.div_unique (S n) cap (S (n / cap)) 0) by lia.
    rewrite <-(Nat.mod_unique (S n) cap (S (n / cap)) 0) by lia. lia.
Qed.
Lemma pos_lt_S n : pos n < pos (S n).
Proof.
  rewrite pos_S. destruct (Nat.ltb_spec (S (n `mod` cap)) cap); [lia|].
  unfold pos. pose proof (index_lt n). pose proof W_double. pose proof W_pos. nia.
Qed.
Lemma pos_mono n m : (n < m)%nat → pos n < pos m.
Proof. induction 1; [apply pos_lt_S|]. pose proof (pos_lt_S m). lia. Qed.
Lemma pos_inj n m : pos n = pos m → n = m.
Proof.
  intros E. destruct (lt_eq_lt_dec n m) as [[H|H]|H]; [|done|]; apply pos_mono in H; lia.
Qed.
Lemma pos_add_cap n : pos (n + cap) = pos n + W.
Proof.
  unfold pos. rewrite <-(Nat.mul_1_l cap) at 1 3. rewrite Nat.div_add, Nat.Div0.mod_add by lia. lia.
Qed.

Lemma pos_mod n : pos n `mod` W = Z.of_nat (n `mod` cap).
Proof.
  unfold pos. rewrite Z.add_comm, Z_mod_plus_full. apply Z.mod_small. pose proof (index_lt n). pose proof W_double. lia.
Qed.
Lemma pos_index n : Z.land (pos n) (W - 1) = Z.of_nat (n `mod` cap).
Proof. rewrite <-pos_mod. replace (W - 1) with (Z.ones (Z.of_nat k + 1)) by (rewrite Z.ones_equiv; lia). apply Z.land_ones. lia. Qed.
Lemma pos_sequence n : Z.ldiff (pos n) (W - 1) = Z.of_nat (n / cap) * W.
Proof.
  replace (W - 1) with (Z.ones (Z.of_nat k + 1)) by (rewrite Z.ones_equiv; lia). rewrite Z.ldiff_ones_r by lia.
  rewrite Z.shiftr_div_pow2, Z.shiftl_mul_pow2 by lia. f_equal. unfold pos. rewrite Z.add_comm, Z.div_add by (pose proof W_pos; lia).
  rewrite Z.div_small; [lia|]. pose proof (index_lt n). pose proof W_double. lia.
Qed.
Lemma pos_flag n : Z.land (pos n) (2 ^ Z.of_nat k) = 0.
Proof.
  apply Z.bits_inj_0. intros j. rewrite Z.land_spec. destruct (Z.eqb_spec (Z.of_nat k) j) as [<-|Hne].
  - apply andb_false_intro1. apply Z.testbit_false; [lia|]. rewrite <-(Z.mod_small 0 2) by lia.
    assert (pos n / 2 ^ Z.of_nat k = Z.of_nat (n / cap) * 2) as ->; [|by rewrite Z_mod_mult].
    unfold pos. rewrite W_double. pose proof (index_lt n).
    replace (Z.of_nat (n / cap) * (2 * 2 ^ Z.of_nat k) + Z.of_nat (n `mod` cap)) with
      (Z.of_nat (n `mod` cap) + Z.of_nat (n / cap) * 2 * 2 ^ Z.of_nat k) by lia.
    rewrite Z.div_add by lia. rewrite Z.div_small; lia.
  - rewrite (Z.pow2_bits_false _ j) by done. apply andb_false_r.
Qed.
Lemma pos_closed n : Z.lor (pos n) (2 ^ Z.of_nat k) = pos n + 2 ^ Z.of_nat k.
Proof. pose proof (pos_flag n). by rewrite <-Z.lxor_lor, Z.add_nocarry_lxor. Qed.
Lemma closed_flag n : Z.land (pos n + 2 ^ Z.of_nat k) (2 ^ Z.of_nat k) ≠ 0.
Proof.
  rewrite <-pos_closed, Z.land_lor_distr_l, pos_flag, Z.land_diag, Z.lor_0_l. pose proof (Z.pow_pos_nonneg 2 (Z.of_nat k)). lia.
Qed.
Lemma closed_again n : Z.lor (pos n + 2 ^ Z.of_nat k) (2 ^ Z.of_nat k) = pos n + 2 ^ Z.of_nat k.
Proof. by rewrite <-pos_closed, <-Z.lor_assoc, Z.lor_diag. Qed.
Lemma closed_ne n m : pos n ≠ pos m + 2 ^ Z.of_nat k.
Proof. intros E. apply (closed_flag m). rewrite <-E. apply pos_flag. Qed.
Lemma window_inj r n m : (r ≤ n < r + cap)%nat → (r ≤ m < r + cap)%nat → (n `mod` cap = m `mod` cap)%nat → n = m.
Proof.
  intros Hn Hm E. pose proof (Nat.div_mod_eq n cap). pose proof (Nat.div_mod_eq m cap).
  destruct (Nat.eq_dec (n / cap) (m / cap)); nia.
Qed.
Lemma pos_bound n : pos n ≤ 4 * Z.of_nat (n + cap) ∨ 2 * Z.of_nat cap < 2 ^ Z.of_nat k.
Proof.
  destruct (Z.le_gt_cases (2 ^ Z.of_nat k) (2 * Z.of_nat cap)); [left|by right].
  unfold pos. rewrite W_double. pose proof (Nat.div_mod_eq n cap). pose proof (Nat.mod_upper_bound n cap). nia.
Qed.

Section queue.
Context {M : Type}.
Implicit Types q : Queue M.

Definition shaped q : Prop :=
  length (buffer q) = cap ∧ right_mask q = W - 1 ∧ closed_channel_mask q = 2 ^ Z.of_nat k.
Lemma next_pos_ok q n : shaped q → pos (n + cap) < 2 ^ 63 → next_queue_pos q (pos n) = Ret (pos (S n)).
Proof.
  intros (Hl & Hr & Hc) Hb. unfold next_queue_pos. rewrite Hc, Hr, Hl, pos_flag. cbn [negb Z.eqb].
  rewrite pos_add_cap in Hb. pose proof (pos_nonneg n). pose proof W_pos.
  unfold add_usize, U64_MAX. rewrite (proj2 (Z.leb_le (pos n + 1) _)) by lia. ret_step. cbv zeta.
  pose proof (pos_S n) as ES. pose proof (Nat.mod_upper_bound n cap) as Hm.
  assert (Z.land (pos n + 1) (W - 1) = Z.of_nat (S (n `mod` cap))) as ->.
  { replace (W - 1) with (Z.ones (Z.of_nat k + 1)) by (rewrite Z.ones_equiv; lia).
    rewrite Z.land_ones by lia. unfold pos. rewrite <-Z.add_assoc, Z.add_comm, Z_mod_plus_full.
    pose proof (index_lt n). pose proof W_double. rewrite Z.mod_small; lia. }
  destruct (Nat.ltb_spec (S (n `mod` cap)) cap).
  - rewrite (proj2 (Z.ltb_lt _ _)) by lia. by rewrite ES.
  - rewrite (proj2 (Z.ltb_ge _ _)) by lia. rewrite (proj2 (Z.leb_le _ _)) by (unfold pos in Hb; nia). ret_step.
    rewrite pos_sequence, ES, wrap_id; [f_equal; lia|]. unfold pos in *. nia.
Qed.

(** ** The invariant *)
Definition pc (ps : gmap nat (producer M)) (i : nat) : producer M := default PIdle (ps !! i).
Definition pending_pc (p : producer M) : bool := match p with PWrite _ _ _ | PStore _ _ => true | _ => false end.
Definition taking (c : consumer M) : nat := match c with CTake _ _ => 1 | _ => 0 end.
Definition holds (c : consumer M) : bool := match c with CBorrow _ _ _ | CVacated _ _ => true | _ => false end.
(** The slot of the [n]-th push: [H] is the oldest position in the abstract queue. *)
Definition slot_ok (ps : gmap nat (producer M)) (c : consumer M) (l : list (nat * M * bool)) (H n : nat) : Slot M :=
  if (n <? H)%nat then mkSlot (pos n + 1) (match c with CBorrow _ _ _ => NoMessage | _ => Vacated end)
  else match l !! (n - H)%nat with
       | Some (i, m, true) => mkSlot (pos n + 1) (Populated m)
       | Some (i, m, false) => mkSlot (pos n) (match pc ps i with PStore _ _ => Populated m | _ => Vacated end)
       | None => mkSlot (pos n) Vacated
       end.
Definition producer_ok (sp : Spec M) (H i : nat) (p : producer M) : Prop :=
  let T := (H + length (items sp))%nat in
  match p with
  | PIdle | PLoad _ => True
  | PStamp _ x => ∃ n (c : bool), (n ≤ T)%nat ∧ x = pos n + (if c then 2 ^ Z.of_nat k else 0) ∧ (c = true → closed sp = true)
  | PCas _ x st => ∃ n, (n ≤ T)%nat ∧ x = pos n ∧ st = pos n ∧ (n = T → (occupied sp < cap)%nat)
  | PWrite m x st => ∃ n, items sp !! (n - H)%nat = Some (i, m, false) ∧ (H ≤ n)%nat ∧ x = (n `mod` cap)%nat ∧ st = pos n
  | PStore x st => ∃ n m, items sp !! (n - H)%nat = Some (i, m, false) ∧ (H ≤ n)%nat ∧ x = (n `mod` cap)%nat ∧ st = pos n
  end.
Definition consumer_ok (sp : Spec M) (H : nat) (c : consumer M) : Prop :=
  match c with
  | CIdle => True
  | CMissed x => x = pos H
  | CTake x st => x = (H `mod` cap)%nat ∧ st = pos H + 1 ∧ ∃ i m, head (items sp) = Some (i, m, true)
  | CBorrow _ x st | CVacated x st => (1 ≤ H)%nat ∧ x = ((H - 1) `mod` cap)%nat ∧ st = pos (H - 1 + cap)
  end.
Definition base (sp : Spec M) (H : nat) : nat := H - (if borrowed sp then 1 else 0).
Record inv (s : State M) (sp : Spec M) (H : nat) : Prop := {
  iv_shape : shaped (queue s);
  iv_enqueue : enqueue_pos (queue s) = pos (H + length (items sp)) + (if closed sp then 2 ^ Z.of_nat k else 0);
  iv_dequeue : dequeue_pos (queue s) = pos (H + taking (cons s));
  iv_borrowed : borrowed sp = holds (cons s);
  iv_room : (occupied sp ≤ cap)%nat;
  iv_slots : ∀ n, (base sp H ≤ n < base sp H + cap)%nat →
    buffer (queue s) !! (n `mod` cap)%nat = Some (slot_ok (producers s) (cons s) (items sp) H n);
  iv_producers : ∀ i, producer_ok sp H i (pc (producers s) i);
  iv_pending : ∀ j i m, items sp !! j = Some (i, m, false) →
    pc (producers s) i = PWrite m ((H + j) `mod` cap)%nat (pos (H + j)) ∨
    pc (producers s) i = PStore ((H + j) `mod` cap)%nat (pos (H + j));
  iv_consumer : consumer_ok sp H (cons s)
}.
Lemma pc_insert ps i p j : pc (<[i:=p]> ps) j = if decide (i = j) then p else pc ps j.
Proof. unfold pc. rewrite lookup_insert. by case_decide. Qed.
Lemma slot_ok_ext ps ps' c l H n :
  (∀ i m, (i, m, false) ∈ l → pc ps' i = pc ps i) → slot_ok ps' c l H n = slot_ok ps c l H n.
Proof.
  intros E. unfold slot_ok. destruct (n <? H)%nat; [done|].
  destruct (l !! (n - H)%nat) as [[[i m] [|]]|] eqn:El; try done.
  by rewrite (E i m) by by eapply list_elem_of_lookup_2.
Qed.
Lemma slot_stamp ps c l H n : pos n ≤ stamp (slot_ok ps c l H n) ≤ pos n + 1.
Proof. unfold slot_ok. repeat case_match; cbn; lia. Qed.
Lemma as_isize_wrap d : - 2 ^ 63 ≤ d < 2 ^ 63 → as_isize (wrap 64 d) = d.
Proof.
  intros Hd. unfold as_isize, wrap. destruct (Z.le_gt_cases 0 d).
  - rewrite Z.mod_small by lia. rewrite (proj2 (Z.ltb_lt _ _)); lia.
  - rewrite <-(Z.mod_unique d (2 ^ 64) (-1) (d + 2 ^ 64)) by lia. rewrite (proj2 (Z.ltb_ge _ _)); lia.
Qed.
Lemma window_ex r x : (x < cap)%nat → ∃ n, (r ≤ n < r + cap)%nat ∧ (n `mod` cap)%nat = x.
Proof.
  intros Hx. pose proof (Nat.div_mod_eq r cap). pose proof (Nat.mod_upper_bound r cap).
  destruct (Nat.le_gt_cases (r `mod` cap) x).
  - exists (cap * (r / cap) + x)%nat. split; [lia|]. symmetry. apply (Nat.mod_unique _ _ (r / cap)); lia.
  - exists (cap * (r / cap + 1) + x)%nat. split; [lia|]. symmetry. apply (Nat.mod_unique _ _ (r / cap + 1)); lia.
Qed.

(** The message of a slot that a thread accesses in its next step. *)
Definition writes (p : producer M) : option nat := match p with PWrite _ x _ => Some x | _ => None end.
Definition consumes (c : consumer M) : option nat := match c with CTake x _ | CBorrow _ x _ => Some x | _ => None end.
(** No two threads are about to access the same message. *)
Definition exclusive (s : State M) : Prop :=
  (∀ i j x, writes (default PIdle (producers s !! i)) = Some x → writes (default PIdle (producers s !! j)) = Some x → i = j) ∧
  (∀ i x, writes (default PIdle (producers s !! i)) = Some x → consumes (cons s) = Some x → False).

Section step.
Context (s : State M) (sp : Spec M) (H : nat) (Hi : inv s sp H).
Abbreviation T := (H + length (items sp))%nat.
Hypothesis Hb : pos (T + cap) < 2 ^ 63.

(** A step that ends in a good state, with events of the abstract queue. *)
Definition good (r : outcome (State M * list (event M))) : Prop :=
  ∃ s' es sp' H', r = Ret (s', es) ∧ spec_run cap sp es sp' ∧ inv s' sp' H' ∧ (H' + length (items sp') ≤ S T)%nat.

Lemma held_pos : borrowed sp = true → (1 ≤ H)%nat.
Proof.
  rewrite (iv_borrowed _ _ _ Hi). pose proof (iv_consumer _ _ _ Hi) as Hc. destruct (cons s); cbn in *; try done; tauto.
Qed.
Lemma occupied_base : (occupied sp = T - base sp H ∧ base sp H ≤ H)%nat.
Proof. pose proof held_pos as Hh. unfold occupied, base. destruct (borrowed sp); [specialize (Hh eq_refl)|]; lia. Qed.
Lemma pos_small n : (n ≤ T + cap)%nat → 0 ≤ pos n < 2 ^ 63.
Proof.
  intros Hn. pose proof (pos_nonneg n). destruct (decide (n = (T + cap)%nat)) as [->|]; [lia|].
  pose proof (pos_mono n (T + cap)). lia.
Qed.

(** Only the place of producer [i] changes, and it is in no pending push. *)
Lemma inv_local i p : pending_pc (pc (producers s) i) = false → pending_pc p = false → producer_ok sp H i p →
  inv (mkState (queue s) (<[i:=p]> (producers s)) (cons s)) sp H.
Proof.
  intros Hp Hp' Hok. destruct Hi as [I1 I2 I3 I4 I5 I6 I7 I8 I9].
  assert (∀ j m, (j, m, false) ∈ items sp → i ≠ j) as Hne.
  { intros j m [x Hx]%list_elem_of_lookup ->. destruct (I8 x j m Hx) as [E|E]; rewrite E in Hp; done. }
  split; cbn; try done.
  - intros n Hn. rewrite I6 by done. f_equal. symmetry. apply slot_ok_ext. intros j m Hj%Hne.
    by rewrite pc_insert, decide_False.
  - intros j. rewrite pc_insert. case_decide as E; [by subst|done].
  - intros x j m Hj. rewrite pc_insert, decide_False; [by apply I8|]. eapply Hne. by eapply list_elem_of_lookup_2.
Qed.

(** Nothing happened to the queue, and the abstract queue allows the events. *)
Lemma good_local i p es : pending_pc (pc (producers s) i) = false → pending_pc p = false → producer_ok sp H i p →
  spec_run cap sp es sp → good (Ret (mkState (queue s) (<[i:=p]> (producers s)) (cons s), es)).
Proof. intros. eexists _, es, sp, H. split_and!; try done; [by apply inv_local|lia]. Qed.

Lemma slot_at_ok n : (base sp H ≤ n < base sp H + cap)%nat →
  slot_at (n `mod` cap)%nat (queue s) = Ret (slot_ok (producers s) (cons s) (items sp) H n).
Proof. intros Hn. unfold slot_at. by rewrite (iv_slots _ _ _ Hi n Hn). Qed.
(** The stamp in the slot of position [n], for a producer that has read [n]. *)
Lemma stamp_cases n : (n ≤ T)%nat → ∃ sl, slot_at (n `mod` cap)%nat (queue s) = Ret sl ∧
  0 ≤ stamp sl < 2 ^ 63 ∧
  (stamp sl = pos n ∧ (n = T → occupied sp < cap)%nat ∨ pos n < stamp sl ∨ stamp sl < pos n ∧ occupied sp = cap).
Proof.
  intros Hn. destruct occupied_base as [Ho Hbase]. pose proof (iv_room _ _ _ Hi) as Hroom.
  pose proof (Nat.mod_upper_bound n cap) as Hm.
  destruct (window_ex (base sp H) (n `mod` cap)%nat) as (n' & Hn' & E); [lia|].
  exists (slot_ok (producers s) (cons s) (items sp) H n'). rewrite <-E, slot_at_ok by done. split; [done|].
  pose proof (slot_stamp (producers s) (cons s) (items sp) H n') as Hst.
  pose proof (pos_small n') as Hs. pose proof (pos_small (S n')) as Hs'. pose proof (pos_lt_S n').
  split; [split; [lia|]; destruct (decide (n' = (T + cap)%nat)); lia|].
  destruct (lt_eq_lt_dec n n') as [[Hlt|Heq]|Hgt].
  - right. left. pose proof (pos_mono n n' Hlt). lia.
  - subst n'. destruct (Z.eq_dec (stamp (slot_ok (producers s) (cons s) (items sp) H n)) (pos n)); [left; lia|right; left; lia].
  - right. right. assert (n = n' + cap)%nat as ->.
    { apply (window_inj (S n')); [lia..|]. rewrite <-E. pose proof (Nat.Div0.mod_add n' 1 cap) as Em. by rewrite Nat.mul_1_l in Em. }
    rewrite pos_add_cap. pose proof W_double. pose proof (Z.pow_pos_nonneg 2 (Z.of_nat k)). lia.
Qed.
Lemma stamp_good i b m x : pc (producers s) i = PStamp m x → good (step (Producer i b) s).
Proof.
  intros E. pose proof (iv_producers _ _ _ Hi i) as Hp. rewrite E in Hp. destruct Hp as (n & c & Hn & -> & Hc).
  destruct (iv_shape _ _ _ Hi) as (Hl & Hr & Hm).
  cbn [step]. fold (pc (producers s) i). rewrite E. cbn [push_step]. rewrite Hm, Hr. destruct c.
  - rewrite (proj2 (Z.eqb_neq _ _)) by apply closed_flag. cbn [negb mbind outcome_bind].
    apply good_local; [by rewrite E|done..|]. econstructor; [apply spec_push_closed; by apply Hc|constructor].
  - rewrite Z.add_0_r, pos_flag, pos_index, Nat2Z.id. cbn [negb Z.eqb].
    destruct (stamp_cases n Hn) as (sl & -> & Hsl & Hcase). ret_step. pose proof (pos_small n).
    rewrite as_isize_wrap by lia. destruct Hcase as [[Hst Hocc]|[Hst|[Hst Hocc]]].
    + rewrite (proj2 (Z.compare_eq_iff _ _)) by lia. apply good_local; [by rewrite E|done| |constructor].
      exists n. rewrite Hst. by split_and!.
    + rewrite (proj2 (Z.compare_gt_iff _ _)) by lia. apply good_local; [by rewrite E|done..|constructor].
    + rewrite (proj2 (Z.compare_lt_iff _ _)) by lia. apply good_local; [by rewrite E|done..|].
      econstructor; [by apply spec_full|constructor].
Qed.
Lemma read_position i m : producer_ok sp H i (PStamp m (enqueue_pos (queue s))).
Proof. exists T, (closed sp). split; [lia|]. split; [apply (iv_enqueue _ _ _ Hi)|done]. Qed.
Lemma not_pending_ne i j m : pending_pc (pc (producers s) i) = false → (j, m, false) ∈ items sp → i ≠ j.
Proof.
  intros Hp [x Hx]%list_elem_of_lookup ->. destruct (iv_pending _ _ _ Hi x j m Hx) as [E|E]; by rewrite E in Hp.
Qed.
Lemma reserve_inv i m : pending_pc (pc (producers s) i) = false → closed sp = false → (occupied sp < cap)%nat →
  inv (mkState (set_enqueue_pos (pos (S T)) (queue s)) (<[i := PWrite m (T `mod` cap)%nat (pos T)]> (producers s)) (cons s))
    (mkSpec (items sp ++ [(i, m, false)]) (borrowed sp) false) H.
Proof.
  intros Hp Hc Ho. destruct Hi as [I1 I2 I3 I4 I5 I6 I7 I8 I9]. pose proof (λ j m, not_pending_ne i j m Hp) as Hne.
  split; unfold occupied; cbn; rewrite ?length_app; cbn [length].
  - exact I1.
  - rewrite Nat.add_1_r, Nat.add_succ_r, Z.add_0_r. done.
  - done.
  - done.
  - unfold occupied in Ho. lia.
  - intros n Hn. rewrite I6 by exact Hn. f_equal. unfold slot_ok. destruct (Nat.ltb_spec n H); [done|].
    destruct (lt_eq_lt_dec (n - H) (length (items sp))) as [[Hlt|Heq]|Hgt].
    + rewrite lookup_app_l by done. destruct (items sp !! (n - H)%nat) as [[[j m'] [|]]|] eqn:El; try done.
      rewrite pc_insert, decide_False; [done|]. eapply Hne. by eapply list_elem_of_lookup_2.
    + rewrite (lookup_ge_None_2 (items sp)) by lia. rewrite Heq, list_lookup_middle by done.
      by rewrite pc_insert, decide_True.
    + rewrite !lookup_ge_None_2 by (rewrite ?length_app; cbn; lia). done.
  - intros j. rewrite pc_insert. case_decide as E.
    + subst j. exists T. cbn [items]. rewrite list_lookup_middle by lia. split_and!; [done|lia|done..].
    + specialize (I7 j). unfold producer_ok in *. destruct (pc (producers s) j); cbn; rewrite ?length_app; cbn [length]; try done.
      * destruct I7 as (n & c & ? & ? & ?). exists n, c. split; [lia|]. rewrite Hc in *. done.
      * destruct I7 as (n & ? & ? & ? & ?). exists n. split_and!; try done; lia.
      * destruct I7 as (n & ? & ? & ? & ?). exists n. split_and!; try done. by apply lookup_app_l_Some.
      * destruct I7 as (n & m' & ? & ? & ? & ?). exists n, m'. split_and!; try done. by apply lookup_app_l_Some.
  - intros x j m' [Hx|[Hlen Hx]]%lookup_app_Some.
    + rewrite pc_insert, decide_False; [by apply I8|]. eapply Hne. by eapply list_elem_of_lookup_2.
    + apply list_lookup_singleton_Some in Hx as [Hx [= <- <-]]. rewrite pc_insert, decide_True by done. left.
      by replace x with (length (items sp)) by lia.
  - destruct (cons s); cbn in *; try done. destruct I9 as (? & ? & j & m' & Hh). split_and!; try done. exists j, m'.
    by destruct (items sp).
Qed.
Lemma cas_good i b m x st : pc (producers s) i = PCas m x st → good (step (Producer i b) s).
Proof.
  intros E. pose proof (iv_producers _ _ _ Hi i) as Hp. rewrite E in Hp. destruct Hp as (n & Hn & -> & -> & Ho).
  pose proof (iv_shape _ _ _ Hi) as Hsh. cbn [step]. fold (pc (producers s) i). rewrite E. cbn [push_step].
  rewrite (next_pos_ok _ n Hsh) by (pose proof (pos_small (n + cap)); lia). ret_step.
  destruct Hsh as (Hl & Hr & Hm). destruct (_ && _) eqn:Eb; ret_step.
  - apply andb_true_iff in Eb as [Eb _]. apply Z.eqb_eq in Eb. rewrite (iv_enqueue _ _ _ Hi) in Eb.
    destruct (closed sp) eqn:Ec; [symmetry in Eb; by apply closed_ne in Eb|].
    rewrite Z.add_0_r in Eb. apply pos_inj in Eb as <-. rewrite Hr, pos_index, Nat2Z.id.
    eexists _, _, (mkSpec (items sp ++ [(i, m, false)]) (borrowed sp) false), H. split; [done|].
    split; [|split; [by apply reserve_inv; [rewrite E|..|apply Ho]|cbn; rewrite length_app; cbn; lia]].
    econstructor; [|constructor]. destruct sp as [l bo c]; cbn in *. subst c. apply spec_reserve. by apply Ho.
  - apply good_local; [by rewrite E|done|apply read_position|constructor].
Qed.
(** The pending push of a producer is its only one. *)
Lemma pending_unique i m m' j j' : items sp !! j = Some (i, m, false) → items sp !! j' = Some (i, m', false) → j = j'.
Proof.
  intros Hj Hj'. destruct (iv_pending _ _ _ Hi j i m Hj) as [E|E], (iv_pending _ _ _ Hi j' i m' Hj') as [E'|E'];
    rewrite E in E'; try done; injection E'; intros; assert (H + j = H + j')%nat as Hjj by (by apply pos_inj); lia.
Qed.
Lemma item_window j e : items sp !! j = Some e → (base sp H ≤ H + j < base sp H + cap)%nat.
Proof.
  intros Hj%lookup_lt_Some. destruct occupied_base as [Ho Hbase]. pose proof (iv_room _ _ _ Hi). lia.
Qed.
(** Looking up the slot of [n'] after the slot of [n] was written. *)
Lemma lookup_set_slot n sl n' : (base sp H ≤ n < base sp H + cap)%nat → (base sp H ≤ n' < base sp H + cap)%nat →
  buffer (set_slot (n `mod` cap)%nat sl (queue s)) !! (n' `mod` cap)%nat =
  if decide (n = n') then Some sl else buffer (queue s) !! (n' `mod` cap)%nat.
Proof.
  intros Hn Hn'. cbn. case_decide as E.
  - subst n'. apply list_lookup_insert_eq. destruct (iv_shape _ _ _ Hi) as [-> _].
    pose proof (Nat.mod_upper_bound n cap). lia.
  - apply list_lookup_insert_ne. intros Em. apply E. by eapply window_inj.
Qed.
Lemma shaped_set_slot x sl q : shaped q → shaped (set_slot x sl q).
Proof. intros (? & ? & ?). split_and!; try done. cbn. by rewrite length_insert. Qed.

Lemma write_inv i m j : items sp !! j = Some (i, m, false) → pc (producers s) i = PWrite m ((H + j) `mod` cap)%nat (pos (H + j)) →
  inv (mkState (set_slot ((H + j) `mod` cap)%nat (mkSlot (pos (H + j)) (Populated m)) (queue s))
        (<[i := PStore ((H + j) `mod` cap)%nat (pos (H + j))]> (producers s)) (cons s)) sp H.
Proof.
  intros Hj Hp. pose proof Hi as [I1 I2 I3 I4 I5 I6 I7 I8 I9]. pose proof (item_window _ _ Hj) as Hw.
  split; cbn [queue producers cons]; try done.
  - by apply shaped_set_slot.
  - intros n Hn. rewrite lookup_set_slot by done. case_decide as E.
    + subst n. f_equal. unfold slot_ok. rewrite (proj2 (Nat.ltb_ge _ _)) by lia.
      replace (H + j - H)%nat with j by lia. rewrite Hj, pc_insert, decide_True by done. done.
    + rewrite I6 by done. f_equal. unfold slot_ok. destruct (Nat.ltb_spec n H); [done|].
      destruct (items sp !! (n - H)%nat) as [[[i' m'] [|]]|] eqn:El; try done. rewrite pc_insert. case_decide; [|done].
      subst i'. pose proof (pending_unique _ _ _ _ _ Hj El). lia.
  - intros i'. rewrite pc_insert. case_decide; [|done]. subst i'. exists (H + j)%nat, m.
    replace (H + j - H)%nat with j by lia. split_and!; try done. lia.
  - intros j' i' m' Hj'. rewrite pc_insert. case_decide; [|by apply I8]. subst i'.
    rewrite (pending_unique _ _ _ _ _ Hj' Hj). by right.
Qed.
Lemma write_good i b m x st : pc (producers s) i = PWrite m x st → good (step (Producer i b) s).
Proof.
  intros E. pose proof (iv_producers _ _ _ Hi i) as Hp. rewrite E in Hp. destruct Hp as (n & Hj & Hn & -> & ->).
  pose proof (item_window _ _ Hj) as Hw. replace (H + (n - H))%nat with n in Hw by lia.
  cbn [step]. fold (pc (producers s) i). rewrite E. cbn [push_step]. rewrite slot_at_ok by done. ret_step.
  assert (slot_ok (producers s) (cons s) (items sp) H n = mkSlot (pos n) Vacated) as ->.
  { unfold slot_ok. by rewrite (proj2 (Nat.ltb_ge _ _)), Hj, E. }
  cbn. eexists _, _, sp, H. split; [done|]. split; [constructor|]. split; [|lia].
  pose proof (write_inv i m (n - H) Hj) as Hinv. replace (H + (n - H))%nat with n in Hinv by lia. by apply Hinv.
Qed.

Lemma store_inv i m j : items sp !! j = Some (i, m, false) → pc (producers s) i = PStore ((H + j) `mod` cap)%nat (pos (H + j)) →
  inv (mkState (set_slot ((H + j) `mod` cap)%nat (mkSlot (pos (H + j) + 1) (Populated m)) (queue s))
        (<[i := PIdle]> (producers s)) (cons s)) (mkSpec (<[j := (i, m, true)]> (items sp)) (borrowed sp) (closed sp)) H.
Proof.
  intros Hj Hp. pose proof Hi as [I1 I2 I3 I4 I5 I6 I7 I8 I9]. pose proof (item_window _ _ Hj) as Hw.
  assert (j < length (items sp))%nat as Hlt by by eapply lookup_lt_Some.
  split; unfold occupied; cbn [queue producers cons items borrowed closed]; rewrite ?length_insert; try done.
  - by apply shaped_set_slot.
  - intros n Hn. change (base (mkSpec _ _ _) H) with (base sp H) in Hn. rewrite lookup_set_slot by done. case_decide as E.
    + subst n. f_equal. unfold slot_ok. rewrite (proj2 (Nat.ltb_ge _ _)) by lia.
      replace (H + j - H)%nat with j by lia. by rewrite list_lookup_insert_eq.
    + rewrite I6 by done. f_equal. unfold slot_ok. destruct (Nat.ltb_spec n H); [done|].
      rewrite list_lookup_insert_ne by lia.
      destruct (items sp !! (n - H)%nat) as [[[i' m'] [|]]|] eqn:El; try done. rewrite pc_insert. case_decide; [|done].
      subst i'. pose proof (pending_unique _ _ _ _ _ Hj El). lia.
  - intros i'. rewrite pc_insert. case_decide; [done|]. specialize (I7 i').
    unfold producer_ok, occupied in *. cbn [items borrowed closed]. rewrite length_insert.
    destruct (pc (producers s) i'); try done.
    + destruct I7 as (n & ? & ? & ? & ?). exists n. rewrite list_lookup_insert_ne by congruence. by split_and!.
    + destruct I7 as (n & m' & ? & ? & ? & ?). exists n, m'. rewrite list_lookup_insert_ne by congruence. by split_and!.
  - intros j' i' m' Hj'. apply list_lookup_insert_Some in Hj' as [(_ & ? & _)|[Hne Hj']]; [done|].
    rewrite pc_insert. case_decide; [|by apply I8]. subst i'. by destruct Hne, (pending_unique _ _ _ _ _ Hj Hj').
  - unfold consumer_ok in *. destruct (cons s); try done. destruct I9 as (? & ? & i' & m' & Hh). split_and!; try done.
    cbn [items]. destruct j; [|exists i', m'; by destruct (items sp)]. exists i, m. by destruct (items sp).
Qed.
Lemma store_good i b x st : pc (producers s) i = PStore x st → good (step (Producer i b) s).
Proof.
  intros E. pose proof (iv_producers _ _ _ Hi i) as Hp. rewrite E in Hp. destruct Hp as (n & m & Hj & Hn & -> & ->).
  pose proof (item_window _ _ Hj) as Hw. replace (H + (n - H))%nat with n in Hw by lia.
  cbn [step]. fold (pc (producers s) i). rewrite E. cbn [push_step]. rewrite slot_at_ok by done. ret_step.
  assert (slot_ok (producers s) (cons s) (items sp) H n = mkSlot (pos n) (Populated m)) as ->.
  { unfold slot_ok. by rewrite (proj2 (Nat.ltb_ge _ _)), Hj, E. }
  cbn [message]. destruct occupied_base as [Ho Hbase]. pose proof (iv_room _ _ _ Hi).
  rewrite wrap_id by (pose proof (pos_small n); lia).
  pose proof (store_inv i m (n - H) Hj) as Hinv. replace (H + (n - H))%nat with n in Hinv by lia.
  eexists _, _, _, H. split; [done|]. split; [|split; [by apply Hinv|cbn; rewrite length_insert; lia]].
  econstructor; [|constructor]. rewrite insert_take_drop by by eapply lookup_lt_Some.
  destruct sp as [l bo c]. cbn in *. rewrite <-(take_drop_middle l _ _ Hj) at 1. apply spec_commit.
Qed.
Lemma producer_good i b : good (step (Producer i b) s).
Proof.
  destruct (pc (producers s) i) eqn:E; [| |by eapply stamp_good|by eapply cas_good|by eapply write_good|by eapply store_good];
    cbn [step]; fold (pc (producers s) i); rewrite E; cbn [push_step mbind outcome_bind].
  - apply good_local; [by rewrite E|done..|constructor].
  - apply good_local; [by rewrite E|done|apply read_position|constructor].
Qed.
Lemma push_good i m : good (step (Push i m) s).
Proof.
  cbn [step]. fold (pc (producers s) i). destruct (pc (producers s) i) eqn:E; 
    [apply good_local; [by rewrite E|done..|constructor]|..]; eexists s, [], sp, H; split_and!; try done; try constructor; lia.
Qed.
Lemma close_good : good (step Close s).
Proof.
  pose proof Hi as [I1 I2 I3 I4 I5 I6 I7 I8 I9]. pose proof I1 as (_ & _ & Hm). cbn [step].
  eexists _, _, (mkSpec (items sp) (borrowed sp) true), H. split; [done|].
  split; [apply (spec_cons _ _ _ (mkSpec (items sp) (borrowed sp) true)); [destruct sp; apply spec_close|constructor]|]. split; [|cbn; lia].
  split; cbn; try done.
  - rewrite I2, Hm. destruct (closed sp); [apply closed_again|]. rewrite Z.add_0_r. apply pos_closed.
  - intros i. specialize (I7 i). unfold producer_ok in *. cbn. destruct (pc (producers s) i); try done.
    destruct I7 as (n & c & ? & ? & ?). exists n, c. by split_and!.
Qed.

(** *** The consumer *)
Lemma slot_oldest : borrowed sp = false → slot_at (H `mod` cap)%nat (queue s) = Ret (slot_ok (producers s) (cons s) (items sp) H H).
Proof. intros E. apply slot_at_ok. unfold base. rewrite E. lia. Qed.
(** The stamp of the oldest position tells whether its message is written. *)
Lemma oldest_written : stamp (slot_ok (producers s) (cons s) (items sp) H H) =
  match head (items sp) with Some (_, _, true) => pos H + 1 | _ => pos H end.
Proof. unfold slot_ok. rewrite Nat.ltb_irrefl, Nat.sub_diag. by destruct (items sp) as [|[[? ?] [|]] ?]. Qed.
(** Only the consumer and its position change, and it holds no message. *)
Lemma consumer_only d c : borrowed sp = false → holds c = false → d = pos (H + taking c) → consumer_ok sp H c →
  inv (mkState (set_dequeue_pos d (queue s)) (producers s) c) sp H.
Proof.
  intros Hc Hh -> Hok. pose proof Hi as [I1 I2 I3 I4 I5 I6 I7 I8 I9]. split; cbn; try done.
  - by rewrite Hc, Hh.
  - intros n Hn. rewrite I6 by done. unfold base in Hn. rewrite Hc in Hn.
    unfold slot_ok. rewrite (proj2 (Nat.ltb_ge n H)) by lia. done.
Qed.
Lemma set_dequeue_same q : set_dequeue_pos (dequeue_pos q) q = q.
Proof. by destruct q. Qed.
Lemma idle_good : cons s = CIdle → good (step Consumer s).
Proof.
  intros E. pose proof (iv_borrowed _ _ _ Hi) as Hbo. rewrite E in Hbo. cbn in Hbo.
  pose proof (iv_dequeue _ _ _ Hi) as Hd. rewrite E in Hd. cbn [taking] in Hd. rewrite Nat.add_0_r in Hd.
  pose proof (iv_shape _ _ _ Hi) as Hsh. pose proof Hsh as (_ & Hr & _).
  cbn [step]. rewrite E. cbn [pop_step]. rewrite Hd, Hr, pos_index, Nat2Z.id, slot_oldest by done.
  ret_step. rewrite oldest_written.
  assert ((∃ i m, head (items sp) = Some (i, m, true)) ∨
    (∀ i m, head (items sp) ≠ Some (i, m, true)) ∧ match head (items sp) with Some (_, _, true) => pos H + 1 | _ => pos H end = pos H)
    as [(i & m & Eh)|[Eh ->]].
  { destruct (head (items sp)) as [[[i m] [|]]|]; [left; by exists i, m|by right..]. }
  - rewrite Eh, (proj2 (Z.eqb_neq _ _)), Z.eqb_refl by lia. cbn [negb].
    rewrite (next_pos_ok _ H Hsh) by (pose proof (pos_small (H + cap)); lia). ret_step.
    eexists _, [], sp, H. split; [done|]. split; [constructor|]. split; [|lia].
    apply consumer_only; [done..|by rewrite Nat.add_1_r|]. split_and!; try done. by exists i, m.
  - rewrite Z.eqb_refl. eexists _, _, sp, H. split; [done|].
    split; [econstructor; [by apply spec_miss|constructor]|]. split; [|lia].
    rewrite <-(set_dequeue_same (queue s)). apply consumer_only; [done..|by rewrite Hd; cbn; rewrite Nat.add_0_r|done].
Qed.
Lemma missed_good x : cons s = CMissed x → good (step Consumer s).
Proof.
  intros E. pose proof (iv_borrowed _ _ _ Hi) as Hbo. rewrite E in Hbo. cbn in Hbo.
  pose proof (iv_dequeue _ _ _ Hi) as Hd. rewrite E in Hd. cbn [taking] in Hd.
  pose proof (iv_consumer _ _ _ Hi) as Hc. rewrite E in Hc. cbn in Hc. subst x.
  pose proof (iv_shape _ _ _ Hi) as (_ & _ & Hm). pose proof (iv_enqueue _ _ _ Hi) as He.
  cbn [step]. rewrite E. cbn [pop_step mbind outcome_bind]. rewrite Hm, pos_closed. eexists _, _, sp, H. split; [done|].
  split; [econstructor; [|constructor]|split; [rewrite <-(set_dequeue_same (queue s)); by apply consumer_only|lia]].
  destruct (Z.eqb_spec (enqueue_pos (queue s)) (pos H + 2 ^ Z.of_nat k)) as [Eq|Ne].
  2: { apply spec_empty. destruct (closed sp) eqn:Ec; [|by right]. left. intros Hn. apply Ne. rewrite He, Hn. cbn. by rewrite Nat.add_0_r. }
  rewrite He in Eq. destruct (closed sp) eqn:Ec.
  - apply spec_pop_closed; [|done]. apply length_zero_iff_nil. assert (pos T = pos H) as HT%pos_inj by lia. lia.
  - rewrite Z.add_0_r in Eq. by apply closed_ne in Eq.
Qed.
Lemma take_inv i m l : items sp = (i, m, true) :: l → cons s = CTake (H `mod` cap)%nat (pos H + 1) →
  inv (mkState (set_slot (H `mod` cap)%nat (mkSlot (pos H + 1) NoMessage) (queue s)) (producers s)
        (CBorrow m (H `mod` cap)%nat (pos (H + cap)))) (mkSpec l true (closed sp)) (S H).
Proof.
  intros El E. pose proof Hi as [I1 I2 I3 I4 I5 I6 I7 I8 I9]. rewrite E in *. cbn [holds taking] in *.
  assert (base sp H = H) as Hbase by (unfold base; rewrite I4; lia).
  assert (occupied (mkSpec l true (closed sp)) = occupied sp) as Hocc by (unfold occupied; rewrite I4, El; cbn; lia).
  assert (∀ n, (S H ≤ n)%nat → items sp !! (n - H)%nat = l !! (n - S H)%nat) as Hl.
  { intros n Hn. rewrite El. replace (n - H)%nat with (S (n - S H)) by lia. done. }
  split; cbn [queue producers cons items borrowed closed]; try done.
  - by apply shaped_set_slot.
  - cbn. rewrite I2, El. cbn. by rewrite Nat.add_succ_r.
  - cbn. by rewrite I3, Nat.add_1_r, Nat.add_0_r.
  - by rewrite Hocc.
  - intros n Hn. unfold base in Hn. cbn in Hn. rewrite lookup_set_slot by lia. case_decide as En.
    + subst n. unfold slot_ok. by rewrite (proj2 (Nat.ltb_lt _ _)) by lia.
    + rewrite I6 by lia. f_equal. unfold slot_ok. rewrite !(proj2 (Nat.ltb_ge n _)) by lia. rewrite Hl by lia. done.
  - intros i'. specialize (I7 i'). unfold producer_ok in *. rewrite Hocc. rewrite El in I7. cbn in *.
    rewrite <-Nat.add_succ_r. destruct (pc (producers s) i'); try done.
    + destruct I7 as (n & Hn & ? & ? & ?). destruct (decide (n = H)) as [->|]; [rewrite Nat.sub_diag in Hn; done|].
      exists n. rewrite <-Hl, El by lia. split_and!; try done. lia.
    + destruct I7 as (n & m' & Hn & ? & ? & ?). destruct (decide (n = H)) as [->|]; [rewrite Nat.sub_diag in Hn; done|].
      exists n, m'. rewrite <-Hl, El by lia. split_and!; try done. lia.
  - intros j i' m' Hj. replace (S H + j)%nat with (H + S j)%nat by lia. apply I8. by rewrite El.
  - cbn. split; [lia|]. by rewrite Nat.sub_0_r.
Qed.
Lemma take_good x st : cons s = CTake x st → good (step Consumer s).
Proof.
  intros E. pose proof (iv_borrowed _ _ _ Hi) as Hbo. rewrite E in Hbo. cbn in Hbo.
  pose proof (iv_consumer _ _ _ Hi) as Hc. rewrite E in Hc. destruct Hc as (-> & -> & i & m & Eh).
  assert (∃ l, items sp = (i, m, true) :: l) as [l El] by (clear -Eh; destruct (items sp) as [|? l]; [done|exists l; by injection Eh as ->]).
  pose proof (iv_shape _ _ _ Hi) as (_ & Hr & _).
  cbn [step]. rewrite E. cbn [pop_step]. rewrite slot_oldest, El by done. unfold slot_ok.
  rewrite Nat.ltb_irrefl, Nat.sub_diag. cbn [lookup list_lookup mbind outcome_bind message stamp].
  rewrite Hr, wrap_id by (pose proof (pos_small (H + cap)) as Hs; rewrite pos_add_cap in Hs; pose proof (pos_nonneg H); pose proof W_pos; lia).
  replace (pos H + 1 + (W - 1)) with (pos (H + cap)) by (rewrite pos_add_cap; lia).
  eexists _, _, _, (S H). split; [done|]. split; [|split; [by eapply take_inv|cbn; rewrite El; cbn; lia]].
  apply (spec_cons _ _ _ (mkSpec l true (closed sp))); [|constructor]. destruct sp as [l' b' c']. cbn in *. subst. apply spec_pop.
Qed.
Lemma held_slot x st : (∃ m, cons s = CBorrow m x st) ∨ cons s = CVacated x st → borrowed sp = true ∧ (1 ≤ H)%nat ∧ 
  x = ((H - 1) `mod` cap)%nat ∧ st = pos (H - 1 + cap) ∧
  slot_at x (queue s) = Ret (mkSlot (pos (H - 1) + 1) (match cons s with CBorrow _ _ _ => NoMessage | _ => Vacated end)).
Proof.
  intros E. pose proof (iv_borrowed _ _ _ Hi) as Hbo. pose proof (iv_consumer _ _ _ Hi) as Hc.
  assert (borrowed sp = true) as Hb' by (destruct E as [[m E]|E]; by rewrite E in Hbo).
  assert ((1 ≤ H)%nat ∧ x = ((H - 1) `mod` cap)%nat ∧ st = pos (H - 1 + cap)) as (? & -> & ->)
    by (destruct E as [[m E]|E]; by rewrite E in Hc).
  split_and!; try done. rewrite slot_at_ok by (unfold base; rewrite Hb'; lia). unfold slot_ok.
  by rewrite (proj2 (Nat.ltb_lt _ _)) by lia.
Qed.
Lemma borrow_good m x st : cons s = CBorrow m x st → good (step Consumer s).
Proof.
  intros E. destruct (held_slot x st (or_introl (ex_intro _ m E))) as (Hbo & HH & -> & -> & Esl).
  pose proof Hi as [I1 I2 I3 I4 I5 I6 I7 I8 I9].
  cbn [step]. rewrite E in *. cbn [pop_step]. rewrite Esl. cbn. eexists _, _, sp, H. split; [done|]. split; [constructor|]. split; [|lia].
  split; cbn [queue producers cons]; try done.
  - by apply shaped_set_slot.
  - intros n Hn. rewrite lookup_set_slot by (unfold base in *; rewrite Hbo in *; lia). case_decide as En.
    + subst n. unfold slot_ok. by rewrite (proj2 (Nat.ltb_lt _ _)) by lia.
    + rewrite I6 by done. f_equal. unfold slot_ok, base in *. rewrite Hbo in *. by rewrite (proj2 (Nat.ltb_ge n _)) by lia.
Qed.
Lemma release_inv : borrowed sp = true → (1 ≤ H)%nat → (∀ m x st, cons s ≠ CBorrow m x st) →
  inv (mkState (set_slot ((H - 1) `mod` cap)%nat (mkSlot (pos (H - 1 + cap)) Vacated) (queue s)) (producers s) CIdle)
    (mkSpec (items sp) false (closed sp)) H.
Proof.
  intros Hbo HH Hnb. pose proof Hi as [I1 I2 I3 I4 I5 I6 I7 I8 I9].
  assert (base sp H = H - 1)%nat as Hbase by (unfold base; by rewrite Hbo).
  assert (occupied sp = S (length (items sp))) as Hocc by (unfold occupied; rewrite Hbo; lia).
  split; unfold occupied; cbn [queue producers cons items borrowed closed]; try done.
  - by apply shaped_set_slot.
  - cbn. rewrite I3. f_equal. rewrite Hbo in I4. by destruct (cons s).
  - lia.
  - intros n Hn. change (base (mkSpec _ _ _) H) with (H - 0)%nat in Hn. rewrite Nat.sub_0_r in Hn.
    destruct (decide (n = (H - 1 + cap)%nat)) as [->|Hne].
    + pose proof (Nat.Div0.mod_add (H - 1) 1 cap) as Em. rewrite Nat.mul_1_l in Em. rewrite Em.
      rewrite lookup_set_slot, decide_True by (done || lia). f_equal. unfold slot_ok.
      rewrite (proj2 (Nat.ltb_ge _ _)) by lia. by rewrite lookup_ge_None_2 by lia.
    + rewrite lookup_set_slot, decide_False by lia. rewrite I6 by lia. f_equal. unfold slot_ok.
      by rewrite (proj2 (Nat.ltb_ge n _)) by lia.
  - intros i. specialize (I7 i). unfold producer_ok, occupied in *. cbn in *. destruct (pc (producers s) i); try done.
    destruct I7 as (n & ? & ? & ? & ?). exists n. split_and!; try done. lia.
Qed.
Lemma vacated_good x st : cons s = CVacated x st → good (step Consumer s).
Proof.
  intros E. destruct (held_slot x st (or_intror E)) as (Hbo & HH & -> & -> & Esl).
  cbn [step]. rewrite E in *. cbn [pop_step]. rewrite Esl. cbn.
  eexists _, _, _, H. split; [done|]. split; [|split; [apply release_inv; [done..|by rewrite E]|cbn; lia]].
  apply (spec_cons _ _ _ (mkSpec (items sp) false (closed sp))); [|constructor].
  destruct sp as [l b c]. cbn in Hbo. subst b. apply spec_release.
Qed.
Lemma consumer_good : good (step Consumer s).
Proof.
  destruct (cons s) eqn:E; [by apply idle_good|by eapply missed_good|by eapply take_good|by eapply borrow_good|by eapply vacated_good].
Qed.
Lemma step_good a : good (step a s).
Proof. destruct a; [apply push_good|apply producer_good|apply consumer_good|apply close_good]. Qed.
Lemma slots_apart : exclusive s.
Proof.
  pose proof Hi as [I1 I2 I3 I4 I5 I6 I7 I8 I9]. split.
  - intros i j x Hx Hj. pose proof (I7 i) as Pi. pose proof (I7 j) as Pj. unfold writes, producer_ok in *.
    change (default PIdle (producers s !! i)) with (pc (producers s) i) in Hx.
    change (default PIdle (producers s !! j)) with (pc (producers s) j) in Hj.
    destruct (pc (producers s) i) as [| | | |m' x' st'|], (pc (producers s) j) as [| | | |m'' x'' st''|]; try done.
    injection Hx as ->. injection Hj as ->. destruct Pi as (n & Hn & ? & Ex & _), Pj as (n' & Hn' & ? & Ex' & _).
    pose proof (item_window _ _ Hn). pose proof (item_window _ _ Hn').
    assert (n = n') as <-. { apply (window_inj (base sp H)); [lia..|congruence]. }
    rewrite Hn in Hn'. by injection Hn'.
  - intros i x Hx Hc. pose proof (I7 i) as Pi. unfold writes, producer_ok in *.
    change (default PIdle (producers s !! i)) with (pc (producers s) i) in Hx.
    destruct (pc (producers s) i) as [| | | |m' x' st'|]; try done. injection Hx as ->. destruct Pi as (n & Hn & ? & Ex & _).
    pose proof (item_window _ _ Hn) as Hw. unfold base in Hw. rewrite I4 in Hw. unfold consumer_ok in I9.
    destruct (cons s) as [|?|x'' ?|? x'' ?|? ?]; try done; injection Hc as ->; cbn in Hw.
    + destruct I9 as (Ex' & _ & i' & m'' & Hh). assert (n = H) as ->. { apply (window_inj H); [lia..|congruence]. }
      rewrite Nat.sub_diag in Hn. destruct (items sp); cbn in *; congruence.
    + destruct I9 as (? & Ex' & _). assert (n = H - 1)%nat; [|lia]. apply (window_inj (H - 1)); [lia..|congruence].
Qed.
End step.

(** ** Schedules *)
Lemma run_good sched : ∀ (s : State M) sp H, inv s sp H → pos (H + length (items sp) + length sched + cap) < 2 ^ 63 →
  ∃ s' es sp' H', run sched s = Ret (s', es) ∧ spec_run cap sp es sp' ∧ inv s' sp' H' ∧
    (H' + length (items sp') ≤ H + length (items sp) + length sched)%nat.
Proof.
  induction sched as [|a sched IH]; intros s sp H Hi Hb; cbn [run].
  - eexists s, [], sp, H. split; [done|]. split; [constructor|]. split; [done|lia].
  - assert (∀ n, (n ≤ H + length (items sp) + length (a :: sched) + cap)%nat → pos n < 2 ^ 63) as Hb'.
    { intros n Hn. destruct (decide (n = (H + length (items sp) + length (a :: sched) + cap)%nat)) as [->|]; [done|].
      pose proof (pos_mono n (H + length (items sp) + length (a :: sched) + cap)). lia. }
    cbn [length] in Hb'. destruct (step_good s sp H Hi) with (a := a) as (s1 & es1 & sp1 & H1 & E1 & R1 & I1 & L1); [apply Hb'; lia|].
    destruct (IH s1 sp1 H1 I1) as (s2 & es2 & sp2 & H2 & E2 & R2 & I2 & L2); [apply Hb'; lia|].
    exists s2, (es1 ++ es2), sp2, H2. rewrite E1. ret_step. rewrite E2. split; [done|].
    split; [by eapply spec_run_app|]. split; [done|]. cbn [length]. lia.
Qed.
Lemma init_inv buf : buf = (λ i, mkSlot (Z.of_nat i) Vacated) <$> seq 0 cap →
  inv (mkState (mkQueue 0 0 buf (W - 1) (2 ^ Z.of_nat k)) ∅ CIdle) spec_start 0.
Proof.
  intros ->. assert (pos 0 = 0) as E0 by (unfold pos; by rewrite Nat.Div0.div_0_l, Nat.Div0.mod_0_l).
  split; cbn; try done.
  - split_and!; try done. cbn. by rewrite length_fmap, length_seq.
  - by rewrite E0.
  - lia.
  - intros n Hn. rewrite Nat.mod_small by lia. rewrite list_lookup_fmap, lookup_seq_lt by lia. cbn. f_equal.
    unfold slot_ok. cbn. f_equal. unfold pos. rewrite Nat.div_small, Nat.mod_small by lia. lia.
Qed.
End queue.
End positions.

Section theorems.
Context {M : Type}.

Lemma start_inv cap : (1 ≤ cap)%nat → Z.of_nat cap ≤ 2 ^ 60 → ∃ k, Z.of_nat cap ≤ 2 ^ Z.of_nat k ≤ 2 * Z.of_nat cap ∧
  ∃ s, start (M := M) (Z.of_nat cap) = Ret s ∧ inv cap k s spec_start 0.
Proof.
  intros H1 H2. pose proof (Z.log2_up_nonneg (Z.of_nat cap)) as Hnn. exists (Z.to_nat (Z.log2_up (Z.of_nat cap))).
  rewrite Z2Nat.id by done.
  assert (Z.of_nat cap ≤ 2 ^ Z.log2_up (Z.of_nat cap) ≤ 2 * Z.of_nat cap) as Hk.
  { destruct (Z.eq_dec (Z.of_nat cap) 1) as [->|]; [cbn; lia|].
    pose proof (Z.log2_up_spec (Z.of_nat cap)) as Hs. pose proof (Z.log2_up_pos (Z.of_nat cap)).
    replace (Z.log2_up (Z.of_nat cap)) with (Z.succ (Z.pred (Z.log2_up (Z.of_nat cap)))) at 2 by lia. rewrite Z.pow_succ_r by lia. lia. }
  split; [done|]. unfold start, new.
  rewrite (proj2 (Z.leb_le 1 _)) by lia. rewrite (proj2 (Z.leb_le (Z.of_nat cap) _)) by lia. cbn [negb mbind outcome_bind].
  eexists. split; [done|]. unfold next_power_of_two. rewrite Z.shiftl_mul_pow2 by lia.
  rewrite (wrap_id 64 (_ * _)) by lia. rewrite wrap_id by lia. rewrite Nat2Z.id.
  pose proof (init_inv cap (Z.to_nat (Z.log2_up (Z.of_nat cap)))) as Hinit. rewrite Z2Nat.id in Hinit by done.
  rewrite Z.add_1_r, Z.pow_succ_r, Z.mul_comm in Hinit by done. by apply Hinit.
Qed.
Lemma schedule_good cap (sched : list (action M)) : (1 ≤ cap)%nat → Z.of_nat (length sched) + 2 * Z.of_nat cap ≤ 2 ^ 60 →
  ∃ k s0 s es sp H, Z.of_nat cap ≤ 2 ^ Z.of_nat k ∧ start (Z.of_nat cap) = Ret s0 ∧ run sched s0 = Ret (s, es) ∧
    spec_run cap spec_start es sp ∧ inv cap k s sp H ∧ pos cap k (H + length (items sp) + cap) < 2 ^ 63.
Proof.
  intros H1 H2. destruct (start_inv cap H1) as (k & Hk & s0 & E0 & I0); [lia|].
  destruct (run_good cap k) with (sched := sched) (s := s0) (sp := spec_start (M := M)) (H := 0%nat) as (s & es & sp & H & E & R & I & L);
    [lia..|done| |].
  - cbn [items spec_start length]. destruct (pos_bound cap k H1 (0 + 0 + length sched + cap)); lia.
  - exists k, s0, s, es, sp, H. cbn [items spec_start length] in L.
    split_and!; try done; [lia|]. destruct (pos_bound cap k H1 (H + length (items sp) + cap)); lia.
Qed.

(** C7: The mailbox queue is linearisable to a bounded FIFO queue.  Whatever the
    interleaving of any number of producers (with spurious failures of the weak
    compare-and-swap), the consumer and calls to [close], every step returns and the
    events are those of the abstract queue: a position is reserved only while the
    queue is open and has room, [push] fails with [Full] only when every slot is
    taken and with [Closed] only when it was closed, [pop] returns the oldest message
    once it is written, and [Closed] exactly when the queue is closed and nothing is queued.  The messages come
    out in the order of their reservation and at most [cap] are in the queue. *)
Theorem mpsc_refines_fifo cap (sched : list (action M)) :
  (1 ≤ cap)%nat → Z.of_nat (length sched) + 2 * Z.of_nat cap ≤ 2 ^ 60 →
  ∃ s0 s es sp, start (Z.of_nat cap) = Ret s0 ∧ run sched s0 = Ret (s, es) ∧ spec_run cap spec_start es sp ∧
    reserved es = popped es ++ messages sp ∧ (occupied sp ≤ cap)%nat.
Proof.
  intros H1 H2. destruct (schedule_good cap sched H1 H2) as (k & s0 & s & es & sp & H & Hk & E0 & E & R & I & Hb).
  exists s0, s, es, sp. split_and!; try done; [apply (spec_run_fifo _ _ _ _ R)|apply (iv_room _ _ _ _ _ I)].
Qed.
(** C18: The [unsafe] accesses to the messages are exclusive: after any schedule, two
    producers that are about to write a message write different slots, and neither is
    the slot whose message the consumer is about to take or give back. *)
Theorem slots_exclusive cap (sched : list (action M)) :
  (1 ≤ cap)%nat → Z.of_nat (length sched) + 2 * Z.of_nat cap ≤ 2 ^ 60 →
  ∃ s0 s es, start (Z.of_nat cap) = Ret s0 ∧ run sched s0 = Ret (s, es) ∧ exclusive s.
Proof.
  intros H1 H2. destruct (schedule_good cap sched H1 H2) as (k & s0 & s & es & sp & H & Hk & E0 & E & R & I & Hb).
  exists s0, s, es. split_and!; try done. by eapply slots_apart.
Qed.
End theorems.

Definition demo_schedule : list (action Z) :=
  [Push 0 7; Push 1 8; Producer 0 false; Producer 1 false; Producer 1 false; Producer 0 false; Producer 0 false;
   Producer 1 true; Producer 0 false; Producer 1 false; Producer 1 false] ++ [Consumer; Consumer].
Lemma mpsc_refines_fifo_witness : ∃ s0 s es sp, start (Z.of_nat 2) = Ret s0 ∧ run demo_schedule s0 = Ret (s, es) ∧
  spec_run 2 spec_start es sp ∧ reserved es = popped es ++ messages sp ∧ (occupied sp ≤ 2)%nat.
Proof. apply (mpsc_refines_fifo 2 demo_schedule); cbn; lia. Defined.
Lemma slots_exclusive_witness : ∃ s0 s es, start (Z.of_nat 2) = Ret s0 ∧ run demo_schedule s0 = Ret (s, es) ∧ exclusive s.
Proof. apply (slots_exclusive 2 demo_schedule); cbn; lia. Defined.
End MpscFacts.
