(* ===== verification/F64Ops.v ===== *)
(** * More of [f64], and checked [i64] arithmetic

    [f64::min], [max], [abs], the casts to integers (which saturate, NaN being 0) and
    the bits of a double; that comparison of doubles is a total order apart from NaN,
    by its agreement with the lexicographic order of a key. *)

From Stdlib Require Import SpecFloat.
From S2P Require Import Prelude F32 Airtime.

Module I64.
Definition MIN : Z := - 2 ^ 63.
Definition MAX : Z := 2 ^ 63 - 1.
Definition check (z : Z) : outcome Z := if (MIN <=? z) && (z <=? MAX) then Ret z else Panic.
Definition add (a b : Z) : outcome Z := check (a + b).
Definition sub (a b : Z) : outcome Z := check (a - b).
(** [z as i64] *)
Definition cast (z : Z) : Z := let w := wrap 64 z in if w <? 2 ^ 63 then w else w - 2 ^ 64.

Lemma check_Ret z : MIN ≤ z ≤ MAX → check z = Ret z.
Proof. intros [? ?]. unfold check. rewrite !(proj2 (Z.leb_le _ _)); done. Qed.
Lemma check_inv z r : check z = Ret r → r = z ∧ MIN ≤ z ≤ MAX.
Proof. unfold check. case_match eqn:E; [|done]. intros [= <-]. apply andb_true_iff in E as [? ?]. lia. Qed.
Lemma cast_id z : MIN ≤ z ≤ MAX → cast z = z.
Proof.
  unfold cast, wrap, MIN, MAX. intros Hz. destruct (Z.le_gt_cases 0 z).
  - rewrite Z.mod_small by lia. rewrite (proj2 (Z.ltb_lt _ _)); lia.
  - rewrite <-(Z.mod_unique z (2 ^ 64) (-1) (z + 2 ^ 64)) by lia. rewrite (proj2 (Z.ltb_ge _ _)); lia.
Qed.
Lemma cast_range z : MIN ≤ cast z ≤ MAX.
Proof.
  unfold cast, MIN, MAX. pose proof (wrap_range 64 z). destruct (Z.ltb_spec (wrap 64 z) (2 ^ 63)); lia.
Qed.
End I64.

(** Arithmetic and comparison of doubles, in infix notation. *)
Declare Scope f64_scope.
Delimit Scope f64_scope with f64.
Infix "⊕" := F64.add (at level 50, left associativity) : f64_scope.
Infix "⊖" := F64.sub (at level 50, left associativity) : f64_scope.
Infix "⊗" := F64.mul (at level 40, left associativity) : f64_scope.
Infix "⊘" := F64.div (at level 40, left associativity) : f64_scope.
Infix "≺" := F64.lt (at level 70, no associativity) : f64_scope.
Notation "x ≻ y" := (F64.lt y x) (at level 70, no associativity, only parsing) : f64_scope.

Module F64Ops.
Import F64.

Definition nan : f64 := S754_nan.
Definition neg_infinity : f64 := S754_infinity true.
Definition abs : f64 → f64 := SFabs.
Definition neg : f64 → f64 := SFopp.
Definition is_nan (x : f64) : bool := match x with S754_nan => true | _ => false end.
(** [f64::max] and [f64::min]: the other operand when one is NaN. *)
Definition max (x y : f64) : f64 := if is_nan x then y else if is_nan y then x else if lt x y then y else x.
Definition min (x y : f64) : f64 := if is_nan x then y else if is_nan y then x else if lt y x then y else x.
Definition ne (x y : f64) : bool := negb (eqb x y).

Definition clamp (lo hi z : Z) : Z := Z.max lo (Z.min hi z).
(** The integer below in absolute value, and the one below. *)
Definition trunc (s : bool) (m : positive) (e : Z) : Z :=
  cond_Zopp s (if 0 <=? e then Z.pos m * 2 ^ e else Z.pos m / 2 ^ (- e)).
Definition floor_Z (s : bool) (m : positive) (e : Z) : Z :=
  if 0 <=? e then cond_Zopp s (Z.pos m * 2 ^ e) else cond_Zopp s (Z.pos m) / 2 ^ (- e).
Definition cast_with (f : bool → positive → Z → Z) (lo hi : Z) (x : spec_float) : Z :=
  match x with
  | S754_zero _ | S754_nan => 0
  | S754_infinity s => if s then lo else hi
  | S754_finite s m e => clamp lo hi (f s m e)
  end.
(** [x as i64], [x.floor() as u32], and [x.round() as i64] of [F32]. *)
Definition as_i64 : spec_float → Z := cast_with trunc I64.MIN I64.MAX.
Definition floor_u32 : spec_float → Z := cast_with floor_Z 0 U32_MAX.
Definition round_i64 : spec_float → Z := F32.round_i64.
(** [x.ceil() as u32] *)
Definition ceil_u32 (x : spec_float) : Z := Z.min U32_MAX (F32.ceil_usize x).

(** The 64 bits of a double; a NaN has the bits of the default one. *)
Definition to_bits (x : f64) : Z :=
  let sgn (s : bool) := if s then 2 ^ 63 else 0 in
  match x with
  | S754_zero s => sgn s
  | S754_infinity s => sgn s + 2047 * 2 ^ 52
  | S754_nan => 2047 * 2 ^ 52 + 2 ^ 51
  | S754_finite s m e =>
      if Z.pos m <? 2 ^ 52 then sgn s + Z.pos m
      else sgn s + (e + 1075) * 2 ^ 52 + (Z.pos m - 2 ^ 52)
  end.
Definition of_bits (b : Z) : f64 :=
  let s := 1 <=? b / 2 ^ 63 in
  let e := (b / 2 ^ 52) `mod` 2048 in
  let m := b `mod` 2 ^ 52 in
  if e =? 2047 then (if m =? 0 then S754_infinity s else S754_nan)
  else if e =? 0 then match m with Z.pos p => S754_finite s p (-1074) | _ => S754_zero s end
  else S754_finite s (Z.to_pos (m + 2 ^ 52)) (e - 1075).
Definition valid (x : f64) : bool := SpecFloat.valid_binary 53 1024 x.

(** ** The order of doubles *)
Definition key (x : f64) : Z * (Z * Z) :=
  match x with
  | S754_zero _ | S754_nan => (0, (0, 0))
  | S754_infinity s => (if s then -2 else 2, (0, 0))
  | S754_finite s m e => if s then (-1, (- e, - Z.pos m)) else (1, (e, Z.pos m))
  end.
Lemma compare_key x y : is_nan x = false → is_nan y = false → SFcompare x y = Some (cmp (key x) (key y)).
Proof.
  destruct x as [[]|[]| |[] m e], y as [[]|[]| |[] m' e']; intros; try done; cbn; unfold lex_cmp; cbn; f_equal.
  rewrite (Z.compare_opp e e'), (Z.compare_antisym e e'), (Z.compare_opp (Z.pos m)), (Z.compare_antisym (Z.pos m) (Z.pos m')). by destruct (Z.compare e e').
Qed.
Lemma le_spec x y : le x y = true ↔ is_nan x = false ∧ is_nan y = false ∧ cmp (key x) (key y) ≠ Gt.
Proof.
  unfold le, SFleb. destruct (is_nan x) eqn:Ex; [by destruct x; naive_solver|].
  destruct (is_nan y) eqn:Ey; [by destruct x, y; naive_solver|].
  rewrite compare_key by done. destruct (cmp (key x) (key y)); naive_solver.
Qed.
Lemma lt_spec x y : lt x y = true ↔ is_nan x = false ∧ is_nan y = false ∧ cmp (key x) (key y) = Lt.
Proof.
  unfold lt, SFltb. destruct (is_nan x) eqn:Ex; [by destruct x; naive_solver|].
  destruct (is_nan y) eqn:Ey; [by destruct x, y; naive_solver|].
  rewrite compare_key by done. destruct (cmp (key x) (key y)); naive_solver.
Qed.
Lemma lt_false x y : is_nan x = false → is_nan y = false → lt x y = false → le y x = true.
Proof.
  intros Hx Hy Hlt. apply le_spec. split_and!; try done. rewrite (cmp_opp (key x)).
  intros E. assert (lt x y = true); [|congruence]. apply lt_spec. split_and!; try done. by destruct (cmp (key x) (key y)).
Qed.
Lemma lt_le x y : lt x y = true → le x y = true.
Proof. rewrite lt_spec, le_spec. intros (? & ? & E). by rewrite E. Qed.
Lemma le_refl x : is_nan x = false → le x x = true.
Proof. intros. apply le_spec. split_and!; try done. by rewrite cmp_refl. Qed.
Lemma le_trans x y z : le x y = true → le y z = true → le x z = true.
Proof. rewrite !le_spec. intros (? & ? & ?) (? & ? & ?). split_and!; try done. by eapply cmp_le_trans. Qed.
Lemma le_lt_trans x y z : le x y = true → lt y z = true → lt x z = true.
Proof.
  rewrite le_spec, !lt_spec. intros (Hx & Hy & E1) (_ & Hz & E2). split_and!; try done.
  destruct (cmp (key x) (key y)) eqn:E; [|by eapply cmp_trans|done]. apply cmp_eq in E. by rewrite E.
Qed.
Lemma le_nan x y : le x y = true → is_nan x = false ∧ is_nan y = false.
Proof. rewrite le_spec. tauto. Qed.
Lemma le_lt x y : le x y = true → lt y x = false.
Proof.
  rewrite le_spec. intros (? & ? & H). apply not_true_iff_false. rewrite lt_spec. intros (_ & _ & E).
  apply H. by rewrite <-cmp_Lt_Gt.
Qed.

(** [max] and [min] are bounds, whatever their other operand. *)
Lemma max_ge_r x y : is_nan y = false → le y (max x y) = true.
Proof.
  intros Hy. unfold max. destruct (is_nan x) eqn:Hx; [by apply le_refl|]. rewrite Hy.
  destruct (lt x y) eqn:E; [by apply le_refl|by apply lt_false].
Qed.
Lemma max_le x y b : is_nan y = false → (is_nan x = false → le x b = true) → le y b = true → le (max x y) b = true.
Proof.
  intros Hy Hx Hb. unfold max. rewrite Hy. destruct (is_nan x); [done|]. destruct (lt x y); auto.
Qed.
Lemma min_le_l x y : is_nan x = false → le (min x y) x = true.
Proof.
  intros Hx. unfold min. rewrite Hx. destruct (is_nan y) eqn:Hy; [by apply le_refl|].
  destruct (lt y x) eqn:E; [by apply lt_le|by apply le_refl].
Qed.
Lemma min_le_r x y : is_nan y = false → le (min x y) y = true.
Proof.
  intros Hy. unfold min. rewrite Hy. destruct (is_nan x) eqn:Hx; [by apply le_refl|].
  destruct (lt y x) eqn:E; [by apply le_refl|by apply lt_false].
Qed.
Lemma max_nan x y : is_nan y = false → is_nan (max x y) = false.
Proof. intros Hy. unfold max. rewrite Hy. by destruct (is_nan x) eqn:?, (lt x y). Qed.

(** The casts to integers are within the type. *)
Create HintDb float.
#[export] Hint Resolve le_refl lt_le max_ge_r min_le_l min_le_r max_nan : float.
#[export] Hint Extern 1 (le ?x ?z = true) => match goal with E : le x ?y = true |- _ => apply (le_trans x y z E) end : float.
Lemma clamp_range lo hi z : lo ≤ hi → lo ≤ clamp lo hi z ≤ hi.
Proof. unfold clamp. lia. Qed.
Lemma clamp_id lo hi z : lo ≤ z ≤ hi → clamp lo hi z = z.
Proof. unfold clamp. lia. Qed.
Lemma cast_with_range f lo hi x : lo ≤ 0 ≤ hi → lo ≤ cast_with f lo hi x ≤ hi.
Proof. intros. destruct x as [|[]| |]; cbn; try lia. apply clamp_range. lia. Qed.
Lemma round_i64_range x : I64.MIN ≤ round_i64 x ≤ I64.MAX.
Proof. unfold round_i64, F32.round_i64, I64.MIN, I64.MAX, F32.I64_MAX. destruct x as [|[]| |]; lia. Qed.

(** *** Bits *)
Lemma f64_valid_finite s m e : valid (S754_finite s m e) = true →
  -1074 ≤ e ≤ 971 ∧ Z.pos m < 2 ^ 53 ∧ (2 ^ 52 ≤ Z.pos m ∨ e = -1074).
Proof.
  unfold valid. cbn [valid_binary]. unfold bounded. rewrite andb_true_iff, Z.leb_le.
  unfold canonical_mantissa, fexp, emin. rewrite Z.eqb_eq.
  intros [Hc He]. pose proof (digits2_pos_bound m) as [Hl Hu].
  assert (Hd : Z.pos (digits2_pos m) ≤ 53) by lia.
  split; [lia|]. split.
  - eapply Z.lt_le_trans; [done|]. apply Z.pow_le_mono_r; lia.
  - destruct (decide (e = -1074)); [by right|left].
    assert (Z.pos (digits2_pos m) = 53) as Hdd by lia. by rewrite Hdd in Hl.
Qed.
Lemma f64_bits_range x : valid x = true → 0 ≤ to_bits x < 2 ^ 64.
Proof.
  destruct x as [[]|[]| |s m e]; intros Hv; try (simpl; lia).
  apply f64_valid_finite in Hv as (He & Hm & Hd). unfold to_bits.
  destruct (Z.ltb_spec (Z.pos m) (2 ^ 52)); destruct s; lia.
Qed.
(** A word made of a sign, an exponent and a mantissa. *)
Lemma word_fields (g ex mt : Z) : 0 ≤ g ≤ 1 → 0 ≤ ex < 2048 → 0 ≤ mt < 2 ^ 52 →
  let b := g * 2 ^ 63 + ex * 2 ^ 52 + mt in
  b / 2 ^ 63 = g ∧ (b / 2 ^ 52) `mod` 2048 = ex ∧ b `mod` 2 ^ 52 = mt.
Proof.
  intros Hg He Hm b. assert (b / 2 ^ 52 = g * 2048 + ex) as E by (symmetry; apply (Z.div_unique _ _ _ mt); unfold b; lia).
  split_and!.
  - symmetry. apply (Z.div_unique _ _ _ (ex * 2 ^ 52 + mt)); unfold b; lia.
  - rewrite E. symmetry. apply (Z.mod_unique _ _ g); lia.
  - symmetry. apply (Z.mod_unique _ _ (g * 2048 + ex)); unfold b; lia.
Qed.
Lemma f64_of_to_bits x : valid x = true → of_bits (to_bits x) = x.
Proof.
  destruct x as [[]|[]| |s m e]; intros Hv; [by vm_compute..|].
  apply f64_valid_finite in Hv as (He & Hm & Hd). unfold to_bits.
  set (g := if s then 1 else 0).
  assert ((if s then 2 ^ 63 else 0) = g * 2 ^ 63) as -> by (by destruct s).
  assert (0 ≤ g ≤ 1) as Hg by (by destruct s). assert ((1 <=? g) = s) as Hs by (by destruct s). clearbody g.
  destruct (Z.ltb_spec (Z.pos m) (2 ^ 52)) as [Hl|Hl].
  - destruct Hd as [?| ->]; [lia|]. destruct (word_fields g 0 (Z.pos m)) as (E1 & E2 & E3); [lia..|].
    rewrite Z.mul_0_l, Z.add_0_r in *. unfold of_bits. rewrite E1, E2, E3, Hs. done.
  - destruct (word_fields g (e + 1075) (Z.pos m - 2 ^ 52)) as (E1 & E2 & E3); [lia..|].
    unfold of_bits. rewrite E1, E2, E3, Hs.
    rewrite (proj2 (Z.eqb_neq (e + 1075) 2047)), (proj2 (Z.eqb_neq (e + 1075) 0)) by lia.
    replace (Z.pos m - 2 ^ 52 + 2 ^ 52) with (Z.pos m) by lia. cbn [Z.to_pos]. f_equal. lia.
Qed.
End F64Ops.
