(* ===== verification/Gcc.v ===== *)
(** * Google congestion control: [examples/lib/gcc_nada_estimator.rs]

    The delay-based bandwidth estimator of the video server: inter-arrival groups,
    the trendline detector of over-use, the link capacity estimate, the AIMD rate
    controller, the throughput estimator, and [GccBandwidthEstimator] that composes
    them.  Doubles are IEEE 754 doubles; [f64::powf], whose precision the standard
    library leaves open, is a parameter.  An [i64] or [usize] overflow is a panic.
    The calls that only print (under [DEBUG_GCC], which is off) are left out. *)

From Stdlib Require Import SpecFloat.
From S2P Require Import Prelude Scheduler F32 Airtime Edca F64Ops.

Module Gcc.
Import F64 F64Ops.
#[local] Open Scope f64_scope.

Definition GCC_WINDOW_SIZE : nat := 20.
Definition GCC_MIN_CONFIGURED_BITRATE : f64 := of_Z 10 ⊗ of_Z 1000 ⊗ of_Z 1000.
Definition MAX_MBPS_LADDER : f32 := F32.of_Z 100.
Definition GCC_MAX_CONFIGURED_BITRATE : f64 := of_f32 MAX_MBPS_LADDER ⊗ of_Z 1000 ⊗ of_Z 1000.
Definition GCC_INIT_CONFIGURED_BITRATE : f64 := GCC_MAX_CONFIGURED_BITRATE.
Definition GCC_INCREASE_COEF_ALPHA : f64 := lit 108 100.
Definition GCC_DECREASE_COEF_BETA : f64 := lit 85 100.
Definition GCC_DEFAULT_RTT : Z := 200.
Definition GCC_BITRATE_ESTIMATOR_INIT_WINDOW_MS : Z := 350.
Definition GCC_BITRATE_ESTIMATOR_NONINIT_WINDOW_MS : Z := 250.

(** ** Groups of packets *)
Record TimestampGroup := mkGroup {
  size : Z;
  first_timestamp : Z;
  timestamp : Z;
  first_arrival_ms : Z;
  complete_time_ms : Z;
  last_system_time_ms : Z
}.
Definition group_default : TimestampGroup := mkGroup 0 0 0 (-1) (-1) (-1).
Record InterArrival := mkInterArrival {
  kReorderedResetThreshold : Z;
  kArrivalTimeOffsetThresholdMs : Z;
  kTimestampGroupLengthTicks : Z;
  current_timestamp_group_ : TimestampGroup;
  prev_timestamp_group_ : TimestampGroup;
  timestamp_to_ms_coeff_ : f64;
  num_consecutive_reordered_packets_ : Z
}.
Definition interarrival_new (timestamp_group_length_ticks : Z) (timestamp_to_ms_coeff : f64) : InterArrival :=
  mkInterArrival 3 3000 timestamp_group_length_ticks group_default group_default timestamp_to_ms_coeff 0.
Definition set_groups (ia : InterArrival) (cur prev : TimestampGroup) (reordered : Z) : InterArrival :=
  mkInterArrival (kReorderedResetThreshold ia) (kArrivalTimeOffsetThresholdMs ia) (kTimestampGroupLengthTicks ia)
    cur prev (timestamp_to_ms_coeff_ ia) reordered.
Definition interarrival_Reset (ia : InterArrival) : InterArrival := set_groups ia group_default group_default 0.
Definition PacketInOrder (ia : InterArrival) (ts : Z) : outcome bool :=
  let cur := current_timestamp_group_ ia in
  if complete_time_ms cur =? -1 then Ret true
  else timestamp_diff ← I64.sub ts (first_timestamp cur); Ret (timestamp_diff <? 2147483648).
Definition BelongsToBurst (ia : InterArrival) (arrival_time_ms ts : Z) : bool := false.
Definition NewTimestampGroup (ia : InterArrival) (arrival_time_ms ts : Z) : outcome bool :=
  let cur := current_timestamp_group_ ia in
  if complete_time_ms cur =? -1 then Ret false
  else if BelongsToBurst ia arrival_time_ms ts then Ret false
  else timestamp_diff ← I64.sub ts (first_timestamp cur); Ret (kTimestampGroupLengthTicks ia <? timestamp_diff).

(** The three [&mut i64] results. *)
Record Deltas := mkDeltas { timestamp_delta : Z; arrival_time_delta_ms : Z; packet_size_delta : Z }.
(** The end of [ComputeDeltas]: the packet joins the current group. *)
Definition accumulate (ia : InterArrival) (cur prev : TimestampGroup) (reordered arrival_time_ms system_time_ms packet_size : Z)
    : outcome InterArrival :=
  if U64_MAX <? size cur + packet_size then Panic
  else Ret (set_groups ia
    (mkGroup (size cur + packet_size) (first_timestamp cur) (timestamp cur) (first_arrival_ms cur) arrival_time_ms system_time_ms)
    prev reordered).
Definition ComputeDeltas (ia : InterArrival) (ts arrival_ms system_time_ms packet_size : Z) (d : Deltas)
    : outcome (InterArrival * Deltas * bool) :=
  let cur := current_timestamp_group_ ia in
  let prev := prev_timestamp_group_ ia in
  let reordered := num_consecutive_reordered_packets_ ia in
  let fresh := mkGroup 0 ts ts arrival_ms (complete_time_ms cur) (last_system_time_ms cur) in
  if complete_time_ms cur =? -1 then
    ia ← accumulate ia (mkGroup (size cur) ts ts arrival_ms (complete_time_ms cur) (last_system_time_ms cur)) prev reordered
           arrival_ms system_time_ms packet_size;
    Ret (ia, d, false)
  else
    in_order ← PacketInOrder ia ts;
    if negb in_order then Ret (ia, d, false)
    else
      new_group ← NewTimestampGroup ia arrival_ms ts;
      if new_group : bool then
        if 0 <=? complete_time_ms prev then
          td ← I64.sub (timestamp cur) (timestamp prev);
          ad ← I64.sub (complete_time_ms cur) (complete_time_ms prev);
          let d := mkDeltas td ad (packet_size_delta d) in
          system_time_delta_ms ← I64.sub (last_system_time_ms cur) (last_system_time_ms prev);
          jump ← I64.sub ad system_time_delta_ms;
          if kArrivalTimeOffsetThresholdMs ia <=? jump then Ret (interarrival_Reset ia, d, false)
          else if ad <? 0 then
            reordered ← I64.add reordered 1;
            Ret (if kReorderedResetThreshold ia <=? reordered then interarrival_Reset ia else set_groups ia cur prev reordered,
                 d, false)
          else
            sd ← I64.sub (I64.cast (size cur)) (I64.cast (size prev));
            ia ← accumulate ia fresh cur 0 arrival_ms system_time_ms packet_size;
            Ret (ia, mkDeltas td ad sd, true)
        else
          ia ← accumulate ia fresh cur reordered arrival_ms system_time_ms packet_size;
          Ret (ia, d, false)
      else
        ia ← accumulate ia (mkGroup (size cur) (first_timestamp cur) (Z.max (timestamp cur) ts) (first_arrival_ms cur)
               (complete_time_ms cur) (last_system_time_ms cur)) prev reordered arrival_ms system_time_ms packet_size;
        Ret (ia, d, false).

(** ** The trendline detector *)
Inductive BandwidthUsage := kBwNormal | kBwUnderusing | kBwOverusing | kLast.
#[export] Instance BandwidthUsage_eq_dec : EqDecision BandwidthUsage.
Proof. solve_decision. Defined.
Record PacketTiming := mkTiming { arrival_time_ms : f64; smoothed_delay_ms : f64; raw_delay_ms : f64 }.

(** Least squares: the slope of the smoothed delay over the arrival times. *)
Definition sum_f64 (l : list f64) : f64 := foldl add zero l.
Definition LinearFitSlope (packets : list PacketTiming) : option f64 :=
  if (2 <? length packets)%nat then
    let n := of_Z (Z.of_nat (length packets)) in
    let x_avg := sum_f64 (arrival_time_ms <$> packets) ⊘ n in
    let y_avg := sum_f64 (smoothed_delay_ms <$> packets) ⊘ n in
    let numerator := sum_f64 ((λ p, (arrival_time_ms p ⊖ x_avg) ⊗ (smoothed_delay_ms p ⊖ y_avg)) <$> packets) in
    let denominator := sum_f64 ((λ p, (arrival_time_ms p ⊖ x_avg) ⊗ (arrival_time_ms p ⊖ x_avg)) <$> packets) in
    if eqb denominator zero then None else Some (numerator ⊘ denominator)
  else None.

Record TrendlineEstimator := mkTrendline {
  smoothing_coef_ : f64;
  threshold_gain_ : f64;
  num_of_deltas_ : Z;
  first_arrival_time_ms_ : Z;
  accumulated_delay_ : f64;
  smoothed_delay_ : f64;
  k_up_ : f64;
  k_down_ : f64;
  overusing_time_threshold_ : f64;
  threshold_ : f64;
  prev_modified_trend_ : f64;
  last_update_ms_ : Z;
  prev_trend_ : f64;
  time_over_using_ : f64;
  overuse_counter_ : Z;
  hypothesis_ : BandwidthUsage;
  hypothesis_predicted_ : BandwidthUsage;
  delay_hist_ : list PacketTiming;
  current_trend_for_testing : f64;
  current_threshold_for_testing : f64
}.
Implicit Types tl : TrendlineEstimator.
Definition trendline_new : TrendlineEstimator :=
  mkTrendline (lit 9 10) (of_Z 4) 0 (-1) zero zero (lit 87 10000) (lit 39 1000) (of_Z 10) (lit 125 10) nan (-1) zero
    (neg (of_Z 1)) 0 kBwNormal kBwNormal [] zero zero.
(** The fields that [UpdateThreshold], [Detect] and [UpdateTrendline] assign. *)
Definition set_threshold (threshold : f64) (last_update_ms : Z) tl : TrendlineEstimator :=
  mkTrendline (smoothing_coef_ tl) (threshold_gain_ tl) (num_of_deltas_ tl) (first_arrival_time_ms_ tl) (accumulated_delay_ tl)
    (smoothed_delay_ tl) (k_up_ tl) (k_down_ tl) (overusing_time_threshold_ tl) threshold (prev_modified_trend_ tl)
    last_update_ms (prev_trend_ tl) (time_over_using_ tl) (overuse_counter_ tl) (hypothesis_ tl) (hypothesis_predicted_ tl)
    (delay_hist_ tl) (current_trend_for_testing tl) (current_threshold_for_testing tl).
Definition set_hypothesis (h : BandwidthUsage) (time_over_using : f64) (counter : Z) tl : TrendlineEstimator :=
  mkTrendline (smoothing_coef_ tl) (threshold_gain_ tl) (num_of_deltas_ tl) (first_arrival_time_ms_ tl) (accumulated_delay_ tl)
    (smoothed_delay_ tl) (k_up_ tl) (k_down_ tl) (overusing_time_threshold_ tl) (threshold_ tl) (prev_modified_trend_ tl)
    (last_update_ms_ tl) (prev_trend_ tl) time_over_using counter h (hypothesis_predicted_ tl)
    (delay_hist_ tl) (current_trend_for_testing tl) (current_threshold_for_testing tl).
Definition set_trend (modified_trend trend : f64) tl : TrendlineEstimator :=
  mkTrendline (smoothing_coef_ tl) (threshold_gain_ tl) (num_of_deltas_ tl) (first_arrival_time_ms_ tl) (accumulated_delay_ tl)
    (smoothed_delay_ tl) (k_up_ tl) (k_down_ tl) (overusing_time_threshold_ tl) (threshold_ tl) modified_trend
    (last_update_ms_ tl) trend (time_over_using_ tl) (overuse_counter_ tl) (hypothesis_ tl) (hypothesis_predicted_ tl)
    (delay_hist_ tl) modified_trend (threshold_ tl).
Definition set_history (deltas first_arrival : Z) (accumulated smoothed : f64) (hist : list PacketTiming) tl : TrendlineEstimator :=
  mkTrendline (smoothing_coef_ tl) (threshold_gain_ tl) deltas first_arrival accumulated
    smoothed (k_up_ tl) (k_down_ tl) (overusing_time_threshold_ tl) (threshold_ tl) (prev_modified_trend_ tl)
    (last_update_ms_ tl) (prev_trend_ tl) (time_over_using_ tl) (overuse_counter_ tl) (hypothesis_ tl) (hypothesis_predicted_ tl)
    hist (current_trend_for_testing tl) (current_threshold_for_testing tl).

Definition UpdateThreshold (modified_trend : f64) (now_ms : Z) tl : outcome TrendlineEstimator :=
  let last_update_ms := if last_update_ms_ tl =? -1 then now_ms else last_update_ms_ tl in
  if abs modified_trend ≻ threshold_ tl ⊕ of_Z 15 then Ret (set_threshold (threshold_ tl) now_ms tl)
  else
    let k := if abs modified_trend ≺ threshold_ tl then k_down_ tl else k_up_ tl in
    dt ← I64.sub now_ms last_update_ms;
    let time_delta_ms := Z.min dt 100 in
    let th := threshold_ tl ⊕ k ⊗ (abs modified_trend ⊖ threshold_ tl) ⊗ of_Z time_delta_ms in
    let th := if th ≻ of_Z 600 then of_Z 600 else if th ≺ of_Z 6 then of_Z 6 else th in
    Ret (set_threshold th now_ms tl).

(** The over-use timer and the new hypothesis of [Detect]. *)
Definition detect_hypothesis (modified_trend trend ts_delta : f64) tl : outcome TrendlineEstimator :=
  if modified_trend ≻ threshold_ tl then
    let t := if eqb (time_over_using_ tl) (neg (of_Z 1)) then ts_delta ⊘ of_Z 2 else time_over_using_ tl ⊕ ts_delta in
    c ← I64.add (overuse_counter_ tl) 1;
    Ret (if (t ≻ overusing_time_threshold_ tl) && (1 <? c) && le (prev_trend_ tl) trend
         then set_hypothesis kBwOverusing zero 0 tl
         else set_hypothesis (hypothesis_ tl) t c tl)
  else if modified_trend ≺ neg (threshold_ tl) then Ret (set_hypothesis kBwUnderusing (neg (of_Z 1)) 0 tl)
  else Ret (set_hypothesis kBwNormal (neg (of_Z 1)) 0 tl).
Definition Detect (trend ts_delta : f64) (now_ms : Z) tl : outcome TrendlineEstimator :=
  if num_of_deltas_ tl <? 2 then Ret (set_hypothesis kBwNormal (time_over_using_ tl) (overuse_counter_ tl) tl)
  else
    let modified_trend := of_Z (Z.min (num_of_deltas_ tl) 60) ⊗ trend ⊗ threshold_gain_ tl in
    tl ← detect_hypothesis modified_trend trend ts_delta tl;
    UpdateThreshold modified_trend now_ms (set_trend modified_trend trend tl).
Definition UpdateTrendline (recv_delta_ms send_delta_ms : f64) (send_time_ms arrival_ms packet_size : Z) tl
    : outcome TrendlineEstimator :=
  let delta_ms := recv_delta_ms ⊖ send_delta_ms in
  n ← I64.add (num_of_deltas_ tl) 1;
  let n := Z.min n 1000 in
  let first := if first_arrival_time_ms_ tl =? -1 then arrival_ms else first_arrival_time_ms_ tl in
  let accumulated := accumulated_delay_ tl ⊕ delta_ms in
  let smoothed := smoothing_coef_ tl ⊗ smoothed_delay_ tl ⊕ (of_Z 1 ⊖ smoothing_coef_ tl) ⊗ accumulated in
  since_first ← I64.sub arrival_ms first;
  let hist := delay_hist_ tl ++ [mkTiming (of_Z since_first) smoothed accumulated] in
  let hist := if (GCC_WINDOW_SIZE <? length hist)%nat then tail hist else hist in
  let trend := if decide (length hist = GCC_WINDOW_SIZE) then default (prev_trend_ tl) (LinearFitSlope hist) else prev_trend_ tl in
  Detect trend send_delta_ms arrival_ms (set_history n first accumulated smoothed hist tl).

(** ** The link capacity estimate *)
Record LinkCapacityEstimator := mkLink { estimate_kbps_ : option f64; deviation_kbps_ : f64 }.
Implicit Types lc : LinkCapacityEstimator.
Definition link_new : LinkCapacityEstimator := mkLink None (lit 4 10).
Definition deviation_estimate_kbps lc (estimate : f64) : f64 := sqrt (deviation_kbps_ lc ⊗ estimate).
Definition UpperBound lc : f64 :=
  match estimate_kbps_ lc with
  | Some est => (est ⊕ of_Z 3 ⊗ deviation_estimate_kbps lc est) ⊗ of_Z 1000
  | None => infinity
  end.
Definition LowerBound lc : f64 :=
  match estimate_kbps_ lc with
  | Some est => max zero (est ⊖ of_Z 3 ⊗ deviation_estimate_kbps lc est) ⊗ of_Z 1000
  | None => zero
  end.
Definition link_Reset lc : LinkCapacityEstimator := mkLink None (deviation_kbps_ lc).
Definition link_Update (capacity_sample alpha : f64) lc : LinkCapacityEstimator :=
  let sample_kbps := capacity_sample ⊗ lit 1 1000 in
  let est := match estimate_kbps_ lc with
             | None => sample_kbps
             | Some est => (of_Z 1 ⊖ alpha) ⊗ est ⊕ alpha ⊗ sample_kbps
             end in
  let norm := max est (of_Z 1) in
  let error_kbps := est ⊖ sample_kbps in
  let dev := (of_Z 1 ⊖ alpha) ⊗ deviation_kbps_ lc ⊕ alpha ⊗ error_kbps ⊗ error_kbps ⊘ norm in
  let dev := if dev ≻ lit 25 10 then lit 25 10 else if dev ≺ lit 4 10 then lit 4 10 else dev in
  mkLink (Some est) dev.
Definition OnOveruseDetected (acknowledged_rate : f64) lc : LinkCapacityEstimator := link_Update acknowledged_rate (lit 5 100) lc.
Definition OnProbeRate (probe_rate : f64) lc : LinkCapacityEstimator := link_Update probe_rate (lit 5 10) lc.
Definition has_estimate lc : bool := match estimate_kbps_ lc with Some _ => true | None => false end.
Definition estimate lc : outcome f64 := est ← unwrap (estimate_kbps_ lc); Ret (est ⊗ of_Z 1000).

(** ** The AIMD rate controller *)
Record NetworkStateEstimate := mkNse {
  confidence : f64;
  update_time : Z;
  last_receive_time : Z;
  last_send_time : Z;
  link_capacity : f64;
  link_capacity_lower : f64;
  link_capacity_upper : f64;
  pre_link_buffer_delay : Z;
  post_link_buffer_delay : Z;
  propagation_delay : Z
}.
Definition nse_default : NetworkStateEstimate :=
  mkNse nan I64.MIN I64.MIN I64.MIN neg_infinity neg_infinity neg_infinity I64.MIN I64.MIN I64.MIN.
Inductive RateControlState := kRcHold | kRcIncrease | kRcDecrease.
#[export] Instance RateControlState_eq_dec : EqDecision RateControlState.
Proof. solve_decision. Defined.
Record RateControlInput := mkInput { bw_state : BandwidthUsage; estimated_throughput : option f64 }.
Record AimdRateControl := mkAimd {
  min_configured_bitrate_ : f64;
  max_configured_bitrate_ : f64;
  current_bitrate_ : f64;
  latest_estimated_throughput_ : f64;
  link_capacity_ : LinkCapacityEstimator;
  network_estimate_ : option NetworkStateEstimate;
  rate_control_state_ : RateControlState;
  time_last_bitrate_change_ : Z;
  time_last_bitrate_decrease_ : Z;
  time_first_throughput_estimate_ : Z;
  bitrate_is_initialized_ : bool;
  beta_ : f64;
  in_alr_ : bool;
  rtt_ : Z;
  send_side_ : bool;
  no_bitrate_increase_in_alr_ : bool;
  last_decrease_ : option f64;
  esitmate_thr_testing : f64;
  gcc_frame_interval : f64
}.
Implicit Types a : AimdRateControl.
Definition aimd_new (send_side : bool) (framerate : f64) : AimdRateControl :=
  mkAimd GCC_MIN_CONFIGURED_BITRATE GCC_MAX_CONFIGURED_BITRATE GCC_INIT_CONFIGURED_BITRATE GCC_INIT_CONFIGURED_BITRATE link_new
    (Some nse_default) kRcHold I64.MIN I64.MIN I64.MIN false GCC_DECREASE_COEF_BETA false GCC_DEFAULT_RTT send_side true
    (Some zero) zero (of_Z 1 ⊘ framerate).
(** Assignments to groups of fields. *)
Definition set_rates (current latest : f64) (nse : option NetworkStateEstimate) a : AimdRateControl :=
  mkAimd (min_configured_bitrate_ a) (max_configured_bitrate_ a) current latest (link_capacity_ a) nse (rate_control_state_ a)
    (time_last_bitrate_change_ a) (time_last_bitrate_decrease_ a) (time_first_throughput_estimate_ a) (bitrate_is_initialized_ a)
    (beta_ a) (in_alr_ a) (rtt_ a) (send_side_ a) (no_bitrate_increase_in_alr_ a) (last_decrease_ a) (esitmate_thr_testing a)
    (gcc_frame_interval a).
Definition set_first (first : Z) (initialized : bool) a : AimdRateControl :=
  mkAimd (min_configured_bitrate_ a) (max_configured_bitrate_ a) (current_bitrate_ a) (latest_estimated_throughput_ a)
    (link_capacity_ a) (network_estimate_ a) (rate_control_state_ a)
    (time_last_bitrate_change_ a) (time_last_bitrate_decrease_ a) first initialized
    (beta_ a) (in_alr_ a) (rtt_ a) (send_side_ a) (no_bitrate_increase_in_alr_ a) (last_decrease_ a) (esitmate_thr_testing a)
    (gcc_frame_interval a).
Definition set_state (st : RateControlState) (last_change : Z) a : AimdRateControl :=
  mkAimd (min_configured_bitrate_ a) (max_configured_bitrate_ a) (current_bitrate_ a) (latest_estimated_throughput_ a)
    (link_capacity_ a) (network_estimate_ a) st
    last_change (time_last_bitrate_decrease_ a) (time_first_throughput_estimate_ a) (bitrate_is_initialized_ a)
    (beta_ a) (in_alr_ a) (rtt_ a) (send_side_ a) (no_bitrate_increase_in_alr_ a) (last_decrease_ a) (esitmate_thr_testing a)
    (gcc_frame_interval a).
Definition set_link lc a : AimdRateControl :=
  mkAimd (min_configured_bitrate_ a) (max_configured_bitrate_ a) (current_bitrate_ a) (latest_estimated_throughput_ a)
    lc (network_estimate_ a) (rate_control_state_ a)
    (time_last_bitrate_change_ a) (time_last_bitrate_decrease_ a) (time_first_throughput_estimate_ a) (bitrate_is_initialized_ a)
    (beta_ a) (in_alr_ a) (rtt_ a) (send_side_ a) (no_bitrate_increase_in_alr_ a) (last_decrease_ a) (esitmate_thr_testing a)
    (gcc_frame_interval a).
Definition set_decrease (last_decrease : option f64) (testing : f64) (at_time : Z) a : AimdRateControl :=
  mkAimd (min_configured_bitrate_ a) (max_configured_bitrate_ a) (current_bitrate_ a) (latest_estimated_throughput_ a)
    (link_capacity_ a) (network_estimate_ a) kRcHold
    at_time at_time (time_first_throughput_estimate_ a) true
    (beta_ a) (in_alr_ a) (rtt_ a) (send_side_ a) (no_bitrate_increase_in_alr_ a) last_decrease testing
    (gcc_frame_interval a).

Definition ChangeState (input : RateControlInput) (at_time : Z) a : AimdRateControl :=
  match bw_state input with
  | kBwNormal =>
      if decide (rate_control_state_ a = kRcHold) then set_state kRcIncrease at_time a
      else if decide (rate_control_state_ a = kRcDecrease) then set_state kRcHold (time_last_bitrate_change_ a) a
      else a
  | kBwOverusing => set_state kRcDecrease (time_last_bitrate_change_ a) a
  | kBwUnderusing => set_state kRcHold (time_last_bitrate_change_ a) a
  | kLast => a
  end.
Definition GetNearMaxIncreaseRateBpsPerSecond a : outcome f64 :=
  let frame_size := current_bitrate_ a ⊗ gcc_frame_interval a in
  let packets_per_frame := frame_size ⊘ of_Z (1500 * 8) in
  let avg_packet_size := frame_size ⊘ packets_per_frame in
  r ← I64.add (rtt_ a) 100;
  let response_time := of_Z r ⊗ lit 1 1000 ⊗ of_Z 2 in
  Ret (max (of_Z 4000) (avg_packet_size ⊘ response_time)).

Section powf.
Context (powf : f64 → f64 → f64).
Definition MultiplicativeRateIncrease (at_time last_time : Z) (current_bitrate : f64) : outcome f64 :=
  alpha ← (if last_time =? I64.MIN then
             time_since_last_update ← I64.sub at_time last_time;
             Ret (powf GCC_INCREASE_COEF_ALPHA (min (of_Z time_since_last_update ⊘ of_Z 1000) (of_Z 1)))
           else Ret GCC_INCREASE_COEF_ALPHA);
  Ret (max (current_bitrate ⊗ (alpha ⊖ of_Z 1)) (of_Z 1000)).
Definition AdditiveRateIncrease (at_time last_time : Z) a : outcome f64 :=
  dt ← I64.sub at_time last_time;
  rate ← GetNearMaxIncreaseRateBpsPerSecond a;
  Ret (rate ⊗ (of_Z dt ⊘ of_Z 1000)).
Definition ClampBitrate (new_bitrate : f64) a : f64 :=
  let new_bitrate :=
    match network_estimate_ a with
    | Some ne => if F64Ops.ne (link_capacity_upper ne) neg_infinity then min (link_capacity_upper ne) new_bitrate else new_bitrate
    | None => new_bitrate
    end in
  let new_bitrate :=
    match network_estimate_ a with
    | Some ne =>
        if F64Ops.ne (link_capacity_lower ne) neg_infinity && (new_bitrate ≺ current_bitrate_ a)
        then min (current_bitrate_ a) (max new_bitrate (link_capacity_lower ne ⊗ beta_ a))
        else new_bitrate
    | None => new_bitrate
    end in
  max new_bitrate (min_configured_bitrate_ a).

(** The branches of [ChangeBitrate]: the state after it and the new bitrate, if any. *)
Definition increase (thr : f64) (at_time : Z) a : outcome (AimdRateControl * option f64) :=
  let a := if thr ≻ UpperBound (link_capacity_ a) then set_link (link_Reset (link_capacity_ a)) a else a in
  let increase_limit := lit 15 10 ⊗ thr ⊕ of_Z 10000 in
  nb ← (if current_bitrate_ a ≺ increase_limit then
          inc ← (if has_estimate (link_capacity_ a) then AdditiveRateIncrease at_time (time_last_bitrate_change_ a) a
                 else MultiplicativeRateIncrease at_time (time_last_bitrate_change_ a) (current_bitrate_ a));
          Ret (Some (min (current_bitrate_ a ⊕ inc) increase_limit))
        else Ret None);
  Ret (set_state (rate_control_state_ a) at_time a, nb).
Definition decrease (thr : f64) (at_time : Z) a : outcome (AimdRateControl * option f64) :=
  let decreased := thr ⊗ beta_ a in
  decreased ← (if (decreased ≻ current_bitrate_ a) && has_estimate (link_capacity_ a)
               then e ← estimate (link_capacity_ a); Ret (beta_ a ⊗ e) else Ret decreased);
  let nb := if decreased ≺ current_bitrate_ a then Some decreased else None in
  let last := if bitrate_is_initialized_ a && (thr ≺ current_bitrate_ a)
              then (λ b, current_bitrate_ a ⊖ b) <$> nb else last_decrease_ a in
  let lc := if thr ≺ LowerBound (link_capacity_ a) then link_Reset (link_capacity_ a) else link_capacity_ a in
  Ret (set_decrease last thr at_time (set_link (OnOveruseDetected thr lc) a), nb).
(** The bounds that the link capacity gives. *)
Definition update_network_estimate a : AimdRateControl :=
  let ne := default nse_default (network_estimate_ a) in
  let lower := LowerBound (link_capacity_ a) in
  let lower := if F64Ops.ne lower zero
               then (if lower ≺ min_configured_bitrate_ a then min_configured_bitrate_ a else lower)
               else min_configured_bitrate_ a in
  let upper := UpperBound (link_capacity_ a) in
  let upper := if F64Ops.ne upper infinity
               then (if upper ≻ max_configured_bitrate_ a then max_configured_bitrate_ a else upper)
               else max_configured_bitrate_ a in
  set_rates (current_bitrate_ a) (latest_estimated_throughput_ a)
    (Some (mkNse (confidence ne) (update_time ne) (last_receive_time ne) (last_send_time ne) (link_capacity ne) lower upper
             (pre_link_buffer_delay ne) (post_link_buffer_delay ne) (propagation_delay ne))) a.
Definition set_current (b : f64) a : AimdRateControl := set_rates b (latest_estimated_throughput_ a) (network_estimate_ a) a.
Definition ChangeBitrate (input : RateControlInput) (at_time : Z) a : outcome AimdRateControl :=
  let thr := default (latest_estimated_throughput_ a) (estimated_throughput input) in
  let a := set_rates (current_bitrate_ a) thr (network_estimate_ a) a in
  if negb (bitrate_is_initialized_ a) && bool_decide (bw_state input ≠ kBwOverusing) then Ret a
  else
    let a := ChangeState input at_time a in
    '(a, nb) ← match rate_control_state_ a with
               | kRcHold => Ret (a, None)
               | kRcIncrease => increase thr at_time a
               | kRcDecrease => decrease thr at_time a
               end;
    let a := update_network_estimate a in
    Ret (set_current (ClampBitrate (default (current_bitrate_ a) nb) a) a).
Definition aimd_Update (input : RateControlInput) (at_time : Z) a : outcome (AimdRateControl * f64) :=
  a ← (if bitrate_is_initialized_ a then Ret a
       else if time_first_throughput_estimate_ a =? I64.MIN then
         Ret (if estimated_throughput input then set_first at_time false a else a)
       else
         dt ← I64.sub at_time (time_first_throughput_estimate_ a);
         Ret match estimated_throughput input with
             | Some thr => if 5000 <? dt then set_current thr (set_first (time_first_throughput_estimate_ a) true a) else a
             | None => a
             end);
  a ← ChangeBitrate input at_time a;
  Ret (a, current_bitrate_ a).

(** ** The throughput estimator *)
Record BitrateEstimator := mkEstimator {
  sum_ : Z;
  initial_window_ms_ : Z;
  noninitial_window_ms_ : Z;
  uncertainty_scale_ : f64;
  uncertainty_scale_in_alr_ : f64;
  small_sample_uncertainty_scale_ : f64;
  small_sample_threshold_ : Z;
  uncertainty_symmetry_cap_ : Z;
  estimate_floor_ : Z;
  current_window_ms_ : Z;
  prev_time_ms_ : Z;
  bitrate_estimate_kbps_ : f64;
  bitrate_estimate_var_ : f64
}.
Implicit Types be : BitrateEstimator.
Definition estimator_new : BitrateEstimator :=
  mkEstimator 0 GCC_BITRATE_ESTIMATOR_INIT_WINDOW_MS GCC_BITRATE_ESTIMATOR_NONINIT_WINDOW_MS (of_Z 10) (of_Z 10) (of_Z 10) 0 0 0
    0 (-1) (neg (of_Z 1)) (of_Z 50).
Definition set_window (sum window prev : Z) be : BitrateEstimator :=
  mkEstimator sum (initial_window_ms_ be) (noninitial_window_ms_ be) (uncertainty_scale_ be) (uncertainty_scale_in_alr_ be)
    (small_sample_uncertainty_scale_ be) (small_sample_threshold_ be) (uncertainty_symmetry_cap_ be) (estimate_floor_ be)
    window prev (bitrate_estimate_kbps_ be) (bitrate_estimate_var_ be).
Definition set_estimate (kbps var : f64) be : BitrateEstimator :=
  mkEstimator (sum_ be) (initial_window_ms_ be) (noninitial_window_ms_ be) (uncertainty_scale_ be) (uncertainty_scale_in_alr_ be)
    (small_sample_uncertainty_scale_ be) (small_sample_threshold_ be) (uncertainty_symmetry_cap_ be) (estimate_floor_ be)
    (current_window_ms_ be) (prev_time_ms_ be) kbps var.
(** The state, the sample (negative when the window is not over), and whether it is small. *)
Definition UpdateWindow (now_ms bytes rate_window_ms : Z) be : outcome (BitrateEstimator * f64 * bool) :=
  let '(sum, window, prev) :=
    if now_ms <? prev_time_ms_ be then (0, 0, -1) else (sum_ be, current_window_ms_ be, prev_time_ms_ be) in
  '(sum, window) ← (if 0 <=? prev then
      dt ← I64.sub now_ms prev;
      window ← I64.add window dt;
      if rate_window_ms <? dt
      then (if rate_window_ms =? 0 then Panic else Ret (0, Z.rem window rate_window_ms))
      else Ret (sum, window)
    else Ret (sum, window));
  let small := if rate_window_ms <=? window then sum <? I64.cast (small_sample_threshold_ be) else false in
  let sample := if rate_window_ms <=? window then of_Z 8 ⊗ of_Z sum ⊘ of_Z rate_window_ms else neg (of_Z 1) in
  window' ← (if rate_window_ms <=? window then I64.sub window rate_window_ms else Ret window);
  let sum := if rate_window_ms <=? window then 0 else sum in
  sum ← I64.add sum (I64.cast bytes);
  Ret (set_window sum window' now_ms be, sample, small).
Definition estimator_Update (at_time amount : Z) (in_alr : bool) be : outcome BitrateEstimator :=
  let rate_window_ms := if bitrate_estimate_kbps_ be ≺ zero then initial_window_ms_ be else noninitial_window_ms_ be in
  '(be, sample, small) ← UpdateWindow at_time amount rate_window_ms be;
  let est := bitrate_estimate_kbps_ be in
  if sample ≺ zero then Ret be
  else if est ≺ zero then Ret (set_estimate sample (bitrate_estimate_var_ be) be)
  else
    let scale := if small && (sample ≺ est) then small_sample_uncertainty_scale_ be
                 else if in_alr && (sample ≺ est) then uncertainty_scale_in_alr_ be
                 else uncertainty_scale_ be in
    let sample_uncertainty := scale ⊗ abs (est ⊖ sample) ⊘ (est ⊕ min sample (of_Z (uncertainty_symmetry_cap_ be))) in
    let sample_var := sample_uncertainty ⊗ sample_uncertainty in
    let pred_var := bitrate_estimate_var_ be ⊕ of_Z 5 in
    let est := (sample_var ⊗ est ⊕ pred_var ⊗ sample) ⊘ (sample_var ⊕ pred_var) in
    let est := max est (of_Z (estimate_floor_ be)) in
    Ret (set_estimate est (sample_var ⊗ pred_var ⊘ (sample_var ⊕ pred_var)) be).
Definition bitrate be : option f64 :=
  if bitrate_estimate_kbps_ be ≺ zero then None else Some (bitrate_estimate_kbps_ be ⊗ of_Z 1000).
Definition PeekRate be : option f64 :=
  if 0 <? current_window_ms_ be then Some (of_Z (sum_ be) ⊘ (of_Z (current_window_ms_ be) ⊗ lit 1 1000)) else None.
Definition ExpectFastRateChange be : BitrateEstimator := set_estimate (bitrate_estimate_kbps_ be) (bitrate_estimate_var_ be ⊕ of_Z 200) be.

(** ** The estimator *)
Record GccBandwidthEstimator := mkGcc {
  trendline_manager : TrendlineEstimator;
  aimd_manager : AimdRateControl;
  rate_control_input_manager : RateControlInput;
  bitrate_estimator_manager : BitrateEstimator;
  last_frame_send_timestamp : f64;
  last_frame_arrival_timestamp : f64
}.
Definition gcc_new (framerate : f64) : GccBandwidthEstimator :=
  mkGcc trendline_new (aimd_new true framerate) (mkInput kBwNormal (Some GCC_INIT_CONFIGURED_BITRATE)) estimator_new zero zero.

Section time.
Context {T : Type} `{TaiTime T} `{!Edca.Epoch T}.
(** [now.duration_since(TaiTime::EPOCH)], in milliseconds and microseconds as [i64] *)
Definition millis_since_epoch (now : T) : outcome Z :=
  if time_le Edca.EPOCH now then Ret (I64.cast ((nanos now - nanos Edca.EPOCH) / 10 ^ 6)) else Panic.
Definition gcc_Update (send_us arrival_us : f64) (frame_size : Z) (now : T) (g : GccBandwidthEstimator)
    : outcome (GccBandwidthEstimator * f64) :=
  let first := negb (F64Ops.ne (last_frame_send_timestamp g) zero) in
  let send_delta_ms := if first then zero else (send_us ⊖ last_frame_send_timestamp g) ⊗ lit 1 1000 in
  let recv_delta_ms := if first then zero else (arrival_us ⊖ last_frame_arrival_timestamp g) ⊗ lit 1 1000 in
  let send_time_ms := as_i64 (send_us ⊗ lit 1 1000) in
  let arrival_time_ms := as_i64 (arrival_us ⊗ lit 1 1000) in
  tl ← UpdateTrendline recv_delta_ms send_delta_ms send_time_ms arrival_time_ms frame_size (trendline_manager g);
  let bw := match hypothesis_ tl with kBwNormal => kBwNormal | kBwOverusing => kBwOverusing | _ => kBwUnderusing end in
  be ← estimator_Update arrival_time_ms (wrap 64 frame_size) false (bitrate_estimator_manager g);
  let thr := match bitrate be with
             | Some br => Some br
             | None => estimated_throughput (rate_control_input_manager g)
             end in
  let input := mkInput bw thr in
  at_time ← millis_since_epoch now;
  '(a, target) ← aimd_Update input at_time (aimd_manager g);
  Ret (mkGcc tl a input be send_us arrival_us, target).
End time.
Definition get_target_bitrate_bps (g : GccBandwidthEstimator) : f64 := current_bitrate_ (aimd_manager g).
Definition get_estimated_througput (g : GccBandwidthEstimator) : f64 := default zero (bitrate (bitrate_estimator_manager g)).
End powf.

(** The constants, and the detector on growing delays. *)
Example gcc_constants : as_i64 GCC_MIN_CONFIGURED_BITRATE = 10000000 ∧ as_i64 GCC_MAX_CONFIGURED_BITRATE = 100000000.
Proof. vm_compute. done. Qed.
Fixpoint feed_delays (n : nat) (recv send : f64) (t step : Z) tl : outcome TrendlineEstimator :=
  match n with
  | O => Ret tl
  | S n => tl ← UpdateTrendline recv send t t 1000 tl; feed_delays n recv send (t + step) step tl
  end.
Example detects_overuse : hypothesis_ <$> feed_delays 22 (of_Z 15) (of_Z 10) 1000 15 trendline_new = Ret kBwOverusing.
Proof. vm_compute. done. Qed.
Example no_overuse : hypothesis_ <$> feed_delays 40 (of_Z 11) (of_Z 11) 1000 11 trendline_new = Ret kBwNormal.
Proof. vm_compute. done. Qed.
End Gcc.
