(* ===== verification/GccFacts.v ===== *)
(** * The bandwidth estimator never panics and keeps its bounds

    Over any sequence of frames: no arithmetic overflow, a target that is a number
    and at least the configured minimum, a threshold of the detector within its
    limits, a history of at most twenty samples ([gcc_total]); an over-use never
    raises the target ([overuse_never_raises]); a target that starts within the
    maximum stays there ([target_keeps_maximum]), but the first throughput estimate
    can put it above, and it stays there ([target_above_maximum]). *)

From Stdlib Require Import SpecFloat.
From S2P Require Import Prelude Scheduler SeqExecutor F32 Airtime Edca F64Ops Gcc.

Module GccFacts.
Import F64 F64Ops Gcc.

(** ** The detector *)
Section trendline.
Implicit Types tl : TrendlineEstimator.
Definition threshold_ok (th : f64) : Prop := is_nan th = true ∨ le (of_Z 6) th = true ∧ le th (of_Z 600) = true.
Record trend_inv (n : Z) tl : Prop := {
  ti_deltas : 0 ≤ num_of_deltas_ tl ≤ 1000;
  ti_first : -1 ≤ first_arrival_time_ms_ tl ≤ 2 ^ 62;
  ti_hist : (length (delay_hist_ tl) ≤ GCC_WINDOW_SIZE)%nat;
  ti_last : -1 ≤ last_update_ms_ tl ≤ 2 ^ 62;
  ti_counter : 0 ≤ overuse_counter_ tl ≤ n;
  ti_threshold : threshold_ok (threshold_ tl)
}.

Lemma update_threshold_ok mt now n tl : trend_inv n tl → 0 ≤ now ≤ 2 ^ 62 →
  ∃ tl', UpdateThreshold mt now tl = Ret tl' ∧ trend_inv n tl'.
Proof.
  intros [I1 I2 I3 I4 I5 I6] Hn. unfold UpdateThreshold. destruct (lt _ (abs mt)).
  { eexists. split; [done|]. split; cbn; try done. lia. }
  unfold I64.sub. rewrite I64.check_Ret by (unfold I64.MIN, I64.MAX; destruct (Z.eqb_spec (last_update_ms_ tl) (-1)); lia).
  ret_step. eexists. split; [done|]. split; cbn -[of_Z]; try done; [lia|].
  match goal with |- threshold_ok (if lt ?c ?x then _ else _) => generalize x; intros th end. unfold threshold_ok.
  destruct (is_nan th) eqn:En.
  { left. destruct th; try done. }
  destruct (lt (of_Z 600) th) eqn:E1; [right; by vm_compute|].
  destruct (lt th (of_Z 6)) eqn:E2; [right; by vm_compute|].
  right. split; by apply lt_false.
Qed.
Lemma detect_hypothesis_ok mt trend ts n tl : trend_inv n tl → 0 ≤ n < 2 ^ 62 →
  ∃ tl', detect_hypothesis mt trend ts tl = Ret tl' ∧ trend_inv (n + 1) tl'.
Proof.
  intros [I1 I2 I3 I4 I5 I6] Hn. unfold detect_hypothesis. destruct (lt _ mt).
  - unfold I64.add. rewrite I64.check_Ret by (unfold I64.MIN, I64.MAX; lia). ret_step.
    eexists. split; [done|]. destruct (_ && _ && _); split; cbn; try done; lia.
  - destruct (lt mt _); eexists; (split; [done|]); split; cbn; try done; lia.
Qed.
Lemma detect_ok trend ts now n tl : trend_inv n tl → 0 ≤ n < 2 ^ 62 → 0 ≤ now ≤ 2 ^ 62 →
  ∃ tl', Detect trend ts now tl = Ret tl' ∧ trend_inv (n + 1) tl'.
Proof.
  intros Hi Hn Hnow. unfold Detect. destruct (_ <? 2).
  { destruct Hi. eexists. split; [done|]. split; cbn; try done. lia. }
  cbv zeta. edestruct (detect_hypothesis_ok) as (tl1 & E1 & I1); [done..|]. rewrite E1. ret_step.
  apply update_threshold_ok; [|done]. destruct I1. by split.
Qed.
Lemma window_length (l : list PacketTiming) x : (length l ≤ GCC_WINDOW_SIZE)%nat →
  (length (let h := l ++ [x] in if (GCC_WINDOW_SIZE <? length h)%nat then tail h else h) ≤ GCC_WINDOW_SIZE)%nat.
Proof.
  intros Hl. cbv zeta. destruct (Nat.ltb_spec GCC_WINDOW_SIZE (length (l ++ [x]))); [|done].
  destruct l as [|y l]; [cbn; lia|]. cbn in *. rewrite length_app. cbn. lia.
Qed.
Lemma update_trendline_ok recv send st arr sz n tl : trend_inv n tl → 0 ≤ n < 2 ^ 62 → 0 ≤ arr ≤ 2 ^ 62 →
  ∃ tl', UpdateTrendline recv send st arr sz tl = Ret tl' ∧ trend_inv (n + 1) tl'.
Proof.
  intros [I1 I2 I3 I4 I5 I6] Hn Ha. unfold UpdateTrendline, I64.add, I64.sub.
  rewrite (I64.check_Ret (num_of_deltas_ tl + 1)) by (unfold I64.MIN, I64.MAX; lia). ret_step.
  set (first := if _ =? -1 then arr else _).
  assert (0 ≤ first ≤ 2 ^ 62) as Hf by (unfold first; destruct (Z.eqb_spec (first_arrival_time_ms_ tl) (-1)); lia).
  rewrite I64.check_Ret by (unfold I64.MIN, I64.MAX; lia). ret_step. cbv zeta.
  apply detect_ok; [|done..].
  split; [cbn -[of_Z]; lia..|exact (window_length _ _ I3)|done|done|done].
Qed.
End trendline.

(** ** The throughput estimator *)
Section estimator.
Implicit Types be : BitrateEstimator.
Record est_inv (n : Z) be : Prop := {
  ei_sum : 0 ≤ sum_ be ≤ n * 2 ^ 31;
  ei_window : 0 ≤ current_window_ms_ be < 350;
  ei_prev : -1 ≤ prev_time_ms_ be ≤ 2 ^ 62;
  ei_initial : initial_window_ms_ be = 350;
  ei_noninitial : noninitial_window_ms_ be = 250
}.
Lemma update_window_ok now bytes rate n be : est_inv n be → 0 ≤ n < 2 ^ 31 → 0 ≤ now ≤ 2 ^ 62 → 0 ≤ bytes < 2 ^ 31 →
  rate = 350 ∨ rate = 250 → ∃ be' x small, UpdateWindow now bytes rate be = Ret (be', x, small) ∧ est_inv (n + 1) be'.
Proof.
  intros [I1 I2 I3 I4 I5] Hn Hnow Hb Hr. unfold UpdateWindow, I64.add, I64.sub.
  set (r := if now <? prev_time_ms_ be then _ else _).
  assert (∃ s w p, r = (s, w, p) ∧ 0 ≤ s ≤ n * 2 ^ 31 ∧ 0 ≤ w < 350 ∧ (p = -1 ∨ 0 ≤ p ≤ now)) as (s & w & p & -> & Hs & Hw & Hp).
  { unfold r. destruct (Z.ltb_spec now (prev_time_ms_ be)); eexists _, _, _; (split; [done|]); lia. }
  assert (∃ s' w', (if 0 <=? p then dt ← I64.check (now - p); window ← I64.check (w + dt);
      if rate <? dt then (if rate =? 0 then Panic else Ret (0, Z.rem window rate)) else Ret (s, window) else Ret (s, w))
      = Ret (s', w') ∧ 0 ≤ s' ≤ n * 2 ^ 31 ∧ 0 ≤ w' < 350 + rate) as (s' & w' & -> & Hs' & Hw').
  { destruct (Z.leb_spec 0 p); [|eexists _, _; split; [done|lia]].
    rewrite I64.check_Ret by (unfold I64.MIN, I64.MAX; lia). ret_step.
    rewrite I64.check_Ret by (unfold I64.MIN, I64.MAX; lia). ret_step.
    destruct (Z.ltb_spec rate (now - p)); [|eexists _, _; split; [done|lia]].
    rewrite (proj2 (Z.eqb_neq _ _)) by lia. eexists _, _. split; [done|].
    rewrite Z.rem_mod_nonneg by lia. pose proof (Z.mod_pos_bound (w + (now - p)) rate). lia. }
  ret_step. rewrite (I64.cast_id bytes) by (unfold I64.MIN, I64.MAX; lia).
  destruct (Z.leb_spec rate w').
  - rewrite I64.check_Ret by (unfold I64.MIN, I64.MAX; lia). ret_step.
    rewrite I64.check_Ret by (unfold I64.MIN, I64.MAX; lia). ret_step.
    eexists _, _, _. split; [done|]. split; cbn; try done; lia.
  - ret_step. rewrite I64.check_Ret by (unfold I64.MIN, I64.MAX; lia). ret_step.
    eexists _, _, _. split; [done|]. split; cbn; try done; lia.
Qed.
Lemma estimator_ok now bytes alr n be : est_inv n be → 0 ≤ n < 2 ^ 31 → 0 ≤ now ≤ 2 ^ 62 → 0 ≤ bytes < 2 ^ 31 →
  ∃ be', estimator_Update now bytes alr be = Ret be' ∧ est_inv (n + 1) be'.
Proof.
  intros Hi Hn Hnow Hb. unfold estimator_Update. set (rate := if lt (bitrate_estimate_kbps_ be) zero then _ else _).
  destruct (update_window_ok now bytes rate n be Hi Hn Hnow Hb) as (be1 & x & small & E & I1).
  { destruct Hi. unfold rate. destruct (lt _ _); auto. }
  rewrite E. ret_step. destruct (lt x zero); [by eexists|].
  destruct (lt (bitrate_estimate_kbps_ be1) zero); (eexists; split; [done|]); destruct I1; by split.
Qed.
End estimator.

(** ** The rate controller *)
#[local] Opaque GCC_MIN_CONFIGURED_BITRATE GCC_MAX_CONFIGURED_BITRATE GCC_DECREASE_COEF_BETA GCC_INCREASE_COEF_ALPHA
  UpperBound LowerBound F64.lit F64.of_Z F64.add F64.sub F64.mul F64.div F64.sqrt.
Section aimd.
Context (powf : f64 → f64 → f64).
Implicit Types a : AimdRateControl.
Record aimd_inv a : Prop := {
  ai_min : min_configured_bitrate_ a = GCC_MIN_CONFIGURED_BITRATE;
  ai_max : max_configured_bitrate_ a = GCC_MAX_CONFIGURED_BITRATE;
  ai_rtt : rtt_ a = GCC_DEFAULT_RTT;
  ai_rest : rate_control_state_ a ≠ kRcDecrease;
  ai_change : time_last_bitrate_change_ a = I64.MIN ∨ 0 ≤ time_last_bitrate_change_ a ≤ I64.MAX;
  ai_increase : rate_control_state_ a = kRcIncrease → time_last_bitrate_change_ a ≠ I64.MIN;
  ai_first : time_first_throughput_estimate_ a = I64.MIN ∨ 0 ≤ time_first_throughput_estimate_ a ≤ I64.MAX
}.
(** The target is a number and at least the configured minimum. *)
Definition at_least_min (x : f64) : Prop := le GCC_MIN_CONFIGURED_BITRATE x = true.
Lemma clamp_min x a : min_configured_bitrate_ a = GCC_MIN_CONFIGURED_BITRATE → at_least_min (ClampBitrate x a).
Proof. intros E. unfold ClampBitrate, at_least_min. rewrite E. by apply max_ge_r. Qed.
(** The fields that the controller's arithmetic does not touch. *)
Lemma sub_nonneg x y : 0 ≤ x ≤ I64.MAX → 0 ≤ y ≤ I64.MAX → I64.sub x y = Ret (x - y).
Proof. intros. apply I64.check_Ret. unfold I64.MIN, I64.MAX in *. lia. Qed.
Lemma increase_ok thr now a : aimd_inv a → rate_control_state_ a = kRcIncrease → 0 ≤ now ≤ I64.MAX →
  ∃ a' nb, increase powf thr now a = Ret (a', nb) ∧ aimd_inv a' ∧ current_bitrate_ a' = current_bitrate_ a ∧
    bitrate_is_initialized_ a' = bitrate_is_initialized_ a.
Proof.
  intros [I1 I2 I3 I4 I5 I6 I7] Es Hn. unfold increase.
  set (a1 := if lt (UpperBound (link_capacity_ a)) thr then _ else a).
  assert (current_bitrate_ a1 = current_bitrate_ a ∧ time_last_bitrate_change_ a1 = time_last_bitrate_change_ a ∧
    rate_control_state_ a1 = rate_control_state_ a ∧ rtt_ a1 = rtt_ a ∧
    min_configured_bitrate_ a1 = min_configured_bitrate_ a ∧ max_configured_bitrate_ a1 = max_configured_bitrate_ a ∧
    bitrate_is_initialized_ a1 = bitrate_is_initialized_ a ∧
    time_first_throughput_estimate_ a1 = time_first_throughput_estimate_ a) as (E1 & E2 & E3 & E4 & E5 & E6 & E7 & E8)
    by (unfold a1; destruct (lt _ _); repeat split; reflexivity).
  clearbody a1. specialize (I6 Es). destruct I5 as [?|I5]; [done|].
  assert (∃ nb, (if lt (current_bitrate_ a1) (lit 15 10 ⊗ thr ⊕ of_Z 10000)%f64 then
          inc ← (if has_estimate (link_capacity_ a1) then AdditiveRateIncrease now (time_last_bitrate_change_ a1) a1
                 else MultiplicativeRateIncrease powf now (time_last_bitrate_change_ a1) (current_bitrate_ a1));
          Ret (Some (min (current_bitrate_ a1 ⊕ inc)%f64 (lit 15 10 ⊗ thr ⊕ of_Z 10000)%f64))
        else Ret None) = Ret nb) as [nb Enb].
  { destruct (lt _ _); [|by eexists]. destruct (has_estimate _).
    - unfold AdditiveRateIncrease, GetNearMaxIncreaseRateBpsPerSecond. rewrite E2, E4, I3, sub_nonneg by done. by eexists.
    - unfold MultiplicativeRateIncrease. rewrite E2, (proj2 (Z.eqb_neq _ _)) by done. by eexists. }
  cbv zeta. rewrite Enb. ret_step. eexists _, _. split; [done|]. split_and!; [|done..].
  split; cbn; try congruence; [lia|intros _; unfold I64.MIN; lia].
Qed.
Lemma decrease_ok thr now a : aimd_inv (set_state kRcHold (time_last_bitrate_change_ a) a) → 0 ≤ now ≤ I64.MAX →
  ∃ a' nb, decrease thr now a = Ret (a', nb) ∧ aimd_inv a' ∧ current_bitrate_ a' = current_bitrate_ a ∧
    bitrate_is_initialized_ a' = true ∧ rate_control_state_ a' = kRcHold ∧ (∀ b, nb = Some b → lt b (current_bitrate_ a) = true).
Proof.
  intros [I1 I2 I3 I4 I5 I6 I7] Hn. unfold decrease. cbn in *.
  assert (∃ d, (if lt (current_bitrate_ a) (thr ⊗ beta_ a)%f64 && has_estimate (link_capacity_ a)
    then e ← estimate (link_capacity_ a); Ret (beta_ a ⊗ e)%f64 else Ret (thr ⊗ beta_ a)%f64) = Ret d) as [d Ed].
  { unfold has_estimate, estimate. destruct (estimate_kbps_ _), (lt _ _); by eexists. }
  rewrite Ed. ret_step. eexists _, _. split; [done|]. split_and!; [|done..|].
  - split; cbn; try done; lia.
  - intros b. by destruct (lt d _) eqn:E; [intros [= <-]|].
Qed.
(** A bound on the clamped bitrate. *)
Lemma clamp_le x a b : le (min_configured_bitrate_ a) b = true → le (current_bitrate_ a) b = true →
  (le x b = true ∨ ∃ ne, network_estimate_ a = Some ne ∧ F64Ops.ne (link_capacity_upper ne) neg_infinity = true ∧
    le (link_capacity_upper ne) b = true) → le (ClampBitrate x a) b = true.
Proof.
  intros Hmin Hcur Hx. unfold ClampBitrate. apply max_le; [by apply le_nan in Hmin as [? _]| |done].
  set (x1 := match network_estimate_ a with
             | Some ne => if F64Ops.ne (link_capacity_upper ne) neg_infinity then min (link_capacity_upper ne) x else x
             | None => x end).
  assert (le x1 b = true) as H1.
  { unfold x1. destruct Hx as [Hx|(ne & -> & Hne & Hu)].
    - destruct (network_estimate_ a); [|done]. destruct (F64Ops.ne _ _); [|done].
      eapply le_trans; [|done]. apply min_le_r. by apply le_nan in Hx as [? _].
    - rewrite Hne. eapply le_trans; [|done]. apply min_le_l. by apply le_nan in Hu as [? _]. }
  intros _. destruct (network_estimate_ a); [|done]. destruct (_ && _); [|done].
  apply (le_trans _ (current_bitrate_ a)); [|done]. apply min_le_l. by apply le_nan in Hcur as [? _].
Qed.

(** The branches of [ChangeBitrate]. *)
Lemma branch_ok input thr now a : aimd_inv a → 0 ≤ now ≤ I64.MAX →
  ∃ a' nb, match rate_control_state_ (ChangeState input now a) with
           | kRcHold => Ret (ChangeState input now a, None)
           | kRcIncrease => increase powf thr now (ChangeState input now a)
           | kRcDecrease => decrease thr now (ChangeState input now a)
           end = Ret (a', nb) ∧ aimd_inv a' ∧ current_bitrate_ a' = current_bitrate_ a ∧
    (bitrate_is_initialized_ a = true → bitrate_is_initialized_ a' = true) ∧
    (bw_state input = kBwOverusing → rate_control_state_ a' = kRcHold ∧ bitrate_is_initialized_ a' = true ∧
       (∀ b, nb = Some b → lt b (current_bitrate_ a) = true)).
Proof.
  intros Hi Hn. destruct (decide (bw_state input = kBwOverusing)) as [E|E].
  - unfold ChangeState. rewrite E. cbn [rate_control_state_ set_state].
    destruct (decrease_ok thr now (set_state kRcDecrease (time_last_bitrate_change_ a) a)) as (a' & nb & Ed & I' & ? & ? & ? & ?);
      [destruct Hi; by split|done|].
    rewrite Ed. exists a', nb. split_and!; done.
  - assert (aimd_inv (ChangeState input now a) ∧ current_bitrate_ (ChangeState input now a) = current_bitrate_ a ∧
      bitrate_is_initialized_ (ChangeState input now a) = bitrate_is_initialized_ a) as (I' & Ec & Eb).
    { destruct Hi as [I1 I2 I3 I4 I5 I6 I7]. unfold ChangeState. destruct (bw_state input); [| |congruence|by split]; repeat case_decide;
        (split; [|split; reflexivity]); split; cbn; first [assumption|congruence|lia|intros _; unfold I64.MIN; lia]. }
    destruct (rate_control_state_ _) eqn:Es.
    + eexists _, _. split; [done|]. split_and!; try done. by rewrite Eb.
    + destruct (increase_ok thr now _ I' Es Hn) as (a' & nb & Ei & I'' & Ec' & Eb'). rewrite Ei. exists a', nb.
      split_and!; try done; congruence.
    + by destruct (ai_rest _ I').
Qed.
(** The upper bound that the link capacity gives is at most the configured maximum. *)
Lemma upper_le a : max_configured_bitrate_ a = GCC_MAX_CONFIGURED_BITRATE → le zero (UpperBound (link_capacity_ a)) = true →
  ∃ ne, network_estimate_ (update_network_estimate a) = Some ne ∧ F64Ops.ne (link_capacity_upper ne) neg_infinity = true ∧
    le (link_capacity_upper ne) GCC_MAX_CONFIGURED_BITRATE = true.
Proof.
  intros Em Hu. eexists. split; [done|]. cbn [link_capacity_upper]. rewrite Em.
  destruct (F64Ops.ne _ infinity); [|by vm_compute]. destruct (lt _ _) eqn:El; [by vm_compute|].
  split; [|apply lt_false; [done|by apply le_nan in Hu as [_ ?]|done]].
  destruct (UpperBound (link_capacity_ a)) as [|[]| |]; done.
Qed.
Lemma change_ok input now a : aimd_inv a → 0 ≤ now ≤ I64.MAX → ∃ a', ChangeBitrate powf input now a = Ret a' ∧ aimd_inv a' ∧
  (bitrate_is_initialized_ a = true ∨ at_least_min (current_bitrate_ a) → at_least_min (current_bitrate_ a')) ∧
  (bw_state input = kBwOverusing → at_least_min (current_bitrate_ a) →
     le (current_bitrate_ a') (current_bitrate_ a) = true ∧ rate_control_state_ a' = kRcHold ∧ bitrate_is_initialized_ a' = true) ∧
  (at_least_min (current_bitrate_ a) → le (current_bitrate_ a) GCC_MAX_CONFIGURED_BITRATE = true →
     le zero (UpperBound (link_capacity_ a')) = true → le (current_bitrate_ a') GCC_MAX_CONFIGURED_BITRATE = true).
Proof.
  intros Hi Hn. unfold ChangeBitrate. set (thr := default _ _).
  set (a1 := set_rates (current_bitrate_ a) thr (network_estimate_ a) a).
  assert (aimd_inv a1) as H1 by (destruct Hi; by split). destruct (negb _ && _) eqn:Eb.
  { exists a1. split; [done|]. split; [done|]. apply andb_true_iff in Eb as [E1 E2]. cbn in E1.
    split_and!; try done.
    - intros [Ei|?]; [by rewrite Ei in E1|done].
    - intros Ho. by apply bool_decide_eq_true in E2. }
  cbv zeta. destruct (branch_ok input thr now a1 H1 Hn) as (a3 & nb & Ebr & I3 & Ec & Ein & Hov). rewrite Ebr.
  ret_step. eexists. split; [done|]. split; [destruct I3; by split|].
  change (current_bitrate_ (update_network_estimate a3)) with (current_bitrate_ a3). rewrite Ec.
  split; [intros _; apply clamp_min, I3|]. split.
  - intros Ho Hc. destruct (Hov Ho) as (? & ? & Hnb). split; [|done].
    apply clamp_le; [by rewrite (ai_min _ I3 : min_configured_bitrate_ (update_network_estimate a3) = _)| |left].
    + change (current_bitrate_ (update_network_estimate a3)) with (current_bitrate_ a3). rewrite Ec.
      apply le_refl. by apply le_nan in Hc as [_ ?].
    + destruct nb as [b|]; [by apply lt_le, Hnb|]. apply le_refl. by apply le_nan in Hc as [_ ?].
  - intros Hc Hm Hu. apply clamp_le; [by rewrite (ai_min _ I3 : min_configured_bitrate_ (update_network_estimate a3) = _)| |right].
    + change (current_bitrate_ (update_network_estimate a3)) with (current_bitrate_ a3). by rewrite Ec.
    + apply upper_le; [apply I3|exact Hu].
Qed.
Lemma aimd_ok input now a : aimd_inv a → at_least_min (current_bitrate_ a) → 0 ≤ now ≤ I64.MAX →
  ∃ a', aimd_Update powf input now a = Ret (a', current_bitrate_ a') ∧ aimd_inv a' ∧ at_least_min (current_bitrate_ a').
Proof.
  intros Hi Hc Hn. unfold aimd_Update.
  set (pre := if bitrate_is_initialized_ a then Ret a else _).
  assert (∃ a1, pre = Ret a1 ∧ aimd_inv a1 ∧ (bitrate_is_initialized_ a1 = true ∨ at_least_min (current_bitrate_ a1))) as (a1 & -> & H1 & Hor).
  { unfold pre. destruct (bitrate_is_initialized_ a) eqn:Eb; [exists a; auto|]. destruct Hi as [I1 I2 I3 I4 I5 I6 I7].
    destruct (Z.eqb_spec (time_first_throughput_estimate_ a) I64.MIN) as [Ef|Ef].
    - eexists. split; [reflexivity|]. destruct (estimated_throughput input); (split; [split; cbn; auto|auto]).
    - destruct I7 as [|I7]; [congruence|]. rewrite sub_nonneg by assumption. ret_step. eexists. split; [reflexivity|].
      destruct (estimated_throughput input) as [thr|]; [|split; [split; auto|auto]].
      destruct (5000 <? _); (split; [split; cbn; auto|auto]). }
  ret_step. destruct (change_ok input now a1 H1 Hn) as (a2 & E2 & H2 & Hm & _). rewrite E2. ret_step.
  exists a2. auto.
Qed.
End aimd.

(** ** Sequences of frames *)
Section run.
Context (powf : f64 → f64 → f64) {T : Type} `{TaiTime T} `{!Edca.Epoch T}.
Record Frame := mkFrame { fr_send_us : f64; fr_arrival_us : f64; fr_size : Z; fr_now : T }.
Fixpoint gcc_run (frames : list Frame) (g : GccBandwidthEstimator) : outcome (GccBandwidthEstimator * list f64) :=
  match frames with
  | [] => Ret (g, [])
  | f :: frames =>
      '(g, target) ← gcc_Update powf (fr_send_us f) (fr_arrival_us f) (fr_size f) (fr_now f) g;
      '(g, targets) ← gcc_run frames g;
      Ret (g, target :: targets)
  end.
(** Frames of less than 2 GiB, arriving after the epoch. *)
Definition frame_ok (f : Frame) : Prop :=
  0 ≤ as_i64 (fr_arrival_us f ⊗ lit 1 1000)%f64 ≤ 2 ^ 62 ∧ 0 ≤ fr_size f < 2 ^ 31 ∧
  0 ≤ nanos (fr_now f) - nanos Edca.EPOCH ≤ I64.MAX.
Record gcc_inv (n : Z) (g : GccBandwidthEstimator) : Prop := {
  gi_trend : trend_inv n (trendline_manager g);
  gi_est : est_inv n (bitrate_estimator_manager g);
  gi_aimd : aimd_inv (aimd_manager g);
  gi_target : at_least_min (current_bitrate_ (aimd_manager g))
}.
Lemma gcc_step_ok f n g : gcc_inv n g → 0 ≤ n < 2 ^ 31 → frame_ok f →
  ∃ g', gcc_Update powf (fr_send_us f) (fr_arrival_us f) (fr_size f) (fr_now f) g = Ret (g', get_target_bitrate_bps g') ∧
    gcc_inv (n + 1) g'.
Proof.
  intros [I1 I2 I3 I4] Hn (Ha & Hs & Ht). unfold gcc_Update.
  edestruct (update_trendline_ok) as (tl & E1 & J1); [exact I1|lia|exact Ha|]. rewrite E1. ret_step.
  rewrite (wrap_id 64 (fr_size f)) by lia.
  destruct (estimator_ok (as_i64 (fr_arrival_us f ⊗ lit 1 1000)%f64) (fr_size f) false n _ I2 Hn Ha Hs) as (be & E2 & J2).
  rewrite E2. ret_step. unfold millis_since_epoch.
  rewrite (proj2 (time_le_spec Edca.EPOCH (fr_now f))) by lia. ret_step.
  assert (0 ≤ (nanos (fr_now f) - nanos Edca.EPOCH) / 10 ^ 6 ≤ I64.MAX) as Hm.
  { split; [apply Z.div_pos; lia|]. apply Z.div_le_upper_bound; unfold I64.MAX in *; lia. }
  rewrite I64.cast_id by (unfold I64.MIN; lia).
  edestruct (aimd_ok powf) as (a' & E3 & J3 & J4); [exact I3|exact I4|exact Hm|]. rewrite E3. ret_step.
  eexists (mkGcc tl a' _ be _ _). split; [reflexivity|]. split; assumption.
Qed.
Lemma gcc_run_ok frames : ∀ n g, gcc_inv n g → 0 ≤ n → n + Z.of_nat (length frames) ≤ 2 ^ 31 → Forall frame_ok frames →
  ∃ g' targets, gcc_run frames g = Ret (g', targets) ∧ gcc_inv (n + Z.of_nat (length frames)) g' ∧
    length targets = length frames ∧ Forall at_least_min targets.
Proof.
  induction frames as [|f frames IH]; intros n g Hi Hn Hl Hf; cbn [gcc_run length] in *.
  - rewrite Z.add_0_r. exists g, []. split_and!; [reflexivity|assumption|reflexivity|constructor].
  - apply Forall_cons in Hf as [Hf Hfs]. destruct (gcc_step_ok f n g Hi) as (g1 & E1 & I1); [lia|done|].
    rewrite E1. ret_step. destruct (IH (n + 1) g1 I1) as (g2 & ts & E2 & I2 & L2 & F2); [lia..|done|].
    rewrite E2. ret_step. exists g2, (get_target_bitrate_bps g1 :: ts).
    replace (n + Z.of_nat (S (length frames))) with (n + 1 + Z.of_nat (length frames)) by lia.
    split_and!; [reflexivity|assumption|cbn; by rewrite L2|constructor; [apply I1|assumption]].
Qed.
Lemma new_inv fps : gcc_inv 0 (gcc_new fps).
Proof.
  split.
  - split; cbn; try lia. right. by vm_compute.
  - split; cbn; try lia; reflexivity.
  - split; cbn; try reflexivity; auto; discriminate.
  - by vm_compute.
Qed.

(** C22: The bandwidth estimator is total and its target is always usable.  For every
    sequence of fewer than 2^31 frames smaller than 2 GiB, whatever the doubles in it
    (NaN and infinities included, as far as the arrival times are within range),
    [Update] never panics, and every target is a number and not below the configured
    minimum of 10 Mb/s; the detector's threshold stays within [6, 600] unless it is
    NaN, its history within twenty samples, and the rate controller never rests in
    the state [kRcDecrease]. *)
Theorem gcc_total fps frames : Z.of_nat (length frames) ≤ 2 ^ 31 → Forall frame_ok frames →
  ∃ g targets, gcc_run frames (gcc_new fps) = Ret (g, targets) ∧ length targets = length frames ∧
    Forall at_least_min targets ∧ threshold_ok (threshold_ (trendline_manager g)) ∧
    (length (delay_hist_ (trendline_manager g)) ≤ GCC_WINDOW_SIZE)%nat ∧ rate_control_state_ (aimd_manager g) ≠ kRcDecrease.
Proof.
  intros Hl Hf. destruct (gcc_run_ok frames 0 _ (new_inv fps)) as (g & ts & E & [I1 I2 I3 I4] & L & F); [lia..|done|].
  exists g, ts. destruct I1, I3. split_and!; assumption.
Qed.
End run.

(** Reacting to congestion never raises the rate.  When the detector reports an
    over-use, [ChangeBitrate] returns, the new target is at most the current one and
    at least the configured minimum, and the controller then holds the rate. *)
Theorem overuse_never_raises powf input now a : aimd_inv a → at_least_min (current_bitrate_ a) → 0 ≤ now ≤ I64.MAX →
  bw_state input = kBwOverusing →
  ∃ a', ChangeBitrate powf input now a = Ret a' ∧ at_least_min (current_bitrate_ a') ∧
    le (current_bitrate_ a') (current_bitrate_ a) = true ∧ rate_control_state_ a' = kRcHold.
Proof.
  intros Hi Hc Hn Ho. destruct (change_ok powf input now a Hi Hn) as (a' & E & _ & H1 & H2 & _).
  destruct (H2 Ho Hc) as (? & ? & _). exists a'. auto.
Qed.
(** A target within the configured maximum stays there at every change of the
    bitrate, as long as the bound of the link capacity is a number. *)
Theorem target_keeps_maximum powf input now a : aimd_inv a → at_least_min (current_bitrate_ a) → 0 ≤ now ≤ I64.MAX →
  le (current_bitrate_ a) GCC_MAX_CONFIGURED_BITRATE = true →
  ∃ a', ChangeBitrate powf input now a = Ret a' ∧ (le zero (UpperBound (link_capacity_ a')) = true →
    le (current_bitrate_ a') GCC_MAX_CONFIGURED_BITRATE = true).
Proof.
  intros Hi Hc Hn Hm. destruct (change_ok powf input now a Hi Hn) as (a' & E & _ & _ & _ & H3). exists a'. auto.
Qed.
(** But the first throughput estimate is taken over unbounded: with an estimate of
    200 Mb/s, an over-use reported more than five seconds after the first estimate
    gives a target above the configured maximum of 100 Mb/s, and the following
    updates keep it there, since [ClampBitrate] applies the lower bound of the link
    capacity after the upper one. *)
Theorem target_above_maximum powf :
  let thr := of_Z 200000000 in
  ∃ a1 a2 a3 t1 t2 t3,
    aimd_Update powf (mkInput kBwNormal (Some thr)) 0 (aimd_new true (of_Z 90)) = Ret (a1, t1) ∧
    aimd_Update powf (mkInput kBwOverusing (Some thr)) 6000 a1 = Ret (a2, t2) ∧
    aimd_Update powf (mkInput kBwNormal (Some thr)) 6011 a2 = Ret (a3, t3) ∧
    as_i64 t1 = 100000000 ∧ 169000000 < as_i64 t2 ∧ 169000000 < as_i64 t3.
Proof.
  cbv zeta. eexists _, _, _, _, _, _. split; [vm_compute; reflexivity|]. split; [vm_compute; reflexivity|].
  split; [vm_compute; reflexivity|]. by vm_compute.
Qed.

(** ** Witnesses *)
Module GccDemo.
#[local] Instance Epoch_demo : Edca.Epoch mono := mono_of 0.
(** [f64::powf] is not called on these runs. *)
Definition no_powf (x y : f64) : f64 := nan.
(** Frames of 50 kB, 11 ms apart, the second with a NaN in its send time. *)
Definition demo_frame (n : Z) (send : f64) : Frame := mkFrame send (of_Z (1000000 + n * 11000)) 50000 (mono_of (10 ^ 9 + n * 11 * 10 ^ 6)).
Definition demo_frames : list Frame := [demo_frame 0 (of_Z 990000); demo_frame 1 nan; demo_frame 2 (of_Z 1010000)].
Lemma gcc_total_witness : ∃ g targets, gcc_run no_powf demo_frames (gcc_new (of_Z 90)) = Ret (g, targets) ∧
  length targets = length demo_frames ∧ Forall at_least_min targets ∧ threshold_ok (threshold_ (trendline_manager g)) ∧
  (length (delay_hist_ (trendline_manager g)) ≤ GCC_WINDOW_SIZE)%nat ∧ rate_control_state_ (aimd_manager g) ≠ kRcDecrease.
Proof. apply (gcc_total no_powf (of_Z 90) demo_frames); [cbn; lia|]. repeat constructor; by vm_compute. Defined.
Definition demo_aimd : AimdRateControl := aimd_new true (of_Z 90).
Lemma demo_aimd_inv : aimd_inv demo_aimd.
Proof. split; cbn; try reflexivity; auto; discriminate. Qed.
Lemma overuse_never_raises_witness : ∃ a', ChangeBitrate no_powf (mkInput kBwOverusing (Some (of_Z 50000000))) 1000 demo_aimd = Ret a' ∧
  at_least_min (current_bitrate_ a') ∧ le (current_bitrate_ a') (current_bitrate_ demo_aimd) = true ∧ rate_control_state_ a' = kRcHold.
Proof. apply (overuse_never_raises no_powf); [apply demo_aimd_inv|by vm_compute|by vm_compute|reflexivity]. Defined.
Lemma target_keeps_maximum_witness : ∃ a', ChangeBitrate no_powf (mkInput kBwOverusing (Some (of_Z 50000000))) 1000 demo_aimd = Ret a' ∧
  (le zero (UpperBound (link_capacity_ a')) = true → le (current_bitrate_ a') GCC_MAX_CONFIGURED_BITRATE = true).
Proof. apply (target_keeps_maximum no_powf); [apply demo_aimd_inv|by vm_compute..]. Defined.
(** The bound of the link capacity is a number there, and the target is 42.5 Mb/s. *)
Example demo_decrease : (λ a, (le zero (UpperBound (link_capacity_ a)), as_i64 (current_bitrate_ a))) <$>
  ChangeBitrate no_powf (mkInput kBwOverusing (Some (of_Z 50000000))) 1000 demo_aimd = Ret (true, 42500000).
Proof. vm_compute. reflexivity. Qed.
End GccDemo.
End GccFacts.
