(* ===== verification/Nada.v ===== *)
(** * NADA congestion control: [examples/lib/gcc_nada_estimator.rs], [nada_report.rs]

    The sender (reference rate, accelerated ramp-up and gradual update), the receiver
    (one-way delay, loss ratio, receive rate, reports on feedback and on a timer), the
    wire format of the timer report, and [SlidingWindowAverage] of [mod.rs].
    [f64::powi], whose precision the standard library leaves open, is a parameter; the
    wall clock that times the receive window of the published receiver is an argument.
    [write_sender_values_to_csv] and the reading of [XRSIM_NADA_FIX] are left out. *)

From Stdlib Require Import SpecFloat.
From S2P Require Import Prelude Scheduler F32 Airtime Edca F64Ops Gcc.

Module Nada.
Import F64 F64Ops.
#[local] Open Scope f64_scope.

(** ** [SlidingWindowAverage] *)
Section window.
Context {A : Type}.
Record SlidingWindowAverage := mkWindow { history_buffer : list A; max_history_size : nat }.
Implicit Types w : SlidingWindowAverage.
Definition window_new (initial_value : A) (max_history_size : nat) : SlidingWindowAverage := mkWindow [initial_value] max_history_size.
Definition clear w : SlidingWindowAverage := mkWindow [] (max_history_size w).
Definition submit_sample (sample : A) w : SlidingWindowAverage :=
  let h := if (max_history_size w <=? length (history_buffer w))%nat then tail (history_buffer w) else history_buffer w in
  mkWindow (h ++ [sample]) (max_history_size w).
Definition retain (count : nat) w : SlidingWindowAverage :=
  mkWindow (drop (length (history_buffer w) - count) (history_buffer w)) (max_history_size w).
Definition history_buffer_len w : nat := length (history_buffer w).
End window.
Arguments SlidingWindowAverage : clear implicits.
(** The average of integers; the sum may overflow. *)
Definition sum_i64 (l : list Z) : outcome Z := foldl (λ acc x, s ← acc; I64.add s x) (Ret 0) l.
Definition get_average (w : SlidingWindowAverage Z) : outcome f32 :=
  s ← sum_i64 (history_buffer w);
  Ret (F32.div (F32.of_Z s) (F32.of_Z (Z.of_nat (length (history_buffer w))))).

(** ** Constants *)
Definition RMCAT_CC_DEFAULT_RMIN : Z := as_i64 Gcc.GCC_MIN_CONFIGURED_BITRATE.
Definition RMCAT_CC_DEFAULT_RMAX : Z := as_i64 Gcc.GCC_MAX_CONFIGURED_BITRATE.
Definition NADA_INITIAL_RATE : Z := RMCAT_CC_DEFAULT_RMAX.
Definition NADA_PARAM_PRIO : f64 := of_Z 1.
Definition NADA_PARAM_XREF : Z := 20.
Definition NADA_PARAM_KAPPA : f64 := lit 5 10.
Definition NADA_PARAM_ETA : f64 := of_Z 2.
Definition NADA_PARAM_TAU : Z := 500.
Definition NADA_PARAM_DELTA : Z := 100.
Definition NADA_PARAM_DFILT : Z := 120.
Definition NADA_PARAM_LOGWIN : Z := 500.
Definition NADA_PARAM_QEPS_US : Z := 10000.
Definition NADA_PARAM_QTH : Z := 50.
Definition NADA_PARAM_QMAX : Z := 400.
Definition NADA_PARAM_DLOSS : Z := 10.
Definition NADA_PARAM_DLOSS_RFC_MS : f64 := of_Z 1000.
Definition NADA_PARAM_DMARK : Z := 200.
Definition NADA_PARAM_GAMMA_MAX : f64 := lit 5 10.
Definition NADA_PARAM_QBOUND : Z := 50.
Definition NADA_PARAM_BETA_S : f64 := lit 1 10.
Definition NADA_PARAM_BETA_V : f64 := lit 1 10.
Definition NADA_PARAM_ALPHA : f64 := lit 1 10.
Definition NADA_RTT_HISTORY_SIZE : nat := 15.

Record NADAFeedbackReport := mkReport {
  rp_rmode : Z;
  rp_x_curr : f64;
  rp_r_recv : Z;
  rp_d_queue : Z;
  rp_d_tilde : f64;
  rp_p_loss : f64
}.
Inductive RateUpdateMode := AcceleratedRampUp | GradualUpdate.

Section time.
Context {T : Type} `{TaiTime T} `{!Edca.Epoch T}.
(** [now.duration_since(TaiTime::EPOCH).as_micros() as i64] *)
Definition micros (now : T) : outcome Z :=
  if time_le Edca.EPOCH now then Ret (I64.cast ((nanos now - nanos Edca.EPOCH) / 1000)) else Panic.

(** ** The sender *)
Record NadaSender := mkSender {
  r_ref : Z;
  rtt_history : SlidingWindowAverage Z;
  r_recv : Z;
  rmode : RateUpdateMode;
  x_curr : f64;
  x_prev : f64;
  r_vin : Z;
  r_send : Z;
  prev_r_vin : Z;
  prev_r_send : Z;
  t_last : Z;
  t_curr : Z;
  d_queue : Z;
  d_tilde : f64;
  p_loss : f64
}.
Implicit Types s : NadaSender.
Definition sender_at (r t : Z) : NadaSender :=
  mkSender r (window_new 0 NADA_RTT_HISTORY_SIZE) r GradualUpdate zero zero r r r r t t 0 zero zero.
Definition sender_new (now : T) : outcome NadaSender := t ← micros now; Ret (sender_at NADA_INITIAL_RATE t).
Definition sender_new_at (now : T) (rate_bps : f64) : outcome NadaSender :=
  let r := clamp RMCAT_CC_DEFAULT_RMIN RMCAT_CC_DEFAULT_RMAX (as_i64 rate_bps) in
  t ← micros now; Ret (sender_at r t).
Definition update_accelerated_rampup s : outcome Z :=
  avg ← get_average (rtt_history s);
  let rtt_average_ms := F32.div avg (F32.of_Z 1000) in
  let res := of_Z NADA_PARAM_QBOUND ⊘ (of_f32 rtt_average_ms ⊕ of_Z NADA_PARAM_DELTA ⊕ of_Z NADA_PARAM_DFILT) in
  let gamma := if res ≺ NADA_PARAM_GAMMA_MAX then res else NADA_PARAM_GAMMA_MAX in
  Ret (if of_Z (r_ref s) ≻ (of_Z 1 ⊕ gamma) ⊗ of_Z (r_recv s) then r_ref s
       else round_i64 ((of_Z 1 ⊕ gamma) ⊗ of_Z (r_recv s))).
Definition update_gradual (delta_us : Z) s : Z :=
  let delta := of_Z delta_us ⊘ of_Z 1000 in
  let right_side := NADA_PARAM_PRIO ⊗ of_Z NADA_PARAM_XREF ⊗ of_Z RMCAT_CC_DEFAULT_RMAX ⊘ of_Z (r_ref s) in
  let x_offset := x_curr s ⊖ right_side in
  let x_diff := x_curr s ⊖ x_prev s in
  let tau := of_Z NADA_PARAM_TAU in
  round_i64 (of_Z (r_ref s) ⊖ NADA_PARAM_KAPPA ⊗ (delta ⊘ tau) ⊗ (x_offset ⊘ tau) ⊗ of_Z (r_ref s)
             ⊖ NADA_PARAM_KAPPA ⊗ NADA_PARAM_ETA ⊗ (x_diff ⊘ tau) ⊗ of_Z (r_ref s)).
(** The rates with a shaping buffer; [update_on_receive_feedback] does not use one. *)
Definition shaping_buffer (buffer_len : f64) : f64 :=
  if eqb buffer_len zero then of_Z RMCAT_CC_DEFAULT_RMAX ⊘ of_Z 8 ⊘ of_Z 1500 else buffer_len.
Definition set_sender_rates (vin send prev_vin prev_send : Z) s : NadaSender :=
  mkSender (r_ref s) (rtt_history s) (r_recv s) (rmode s) (x_curr s) (x_prev s) vin send prev_vin prev_send (t_last s) (t_curr s)
    (d_queue s) (d_tilde s) (p_loss s).
Definition update_target_bitrate (buffer_len video_fps : f64) s : NadaSender :=
  let r_diff_v := F64Ops.min (of_Z (r_ref s) ⊗ lit 5 100) (NADA_PARAM_BETA_V ⊗ of_Z 8 ⊗ shaping_buffer buffer_len ⊗ video_fps) in
  set_sender_rates (Z.max RMCAT_CC_DEFAULT_RMIN (round_i64 (of_Z (r_ref s) ⊖ r_diff_v))) (r_send s) (r_vin s) (prev_r_send s) s.
Definition update_sending_bitrate (buffer_len video_fps : f64) s : NadaSender :=
  let r_diff_s := F64Ops.min (of_Z (r_ref s) ⊗ lit 5 100) (NADA_PARAM_BETA_S ⊗ of_Z 8 ⊗ shaping_buffer buffer_len ⊗ video_fps) in
  set_sender_rates (r_vin s) (Z.min RMCAT_CC_DEFAULT_RMAX (round_i64 (of_Z (r_ref s) ⊕ r_diff_s))) (prev_r_vin s) (prev_r_send s) s.
Definition update_on_receive_feedback (now : T) (send_timestamp : Z) (report : NADAFeedbackReport) (video_fps : f64) s
    : outcome NadaSender :=
  t ← micros now;
  let mode := if rp_rmode report =? 0 then AcceleratedRampUp else GradualUpdate in
  rtt ← I64.sub t send_timestamp;
  let s := mkSender (r_ref s) (submit_sample rtt (rtt_history s)) (rp_r_recv report) mode (rp_x_curr report) (x_prev s) (r_vin s)
             (r_send s) (prev_r_vin s) (prev_r_send s) (t_last s) t (rp_d_queue report) (rp_d_tilde report) (p_loss s) in
  delta_us ← I64.sub t (t_last s);
  updated ← match mode with AcceleratedRampUp => update_accelerated_rampup s | GradualUpdate => Ret (update_gradual delta_us s) end;
  let r := clamp RMCAT_CC_DEFAULT_RMIN RMCAT_CC_DEFAULT_RMAX updated in
  Ret (mkSender r (rtt_history s) (r_recv s) mode (x_curr s) (x_curr s) r r (r_vin s) (r_send s) t t (d_queue s) (d_tilde s) (p_loss s)).
Definition update_on_timer_feedback (now : T) (report : NADAFeedbackReport) (video_fps : f64) s : outcome NadaSender :=
  t ← micros now;
  avg ← get_average (rtt_history s);
  sent ← I64.sub t (as_i64 avg);
  update_on_receive_feedback now sent report video_fps s.
Definition get_target_bitrate s : Z := r_vin s.
Definition get_sending_bitrate s : Z := r_send s.
End time.

(** ** The receiver *)
Record NadaReceiver := mkReceiver {
  rc_d_base : Z;
  rc_d_tilde : f64;
  rc_d_queue : Z;
  rc_p_loss : f64;
  rc_p_mark : f64;
  rc_r_recv : Z;
  rc_t_last : Z;
  d_queue_history : SlidingWindowAverage Z;
  rc_x_curr : f64;
  rc_rmode : RateUpdateMode;
  last_t_send : Z;
  last_t_arrival : Z;
  total_received_bytes : Z;
  total_num_packets : Z;
  total_packets_lost : Z;
  receive_rate_timer : Z;
  rate_window_t0_us : Z;
  last_loss_us : option Z;
  iv_frames : Z;
  iv_losses : Z;
  seen_frame : bool;
  last_shards : Z;
  report_seq : Z
}.
Implicit Types r : NadaReceiver.
(** [wall]: the instant of construction. *)
Definition receiver_new (wall : Z) : NadaReceiver :=
  mkReceiver I64.MAX zero 0 zero zero 0 0 (window_new 0 15) zero GradualUpdate 0 0 0 0 0 wall 0 None 0 0 false 0 0.
(** Assignments to groups of fields. *)
Definition set_delay (base queue : Z) (hist : SlidingWindowAverage Z) (sent arrived : Z) r : NadaReceiver :=
  mkReceiver base (rc_d_tilde r) queue (rc_p_loss r) (rc_p_mark r) (rc_r_recv r) (rc_t_last r) hist (rc_x_curr r) (rc_rmode r) sent arrived
    (total_received_bytes r) (total_num_packets r) (total_packets_lost r) (receive_rate_timer r) (rate_window_t0_us r) (last_loss_us r)
    (iv_frames r) (iv_losses r) (seen_frame r) (last_shards r) (report_seq r).
Definition set_signal (tilde x mark : f64) (mode : RateUpdateMode) r : NadaReceiver :=
  mkReceiver (rc_d_base r) tilde (rc_d_queue r) (rc_p_loss r) mark (rc_r_recv r) (rc_t_last r) (d_queue_history r) x mode (last_t_send r)
    (last_t_arrival r) (total_received_bytes r) (total_num_packets r) (total_packets_lost r) (receive_rate_timer r) (rate_window_t0_us r)
    (last_loss_us r) (iv_frames r) (iv_losses r) (seen_frame r) (last_shards r) (report_seq r).
Definition set_totals (bytes packets lost : Z) (loss_us : option Z) (frames losses : Z) (seen : bool) (shards : Z) r : NadaReceiver :=
  mkReceiver (rc_d_base r) (rc_d_tilde r) (rc_d_queue r) (rc_p_loss r) (rc_p_mark r) (rc_r_recv r) (rc_t_last r) (d_queue_history r)
    (rc_x_curr r) (rc_rmode r) (last_t_send r) (last_t_arrival r) bytes packets lost (receive_rate_timer r) (rate_window_t0_us r) loss_us
    frames losses seen shards (report_seq r).
Definition set_rate (loss : f64) (recv t : Z) (timer t0 seq : Z) r : NadaReceiver :=
  mkReceiver (rc_d_base r) (rc_d_tilde r) (rc_d_queue r) loss (rc_p_mark r) recv t (d_queue_history r)
    (rc_x_curr r) (rc_rmode r) (last_t_send r) (last_t_arrival r) (total_received_bytes r) (total_num_packets r) (total_packets_lost r)
    timer t0 (last_loss_us r) (iv_frames r) (iv_losses r) (seen_frame r) (last_shards r) seq.

Definition compute_oneway_delay (send_us arrival_us : Z) r : outcome NadaReceiver :=
  d_fwd ← I64.sub arrival_us send_us;
  let base := Z.min (rc_d_base r) d_fwd in
  queue ← I64.sub d_fwd base;
  Ret (set_delay base queue (submit_sample queue (d_queue_history r)) send_us arrival_us r).
(** [i64::pow(4)] *)
Definition pow4 (z : Z) : outcome Z := I64.check (z ^ 4).
Definition compute_d_tilde (had_packet_loss : bool) r : outcome f64 :=
  if had_packet_loss then
    if rc_d_queue r <? NADA_PARAM_QTH then Ret (of_Z (rc_d_queue r))
    else if (NADA_PARAM_QTH <? rc_d_queue r) && (rc_d_queue r <? NADA_PARAM_QMAX) then
      numerator ← pow4 (NADA_PARAM_QTH - rc_d_queue r);
      denominator ← pow4 (NADA_PARAM_QMAX - NADA_PARAM_QTH);
      Ret (of_Z NADA_PARAM_QTH ⊗ of_Z (Z.quot numerator denominator))
    else Ret zero
  else Ret (rc_d_tilde r).
Definition exists_queuing_delay_buildup r : bool := existsb (λ v, NADA_PARAM_QEPS_US <? v) (history_buffer (d_queue_history r)).
Definition determine_rate_adaptation_mode (had_packet_loss : bool) r : RateUpdateMode :=
  if had_packet_loss || exists_queuing_delay_buildup r then GradualUpdate else AcceleratedRampUp.
(** [v as f32 as f64 / 1000.0] of the average queueing delay *)
Definition average_delay_ms r : outcome f64 := avg ← get_average (d_queue_history r); Ret (of_f32 avg ⊘ of_Z 1000).

Section receiver_time.
Context {T : Type} `{TaiTime T} `{!Edca.Epoch T}.
Definition time_to_report_feedback (now : T) (had_packet_loss had_packet_mark : bool) r : outcome (NadaReceiver * bool) :=
  t_curr ← micros now;
  dt ← I64.sub t_curr (rc_t_last r);
  if NADA_PARAM_DELTA <? Z.quot dt 1000 then
    avg ← average_delay_ms r;
    let r1 := set_signal avg (rc_x_curr r) (rc_p_mark r) (rc_rmode r) r in
    tilde ← (if had_packet_loss then compute_d_tilde had_packet_loss r1 else Ret avg);
    let mark := if had_packet_mark then rc_p_mark r ⊕ of_Z 1 else rc_p_mark r in
    let x := tilde ⊕ mark ⊗ of_Z NADA_PARAM_DMARK ⊕ rc_p_loss r ⊗ of_Z NADA_PARAM_DLOSS in
    Ret (set_signal tilde x mark (determine_rate_adaptation_mode had_packet_loss r) r, true)
  else Ret (r, false).
Definition update_t_last (now : T) r : outcome NadaReceiver :=
  t ← micros now; Ret (set_rate (rc_p_loss r) (rc_r_recv r) t (receive_rate_timer r) (rate_window_t0_us r) (report_seq r) r).
End receiver_time.

Definition add_u32 (a b : Z) : outcome Z := if a + b <=? U32_MAX then Ret (a + b) else Panic.
Definition mul_u32 (a b : Z) : outcome Z := if a * b <=? U32_MAX then Ret (a * b) else Panic.
Definition add_usize (a b : Z) : outcome Z := if a + b <=? U64_MAX then Ret (a + b) else Panic.
Definition mul_usize (a b : Z) : outcome Z := if a * b <=? U64_MAX then Ret (a * b) else Panic.
Definition record_lost_shards (lost expected now_us : Z) r : outcome NadaReceiver :=
  l ← add_u32 (total_packets_lost r) (wrap 32 lost);
  n ← add_u32 (total_num_packets r) (wrap 32 expected);
  k ← add_u32 (iv_losses r) 1;
  Ret (set_totals (total_received_bytes r) n l (if 0 <? lost then Some now_us else last_loss_us r) (iv_frames r) k (seen_frame r)
         (last_shards r) r).
(** The payload with its two timestamps, a [Duration] and an [i64]. *)
Definition frame_bytes (received_bytes : Z) : outcome Z := b ← add_usize received_bytes 16; add_usize b 8.
Definition accumulate_frame (received_bytes shards : Z) r : outcome NadaReceiver :=
  b ← frame_bytes received_bytes;
  b ← add_usize (total_received_bytes r) b;
  n ← add_u32 (total_num_packets r) shards;
  k ← add_u32 (iv_frames r) 1;
  Ret (set_totals b n (total_packets_lost r) (last_loss_us r) k (iv_losses r) true shards r).

(** The instantaneous loss ratio and its exponential smoothing. *)
Definition p_inst r : f64 :=
  if 0 <? total_num_packets r then of_Z (total_packets_lost r) ⊘ of_Z (total_num_packets r) else zero.
Definition smooth_loss r : f64 := NADA_PARAM_ALPHA ⊗ p_inst r ⊕ (of_Z 1 ⊖ NADA_PARAM_ALPHA) ⊗ rc_p_loss r.

Section powi.
Context (powi : f64 → Z → f64).
Definition warp_rfc (d_queue_ms : f64) : f64 :=
  let qth := of_Z NADA_PARAM_QTH in
  let qmax := of_Z NADA_PARAM_QMAX in
  if d_queue_ms ≺ qth then d_queue_ms
  else if d_queue_ms ≺ qmax then qth ⊗ powi ((qmax ⊖ d_queue_ms) ⊘ (qmax ⊖ qth)) 4
  else zero.
(** Frames that were due in an interval in which nothing arrived are lost. *)
Definition silent_interval (now_us : Z) (fps : f64) (interval_us : Z) r : outcome NadaReceiver :=
  if (iv_frames r =? 0) && (iv_losses r =? 0) && seen_frame r then
    let due := floor_u32 (of_Z interval_us ⊗ fps ⊘ of_Z 1000000) in
    if 0 <? due then
      m ← mul_u32 due (last_shards r);
      l ← add_u32 (total_packets_lost r) m;
      n ← add_u32 (total_num_packets r) m;
      Ret (set_totals (total_received_bytes r) n l (Some now_us) (iv_frames r) (iv_losses r) (seen_frame r) (last_shards r) r)
    else Ret r
  else Ret r.
Definition timer_report (now_us : Z) (fps : f64) r : outcome (NadaReceiver * option (Z * f64 * Z * f64 * f64 * Z)) :=
  interval_us ← I64.sub now_us (rc_t_last r);
  if Z.quot interval_us 1000 <=? NADA_PARAM_DELTA then Ret (r, None)
  else
    r ← silent_interval now_us fps interval_us r;
    bits ← mul_usize (total_received_bytes r) 8;
    let recv := round_i64 (of_Z bits ⊘ (of_Z interval_us ⊘ of_Z 1000000)) in
    let loss := smooth_loss r in
    had_packet_loss ← match last_loss_us r with
                      | Some t => d ← I64.sub now_us t; Ret (d <? NADA_PARAM_LOGWIN * 1000)
                      | None => Ret false
                      end;
    d_queue_ms ← average_delay_ms r;
    let tilde := if had_packet_loss : bool then warp_rfc d_queue_ms else d_queue_ms in
    let x := tilde ⊕ rc_p_mark r ⊗ of_Z NADA_PARAM_DMARK ⊕ loss ⊗ NADA_PARAM_DLOSS_RFC_MS in
    let mode := determine_rate_adaptation_mode had_packet_loss r in
    seq ← add_u32 (report_seq r) 1;
    let r := set_totals 0 0 0 (last_loss_us r) 0 0 (seen_frame r) (last_shards r) r in
    let r := set_rate loss recv now_us (receive_rate_timer r) (rate_window_t0_us r) seq r in
    let r := set_signal tilde x (rc_p_mark r) mode r in
    Ret (r, Some (match mode with AcceleratedRampUp => 0 | GradualUpdate => 1 end, x, recv, loss, tilde, rc_d_queue r)).
End powi.

(** The receive rate over a window of the wall clock ([None]; [elapsed] is read before and
    [restart] after the test, in nanoseconds) or of the session clock. *)
Definition update_receive (elapsed restart : Z) (received_bytes num_packets : Z) (session_us : option Z) r : outcome NadaReceiver :=
  b ← frame_bytes received_bytes;
  b ← add_usize (total_received_bytes r) b;
  l ← add_u32 (total_packets_lost r) 0;
  n ← add_u32 (total_num_packets r) num_packets;
  let r := set_totals b n l (last_loss_us r) (iv_frames r) (iv_losses r) (seen_frame r) (last_shards r) r in
  window_over ← match session_us with
                | None => Ret (NADA_PARAM_LOGWIN * 10 ^ 6 <=? elapsed - receive_rate_timer r)
                | Some t => d ← I64.sub t (rate_window_t0_us r); Ret (NADA_PARAM_LOGWIN * 1000 <=? d)
                end;
  if window_over : bool then
    let interval_in_sec := of_Z NADA_PARAM_LOGWIN ⊘ of_Z 1000 in
    bits ← mul_usize b 8;
    let recv := round_i64 (of_Z bits ⊘ interval_in_sec) in
    let loss := smooth_loss r in
    let r := set_rate loss recv (rc_t_last r)
               (match session_us with None => restart | Some _ => receive_rate_timer r end)
               (match session_us with None => rate_window_t0_us r | Some t => t end) (report_seq r) r in
    Ret (set_totals 0 0 0 (last_loss_us r) (iv_frames r) (iv_losses r) (seen_frame r) (last_shards r) r)
  else Ret r.
Definition update_receive_loss_rate_shards (received_bytes shards now_us : Z) r : outcome NadaReceiver :=
  update_receive 0 0 received_bytes shards (Some now_us) r.
Definition update_receive_loss_rate (elapsed restart received_bytes : Z) r : outcome NadaReceiver :=
  update_receive elapsed restart received_bytes (ceil_u32 (F32.div (F32.of_Z received_bytes) (F32.of_Z 1500))) None r.

(** ** The timer report on the wire: [nada_report.rs] *)
Definition MAGIC : list Z := [78; 65; 68; 50].
Definition LEN : nat := 49.
Record NadaTimerReport := mkTimerReport {
  nr_seq : Z;
  nr_xcurr : f64;
  nr_rmode : Z;
  nr_recv : Z;
  nr_plr : f64;
  nr_d_tilde : f64;
  nr_d_queue : Z
}.
Fixpoint le_bytes (n : nat) (z : Z) : list Z :=
  match n with O => [] | S n => z `mod` 256 :: le_bytes n (z / 256) end.
Fixpoint from_le (l : list Z) : Z := match l with [] => 0 | b :: l => b + 256 * from_le l end.
Definition as_i8 (b : Z) : Z := if b <? 128 then b else b - 256.
Definition encode (p : NadaTimerReport) : list Z :=
  MAGIC ++ le_bytes 4 (nr_seq p) ++ le_bytes 8 (to_bits (nr_xcurr p)) ++ [wrap 8 (nr_rmode p)] ++
  le_bytes 8 (wrap 64 (nr_recv p)) ++ le_bytes 8 (to_bits (nr_plr p)) ++ le_bytes 8 (to_bits (nr_d_tilde p)) ++
  le_bytes 8 (wrap 64 (nr_d_queue p)).
Definition range (a b : nat) (l : list Z) : list Z := take (b - a) (drop a l).
Definition decode (b : list Z) : option NadaTimerReport :=
  if (length b <? LEN)%nat || negb (bool_decide (range 0 4 b = MAGIC)) then None
  else Some (mkTimerReport (from_le (range 4 8 b)) (of_bits (from_le (range 8 16 b))) (as_i8 (from_le (range 16 17 b)))
               (I64.cast (from_le (range 17 25 b))) (of_bits (from_le (range 25 33 b))) (of_bits (from_le (range 33 41 b)))
               (I64.cast (from_le (range 41 49 b)))).
Example a_report_round_trips_and_zeros_are_none :
  let p := mkTimerReport 7 (lit 125 10) 1 61000000 (lit 1 100) (lit 25 10) 3000 in
  decode (encode p ++ replicate 71 0) = Some p ∧ decode (replicate 120 0) = None ∧ decode (take 48 (encode p)) = None.
Proof. vm_compute. done. Qed.
End Nada.
