(* ===== verification/NadaFacts.v ===== *)
(** * The NADA sender and receiver

    [nada_sender_bounds]: whatever the reports, the sender's rates are within the
    configured range and nothing overflows.  [oneway_delay_exact]: the receiver's
    baseline is the least delay seen, and its window holds the last queueing delays.
    [loss_hides_delay]: with a loss, the published receiver takes the delay as zero.
    [timer_reports_spaced]: when the timer reports.  [timer_report_roundtrip]: the
    report that is decoded is the one that was encoded. *)

From Stdlib Require Import SpecFloat.
From S2P Require Import Prelude Scheduler SeqExecutor F32 Airtime Edca F64Ops Gcc Nada.

Module NadaFacts.
Import F64 F64Ops Nada.

(** ** The window *)
Lemma tail_drop_S {A} (l : list A) n : tail (drop n l) = drop (S n) l.
Proof. revert n. induction l as [|x l IH]; intros [|n]; try done. apply IH. Qed.
Lemma submit_last {A} (x : A) (w : SlidingWindowAverage A) l : (1 ≤ max_history_size w)%nat →
  history_buffer w = drop (length l - max_history_size w) l →
  history_buffer (submit_sample x w) = drop (length (l ++ [x]) - max_history_size w) (l ++ [x]).
Proof.
  intros Hm E. unfold submit_sample. cbn [history_buffer]. rewrite E, length_drop, length_app. cbn [length].
  destruct (Nat.leb_spec (max_history_size w) (length l - (length l - max_history_size w))) as [Hl|Hl].
  - rewrite drop_app_le by lia. f_equal. rewrite tail_drop_S. f_equal. lia.
  - rewrite drop_app_le by lia. f_equal. replace (length l - max_history_size w)%nat with 0%nat by lia.
    by replace (length l + 1 - max_history_size w)%nat with 0%nat by lia.
Qed.
(** The sum of a window of small numbers does not overflow. *)
Lemma sum_i64_acc l : ∀ acc B, 0 ≤ B → Forall (λ x, - B ≤ x ≤ B) l → - B * (15 - Z.of_nat (length l)) ≤ acc ≤ B * (15 - Z.of_nat (length l)) →
  B ≤ 2 ^ 58 → (length l ≤ 15)%nat → ∃ s, foldl (λ acc x, s ← acc; I64.add s x) (Ret acc) l = Ret s.
Proof.
  induction l as [|x l IH]; intros acc B HB Hl Ha HB2 Hlen; cbn [foldl]; [by eexists|].
  apply Forall_cons in Hl as [Hx Hl]. cbn [length] in *. ret_step. unfold I64.add.
  rewrite I64.check_Ret by (unfold I64.MIN, I64.MAX; nia). apply (IH _ B); [done..| |done|lia]. nia.
Qed.
Lemma average_ok w B : 0 ≤ B ≤ 2 ^ 58 → Forall (λ x, - B ≤ x ≤ B) (history_buffer w) → (length (history_buffer w) ≤ 15)%nat →
  ∃ v, get_average w = Ret v.
Proof.
  intros HB Hl Hlen. unfold get_average, sum_i64. destruct (sum_i64_acc (history_buffer w) 0 B) as [s Es]; [lia|done|nia|lia|done|].
  rewrite Es. by eexists.
Qed.
Lemma submit_bounded (x : Z) w B : - B ≤ x ≤ B → Forall (λ x, - B ≤ x ≤ B) (history_buffer w) →
  Forall (λ x, - B ≤ x ≤ B) (history_buffer (submit_sample x w)).
Proof.
  intros Hx Hl. unfold submit_sample. cbn [history_buffer]. apply Forall_app. split; [|by constructor].
  destruct (_ <=? _)%nat; [|done]. destruct Hl; [constructor|done].
Qed.
Lemma submit_length {A} (x : A) w : (1 ≤ max_history_size w)%nat → (length (history_buffer w) ≤ max_history_size w)%nat →
  (length (history_buffer (submit_sample x w)) ≤ max_history_size w)%nat.
Proof.
  intros Hm Hl. unfold submit_sample. cbn [history_buffer]. rewrite length_app. cbn [length].
  destruct (Nat.leb_spec (max_history_size w) (length (history_buffer w))); [|lia].
  destruct (history_buffer w); cbn in *; lia.
Qed.

(** ** The sender *)
Section sender.
Context {T : Type} `{TaiTime T} `{!Edca.Epoch T}.
Abbreviation B := (2 ^ 58).
Definition in_time (now : T) : Prop := 0 ≤ nanos now - nanos Edca.EPOCH ≤ B * 1000.
Lemma micros_ok now : in_time now → ∃ t, micros now = Ret t ∧ 0 ≤ t ≤ B.
Proof.
  intros [Hlo Hhi]. unfold micros. rewrite (proj2 (time_le_spec Edca.EPOCH now)) by lia. eexists. split; [done|].
  assert (0 ≤ (nanos now - nanos Edca.EPOCH) / 1000 ≤ B) as Hm by (split; [apply Z.div_pos; lia|apply Z.div_le_upper_bound; lia]).
  rewrite I64.cast_id by (unfold I64.MIN, I64.MAX; lia). done.
Qed.
Definition rate_ok (r : Z) : Prop := RMCAT_CC_DEFAULT_RMIN ≤ r ≤ RMCAT_CC_DEFAULT_RMAX.
Record sender_inv (s : NadaSender) : Prop := {
  si_ref : rate_ok (r_ref s);
  si_vin : r_vin s = r_ref s;
  si_send : r_send s = r_ref s;
  si_size : max_history_size (rtt_history s) = NADA_RTT_HISTORY_SIZE;
  si_len : (length (history_buffer (rtt_history s)) ≤ 15)%nat;
  si_rtts : Forall (λ x, - B ≤ x ≤ B) (history_buffer (rtt_history s));
  si_last : 0 ≤ t_last s ≤ B
}.
Lemma clamp_rate z : rate_ok (clamp RMCAT_CC_DEFAULT_RMIN RMCAT_CC_DEFAULT_RMAX z).
Proof. apply clamp_range. by vm_compute. Qed.
Lemma sender_at_inv r t : rate_ok r → 0 ≤ t ≤ B → sender_inv (sender_at r t).
Proof. intros Hr Ht. split; cbn; try done; [lia|]. repeat constructor; lia. Qed.
Lemma feedback_ok now sent rp fps s : sender_inv s → in_time now → 0 ≤ sent ≤ B →
  ∃ s', update_on_receive_feedback now sent rp fps s = Ret s' ∧ sender_inv s'.
Proof.
  intros [I1 I2 I3 I4 I5 I6 I7] Hn Hs. unfold update_on_receive_feedback. destruct (micros_ok now Hn) as (t & -> & Ht).
  ret_step. unfold I64.sub. rewrite (I64.check_Ret (t - sent)) by (unfold I64.MIN, I64.MAX; lia).
  ret_step. cbn [t_last]. rewrite I64.check_Ret by (unfold I64.MIN, I64.MAX; lia). ret_step.
  assert (Forall (λ x, - B ≤ x ≤ B) (history_buffer (submit_sample (t - sent) (rtt_history s)))) as H6 by (apply submit_bounded; [lia|done]).
  assert (length (history_buffer (submit_sample (t - sent)%Z (rtt_history s))) ≤ 15)%nat as H5.
  { pose proof (submit_length (t - sent) (rtt_history s)) as Hl. rewrite I4 in Hl. unfold NADA_RTT_HISTORY_SIZE in Hl. lia. }
  destruct (rp_rmode rp =? 0).
  - unfold update_accelerated_rampup. cbn [rtt_history].
    destruct (average_ok (submit_sample (t - sent) (rtt_history s)) B) as [v ->]; [lia|done..|]. ret_step.
    eexists. split; [reflexivity|].
    split; [apply clamp_rate|reflexivity|reflexivity|exact I4|exact H5|exact H6|exact Ht].
  - ret_step. eexists. split; [reflexivity|].
    split; [apply clamp_rate|reflexivity|reflexivity|exact I4|exact H5|exact H6|exact Ht].
Qed.

(** Reports, with the time they arrive and the time stamp they echo. *)
Record Feedback := mkFeedback { fb_now : T; fb_sent : Z; fb_report : NADAFeedbackReport; fb_fps : f64 }.
Fixpoint sender_run (fs : list Feedback) (s : NadaSender) : outcome NadaSender :=
  match fs with
  | [] => Ret s
  | f :: fs => s ← update_on_receive_feedback (fb_now f) (fb_sent f) (fb_report f) (fb_fps f) s; sender_run fs s
  end.
Definition feedback_in_time (f : Feedback) : Prop := in_time (fb_now f) ∧ 0 ≤ fb_sent f ≤ B.
Lemma sender_run_ok fs : ∀ s, sender_inv s → Forall feedback_in_time fs → ∃ s', sender_run fs s = Ret s' ∧ sender_inv s'.
Proof.
  induction fs as [|f fs IH]; intros s Hi Hf; [by eexists|]. apply Forall_cons in Hf as [[Hn Hs] Hfs]. cbn [sender_run].
  destruct (feedback_ok (fb_now f) (fb_sent f) (fb_report f) (fb_fps f) s Hi Hn Hs) as (s1 & -> & I1). by apply IH.
Qed.
(** C34: The sender's rates stay within the configured range.  Started at any rate
    (NaN included) and fed any sequence of reports (whatever the mode, the doubles and
    the receive rate in them) with times within 2^58 microseconds of the epoch, the
    sender never panics, and its reference rate, which is also the encoder's target
    and the sending rate, is between the minimum and the maximum; its window of
    round-trip times holds at most fifteen. *)
Theorem nada_sender_bounds now rate fs : in_time now → Forall feedback_in_time fs →
  ∃ s0 s, sender_new_at now rate = Ret s0 ∧ sender_run fs s0 = Ret s ∧ rate_ok (r_ref s) ∧
    get_target_bitrate s = r_ref s ∧ get_sending_bitrate s = r_ref s ∧ (length (history_buffer (rtt_history s)) ≤ 15)%nat.
Proof.
  intros Hn Hf. unfold sender_new_at. destruct (micros_ok now Hn) as (t & -> & Ht). ret_step.
  destruct (sender_run_ok fs (sender_at (clamp RMCAT_CC_DEFAULT_RMIN RMCAT_CC_DEFAULT_RMAX (as_i64 rate)) t)) as (s & E & [I1 I2 I3 I4 I5 I6 I7]);
    [apply sender_at_inv; [apply clamp_rate|done]|done|].
  eexists _, s. split_and!; [reflexivity|done..].
Qed.
End sender.

(** ** The receiver *)
(** The delays measured by a sequence of frames, given by their two time stamps. *)
Fixpoint delay_run (fs : list (Z * Z)) (r : NadaReceiver) : outcome NadaReceiver :=
  match fs with
  | [] => Ret r
  | (sent, arrived) :: fs => r ← compute_oneway_delay sent arrived r; delay_run fs r
  end.
(** The queueing delays as the definition says: over the least delay so far. *)
Fixpoint queueing (base : Z) (ds : list Z) : list Z :=
  match ds with [] => [] | d :: ds => d - Z.min base d :: queueing (Z.min base d) ds end.
Definition delays (fs : list (Z * Z)) : list Z := (λ p, p.2 - p.1) <$> fs.
Lemma delay_run_ok fs : ∀ r l, Forall (λ p, 0 ≤ p.1 ≤ 2 ^ 61 ∧ 0 ≤ p.2 ≤ 2 ^ 61) fs → - 2 ^ 61 ≤ rc_d_base r ≤ I64.MAX →
  max_history_size (d_queue_history r) = 15%nat → history_buffer (d_queue_history r) = drop (length l - 15) l →
  ∃ r', delay_run fs r = Ret r' ∧ rc_d_base r' = foldl Z.min (rc_d_base r) (delays fs) ∧
    history_buffer (d_queue_history r') = drop (length (l ++ queueing (rc_d_base r) (delays fs)) - 15) (l ++ queueing (rc_d_base r) (delays fs)) ∧
    rc_d_queue r' = List.last (queueing (rc_d_base r) (delays fs)) (rc_d_queue r).
Proof.
  induction fs as [|[sent arrived] fs IH]; intros r l Hf Hb Hm Hh; cbn [delay_run delays fmap list_fmap queueing foldl].
  - exists r. rewrite app_nil_r. split_and!; done.
  - apply Forall_cons in Hf as [[H1 H2] Hf]. cbn [fst snd] in *. unfold compute_oneway_delay, I64.sub.
    rewrite (I64.check_Ret (arrived - sent)) by (unfold I64.MIN, I64.MAX; lia). ret_step.
    rewrite I64.check_Ret by (unfold I64.MIN, I64.MAX in *; lia). ret_step.
    set (d := arrived - sent) in *. set (b := Z.min (rc_d_base r) d).
    destruct (IH (set_delay b (d - b) (submit_sample (d - b) (d_queue_history r)) sent arrived r) (l ++ [d - b])) as (r' & E & E1 & E2 & E3).
    + done.
    + cbn. unfold I64.MAX, b, d in *. lia.
    + done.
    + cbn [d_queue_history set_delay]. rewrite (submit_last _ _ l), Hm; [done|lia|by rewrite Hm].
    + exists r'. split; [done|]. cbn in E1, E2, E3. rewrite <-app_assoc in E2. split_and!; [done..|].
      rewrite E3. destruct (queueing b (delays fs)) as [|x q] eqn:Eq; unfold delays in Eq; rewrite Eq; [done|].
      cbn. clear. revert x. induction q as [|y q IHq]; intros x; [done|]. apply IHq.
Qed.
Lemma queueing_nonneg ds : ∀ b, Forall (λ q, 0 ≤ q) (queueing b ds).
Proof. induction ds as [|d ds IH]; intros b; cbn; constructor; [lia|apply IH]. Qed.
(** The receiver's delay estimates are exact.  After any sequence of frames with
    time stamps up to 2^61 microseconds, the baseline is the least one-way delay seen,
    the queueing delay is the last delay less the least so far and is not negative, and
    the window holds exactly the last fifteen of the queueing delays, counting the
    initial zero. *)
Theorem oneway_delay_exact wall fs : Forall (λ p, 0 ≤ p.1 ≤ 2 ^ 61 ∧ 0 ≤ p.2 ≤ 2 ^ 61) fs →
  ∃ r, delay_run fs (receiver_new wall) = Ret r ∧ rc_d_base r = foldl Z.min I64.MAX (delays fs) ∧
    (let q := 0 :: queueing I64.MAX (delays fs) in
     history_buffer (d_queue_history r) = drop (length q - 15) q ∧ rc_d_queue r = List.last q 0 ∧ Forall (λ x, 0 ≤ x) q).
Proof.
  intros Hf. destruct (delay_run_ok fs (receiver_new wall) [0] Hf) as (r & E & E1 & E2 & E3); [by vm_compute|done..|].
  exists r. split; [done|]. split; [done|]. split; [done|]. split.
  - rewrite E3. cbn [receiver_new rc_d_base rc_d_queue]. destruct (queueing I64.MAX (delays fs)); done.
  - constructor; [lia|apply queueing_nonneg].
Qed.
(** With a loss the published receiver disregards the delay: a queueing delay of
    50 microseconds or more counts as no delay at all, since the thresholds of 50 and
    400 milliseconds are compared with microseconds and the quotient of fourth powers is
    one of integers. *)
Theorem loss_hides_delay r : 0 ≤ rc_d_queue r →
  compute_d_tilde true r = Ret (if rc_d_queue r <? 50 then of_Z (rc_d_queue r) else zero).
Proof.
  intros Hd. unfold compute_d_tilde, NADA_PARAM_QTH, NADA_PARAM_QMAX. destruct (Z.ltb_spec (rc_d_queue r) 50); [done|].
  destruct (Z.ltb_spec 50 (rc_d_queue r)), (Z.ltb_spec (rc_d_queue r) 400); cbn [andb]; try done.
  assert (0 ≤ (50 - rc_d_queue r) ^ 4 < 350 ^ 4) as Hp.
  { replace ((50 - rc_d_queue r) ^ 4) with ((rc_d_queue r - 50) ^ 4) by ring. split; [apply Z.pow_nonneg; lia|].
    apply Z.pow_lt_mono_l; lia. }
  unfold pow4. rewrite !I64.check_Ret by (unfold I64.MIN, I64.MAX; lia). ret_step.
  rewrite Z.quot_small by lia. by vm_compute.
Qed.

(** ** Reports on the timer *)
(** Within the ranges that the counters have between two reports: the frames due in a
    silent interval number at most four million, of at most a thousand shards each. *)
Record timer_ready (now : Z) (fps : f64) (r : NadaReceiver) : Prop := {
  tr_time : 0 ≤ rc_t_last r ≤ now ∧ now ≤ 2 ^ 61;
  tr_bytes : 0 ≤ total_received_bytes r ≤ 2 ^ 60;
  tr_packets : 0 ≤ total_num_packets r ≤ 2 * 10 ^ 8;
  tr_lost : 0 ≤ total_packets_lost r ≤ 2 * 10 ^ 8;
  tr_due : floor_u32 (of_Z (now - rc_t_last r) ⊗ fps ⊘ of_Z 1000000)%f64 ≤ 4 * 10 ^ 6;
  tr_shards : 0 ≤ last_shards r ≤ 1000;
  tr_loss : ∀ t, last_loss_us r = Some t → 0 ≤ t ≤ 2 ^ 61;
  tr_seq : 0 ≤ report_seq r < U32_MAX;
  tr_len : (length (history_buffer (d_queue_history r)) ≤ 15)%nat;
  tr_delays : Forall (λ x, - 2 ^ 58 ≤ x ≤ 2 ^ 58) (history_buffer (d_queue_history r))
}.
Lemma silent_ok now fps r : timer_ready now fps r → ∃ r', silent_interval now fps (now - rc_t_last r) r = Ret r' ∧
  d_queue_history r' = d_queue_history r ∧ report_seq r' = report_seq r ∧ total_received_bytes r' = total_received_bytes r ∧
  (last_loss_us r' = last_loss_us r ∨ last_loss_us r' = Some now).
Proof.
  intros [I1 I2 I3 I4 I5 I6 I7 I8 I9 I10]. unfold silent_interval. destruct (_ && _ && _); [|exists r; auto 10].
  set (due := floor_u32 _) in *.
  assert (0 ≤ due) as Hd by (unfold due, floor_u32; apply cast_with_range; by vm_compute).
  destruct (0 <? due); [|exists r; auto 10]. unfold mul_u32, add_u32, U32_MAX.
  rewrite (proj2 (Z.leb_le (due * last_shards r) _)) by nia. ret_step.
  rewrite (proj2 (Z.leb_le (total_packets_lost r + due * last_shards r) _)) by nia. ret_step.
  rewrite (proj2 (Z.leb_le (total_num_packets r + due * last_shards r) _)) by nia. ret_step.
  eexists. split; [reflexivity|]. cbn. auto.
Qed.
Definition recent_loss (now : Z) (r : NadaReceiver) : bool :=
  match last_loss_us r with Some t => now - t <? NADA_PARAM_LOGWIN * 1000 | None => false end.
Lemma mode_rampup b r : match determine_rate_adaptation_mode b r with AcceleratedRampUp => 0 | GradualUpdate => 1 end = 0 ↔
  b = false ∧ Forall (λ v, v ≤ NADA_PARAM_QEPS_US) (history_buffer (d_queue_history r)).
Proof.
  unfold determine_rate_adaptation_mode, exists_queuing_delay_buildup.
  destruct b; cbn [orb]; [naive_solver|]. destruct (existsb _ _) eqn:E.
  - split; [done|]. intros [_ Hf]. apply existsb_exists in E as (v & Hv & Hlt). rewrite Forall_forall in Hf.
    apply list_elem_of_In, Hf in Hv. apply Z.ltb_lt in Hlt. lia.
  - split; [|done]. intros _. split; [done|]. apply Forall_forall. intros v Hv. apply Z.nlt_ge. intros Hlt.
    assert (existsb (λ v, NADA_PARAM_QEPS_US <? v) (history_buffer (d_queue_history r)) = true); [|congruence].
    apply existsb_exists. exists v. split; [by apply list_elem_of_In|by apply Z.ltb_lt].
Qed.
(** The report timer.  Less than 101 ms after the last report nothing happens.  From
    then on a report is made: it is stamped with the present time, numbered one higher,
    the counters of the interval start again from zero, and the sender is told to ramp
    up exactly when there was no loss in the last 500 ms and no delay in the window
    exceeds 10 ms. *)
Theorem timer_report_when powi now fps r : timer_ready now fps r →
  (now - rc_t_last r < 101000 → timer_report powi now fps r = Ret (r, None)) ∧
  (101000 ≤ now - rc_t_last r → ∃ r' mode x recv loss tilde queue,
     timer_report powi now fps r = Ret (r', Some (mode, x, recv, loss, tilde, queue)) ∧
     rc_t_last r' = now ∧ report_seq r' = report_seq r + 1 ∧ d_queue_history r' = d_queue_history r ∧
     (total_received_bytes r', total_num_packets r', total_packets_lost r', iv_frames r', iv_losses r') = (0, 0, 0, 0, 0) ∧
     (mode = 0 ↔ recent_loss now r' = false ∧ Forall (λ v, v ≤ NADA_PARAM_QEPS_US) (history_buffer (d_queue_history r')))).
Proof.
  intros Hr. pose proof Hr as [I1 I2 I3 I4 I5 I6 I7 I8 I9 I10]. unfold timer_report, I64.sub.
  rewrite (I64.check_Ret (now - rc_t_last r)) by (unfold I64.MIN, I64.MAX; lia). ret_step. unfold NADA_PARAM_DELTA.
  rewrite Z.quot_div_nonneg by lia.
  split; intros Hdt.
  { rewrite (proj2 (Z.leb_le _ 100)); [done|]. apply Z.lt_succ_r. apply Z.div_lt_upper_bound; lia. }
  rewrite (proj2 (Z.leb_gt _ 100)) by (apply Z.lt_le_trans with 101; [lia|apply Z.div_le_lower_bound; lia]).
  destruct (silent_ok now fps r Hr) as (r1 & -> & Eh & Es & Eb & El). ret_step.
  unfold mul_usize, add_u32. rewrite (proj2 (Z.leb_le (total_received_bytes r1 * 8) _)) by (rewrite Eb; unfold U64_MAX; lia).
  ret_step.
  assert (∃ b, match last_loss_us r1 with Some t => d ← I64.check (now - t); Ret (d <? NADA_PARAM_LOGWIN * 1000) | None => Ret false end
    = Ret b ∧ b = recent_loss now r1) as (b & -> & Eloss).
  { unfold recent_loss. destruct (last_loss_us r1) as [t|] eqn:Et; [|by eexists].
    assert (0 ≤ t ≤ 2 ^ 61) as Ht by (destruct El as [El|[= El]]; [apply I7; congruence|subst; lia]).
    rewrite I64.check_Ret by (unfold I64.MIN, I64.MAX; lia). ret_step. by eexists. }
  ret_step. unfold average_delay_ms. rewrite Eh, Es.
  destruct (average_ok (d_queue_history r) (2 ^ 58)) as [v ->]; [lia|done..|]. ret_step.
  rewrite (proj2 (Z.leb_le (report_seq r + 1) _)) by lia. ret_step.
  eexists _, _, _, _, _, _, _. split; [reflexivity|]. cbn [rc_t_last report_seq d_queue_history total_received_bytes total_num_packets
    total_packets_lost iv_frames iv_losses set_signal set_rate set_totals].
  split_and!; [done..|].
  match goal with |- _ ↔ ?x = false ∧ _ => change x with (recent_loss now r1) end.
  rewrite <-Eloss. apply mode_rampup.
Qed.

(** ** The report on the wire *)
Lemma from_le_bytes n : ∀ z, 0 ≤ z < 256 ^ Z.of_nat n → from_le (le_bytes n z) = z.
Proof.
  induction n as [|n IH]; intros z Hz; cbn [le_bytes from_le]; [cbn in Hz; lia|].
  rewrite Nat2Z.inj_succ, Z.pow_succ_r in Hz by lia.
  rewrite IH by (split; [apply Z.div_pos; lia|apply Z.div_lt_upper_bound; lia]).
  pose proof (Z.div_mod z 256). lia.
Qed.
Lemma length_le_bytes n z : length (le_bytes n z) = n.
Proof. revert z. induction n as [|n IH]; intros z; [done|]. cbn. by rewrite IH. Qed.
Lemma cast_wrap z : I64.MIN ≤ z ≤ I64.MAX → I64.cast (wrap 64 z) = z.
Proof.
  intros Hz. rewrite <-(I64.cast_id z) at 2 by done. unfold I64.cast. by rewrite (wrap_id 64 (wrap 64 z)) by (apply wrap_range; lia).
Qed.
Lemma as_i8_wrap z : - 128 ≤ z ≤ 127 → as_i8 (from_le [wrap 8 z]) = z.
Proof.
  intros Hz. unfold from_le, as_i8, wrap. rewrite Z.mul_0_r, Z.add_0_r. destruct (Z.le_gt_cases 0 z).
  - rewrite Z.mod_small by lia. rewrite (proj2 (Z.ltb_lt _ _)); lia.
  - rewrite <-(Z.mod_unique z (2 ^ 8) (-1) (z + 256)) by lia. rewrite (proj2 (Z.ltb_ge _ _)); lia.
Qed.
Record wire_ok (p : NadaTimerReport) : Prop := {
  wo_seq : 0 ≤ nr_seq p ≤ U32_MAX;
  wo_rmode : - 128 ≤ nr_rmode p ≤ 127;
  wo_recv : I64.MIN ≤ nr_recv p ≤ I64.MAX;
  wo_queue : I64.MIN ≤ nr_d_queue p ≤ I64.MAX;
  wo_floats : valid (nr_xcurr p) = true ∧ valid (nr_plr p) = true ∧ valid (nr_d_tilde p) = true
}.
(** The report that the server decodes is the one that the client encoded, whatever
    follows it in the packet; a shorter packet, or one without the magic number, holds
    none. *)
Theorem timer_report_roundtrip p rest : wire_ok p →
  decode (encode p ++ rest) = Some p ∧ (∀ n, (n < LEN)%nat → decode (take n (encode p)) = None) ∧
  (∀ b, take 4 b ≠ MAGIC → decode b = None).
Proof.
  intros [I1 I2 I3 I4 (V1 & V2 & V3)].
  assert (length (encode p) = LEN) as Hlen by (unfold encode; rewrite !length_app, !length_le_bytes; done).
  split_and!.
  - unfold decode. rewrite length_app, Hlen. rewrite (proj2 (Nat.ltb_ge _ _)) by lia.
    assert (range 0 4 (encode p ++ rest) = MAGIC) as -> by reflexivity. rewrite bool_decide_true by done. cbn [orb negb].
    assert (range 4 8 (encode p ++ rest) = le_bytes 4 (nr_seq p)) as -> by reflexivity.
    assert (range 8 16 (encode p ++ rest) = le_bytes 8 (to_bits (nr_xcurr p))) as -> by reflexivity.
    assert (range 16 17 (encode p ++ rest) = [wrap 8 (nr_rmode p)]) as -> by reflexivity.
    assert (range 17 25 (encode p ++ rest) = le_bytes 8 (wrap 64 (nr_recv p))) as -> by reflexivity.
    assert (range 25 33 (encode p ++ rest) = le_bytes 8 (to_bits (nr_plr p))) as -> by reflexivity.
    assert (range 33 41 (encode p ++ rest) = le_bytes 8 (to_bits (nr_d_tilde p))) as -> by reflexivity.
    assert (range 41 49 (encode p ++ rest) = le_bytes 8 (wrap 64 (nr_d_queue p))) as -> by reflexivity.
    rewrite !from_le_bytes by first [apply f64_bits_range; done|apply wrap_range; lia|unfold U32_MAX in *; cbn; lia].
    rewrite !f64_of_to_bits, !cast_wrap, as_i8_wrap by done. by destruct p.
  - intros n Hn. unfold decode. rewrite length_take, Hlen. by rewrite (proj2 (Nat.ltb_lt _ _)) by lia.
  - intros b Hb. unfold decode, range. rewrite bool_decide_false by done. by rewrite orb_true_r.
Qed.

(** ** Witnesses *)
Module NadaDemo.
#[local] Instance Epoch_demo : Edca.Epoch mono := mono_of 0.
Definition demo_feedback : list Feedback :=
  [mkFeedback (mono_of (10 ^ 9)) 900000 (mkReport 0 nan 80000000 0 zero zero) (of_Z 90);
   mkFeedback (mono_of (2 * 10 ^ 9)) 1900000 (mkReport 1 (of_Z 400) 50000000 0 zero zero) (of_Z 90)].
Lemma nada_sender_bounds_witness : ∃ s0 s, sender_new_at (mono_of 0) nan = Ret s0 ∧ sender_run demo_feedback s0 = Ret s ∧ rate_ok (r_ref s) ∧
  get_target_bitrate s = r_ref s ∧ get_sending_bitrate s = r_ref s ∧ (length (history_buffer (rtt_history s)) ≤ 15)%nat.
Proof. apply (nada_sender_bounds (mono_of 0) nan demo_feedback); [by vm_compute|]. repeat constructor; by vm_compute. Defined.
Definition demo_delays : list (Z * Z) := [(1000, 6000); (12000, 16000); (23000, 31000)].
Lemma oneway_delay_exact_witness : ∃ r, delay_run demo_delays (receiver_new 0) = Ret r ∧ rc_d_base r = foldl Z.min I64.MAX (delays demo_delays) ∧
  (let q := 0 :: queueing I64.MAX (delays demo_delays) in
   history_buffer (d_queue_history r) = drop (length q - 15) q ∧ rc_d_queue r = List.last q 0 ∧ Forall (λ x, 0 ≤ x) q).
Proof. apply (oneway_delay_exact 0 demo_delays). repeat constructor; by vm_compute. Defined.
Definition demo_receiver : NadaReceiver := set_delay 4000 20000 (mkWindow [0; 5000; 20000] 15) 0 0 (receiver_new 0).
Lemma loss_hides_delay_witness : compute_d_tilde true demo_receiver = Ret (if rc_d_queue demo_receiver <? 50 then of_Z (rc_d_queue demo_receiver) else zero).
Proof. apply (loss_hides_delay demo_receiver). by vm_compute. Defined.
(** Twenty milliseconds of delay: the signal is 8.3 ms without a loss and 0 with one. *)
Example loss_lowers_signal : (λ b, (λ p, as_i64 (rc_x_curr p.1)) <$> time_to_report_feedback (mono_of (10 ^ 9)) b false demo_receiver) <$> [false; true]
  = [Ret 8; Ret 0].
Proof. vm_compute. reflexivity. Qed.
Definition demo_powi (x : f64) (n : Z) : f64 := F64.mul (F64.mul x x) (F64.mul x x).
Lemma timer_report_when_witness : ∃ r' mode x recv loss tilde queue,
  timer_report demo_powi 101000 (of_Z 90) demo_receiver = Ret (r', Some (mode, x, recv, loss, tilde, queue)) ∧
  rc_t_last r' = 101000 ∧ report_seq r' = report_seq demo_receiver + 1 ∧ d_queue_history r' = d_queue_history demo_receiver ∧
  (total_received_bytes r', total_num_packets r', total_packets_lost r', iv_frames r', iv_losses r') = (0, 0, 0, 0, 0) ∧
  (mode = 0 ↔ recent_loss 101000 r' = false ∧ Forall (λ v, v ≤ NADA_PARAM_QEPS_US) (history_buffer (d_queue_history r'))).
Proof.
  apply (timer_report_when demo_powi 101000 (of_Z 90) demo_receiver); [|by vm_compute].
  split; [by vm_compute..|discriminate|by vm_compute|cbn; lia|repeat constructor; lia].
Defined.
Definition demo_report : NadaTimerReport := mkTimerReport 7 (lit 125 10) (-1) (-61000000) (lit 1 100) infinity 3000.
Lemma timer_report_roundtrip_witness : decode (encode demo_report ++ [1; 2]) = Some demo_report ∧
  (∀ n, (n < LEN)%nat → decode (take n (encode demo_report)) = None) ∧ (∀ b, take 4 b ≠ MAGIC → decode b = None).
Proof. apply (timer_report_roundtrip demo_report [1; 2]). split; by vm_compute. Defined.
End NadaDemo.
End NadaFacts.
