(* ===== verification/Abr.v ===== *)
(** * The server's bitrate manager: [examples/lib/models_XR.rs]

    [BitrateManager] with its modes (constant, ALVR's adaptive, EVeREst, NeSt-VR, GCC,
    NADA, FovOptix, oracle), the statistics it is fed with, the watchdog on missing
    statistics, and the part of [XRServer]'s handlers that drives it.  Module [Abr].

    Left out of the state: the loggers and the channel of visualisation events, the
    names printed, the settings of the reinforcement-learning observations that no
    modelled code reads, and [aimd_manager], which is created and never used.
    [rng.sample(Uniform::new(0.0, 1.0))] of the [rand] crate is a parameter. *)

From Stdlib Require Import SpecFloat.
From S2P Require Import Prelude Scheduler F32 SimRng Airtime Edca F64Ops Gcc Nada.

(** Arithmetic and comparison of [f32]. *)
Declare Scope f32_scope.
Delimit Scope f32_scope with f32.
Infix "⊕" := F32.add (at level 50, left associativity) : f32_scope.
Infix "⊖" := F32.sub (at level 50, left associativity) : f32_scope.
Infix "⊗" := F32.mul (at level 40, left associativity) : f32_scope.
Infix "⊘" := F32.div (at level 40, left associativity) : f32_scope.
Infix "≺" := F64.lt (at level 70, no associativity) : f32_scope.

Module Abr.
Import Nada.
#[local] Open Scope f32_scope.

Definition fz (z : Z) : f32 := F32.of_Z z.
(** [z as f32], the literal [n / d], and the factor [1e6]. *)
Definition lit (n d : Z) : f32 := F32.div (fz n) (fz d).
Definition mega (x : f32) : f32 := x ⊗ fz 1000000.
Definition per_mega (x : f32) : f32 := x ⊘ fz 1000000.
Definition fmax : f32 → f32 → f32 := F64Ops.max.
Definition fmin : f32 → f32 → f32 := F64Ops.min.
(** [1e-9] *)
Definition NANO : f32 := lit 1 1000000000.

Definition MIN_MBPS_LADDER : f32 := fz 10.
Definition MAX_MBPS_LADDER : f32 := Gcc.MAX_MBPS_LADDER.
Definition ORACLE_BITRATE_MARGIN_MBPS : f32 := fz 5.
Definition ORACLE_LOOKAHEAD_SECS : f32 := lit 1 100.
Definition ORACLE_RAMP_UP_MBPS_PER_SEC : f32 := fz 1.
Definition MIN_ORACLE_BITRATE_MBPS : f32 := fz 5.
Definition NESTVR_STEP_COUNT : nat := 9.
Definition ALPHA_EWMA_FOWD_OBS : f32 := lit 1 10.

(** ** The bitrate ladder *)
(** [slice::binary_search_by]: [Ok] with the index of a match, or [Err] with the place to insert. *)
Fixpoint search_loop {A} (fuel : nat) (f : A → comparison) (l : list A) (base size : nat) : outcome nat :=
  if (size <=? 1)%nat then Ret base
  else match fuel with
       | O => OutOfFuel
       | S fuel =>
           let half := (size / 2)%nat in
           let mid := (base + half)%nat in
           x ← unwrap (l !! mid);
           search_loop fuel f l (match f x with Gt => base | _ => mid end) (size - half)
       end.
Definition binary_search_by {A} (f : A → comparison) (l : list A) : outcome (nat + nat) :=
  if (length l =? 0)%nat then Ret (inr 0%nat)
  else
    base ← search_loop (length l) f l 0 (length l);
    x ← unwrap (l !! base);
    Ret match f x with Eq => inl base | Lt => inr (S base) | Gt => inr base end.
Definition upper_bound_bitrate (bitrate_bps : f32) (ladder : list f32) : outcome f32 :=
  r ← binary_search_by (λ x : f32, default Lt (SFcompare x bitrate_bps)) ladder;
  match r with
  | inl index => unwrap (ladder !! index)
  | inr 0%nat => Ret (default bitrate_bps (head ladder))
  | inr (S index) => unwrap (ladder !! index)
  end.
Definition minmax_bitrate (bitrate_bps max_bitrate_bps min_bitrate_bps : f32) : f32 :=
  fmax (fmin bitrate_bps max_bitrate_bps) min_bitrate_bps.

(** ** Averages *)
Definition sum_f32 (l : list f32) : f32 := foldl F32.add F32.zero l.
Definition average (w : SlidingWindowAverage f32) : f32 :=
  sum_f32 (history_buffer w) ⊘ fz (Z.of_nat (length (history_buffer w))).

(** ** Losses in a sliding period, with cached sums *)
Record DataPoint := mkPoint { fl_report : Z; sl_report : Z }.
Record TimedVecFLR := mkFLR { vec_data : list (f32 * DataPoint); period : f32; current_flr_sum : Z; current_sl_sum : Z }.
Definition flr_new (period : f32) : TimedVecFLR := mkFLR [] period 0 0.
Definition add_usize (a b : Z) : outcome Z := if a + b <=? U64_MAX then Ret (a + b) else Panic.
Definition sub_usize (a b : Z) : outcome Z := if b <=? a then Ret (a - b) else Panic.
Fixpoint prune_loop (cutoff : f32) (l : list (f32 * DataPoint)) (fl sl : Z) : outcome (list (f32 * DataPoint) * Z * Z) :=
  match l with
  | (t, p) :: l' =>
      if t ≺ cutoff then
        fl ← sub_usize fl (fl_report p);
        sl ← sub_usize sl (sl_report p);
        prune_loop cutoff l' fl sl
      else Ret (l, fl, sl)
  | [] => Ret (l, fl, sl)
  end.
Definition prune_old (cutoff : f32) (v : TimedVecFLR) : outcome TimedVecFLR :=
  '(l, fl, sl) ← prune_loop cutoff (vec_data v) (current_flr_sum v) (current_sl_sum v);
  Ret (mkFLR l (period v) fl sl).
Definition flr_push_new (fl sl : Z) (time_f32 : f32) (v : TimedVecFLR) : outcome TimedVecFLR :=
  f ← add_usize (current_flr_sum v) fl;
  s ← add_usize (current_sl_sum v) sl;
  prune_old (time_f32 ⊖ period v) (mkFLR (vec_data v ++ [(time_f32, mkPoint fl sl)]) (period v) f s).
Definition sum_flr (time_f32 : f32) (v : TimedVecFLR) : outcome (TimedVecFLR * Z) :=
  v ← prune_old (time_f32 ⊖ period v) v; Ret (v, current_flr_sum v).
Definition sum_shard_loss (time_f32 : f32) (v : TimedVecFLR) : outcome (TimedVecFLR * Z) :=
  v ← prune_old (time_f32 ⊖ period v) v; Ret (v, current_sl_sum v).
(** The level of the decoder's buffer over a period. *)
Record TimedVecBuffer := mkLevels { vec_buflevel : list (f32 * Z); buf_period : f32 }.
Fixpoint drop_while_old (cutoff : f32) (l : list (f32 * Z)) : list (f32 * Z) :=
  match l with
  | (t, v) :: l' => if t ≺ cutoff then drop_while_old cutoff l' else l
  | [] => []
  end.
Definition buf_push_new (level : Z) (time_f32 : f32) (b : TimedVecBuffer) : TimedVecBuffer :=
  mkLevels (drop_while_old (time_f32 ⊖ buf_period b) (vec_buflevel b ++ [(time_f32, level)])) (buf_period b).

(** ** Modes *)
Inductive EverestCommand := SlowDown | SpeedUp | Continue.
Record ProfileConfig := mkProfile {
  update_interval_nestvr_s : f32;
  pr_max_bitrate_mbps : f32;
  pr_min_bitrate_mbps : f32;
  pr_initial_bitrate_mbps : f32;
  bitrate_step_count : Z;
  bitrate_inc_steps : Z;
  bitrate_dec_steps : Z;
  rtt_adj_prob : f32;
  bitrate_inc_prob : f32;
  nfr_thresh : f32;
  rtt_thresh_ms : f32;
  capacity_scaling_factor : f32
}.
Inductive BitrateMode :=
| ConstantMbps (mbps : f32)
| Adaptive (saturation_multiplier : f32) (max_bitrate_mbps min_bitrate_mbps max_rtt_ms : option f32)
| EVeREst (bitrate_ladder_mbps : list f32)
| NestVr (max_bitrate_mbps min_bitrate_mbps initial_bitrate_mbps : f32) (nest_vr_profile : ProfileConfig)
| GCCPort (gcc_estimator : Gcc.GccBandwidthEstimator) (framerate : f64)
| NADACiscoPort
| FovOptixPort (last_bitrate_mbps : f32)
| Oracle (margin_mbps min_mbps max_mbps : f32).
Inductive NestVrProfile := Custom | Balanced | Speedy | Anxious.
Definition decrement (p : NestVrProfile) : Z :=
  match p with Anxious => 10 | Balanced => 1 | Speedy => 2 | Custom => 1 end.

Section manager.
Context {T : Type} `{TaiTime T} `{!Edca.Epoch T}.
Context (sample_unit : Rng.SimRng → f32 * Rng.SimRng) (powf : f64 → f64 → f64).
(** The bandwidth caps of the emulated link; the other patterns do not matter here. *)
Record Bandwidth := mkBandwidth { max_bps : f64; valid_from : T; valid_until : T }.
Record Windows := mkWindows {
  frame_interval_average : SlidingWindowAverage f32;
  bitrate_average_mbps : SlidingWindowAverage f32;
  rtt_average : SlidingWindowAverage f32;
  peak_throughput_average : SlidingWindowAverage f32;
  frame_interarrival_average : SlidingWindowAverage f32;
  bytes_size_avg : SlidingWindowAverage f32
}.
Record Everest := mkEverest {
  everest_last_capacity : f32;
  everest_last_throughput : f32;
  everest_capacity_ewma : f32;
  everest_throughput_ewma : f32;
  everest_last_dshort : f32;
  everest_last_dlong : f32;
  everest_time_last_capacity_update : T;
  everest_time_last_throughput_update : T;
  everest_last_order : EverestCommand
}.
Record BitrateManager := mkManager {
  last_frame_instant : T;
  last_update_instant : T;
  bitrate_mode : BitrateMode;
  windows : Windows;
  everest : Everest;
  last_stats_received : T;
  last_target_bitrate_bps : f32;
  bitrate_ladder_bps : option (list f32);
  bitrate_step_size_bps_nest : f32;
  flr_shardloss_count : TimedVecFLR;
  jitbuf_avg_count : TimedVecBuffer;
  last_rebuffer_avg_sum : Z;
  last_nada_target_bitrate_mbps : option f64;
  bm_framerate : f32;
  ewma_fowd : f32;
  ewma_owd : f32;
  oracle_bandwidth_trace : list Bandwidth;
  bm_rng : Rng.SimRng
}.
Implicit Types b : BitrateManager.
(** Assignments to groups of fields. *)
Definition set_target (bps : f32) b : BitrateManager :=
  mkManager (last_frame_instant b) (last_update_instant b) (bitrate_mode b) (windows b) (everest b) (last_stats_received b) bps
    (bitrate_ladder_bps b) (bitrate_step_size_bps_nest b) (flr_shardloss_count b) (jitbuf_avg_count b) (last_rebuffer_avg_sum b)
    (last_nada_target_bitrate_mbps b) (bm_framerate b) (ewma_fowd b) (ewma_owd b) (oracle_bandwidth_trace b) (bm_rng b).
Definition set_instants (frame update stats : T) b : BitrateManager :=
  mkManager frame update (bitrate_mode b) (windows b) (everest b) stats (last_target_bitrate_bps b)
    (bitrate_ladder_bps b) (bitrate_step_size_bps_nest b) (flr_shardloss_count b) (jitbuf_avg_count b) (last_rebuffer_avg_sum b)
    (last_nada_target_bitrate_mbps b) (bm_framerate b) (ewma_fowd b) (ewma_owd b) (oracle_bandwidth_trace b) (bm_rng b).
Definition set_windows (w : Windows) b : BitrateManager :=
  mkManager (last_frame_instant b) (last_update_instant b) (bitrate_mode b) w (everest b) (last_stats_received b)
    (last_target_bitrate_bps b) (bitrate_ladder_bps b) (bitrate_step_size_bps_nest b) (flr_shardloss_count b) (jitbuf_avg_count b)
    (last_rebuffer_avg_sum b) (last_nada_target_bitrate_mbps b) (bm_framerate b) (ewma_fowd b) (ewma_owd b)
    (oracle_bandwidth_trace b) (bm_rng b).
Definition set_mode (m : BitrateMode) (e : Everest) b : BitrateManager :=
  mkManager (last_frame_instant b) (last_update_instant b) m (windows b) e (last_stats_received b) (last_target_bitrate_bps b)
    (bitrate_ladder_bps b) (bitrate_step_size_bps_nest b) (flr_shardloss_count b) (jitbuf_avg_count b) (last_rebuffer_avg_sum b)
    (last_nada_target_bitrate_mbps b) (bm_framerate b) (ewma_fowd b) (ewma_owd b) (oracle_bandwidth_trace b) (bm_rng b).
Definition set_losses (v : TimedVecFLR) b : BitrateManager :=
  mkManager (last_frame_instant b) (last_update_instant b) (bitrate_mode b) (windows b) (everest b) (last_stats_received b)
    (last_target_bitrate_bps b) (bitrate_ladder_bps b) (bitrate_step_size_bps_nest b) v (jitbuf_avg_count b)
    (last_rebuffer_avg_sum b) (last_nada_target_bitrate_mbps b) (bm_framerate b) (ewma_fowd b) (ewma_owd b)
    (oracle_bandwidth_trace b) (bm_rng b).
Definition set_observations (levels : TimedVecBuffer) (rebuffers : Z) (fowd owd : f32) b : BitrateManager :=
  mkManager (last_frame_instant b) (last_update_instant b) (bitrate_mode b) (windows b) (everest b) (last_stats_received b)
    (last_target_bitrate_bps b) (bitrate_ladder_bps b) (bitrate_step_size_bps_nest b) (flr_shardloss_count b) levels
    rebuffers (last_nada_target_bitrate_mbps b) (bm_framerate b) fowd owd (oracle_bandwidth_trace b) (bm_rng b).
Definition set_nada (mbps : option f64) (g : Rng.SimRng) b : BitrateManager :=
  mkManager (last_frame_instant b) (last_update_instant b) (bitrate_mode b) (windows b) (everest b) (last_stats_received b)
    (last_target_bitrate_bps b) (bitrate_ladder_bps b) (bitrate_step_size_bps_nest b) (flr_shardloss_count b) (jitbuf_avg_count b)
    (last_rebuffer_avg_sum b) mbps (bm_framerate b) (ewma_fowd b) (ewma_owd b) (oracle_bandwidth_trace b) g.

(** *** Construction *)
Fixpoint ladder_from (n : nat) (last step : f32) : list f32 :=
  match n with O => [] | S n => let last := last ⊕ step in last :: ladder_from n last step end.
Definition nest_ladder : list f32 :=
  let min_bps := mega MIN_MBPS_LADDER in
  let max_bps := mega MAX_MBPS_LADDER in
  min_bps :: ladder_from 9 min_bps ((max_bps ⊖ min_bps) ⊘ fz 9).
Definition everest_ladder_mbps : list f32 := (fz <$> [10; 20; 40; 60; 80]) ++ [MAX_MBPS_LADDER].
Definition seed_bitrate_mbps (abr_enabled : Z) (initial_bitrate_mbps : f32) : f32 :=
  if bool_decide (abr_enabled ∈ [1; 2; 4; 5; 6; 8]) then MAX_MBPS_LADDER else initial_bitrate_mbps.
Definition mode_new (abr_enabled : Z) (initial_framerate initial_bitrate_mbps : f32) (profile : NestVrProfile) (t_update_abr : f32)
    : BitrateMode :=
  let seed := seed_bitrate_mbps abr_enabled initial_bitrate_mbps in
  if abr_enabled =? 1 then
    NestVr MAX_MBPS_LADDER MIN_MBPS_LADDER seed
      (mkProfile t_update_abr MAX_MBPS_LADDER MIN_MBPS_LADDER seed (Z.of_nat NESTVR_STEP_COUNT) 1 (decrement profile) (fz 1) (lit 1 4)
         (lit 99 100) (fz 22) (lit 9 10))
  else if abr_enabled =? 2 then EVeREst everest_ladder_mbps
  else if abr_enabled =? 4 then GCCPort (Gcc.gcc_new (F64.of_f32 initial_framerate)) (F64.of_f32 initial_framerate)
  else if abr_enabled =? 5 then NADACiscoPort
  else if abr_enabled =? 6 then FovOptixPort seed
  else if abr_enabled =? 8 then Oracle ORACLE_BITRATE_MARGIN_MBPS MIN_ORACLE_BITRATE_MBPS MAX_MBPS_LADDER
  else if abr_enabled =? 9 then Adaptive (lit 95 100) (Some MAX_MBPS_LADDER) (Some MIN_MBPS_LADDER) (Some (fz 8))
  else ConstantMbps initial_bitrate_mbps.
Definition ladder_new (abr_enabled : Z) : list f32 :=
  if abr_enabled =? 1 then nest_ladder else if abr_enabled =? 2 then mega <$> everest_ladder_mbps else [].
Definition everest_new : Everest :=
  mkEverest F32.zero F32.zero F32.zero F32.zero F32.zero F32.zero Edca.EPOCH Edca.EPOCH Continue.
Definition manager_new (max_history_size : nat) (initial_framerate initial_bitrate_mbps : f32) (abr_enabled : Z)
    (profile : NestVrProfile) (fps t_update_abr : f32) (trace : list Bandwidth) (g : Rng.SimRng) : BitrateManager :=
  let seed := seed_bitrate_mbps abr_enabled initial_bitrate_mbps in
  let period := fz 1 ⊘ initial_framerate in
  mkManager Edca.EPOCH Edca.EPOCH (mode_new abr_enabled initial_framerate initial_bitrate_mbps profile t_update_abr)
    (mkWindows (window_new period max_history_size) (window_new seed max_history_size)
       (window_new (F32.of_nanos 5000000) max_history_size) (window_new (fz 300000000) max_history_size)
       (window_new period max_history_size) (window_new (mega (seed ⊘ initial_framerate)) max_history_size))
    everest_new Edca.EPOCH (mega seed) (Some (ladder_new abr_enabled))
    ((mega MAX_MBPS_LADDER ⊖ mega MIN_MBPS_LADDER) ⊘ fz (Z.of_nat NESTVR_STEP_COUNT))
    (flr_new (fz 1)) (mkLevels [] t_update_abr) 0 None fps F32.zero F32.zero trace g.
(** *** [reset], at the end of a session *)
Definition reset (now : T) b : outcome BitrateManager :=
  let w := windows b in
  bps ← match bitrate_mode b with
        | ConstantMbps mbps => Ret (mega mbps)
        | Adaptive _ mx _ _ => Ret (mega (default MAX_MBPS_LADDER mx))
        | EVeREst ladder => x ← unwrap (last ladder); Ret (mega x)
        | NestVr mx _ _ _ => Ret (mega mx)
        | GCCPort _ _ => Ret (mega (F64.to_f32 Gcc.GCC_INIT_CONFIGURED_BITRATE))
        | NADACiscoPort => Ret (fz NADA_INITIAL_RATE)
        | FovOptixPort _ => Ret (mega MAX_MBPS_LADDER)
        | Oracle _ _ mx => Ret (mega mx)
        end;
  let mode := match bitrate_mode b with GCCPort _ framerate => GCCPort (Gcc.gcc_new framerate) framerate | m => m end in
  let b := set_instants Edca.EPOCH Edca.EPOCH Edca.EPOCH b in
  let b := set_windows (mkWindows (clear (frame_interval_average w)) (clear (bitrate_average_mbps w)) (clear (rtt_average w))
             (clear (peak_throughput_average w)) (clear (frame_interarrival_average w)) (clear (bytes_size_avg w))) b in
  let b := set_observations (jitbuf_avg_count b) (last_rebuffer_avg_sum b) F32.zero F32.zero b in
  if time_le Edca.EPOCH now then Ret (set_target bps (set_mode mode everest_new b)) else Panic.

(** *** Reports *)
(** [a.duration_since(b)] in nanoseconds *)
Definition since (x y : T) : outcome Z := if time_le y x then Ret (nanos x - nanos y) else Panic.
Definition secs (x y : T) : outcome f32 := n ← since x y; Ret (F32.of_nanos n).
Definition report_encoded_frame_server (now : T) b : outcome BitrateManager :=
  if bool_decide (last_frame_instant b ≠ Edca.EPOCH) then
    dur ← secs now (last_frame_instant b);
    let w := windows b in
    let b := set_windows (mkWindows (submit_sample dur (frame_interval_average w)) (bitrate_average_mbps w) (rtt_average w)
               (peak_throughput_average w) (frame_interarrival_average w) (bytes_size_avg w)) b in
    Ret (set_instants now (last_update_instant b) (last_stats_received b) b)
  else
    Ret (set_instants now (last_update_instant b)
           (if bool_decide (last_stats_received b = Edca.EPOCH) then now else last_stats_received b) b).
(** The fields of [NetworkStatisticsPacket] that the manager reads. *)
Record NetworkStats := mkStats {
  bytes_in_frame : Z;
  ow_delay : f32;
  filtered_ow_delay : f32;
  everest_capacity_update : f32;
  everest_throughput_update : f32;
  everest_dshort : f32;
  everest_dlong : f32;
  everest_command : EverestCommand;
  buffer_level_decoder : Z;
  rebuffering_events_last_s : Z
}.
(** [taitime_to_f64!] *)
Definition taitime_to_f64 (t : T) : f64 :=
  let n := nanos t - nanos Edca.EPOCH in
  F64.add (F64.of_Z (n / 10 ^ 9)) (F64.div (F64.of_Z (n `mod` 10 ^ 9)) (F64.of_Z (10 ^ 9))).
Definition T_USER_WIN : f32 := fz 5.
Definition everest_ewma (since_last sample old : f32) : f32 :=
  since_last ⊘ T_USER_WIN ⊗ sample ⊕ (fz 1 ⊖ since_last ⊘ T_USER_WIN) ⊗ old.
Definition report_everest (s : NetworkStats) (now : T) (e : Everest) : outcome Everest :=
  e ← (if F32.zero ≺ everest_capacity_update s then
         d ← secs now (everest_time_last_capacity_update e);
         Ret (mkEverest (everest_capacity_update s) (everest_last_throughput e)
                (everest_ewma d (everest_capacity_update s) (everest_capacity_ewma e)) (everest_throughput_ewma e)
                (everest_last_dshort e) (everest_last_dlong e) now (everest_time_last_throughput_update e) (everest_last_order e))
       else Ret e);
  e ← (if F32.zero ≺ everest_throughput_update s then
         d ← secs now (everest_time_last_throughput_update e);
         Ret (mkEverest (everest_last_capacity e) (everest_throughput_update s) (everest_capacity_ewma e)
                (everest_ewma d (everest_throughput_update s) (everest_throughput_ewma e))
                (everest_last_dshort e) (everest_last_dlong e) (everest_time_last_capacity_update e) now (everest_last_order e))
       else Ret e);
  Ret (mkEverest (everest_last_capacity e) (everest_last_throughput e) (everest_capacity_ewma e) (everest_throughput_ewma e)
         (everest_dshort s) (everest_dlong s) (everest_time_last_capacity_update e) (everest_time_last_throughput_update e)
         (everest_command s)).
Definition report_gcc (s : NetworkStats) (now send_instant : T) (m : BitrateMode) : outcome BitrateMode :=
  match m with
  | GCCPort g framerate =>
      '(g, _) ← Gcc.gcc_Update powf (F64.mul (taitime_to_f64 send_instant) (F64.of_Z 1000000))
                  (F64.mul (taitime_to_f64 now) (F64.of_Z 1000000)) (bytes_in_frame s) now g;
      Ret (GCCPort g framerate)
  | m => Ret m
  end.
Definition report_windows (network_rtt : Z) (peak_throughput_bps frame_interarrival_s : f32) (s : NetworkStats) (w : Windows) : Windows :=
  let size := fz (bytes_in_frame s) in
  mkWindows (frame_interval_average w)
    (if 0 <? network_rtt
     then submit_sample (per_mega (size ⊗ fz 8 ⊘ F32.of_nanos network_rtt)) (bitrate_average_mbps w) else bitrate_average_mbps w)
    (submit_sample (F32.of_nanos network_rtt) (rtt_average w))
    (submit_sample peak_throughput_bps (peak_throughput_average w))
    (if frame_interarrival_s ≺ fz 1 then submit_sample frame_interarrival_s (frame_interarrival_average w)
     else frame_interarrival_average w)
    (submit_sample size (bytes_size_avg w)).
Definition report_network_statistics_abr (network_rtt : Z) (peak_throughput_bps frame_interarrival_s : f32) (s : NetworkStats)
    (now send_instant : T) b : outcome BitrateManager :=
  let b := set_instants (last_frame_instant b) (last_update_instant b) now b in
  m ← report_gcc s now send_instant (bitrate_mode b);
  let ewma new old := ALPHA_EWMA_FOWD_OBS ⊗ new ⊕ (fz 1 ⊖ ALPHA_EWMA_FOWD_OBS) ⊗ old in
  t ← secs now Edca.EPOCH;
  let b := set_observations (buf_push_new (buffer_level_decoder s) t (jitbuf_avg_count b)) (rebuffering_events_last_s s)
             (ewma (filtered_ow_delay s) (ewma_fowd b)) (ewma (ow_delay s) (ewma_owd b)) b in
  let b := set_windows (report_windows network_rtt peak_throughput_bps frame_interarrival_s s (windows b)) b in
  e ← report_everest s now (everest b);
  '(v, _) ← sum_flr t (flr_shardloss_count b);
  '(v, _) ← sum_shard_loss t v;
  Ret (set_losses v (set_mode m e b)).
Definition report_shard_and_frame_loss (fl sl : Z) (t : f32) b : outcome BitrateManager :=
  v ← flr_push_new fl sl t (flr_shardloss_count b); Ret (set_losses v b).

(** *** The watchdog *)
Definition DURATION_MAX : Z := 2 ^ 64 * 10 ^ 9 - 1.
(** [position(|&bps| bps == current_bps).unwrap_or(0)] *)
Fixpoint position (x : f32) (l : list f32) : option nat :=
  match l with
  | [] => None
  | y :: l => if F64.eqb y x then Some 0%nat else S <$> position x l
  end.
Definition stats_timeout b : outcome Z :=
  let avg := average (frame_interval_average (windows b)) in
  interval ← F32.to_nanos (if F32.zero ≺ avg then avg else fz 1 ⊘ bm_framerate b);
  if interval * 3 <=? DURATION_MAX then Ret (interval * 3) else Panic.
Definition check_stats_timeout (now : T) b : outcome BitrateManager :=
  timeout ← stats_timeout b;
  if bool_decide (last_stats_received b = Edca.EPOCH) then Ret b
  else if negb (time_le (last_stats_received b) now) then Ret b
  else if nanos now - nanos (last_stats_received b) <? timeout then Ret b
  else
    let b := set_instants (last_frame_instant b) (last_update_instant b) now b in
    match bitrate_ladder_bps b with
    | None | Some [] => Ret b
    | Some ladder =>
        current_bps ← upper_bound_bitrate (last_target_bitrate_bps b) ladder;
        let index := default 0%nat (position current_bps ladder) in
        new_bps ← unwrap (ladder !! (index - 1)%nat);
        Ret (if F64Ops.ne new_bps (last_target_bitrate_bps b) then set_target new_bps b else b)
    end.
Definition stats_timeout_per_frame (now : T) b : outcome (BitrateManager * f32) :=
  b ← match bitrate_mode b with NestVr _ _ _ _ => check_stats_timeout now b | _ => Ret b end;
  Ret (b, last_target_bitrate_bps b).

(** *** One pass of the algorithm *)
Definition nestvr_capacity_bps b : f32 :=
  let w := peak_throughput_average (windows b) in
  if (history_buffer_len w =? 0)%nat || existsb (λ s, F64.le s F32.zero) (history_buffer w) then S754_infinity false
  else fmax (average w) NANO.
Definition MIN_SAMPLES_FOR_NFR : nat := 30.
(** The rate rule of NeSt-VR, before the limits. *)
Definition nestvr_step (p : ProfileConfig) (r_rtt r_inc : f32) b : f32 :=
  let w := windows b in
  let interval := average (frame_interval_average w) in
  let frame_interval_s := fmax interval NANO in
  let fps_tx_avg := if F64Ops.ne frame_interval_s F32.zero then fz 1 ⊘ frame_interval_s else F32.zero in
  let interarrival := average (frame_interarrival_average w) in
  let fps_rx_avg := if F64Ops.ne interarrival F32.zero then fz 1 ⊘ fmax NANO interarrival else F32.zero in
  let has_frame_timing_sample :=
    (F32.zero ≺ interval) && (MIN_SAMPLES_FOR_NFR <=? history_buffer_len (frame_interval_average w))%nat
    && (MIN_SAMPLES_FOR_NFR <=? history_buffer_len (frame_interarrival_average w))%nat in
  let nfr_avg := fps_rx_avg ⊘ fps_tx_avg in
  let rtt_avg_ms := average (rtt_average w) ⊗ fz 1000 in
  let target := last_target_bitrate_bps b in
  let step := bitrate_step_size_bps_nest b in
  if has_frame_timing_sample then
    if nfr_avg ≺ nfr_thresh p then target ⊖ fz (bitrate_dec_steps p) ⊗ step
    else if rtt_thresh_ms p ≺ rtt_avg_ms then
      if F64.le r_rtt (rtt_adj_prob p) then target ⊖ fz (bitrate_dec_steps p) ⊗ step else target
    else if F64.le r_inc (bitrate_inc_prob p) then target ⊕ fz (bitrate_inc_steps p) ⊗ step
    else target
  else target.
Definition nestvr_pass (max_mbps min_mbps : f32) (p : ProfileConfig) b : outcome (BitrateManager * f32) :=
  let '(r_rtt, g) := sample_unit (bm_rng b) in
  let '(r_inc, g) := sample_unit g in
  let capacity_upper_limit := capacity_scaling_factor p ⊗ nestvr_capacity_bps b in
  let bps := fmin (nestvr_step p r_rtt r_inc b) capacity_upper_limit in
  let bps := minmax_bitrate bps (mega max_mbps) (mega min_mbps) in
  ladder ← unwrap (bitrate_ladder_bps b);
  bps ← upper_bound_bitrate bps ladder;
  Ret (set_target bps (set_nada (last_nada_target_bitrate_mbps b) g b), bps).
Definition adaptive_bps (saturation_multiplier : f32) (mx mn max_rtt : option f32) b : f32 :=
  let achieved_throughput_bps := mega (fmax (average (bitrate_average_mbps (windows b))) NANO) in
  let bps := achieved_throughput_bps ⊗ saturation_multiplier in
  let bps := match max_rtt with
             | Some max_ms =>
                 let rtt_s := fmax (average (rtt_average (windows b))) NANO in
                 fmin bps (achieved_throughput_bps ⊗ (max_ms ⊘ fz 1000) ⊘ rtt_s)
             | None => bps
             end in
  let bps := match mx with Some mx => fmin bps (mega mx) | None => bps end in
  match mn with Some mn => fmax bps (mega mn) | None => bps end.
(** [f32::EPSILON] *)
Definition EPSILON : f32 := S754_finite false 8388608 (-46).
Definition everest_rung (ladder_mbps : list f32) (order : EverestCommand) (current_mbps : f32) : outcome f32 :=
  match order with
  | Continue => Ret (default current_mbps (List.find (λ x, F32.abs (x ⊖ current_mbps) ≺ EPSILON) ladder_mbps))
  | SpeedUp =>
      match List.find (λ x, current_mbps ≺ x) ladder_mbps with
      | Some x => Ret x
      | None => unwrap (last ladder_mbps)
      end
  | SlowDown =>
      match List.find (λ x, x ≺ current_mbps) (reverse ladder_mbps) with
      | Some x => Ret x
      | None => unwrap (ladder_mbps !! 0%nat)
      end
  end.
Definition everest_pass (ladder_mbps : list f32) b : outcome (BitrateManager * f32) :=
  let e := everest b in
  mbps ← everest_rung ladder_mbps (everest_last_order e) (per_mega (last_target_bitrate_bps b));
  let bps := mega mbps in
  let bps := if F32.zero ≺ everest_throughput_ewma e then
               let n_users := F32.ceil_usize (everest_capacity_ewma e ⊘ everest_throughput_ewma e) in
               fmin (everest_capacity_ewma e ⊘ (fz n_users ⊕ fz 1)) bps
             else bps in
  bps ← match bitrate_ladder_bps b with Some ladder => upper_bound_bitrate bps ladder | None => Ret bps end;
  Ret (set_target bps b, bps).
(** The least cap that is in effect from [now] to the end of the lookahead. *)
Definition cap_mbps (p : Bandwidth) : f32 := F64.to_f32 (F64.div (max_bps p) (F64.of_Z 1000000)).
Definition active (now : T) (p : Bandwidth) : bool := time_le (valid_from p) now && time_lt now (valid_until p).
Definition overlaps (now horizon : T) (p : Bandwidth) : bool := time_le (valid_from p) horizon && time_lt now (valid_until p).
Definition min_cap_step (now horizon : T) (acc : option f32) (p : Bandwidth) : option f32 :=
  if overlaps now horizon p
  then Some (match acc with Some m => fmin m (cap_mbps p) | None => cap_mbps p end) else acc.
Definition oracle_min_cap_over_lookahead_mbps (now : T) b : outcome (option f32) :=
  d ← F64.to_nanos (F64.of_f32 ORACLE_LOOKAHEAD_SECS);
  let horizon := default now (checked_add now d) in
  let trace := oracle_bandwidth_trace b in
  Ret (if existsb (active now) trace then foldl (min_cap_step now horizon) None trace else None).
Definition TIME_WARMUP_ABR : Z := 8.
Definition one_pass_abr (now : T) b : outcome (BitrateManager * f32) :=
  elapsed ← since now Edca.EPOCH;
  if elapsed <? TIME_WARMUP_ABR * 10 ^ 9 then Ret (b, last_target_bitrate_bps b)
  else
    let now_secs := F64.to_f32 (taitime_to_f64 now) in
    '(v, fl) ← sum_flr now_secs (flr_shardloss_count b);
    '(v, sl) ← sum_shard_loss now_secs v;
    _ ← add_usize fl sl;
    let b := set_losses v b in
    let return_target bps := Ret (set_target bps b, bps) in
    match bitrate_mode b with
    | ConstantMbps mbps => return_target (mega mbps)
    | Adaptive sat mx mn max_rtt => return_target (adaptive_bps sat mx mn max_rtt b)
    | EVeREst ladder_mbps => everest_pass ladder_mbps b
    | NestVr mx mn _ p => nestvr_pass mx mn p b
    | GCCPort g _ => return_target (F64.to_f32 (Gcc.get_target_bitrate_bps g))
    | NADACiscoPort =>
        return_target match last_nada_target_bitrate_mbps b with
                      | Some mbps => F64.to_f32 (F64.mul mbps (F64.of_Z 1000000))
                      | None => fz NADA_INITIAL_RATE
                      end
    | FovOptixPort _ => Ret (b, last_target_bitrate_bps b)
    | Oracle margin mn mx =>
        cap ← oracle_min_cap_over_lookahead_mbps now b;
        return_target match cap with
                      | Some cap => mega (fmin (fmax (cap ⊖ margin) mn) mx)
                      | None => last_target_bitrate_bps b
                      end
    end.

(** *** The oracle between two passes *)
Definition oracle_ramp_target_mbps (cap margin mn : f32) (now : T) b : outcome f32 :=
  let target_mbps := fmax (cap ⊖ margin) mn in
  let prev_mbps := per_mega (last_target_bitrate_bps b) in
  if F64.le prev_mbps target_mbps then
    elapsed ← secs now (last_update_instant b);
    Ret (fmin (prev_mbps ⊕ ORACLE_RAMP_UP_MBPS_PER_SEC ⊗ fmax elapsed F32.zero) target_mbps)
  else Ret target_mbps.
Definition oracle_apply_cap (now : T) (cap : f32) b : outcome BitrateManager :=
  match bitrate_mode b with
  | Oracle margin mn _ =>
      new_mbps ← oracle_ramp_target_mbps cap margin mn now b;
      Ret (set_instants (last_frame_instant b) now (last_stats_received b) (set_target (mega new_mbps) b))
  | _ => Ret b
  end.
Definition oracle_snap_to_cap (now : T) b : outcome BitrateManager :=
  match List.find (active now) (oracle_bandwidth_trace b) with
  | Some p => oracle_apply_cap now (cap_mbps p) b
  | None => Ret b
  end.

(** ** The handlers of [XRServer] that drive the manager *)
(** The start of [generate_video_frame]: the watchdog, then the algorithm.  The bitrate is
    that of the frame's [PerfectInfoBitrateMessage], if one is sent. *)
Definition is_everest (m : BitrateMode) : bool := match m with EVeREst _ => true | _ => false end.
Definition is_gcc (m : BitrateMode) : bool := match m with GCCPort _ _ => true | _ => false end.
Definition is_fovoptix (m : BitrateMode) : bool := match m with FovOptixPort _ => true | _ => false end.
Definition is_oracle (m : BitrateMode) : bool := match m with Oracle _ _ _ => true | _ => false end.
Definition pass_now (now : T) b : outcome (BitrateManager * option f32) :=
  '(b, bps) ← one_pass_abr now b;
  Ret (set_instants (last_frame_instant b) now (last_stats_received b) b, Some (per_mega bps)).
(** [fovoptix]: whether the server has a FovOptix manager, in which case the per-frame branch panics. *)
Definition frame_abr (t_update_abr : f32) (fovoptix : bool) (now : T) b : outcome (BitrateManager * option f32) :=
  duration_abr ← F32.to_nanos t_update_abr;
  '(b, _) ← stats_timeout_per_frame now b;
  let m := bitrate_mode b in
  if negb (is_everest m) || negb (is_gcc m) || negb (is_fovoptix m) || negb (is_oracle m) then
    elapsed ← since now (last_update_instant b);
    if duration_abr <=? elapsed then pass_now now b else Ret (b, None)
  else if is_fovoptix m && fovoptix then Panic
  else pass_now now b.
(** The feedback of NADA in [handle_control_packet] and [nada_timer_report]. *)
Definition nada_target (s : NadaSender) : f64 :=
  F64.div (F64.div (F64.of_Z (get_target_bitrate s)) (F64.of_Z 1024)) (F64.of_Z 1024).
Definition nada_feedback (now send_instant : T) (report : NADAFeedbackReport) (fps : f32) (s : NadaSender) b
    : outcome (NadaSender * BitrateManager) :=
  sent ← micros send_instant;
  s ← update_on_receive_feedback now sent report (F64.of_f32 fps) s;
  Ret (s, set_nada (Some (nada_target s)) (bm_rng b) b).
Definition nada_timer_feedback (now : T) (r : NadaTimerReport) (fps : f32) (s : NadaSender) b : outcome (NadaSender * BitrateManager) :=
  let report := mkReport (nr_rmode r) (nr_xcurr r) (nr_recv r) (nr_d_queue r) (nr_d_tilde r) (nr_plr r) in
  s ← update_on_timer_feedback now report (F64.of_f32 fps) s;
  Ret (s, set_nada (Some (nada_target s)) (bm_rng b) b).
(** [DeadlineShardLossStat]: one frame lost with its shards, for every entry. *)
Fixpoint deadline_losses (now : T) (losses : list (Z * Z)) b : outcome BitrateManager :=
  match losses with
  | [] => Ret b
  | (_, shards) :: losses =>
      t ← secs now Edca.EPOCH;
      b ← report_shard_and_frame_loss 1 shards t b;
      deadline_losses now losses b
  end.
(** The messages of the oracle. *)
Definition oracle_bandwidth_step (now : T) b : outcome BitrateManager := oracle_snap_to_cap now b.
Definition oracle_apply_lookahead_cap (cap : f32) (now : T) b : outcome BitrateManager := oracle_apply_cap now cap b.
End manager.

Example ladders : F64Ops.as_i64 <$> nest_ladder = [10000000; 20000000; 30000000; 40000000; 50000000; 60000000; 70000000; 80000000;
  90000000; 100000000].
Proof. vm_compute. reflexivity. Qed.
Example rungs : (λ x, F64Ops.as_i64 <$> upper_bound_bitrate (fz x) nest_ladder) <$> [5; 10000000; 19000000; 47000000; 200000000]
  = Ret <$> [10000000; 10000000; 10000000; 40000000; 100000000].
Proof. vm_compute. reflexivity. Qed.
End Abr.
