(* ===== verification/AbrFacts.v ===== *)
(** * The bitrate manager keeps to its ladder

    [upper_bound_exact]: the binary search gives the highest rung that is not above the
    bitrate.  [loss_sums_exact]: the cached sums of losses are the sums of what is
    kept.  [target_on_ladder], [pass_gives_rung]: the target of NeSt-VR and EVeREst is
    always a rung.  [watchdog_steps_down]: what missing statistics do.
    [oracle_under_caps]: the oracle's bitrate.  [no_per_frame_pass], [gcc_reset_target],
    [nada_target_is_low]: three places where the code does not do what it means to. *)

From Stdlib Require Import SpecFloat.
From S2P Require Import Prelude Scheduler SeqExecutor F32 SimRng Airtime Edca F64Ops Gcc Nada Abr.

Module AbrFacts.
Import F64Ops Abr.

(** ** The search in the ladder *)
Section search.
Context (b : f32) (l : list f32).
Hypothesis numbers : Forall (λ x : f32, is_nan x = false) l.
Hypothesis increasing : ∀ i j (x y : f32), (i < j)%nat → l !! i = Some x → l !! j = Some y → F64.lt x y = true.
Hypothesis number : is_nan b = false.
Abbreviation f := (λ x : f32, default Lt (SFcompare x b)).

Lemma lookup_number i (x : f32) : l !! i = Some x → is_nan x = false.
Proof. intros Hx. by eapply Forall_lookup_1 in numbers. Qed.
(** The comparison says whether the rung is at most the bitrate. *)
Lemma below i (x : f32) : l !! i = Some x → f x ≠ Gt ↔ F64.le x b = true.
Proof.
  intros Hx%lookup_number. rewrite le_spec, compare_key by done. cbn. naive_solver.
Qed.
Lemma below_down i j (x y : f32) : (i ≤ j)%nat → l !! i = Some x → l !! j = Some y → F64.le y b = true → F64.le x b = true.
Proof.
  intros Hij Hx Hy Hle. destruct (decide (i = j)) as [->|]; [congruence|].
  apply (le_trans x y b); [|done]. apply lt_le, (increasing i j); [lia|done..].
Qed.
(** A rung not above the bitrate at [base], unless [base] is 0; all rungs from [base + size] on are above. *)
Lemma search_ok fuel : ∀ base size, (1 ≤ size)%nat → (size ≤ S fuel)%nat → (base + size ≤ length l)%nat →
  (base = 0%nat ∨ ∃ x : f32, l !! base = Some x ∧ F64.le x b = true) →
  (∀ j (x : f32), (base + size ≤ j)%nat → l !! j = Some x → F64.le x b = false) →
  ∃ r, search_loop fuel f l base size = Ret r ∧ (r < length l)%nat ∧
    (r = 0%nat ∨ ∃ x : f32, l !! r = Some x ∧ F64.le x b = true) ∧ (∀ j (x : f32), (S r ≤ j)%nat → l !! j = Some x → F64.le x b = false).
Proof.
  induction fuel as [|fuel IH]; intros base size H1 Hf Hl Hb Ha; cbn [search_loop].
  - rewrite (proj2 (Nat.leb_le size 1)) by lia. exists base. split_and!; [done|lia|done|]. intros j x Hj. apply Ha. lia.
  - destruct (Nat.leb_spec size 1).
    { exists base. split_and!; [done|lia|done|]. intros j x Hj. apply Ha. lia. }
    assert (size / 2 < size)%nat by (apply Nat.div_lt; lia). assert (2 * (size / 2) ≤ size)%nat by (apply Nat.Div0.mul_div_le). assert (1 ≤ size / 2)%nat by (apply Nat.div_le_lower_bound; lia).
    destruct (lookup_lt_is_Some_2 l (base + size / 2)) as [x Hx]; [lia|]. rewrite Hx. cbn [unwrap mbind outcome_bind].
    pose proof (below _ _ Hx) as Hbel. destruct (F64.le x b) eqn:Ele.
    + destruct (default Lt (SFcompare x b)) eqn:Ef; [| |by destruct (proj2 Hbel eq_refl)];
        (apply IH; [lia..|right; by exists x|intros j y Hj; apply Ha; lia]).
    + destruct (default Lt (SFcompare x b)) eqn:Ef; [by assert (false = true) by (by apply Hbel)..|].
      apply IH; [lia..|done|]. intros j y Hj Hy. destruct (F64.le y b) eqn:E; [|done].
      rewrite (below_down (base + size / 2) j x y) in Ele; [done|lia|done..].
Qed.
Lemma upper_bound_ok : l ≠ [] → ∃ r, upper_bound_bitrate b l = Ret r ∧ r ∈ l ∧
  (F64.le r b = true ∧ (∀ x : f32, x ∈ l → F64.le x b = true → F64.le x r = true) ∨
   (∀ x : f32, x ∈ l → F64.le x b = false) ∧ head l = Some r).
Proof.
  intros Hne. assert (1 ≤ length l)%nat as Hlen by (destruct l; cbn; [done|lia]).
  unfold upper_bound_bitrate, binary_search_by. rewrite (proj2 (Nat.eqb_neq (length l) 0)) by lia.
  destruct (search_ok (length l) 0 (length l)) as (k & -> & Hk & Hb & Ha); [lia..|by left|intros j x Hj Hx%lookup_lt_Some; exfalso; lia|].
  destruct (lookup_lt_is_Some_2 l k Hk) as [x Hx]. ret_step. rewrite Hx. cbn [unwrap mbind outcome_bind].
  pose proof (below _ _ Hx) as Hbel.
  assert (F64.le x b = true → F64.le x b = true ∧ (∀ y : f32, y ∈ l → F64.le y b = true → F64.le y x = true)) as Hgood.
  { intros Hle. split; [done|]. intros y [j Hj]%list_elem_of_lookup Hy. destruct (Nat.le_gt_cases j k).
    - destruct (decide (j = k)) as [->|]; [rewrite Hx in Hj; injection Hj as ->; apply le_refl; by eapply lookup_number|].
      apply lt_le, (increasing j k); [lia|done..].
    - rewrite (Ha j y) in Hy; [done|lia|done]. }
  destruct (default Lt (SFcompare x b)) eqn:Ef.
  - rewrite Hx. cbn [unwrap]. exists x. split_and!; [done|by eapply list_elem_of_lookup_2|]. left. apply Hgood, Hbel. done.
  - rewrite Hx. cbn [unwrap]. exists x. split_and!; [done|by eapply list_elem_of_lookup_2|]. left. apply Hgood, Hbel. done.
  - destruct Hb as [->|(y & Hy & Hle)]; [|rewrite Hx in Hy; injection Hy as <-; by destruct (proj2 Hbel Hle)].
    exists x. destruct l as [|y l'] eqn:El; [done|]. injection Hx as <-. cbn. split_and!; [done|by left|]. right. split; [|done].
    intros z [j Hj]%list_elem_of_lookup. destruct j; [|apply (Ha (S j)); [lia|done]]. injection Hj as <-.
    apply not_true_iff_false. intros Hle. by apply Hbel in Hle.
Qed.
End search.

(** A ladder: numbers, strictly increasing, at least one. *)
Definition ladder_ok (l : list f32) : bool :=
  bool_decide (l ≠ []) && forallb (λ x : f32, negb (is_nan x)) l &&
  forallb (λ p : f32 * f32, F64.lt p.1 p.2) (zip l (tail l)).
Lemma ladder_increasing l : ladder_ok l = true → ∀ i j (x y : f32), (i < j)%nat → l !! i = Some x → l !! j = Some y → F64.lt x y = true.
Proof.
  intros Hl i j x y Hij. unfold ladder_ok in Hl. apply andb_true_iff in Hl as [_ Hl]. revert y. induction Hij as [|j Hij IH]; intros y Hx Hy.
  - rewrite forallb_forall in Hl. apply (Hl (x, y)). apply list_elem_of_In, list_elem_of_lookup. exists i.
    apply lookup_zip_with_Some. exists x, y. split_and!; [done..|]. by rewrite lookup_tail.
  - destruct (lookup_lt_is_Some_2 l j) as [z Hz]; [apply lookup_lt_Some in Hy; lia|]. specialize (IH z Hx Hz).
    apply lt_spec in IH as (? & ? & E1). rewrite forallb_forall in Hl.
    assert (F64.lt z y = true) as (? & ? & E2)%lt_spec.
    { apply (Hl (z, y)). apply list_elem_of_In, list_elem_of_lookup. exists j. apply lookup_zip_with_Some. exists z, y.
      split_and!; [done..|]. by rewrite lookup_tail. }
    apply lt_spec. split_and!; try done. by eapply cmp_trans.
Qed.
Lemma ladder_numbers l : ladder_ok l = true → Forall (λ x : f32, is_nan x = false) l ∧ l ≠ [].
Proof.
  unfold ladder_ok. rewrite !andb_true_iff, bool_decide_eq_true, forallb_forall. intros [[Hne Hn] _]. split; [|done].
  apply Forall_forall. intros x Hx%list_elem_of_In%Hn. by destruct (is_nan x).
Qed.
(** The binary search of [upper_bound_bitrate] finds the right rung.  In a ladder of
    strictly increasing numbers, for any number, it returns the highest rung that is
    not above it, or the lowest rung when all are above. *)
Theorem upper_bound_exact l b : ladder_ok l = true → is_nan b = false →
  ∃ r, upper_bound_bitrate b l = Ret r ∧ r ∈ l ∧
    (F64.le r b = true ∧ (∀ x : f32, x ∈ l → F64.le x b = true → F64.le x r = true) ∨
     (∀ x : f32, x ∈ l → F64.le x b = false) ∧ head l = Some r).
Proof.
  intros Hl Hb. destruct (ladder_numbers l Hl) as [Hn Hne]. by apply upper_bound_ok; [|apply ladder_increasing|..].
Qed.
(** Any bitrate, NaN included, gives a rung. *)
Lemma search_total g (l : list f32) fuel : ∀ base size, (1 ≤ size)%nat → (size ≤ S fuel)%nat → (base + size ≤ length l)%nat →
  ∃ r, search_loop fuel g l base size = Ret r ∧ (r < length l)%nat.
Proof.
  induction fuel as [|fuel IH]; intros base size H1 Hf Hl; cbn [search_loop].
  - rewrite (proj2 (Nat.leb_le size 1)) by lia. exists base. split; [done|lia].
  - destruct (Nat.leb_spec size 1); [exists base; split; [done|lia]|].
    assert (size / 2 < size)%nat by (apply Nat.div_lt; lia). assert (1 ≤ size / 2)%nat by (apply Nat.div_le_lower_bound; lia).
    destruct (lookup_lt_is_Some_2 l (base + size / 2)) as [x Hx]; [lia|]. rewrite Hx. cbn [unwrap mbind outcome_bind].
    destruct (g x); apply IH; lia.
Qed.
Lemma upper_bound_rung l b : l ≠ [] → ∃ r, upper_bound_bitrate b l = Ret r ∧ r ∈ l.
Proof.
  intros Hne. assert (1 ≤ length l)%nat as Hlen by (destruct l; cbn; [done|lia]).
  unfold upper_bound_bitrate, binary_search_by. rewrite (proj2 (Nat.eqb_neq (length l) 0)) by lia.
  destruct (search_total (λ x, default Lt (SFcompare x b)) l (length l) 0 (length l)) as (k & -> & Hk); [lia..|].
  destruct (lookup_lt_is_Some_2 l k Hk) as [x Hx]. ret_step. rewrite Hx. cbn [unwrap mbind outcome_bind].
  destruct (default Lt _); [| |destruct k as [|k]].
  - rewrite Hx. exists x. split; [done|]. by eapply list_elem_of_lookup_2.
  - rewrite Hx. exists x. split; [done|]. by eapply list_elem_of_lookup_2.
  - destruct l as [|y l]; [done|]. exists y. split; [done|]. by left.
  - destruct (lookup_lt_is_Some_2 l k) as [y Hy]; [lia|]. rewrite Hy. exists y. split; [done|]. by eapply list_elem_of_lookup_2.
Qed.

(** ** Losses *)
Fixpoint fl_total (l : list (f32 * DataPoint)) : Z := match l with [] => 0 | p :: l => fl_report p.2 + fl_total l end.
Fixpoint sl_total (l : list (f32 * DataPoint)) : Z := match l with [] => 0 | p :: l => sl_report p.2 + sl_total l end.
Definition points_ok (l : list (f32 * DataPoint)) : Prop := Forall (λ p, 0 ≤ fl_report p.2 ∧ 0 ≤ sl_report p.2) l.
Record loss_inv (v : TimedVecFLR) : Prop := {
  li_points : points_ok (vec_data v);
  li_fl : current_flr_sum v = fl_total (vec_data v);
  li_sl : current_sl_sum v = sl_total (vec_data v)
}.
Lemma totals_nonneg l : points_ok l → 0 ≤ fl_total l ∧ 0 ≤ sl_total l.
Proof. induction 1 as [|x l [? ?] _ [? ?]]; cbn in *; lia. Qed.
Lemma prune_loop_ok cutoff l : points_ok l → ∃ l', prune_loop cutoff l (fl_total l) (sl_total l) = Ret (l', fl_total l', sl_total l') ∧
  l' `suffix_of` l ∧ (∀ t p, head l' = Some (t, p) → F64.lt t cutoff = false) ∧ points_ok l'.
Proof.
  intros Hp. induction Hp as [|[t p] l [H1 H2] Hl IH]; cbn [prune_loop].
  - exists []. split_and!; try done. constructor.
  - destruct (F64.lt t cutoff) eqn:E.
    + pose proof (totals_nonneg l Hl). unfold sub_usize. cbn [fl_total sl_total snd] in *.
      rewrite (proj2 (Z.leb_le (fl_report p) _)) by lia. ret_step.
      rewrite (proj2 (Z.leb_le (sl_report p) _)) by lia. ret_step.
      replace (fl_report p + fl_total l - fl_report p) with (fl_total l) by lia.
      replace (sl_report p + sl_total l - sl_report p) with (sl_total l) by lia.
      destruct IH as (l' & E' & Hs & Hh & Hp'). exists l'. split_and!; try done. by apply suffix_cons_r.
    + exists ((t, p) :: l). split_and!; try done; [|by constructor]. by intros t' p' [= <- <-].
Qed.
Lemma prune_ok cutoff v : loss_inv v → ∃ v', prune_old cutoff v = Ret v' ∧ loss_inv v' ∧ period v' = period v ∧
  vec_data v' `suffix_of` vec_data v ∧ (∀ t p, head (vec_data v') = Some (t, p) → F64.lt t cutoff = false).
Proof.
  intros [I1 I2 I3]. unfold prune_old. rewrite I2, I3. destruct (prune_loop_ok cutoff (vec_data v) I1) as (l' & -> & Hs & Hh & Hp).
  ret_step. eexists. split; [done|]. split_and!; done.
Qed.

Lemma totals_app l l' : fl_total (l ++ l') = fl_total l + fl_total l' ∧ sl_total (l ++ l') = sl_total l + sl_total l'.
Proof. induction l as [|p l [IH1 IH2]]; cbn; [lia|]. rewrite IH1, IH2. lia. Qed.
Lemma suffix_totals l l' : points_ok l → l' `suffix_of` l → points_ok l' ∧ fl_total l' ≤ fl_total l ∧ sl_total l' ≤ sl_total l.
Proof.
  intros Hp [k ->]. apply Forall_app in Hp as [Hk Hp]. pose proof (totals_nonneg k Hk). pose proof (totals_app k l'). split; [done|lia].
Qed.
(** Reports of lost frames and shards with their times. *)
Fixpoint loss_run (reports : list (Z * Z * f32)) (v : TimedVecFLR) : outcome TimedVecFLR :=
  match reports with
  | [] => Ret v
  | (fl, sl, t) :: reports => v ← flr_push_new fl sl t v; loss_run reports v
  end.
Definition points (reports : list (Z * Z * f32)) : list (f32 * DataPoint) := (λ r, (r.2, mkPoint r.1.1 r.1.2)) <$> reports.
Lemma loss_run_ok reports : ∀ v past, loss_inv v → vec_data v `suffix_of` past → points_ok (past ++ points reports) →
  fl_total (past ++ points reports) ≤ U64_MAX → sl_total (past ++ points reports) ≤ U64_MAX →
  ∃ v', loss_run reports v = Ret v' ∧ loss_inv v' ∧ vec_data v' `suffix_of` past ++ points reports.
Proof.
  induction reports as [|[[fl sl] t] reports IH]; intros v past Hi Hs Hp Hf Hsl; cbn [loss_run points fmap list_fmap].
  - exists v. rewrite app_nil_r. done.
  - cbn [points fmap list_fmap fst snd] in *. fold (points reports) in *.
    set (p := (t, mkPoint fl sl)) in *. replace (past ++ p :: points reports) with ((past ++ [p]) ++ points reports) in *
      by (by rewrite <-app_assoc).
    assert (points_ok (past ++ [p])) as Hp1 by (by apply Forall_app in Hp as [? _]).
    assert (vec_data v ++ [p] `suffix_of` past ++ [p]) as Hs1 by (by apply suffix_app).
    destruct (suffix_totals _ _ Hp1 Hs1) as (Hpv & H1 & H2).
    destruct (totals_app (past ++ [p]) (points reports)) as [E1 E2].
    assert (points_ok (points reports)) as Hpr by (by apply Forall_app in Hp as [_ ?]). pose proof (totals_nonneg _ Hpr).
    destruct Hi as [I1 I2 I3]. destruct (totals_app (vec_data v) [p]) as [E3 E4]. cbn in E3, E4.
    unfold flr_push_new, add_usize. rewrite I2, I3. change (t, mkPoint fl sl) with p.
    rewrite (proj2 (Z.leb_le (fl_total (vec_data v) + fl) _)) by lia. ret_step.
    rewrite (proj2 (Z.leb_le (sl_total (vec_data v) + sl) _)) by lia. ret_step.
    destruct (prune_ok (F32.sub t (period v)) (mkFLR (vec_data v ++ [p]) (period v) (fl_total (vec_data v) + fl) (sl_total (vec_data v) + sl)))
      as (v1 & -> & J1 & _ & Js & _); [split; cbn; [done|lia..]|]. ret_step.
    apply IH; try done. by etransitivity.
Qed.
(** The cached loss counts are exact.  After any reports whose totals fit in a
    [usize], no operation underflows or overflows, the two cached sums are the sums of
    the reports still kept, which are the most recent ones, and asking for the sum
    returns it for the reports left after dropping the old ones. *)
Theorem loss_sums_exact p reports now : points_ok (points reports) → fl_total (points reports) ≤ U64_MAX → sl_total (points reports) ≤ U64_MAX →
  ∃ v v' n, loss_run reports (flr_new p) = Ret v ∧ sum_flr now v = Ret (v', n) ∧ vec_data v `suffix_of` points reports ∧
    current_flr_sum v = fl_total (vec_data v) ∧ current_sl_sum v = sl_total (vec_data v) ∧
    n = fl_total (vec_data v') ∧ vec_data v' `suffix_of` vec_data v ∧
    (∀ t d, head (vec_data v') = Some (t, d) → F64.lt t (F32.sub now (period v)) = false).
Proof.
  intros Hp Hf Hs. destruct (loss_run_ok reports (flr_new p) []) as (v & E & [I1 I2 I3] & Hv); [split; [constructor|done..]|done..|].
  destruct (prune_ok (F32.sub now (period v)) v) as (v' & E' & [J1 J2 J3] & _ & Jv & Jh); [by split|].
  exists v, v', (fl_total (vec_data v')). unfold sum_flr. rewrite E'. ret_step. rewrite J2. split_and!; done.
Qed.

(** ** Reachable states *)
Section manager.
Context {T : Type} `{TaiTime T} `{!Edca.Epoch T}.
Context (sample_unit : Rng.SimRng → f32 * Rng.SimRng) (powf : f64 → f64 → f64).
Implicit Types b : BitrateManager (T := T).
(** The handlers, whatever their arguments. *)
Inductive abr_step : BitrateManager (T := T) → BitrateManager (T := T) → Prop :=
| step_reset now b b' : reset now b = Ret b' → abr_step b b'
| step_frame now b b' : report_encoded_frame_server now b = Ret b' → abr_step b b'
| step_stats rtt peak inter s now sent b b' : report_network_statistics_abr powf rtt peak inter s now sent b = Ret b' → abr_step b b'
| step_losses now losses b b' : deadline_losses now losses b = Ret b' → abr_step b b'
| step_abr t fo now b b' x : frame_abr sample_unit t fo now b = Ret (b', x) → abr_step b b'
| step_nada now sent rp fps s s' b b' : nada_feedback now sent rp fps s b = Ret (s', b') → abr_step b b'
| step_nada_timer now r fps s s' b b' : nada_timer_feedback now r fps s b = Ret (s', b') → abr_step b b'
| step_oracle now b b' : oracle_bandwidth_step now b = Ret b' → abr_step b b'
| step_lookahead cap now b b' : oracle_apply_lookahead_cap cap now b = Ret b' → abr_step b b'.
(** The mode uses the ladder, which holds its highest bitrate. *)
Definition uses_ladder (l : list f32) (m : BitrateMode) : Prop :=
  match m with
  | NestVr mx _ _ _ => mega mx ∈ l
  | EVeREst lm => ∃ x, last lm = Some x ∧ mega x ∈ l
  | _ => False
  end.
Record on_ladder (l : list f32) b : Prop := {
  ol_mode : uses_ladder l (bitrate_mode b);
  ol_ladder : bitrate_ladder_bps b = Some l;
  ol_target : last_target_bitrate_bps b ∈ l
}.
Lemma rung_ne l (x : f32) : x ∈ l → l ≠ [].
Proof. intros Hx ->. by apply not_elem_of_nil in Hx. Qed.
Lemma reset_ladder l now b b' : on_ladder l b → reset now b = Ret b' → on_ladder l b'.
Proof.
  intros [I1 I2 I3]. unfold reset. destruct (bitrate_mode b) eqn:Em; try done; cbn [uses_ladder] in I1.
  - destruct I1 as (x & Ex & Hx). rewrite Ex. cbn. destruct (time_le _ _); [|done]. intros [= <-]. split; cbn; [|done..]. by exists x.
  - cbn. destruct (time_le _ _); [|done]. by intros [= <-].
Qed.
Lemma stats_ladder l rtt peak inter s now sent b b' : on_ladder l b →
  report_network_statistics_abr powf rtt peak inter s now sent b = Ret b' → on_ladder l b'.
Proof.
  intros [I1 I2 I3] E. unfold report_network_statistics_abr in E.
  inv_ret E as (m & Em & E). inv_ret E as (t & _ & E). inv_ret E as (e & _ & E).
  inv_ret E as ([v n] & _ & E). inv_ret E as ([v' n'] & _ & E). injection E as <-.
  assert (m = bitrate_mode b) as -> by (cbn in Em; by destruct (bitrate_mode b); simplify_eq/=). by split.
Qed.
Lemma losses_ladder l now losses : ∀ b b', on_ladder l b → deadline_losses now losses b = Ret b' → on_ladder l b'.
Proof.
  induction losses as [|[i n] losses IH]; intros b b' Hi E; cbn [deadline_losses] in E; [by injection E as <-|].
  inv_ret E as (t & _ & E). inv_ret E as (b1 & E1 & E). apply (IH b1); [|done].
  unfold report_shard_and_frame_loss in E1. inv_ret E1 as (v & _ & E1). injection E1 as <-. by destruct Hi.
Qed.
Lemma timeout_ladder l now b b' : on_ladder l b → check_stats_timeout now b = Ret b' → on_ladder l b'.
Proof.
  intros [I1 I2 I3] E. unfold check_stats_timeout in E. inv_ret E as (d & _ & E).
  repeat (destruct (bool_decide _) || destruct (negb _) || destruct (_ <? d)); try (by injection E as <-).
  cbn [bitrate_ladder_bps set_instants] in E. rewrite I2 in E. destruct l as [|x l]; [by injection E as <-|].
  inv_ret E as (c & _ & E). inv_ret E as (n & En & E). apply unwrap_Ret in En. injection E as <-.
  destruct (F64Ops.ne _ _); [|by split]. split; cbn; try done. by eapply list_elem_of_lookup_2.
Qed.
(** The two passes give a rung. *)
Lemma nestvr_rung l mx mn p b : on_ladder l b →
  ∃ b' bps, nestvr_pass sample_unit mx mn p b = Ret (b', bps) ∧ bps ∈ l ∧ on_ladder l b'.
Proof.
  intros [I1 I2 I3]. unfold nestvr_pass. destruct (sample_unit (bm_rng b)) as [r1 g1]. destruct (sample_unit g1) as [r2 g2].
  rewrite I2. cbn [unwrap mbind outcome_bind].
  edestruct (upper_bound_rung l) as (r & Er & Hr); [by eapply rung_ne|]. rewrite Er. ret_step.
  eexists _, r. split; [done|]. by split_and!.
Qed.
Lemma everest_rung_ok lm o c : lm ≠ [] → ∃ x, everest_rung lm o c = Ret x.
Proof.
  intros Hne. destruct o; cbn.
  - destruct (List.find _ _); [by eexists|]. destruct lm; [done|by eexists].
  - destruct (List.find _ _); [by eexists|]. destruct (last lm) eqn:E; [by eexists|]. by apply last_None in E.
  - by eexists.
Qed.
Lemma everest_pass_rung l lm b : on_ladder l b → bitrate_mode b = EVeREst lm →
  ∃ b' bps, everest_pass lm b = Ret (b', bps) ∧ bps ∈ l ∧ on_ladder l b'.
Proof.
  intros [I1 I2 I3] Em. unfold everest_pass. rewrite Em in I1. destruct I1 as (y & Ey & Hy).
  destruct (everest_rung_ok lm (everest_last_order (everest b)) (per_mega (last_target_bitrate_bps b))) as [x ->]; [by intros ->|].
  ret_step. rewrite I2.
  edestruct (upper_bound_rung l) as (r & Er & Hr); [by eapply rung_ne|]. rewrite Er. ret_step.
  eexists _, r. split; [done|]. split; [done|]. split; cbn; [|done..]. rewrite Em. by exists y.
Qed.
Lemma pass_ladder l now b b' bps : on_ladder l b → one_pass_abr sample_unit now b = Ret (b', bps) → on_ladder l b' ∧ bps ∈ l.
Proof.
  intros Hi E. unfold one_pass_abr in E. inv_ret E as (n & _ & E).
  destruct (_ <? _); [injection E as <- <-; split; [done|apply Hi]|].
  inv_ret E as ([v x] & _ & E). inv_ret E as ([v' y] & _ & E). inv_ret E as (z & _ & E).
  cbv zeta in E. set (b1 := set_losses v' b) in *. assert (on_ladder l b1) as H1 by (by destruct Hi).
  pose proof (ol_mode _ _ H1) as Hm. destruct (bitrate_mode b1) eqn:Em; cbn in Hm; try contradiction.
  - destruct (everest_pass_rung l _ b1 H1 Em) as (b2 & r & E2 & ? & ?). rewrite E2 in E. by injection E as <- <-.
  - destruct (nestvr_rung l max_bitrate_mbps min_bitrate_mbps nest_vr_profile b1 H1) as (b2 & r & E2 & ? & ?).
    rewrite E2 in E. by injection E as <- <-.
Qed.
Lemma frame_ladder l t fo now b b' x : on_ladder l b → frame_abr sample_unit t fo now b = Ret (b', x) → on_ladder l b'.
Proof.
  intros Hi E. unfold frame_abr in E. inv_ret E as (d & _ & E). inv_ret E as ([b1 y] & E1 & E).
  assert (on_ladder l b1) as H1.
  { unfold stats_timeout_per_frame in E1. inv_ret E1 as (b2 & E2 & E1). injection E1 as <- <-.
    destruct (bitrate_mode b); try (by injection E2 as <-). by eapply timeout_ladder. }
  assert (∀ r, pass_now sample_unit now b1 = Ret r → on_ladder l r.1) as Hpass.
  { intros r Er. unfold pass_now in Er. inv_ret Er as ([b3 z] & E3 & Er). injection Er as <-.
    apply (pass_ladder l) in E3 as [H3 _]; [|done]. by destruct H3. }
  cbv zeta in E. destruct (_ || _).
  - inv_ret E as (el & _ & E). destruct (_ <=? _); [by apply Hpass in E|by injection E as <- <-].
  - destruct (_ && _); [done|]. by apply Hpass in E.
Qed.
Lemma oracle_ladder l cap now b b' : on_ladder l b → oracle_apply_cap now cap b = Ret b' → on_ladder l b'.
Proof.
  intros Hi E. unfold oracle_apply_cap in E. pose proof (ol_mode _ _ Hi) as Hm. by destruct (bitrate_mode b); simplify_eq.
Qed.
Lemma step_ladder l b b' : on_ladder l b → abr_step b b' → on_ladder l b'.
Proof.
  intros Hi Hs. destruct Hs.
  - by eapply reset_ladder.
  - unfold report_encoded_frame_server in *. destruct (bool_decide _).
    + match goal with E : _ = Ret b' |- _ => inv_ret E as (d & _ & E); injection E as <- end. by destruct Hi.
    + match goal with E : _ = Ret b' |- _ => injection E as <- end. by destruct Hi.
  - by eapply stats_ladder.
  - by eapply losses_ladder.
  - by eapply frame_ladder.
  - match goal with E : nada_feedback _ _ _ _ _ _ = _ |- _ => unfold nada_feedback in E;
      inv_ret E as (? & _ & E); inv_ret E as (? & _ & E); injection E as <- <- end. by destruct Hi.
  - match goal with E : nada_timer_feedback _ _ _ _ _ = _ |- _ => unfold nada_timer_feedback in E;
      inv_ret E as (? & _ & E); injection E as <- <- end. by destruct Hi.
  - match goal with E : oracle_bandwidth_step _ _ = _ |- _ => unfold oracle_bandwidth_step, oracle_snap_to_cap in E end.
    destruct (List.find _ _); [by eapply oracle_ladder|by simplify_eq].
  - by eapply oracle_ladder.
Qed.
Lemma new_on_ladder n fr init abr p fps t trace g : abr = 1 ∨ abr = 2 →
  on_ladder (ladder_new abr) (manager_new n fr init abr p fps t trace g).
Proof.
  assert (mega MAX_MBPS_LADDER ∈ ladder_new 1) as H1 by (apply (list_elem_of_lookup_2 _ 9); vm_compute; reflexivity).
  assert (mega MAX_MBPS_LADDER ∈ ladder_new 2) as H2 by (apply (list_elem_of_lookup_2 _ 5); vm_compute; reflexivity).
  intros [->| ->]; split; [exact H1|reflexivity|exact H1| |reflexivity|exact H2].
  exists MAX_MBPS_LADDER. split; [reflexivity|exact H2].
Qed.
(** C23: NeSt-VR and EVeREst stay on their ladder.  From construction, through any
    sequence of frames, statistics, losses, passes, watchdog steps, feedback, oracle
    messages and session resets, the target bitrate is one of the rungs, and so is the
    bitrate that any further pass of the algorithm returns. *)
Theorem target_on_ladder n fr init abr p fps t trace g b : abr = 1 ∨ abr = 2 →
  rtc abr_step (manager_new n fr init abr p fps t trace g) b →
  last_target_bitrate_bps b ∈ ladder_new abr ∧
  (∀ now b' bps, one_pass_abr sample_unit now b = Ret (b', bps) → bps ∈ ladder_new abr).
Proof.
  intros Ha Hr. assert (on_ladder (ladder_new abr) b) as Hi.
  { pose proof (new_on_ladder n fr init abr p fps t trace g Ha) as Hnew. induction Hr as [|b1 b2 b3 Hs _ IH]; [done|].
    apply IH. by eapply step_ladder. }
  split; [apply Hi|]. intros now b' bps E. by apply (pass_ladder (ladder_new abr)) in E as [_ ?].
Qed.
(** A pass returns when the losses it counts fit in a [usize]. *)
Lemma loss_counts v t : loss_inv v → fl_total (vec_data v) + sl_total (vec_data v) ≤ U64_MAX →
  ∃ v' v'' fl sl, sum_flr t v = Ret (v', fl) ∧ sum_shard_loss t v' = Ret (v'', sl) ∧ ∃ z, add_usize fl sl = Ret z.
Proof.
  intros Hi Hb. unfold sum_flr, sum_shard_loss.
  destruct (prune_ok (F32.sub t (period v)) v Hi) as (v1 & E1 & I1 & Ep & S1 & _). rewrite E1.
  destruct (prune_ok (F32.sub t (period v1)) v1 I1) as (v2 & E2 & I2 & _ & S2 & _). ret_step.
  exists v1, v2, (current_flr_sum v1), (current_sl_sum v2). rewrite E2. split; [done|]. split; [done|].
  destruct (suffix_totals _ _ (li_points _ Hi) S1) as (? & ? & ?). destruct (suffix_totals _ _ (li_points _ I1) S2) as (? & ? & ?).
  rewrite (li_fl _ I1), (li_sl _ I2). unfold add_usize. rewrite (proj2 (Z.leb_le _ _)) by lia. by eexists.
Qed.
Lemma pass_counts now b : loss_inv (flr_shardloss_count b) →
  fl_total (vec_data (flr_shardloss_count b)) + sl_total (vec_data (flr_shardloss_count b)) ≤ U64_MAX →
  nanos Edca.EPOCH + 8 * 10 ^ 9 ≤ nanos now → ∃ v, one_pass_abr sample_unit now b =
    let b := set_losses v b in
    match bitrate_mode b with
    | ConstantMbps mbps => Ret (set_target (mega mbps) b, mega mbps)
    | Adaptive sat mx mn max_rtt => Ret (set_target (adaptive_bps sat mx mn max_rtt b) b, adaptive_bps sat mx mn max_rtt b)
    | EVeREst lm => everest_pass lm b
    | NestVr mx mn _ p => nestvr_pass sample_unit mx mn p b
    | GCCPort g _ => Ret (set_target (F64.to_f32 (Gcc.get_target_bitrate_bps g)) b, F64.to_f32 (Gcc.get_target_bitrate_bps g))
    | NADACiscoPort =>
        let bps := match last_nada_target_bitrate_mbps b with
                   | Some mbps => F64.to_f32 (F64.mul mbps (F64.of_Z 1000000))
                   | None => fz Nada.NADA_INITIAL_RATE
                   end in Ret (set_target bps b, bps)
    | FovOptixPort _ => Ret (b, last_target_bitrate_bps b)
    | Oracle margin mn mx =>
        cap ← oracle_min_cap_over_lookahead_mbps now b;
        let bps := match cap with Some cap => mega (fmin (fmax (F32.sub cap margin) mn) mx) | None => last_target_bitrate_bps b end in
        Ret (set_target bps b, bps)
    end.
Proof.
  intros Hi Hb Hn. unfold one_pass_abr, since. rewrite (proj2 (time_le_spec Edca.EPOCH now)) by lia. ret_step.
  rewrite (proj2 (Z.ltb_ge _ _)) by (unfold TIME_WARMUP_ABR; lia).
  destruct (loss_counts _ (F64.to_f32 (taitime_to_f64 now)) Hi Hb) as (v & v' & fl & sl & E1 & E2 & z & E3).
  rewrite E1. ret_step. rewrite E2. ret_step. rewrite E3. ret_step.
  by exists v'.
Qed.
(** A pass of NeSt-VR or EVeREst always returns a rung.  On a ladder, with losses
    that fit in a [usize] and after the warm-up of eight seconds, [one_pass_abr] does
    not panic, whatever the statistics (NaN averages of empty windows included) and the
    random draws; it returns a rung and leaves the manager on its ladder. *)
Theorem pass_gives_rung l now b : on_ladder l b → loss_inv (flr_shardloss_count b) →
  fl_total (vec_data (flr_shardloss_count b)) + sl_total (vec_data (flr_shardloss_count b)) ≤ U64_MAX →
  nanos Edca.EPOCH + 8 * 10 ^ 9 ≤ nanos now →
  ∃ b' bps, one_pass_abr sample_unit now b = Ret (b', bps) ∧ bps ∈ l ∧ on_ladder l b'.
Proof.
  intros Hi Hl Hb Hn. destruct (pass_counts now b Hl Hb Hn) as [v ->]. cbv zeta.
  assert (on_ladder l (set_losses v b)) as H1 by (by destruct Hi). pose proof (ol_mode _ _ H1) as Hm.
  destruct (bitrate_mode (set_losses v b)) eqn:Em; cbn in Hm; try contradiction; [by apply everest_pass_rung|by apply nestvr_rung].
Qed.

(** ** The watchdog *)
Lemma eqb_refl x : is_nan x = false → F64.eqb x x = true.
Proof. intros Hx. unfold F64.eqb, SFeqb. rewrite compare_key by done. by rewrite cmp_refl. Qed.
Lemma lt_eqb x y : F64.lt x y = true → F64.eqb x y = false.
Proof. intros (? & ? & E)%lt_spec. unfold F64.eqb, SFeqb. rewrite compare_key by done. by rewrite E. Qed.
Lemma position_rung l : ladder_ok l = true → ∀ i (x : f32), l !! i = Some x → position x l = Some i.
Proof.
  intros Hl. assert (∀ k, ladder_ok l = true → ∀ i (x : f32), (drop k l) !! i = Some x → position x (drop k l) = Some i) as Hk.
  { clear Hl. intros k Hl i. revert k. induction i as [|i IH]; intros k x Hx.
    - destruct (drop k l) as [|y l'] eqn:Ed; [done|]. injection Hx as ->. cbn. rewrite eqb_refl; [done|].
      apply (lookup_number l (proj1 (ladder_numbers l Hl)) k). rewrite <-(Nat.add_0_r k), <-lookup_drop, Ed. reflexivity.
    - destruct (drop k l) as [|y l'] eqn:Ed; [done|]. change (l' !! i = Some x) in Hx. cbn [position].
      assert (l !! k = Some y) as Hy by (rewrite <-(Nat.add_0_r k), <-lookup_drop, Ed; done).
      assert (l' = drop (S k) l) as -> by (replace (S k) with (k + 1)%nat by lia; by rewrite <-drop_drop, Ed).
      pose proof Hx as Hx2. rewrite lookup_drop in Hx2. rewrite (lt_eqb y x), (IH (S k)); [done..|].
      apply (ladder_increasing l Hl k (S k + i)); [lia|done..]. }
  intros i x Hx. by apply (Hk 0%nat).
Qed.
Lemma upper_bound_fix l i (x : f32) : ladder_ok l = true → l !! i = Some x → upper_bound_bitrate x l = Ret x.
Proof.
  intros Hl Hx. destruct (ladder_numbers l Hl) as [Hn Hne]. pose proof (lookup_number l Hn _ _ Hx) as Nx.
  pose proof (list_elem_of_lookup_2 _ _ _ Hx) as Ix.
  destruct (upper_bound_ok x l Hn (ladder_increasing l Hl) Nx Hne) as (r & Er & Hr & [[H1 H2]|[H1 _]]); [|specialize (H1 x Ix); by rewrite (le_refl x Nx) in H1].
  rewrite Er. f_equal. specialize (H2 x Ix (le_refl x Nx)). apply list_elem_of_lookup in Hr as [j Hj].
  destruct (Nat.lt_trichotomy i j) as [Hij|[->|Hij]]; [|congruence|].
  - pose proof (ladder_increasing l Hl i j x r Hij Hx Hj) as Hlt. by rewrite (le_lt r x) in Hlt.
  - pose proof (ladder_increasing l Hl j i r x Hij Hj Hx) as Hlt. by rewrite (le_lt x r) in Hlt.
Qed.
(** What missing statistics do to NeSt-VR.  With the target on a rung of the ladder
    and statistics received before, a frame generated at least three average frame
    intervals after the last ones moves the target one rung down (it stays on the lowest
    rung) and restarts the watchdog; an earlier frame changes nothing. *)
Theorem watchdog_steps_down l i (x : f32) timeout now b : ladder_ok l = true → bitrate_ladder_bps b = Some l → l !! i = Some x →
  last_target_bitrate_bps b = x → (∃ mx mn init p, bitrate_mode b = NestVr mx mn init p) →
  stats_timeout b = Ret timeout → last_stats_received b ≠ Edca.EPOCH → nanos (last_stats_received b) ≤ nanos now →
  if nanos now - nanos (last_stats_received b) <? timeout then stats_timeout_per_frame now b = Ret (b, x)
  else ∃ b' y, stats_timeout_per_frame now b = Ret (b', y) ∧ l !! (i - 1)%nat = Some y ∧ last_target_bitrate_bps b' = y ∧
         last_stats_received b' = now ∧ last_update_instant b' = last_update_instant b.
Proof.
  intros Hl El Hx Et (mx & mn & init & p & Em) Eto He Hle. unfold stats_timeout_per_frame, check_stats_timeout.
  rewrite Em, Eto. ret_step. rewrite bool_decide_false by done.
  rewrite (proj2 (time_le_spec _ now)) by done. cbn [negb]. destruct (_ <? _); [by cbn; rewrite Et|].
  cbn [bitrate_ladder_bps last_target_bitrate_bps set_instants]. rewrite El.
  destruct l as [|z l'] eqn:Ell; [done|]. rewrite <-Ell in *. rewrite Et, (upper_bound_fix l i) by done. ret_step.
  rewrite (position_rung l Hl i) by done. cbn [default].
  destruct (lookup_lt_is_Some_2 l (i - 1)) as [y Hy]; [apply lookup_lt_Some in Hx; lia|].
  match goal with |- context [unwrap ?t] => change t with (l !! (i - 1)%nat) end. rewrite Hy. cbn [unwrap mbind outcome_bind].
  destruct (F64Ops.ne y x) eqn:En; [eexists _, y; by split_and!|]. eexists _, x.
  assert (x = y) as <-; [|cbn; rewrite Et; by split_and!]. unfold F64Ops.ne in En. apply negb_false_iff in En.
  destruct (decide (i - 1 = i)%nat) as [E|Hne]; [rewrite E in Hy; congruence|].
  rewrite (lt_eqb y x) in En; [done|]. apply (ladder_increasing l Hl (i - 1) i); [lia|done..].
Qed.

(** ** The oracle *)
Implicit Types p q : Bandwidth (T := T).
Lemma min_cases (x y : f32) : fmin x y = x ∨ fmin x y = y.
Proof. unfold fmin, F64Ops.min. destruct (is_nan x), (is_nan y), (F64.lt y x); auto. Qed.
Lemma min_nan (x y : f32) : is_nan x = false → is_nan y = false → is_nan (fmin x y) = false.
Proof. destruct (min_cases x y) as [-> | ->]; done. Qed.
Lemma fold_min now h trace : Forall (λ p, is_nan (cap_mbps p) = false) trace → ∀ acc,
  (∀ m : f32, acc = Some m → is_nan m = false) →
  match foldl (min_cap_step now h) acc trace with
  | None => acc = None ∧ Forall (λ p, overlaps now h p = false) trace
  | Some m => is_nan m = false ∧ (acc = Some m ∨ ∃ p, p ∈ trace ∧ overlaps now h p = true ∧ cap_mbps p = m) ∧
      (∀ a, acc = Some a → F64.le m a = true) ∧ (∀ p, p ∈ trace → overlaps now h p = true → F64.le m (cap_mbps p) = true)
  end.
Proof.
  induction 1 as [|p trace Hp Hn IH]; intros acc Ha; cbn [foldl].
  { destruct acc as [m|]; [|done]. split; [by apply Ha|]. split; [by left|]. split; [|by intros p ?%elem_of_nil].
    intros a [= <-]. apply le_refl, Ha. done. }
  assert (∀ m : f32, min_cap_step now h acc p = Some m → is_nan m = false) as Ha'.
  { intros m. unfold min_cap_step. destruct (overlaps now h p); [|apply Ha]. destruct acc as [a|]; intros [= <-]; [|done].
    apply min_nan; [|done]. by apply Ha. }
  specialize (IH _ Ha'). destruct (foldl _ _ trace) as [m|].
  - destruct IH as (I1 & I2 & I3 & I4). unfold min_cap_step in I2, I3. destruct (overlaps now h p) eqn:Eo.
    + set (a' := match acc with Some m => fmin m (cap_mbps p) | None => cap_mbps p end) in *.
      assert (F64.le m a' = true) as Hm by (by apply I3).
      assert (F64.le a' (cap_mbps p) = true) as Hp' by (subst a'; destruct acc; auto with float).
      split_and!; [done| | |].
      * destruct I2 as [[= <-]|(q & ? & ? & ?)]; [|right; exists q; split_and!; [by right|done..]].
        subst a'. destruct acc as [a|]; [|right; exists p; split_and!; [by left|done..]].
        destruct (min_cases a (cap_mbps p)) as [-> | ->]; [by left|]. right. exists p. split_and!; [by left|done..].
      * intros a ->. eauto with float.
      * intros q [->|Hq]%elem_of_cons Hov; [eauto with float|by apply I4].
    + split_and!; [done| |done|].
      * destruct I2 as [?|(q & ? & ? & ?)]; [by left|right; exists q; split_and!; [by right|done..]].
      * intros q [->|Hq]%elem_of_cons Hov; [congruence|by apply I4].
  - destruct IH as [I1 I2]. unfold min_cap_step in I1. destruct (overlaps now h p) eqn:Eo; [done|]. split; [done|by constructor].
Qed.
Lemma lookahead : F64.to_nanos (F64.of_f32 ORACLE_LOOKAHEAD_SECS) = Ret 10000000.
Proof. vm_compute. reflexivity. Qed.
(** The oracle looks ten milliseconds ahead.  When no pattern caps the link now, it
    reports none, and keeps its target.  Otherwise it reports the cap of a pattern in
    effect at some time from now to ten milliseconds later, the least of all those
    patterns' caps. *)
Theorem oracle_under_caps now b : Forall (λ p, is_nan (cap_mbps p) = false) (oracle_bandwidth_trace b) →
  let horizon := default now (checked_add now 10000000) in
  ∃ cap, oracle_min_cap_over_lookahead_mbps now b = Ret cap ∧
    match cap with
    | None => Forall (λ p, active now p = false) (oracle_bandwidth_trace b)
    | Some m => (∃ p, p ∈ oracle_bandwidth_trace b ∧ active now p = true) ∧
        (∃ p, p ∈ oracle_bandwidth_trace b ∧ overlaps now horizon p = true ∧ cap_mbps p = m) ∧
        (∀ p, p ∈ oracle_bandwidth_trace b → overlaps now horizon p = true → F64.le m (cap_mbps p) = true)
    end.
Proof.
  intros Hn horizon. unfold oracle_min_cap_over_lookahead_mbps. rewrite lookahead. ret_step. fold horizon.
  set (trace := oracle_bandwidth_trace b) in *. destruct (existsb (active now) trace) eqn:Ea.
  - apply existsb_exists in Ea as (p & Hp%list_elem_of_In & Hact).
    pose proof (fold_min now horizon trace Hn None ltac:(done)) as Hf. destruct (foldl _ _ _) as [m|].
    + exists (Some m). destruct Hf as (_ & [?|?] & _ & ?); [done|]. split_and!; try done. by exists p.
    + destruct Hf as [_ Hf]. rewrite Forall_forall in Hf. specialize (Hf p Hp). exfalso.
      unfold active in Hact. apply andb_true_iff in Hact as [H1 H2]. unfold overlaps in Hf. rewrite H2, andb_true_r in Hf.
      apply time_le_spec in H1. apply not_true_iff_false in Hf. apply Hf, time_le_spec.
      subst horizon. destruct (checked_add now 10000000) eqn:Ec; cbn; [|done]. apply checked_add_Some in Ec; lia.
  - exists None. split; [done|]. apply Forall_forall. intros p Hp. apply not_true_iff_false. intros Hact.
    apply not_true_iff_false in Ea. apply Ea, existsb_exists. exists p. split; [by apply list_elem_of_In|done].
Qed.

(** ** Where the code does not do what it means to *)
(** No mode runs its algorithm on every frame.  Whatever the mode, a frame generated
    before the update interval has passed since the last pass runs only the watchdog,
    and a later frame runs a pass: the condition that should exempt EVeREst, GCC,
    FovOptix and the oracle is true of every mode. *)
Theorem no_per_frame_pass t fo now b : frame_abr sample_unit t fo now b =
  (d ← F32.to_nanos t; '(b, _) ← stats_timeout_per_frame now b; elapsed ← since now (last_update_instant b);
   if d <=? elapsed then pass_now sample_unit now b else Ret (b, None)).
Proof.
  unfold frame_abr. destruct (F32.to_nanos t); [|done..]. ret_step.
  destruct (stats_timeout_per_frame now b) as [[b1 x]| |]; [|done..]. ret_step. by destruct (bitrate_mode b1).
Qed.
(** A session reset leaves GCC with a target of 10^14 bits per second: the initial
    bitrate, already in bits per second, is multiplied by a million. *)
Theorem gcc_reset_target g fr now b b' : bitrate_mode b = GCCPort g fr → reset now b = Ret b' →
  as_i64 (last_target_bitrate_bps b') = 100000000376832.
Proof.
  intros Em. unfold reset. rewrite Em. ret_step. destruct (time_le _ _); [|done]. intros [= <-]. vm_compute. reflexivity.
Qed.
(** The bitrate that a pass uses after NADA's sender chose [r] bits per second: the limits come out 4.6% lower. *)
Definition nada_bps (r : Z) : Z :=
  as_i64 (F64.to_f32 (F64.mul (F64.div (F64.div (F64.of_Z r) (F64.of_Z 1024)) (F64.of_Z 1024)) (F64.of_Z 1000000))).
Example nada_target_is_low : nada_bps <$> [Nada.RMCAT_CC_DEFAULT_RMAX; Nada.RMCAT_CC_DEFAULT_RMIN] = [95367432; 9536743].
Proof. vm_compute. reflexivity. Qed.
End manager.

(** ** Instances *)
Module AbrDemo.
#[local] Instance Epoch_demo : Edca.Epoch mono := mono_of 0.
Definition half (g : Rng.SimRng) : f32 * Rng.SimRng := (lit 1 2, g).
Definition flat (x y : f64) : f64 := F64.of_Z 1.
Definition at_ms (n : Z) : mono := mono_of (n * 1000000).
Lemma upper_bound_exact_witness : ∃ r, upper_bound_bitrate (fz 47000000) nest_ladder = Ret r ∧ r ∈ nest_ladder ∧
  (F64.le r (fz 47000000) = true ∧ (∀ x : f32, x ∈ nest_ladder → F64.le x (fz 47000000) = true → F64.le x r = true) ∨
   (∀ x : f32, x ∈ nest_ladder → F64.le x (fz 47000000) = false) ∧ head nest_ladder = Some r).
Proof. apply (upper_bound_exact nest_ladder (fz 47000000)); vm_compute; reflexivity. Defined.
Definition demo_losses : list (Z * Z * f32) := [(1, 4, fz 1); (2, 0, fz 2); (1, 1, fz 3)].
Lemma loss_sums_exact_witness : ∃ v v' n, loss_run demo_losses (flr_new (fz 1)) = Ret v ∧ sum_flr (fz 4) v = Ret (v', n) ∧
  vec_data v `suffix_of` points demo_losses ∧
  current_flr_sum v = fl_total (vec_data v) ∧ current_sl_sum v = sl_total (vec_data v) ∧
  n = fl_total (vec_data v') ∧ vec_data v' `suffix_of` vec_data v ∧
  (∀ t d, head (vec_data v') = Some (t, d) → F64.lt t (F32.sub (fz 4) (period v)) = false).
Proof. apply (loss_sums_exact (fz 1) demo_losses (fz 4)); [|by vm_compute..]. repeat constructor; cbn; lia. Defined.
(** A server in NeSt-VR mode, and the same after its first frame. *)
Definition demo_manager : BitrateManager (T := mono) := manager_new 32 (fz 90) (fz 100) 1 Balanced (fz 90) (fz 1) [] (Rng.new 7).
Definition demo_started : BitrateManager (T := mono) :=
  match report_encoded_frame_server (at_ms 9000) demo_manager with Ret b => b | _ => demo_manager end.
Lemma demo_started_step : abr_step half flat demo_manager demo_started.
Proof. apply (step_frame _ _ (at_ms 9000)). vm_compute. reflexivity. Qed.
Lemma target_on_ladder_witness : last_target_bitrate_bps demo_started ∈ ladder_new 1 ∧
  (∀ now b' bps, one_pass_abr half now demo_started = Ret (b', bps) → bps ∈ ladder_new 1).
Proof.
  apply (target_on_ladder half flat 32 (fz 90) (fz 100) 1 Balanced (fz 90) (fz 1) [] (Rng.new 7) demo_started); [by left|].
  eapply rtc_l; [exact demo_started_step|constructor].
Defined.
Lemma pass_gives_rung_witness : ∃ b' bps, one_pass_abr half (at_ms 9010) demo_manager = Ret (b', bps) ∧
  bps ∈ ladder_new 1 ∧ on_ladder (ladder_new 1) b'.
Proof.
  apply (pass_gives_rung half (ladder_new 1) (at_ms 9010) demo_manager); [apply new_on_ladder; by left| |by vm_compute..].
  split; by vm_compute.
Defined.
Lemma watchdog_steps_down_witness : ∃ b' y, stats_timeout_per_frame (at_ms 9034) demo_started = Ret (b', y) ∧
  nest_ladder !! (9 - 1)%nat = Some y ∧ last_target_bitrate_bps b' = y ∧ last_stats_received b' = at_ms 9034 ∧
  last_update_instant b' = last_update_instant demo_started.
Proof.
  destruct (stats_timeout demo_started) as [timeout| |] eqn:E; [|vm_compute in E; discriminate..].
  assert (Htimeout : timeout = 33333333) by (vm_compute in E; by injection E as <-).
  assert (last_stats_received demo_started ≠ Edca.EPOCH) as He by (intros Hx; vm_compute in Hx; discriminate).
  assert (nanos (last_stats_received demo_started) ≤ nanos (at_ms 9034)) as Hle by (vm_compute; discriminate).
  pose proof (watchdog_steps_down nest_ladder 9 (mega MAX_MBPS_LADDER) timeout (at_ms 9034) demo_started
    eq_refl eq_refl eq_refl eq_refl (ex_intro _ _ (ex_intro _ _ (ex_intro _ _ (ex_intro _ _ eq_refl)))) E He Hle) as Hw.
  rewrite Htimeout in Hw. exact Hw.
Defined.
(** A cap of 60 Mb/s now, of 20 Mb/s from 5 ms later on. *)
Definition demo_oracle : BitrateManager (T := mono) :=
  manager_new 32 (fz 90) (fz 100) 8 Balanced (fz 90) (fz 1)
    [mkBandwidth (F64.of_Z 60000000) (at_ms 0) (at_ms 9005); mkBandwidth (F64.of_Z 20000000) (at_ms 9005) (at_ms 12000)] (Rng.new 7).
Lemma oracle_under_caps_witness : ∃ cap, oracle_min_cap_over_lookahead_mbps (at_ms 9000) demo_oracle = Ret cap ∧
  match cap with
  | None => Forall (λ p, active (at_ms 9000) p = false) (oracle_bandwidth_trace demo_oracle)
  | Some m => (∃ p, p ∈ oracle_bandwidth_trace demo_oracle ∧ active (at_ms 9000) p = true) ∧
      (∃ p, p ∈ oracle_bandwidth_trace demo_oracle ∧
         overlaps (at_ms 9000) (default (at_ms 9000) (checked_add (at_ms 9000) 10000000)) p = true ∧ cap_mbps p = m) ∧
      (∀ p, p ∈ oracle_bandwidth_trace demo_oracle →
         overlaps (at_ms 9000) (default (at_ms 9000) (checked_add (at_ms 9000) 10000000)) p = true → F64.le m (cap_mbps p) = true)
  end.
Proof. apply (oracle_under_caps (at_ms 9000) demo_oracle). repeat constructor. Defined.
Example oracle_sees_cap : oracle_min_cap_over_lookahead_mbps (at_ms 9000) demo_oracle = Ret (Some (fz 20)).
Proof. vm_compute. reflexivity. Qed.
Definition demo_gcc : BitrateManager (T := mono) := manager_new 32 (fz 90) (fz 100) 4 Balanced (fz 90) (fz 1) [] (Rng.new 7).
Lemma gcc_reset_target_witness : match reset (at_ms 9000) demo_gcc with
  | Ret b => as_i64 (last_target_bitrate_bps b) = 100000000376832 | _ => False end.
Proof.
  destruct (reset (at_ms 9000) demo_gcc) as [b| |] eqn:E; [|vm_compute in E; discriminate..].
  exact (gcc_reset_target (Gcc.gcc_new (F64.of_f32 (fz 90))) (F64.of_f32 (fz 90)) (at_ms 9000) demo_gcc b eq_refl E).
Defined.
End AbrDemo.
End AbrFacts.
