(* ===== verification/Link.v ===== *)
(** * The emulated link: [EmulatedLink] of [examples/lib/models_mm1k.rs]

    A link placed between a server and the access point that drops, delays and paces
    packets by patterns: probabilistic loss, jitter, and token buckets that limit the
    bandwidth for a period.  Module [Emu]: the patterns and their constructors, the
    generators of random events and of a Markov-modulated bandwidth, the effects on
    arrival, the token buckets, and the queue that [drain] empties.

    Durations are in nanoseconds.  The draws of the crates rand and rand_distr are
    parameters (class [EmuRand]); the checks that make them panic are written out.  Events
    scheduled for the link and packets sent are appended to [pending] and [sent].  The
    visualisation events and the tables for CSV files are left out. *)

From Stdlib Require Import SpecFloat.
From S2P Require Import Prelude Scheduler F32 SimRng Airtime Edca MacData F64Ops Abr.

Module Emu.
Import F64 F64Ops Rng MacData.
#[local] Open Scope f64_scope.

(** Constants. *)
Definition MAX_EMULATED_QUEUE_PACKETS : nat := Z.to_nat 10000.
Definition STEP1_TBEGIN : f64 := of_Z 10.
Definition STEP1_TEND : f64 := of_Z 20.
Definition STEP2_TBEGIN : f64 := of_Z 30.
Definition STEP2_TEND : f64 := of_Z 40.
Definition STEP3_TBEGIN : f64 := of_Z 50.
Definition STEP3_TEND : f64 := of_Z 60.
Definition BANDWIDTH_LIMIT_S1 : f64 := of_Z 100000000.
Definition BANDWIDTH_LIMIT_S2 : f64 := of_Z 95000000.
Definition BANDWIDTH_LIMIT_S3 : f64 := of_Z 90000000.
Definition MTU_EMULATED : f64 := of_Z 1500 ⊗ of_Z 8 ⊗ of_Z 10.
Definition BANDWIDTH_BURST_MIN_FPS : f64 := of_Z 60.
Definition BANDWIDTH_BURST_FRAMES : f64 := of_Z 20.
Definition BANDWIDTH_BURST_MS : f64 := of_Z 1000 ⊗ BANDWIDTH_BURST_FRAMES ⊘ BANDWIDTH_BURST_MIN_FPS.
Definition NETEM_DEFAULT_LIMIT_PACKETS : f64 := of_Z 1000.
Definition NETEM_REFERENCE_PACKET_BITS : f64 := of_Z 1500 ⊗ of_Z 8.
Definition NIC_CAP_BURST_MS : f64 := of_Z 2 ⊗ NETEM_REFERENCE_PACKET_BITS ⊘ of_Z 1000000000 ⊗ of_Z 1000.
Definition NUMBER_OF_RANDOM_EVENTS : nat := 20.

(** [Duration::MAX], the checked sum of two durations, [f64::clamp]. *)
Definition DURATION_MAX : Z := Abr.DURATION_MAX.
Definition duration_add (a b : Z) : outcome Z := if a + b <=? DURATION_MAX then Ret (a + b) else Panic.
Definition f64_clamp (x lo hi : f64) : outcome f64 :=
  if le lo hi then Ret (if x ≺ lo then lo else if hi ≺ x then hi else x) else Panic.
Definition is_finite (x : f64) : bool :=
  match x with S754_zero _ | S754_finite _ _ _ => true | _ => false end.

(** ** Draws *)
Class EmuRand := {
  emu_gen : SimRng → f64 * SimRng;
  emu_uniform : f64 → f64 → SimRng → f64 * SimRng;
  emu_uniform_incl : f64 → f64 → SimRng → f64 * SimRng;
  emu_normal : f64 → f64 → SimRng → f64 * SimRng;
  emu_exp : f64 → SimRng → f64 * SimRng;
  emu_weighted : list f64 → SimRng → nat * SimRng;
  emu_uniform_incl_range : ∀ lo hi g, le lo hi = true → let x := (emu_uniform_incl lo hi g).1 in le lo x = true ∧ le x hi = true;
  emu_exp_valid : ∀ l g, valid (emu_exp l g).1 = true;
  emu_weighted_range : ∀ ws g, (∃ w, w ∈ ws ∧ lt zero w = true) → ((emu_weighted ws g).1 < length ws)%nat
}.
(** [gen_range(lo..hi)], [gen_range(lo..=hi)], [Normal::new(m, s).unwrap().sample],
    [Exp::new(l).unwrap().sample], [WeightedIndex::new(ws).unwrap().sample]. *)
Section draws.
Context `{EmuRand}.
Definition gen_range (lo hi : f64) (g : SimRng) : outcome (f64 * SimRng) :=
  if lo ≺ hi then Ret (emu_uniform lo hi g) else Panic.
Definition gen_range_incl (lo hi : f64) (g : SimRng) : outcome (f64 * SimRng) :=
  if le lo hi then Ret (emu_uniform_incl lo hi g) else Panic.
Definition normal (mean std_dev : f64) (g : SimRng) : outcome (f64 * SimRng) :=
  if is_finite std_dev then Ret (emu_normal mean std_dev g) else Panic.
Definition exponential (lambda : f64) (g : SimRng) : outcome (f64 * SimRng) :=
  if le zero lambda then Ret (emu_exp lambda g) else Panic.
Definition weighted_index (ws : list f64) (g : SimRng) : outcome (nat * SimRng) :=
  if forallb (le zero) ws && existsb (lt zero) ws then Ret (emu_weighted ws g) else Panic.
End draws.

(** ** Patterns *)
Inductive JitterDistributionType := Gaussian | Uniform.

Section patterns.
Context {T P : Type} `{TaiTime T} `{!Edca.Epoch T} `{EmuRand}.
Record BandwidthPattern := mkBw {
  max_bps : f64;
  current_tokens : f64;
  max_tokens : f64;
  token_refill_rate : f64;
  last_refill : f64;
  max_latency : Z;
  bw_from : T;
  bw_until : T
}.
Record JitterPattern := mkJitter {
  mean_delay : Z;
  distribution_type : JitterDistributionType;
  variance : f64;
  correlation_pct : f64;
  last_delay : Z;
  jit_from : T;
  jit_until : T
}.
Inductive NetworkPattern :=
| Constant
| OnOffPeriodic (on_duration off_duration : Z) (current_state : bool) (last_state_change : T)
| ProbabilisticDrop (drop_probability : f64) (valid_from valid_until : T)
| Bandwidth (w : BandwidthPattern)
| Jitter (j : JitterPattern).
Definition within (from until now : T) : bool := negb (time_lt now from || time_lt until now).

Definition since (x y : T) : outcome Z := Abr.since x y.
Definition new_bandwidth_with_burst_ms (max_bps token_refill_rate : f64) (valid_from valid_until : T) (burst_ms : f64)
    : outcome BandwidthPattern :=
  n ← since valid_from Edca.EPOCH;
  max_latency ← to_nanos (NETEM_DEFAULT_LIMIT_PACKETS ⊗ NETEM_REFERENCE_PACKET_BITS ⊘ token_refill_rate);
  let bucket_capacity := token_refill_rate ⊗ burst_ms ⊘ of_Z 1000 in
  Ret (mkBw max_bps zero bucket_capacity token_refill_rate (of_nanos n) max_latency valid_from valid_until).
Definition new_bandwidth (max_bps token_refill_rate : f64) (valid_from valid_until : T) : outcome BandwidthPattern :=
  new_bandwidth_with_burst_ms max_bps token_refill_rate valid_from valid_until BANDWIDTH_BURST_MS.
Definition new_jitter (d : JitterDistributionType) (mean_delay_ms spread_ms correlation_pct : f64) (valid_from valid_until : T)
    : outcome JitterPattern :=
  mean ← to_nanos (mean_delay_ms ⊘ of_Z 1000);
  c ← f64_clamp correlation_pct zero (of_Z 100);
  Ret (mkJitter mean d (spread_ms ⊘ of_Z 1000) c mean valid_from valid_until).
Definition new_jitter_gaussian := new_jitter Gaussian.
Definition new_jitter_uniform := new_jitter Uniform.
(** [make_pacing_only] of [emu_nic_cap.rs]; [legacy] is [XRSIM_NIC_CAP_LIMIT_LEGACY]. *)
Definition make_pacing_only (legacy : bool) (w : BandwidthPattern) : BandwidthPattern :=
  if legacy then w
  else mkBw (max_bps w) (current_tokens w) (max_tokens w) (token_refill_rate w) (last_refill w) DURATION_MAX (bw_from w) (bw_until w).

(** ** The emulator *)
Record NetworkPatternEmulator := mkEmu { patterns : list NetworkPattern; rng : SimRng }.
Implicit Types e : NetworkPatternEmulator.
Definition add_pattern (p : NetworkPattern) e : NetworkPatternEmulator := mkEmu (patterns e ++ [p]) (rng e).

Inductive RandomEventKind := PacketLoss | JitterEvent | BandwidthEvent.
(** The pattern of one random event; [p] is the probability drawn before. *)
Definition event_pattern (kind : RandomEventKind) (dist : JitterDistributionType) (mean_value variance p : f64)
    (from until : T) (g : SimRng) : outcome (NetworkPattern * SimRng) :=
  match kind with
  | PacketLoss => Ret (ProbabilisticDrop p from until, g)
  | JitterEvent =>
      j ← new_jitter dist mean_value variance zero from until;
      Ret (Jitter j, g)
  | BandwidthEvent =>
      let sd := if is_finite variance then variance else lit 1 10 ⊗ mean_value in
      '(z, g) ← normal mean_value sd g;
      let z := F64Ops.max z (of_Z 15000000) in
      w ← new_bandwidth z z from until;
      Ret (Bandwidth w, g)
  end.
Definition event_duration (dist : JitterDistributionType) (lo hi variance : f64) (g : SimRng) : outcome (f64 * SimRng) :=
  match dist with
  | Uniform => gen_range lo hi g
  | Gaussian =>
      let center := (lo ⊕ hi) ⊘ of_Z 2 in
      '(x, g) ← normal center (if is_finite variance then variance else lit 1 10) g;
      Ret (F64Ops.min (F64Ops.max x lo) hi, g)
  end.
Fixpoint random_events_loop (n : nat) (kind : RandomEventKind) (overall_end : T) (lo hi rate_lambda : f64)
    (dist : JitterDistributionType) (mean_value variance : f64) (current_time : T) (g : SimRng) e : outcome NetworkPatternEmulator :=
  match n with
  | O => Ret e
  | S n =>
      '(gap, g) ← exponential rate_lambda g;
      d ← to_nanos (gap ⊕ of_Z 4);
      match checked_add current_time d with
      | None => Ret e
      | Some event_start =>
          '(dur, g) ← event_duration dist lo hi variance g;
          d ← to_nanos dur;
          match checked_add event_start d with
          | None => Ret e
          | Some event_end =>
              if time_lt overall_end event_end then Ret e
              else
                '(p, g) ← normal mean_value (sqrt variance) g;
                p ← f64_clamp p zero (of_Z 1);
                '(pat, g) ← event_pattern kind dist mean_value variance p event_start event_end g;
                random_events_loop n kind overall_end lo hi rate_lambda dist mean_value variance event_end g (add_pattern pat e)
          end
      end
  end.
(** [min_duration] and [max_duration] in nanoseconds. *)
Definition add_random_events (count : nat) (kind : RandomEventKind) (overall_start overall_end : T) (min_duration max_duration : Z)
    (dist : JitterDistributionType) (mean_value variance : f64) e : outcome NetworkPatternEmulator :=
  if (count =? 0)%nat then Ret e
  else
    n ← since overall_end overall_start;
    let lo := of_nanos min_duration in
    let hi := of_nanos max_duration in
    let total_avg_event_time_secs := (lo ⊕ hi) ⊘ of_Z 2 ⊗ of_Z (Z.of_nat count) in
    let total_gap_time_secs := F64Ops.max (of_nanos n ⊖ total_avg_event_time_secs) (lit 1 1000000000) in
    let mean_gap_secs := total_gap_time_secs ⊘ of_Z (Z.of_nat count) in
    let '(s, g) := next_u64 (rng e) in
    random_events_loop count kind overall_end lo hi (of_Z 1 ⊘ mean_gap_secs) dist mean_value variance overall_start (Rng.new s)
      (mkEmu (patterns e) g).

(** *** Markov-modulated bandwidth *)
Record MarkovBandwidthState := mkMarkov { bps_range : f64 * f64; dwell_range_secs : f64 * f64; mean_dwell_secs : f64 }.
Definition millions (a b : Z) : f64 * f64 := (of_Z (a * 1000000), of_Z (b * 1000000)).
Definition WIFI_CLOUD_VR_STATES : list MarkovBandwidthState := [
  mkMarkov (millions 90 125) (of_Z 3, of_Z 20) (of_Z 8);
  mkMarkov (millions 80 110) (of_Z 3, of_Z 20) (of_Z 10);
  mkMarkov (millions 40 80) (of_Z 3, of_Z 20) (of_Z 10);
  mkMarkov (millions 35 65) (of_Z 3, of_Z 20) (of_Z 10);
  mkMarkov (millions 35 45) (of_Z 2, of_Z 15) (of_Z 6);
  mkMarkov (millions 15 20) (lit 1 10, of_Z 2) (lit 6 10)].
Definition hundredths (l : list Z) : list f64 := (λ n, lit n 100) <$> l.
Definition WIFI_CLOUD_VR_TRANSITIONS : list (list f64) := [
  hundredths [74; 20; 0; 0; 0; 6];
  hundredths [15; 54; 25; 0; 0; 6];
  hundredths [0; 20; 54; 20; 0; 6];
  hundredths [0; 0; 20; 54; 20; 6];
  hundredths [0; 0; 0; 20; 74; 6];
  hundredths [20; 20; 20; 20; 20; 0]].
Definition time_min (a b : T) : T := if time_le a b then a else b.
Fixpoint markov_loop (fuel : nat) (states : list MarkovBandwidthState) (transitions : list (list f64)) (overall_end : T)
    (current_state : nat) (current_time : T) (g : SimRng) e : outcome NetworkPatternEmulator :=
  match fuel with
  | O => OutOfFuel
  | S fuel =>
      if negb (time_lt current_time overall_end) then Ret e
      else
        state ← unwrap (states !! current_state);
        '(x, g) ← exponential (of_Z 1 ⊘ mean_dwell_secs state) g;
        dwell ← f64_clamp x (dwell_range_secs state).1 (dwell_range_secs state).2;
        d ← to_nanos dwell;
        let seg_end := match checked_add current_time d with Some t => time_min t overall_end | None => overall_end end in
        let '(bw_min, bw_max) := bps_range state in
        '(bps, g) ← gen_range_incl (F64Ops.min bw_min bw_max) (F64Ops.max bw_min bw_max) g;
        w ← new_bandwidth bps bps current_time seg_end;
        weights ← unwrap (transitions !! current_state);
        '(next, g) ← weighted_index weights g;
        markov_loop fuel states transitions overall_end next seg_end g (add_pattern (Bandwidth w) e)
  end.
Definition add_markov_modulated_bandwidth (fuel : nat) (states : list MarkovBandwidthState) (transitions : list (list f64))
    (overall_start overall_end : T) (initial_state : nat) e : outcome NetworkPatternEmulator :=
  let '(s, g) := next_u64 (rng e) in
  markov_loop fuel states transitions overall_end initial_state overall_start (Rng.new s) (mkEmu (patterns e) g).

(** *** Effects on arrival *)
Inductive ArrivalOutcome := ArrivalDrop | ArrivalDelay (d : Z).
Definition jitter_delay (j : JitterPattern) (g : SimRng) : outcome (Z * SimRng) :=
  '(random_component, g) ← match distribution_type j with
                           | Gaussian => normal zero (variance j) g
                           | Uniform => if zero ≺ variance j then gen_range (F64Ops.neg (variance j)) (variance j) g else Ret (zero, g)
                           end;
  let correlated_offset :=
    if zero ≺ correlation_pct j
    then (of_nanos (last_delay j) ⊖ of_nanos (mean_delay j)) ⊗ (correlation_pct j ⊘ of_Z 100) else zero in
  d ← to_nanos (F64Ops.max (of_nanos (mean_delay j) ⊕ random_component ⊕ correlated_offset) zero);
  Ret (d, g).
Definition set_last_delay (d : Z) (j : JitterPattern) : JitterPattern :=
  mkJitter (mean_delay j) (distribution_type j) (variance j) (correlation_pct j) d (jit_from j) (jit_until j).
(** The patterns already visited are collected in [visited]. *)
Fixpoint arrival_loop (now : T) (visited ps : list NetworkPattern) (total_delay : Z) (g : SimRng)
    : outcome (list NetworkPattern * SimRng * ArrivalOutcome) :=
  match ps with
  | [] => Ret (visited, g, ArrivalDelay total_delay)
  | p :: ps =>
      match p with
      | ProbabilisticDrop prob from until =>
          if within from until now then
            let '(x, g) := emu_gen g in
            if x ≺ prob then Ret (visited ++ p :: ps, g, ArrivalDrop) else arrival_loop now (visited ++ [p]) ps total_delay g
          else arrival_loop now (visited ++ [p]) ps total_delay g
      | Jitter j =>
          if within (jit_from j) (jit_until j) now then
            '(d, g) ← jitter_delay j g;
            total_delay ← duration_add total_delay d;
            arrival_loop now (visited ++ [Jitter (set_last_delay d j)]) ps total_delay g
          else arrival_loop now (visited ++ [p]) ps total_delay g
      | _ => arrival_loop now (visited ++ [p]) ps total_delay g
      end
  end.
Definition apply_arrival_effects (now : T) e : outcome (NetworkPatternEmulator * ArrivalOutcome) :=
  '(ps, g, o) ← arrival_loop now [] (patterns e) 0 (rng e);
  Ret (mkEmu ps g, o).

(** *** The token buckets *)
Inductive BandwidthOutcome := Sent | Wait (d : Z) | ExceedsLimit.
Definition active (now : T) (w : BandwidthPattern) : bool := within (bw_from w) (bw_until w) now.
Definition set_tokens (tokens last : f64) (w : BandwidthPattern) : BandwidthPattern :=
  mkBw (max_bps w) tokens (max_tokens w) (token_refill_rate w) last (max_latency w) (bw_from w) (bw_until w).
Definition refill (now_s : f64) (w : BandwidthPattern) : BandwidthPattern :=
  let dt := now_s ⊖ last_refill w in
  set_tokens (F64Ops.min (current_tokens w ⊕ dt ⊗ token_refill_rate w) (max_tokens w)) now_s w.
(** What the first pass over the patterns gathers. *)
Record Account := mkAccount { any_active : bool; all_sufficient : bool; max_wait : Z; min_limit : option Z }.
Definition account_one (bits : f64) (w : BandwidthPattern) (a : Account) : outcome Account :=
  if current_tokens w ≺ bits then
    d ← to_nanos ((bits ⊖ current_tokens w) ⊘ token_refill_rate w);
    Ret (mkAccount true false (Z.max (max_wait a) d)
           (Some (match min_limit a with Some m => Z.min m (max_latency w) | None => max_latency w end)))
  else Ret (mkAccount true (all_sufficient a) (max_wait a) (min_limit a)).
Fixpoint refill_loop (now : T) (now_s bits : f64) (ps : list NetworkPattern) (a : Account) : outcome (list NetworkPattern * Account) :=
  match ps with
  | [] => Ret ([], a)
  | Bandwidth w :: ps =>
      if active now w then
        let w := refill now_s w in
        a ← account_one bits w a;
        '(ps, a) ← refill_loop now now_s bits ps a;
        Ret (Bandwidth w :: ps, a)
      else
        '(ps, a) ← refill_loop now now_s bits ps a;
        Ret (Bandwidth w :: ps, a)
  | p :: ps =>
      '(ps, a) ← refill_loop now now_s bits ps a;
      Ret (p :: ps, a)
  end.
Definition debit (now : T) (bits : f64) (p : NetworkPattern) : NetworkPattern :=
  match p with
  | Bandwidth w => if active now w then Bandwidth (set_tokens (current_tokens w ⊖ bits) (last_refill w) w) else p
  | p => p
  end.
Definition try_send_bandwidth (now : T) (bits : f64) (elapsed_wait : Z) e : outcome (NetworkPatternEmulator * BandwidthOutcome) :=
  n ← since now Edca.EPOCH;
  '(ps, a) ← refill_loop now (of_nanos n) bits (patterns e) (mkAccount false true 0 None);
  if negb (any_active a) then Ret (mkEmu ps (rng e), Sent)
  else if all_sufficient a then Ret (mkEmu (debit now bits <$> ps) (rng e), Sent)
  else
    total ← duration_add elapsed_wait (max_wait a);
    limit ← unwrap (min_limit a);
    Ret (mkEmu ps (rng e), if limit <? total then ExceedsLimit else Wait (max_wait a)).

(** ** The queue and the link *)
Abbreviation Packet := (MpduPacket T P).
(** [emulated_added_delay_deadline] of the packet, which is in its payload. *)
Context (nic_deadline : P → option T).
Record QueuedPacket := mkQueued { packet : Packet; enqueued_at : T; bandwidth_eligible_at : T }.
Record EmulatedLink := mkLink {
  queue : list QueuedPacket;
  network_emulator : NetworkPatternEmulator;
  max_queue_size : nat;
  next_flush_scheduled : option T;
  last_bw_pattern_logged : option (T * nat);
  last_drain_logged : option T;
  pending : list T;
  sent : list Packet
}.
Implicit Types l : EmulatedLink.
Definition set_emulator (e : NetworkPatternEmulator) l : EmulatedLink :=
  mkLink (queue l) e (max_queue_size l) (next_flush_scheduled l) (last_bw_pattern_logged l) (last_drain_logged l) (pending l) (sent l).

(** *** Construction *)
Definition step_time (secs : f64) : outcome T := d ← to_nanos secs; time_add Edca.EPOCH d.
Definition with_bandwidth (max_bps rate : f64) (from until : T) e : outcome NetworkPatternEmulator :=
  w ← new_bandwidth max_bps rate from until; Ret (add_pattern (Bandwidth w) e).
Definition with_jitter (mean_ms half_width_ms : f64) (from until : T) e : outcome NetworkPatternEmulator :=
  j ← new_jitter_uniform mean_ms half_width_ms zero from until; Ret (add_pattern (Jitter j) e).
(** The flags: bandwidth, jitter, loss, random events, Markov. *)
Definition queue_mechanism_new (fuel : nat) (max_packets : nat) (now : T) (tests : bool * bool * bool * bool * bool)
    (sim_duration_secs : f64) (g : SimRng) : outcome EmulatedLink :=
  f1 ← step_time STEP1_TBEGIN; u1 ← step_time STEP1_TEND;
  f2 ← step_time STEP2_TBEGIN; u2 ← step_time STEP2_TEND;
  f3 ← step_time STEP3_TBEGIN; u3 ← step_time STEP3_TEND;
  let '(test_bw, test_jitter, test_pl, test_random, test_markov) := tests in
  overall_start ← time_add now (10 * 10 ^ 9);
  overall_end ← time_add now (65 * 10 ^ 9);
  e ← (if test_random
       then add_random_events NUMBER_OF_RANDOM_EVENTS BandwidthEvent overall_start overall_end (3000 * 10 ^ 6) (15000 * 10 ^ 6)
              Uniform (of_Z 50000000) (of_Z 40000000) (mkEmu [] g)
       else Ret (mkEmu [] g));
  e ← (if test_markov
       then d ← to_nanos sim_duration_secs;
            markov_end ← time_add now d;
            add_markov_modulated_bandwidth fuel WIFI_CLOUD_VR_STATES WIFI_CLOUD_VR_TRANSITIONS now markov_end 0 e
       else Ret e);
  e ← (if test_bw
       then e ← with_bandwidth MTU_EMULATED BANDWIDTH_LIMIT_S1 f1 u1 e;
            e ← with_bandwidth MTU_EMULATED BANDWIDTH_LIMIT_S2 f2 u2 e;
            with_bandwidth MTU_EMULATED BANDWIDTH_LIMIT_S3 f3 u3 e
       else Ret e);
  let e := if test_pl
           then add_pattern (ProbabilisticDrop (lit 5 1000) f2 u2) (add_pattern (ProbabilisticDrop (lit 1 100) f1 u1) e)
           else e in
  e ← (if test_jitter
       then e ← with_jitter (of_Z 3) (of_Z 3) f1 u1 e;
            e ← with_jitter (of_Z 5) (of_Z 5) f2 u2 e;
            with_jitter (of_Z 10) (of_Z 10) f3 u3 e
       else Ret e);
  Ret (mkLink [] e max_packets None None None [] []).
Definition link_new (fuel max_queue_size : nat) (now : T) (emulated_tests : option (bool * bool * bool * bool * bool))
    (sim_duration_secs : f64) (g : SimRng) : outcome EmulatedLink :=
  match emulated_tests with
  | Some tests => queue_mechanism_new fuel max_queue_size now tests sim_duration_secs g
  | None => queue_mechanism_new fuel MAX_EMULATED_QUEUE_PACKETS Edca.EPOCH (false, false, false, false, false) zero g
  end.
Definition new_with_bandwidth (legacy : bool) (fuel max_queue_size : nat) (now : T)
    (emulated_tests : option (bool * bool * bool * bool * bool)) (bandwidth_bps : option Z) (sim_duration_secs : f64) (g : SimRng)
    : outcome EmulatedLink :=
  l ← link_new fuel max_queue_size now emulated_tests sim_duration_secs g;
  match bandwidth_bps with
  | None => Ret l
  | Some bw =>
      d ← to_nanos (F64Ops.max sim_duration_secs (of_Z 1));
      let valid_until := default now (checked_add now d) in
      nic_cap ← new_bandwidth_with_burst_ms (of_Z bw) (of_Z bw) now valid_until NIC_CAP_BURST_MS;
      Ret (set_emulator (add_pattern (Bandwidth (make_pacing_only legacy nic_cap)) (network_emulator l)) l)
  end.

(** *** Arrival *)
Definition time_max (a b : T) : T := if time_le a b then b else a.
(** The first pattern in effect, for the log. *)
Fixpoint find_active (now : T) (i : nat) (ps : list NetworkPattern) : option nat :=
  match ps with
  | [] => None
  | Bandwidth w :: ps => if active now w then Some i else find_active now (S i) ps
  | _ :: ps => find_active now (S i) ps
  end.
Definition log_due (now : T) (period : Z) (last : option T) : outcome bool :=
  match last with
  | None => Ret true
  | Some last => n ← since now last; Ret (period <=? n)
  end.
Definition log_active_bw_patterns (now : T) l : outcome EmulatedLink :=
  should_log ← log_due now (10 ^ 9) (fst <$> last_bw_pattern_logged l);
  Ret match find_active now 0 (patterns (network_emulator l)) with
      | Some idx =>
          if (should_log : bool)
          then mkLink (queue l) (network_emulator l) (max_queue_size l) (next_flush_scheduled l) (Some (now, idx)) (last_drain_logged l)
                 (pending l) (sent l)
          else l
      | None => l
      end.
(** [true] when the packet is queued. *)
Definition enqueue (p : Packet) (now : T) l : outcome (EmulatedLink * bool) :=
  l ← log_active_bw_patterns now l;
  '(e, o) ← apply_arrival_effects now (network_emulator l);
  let l := set_emulator e l in
  match o with
  | ArrivalDrop => Ret (l, false)
  | ArrivalDelay jitter_extra =>
      if (max_queue_size l <=? length (queue l))%nat then Ret (l, false)
      else
        let nic_floor := time_max (default now (nic_deadline (payload p))) now in
        let bandwidth_eligible_at := default nic_floor (checked_add nic_floor jitter_extra) in
        Ret (mkLink (queue l ++ [mkQueued p now bandwidth_eligible_at]) (network_emulator l) (max_queue_size l) (next_flush_scheduled l)
               (last_bw_pattern_logged l) (last_drain_logged l) (pending l) (sent l), true)
  end.
Definition schedule_drain_at (wake_at now : T) l : outcome EmulatedLink :=
  n ← since wake_at now;
  t ← time_add now (Z.max n 1);
  Ret (mkLink (queue l) (network_emulator l) (max_queue_size l) (Some wake_at) (last_bw_pattern_logged l) (last_drain_logged l)
         (pending l ++ [t]) (sent l)).
Definition input (p : Packet) (now : T) l : outcome EmulatedLink :=
  '(l, queued) ← enqueue p now l;
  if queued && negb (bool_decide (is_Some (next_flush_scheduled l))) then schedule_drain_at now now l else Ret l.

(** *** Draining *)
(** What is left of the queue, the emulator, the packets sent, and when to try again. *)
Fixpoint drain_loop (now : T) (q : list QueuedPacket) e (out : list Packet)
    : outcome (list QueuedPacket * NetworkPatternEmulator * list Packet * option T) :=
  match q with
  | [] => Ret ([], e, out, None)
  | front :: q' =>
      if time_lt now (bandwidth_eligible_at front) then Ret (q, e, out, Some (bandwidth_eligible_at front))
      else
        elapsed_wait ← since now (enqueued_at front);
        '(e, o) ← try_send_bandwidth now (of_Z (length_packet_bits (packet front))) elapsed_wait e;
        match o with
        | Sent => drain_loop now q' e (out ++ [packet front])
        | Wait retry_in => Ret (q, e, out, Some (default now (checked_add now retry_in)))
        | ExceedsLimit => drain_loop now q' e out
        end
  end.
Definition drain (now : T) l : outcome EmulatedLink :=
  should_log ← log_due now (10 * 10 ^ 6) (last_drain_logged l);
  let should_log : bool := should_log in
  _ ← (if should_log then since now Edca.EPOCH else Ret 0);
  '(q, e, out, wake) ← drain_loop now (queue l) (network_emulator l) (sent l);
  let l := mkLink q e (max_queue_size l) None (last_bw_pattern_logged l) (if should_log then Some now else last_drain_logged l)
             (pending l) out in
  match wake with
  | None => Ret l
  | Some wake_at => schedule_drain_at wake_at now l
  end.
Definition flush_queue (now : T) l : outcome EmulatedLink := drain now l.

(** The bandwidth trace that the server's oracle is given. *)
Definition oracle_trace (ps : list NetworkPattern) : list (Abr.Bandwidth (T := T)) :=
  omap (λ p, match p with Bandwidth w => Some (Abr.mkBandwidth (max_bps w) (bw_from w) (bw_until w)) | _ => None end) ps.
End patterns.
End Emu.
