(* ===== verification/LinkFacts.v ===== *)
(** * The emulated link delivers in order, within its limits

    [link_in_order], [link_never_stalls]: over any sequence of arrivals and flushes the
    packets sent and queued are arrivals in their order, the queue is bounded, and a queued
    packet has a flush coming.  [buckets_exact]: the decision of the token buckets is that of
    a declarative specification.  [nic_cap_never_drops], [oversize_blocks]: consequences.
    [markov_tiles]: the generated bandwidth covers the whole period, one regime after the
    other, and the walk ends.  [random_events_apart]: random events do not overlap. *)

From Stdlib Require Import SpecFloat.
From S2P Require Import Prelude Scheduler SeqExecutor F32 SimRng Airtime Edca MacData F64Ops Abr Link.

Module LinkFacts.
Import F64 F64Ops Rng MacData Emu.

(** ** Lengths of stays *)
(** The whole nanoseconds in a positive number of seconds. *)
Definition floor_nanos (x : f64) : Z :=
  match x with
  | S754_finite false m e => if 0 <=? e then Z.pos m * 2 ^ e * 10 ^ 9 else Z.pos m * 10 ^ 9 / 2 ^ (- e)
  | _ => 0
  end.
Lemma floor_le_nanos x n : to_nanos x = Ret n → floor_nanos x ≤ n.
Proof.
  unfold to_nanos, F32.to_nanos, floor_nanos. destruct x as [| | |[] m e]; try done; [by intros [= <-]|].
  destruct (0 <=? e); case_match; try done; intros [= <-]; [lia|]. unfold F32.round_half_even. repeat case_match; lia.
Qed.
Lemma floor_scaled m e : -1074 ≤ e → floor_nanos (S754_finite false m e) = Z.pos m * 2 ^ (e + 1074) * 10 ^ 9 / 2 ^ 1074.
Proof.
  intros He. cbn [floor_nanos]. destruct (Z.leb_spec 0 e).
  - rewrite Z.pow_add_r by lia. replace (Z.pos m * (2 ^ e * 2 ^ 1074) * 10 ^ 9) with (Z.pos m * 2 ^ e * 10 ^ 9 * 2 ^ 1074) by ring.
    rewrite Z.div_mul; [done|]. apply Z.pow_nonzero; lia.
  - replace (2 ^ 1074) with (2 ^ (- e) * 2 ^ (e + 1074)) by (rewrite <-Z.pow_add_r by lia; f_equal; lia).
    replace (Z.pos m * 2 ^ (e + 1074) * 10 ^ 9) with (Z.pos m * 10 ^ 9 * 2 ^ (e + 1074)) by ring.
    rewrite Z.div_mul_cancel_r; [done|apply Z.pow_nonzero; lia..].
Qed.
Lemma floor_mono lo x n : valid lo = true → valid x = true → le lo x = true → to_nanos x = Ret n → floor_nanos lo ≤ n.
Proof.
  intros Vl Vx Hle Hn. etransitivity; [|by apply floor_le_nanos].
  assert (0 ≤ floor_nanos x) as Hx.
  { destruct x as [| | |[] m e]; try done. cbn. destruct (Z.leb_spec 0 e); [|apply Z.div_pos; [lia|apply Z.pow_pos_nonneg; lia]].
    pose proof (Z.pow_nonneg 2 e). lia. }
  destruct lo as [| | |[] m1 e1]; try (cbn; lia). destruct x as [[]|[]| |[] m2 e2]; try done.
  apply le_spec in Hle as (_ & _ & Hc). cbn in Hc. unfold lex_cmp in Hc. cbn in Hc.
  apply f64_valid_finite in Vl as (B1 & B2 & _), Vx as (B3 & B4 & B5). rewrite !floor_scaled by lia.
  apply Z.div_le_mono; [apply Z.pow_pos_nonneg; lia|]. apply Z.mul_le_mono_nonneg_r; [lia|].
  destruct (Z.compare_spec e1 e2) as [->|Hlt|?]; [|clear Hc|done].
  - apply Z.mul_le_mono_nonneg_r; [apply Z.pow_nonneg; lia|]. destruct (Z.compare_spec (Z.pos m1) (Z.pos m2)); [lia..|done].
  - destruct B5 as [B5|]; [|lia]. transitivity (2 ^ 53 * 2 ^ (e1 + 1074)).
    + apply Z.mul_le_mono_nonneg_r; [apply Z.pow_nonneg; lia|lia].
    + transitivity (2 ^ 52 * 2 ^ (e2 + 1074)); [|apply Z.mul_le_mono_nonneg_r; [apply Z.pow_nonneg; lia|lia]].
      rewrite <-!Z.pow_add_r by lia. apply Z.pow_le_mono_r; lia.
Qed.
(** A stay of at least a nanosecond. *)
Definition dwells (st : MarkovBandwidthState) : bool :=
  let '(lo, hi) := dwell_range_secs st in valid lo && valid hi && (1 <=? floor_nanos lo).
Lemma clamp_dwell st x y n : dwells st = true → valid x = true →
  f64_clamp x (dwell_range_secs st).1 (dwell_range_secs st).2 = Ret y → to_nanos y = Ret n → 1 ≤ n.
Proof.
  unfold dwells, f64_clamp. destruct (dwell_range_secs st) as [lo hi]. cbn. rewrite !andb_true_iff, Z.leb_le. intros [[Vl Vh] Hf] Vx.
  destruct (le lo hi) eqn:Hlh; [|done]. intros [= <-] Hn. etransitivity; [exact Hf|].
  assert (is_nan lo = false) as Nl by by apply le_nan in Hlh as [? _].
  destruct (lt x lo) eqn:E1; [by apply (floor_mono lo lo); auto with float|]. destruct (lt hi x) eqn:E2; [by apply (floor_mono lo hi)|].
  apply (floor_mono lo x); [done|exact Vx| |done]. apply lt_false; [|done..]. by destruct x.
Qed.
Example preset_dwells : forallb dwells WIFI_CLOUD_VR_STATES = true.
Proof. vm_compute. reflexivity. Qed.

Section link.
Context {T P : Type} `{TaiTime T} `{!Edca.Epoch T} {ER : EmuRand} (nic_deadline : P → option T).
Abbreviation Packet := (MpduPacket T P).
Abbreviation EmulatedLink := (EmulatedLink (T := T) (P := P)).
Abbreviation NetworkPattern := (NetworkPattern (T := T)).
Abbreviation NetworkPatternEmulator := (NetworkPatternEmulator (T := T)).
Implicit Types (l : EmulatedLink) (e : NetworkPatternEmulator) (now t : T) (p : Packet).

Lemma since_inv (x y : T) n : since x y = Ret n → nanos y ≤ nanos x ∧ n = nanos x - nanos y.
Proof. unfold since, Abr.since. destruct (time_le y x) eqn:E; [|done]. intros [= <-]. apply time_le_spec in E. done. Qed.

(** ** The token buckets *)
Definition wait_of (bits : f64) (w : BandwidthPattern (T := T)) : outcome Z :=
  to_nanos (div (sub bits (current_tokens w)) (token_refill_rate w)).
(** The active buckets, refilled, that do not hold [bits] tokens. *)
Definition refilled now (now_s : f64) (q : NetworkPattern) : NetworkPattern :=
  match q with Bandwidth w => if active now w then Bandwidth (refill now_s w) else q | q => q end.
Definition buckets now (qs : list NetworkPattern) : list BandwidthPattern :=
  omap (λ q, match q with Bandwidth w => if active now w then Some w else None | _ => None end) qs.
Definition short now (bits : f64) (qs : list NetworkPattern) : list BandwidthPattern :=
  List.filter (λ w, lt (current_tokens w) bits) (buckets now qs).
Definition longest (ds : list Z) : Z := foldl Z.max 0 ds.
Definition least (ds : list Z) : option Z := foldl (λ m d, Some (match m with Some m => Z.min m d | None => d end)) None ds.

Lemma least_from ds : ∀ a, ∃ m, foldl (λ m d, Some (match m with Some m => Z.min m d | None => d end)) (Some a) ds = Some m ∧
  (m = a ∨ m ∈ ds) ∧ m ≤ a ∧ ∀ d, d ∈ ds → m ≤ d.
Proof.
  induction ds as [|d ds IH]; intros a; cbn; [exists a; set_solver|].
  destruct (IH (Z.min a d)) as (m & -> & H1 & H2 & H3). exists m. split; [done|]. split_and!; [|lia|].
  - destruct H1 as [->|?]; [|by right; right]. destruct (Z.min_spec a d) as [[_ ->]|[_ ->]]; [by left|right; by left].
  - intros x [->|Hx]%elem_of_cons; [lia|by apply H3].
Qed.
Lemma least_spec ds : match least ds with None => ds = [] | Some m => m ∈ ds ∧ ∀ d, d ∈ ds → m ≤ d end.
Proof.
  destruct ds as [|d ds]; [done|]. cbn. destruct (least_from ds d) as (m & -> & H1 & H2 & H3). split.
  - destruct H1 as [->|?]; [by left|by right].
  - intros x [->|Hx]%elem_of_cons; [lia|by apply H3].
Qed.
Lemma active_refill now now_s w : active now (refill now_s w) = active now (w : BandwidthPattern (T := T)).
Proof. done. Qed.
Lemma buckets_skip now q qs : buckets now [q] = [] → buckets now (q :: qs) = buckets now qs.
Proof. unfold buckets. destruct q as [| | |w|]; cbn; try done. by destruct (active now w). Qed.
Lemma buckets_keep now w qs : active now w = true → buckets now (Bandwidth w :: qs) = w :: buckets now qs.
Proof. intros Ea. unfold buckets. cbn. by rewrite Ea. Qed.
Lemma refill_loop_ok now now_s bits qs : ∀ a qs' a', refill_loop now now_s bits qs a = Ret (qs', a') →
  qs' = refilled now now_s <$> qs ∧ ∃ ds, mapM (wait_of bits) (short now bits qs') = Ret ds ∧
    a' = mkAccount (any_active a || negb (bool_decide (buckets now qs' = [])))
           (all_sufficient a && bool_decide (short now bits qs' = []))
           (foldl Z.max (max_wait a) ds)
           (foldl (λ m d, Some (match m with Some m => Z.min m d | None => d end)) (min_limit a) (max_latency <$> short now bits qs')).
Proof.
  induction qs as [|q qs IH]; intros a qs' a' E; cbn [refill_loop] in E.
  { injection E as <- <-. split; [done|]. exists []. split; [done|]. cbn. by destruct a as [[] [] ? ?]. }
  assert (∀ a2 qs2, refill_loop now now_s bits qs a2 = Ret (qs2, a') → refilled now now_s q = q → qs' = q :: qs2 → a2 = a →
    buckets now [q] = [] → qs' = refilled now now_s <$> q :: qs ∧ ∃ ds, mapM (wait_of bits) (short now bits qs') = Ret ds ∧
      a' = mkAccount (any_active a || negb (bool_decide (buckets now qs' = [])))
        (all_sufficient a && bool_decide (short now bits qs' = [])) (foldl Z.max (max_wait a) ds)
        (foldl (λ m d, Some (match m with Some m => Z.min m d | None => d end)) (min_limit a) (max_latency <$> short now bits qs'))) as Hskip.
  { intros a2 qs2 E2 Er -> -> Eb. apply IH in E2 as (-> & ds & E3 & E4). split; [cbn; by rewrite Er|].
    assert (buckets now (q :: (refilled now now_s <$> qs)) = buckets now (refilled now now_s <$> qs)) as Eq.
    { by apply buckets_skip. }
    exists ds. unfold short in *. rewrite Eq. done. }
  destruct q as [|on off st lc|pr fr un|w|j];
    try (inv_ret E as ([qs2 a2] & E2 & [= <- <-]); by eapply Hskip).
  destruct (active now w) eqn:Ea.
  - inv_ret E as (a1 & E1 & E). inv_ret E as ([qs2 a2] & E2 & [= <- <-]).
    apply IH in E2 as (-> & ds & E3 & E4). clear Hskip IH. split; [cbn; by rewrite Ea|].
    set (w' := refill now_s w) in *. assert (active now w' = true) as Ea' by done.
    assert (buckets now (Bandwidth w' :: (refilled now now_s <$> qs)) = w' :: buckets now (refilled now now_s <$> qs)) as Eb.
    { by apply buckets_keep. }
    unfold account_one in E1. unfold short in *. rewrite Eb. cbn [List.filter]. destruct (lt (current_tokens w') bits) eqn:El.
    + inv_ret E1 as (d & Ed & [= <-]). exists (d :: ds). change (wait_of bits w' = Ret d) in Ed. cbn [mapM]. rewrite Ed. ret_step. rewrite E3. ret_step.
      split; [done|]. rewrite E4. cbn. by rewrite orb_true_r, andb_false_r.
    + injection E1 as <-. exists ds. split; [done|]. rewrite E4. cbn. by rewrite orb_true_r.
  - inv_ret E as ([qs2 a2] & E2 & [= <- <-]). eapply Hskip; try done; [cbn; by rewrite Ea|unfold buckets; cbn; by rewrite Ea].
Qed.
Lemma refilled_bucket now n w' qs : w' ∈ buckets now (refilled now n <$> qs) → ∃ w, w ∈ buckets now qs ∧ w' = refill n w.
Proof.
  unfold buckets. rewrite list_elem_of_omap. intros (q' & (q & -> & Hq)%list_elem_of_fmap & E).
  destruct q as [| | |w|]; cbn in E; try done. destruct (active now w) eqn:Ea; cbn in E; [|by rewrite Ea in E].
  rewrite active_refill, Ea in E. injection E as <-. exists w. split; [|done]. apply list_elem_of_omap. exists (Bandwidth w). by rewrite Ea.
Qed.
Lemma bucket_refilled now n w qs : w ∈ buckets now qs → refill n w ∈ buckets now (refilled now n <$> qs).
Proof.
  unfold buckets. rewrite !list_elem_of_omap. intros (q & Hq & E). exists (refilled now n q). split; [by apply list_elem_of_fmap_2|].
  destruct q as [| | |w0|]; cbn in *; try done. destruct (active now w0) eqn:Ea; [|done]. injection E as ->. by rewrite active_refill, Ea.
Qed.
Lemma try_send_ok now bits el e e' o : try_send_bandwidth now bits el e = Ret (e', o) →
  let now_s := of_nanos (nanos now - nanos Edca.EPOCH) in
  let qs := refilled now now_s <$> patterns e in
  rng e' = rng e ∧ ∃ ds, mapM (wait_of bits) (short now bits qs) = Ret ds ∧
    match least (max_latency <$> short now bits qs) with
    | None => o = Sent ∧ patterns e' = debit now bits <$> qs
    | Some limit => patterns e' = qs ∧ o = (if limit <? el + longest ds then ExceedsLimit else Wait (longest ds)) ∧
        el + longest ds ≤ DURATION_MAX
    end.
Proof.
  intros E now_s qs. unfold try_send_bandwidth in E. inv_ret E as (n & [Hn ->]%since_inv & E).
  inv_ret E as ([qs' a] & E1 & E). apply refill_loop_ok in E1 as (-> & ds & E1 & ->). fold now_s in E, E1. fold qs in E, E1.
  cbn [any_active all_sufficient max_wait min_limit orb andb] in E. fold (longest ds) in E. fold (least (max_latency <$> short now bits qs)) in E.
  assert (rng e' = rng e) as Hr.
  { repeat case_match; repeat (inv_ret E as (? & _ & E)); by injection E as <- _. }
  split; [done|]. exists ds. split; [done|]. clear Hr.
  destruct (bool_decide (buckets now qs = [])) eqn:Eb.
  - cbn in E. injection E as <- <-. apply bool_decide_eq_true in Eb. unfold short. rewrite Eb. cbn. split; [done|].
    clear -Eb. unfold buckets in Eb. induction qs as [|q qs IH]; [done|]. cbn in *.
    destruct q as [| | |w|]; cbn; try (f_equal; by apply IH). destruct (active now w); [done|]. f_equal. by apply IH.
  - cbn [negb] in E. destruct (bool_decide (short now bits qs = [])) eqn:Es.
    + apply bool_decide_eq_true in Es. rewrite Es. cbn. by injection E as <- <-.
    + inv_ret E as (total & Et & E). inv_ret E as (limit & El%unwrap_Ret & E). injection E as <- <-. rewrite El.
      unfold duration_add in Et. destruct (Z.leb_spec (el + longest ds) DURATION_MAX); [|done]. injection Et as <-. done.
Qed.
Lemma longest_nonneg ds : 0 ≤ longest ds.
Proof. unfold longest. assert (∀ a, 0 ≤ a → 0 ≤ foldl Z.max a ds) as Hf; [|by apply Hf]. induction ds as [|d ds IH]; intros a Ha; cbn; [done|]. apply IH. lia. Qed.
Lemma wait_nonneg now bits el e e' d : try_send_bandwidth now bits el e = Ret (e', Wait d) → 0 ≤ d.
Proof.
  intros E. apply try_send_ok in E as (_ & ds & _ & Ho). pose proof (longest_nonneg ds).
  destruct (least _) as [m|]; [|by destruct Ho]. destruct Ho as (_ & Ho & _). destruct (_ <? _); [done|]. by injection Ho as ->.
Qed.
(** *** The decision, in the numbers of the buckets *)
Definition in_effect now (w : BandwidthPattern (T := T)) : bool := (nanos (bw_from w) <=? nanos now) && (nanos now <=? nanos (bw_until w)).
(** The tokens at [now_s] seconds: those of the last refill and the rate for the time since, up to the capacity. *)
Definition level (now_s : f64) (w : BandwidthPattern (T := T)) : f64 :=
  F64Ops.min (add (current_tokens w) (mul (sub now_s (last_refill w)) (token_refill_rate w))) (max_tokens w).
(** A bucket in effect has [tokens] of its level and was refilled at [now_s]; nothing else changes. *)
Definition bucket_after now (now_s : f64) (tokens : f64 → f64) (q : NetworkPattern) : NetworkPattern :=
  match q with
  | Bandwidth w =>
      if in_effect now w then
        Bandwidth (mkBw (max_bps w) (tokens (level now_s w)) (max_tokens w) (token_refill_rate w) now_s (max_latency w) (bw_from w) (bw_until w))
      else q
  | q => q
  end.
Lemma active_in_effect now w : active now w = in_effect now w.
Proof.
  unfold active, within, in_effect. rewrite negb_orb. f_equal; apply eq_true_iff_eq; rewrite negb_true_iff, <-not_true_iff_false, time_lt_spec, Z.leb_le; lia.
Qed.
Lemma refilled_after now now_s q : refilled now now_s q = bucket_after now now_s (λ x, x) q.
Proof. destruct q as [| | |w|]; try done. cbn. rewrite active_in_effect. by destruct (in_effect now w). Qed.
Lemma debit_after now now_s bits q : debit now bits (refilled now now_s q) = bucket_after now now_s (λ x, sub x bits) q.
Proof.
  destruct q as [| | |w|]; try done. cbn. rewrite active_in_effect. destruct (in_effect now w) eqn:E; cbn; rewrite ?active_refill, active_in_effect, E; done.
Qed.
Lemma short_iff now now_s bits w' qs : w' ∈ short now bits (refilled now now_s <$> qs) ↔
  ∃ w, w' = refill now_s w ∧ Bandwidth w ∈ qs ∧ in_effect now w = true ∧ lt (level now_s w) bits = true.
Proof.
  unfold short. rewrite list_elem_of_In, filter_In, <-list_elem_of_In. split.
  - intros [(w & Hw & ->)%refilled_bucket Hlt]. exists w. unfold buckets in Hw. apply list_elem_of_omap in Hw as ([| | |w0|] & Hin & Ew); try done.
    destruct (active now w0) eqn:Ea; [|done]. injection Ew as ->. rewrite <-active_in_effect. done.
  - intros (w & -> & Hin & Ha & Hlt). split; [|done]. apply bucket_refilled. unfold buckets. apply list_elem_of_omap. exists (Bandwidth w).
    by rewrite active_in_effect, Ha.
Qed.
Lemma waits_of bits ws ds : mapM (wait_of bits) ws = Ret ds → Forall2 (λ w d, wait_of bits w = Ret d ∧ 0 ≤ d) ws ds.
Proof.
  revert ds. induction ws as [|w ws IH]; intros ds E; cbn [mapM] in E; [by injection E as <-|].
  inv_ret E as (d & Ed & E). inv_ret E as (ds' & Eds & E). injection E as <-. constructor; [|by apply IH]. split; [done|]. by eapply to_nanos_nonneg.
Qed.
Lemma longest_spec ds : Forall (λ d, 0 ≤ d) ds → ds ≠ [] → longest ds ∈ ds ∧ ∀ d, d ∈ ds → d ≤ longest ds.
Proof.
  intros Hds Hne. assert (∀ a, a ≤ foldl Z.max a ds ∧ (foldl Z.max a ds = a ∨ foldl Z.max a ds ∈ ds) ∧ ∀ d, d ∈ ds → d ≤ foldl Z.max a ds) as Hf.
  { clear. induction ds as [|d ds IH]; intros a; cbn; [set_solver by lia|]. destruct (IH (Z.max a d)) as (H1 & H2 & H3). split_and!; [lia| |].
    - destruct H2 as [->|]; [|by right; right]. destruct (Z.max_spec a d) as [[_ ->]|[_ ->]]; [right; by left|by left].
    - intros x [->|Hx]%elem_of_cons; [lia|by apply H3]. }
  destruct (Hf 0) as (H1 & H2 & H3). fold (longest ds) in *. split; [|done]. destruct H2 as [E|]; [|done].
  destruct ds as [|d ds]; [done|]. apply Forall_cons in Hds as [Hd _]. pose proof (H3 d ltac:(by left)). assert (longest (d :: ds) = d) as -> by lia. by left.
Qed.
(** C35: The token buckets decide as specified, in f64.  When [try_send_bandwidth] returns, let the level of a bucket in effect be its
    tokens, plus its rate times the time since its last refill, at most its capacity, and let a bucket be short when its level is below the
    packet's bits.  If none is short the packet is sent, and every bucket in effect is left with its level less the bits.  Otherwise
    every bucket in effect is left with its level; with the longest of the times in which the short buckets gain what they
    lack, and the least of their limits, the packet is given up if
    its time in the queue and that wait exceed the limit, and
    must wait for that time if not.  The buckets in effect are refilled as of now; nothing else changes. *)
Theorem buckets_exact now bits el e e' o : try_send_bandwidth now bits el e = Ret (e', o) →
  let now_s := of_nanos (nanos now - nanos Edca.EPOCH) in
  let is_short w := Bandwidth w ∈ patterns e ∧ in_effect now w = true ∧ lt (level now_s w) bits = true in
  let need w := to_nanos (div (sub bits (level now_s w)) (token_refill_rate w)) in
  rng e' = rng e ∧
  (o = Sent ∧ (∀ w, ¬ is_short w) ∧ patterns e' = bucket_after now now_s (λ x, sub x bits) <$> patterns e ∨
   ∃ wait limit, o = (if limit <? el + wait then ExceedsLimit else Wait wait) ∧
     (∃ w, is_short w ∧ need w = Ret wait) ∧ (∀ w, is_short w → ∃ d, need w = Ret d ∧ d ≤ wait) ∧
     (∃ w, is_short w ∧ max_latency w = limit) ∧ (∀ w, is_short w → limit ≤ max_latency w) ∧
     patterns e' = bucket_after now now_s (λ x, x) <$> patterns e).
Proof.
  intros E now_s is_short need. apply try_send_ok in E as (Hr & ds & Eds & Ho). fold now_s in Eds, Ho. split; [done|].
  set (ws := short now bits (refilled now now_s <$> patterns e)) in *. apply waits_of in Eds.
  assert (∀ w, is_short w → refill now_s w ∈ ws) as Hin by (intros w Hw; apply short_iff; by exists w).
  assert (∀ w', w' ∈ ws → ∃ w, w' = refill now_s w ∧ is_short w) as Hof by (intros w' Hw; by apply short_iff in Hw).
  pose proof (least_spec (max_latency <$> ws)) as Hl. destruct (least _) as [limit|].
  - right. destruct Ho as (-> & -> & _), Hl as [Hlim Hl]. exists (longest ds), limit. apply list_elem_of_fmap in Hlim as (w' & -> & Hw').
    assert (Forall (λ d, 0 ≤ d) ds) as Hpos by (apply (Forall2_Forall_r _ _ _ _ Eds), Forall_true; by intros ?? []).
    destruct (longest_spec ds Hpos) as [Hmax Hge].
    { intros ->. apply Forall2_nil_inv_r in Eds. rewrite Eds in Hw'. set_solver. }
    split; [done|]. split_and!.
    + apply list_elem_of_lookup in Hmax as [i Hi]. destruct (Forall2_lookup_r _ _ _ _ _ Eds Hi) as (w2 & Hw2 & Ew & _).
      apply list_elem_of_lookup_2 in Hw2. apply Hof in Hw2 as (w & -> & Hw). by exists w.
    + intros w Hw. apply Hin in Hw as Hw2. apply list_elem_of_lookup in Hw2 as [i Hi]. destruct (Forall2_lookup_l _ _ _ _ _ Eds Hi) as (d & Hd & Ew & _).
      exists d. split; [done|]. apply Hge. by eapply list_elem_of_lookup_2.
    + apply Hof in Hw' as (w & -> & Hw). by exists w.
    + intros w Hw. apply Hl, list_elem_of_fmap. exists (refill now_s w). split; [done|]. by apply Hin.
    + apply list_fmap_ext. intros i q _. apply refilled_after.
  - left. destruct Ho as [-> ->]. apply fmap_nil_inv in Hl. split_and!; [done| |].
    + intros w Hw. apply Hin in Hw. rewrite Hl in Hw. set_solver.
    + rewrite <-list_fmap_compose. apply list_fmap_ext. intros i q _. apply debit_after.
Qed.
(** The cap at the speed of the network card never drops a packet: when all buckets in
    effect have the limit that [make_pacing_only] gives, the largest duration, a packet is
    sent or waits. *)
Theorem nic_cap_never_drops now bits el e e' o :
  Forall (λ w, max_latency w = DURATION_MAX) (buckets now (patterns e)) → try_send_bandwidth now bits el e = Ret (e', o) →
  o ≠ ExceedsLimit.
Proof.
  intros Hw E. apply try_send_ok in E as (_ & ds & _ & Ho). set (qs := refilled now _ <$> patterns e) in *.
  pose proof (least_spec (max_latency <$> short now bits qs)) as Hl. destruct (least _) as [limit|]; [|by destruct Ho as [-> _]].
  destruct Ho as (_ & -> & Hd), Hl as [Hin _]. assert (limit = DURATION_MAX) as ->; [|by destruct (Z.ltb_spec DURATION_MAX (el + longest ds)); [lia|]].
  apply list_elem_of_fmap in Hin as (w & -> & Hin). unfold short in Hin. apply list_elem_of_In, filter_In in Hin as [Hin%list_elem_of_In _].
  unfold qs in Hin. apply refilled_bucket in Hin as (w0 & Hin & ->). rewrite Forall_forall in Hw. apply (Hw w0 Hin).
Qed.
(** A packet larger than a bucket is never sent while the bucket is in effect. *)
Theorem oversize_blocks now bits el e e' o w : w ∈ buckets now (patterns e) → lt (max_tokens w) bits = true →
  try_send_bandwidth now bits el e = Ret (e', o) → o ≠ Sent.
Proof.
  intros Hw Hlt E. apply try_send_ok in E as (_ & ds & _ & Ho). pose proof (least_spec (max_latency <$> short now bits (refilled now (of_nanos (nanos now - nanos Edca.EPOCH)) <$> patterns e))) as Hs.
  set (n := of_nanos _) in *. destruct (least _) as [limit|]; [destruct Ho as (_ & -> & _); by destruct (_ <? _)|]. apply fmap_nil_inv in Hs. assert (refill n w ∈ short now bits (refilled now n <$> patterns e)) as Hin; [|rewrite Hs in Hin; set_solver].
  unfold short. apply list_elem_of_In, filter_In. split; [by apply list_elem_of_In, bucket_refilled|].
  cbn [refill set_tokens current_tokens]. eapply le_lt_trans; [|exact Hlt]. apply min_le_r. apply lt_spec in Hlt as (? & _). done.
Qed.

(** ** The queue *)
Lemma drain_loop_ok now (q : list (QueuedPacket (T := T) (P := P))) : ∀ e out q' e' out' wake, drain_loop now q e out = Ret (q', e', out', wake) →
  ∃ gone kept, q = gone ++ q' ∧ out' = out ++ kept ∧ kept `sublist_of` (packet <$> gone) ∧
    (wake = None → q' = []) ∧ (∀ t, wake = Some t → q' ≠ [] ∧ nanos now ≤ nanos t).
Proof.
  induction q as [|x q IH]; intros e out q' e' out' wake E; cbn [drain_loop] in E.
  { injection E as <- <- <- <-. exists [], []. rewrite (app_nil_r out). by split_and!. }
  destruct (time_lt now (bandwidth_eligible_at x)) eqn:Et.
  { injection E as <- <- <- <-. exists [], []. rewrite (app_nil_r out). split_and!; try done. intros t [= <-]. split; [done|].
    apply time_lt_spec in Et. lia. }
  inv_ret E as (n & _ & E). inv_ret E as ([e1 o] & E1 & E). destruct o as [|d|].
  - apply IH in E as (gone & kept & -> & -> & Hs & H1' & H2'). exists (x :: gone), (packet x :: kept).
    rewrite <-app_assoc. split_and!; try done. cbn. by constructor.
  - injection E as <- <- <- <-. exists [], []. rewrite (app_nil_r out). split_and!; try done. intros t [= <-]. split; [done|].
    destruct (checked_add now d) as [t|] eqn:Ec; [|done]. cbn. apply wait_nonneg in E1.
    apply checked_add_Some in Ec; lia.
  - apply IH in E as (gone & kept & -> & -> & Hs & H1' & H2'). exists (x :: gone), kept. split_and!; try done. cbn. by constructor.
Qed.
(** *** The events of the link

    A packet arrives, the earliest pending flush runs, some other event of the simulation
    calls [flush_queue], or time passes.  The third component lists the arrivals. *)
Definition set_pending (ts : list T) l : EmulatedLink :=
  mkLink (queue l) (network_emulator l) (max_queue_size l) (next_flush_scheduled l) (last_bw_pattern_logged l) (last_drain_logged l) ts (sent l).
Inductive link_step : T * EmulatedLink * list Packet → T * EmulatedLink * list Packet → Prop :=
| step_input now l l' arrivals p : input nic_deadline p now l = Ret l' → link_step (now, l, arrivals) (now, l', arrivals ++ [p])
| step_flush now t l l' arrivals before after : pending l = before ++ t :: after → Forall (λ u, nanos t ≤ nanos u) (pending l) →
    flush_queue t (set_pending (before ++ after) l) = Ret l' → link_step (now, l, arrivals) (t, l', arrivals)
| step_external now l l' arrivals : flush_queue now l = Ret l' → link_step (now, l, arrivals) (now, l', arrivals)
| step_wait now t l arrivals : nanos now ≤ nanos t → Forall (λ u, nanos t ≤ nanos u) (pending l) →
    link_step (now, l, arrivals) (t, l, arrivals).
Record link_inv (s : T * EmulatedLink * list Packet) : Prop := {
  lk_bound : (length (queue s.1.2) ≤ max_queue_size s.1.2)%nat;
  lk_pending : Forall (λ u, nanos s.1.1 ≤ nanos u) (pending s.1.2);
  lk_flush : queue s.1.2 ≠ [] → next_flush_scheduled s.1.2 ≠ None;
  lk_event : next_flush_scheduled s.1.2 ≠ None → pending s.1.2 ≠ [];
  lk_order : sent s.1.2 ++ (packet <$> queue s.1.2) `sublist_of` s.2
}.
Lemma schedule_ok wake now l l' : schedule_drain_at wake now l = Ret l' → ∃ t, nanos now ≤ nanos t ∧
  l' = mkLink (queue l) (network_emulator l) (max_queue_size l) (Some wake) (last_bw_pattern_logged l) (last_drain_logged l)
         (pending l ++ [t]) (sent l).
Proof.
  intros E. unfold schedule_drain_at in E. inv_ret E as (n & [Hn ->]%since_inv & E). inv_ret E as (t & Et & [= <-]).
  apply time_add_later in Et; [|lia]. exists t. split; [lia|done].
Qed.
(** What a flush does to the queue and the events. *)
Lemma link_drain_ok now l l' : drain now l = Ret l' → ∃ gone kept, queue l = gone ++ queue l' ∧ sent l' = sent l ++ kept ∧
  kept `sublist_of` (packet <$> gone) ∧ max_queue_size l' = max_queue_size l ∧
  (queue l' = [] ∧ next_flush_scheduled l' = None ∧ pending l' = pending l ∨
   queue l' ≠ [] ∧ next_flush_scheduled l' ≠ None ∧ ∃ t, nanos now ≤ nanos t ∧ pending l' = pending l ++ [t]).
Proof.
  intros E. unfold drain in E. inv_ret E as (b & _ & E). cbv zeta in E. inv_ret E as (n & _ & E).
  inv_ret E as ([[[q e] out] wake] & E1 & E). apply drain_loop_ok in E1 as (gone & kept & Eq & -> & Hs & H1 & H2).
  exists gone, kept. destruct wake as [t|].
  - apply schedule_ok in E as (u & Hu & ->). destruct (H2 t eq_refl) as [Hq _]. cbn. split_and!; try done. right. split_and!; try done. by exists u.
  - injection E as <-. cbn. split_and!; try done. left. split_and!; [by apply H1|done..].
Qed.
Lemma flush_inv now t l l' arrivals ts : link_inv (now, l, arrivals) → nanos now ≤ nanos t → Forall (λ u, nanos t ≤ nanos u) ts →
  drain t (set_pending ts l) = Ret l' → link_inv (t, l', arrivals).
Proof.
  intros [I1 I2 I3 I4 I5] Ht Hts E. cbn in *. apply link_drain_ok in E as (gone & kept & Eq & Es & Hs & Em & Hc). cbn in *.
  assert (sent l' ++ (packet <$> queue l') `sublist_of` arrivals) as Ho.
  { rewrite Es. etransitivity; [|exact I5]. rewrite Eq, fmap_app, <-app_assoc. apply sublist_app; [done|]. by apply sublist_app. }
  assert (length (queue l') ≤ max_queue_size l')%nat as Hb by (rewrite Em; rewrite Eq, length_app in I1; lia).
  destruct Hc as [(Hq & Hn & Hp)|(Hq & Hn & u & Hu & Hp)]; split; cbn; try done; rewrite ?Hp, ?Hq, ?Hn; try done.
  - by apply Forall_app; repeat constructor.
  - intros _ Hx. by apply app_eq_nil in Hx as [_ ?].
Qed.
Lemma log_same now l l' : log_active_bw_patterns now l = Ret l' → queue l' = queue l ∧ max_queue_size l' = max_queue_size l ∧
  next_flush_scheduled l' = next_flush_scheduled l ∧ pending l' = pending l ∧ sent l' = sent l ∧ network_emulator l' = network_emulator l.
Proof. intros E. unfold log_active_bw_patterns in E. inv_ret E as (b & _ & [= <-]). by destruct (find_active _ _ _), b. Qed.
Lemma input_inv now l l' arrivals p : link_inv (now, l, arrivals) → input nic_deadline p now l = Ret l' → link_inv (now, l', arrivals ++ [p]).
Proof.
  intros [I1 I2 I3 I4 I5] E. cbn in *. unfold input in E. inv_ret E as ([l1 b] & E1 & E). unfold enqueue in E1.
  inv_ret E1 as (l2 & (Q1 & Q2 & Q3 & Q4 & Q5 & _)%log_same & E1). inv_ret E1 as ([e o] & _ & E1). cbv zeta in E1. cbn in E1.
  assert (link_inv (now, set_emulator e l2, arrivals ++ [p])) as Hdrop.
  { split; cbn; rewrite ?Q1, ?Q2, ?Q3, ?Q4, ?Q5; try done. by apply sublist_inserts_r. }
  destruct o as [|d]; [by injection E1 as <- <-; injection E as <-|]. rewrite Q1, Q2 in E1.
  destruct (Nat.leb_spec (max_queue_size l) (length (queue l))); [by injection E1 as <- <-; injection E as <-|].
  injection E1 as <- <-. cbn in E.
  assert (∀ x : QueuedPacket (T := T) (P := P), packet x = p → sent l2 ++ (packet <$> queue l ++ [x]) `sublist_of` arrivals ++ [p]) as Ho.
  { intros x <-. rewrite Q5, fmap_app, app_assoc. by apply sublist_app. }
  destruct (bool_decide _) eqn:En; cbn in E.
  - injection E as <-. apply bool_decide_eq_true in En. split; cbn; rewrite ?Q4; try done; [rewrite length_app; cbn; lia|..].
    + intros _. by destruct En as [? ->].
    + intros Hx. apply I4. by rewrite <-Q3.
    + by apply Ho.
  - apply schedule_ok in E as (t & Ht & ->). split; cbn; rewrite ?Q4; try done; [rewrite length_app; cbn; lia|..].
    + by apply Forall_app; repeat constructor.
    + intros _ Hx. by apply app_eq_nil in Hx as [_ ?].
    + by apply Ho.
Qed.
Lemma link_step_inv s s' : link_inv s → link_step s s' → link_inv s'.
Proof.
  intros Hi Hs. destruct Hs as [now l l' arrivals p E|now t l l' arrivals before after Ep Hmin E|now l l' arrivals E|now t l arrivals Ht Hmin].
  - by eapply input_inv.
  - assert (nanos now ≤ nanos t) as Ht.
    { pose proof (lk_pending _ Hi) as Hp. cbn in Hp. rewrite Ep in Hp. apply Forall_app in Hp as [_ Hp]. by apply Forall_cons in Hp as [? _]. }
    eapply flush_inv; [exact Hi|exact Ht| |exact E]. rewrite Ep in Hmin. apply Forall_app in Hmin as [? Hmin]. apply Forall_cons in Hmin as [_ ?]. by apply Forall_app.
  - eapply (flush_inv now now l l' arrivals (pending l)); [done..| |].
    + apply Hi.
    + by destruct l.
  - destruct Hi as [I1 I2 I3 I4 I5]. by split.
Qed.
Lemma reach_inv s s' : link_inv s → rtc link_step s s' → link_inv s'.
Proof. intros Hi Hr. induction Hr as [|s1 s2 s3 Hs _ IH]; [done|]. apply IH. by eapply link_step_inv. Qed.
(** A link as it is built: nothing queued, scheduled or sent. *)
Definition fresh l : Prop := queue l = [] ∧ pending l = [] ∧ next_flush_scheduled l = None ∧ sent l = [].
Lemma fresh_inv now l : fresh l → link_inv (now, l, []).
Proof. intros (E1 & E2 & E3 & E4). split; cbn; rewrite ?E1, ?E2, ?E3, ?E4; cbn; try done; lia. Qed.
(** C36: The emulated link keeps the order of packets.  After any arrivals and flushes, the
    packets sent followed by those queued are some of the arrivals, each at most once and in
    the order in which they came, and the queue is within its bound. *)
Theorem link_in_order now0 l0 now l arrivals : fresh l0 → rtc link_step (now0, l0, []) (now, l, arrivals) →
  sent l ++ (packet <$> queue l) `sublist_of` arrivals ∧ (length (queue l) ≤ max_queue_size l)%nat.
Proof. intros Hf Hr. apply reach_inv in Hr as [I1 _ _ _ I5]; [done|by apply fresh_inv]. Qed.
(** C21: The emulated link does not stall.  Whenever a packet is queued, a flush of the queue
    is pending, not before the present time. *)
Theorem link_never_stalls now0 l0 now l arrivals : fresh l0 → rtc link_step (now0, l0, []) (now, l, arrivals) → queue l ≠ [] →
  ∃ t, t ∈ pending l ∧ nanos now ≤ nanos t.
Proof.
  intros Hf Hr Hq. apply reach_inv in Hr as [_ I2 I3 I4 _]; [|by apply fresh_inv]. cbn in *. specialize (I4 (I3 Hq)).
  destruct (pending l) as [|t ts] eqn:Ep; [done|]. exists t. split; [by left|]. by apply Forall_cons in I2 as [? _].
Qed.
(** ** Generated patterns *)
(** Bandwidth regimes one after the other from one time to another. *)
Fixpoint tiles (from until : T) (ws : list BandwidthPattern) : Prop :=
  match ws with
  | [] => nanos until ≤ nanos from
  | w :: ws => bw_from w = from ∧ nanos from < nanos (bw_until w) ≤ nanos until ∧ tiles (bw_until w) until ws
  end.
(** The regime's rate is within the range of one of the states, its bucket starts empty. *)
Definition regime (states : list MarkovBandwidthState) (w : BandwidthPattern (T := T)) : Prop :=
  max_bps w = token_refill_rate w ∧ current_tokens w = zero ∧
  ∃ st, st ∈ states ∧ le (F64Ops.min (bps_range st).1 (bps_range st).2) (max_bps w) = true ∧
    le (max_bps w) (F64Ops.max (bps_range st).1 (bps_range st).2) = true.
Lemma seg_later current until d seg : nanos current < nanos until → 1 ≤ d →
  seg = match checked_add current d with Some t => time_min t until | None => until end →
  nanos current < nanos seg ≤ nanos until.
Proof.
  intros Hlt Hd ->. destruct (checked_add current d) as [t|] eqn:E; [|lia]. apply checked_add_Some in E; [|lia].
  unfold time_min. destruct (time_le t until) eqn:Et; [apply time_le_spec in Et; lia|lia].
Qed.
Lemma exponential_valid r g x g' : exponential r g = Ret (x, g') → valid x = true.
Proof. unfold exponential. case_match; [|done]. intros Hx. assert (emu_exp r g = (x, g')) as E by congruence. pose proof (emu_exp_valid r g) as Hv. by rewrite E in Hv. Qed.
Lemma gen_range_incl_ok lo hi g x g' : gen_range_incl lo hi g = Ret (x, g') → le lo x = true ∧ le x hi = true.
Proof.
  unfold gen_range_incl. destruct (le lo hi) eqn:Hle; [|done]. intros Hx. assert (emu_uniform_incl lo hi g = (x, g')) as E by congruence.
  pose proof (emu_uniform_incl_range lo hi g Hle) as Hv. by rewrite E in Hv.
Qed.
Lemma markov_loop_ok states trans until fuel : Forall (λ st, dwells st = true) states → ∀ st current g e,
  (Z.to_nat (nanos until - nanos current) < fuel)%nat →
  match markov_loop fuel states trans until st current g e with
  | Ret e' => ∃ ws, patterns e' = patterns e ++ (Bandwidth <$> ws) ∧ tiles current until ws ∧ Forall (regime states) ws
  | Panic => True
  | OutOfFuel => False
  end.
Proof.
  intros Hst. induction fuel as [|fuel IH]; intros st current g e Hf; [lia|]. cbn [markov_loop].
  destruct (time_lt current until) eqn:Et; cbn [negb].
  2: { exists []. rewrite app_nil_r. split_and!; [done| |constructor]. cbn. apply not_true_iff_false in Et. rewrite time_lt_spec in Et. lia. }
  apply time_lt_spec in Et. destruct (states !! st) as [state|] eqn:Es; [|done]. cbn [unwrap]. ret_step.
  destruct (exponential _ g) as [[x g1]| |] eqn:Ex; [|done|by unfold exponential in Ex; case_match]. ret_step.
  destruct (f64_clamp x _ _) as [y| |] eqn:Ey; [|done|by unfold f64_clamp in Ey; case_match]. ret_step.
  destruct (to_nanos y) as [d| |] eqn:Ed; [|done|by unfold to_nanos, F32.to_nanos in Ed; repeat case_match]. ret_step.
  set (seg := match checked_add current d with Some t => time_min t until | None => until end).
  assert (1 ≤ d) as Hd.
  { rewrite Forall_forall in Hst. eapply (clamp_dwell state x y d); [apply Hst; by eapply list_elem_of_lookup_2| |done..].
    by eapply exponential_valid. }
  pose proof (seg_later current until d seg Et Hd eq_refl) as Hseg.
  destruct (bps_range state) as [lo hi] eqn:Eb.
  destruct (gen_range_incl _ _ g1) as [[bps g2]| |] eqn:Eg; [|done|by unfold gen_range_incl in Eg; case_match]. ret_step.
  destruct (new_bandwidth bps bps current seg) as [w| |] eqn:Ew; [|done|].
  2: { unfold new_bandwidth, new_bandwidth_with_burst_ms, since, Abr.since in Ew. destruct (time_le _ _); [|done]. ret_step. cbn in Ew.
       destruct (to_nanos _) eqn:En in Ew; cbn in Ew; try done. unfold to_nanos, F32.to_nanos in En. by repeat case_match. }
  ret_step. destruct (trans !! st) as [weights|]; [|done]. cbn [unwrap]. ret_step.
  destruct (weighted_index weights g2) as [[next g3]| |] eqn:En; [|done|by unfold weighted_index in En; case_match]. ret_step.
  specialize (IH next seg g3 (add_pattern (Bandwidth w) e)). assert (Z.to_nat (nanos until - nanos seg) < fuel)%nat as Hfuel by lia.
  specialize (IH Hfuel). destruct (markov_loop fuel _ _ _ _ _ _ _) as [e'| |]; [|done..].
  destruct IH as (ws & Ep & Ht & Hr). exists (w :: ws). split_and!.
  - rewrite Ep. cbn. by rewrite <-app_assoc.
  - unfold new_bandwidth, new_bandwidth_with_burst_ms in Ew. inv_ret Ew as (? & _ & Ew). inv_ret Ew as (? & _ & [= <-]). cbn. done.
  - constructor; [|done]. unfold new_bandwidth, new_bandwidth_with_burst_ms in Ew. inv_ret Ew as (? & _ & Ew). inv_ret Ew as (? & _ & [= <-]).
    split_and!; [done..|]. exists state. split; [by eapply list_elem_of_lookup_2|]. rewrite Eb. cbn.
    by eapply gen_range_incl_ok.
Qed.
(** The Markov-modulated bandwidth covers its period.  With stays of at least a
    nanosecond, the walk ends (fuel of one more than the nanoseconds of the period is
    enough); unless a draw or a table is invalid, the regimes that it adds follow each other
    without a gap from the start to the end of the period, each of positive length, with an
    empty bucket and a rate within the range of one of the states. *)
Theorem markov_tiles fuel states trans start until init e : Forall (λ st, dwells st = true) states →
  (Z.to_nat (nanos until - nanos start) < fuel)%nat →
  match add_markov_modulated_bandwidth fuel states trans start until init e with
  | Ret e' => ∃ ws, patterns e' = patterns e ++ (Bandwidth <$> ws) ∧ tiles start until ws ∧ Forall (regime states) ws
  | Panic => True
  | OutOfFuel => False
  end.
Proof.
  intros Hs Hf. unfold add_markov_modulated_bandwidth. destruct (next_u64 (rng e)) as [x g].
  exact (markov_loop_ok states trans until fuel Hs init start (Rng.new x) (mkEmu (patterns e) g) Hf).
Qed.
(** The period of a pattern that [add_random_events] makes. *)
Definition period (q : NetworkPattern) : option (T * T) :=
  match q with
  | ProbabilisticDrop _ from until => Some (from, until)
  | Bandwidth w => Some (bw_from w, bw_until w)
  | Jitter j => Some (jit_from j, jit_until j)
  | _ => None
  end.
(** Each event starts at or after the end of the one before, and ends by [until]. *)
Fixpoint apart (from until : T) (qs : list NetworkPattern) : Prop :=
  match qs with
  | [] => True
  | q :: qs => ∃ a b, period q = Some (a, b) ∧ nanos from ≤ nanos a ≤ nanos b ∧ nanos b ≤ nanos until ∧ apart b until qs
  end.
Lemma event_period kind dist mean var (p : f64) a b g q g' : event_pattern kind dist mean var p a b g = Ret (q, g') → period q = Some (a, b).
Proof.
  destruct kind; cbn [event_pattern]; intros E; [by injection E as <- _|..].
  - inv_ret E as (j & Ej & [= <- <-]). unfold new_jitter in Ej. inv_ret Ej as (? & _ & Ej). by inv_ret Ej as (? & _ & [= <-]).
  - inv_ret E as ([z g1] & _ & E). cbv zeta in E. inv_ret E as (w & Ew & [= <- <-]). unfold new_bandwidth, new_bandwidth_with_burst_ms in Ew.
    inv_ret Ew as (? & _ & Ew). by inv_ret Ew as (? & _ & [= <-]).
Qed.
Lemma random_loop_ok n kind until lo hi rate dist mean var : ∀ current g e e',
  random_events_loop n kind until lo hi rate dist mean var current g e = Ret e' →
  ∃ qs, patterns e' = patterns e ++ qs ∧ (length qs ≤ n)%nat ∧ apart current until qs.
Proof.
  induction n as [|n IH]; intros current g e e' E; cbn [random_events_loop] in E.
  { injection E as <-. exists []. by rewrite app_nil_r. }
  assert (∀ e', e' = e → ∃ qs, patterns e' = patterns e ++ qs ∧ (length qs ≤ S n)%nat ∧ apart current until qs) as Hstop.
  { intros ? ->. exists []. rewrite app_nil_r. split_and!; [done|cbn; lia|done]. }
  inv_ret E as ([gap g1] & _ & E). inv_ret E as (d & Ed & E). destruct (checked_add current d) as [a|] eqn:Ea; [|injection E as <-; by apply Hstop].
  inv_ret E as ([dur g2] & _ & E). inv_ret E as (d2 & Ed2 & E). destruct (checked_add a d2) as [b|] eqn:Eb; [|injection E as <-; by apply Hstop].
  destruct (time_lt until b) eqn:Et; [injection E as <-; by apply Hstop|].
  inv_ret E as ([p1 g3] & _ & E). inv_ret E as (p2 & _ & E). inv_ret E as ([q g4] & Eq%event_period & E).
  apply IH in E as (qs & Ep & Hl & Ha). exists (q :: qs). apply to_nanos_nonneg in Ed, Ed2.
  apply checked_add_Some in Ea; [|done]. apply checked_add_Some in Eb; [|done].
  apply not_true_iff_false in Et. rewrite time_lt_spec in Et. split_and!.
  - rewrite Ep. cbn. by rewrite <-app_assoc.
  - cbn. lia.
  - exists a, b. split_and!; [done|lia..|done].
Qed.
(** Random events do not overlap.  [add_random_events] adds at most the number asked for,
    one after the other in time, all within the window. *)
Theorem random_events_apart count kind start until dmin dmax dist mean var e e' :
  add_random_events count kind start until dmin dmax dist mean var e = Ret e' →
  ∃ qs, patterns e' = patterns e ++ qs ∧ (length qs ≤ count)%nat ∧ apart start until qs.
Proof.
  unfold add_random_events. destruct (Nat.eqb_spec count 0) as [->|_]; [intros [= <-]; exists []; by rewrite app_nil_r|].
  intros E. inv_ret E as (n & _ & E). cbv zeta in E. destruct (next_u64 (rng e)) as [x g]. by apply random_loop_ok in E.
Qed.
End link.

(** ** A link of one gigabit per second *)
Module LinkDemo.
#[local] Instance Epoch_demo : Edca.Epoch mono := mono_of 0.
Lemma weighted_demo (ws : list f64) (g : SimRng) : (∃ w, w ∈ ws ∧ lt zero w = true) → (0 < length ws)%nat.
Proof. intros (w & Hw & _). destruct ws; [by apply not_elem_of_nil in Hw|cbn; lia]. Qed.
Lemma uniform_demo (lo hi : f64) (g : SimRng) : le lo hi = true → le lo lo = true ∧ le lo hi = true.
Proof. intros Hle. split; [|done]. apply le_refl. by apply le_nan in Hle as [? _]. Qed.
#[local] Instance rand_demo : EmuRand := {|
  emu_gen g := (lit 1 2, g);
  emu_uniform lo hi g := (lo, g);
  emu_uniform_incl lo hi g := (lo, g);
  emu_normal m s g := (m, g);
  emu_exp r g := (of_Z 5, g);
  emu_weighted ws g := (0%nat, g);
  emu_uniform_incl_range := uniform_demo;
  emu_exp_valid _ _ := eq_refl;
  emu_weighted_range := weighted_demo
|}.
Definition no_deadline (_ : unit) : option mono := None.
Definition demo_packet (n bits : Z) : MpduPacket mono unit :=
  mkMpdu n bits (mono_of 0) (mono_of 0) 0 0 1 2 (Phy.mkCoords zero zero zero) 0 tt Edca.Video None None.
Definition demo_link : EmulatedLink (T := mono) (P := unit) :=
  match new_with_bandwidth false 0 10 (mono_of 0) (Some (false, false, false, false, false)) (Some 1000000000) (of_Z 60) (Rng.new 1) with
  | Ret l => l | _ => mkLink [] (mkEmu [] (Rng.new 1)) 0 None None None [] [] end.
Definition at_s (n : Z) : mono := mono_of (n * 10 ^ 9).
Definition run_input (n : Z) (l : EmulatedLink (T := mono) (P := unit)) : EmulatedLink (T := mono) (P := unit) :=
  match input no_deadline (demo_packet n 12000) (at_s 1) l with Ret l => l | _ => l end.
Definition loaded : EmulatedLink (T := mono) (P := unit) := run_input 3 (run_input 2 (run_input 1 demo_link)).
Definition flushed : EmulatedLink (T := mono) (P := unit) :=
  match flush_queue (mono_of (10 ^ 9 + 1)) (set_pending [] loaded) with Ret l => l | _ => loaded end.
(** Two packets fit the bucket of the network card, the third waits for twelve microseconds. *)
Example link_demo_run : (packet_id <$> sent flushed, length (queue flushed), mono_ns <$> pending flushed) = ([1; 2], 1%nat, [1000012001]).
Proof. vm_compute. reflexivity. Qed.
Lemma demo_fresh : fresh demo_link.
Proof. by vm_compute. Qed.
Lemma loaded_reach : rtc (link_step no_deadline) (at_s 1, demo_link, []) (at_s 1, loaded, demo_packet 1 12000 :: demo_packet 2 12000 :: [demo_packet 3 12000]).
Proof.
  eapply rtc_l; [apply (step_input _ _ _ (run_input 1 demo_link) [] (demo_packet 1 12000)); vm_compute; reflexivity|].
  eapply rtc_l; [apply (step_input _ _ _ (run_input 2 (run_input 1 demo_link)) [demo_packet 1 12000] (demo_packet 2 12000)); vm_compute; reflexivity|].
  eapply rtc_l; [apply (step_input _ _ _ loaded [demo_packet 1 12000; demo_packet 2 12000] (demo_packet 3 12000)); vm_compute; reflexivity|].
  constructor.
Qed.
Lemma flushed_reach : rtc (link_step no_deadline) (at_s 1, demo_link, []) (mono_of (10 ^ 9 + 1), flushed, demo_packet 1 12000 :: demo_packet 2 12000 :: [demo_packet 3 12000]).
Proof.
  eapply rtc_r; [exact loaded_reach|]. apply (step_flush _ _ _ _ _ _ [] []); [vm_compute; reflexivity| |vm_compute; reflexivity].
  vm_compute. repeat constructor. discriminate.
Qed.
Lemma link_in_order_witness : sent flushed ++ (packet <$> queue flushed) `sublist_of` [demo_packet 1 12000; demo_packet 2 12000; demo_packet 3 12000] ∧
  (length (queue flushed) ≤ max_queue_size flushed)%nat.
Proof. exact (link_in_order no_deadline (at_s 1) demo_link (mono_of (10 ^ 9 + 1)) flushed _ demo_fresh flushed_reach). Defined.
Lemma link_never_stalls_witness : ∃ t, t ∈ pending flushed ∧ nanos (mono_of (10 ^ 9 + 1)) ≤ nanos t.
Proof.
  apply (link_never_stalls no_deadline (at_s 1) demo_link (mono_of (10 ^ 9 + 1)) flushed _ demo_fresh flushed_reach).
  vm_compute. discriminate.
Defined.
Definition demo_emu : NetworkPatternEmulator (T := mono) := network_emulator loaded.
Definition demo_try (bits : Z) := try_send_bandwidth (at_s 1) (of_Z bits) 0 demo_emu.
Definition after_try (bits : Z) : NetworkPatternEmulator (T := mono) * BandwidthOutcome :=
  match demo_try bits with Ret r => r | _ => (demo_emu, Sent) end.
Lemma buckets_exact_witness : (after_try 30000).2 ≠ Sent ∧ (after_try 12000).2 = Sent ∧
  patterns (after_try 12000).1 = bucket_after (at_s 1) (of_Z 1) (λ x, sub x (of_Z 12000)) <$> patterns demo_emu.
Proof.
  assert (demo_try 12000 = Ret ((after_try 12000).1, (after_try 12000).2)) as E by (vm_compute; reflexivity).
  destruct (buckets_exact (at_s 1) (of_Z 12000) 0 demo_emu _ _ E) as (_ & [(_ & _ & Hp)|(wait & limit & Ho & _)]).
  - split; [vm_compute; discriminate|]. split; [vm_compute; reflexivity|]. etrans; [exact Hp|]. vm_compute. reflexivity.
  - exfalso. assert ((after_try 12000).2 = Sent) as Es by (vm_compute; reflexivity). rewrite Es in Ho. clear -Ho. destruct (limit <? 0 + wait); discriminate Ho.
Defined.
Lemma nic_cap_never_drops_witness : (after_try 30000).2 ≠ ExceedsLimit.
Proof.
  assert (demo_try 30000 = Ret ((after_try 30000).1, (after_try 30000).2)) as E by (vm_compute; reflexivity).
  apply (nic_cap_never_drops (at_s 1) (of_Z 30000) 0 demo_emu (after_try 30000).1 (after_try 30000).2); [|exact E].
  vm_compute. repeat constructor.
Defined.
Definition demo_bucket : BandwidthPattern (T := mono) :=
  match buckets (at_s 1) (patterns demo_emu) with [w] => w | _ => mkBw zero zero zero zero zero 0 (mono_of 0) (mono_of 0) end.
Lemma oversize_blocks_witness : (after_try 30000).2 ≠ Sent.
Proof.
  assert (demo_try 30000 = Ret ((after_try 30000).1, (after_try 30000).2)) as E by (vm_compute; reflexivity).
  apply (oversize_blocks (at_s 1) (of_Z 30000) 0 demo_emu (after_try 30000).1 (after_try 30000).2 demo_bucket); [|vm_compute; reflexivity|exact E].
  vm_compute. left.
Defined.
(** Stays of six nanoseconds in a period of twenty. *)
Definition demo_states : list MarkovBandwidthState := [mkMarkov (millions 15 20) (lit 5 1000000000, lit 6 1000000000) (of_Z 1)].
Definition demo_markov := add_markov_modulated_bandwidth 30 demo_states [[of_Z 1]] (mono_of 0) (mono_of 20) 0 (mkEmu [] (Rng.new 1)).
Example demo_regimes : (λ e, (λ w, (mono_ns (bw_from w), mono_ns (bw_until w))) <$> buckets (mono_of 6) (patterns e)) <$> demo_markov
  = Ret [(0, 6); (6, 12)].
Proof. vm_compute. reflexivity. Qed.
Lemma markov_tiles_witness : match demo_markov with
  | Ret e' => ∃ ws, patterns e' = [] ++ (Bandwidth <$> ws) ∧ tiles (mono_of 0) (mono_of 20) ws ∧ Forall (regime demo_states) ws
  | Panic => True
  | OutOfFuel => False
  end.
Proof.
  apply (markov_tiles 30 demo_states [[of_Z 1]] (mono_of 0) (mono_of 20) 0 (mkEmu [] (Rng.new 1))).
  - repeat constructor.
  - vm_compute. lia.
Defined.
Definition demo_events := add_random_events 2 BandwidthEvent (at_s 10) (at_s 65) (3 * 10 ^ 9) (15 * 10 ^ 9) Uniform (of_Z 50000000) (of_Z 40000000)
  (mkEmu [] (Rng.new 1)).
Definition demo_event_patterns : list (NetworkPattern (T := mono)) := match demo_events with Ret e => patterns e | _ => [] end.
Lemma random_events_apart_witness : length demo_event_patterns = 2%nat ∧ ∃ qs, demo_event_patterns = [] ++ qs ∧ (length qs ≤ 2)%nat ∧
  apart (at_s 10) (at_s 65) qs.
Proof.
  split; [vm_compute; reflexivity|]. destruct demo_events as [e'| |] eqn:E; [|vm_compute in E; discriminate..].
  assert (demo_event_patterns = patterns e') as -> by (unfold demo_event_patterns; by rewrite E).
  exact (random_events_apart 2 BandwidthEvent (at_s 10) (at_s 65) (3 * 10 ^ 9) (15 * 10 ^ 9) Uniform (of_Z 50000000) (of_Z 40000000) _ e' E).
Defined.
(** The patterns of the bandwidth test report a cap of 120 kb/s to the oracle, whatever their rate. *)
Definition bandwidth_test : outcome (EmulatedLink (T := mono) (P := unit)) :=
  link_new 0 10 (mono_of 0) (Some (true, false, false, false, false)) (of_Z 60) (Rng.new 1).
Example oracle_sees_mtu : (λ l, (λ p, as_i64 (Abr.max_bps p)) <$> oracle_trace (patterns (network_emulator l))) <$> bandwidth_test
  = Ret [120000; 120000; 120000].
Proof. vm_compute. reflexivity. Qed.
End LinkDemo.
End LinkFacts.
