(* ===== verification/Keyframe.v ===== *)
(** * Keyframes: [is_keyframe] of [examples/lib/models_XR.rs]

    Whether a frame starts a group of pictures: for HEVC an IRAP unit after a start code, for
    AV1 a sequence header among the first two units.  The search of the crate memchr is a
    parameter with its documented behaviour.  [keyframe_scan_exact]: the search for start
    codes gives what the scan byte by byte of [models_XR/keyframe_tests.rs] gives, on every frame. *)

From S2P Require Import Prelude.

Module Keyframe.
Inductive VideoCodec := HEVC | AV1.
(** [needle] is in [hay] at [p]. *)
Definition occurs (needle hay : list Z) (p : nat) : Prop := take (length needle) (drop p hay) = needle.
(** [memchr::memmem::find_iter]: the occurrences from left to right, those that overlap one reported before left out. *)
Class MemMem := {
  find_iter : list Z → list Z → list nat;
  find_iter_sorted : ∀ hay needle, StronglySorted lt (find_iter hay needle);
  find_iter_sound : ∀ hay needle p, p ∈ find_iter hay needle → occurs needle hay p;
  find_iter_complete : ∀ hay needle p, needle ≠ [] → occurs needle hay p →
    p ∈ find_iter hay needle ∨ ∃ p', p' ∈ find_iter hay needle ∧ (p' < p < p' + length needle)%nat
}.
Definition irap (nal_header : Z) : bool :=
  let t := Z.land (Z.shiftr nal_header 1) 63 in (16 <=? t) && (t <=? 21).
Definition is_byte (frame : list Z) (i : nat) (b : Z) : bool := bool_decide (frame !! i = Some b).
Definition START : list Z := [0; 0; 1].

Section keyframe.
Context `{MemMem}.
Fixpoint scan_hevc (frame : list Z) (lim : nat) (ps : list nat) : bool :=
  match ps with
  | [] => false
  | p :: ps =>
      if (lim <=? p)%nat && negb ((1 <=? p)%nat && (p - 1 <? lim)%nat && is_byte frame (p - 1) 0) then
        if (lim + 1 <=? p)%nat then false else scan_hevc frame lim ps
      else match frame !! (p + 3)%nat with
           | Some nal_header => if irap nal_header then true else scan_hevc frame lim ps
           | None => scan_hevc frame lim ps
           end
  end.
Definition obu_type (b : Z) : Z := Z.land (Z.shiftr b 3) 15.
Definition is_keyframe (frame : list Z) (codec : VideoCodec) : bool :=
  if (length frame <? 3)%nat then false
  else match codec with
       | HEVC => scan_hevc frame (length frame - 5) (find_iter frame START)
       | AV1 =>
           let obu0_type := obu_type (default 0 (frame !! 0%nat)) in
           (obu0_type =? 1)
           || (obu0_type =? 2) && (2 <? length frame)%nat && (obu_type (default 0 (frame !! 2%nat)) =? 1)
       end.
(** The scan byte by byte. *)
Fixpoint reference_loop (frame : list Z) (i n : nat) : bool :=
  match n with
  | O => false
  | S n =>
      let b (k : nat) (v : Z) := is_byte frame (i + k)%nat v in
      if (b 0%nat 0 && b 1%nat 0 && b 2%nat 1) || (b 0%nat 0 && b 1%nat 0 && b 2%nat 0 && b 3%nat 1) then
        let pos := (i + (if b 2%nat 0%Z then 4 else 3))%nat in
        if match frame !! pos with Some h => irap h | None => false end then true else reference_loop frame (S i) n
      else reference_loop frame (S i) n
  end.
Definition reference_hevc (frame : list Z) : bool :=
  if (length frame <? 3)%nat then false else reference_loop frame 0 (length frame - 5).

(** A start code at [p]. *)
Definition code (frame : list Z) (p : nat) : Prop :=
  frame !! p = Some 0 ∧ frame !! (p + 1)%nat = Some 0 ∧ frame !! (p + 2)%nat = Some 1.
Lemma occurs_code frame p : occurs START frame p ↔ code frame p.
Proof.
  unfold occurs, code, START. cbn [length]. rewrite <-(Nat.add_0_r p) at 2. rewrite <-!lookup_drop.
  destruct (drop p frame) as [|a [|b [|c l]]]; cbn; naive_solver.
Qed.
(** Start codes do not overlap, so all are found. *)
Lemma found_code frame p : p ∈ find_iter frame START ↔ code frame p.
Proof.
  split; [intros Hp; by apply occurs_code, find_iter_sound|]. intros Hp.
  destruct (find_iter_complete frame START p) as [?|(p' & Hp' & Hlt)]; [done|by apply occurs_code|done|].
  apply find_iter_sound, occurs_code in Hp' as (E0 & E1 & E2). destruct Hp as (F0 & F1 & F2). cbn in Hlt.
  assert (p = p' + 1 ∨ p = p' + 2)%nat as [-> | ->] by lia; [|congruence]. replace (p' + 1 + 1)%nat with (p' + 2)%nat in F1 by lia. congruence.
Qed.
(** The positions that count: before the limit, or at it with a zero before. *)
Definition counts (frame : list Z) (lim p : nat) : Prop := (p < lim)%nat ∨ p = lim ∧ (1 ≤ p)%nat ∧ frame !! (p - 1)%nat = Some 0.
Definition found (frame : list Z) (lim : nat) (P : nat → Prop) : Prop :=
  ∃ p h, P p ∧ counts frame lim p ∧ frame !! (p + 3)%nat = Some h ∧ irap h = true.
Lemma scan_ok frame lim ps : StronglySorted lt ps → scan_hevc frame lim ps = true ↔ found frame lim (λ p, p ∈ ps).
Proof.
  induction 1 as [|p ps Hs IH Hlt]; cbn [scan_hevc].
  { split; [done|]. intros (p & h & Hp & _). by apply not_elem_of_nil in Hp. }
  assert (found frame lim (λ q, q ∈ p :: ps) ↔ found frame lim (λ q, q = p) ∨ found frame lim (λ q, q ∈ ps)) as Hsplit.
  { unfold found. setoid_rewrite elem_of_cons. naive_solver. }
  rewrite Hsplit. clear Hsplit. unfold is_byte.
  assert (((lim <=? p)%nat && negb ((1 <=? p)%nat && (p - 1 <? lim)%nat && bool_decide (frame !! (p - 1)%nat = Some 0))) = false ↔ counts frame lim p) as Hc.
  { unfold counts. rewrite andb_false_iff, negb_false_iff, !andb_true_iff, bool_decide_eq_true, Nat.leb_gt, Nat.leb_le, Nat.ltb_lt. split; [|naive_solver lia].
    intros [?|[[? ?] ?]]; [by left|]. destruct (decide (p < lim)%nat); [by left|]. right. split_and!; [lia..|done]. }
  destruct (_ && _).
  - assert (¬ counts frame lim p) as Hn by (intros Hx; by apply Hc in Hx). destruct (Nat.leb_spec (lim + 1) p) as [Hp|Hp].
    + split; [done|]. intros [(q & h & -> & Hx & _)|(q & h & Hq & Hx & _)]; [done|]. rewrite Forall_forall in Hlt. specialize (Hlt q Hq).
      unfold counts in Hx. lia.
    + rewrite IH. split; [by right|]. intros [(q & h & -> & Hx & _)|?]; done.
  - assert (counts frame lim p) as Hx by by apply Hc.
    destruct (frame !! (p + 3)%nat) as [h|] eqn:Eh.
    + destruct (irap h) eqn:Ei.
      * split; [|done]. intros _. left. by exists p, h.
      * rewrite IH. split; [by right|]. intros [(q & h' & -> & _ & Eh' & Ei')|?]; [congruence|done].
    + rewrite IH. split; [by right|]. intros [(q & h' & -> & _ & Eh' & _)|?]; [congruence|done].
Qed.
Lemma is_byte_spec frame i b : is_byte frame i b = true ↔ frame !! i = Some b.
Proof. apply bool_decide_eq_true. Qed.
(** The scan finds a start code of either form that begins in its range. *)
Definition begins (frame : list Z) (i : nat) : Prop :=
  ∃ p h, code frame p ∧ (p = i ∨ p = S i ∧ frame !! i = Some 0) ∧ frame !! (p + 3)%nat = Some h ∧ irap h = true.
(** One position of the scan. *)
Definition step (frame : list Z) (i : nat) : bool :=
  let b (k : nat) (v : Z) := is_byte frame (i + k)%nat v in
  if (b 0%nat 0 && b 1%nat 0 && b 2%nat 1) || (b 0%nat 0 && b 1%nat 0 && b 2%nat 0 && b 3%nat 1) then
    match frame !! (i + (if b 2%nat 0%Z then 4 else 3))%nat with Some h => irap h | None => false end
  else false.
Lemma step_begins frame i : step frame i = true ↔ begins frame i.
Proof.
  unfold step, begins, code. rewrite Nat.add_0_r. split.
  - destruct (_ || _) eqn:E; [|done]. rewrite orb_true_iff, !andb_true_iff, !is_byte_spec in E. intros Hi. case_match eqn:Eh; [|done]. rename z into h.
    destruct E as [[[E0 E1] E2]|[[[E0 E1] E2] E3]].
    + assert (is_byte frame (i + 2)%nat 0 = false) as Ez by (apply bool_decide_eq_false; congruence). rewrite Ez in Eh. exists i, h. split_and!; auto.
    + assert (is_byte frame (i + 2)%nat 0 = true) as Ez by (by apply is_byte_spec). rewrite Ez in Eh. exists (S i), h.
      replace (S i) with (i + 1)%nat by lia. rewrite <-!Nat.add_assoc. cbn [Nat.add]. split_and!; auto.
  - intros (p & h & (E0 & E1 & E2) & Hp & Eh & Hi). destruct Hp as [->|[-> Hz]].
    + apply is_byte_spec in E0 as F0, E1 as F1, E2 as F2. rewrite F0, F1, F2. cbn [andb orb].
      assert (is_byte frame (i + 2)%nat 0 = false) as -> by (apply bool_decide_eq_false; congruence). by rewrite Eh.
    + replace (S i) with (i + 1)%nat in * by lia. rewrite <-!Nat.add_assoc in *. cbn [Nat.add] in *.
      apply is_byte_spec in E0 as F0, E1 as F1, E2 as F2, Hz as Fz. rewrite Fz, F0, F1, F2. cbn [andb].
      rewrite orb_true_r. by rewrite Eh.
Qed.
Lemma reference_ok frame n : ∀ i, reference_loop frame i n = true ↔ ∃ j, (i ≤ j < i + n)%nat ∧ begins frame j.
Proof.
  induction n as [|n IH]; intros i; cbn [reference_loop]; [split; [done|intros (j & Hj & _); lia]|].
  assert ((∃ j, (i ≤ j < i + S n)%nat ∧ begins frame j) ↔ begins frame i ∨ ∃ j, (S i ≤ j < S i + n)%nat ∧ begins frame j) as ->.
  { split.
    - intros (j & Hj & Hb). destruct (decide (j = i)) as [->|]; [by left|]. right. exists j. split; [lia|done].
    - intros [Hb|(j & Hj & Hb)]; [exists i|exists j]; (split; [lia|done]). }
  rewrite <-IH. clear IH. pose proof (step_begins frame i) as Hstep. unfold step in Hstep. destruct (_ || _).
  - destruct (match frame !! _ with Some _ => _ | None => _ end); naive_solver.
  - naive_solver.
Qed.
(** The fast search for keyframes is the slow one.  On every frame, [is_keyframe] for HEVC,
    which looks at the occurrences of the start code that the substring search reports, says
    what the scan byte by byte says. *)
Theorem keyframe_scan_exact frame : is_keyframe frame HEVC = reference_hevc frame.
Proof.
  unfold is_keyframe, reference_hevc. destruct (length frame <? 3)%nat; [done|]. set (lim := (length frame - 5)%nat).
  apply eq_true_iff_eq. rewrite scan_ok by apply find_iter_sorted. rewrite reference_ok. unfold found, begins. setoid_rewrite found_code. split.
  - intros (p & h & Hp & Hc & Eh & Ei). destruct Hc as [Hlt|(-> & H1 & Hz)].
    + exists p. split; [lia|]. exists p, h. split_and!; try done. by left.
    + exists (lim - 1)%nat. split; [lia|]. exists lim, h. split_and!; try done. right. split; [lia|done].
  - intros (j & Hj & p & h & Hp & Hpj & Eh & Ei). exists p, h. split_and!; try done. destruct Hpj as [->|[-> Hz]]; [left; lia|].
    destruct (decide (S j < lim)%nat); [by left|]. right. replace (S j - 1)%nat with j by lia. split_and!; [lia..|done].
Qed.
End keyframe.

(** ** The laws can hold: a search position by position *)
Module KeyframeDemo.
#[export] Instance occurs_dec needle hay p : Decision (occurs needle hay p) := decide_rel eq _ _.
(** The occurrences from [i] on, none before [free]. *)
Fixpoint naive (needle hay : list Z) (n i free : nat) : list nat :=
  match n with
  | O => []
  | S n =>
      if (free <=? i)%nat && bool_decide (occurs needle hay i) then i :: naive needle hay n (S i) (i + length needle)
      else naive needle hay n (S i) free
  end.
Lemma naive_in needle hay n : ∀ i free p, p ∈ naive needle hay n i free → (i ≤ p)%nat ∧ occurs needle hay p.
Proof.
  induction n as [|n IH]; intros i free p; cbn [naive]; [by intros ?%not_elem_of_nil|].
  destruct (_ && _) eqn:E; [|intros Hp%IH; naive_solver lia]. apply andb_true_iff in E as [_ E%bool_decide_eq_true].
  intros [->|Hp%IH]%elem_of_cons; naive_solver lia.
Qed.
Lemma naive_sorted needle hay n : ∀ i free, StronglySorted lt (naive needle hay n i free).
Proof.
  induction n as [|n IH]; intros i free; cbn [naive]; [constructor|]. destruct (_ && _); [|apply IH].
  constructor; [apply IH|]. apply Forall_forall. intros p Hp%naive_in. lia.
Qed.
Lemma naive_complete needle hay n : ∀ i free p, (i ≤ p < i + n)%nat → occurs needle hay p →
  p ∈ naive needle hay n i free ∨ (p < free)%nat ∨ ∃ p', p' ∈ naive needle hay n i free ∧ (p' < p < p' + length needle)%nat.
Proof.
  induction n as [|n IH]; intros i free p Hp Ho; [lia|]. cbn [naive].
  destruct (decide (p = i)) as [->|Hne].
  - destruct (Nat.leb_spec free i) as [Hf|Hf]; cbn [andb]; [|by right; left]. rewrite bool_decide_eq_true_2 by done. left. left.
  - destruct (_ && _) eqn:E.
    + destruct (IH (S i) (i + length needle)%nat p) as [?|[?|(p' & ? & ?)]]; [lia|done|by left; right| |].
      * right. right. exists i. split; [left|lia].
      * right. right. exists p'. split; [by right|done].
    + apply IH; [lia|done].
Qed.
#[local] Instance naive_memmem : MemMem.
Proof.
  refine {| find_iter hay needle := naive needle hay (length hay) 0 0 |}.
  - intros hay needle. apply naive_sorted.
  - intros hay needle p Hp%naive_in. apply Hp.
  - intros hay needle p Hne Ho. destruct (naive_complete needle hay (length hay) 0 0 p) as [?|[?|?]]; [|done|by left|lia|by right].
    split; [lia|]. assert (drop p hay ≠ []) as Hd by (intros Hd; unfold occurs in Ho; rewrite Hd, take_nil in Ho; done).
    destruct (decide (p < length hay)%nat); [lia|]. by rewrite drop_ge in Hd by lia.
Defined.
(** An IDR unit (type 19) behind an access unit delimiter (type 35), the second with the long start code. *)
Definition idr_frame : list Z := [0; 0; 1; 70; 1; 0; 0; 0; 1; 38; 1; 7; 7; 7].
Example idr_is_keyframe : is_keyframe idr_frame HEVC = true.
Proof. reflexivity. Qed.
Lemma keyframe_scan_exact_witness : is_keyframe idr_frame HEVC = true ∧ is_keyframe idr_frame HEVC = reference_hevc idr_frame.
Proof. split; [reflexivity|apply keyframe_scan_exact]. Defined.
End KeyframeDemo.
End Keyframe.
