(* ===== verification/Client.v ===== *)
(** * The headset: [XRClient] of [examples/lib/models_XR.rs]

    Video shards from the network go through the stream socket ([Socket]); every packet
    that was put together is taken over, measured (EVeREst, NADA, throughput), reported to
    the server and queued for the decoder; every refresh of the display takes the oldest
    queued frame.  Module [Client].

    All streams of a socket share one channel, [chan]: what the network delivers and what
    the tracking stream sends pass through it.  A handler returns the new state; what it
    schedules for itself and what it sends are appended to [events], [to_network],
    [app_network] and [decoded].  Serialization by [bincode] is a parameter, and so is the tracking
    packet (its geometry is not modelled).  Left out: decoding, rendering and CSV files, all
    off by [USE_FFMPEG_DEMO = false]; the probes of FovOptix ([abr_mode = 6]); the log of
    shards. *)

From Stdlib Require Import SpecFloat.
From S2P Require Import Prelude StablePq Scheduler F32 StreamSocket SimRng Airtime Edca MacData F64Ops Gcc Nada Abr Keyframe.

Module Client.
Import Socket.
#[local] Open Scope f32_scope.

Definition MAX_DEADLINE_IN_STATS : nat := 10.
Definition TRACKING : Z := 0.
Definition HAPTICS : Z := 1.
Definition AUDIO : Z := 2.
Definition CONTROL_STREAM : Z := 5.
Definition FRAMELOSS_PACKET : Z := 8.
Definition FOVOPTIX_BW_PROBE : Z := 9.
Definition MAX_UNREAD_PACKETS : nat := 5.
Definition DECODER_BUFFERING_FRAMES : nat := 3.
Definition TARGET_FRAMES_DECODER_QUEUE : nat := DECODER_BUFFERING_FRAMES.
Definition DISPLAY_GRAPH_MAX_FRAMES : nat := 100.
Definition MAX_STAT_HISTORY_GRAPH : nat := 256.
Definition ALPHA_THROUGHPUT : f32 := Abr.lit 1 10.

(** ** The jitter buffer *)
Section deque.
Context {A : Type}.
Record DroppingVecDeque := mkDeque {
  deque : list A;
  capacity : nat;
  dropped_frame_counter : nat;
  ok_dequed_frame_counter : nat;
  enqued_frame_counter : nat
}.
Implicit Types d : DroppingVecDeque.
Definition deque_new (capacity : nat) : DroppingVecDeque := mkDeque [] capacity 0 0 0.
Definition deque_clear d : DroppingVecDeque := mkDeque [] (capacity d) 0 0 0.
Definition push (item : A) d : DroppingVecDeque :=
  if (length (deque d) =? capacity d)%nat then
    mkDeque (tail (deque d) ++ [item]) (capacity d) (S (dropped_frame_counter d)) (ok_dequed_frame_counter d) (S (enqued_frame_counter d))
  else mkDeque (deque d ++ [item]) (capacity d) (dropped_frame_counter d) (ok_dequed_frame_counter d) (S (enqued_frame_counter d)).
Definition pop d : option A * DroppingVecDeque :=
  (head (deque d),
   mkDeque (tail (deque d)) (capacity d) (dropped_frame_counter d) (S (ok_dequed_frame_counter d)) (enqued_frame_counter d)).
End deque.
Arguments DroppingVecDeque : clear implicits.

(** ** Rebuffering events of the last period *)
Record TimedRebufferCounter := mkRebuffer { vec_buflevel : list (f32 * Z); rb_period : f32 }.
Definition rebuffer_new (period : f32) : TimedRebufferCounter := mkRebuffer [] period.
Fixpoint prune (cutoff : f32) (l : list (f32 * Z)) : list (f32 * Z) :=
  match l with
  | (t, v) :: l' => if t ≺ cutoff then prune cutoff l' else l
  | [] => []
  end.
Definition add_one (time_f32 : f32) (r : TimedRebufferCounter) : TimedRebufferCounter :=
  mkRebuffer (prune (time_f32 ⊖ rb_period r) (vec_buflevel r ++ [(time_f32, 1)])) (rb_period r).
Definition sum_in_period (r : TimedRebufferCounter) : Z := foldr Z.add 0 (snd <$> vec_buflevel r).

(** ** Packets *)
Record HeaderALVRStream := mkHeader {
  hd_packet_length_bytes : Z;
  hd_stream_id : Z;
  hd_next_packet_index : Z;
  hd_shards_count : Z;
  hd_shard_index : Z;
  hd_tx_instant : f32;
  hd_frame_losses : option (list Z)
}.
Definition BG_TRAFFIC_STREAM_ID : Z := 7.
Definition header_default : HeaderALVRStream := mkHeader 0 BG_TRAFFIC_STREAM_ID 0 0 0 F32.zero None.
(** The fields of [MpduPacket] that the client sets or reads. *)
Record Mpdu := mkMpdu {
  data_inner : list Z;
  length_packet_bits : Z;
  header_alvr : HeaderALVRStream;
  mp_edca_ac : Edca.EdcaAc
}.
Record NadaStats := mkNadaStats {
  nada_feedback : bool;
  nada_xcurr : f64;
  nada_rmode : Z;
  nada_recv : Z;
  ns_plr : f64;
  ns_d_tilde : f64;
  ns_d_queue : Z
}.
Definition nada_stats_default : NadaStats := mkNadaStats false F64.zero 0 0 F64.zero F64.zero 0.
Record NetworkStatisticsPacket := mkNetStats {
  np_frame_index : Z;
  np_frame_span : f32;
  np_bytes_in_frame : Z;
  np_bytes_in_frame_app : Z;
  np_frame_interarrival : f32;
  np_interarrival_jitter : f32;
  np_ow_delay : f32;
  np_filtered_ow_delay : f32;
  np_frames_skipped : Z;
  np_rx_bytes : Z;
  np_rx_shard_counter : Z;
  np_duplicated_shard_counter : Z;
  np_highest_rx_frame_index : Z;
  np_highest_rx_shard_index : Z;
  np_lost_shards_deadline : Z;
  np_everest_capacity_update : f32;
  np_everest_throughput_update : f32;
  np_everest_dshort : f32;
  np_everest_dlong : f32;
  np_everest_command : Abr.EverestCommand;
  np_buffer_level_decoder : Z;
  np_rebuffering_events_last_s : Z;
  np_nada_stats : NadaStats
}.
(** What the server's bitrate manager reads of it. *)
Definition stats_for_abr (p : NetworkStatisticsPacket) : Abr.NetworkStats :=
  Abr.mkStats (np_bytes_in_frame p) (np_ow_delay p) (np_filtered_ow_delay p) (np_everest_capacity_update p) (np_everest_throughput_update p)
    (np_everest_dshort p) (np_everest_dlong p) (np_everest_command p) (np_buffer_level_decoder p) (np_rebuffering_events_last_s p).
Record DeadlineShardlossStatPacket := mkLoss { frame_indexes : list Z; shards_lost : list nat }.
(** The two kinds that the client sends. *)
Inductive ClientControlPacket :=
| NetworkStatistics (p : NetworkStatisticsPacket)
| DeadlineShardLossStat (p : DeadlineShardlossStatPacket).
(** What the client schedules for itself. *)
Inductive Event :=
| Vsync
| VideoReceive
| OutputControl (p : ClientControlPacket)
| OutputAppNetworkSend (p : Mpdu)
| GenerateTracking
| SessionReboot.

(** [bincode] on the control packets. *)
Class Bincode := serialize : ClientControlPacket → list Z.

(** ** The state *)
Section client.
Context {T : Type} `{TaiTime T} `{!Env T} `{!Bincode} `{!Keyframe.MemMem}.
(** [TaiTime::EPOCH], and the level that the environment variable [XRSIM_NADA_FIX] sets ([Socket.nada_fix] is whether it is not 0). *)
#[local] Instance epoch : Edca.Epoch T := @Socket.EPOCH T _ _.
Context (nada_level : Z) (powi : f64 → Z → f64).
(** The framing of [StreamSocket::recv]'s inner loop. *)
Context (fuel : nat).

(** Configuration. *)
Record Conf := mkConf {
  framerate : f32;
  t_vsync : Z;
  packet_size_sockets : nat;
  edca_be_mode : bool;
  codec_selection : Keyframe.VideoCodec;
  everest_enabled : bool;
  no_uplink_tracking : bool
}.
(** The streams of a session; the receivers of audio and haptics have no state that matters. *)
Record Streams := mkStreams {
  streamsocket_clone : StreamSocket T;
  chan : BufferedReceiver;
  input_app_video : StreamReceiver;
  output_app_tracking_sender : StreamSender T
}.
(** What is measured of the frames that arrive. *)
Record Measures := mkMeasures {
  last_throughput_avg : f32;
  frame_size_exp_avg : f32;
  d_short_exp_avg : f32;
  d_long_exp_avg : f32;
  nada_receiver : option Nada.NadaReceiver
}.
(** The decoder's side. *)
Record Playback := mkPlayback {
  decoder_queue : DroppingVecDeque (Z * list Z);
  jitter_buffer_warmup_ready : bool;
  rebuffer_event_counter : TimedRebufferCounter;
  last_seen_id : Z;
  last_processed_frame_id : Z;
  frame_size_history_vec : list nat;
  dec_saw_keyframe : bool;
  dec_saw_keyframe_last_t : T;
  last_decoded_frame_instant : T;
  lost_ids_reference_buffer : list (Z * nat);
  window_tx : bool
}.
(** What the handlers schedule and send. *)
Record Out := mkOut {
  events : list (T * Event);
  to_network : list Mpdu;  (* [outport_tracking_network] *)
  app_network : list Mpdu;  (* [output_app_network] *)
  decoded : list (list Z)  (* [out_video_decoded] *)
}.
Record XRClient := mkClient {
  conf : Conf;
  is_streaming : bool;
  streams : option Streams;
  t_0 : T;
  last_tracking_time : T;
  last_rx_frame_instant : T;
  measures : Measures;
  playback : Playback;
  out : Out
}.
Implicit Types c : XRClient.
Definition set_streams (st : option Streams) c : XRClient :=
  mkClient (conf c) (is_streaming c) st (t_0 c) (last_tracking_time c) (last_rx_frame_instant c) (measures c) (playback c) (out c).
Definition set_measures (m : Measures) c : XRClient :=
  mkClient (conf c) (is_streaming c) (streams c) (t_0 c) (last_tracking_time c) (last_rx_frame_instant c) m (playback c) (out c).
Definition set_playback (p : Playback) c : XRClient :=
  mkClient (conf c) (is_streaming c) (streams c) (t_0 c) (last_tracking_time c) (last_rx_frame_instant c) (measures c) p (out c).
Definition set_out (o : Out) c : XRClient :=
  mkClient (conf c) (is_streaming c) (streams c) (t_0 c) (last_tracking_time c) (last_rx_frame_instant c) (measures c) (playback c) o.
Definition set_socket (s : StreamSocket T) (rd : BufferedReceiver) (st : Streams) : Streams :=
  mkStreams s rd (input_app_video st) (output_app_tracking_sender st).
Definition set_nada (n : option Nada.NadaReceiver) (m : Measures) : Measures :=
  mkMeasures (last_throughput_avg m) (frame_size_exp_avg m) (d_short_exp_avg m) (d_long_exp_avg m) n.
Definition set_decoder_queue (q : DroppingVecDeque (Z * list Z)) (p : Playback) : Playback :=
  mkPlayback q (jitter_buffer_warmup_ready p) (rebuffer_event_counter p) (last_seen_id p) (last_processed_frame_id p)
    (frame_size_history_vec p) (dec_saw_keyframe p) (dec_saw_keyframe_last_t p) (last_decoded_frame_instant p)
    (lost_ids_reference_buffer p) (window_tx p).
Definition set_lost_ids (l : list (Z * nat)) (p : Playback) : Playback :=
  mkPlayback (decoder_queue p) (jitter_buffer_warmup_ready p) (rebuffer_event_counter p) (last_seen_id p) (last_processed_frame_id p)
    (frame_size_history_vec p) (dec_saw_keyframe p) (dec_saw_keyframe_last_t p) (last_decoded_frame_instant p) l (window_tx p).
(** [context.scheduler.schedule_event(delay, ..).unwrap()], with its panics. *)
Definition schedule_event (now : T) (delay : Z) (e : Event) c : outcome XRClient :=
  t ← time_add now delay;
  if time_lt now t then
    Ret (set_out (mkOut (events (out c) ++ [(t, e)]) (to_network (out c)) (app_network (out c)) (decoded (out c))) c)
  else Panic.
Definition now_us (now : T) : outcome Z := Nada.micros now.

(** [t_vsync] is [Duration::from_secs_f64(1.0 / fps)]. *)
Definition client_new (fps : f32) (now : T) (abr_mode : Z) (t_update_abr : f32) (packet_size_sockets : nat) (edca_be_mode : bool)
    (codec_selection : Keyframe.VideoCodec) (no_ul_tracking_bool : bool) (wall : Z) : outcome XRClient :=
  t_vsync ← F64.to_nanos (F64.div (F64.of_Z 1) (F32.to_f64 fps));
  Ret (mkClient (mkConf fps t_vsync packet_size_sockets edca_be_mode codec_selection (abr_mode =? 2) no_ul_tracking_bool)
    false None now now Socket.EPOCH
    (mkMeasures F32.zero F32.zero F32.zero F32.zero (if abr_mode =? 5 then Some (Nada.receiver_new wall) else None))
    (mkPlayback (deque_new DECODER_BUFFERING_FRAMES) false (rebuffer_new t_update_abr) 0 0 (replicate DISPLAY_GRAPH_MAX_FRAMES 0%nat)
       false Socket.EPOCH Socket.EPOCH [] true)
    (mkOut [] [] [] [])).

(** ** Reports to the server *)
Definition framed_send (packet : ClientControlPacket) (now : T) c : outcome XRClient :=
  let body := serialize packet in
  let buffer := be_bytes 4 (wrap 32 (Z.of_nat (length body))) ++ body in
  let h := header_default in
  let h := match packet with
           | NetworkStatistics netpack =>
               mkHeader (hd_packet_length_bytes h) CONTROL_STREAM (wrap 32 (np_frame_index netpack)) (hd_shards_count h) (hd_shard_index h)
                 (hd_tx_instant h) (hd_frame_losses h)
           | DeadlineShardLossStat paak =>
               match frame_indexes paak with
               | first_idx :: _ =>
                   mkHeader (hd_packet_length_bytes h) FRAMELOSS_PACKET first_idx (hd_shards_count h) (hd_shard_index h) (hd_tx_instant h)
                     (Some (frame_indexes paak))
               | [] => h
               end
           end in
  let ac := if negb (edca_be_mode (conf c)) then Edca.Voice else Edca.BestEffort in
  schedule_event now 10 (OutputAppNetworkSend (mkMpdu buffer (8 * Z.of_nat (length buffer)) h ac)) c.
Definition output_app_network_send (p : Mpdu) c : XRClient :=
  set_out (mkOut (events (out c)) (to_network (out c)) (app_network (out c) ++ [p]) (decoded (out c))) c.
Definition output_control (packet : ClientControlPacket) (now : T) c : outcome XRClient := framed_send packet now c.
Definition report_frame_lost (frames : list Z) (lost : list nat) (now : T) c : outcome XRClient :=
  let frames := take MAX_DEADLINE_IN_STATS frames in
  let lost := take MAX_DEADLINE_IN_STATS lost in
  if (length frames <=? length lost)%nat then
    let c := set_playback (set_lost_ids (lost_ids_reference_buffer (playback c) ++ zip frames lost) (playback c)) c in
    schedule_event now 10 (OutputControl (DeadlineShardLossStat (mkLoss frames lost))) c
  else Panic.

(** What both [video_receive_thread] and [vsync] do with the frames given up. *)
Definition flush_losses (now : T) (st : Streams) c : outcome XRClient :=
  let '((frames_lost, lost), s) := flush_shards_lost_deadline (streamsocket_clone st) in
  '(s, m) ← (if nada_fix then
               let '(expected, s) := flush_shards_expected_deadline s in
               match nada_receiver (measures c) with
               | Some n =>
                   t ← now_us now;
                   n ← Nada.record_lost_shards (Z.of_nat (foldr Nat.add 0%nat lost)) (Z.of_nat expected) t n;
                   Ret (s, set_nada (Some n) (measures c))
               | None => Ret (s, measures c)
               end
             else Ret (s, measures c));
  let c := set_measures m (set_streams (Some (set_socket s (chan st) st)) c) in
  if (length frames_lost =? 0)%nat then Ret c else report_frame_lost frames_lost lost now c.

(** ** EVeREst on the client *)
Definition MPDU_MAX_SIZE : Z := 1500.
Definition THETA_EWMA : f32 := Abr.lit 1 100.
Definition T_SHORT_EVEREST_S : f32 := Abr.fz 1.
Definition T_LONG_EVEREST_S : f32 := Abr.fz 5.
Definition T_LOW_EVEREST_S : f32 := Abr.lit 5 1000.
Definition T_HIGH_EVEREST_S : f32 := Abr.lit 20 1000.
Definition BITRATE_STEP_RATIO : f32 := Abr.lit 5 10.
Definition is_zero (x : f32) : bool := F64.eqb x F32.zero.
Definition delay_ewma (interarrival period span old : f32) : f32 :=
  interarrival ⊘ period ⊗ span ⊕ (Abr.fz 1 ⊖ interarrival ⊘ period) ⊗ old.
(** The part of a frame that fills packets, in bytes. *)
Definition full_packets (frame_size_bytes : f32) : f32 :=
  Abr.fz (F64Ops.cast_with F64Ops.trunc 0 U32_MAX frame_size_bytes / MPDU_MAX_SIZE) ⊗ Abr.fz MPDU_MAX_SIZE.
(** Capacity and throughput of the frame ([-1] if not measured), command, and the averages.  The branch with
    [ALVR_REALISTIC_ABR], and without [EVEREST_CLASSIC]. *)
Definition everest_client (fps : f32) (d : ReceiverData) (m : Measures) : f32 * f32 * Abr.EverestCommand * Measures :=
  let bytes := Abr.fz (rp_bytes_in_frame (rd_packet d)) in
  let frame_span := rp_frame_span (rd_packet d) in
  let interarrival := rd_frame_interarrival d in
  let size_avg := if is_zero (frame_size_exp_avg m) then bytes else frame_size_exp_avg m in
  let d_short := if is_zero (d_short_exp_avg m) then frame_span ⊗ interarrival ⊘ T_SHORT_EVEREST_S else d_short_exp_avg m in
  let d_long := if is_zero (d_long_exp_avg m) then frame_span ⊗ interarrival ⊘ T_LONG_EVEREST_S else d_long_exp_avg m in
  let '(size_avg, capacity, throughput) :=
    if is_zero frame_span then (size_avg, Abr.fz (-1), Abr.fz (-1))
    else
      let size_avg := THETA_EWMA ⊗ bytes ⊕ (Abr.fz 1 ⊖ THETA_EWMA) ⊗ size_avg in
      if size_avg ≺ bytes then (size_avg, Abr.fz (-1), bytes ⊗ Abr.fz 8 ⊘ frame_span)
      else (size_avg, full_packets bytes ⊗ Abr.fz 8 ⊘ frame_span, Abr.fz (-1)) in
  let d_short := delay_ewma interarrival T_SHORT_EVEREST_S frame_span d_short in
  let d_long := delay_ewma interarrival T_LONG_EVEREST_S frame_span d_long in
  let d_period := Abr.fz 1 ⊘ fps in
  let '(d_short, command) :=
    if F64.le d_period d_short then (T_LOW_EVEREST_S, Abr.SlowDown) else (d_short, Abr.Continue) in
  let '(d_long, command) :=
    if d_long ≺ BITRATE_STEP_RATIO ⊗ d_period then (T_HIGH_EVEREST_S, Abr.SpeedUp) else (d_long, command) in
  (capacity, throughput, command, mkMeasures (last_throughput_avg m) size_avg d_short d_long (nada_receiver m)).

(** ** NADA on the client

    [wall] holds the two readings of the wall clock that level 0 makes. *)
Definition as_micros (x : f32) : Z := F64Ops.round_i64 (x ⊗ Abr.fz 1000000).
Definition nada_frame (now : T) (wall : Z * Z) (d : ReceiverData) (n : Nada.NadaReceiver) : outcome (Nada.NadaReceiver * NadaStats) :=
  let size := rp_bytes_in_frame (rd_packet d) in
  let shards := rp_shards_in_frame (rd_packet d) in
  n ← (if nada_fix then
         n ← match rp_nada_owd_us (rd_packet d) with
             | Some owd_us => Nada.compute_oneway_delay 0 owd_us n
             | None => Ret n
             end;
         if 2 <=? nada_level then Nada.accumulate_frame size shards n
         else t ← now_us now; Nada.update_receive_loss_rate_shards size shards t n
       else
         n ← Nada.compute_oneway_delay (as_micros (rp_tx_instant_packet (rd_packet d))) (as_micros (rp_rx_instant_packet (rd_packet d))) n;
         Nada.update_receive_loss_rate wall.1 wall.2 size n);
  '(n, feedback) ← (if nada_level <? 2 then Nada.time_to_report_feedback now false false n else Ret (n, false));
  if feedback : bool then
    let s := mkNadaStats true (Nada.rc_x_curr n) (match Nada.rc_rmode n with Nada.AcceleratedRampUp => 0 | Nada.GradualUpdate => 1 end)
               (Nada.rc_r_recv n) (Nada.rc_p_loss n) (Nada.rc_d_tilde n) (Nada.rc_d_queue n) in
    n ← Nada.update_t_last now n;
    Ret (n, s)
  else Ret (n, nada_stats_default).

(** ** A packet that was put together

    The receiver is cloned: what [recv] changes in it is lost, while the queue of packets,
    behind a channel, is shared. *)
Definition statistics (d : ReceiverData) (capacity throughput : f32) (command : Abr.EverestCommand) (nada_stats : NadaStats) (m : Measures)
    (p : Playback) : NetworkStatisticsPacket :=
  let rp := rd_packet d in
  mkNetStats (as_i32 (rp_frame_index rp)) (rp_frame_span rp) (rp_bytes_in_frame rp) (rp_bytes_in_frame_app rp) (rd_frame_interarrival d)
    (rp_interarrival_jitter rp) (rp_ow_delay rp) (rp_filtered_ow_delay rp) (rd_frames_skipped d) (rd_rx_bytes d) (rd_rx_shard_counter d)
    (rd_duplicated_shard_counter d) (rp_highest_rx_frame_index rp) (rp_highest_rx_shard_index rp) 0 capacity throughput
    (d_short_exp_avg m) (d_long_exp_avg m) command (wrap 8 (Z.of_nat (length (deque (decoder_queue p)))))
    (wrap 8 (sum_in_period (rebuffer_event_counter p))) nada_stats.
Definition throughput_avg (net : NetworkStatisticsPacket) (m : Measures) : f32 :=
  let throughput_now := Abr.fz (np_bytes_in_frame net) ⊘ np_frame_interarrival net in
  if is_zero (last_throughput_avg m) then throughput_now
  else ALPHA_THROUGHPUT ⊗ throughput_now ⊕ (Abr.fz 1 ⊖ ALPHA_THROUGHPUT) ⊗ last_throughput_avg m.
Definition handle_frame (now : T) (wall : Z * Z) (d : ReceiverData) c : outcome XRClient :=
  let frame_id := rp_frame_index (rd_packet d) in
  nal ← data_get d;
  let m := measures c in
  let '(capacity, throughput, command, m) :=
    if everest_enabled (conf c) then everest_client (framerate (conf c)) d m else (Abr.fz (-1), Abr.fz (-1), Abr.Continue, m) in
  '(m, nada_stats) ← match nada_receiver m with
                     | Some n => '(n, s) ← nada_frame now wall d n; Ret (set_nada (Some n) m, s)
                     | None => Ret (m, nada_stats_default)
                     end;
  let net := statistics d capacity throughput command nada_stats m (playback c) in
  let m := mkMeasures (throughput_avg net m) (frame_size_exp_avg m) (d_short_exp_avg m) (d_long_exp_avg m) (nada_receiver m) in
  c ← schedule_event now 10 (OutputControl (NetworkStatistics net)) (set_measures m c);
  Ret (set_playback (set_decoder_queue (push (frame_id, nal) (decoder_queue (playback c))) (playback c)) c).
Definition video_receive_thread (now : T) (wall : Z * Z) c : outcome XRClient :=
  if is_streaming c then
    match streams c with
    | None => Ret c
    | Some st =>
        c ← flush_losses now st c;
        st ← unwrap (streams c);
        let s := streamsocket_clone st in
        match stream_recv_components s !! VIDEO with
        | None => Ret c
        | Some comp =>
            '(res, _, comp) ← receiver_recv true (input_app_video st) comp;
            let s := set_components s (<[VIDEO := comp]> (stream_recv_components s)) in
            let c := set_streams (Some (set_socket s (chan st) st)) c in
            match res with
            | Ok d => handle_frame now wall d c
            | Err _ => Ret c
            end
        end
    end
  else Ret c.

(** ** The refresh of the display *)
(** A frame is taken from the jitter buffer. *)
Definition show_frame (codec : Keyframe.VideoCodec) (now : T) (id_f : Z) (video_frame : list Z) (p : Playback) : Playback :=
  let history := if (MAX_STAT_HISTORY_GRAPH <? length (frame_size_history_vec p))%nat then tail (frame_size_history_vec p)
                 else frame_size_history_vec p in
  let key := Keyframe.is_keyframe video_frame codec in
  mkPlayback (decoder_queue p) (jitter_buffer_warmup_ready p) (rebuffer_event_counter p) id_f id_f (history ++ [length video_frame])
    (key || dec_saw_keyframe p) (if key then now else dec_saw_keyframe_last_t p) now (lost_ids_reference_buffer p) (window_tx p).
(** [process], without decoding. *)
Definition process (now : T) c : outcome XRClient :=
  let p := playback c in
  if negb (jitter_buffer_warmup_ready p) then
    if (TARGET_FRAMES_DECODER_QUEUE <=? length (deque (decoder_queue p)))%nat then
      Ret (set_playback (mkPlayback (decoder_queue p) true (rebuffer_event_counter p) (last_seen_id p) (last_processed_frame_id p)
        (frame_size_history_vec p) (dec_saw_keyframe p) (dec_saw_keyframe_last_t p) (last_decoded_frame_instant p)
        (lost_ids_reference_buffer p) (window_tx p)) c)
    else Ret c
  else
    let '(f, q) := pop (decoder_queue p) in
    let p := set_decoder_queue q p in
    match f with
    | Some (id_f, video_frame) =>
        _ ← duration_since now (t_0 c);
        let o := out c in
        Ret (set_out (mkOut (events o) (to_network o) (app_network o) (decoded o ++ [take 10 video_frame]))
          (set_playback (show_frame (codec_selection (conf c)) now id_f video_frame p) c))
    | None =>
        d ← duration_since now Socket.EPOCH;
        Ret (set_playback (mkPlayback q (jitter_buffer_warmup_ready p) (add_one (F32.of_nanos d) (rebuffer_event_counter p))
          (last_seen_id p) (last_processed_frame_id p) (frame_size_history_vec p) (dec_saw_keyframe p) (dec_saw_keyframe_last_t p)
          (last_decoded_frame_instant p) (lost_ids_reference_buffer p) (window_tx p)) c)
    end.
(** The loading picture goes to a window that does not exist: after the first failed send nothing more is sent. *)
Definition render (now : T) c : outcome XRClient :=
  let p := playback c in
  if window_tx p && (last_seen_id p =? 0) then
    _ ← duration_since now (t_0 c);
    Ret (set_playback (mkPlayback (decoder_queue p) (jitter_buffer_warmup_ready p) (rebuffer_event_counter p) (last_seen_id p)
      (last_processed_frame_id p) (frame_size_history_vec p) (dec_saw_keyframe p) (dec_saw_keyframe_last_t p)
      (last_decoded_frame_instant p) (lost_ids_reference_buffer p) false) c)
  else Ret c.
Definition vsync (now : T) c : outcome XRClient :=
  c ← match streams c with
      | Some st =>
          s ← sweep_expired_deadlines now (streamsocket_clone st);
          flush_losses now (set_socket s (chan st) st) c
      | None => Ret c
      end;
  c ← process now c;
  c ← render now c;
  schedule_event now (t_vsync (conf c)) Vsync (set_playback (set_lost_ids [] (playback c)) c).

(** ** From the network *)
(** [network_app_interface.send_shared] *)
Definition send_shared (data : list Z) (rd : BufferedReceiver) : BufferedReceiver :=
  mkReceiver (receiver rd ++ [data]) (disconnected rd) (buffer rd).
(** [timestamp]: that of the [TimedFrame]. *)
Definition deliver (timestamp now : T) (packet : Mpdu) c : outcome XRClient :=
  let id := hd_stream_id (header_alvr packet) in
  match streams c with
  | None => Ret c
  | Some st =>
      if (id =? HAPTICS) || (id =? AUDIO) then
        let '(_, rd) := reader_recv MAX_PACKET_SIZE_RECV (send_shared (data_inner packet) (chan st)) in
        Ret (set_streams (Some (set_socket (streamsocket_clone st) rd st)) c)
      else if id =? VIDEO then
        '(_, s, rd) ← recv fuel now (streamsocket_clone st) (send_shared (data_inner packet) (chan st));
        Ret (mkClient (conf c) (is_streaming c) (Some (set_socket s rd st)) (t_0 c) (last_tracking_time c) timestamp (measures c)
               (playback c) (out c))
      else Ret c
  end.
Fixpoint in_from_network (timestamp : T) (packets : list Mpdu) (now : T) c : outcome XRClient :=
  match packets with
  | [] => Ret c
  | packet :: packets =>
      c ← deliver timestamp now packet c;
      c ← schedule_event now 10 VideoReceive c;
      in_from_network timestamp packets now c
  end.

(** ** To the network *)
Definition tracking_packet (be_mode : bool) (p : Z * Z * Z * Z * Z * f32) (data : list Z) : Mpdu :=
  let '(packet_length_bytes, id, next_packet_index, shards_count, shard_index, tx_r_instant) := p in
  mkMpdu (exact_len_payload data (Z.to_nat packet_length_bytes)) (packet_length_bytes * 8 + 100 * 8)
    (mkHeader packet_length_bytes id next_packet_index shards_count shard_index tx_r_instant None)
    (if negb be_mode && (id =? TRACKING) then Edca.Voice else Edca.BestEffort).
(** Every pass takes a message of the channel. *)
Fixpoint read_app_send_network_interface (n : nat) (be_mode : bool) (rd : BufferedReceiver) (sent : list Mpdu)
    : outcome (BufferedReceiver * list Mpdu) :=
  match n with
  | O => OutOfFuel
  | S n =>
      match recv_shared rd with
      | (Err _, rd) | (Ok None, rd) => Ret (rd, sent)
      | (Ok (Some data), rd) =>
          r ← parse_shard_data (take 100 data);
          match r with
          | Ok p => read_app_send_network_interface n be_mode rd (sent ++ [tracking_packet be_mode p data])
          | Err _ => Ret (rd, sent)
          end
      end
  end.
(** The report of NADA that rides in a tracking packet at level 2. *)
Definition nada_timer (now : T) c : outcome (XRClient * option Nada.NadaTimerReport) :=
  match nada_receiver (measures c) with
  | Some n =>
      if 2 <=? nada_level then
        t ← now_us now;
        '(n, r) ← Nada.timer_report powi t (F32.to_f64 (framerate (conf c))) n;
        Ret (set_measures (set_nada (Some n) (measures c)) c,
             option_map (λ '(rmode, xcurr, recv, plr, d_tilde, d_queue),
                           Nada.mkTimerReport (Nada.report_seq n) xcurr rmode recv plr d_tilde d_queue) r)
      else Ret (c, None)
  | None => Ret (c, None)
  end.
(** [track] is the tracking packet as [bincode] gives it. *)
Definition generate_tracking_data (track : list Z) (now : T) c : outcome XRClient :=
  if is_streaming c then
    _ ← duration_since now (last_tracking_time c);
    _ ← duration_since now (t_0 c);
    c ← match streams c with
        | None => Ret c
        | Some st =>
            '(c, nada_report) ← nada_timer now c;
            (* the sender is a clone, so that its own counters stay *)
            '(msgs, _) ← match nada_report with
                         | Some r => send_header_tracking_with track now (Nada.encode r) [] (output_app_tracking_sender st)
                         | None => send_header_tracking track now [] (output_app_tracking_sender st)
                         end;
            let rd := foldl (λ rd msg, send_shared msg rd) (chan st) msgs in
            '(rd, sent) ← read_app_send_network_interface (S (length (option_list (buffer rd) ++ receiver rd))) (edca_be_mode (conf c)) rd [];
            let o := out c in
            Ret (set_out (mkOut (events o) (to_network o ++ sent) (app_network o) (decoded o))
              (set_streams (Some (set_socket (streamsocket_clone st) rd st)) c))
        end;
    loop_deadline ← F32.to_nanos (Abr.fz 1 ⊘ framerate (conf c) ⊘ Abr.fz 3);
    schedule_event now loop_deadline GenerateTracking
      (mkClient (conf c) (is_streaming c) (streams c) (t_0 c) now (last_rx_frame_instant c) (measures c) (playback c) (out c))
  else Ret c.

(** ** Sessions *)
Definition configure_streams (track : list Z) (packet_size : nat) (now : T) c : outcome XRClient :=
  let s := subscribe_to_stream HAPTICS MAX_UNREAD_PACKETS
             (subscribe_to_stream AUDIO MAX_UNREAD_PACKETS (subscribe_to_stream VIDEO MAX_UNREAD_PACKETS (build packet_size))) in
  let st := mkStreams s (mkReceiver [] false None) stream_receiver_new (request_stream packet_size TRACKING (t_0 c)) in
  let c := mkClient (conf c) true (Some st) (t_0 c) (last_tracking_time c) (last_rx_frame_instant c) (measures c) (playback c) (out c) in
  if no_uplink_tracking (conf c) then Ret c else generate_tracking_data track now c.
Definition set_warm (warm : bool) (q : DroppingVecDeque (Z * list Z)) (p : Playback) : Playback :=
  mkPlayback q warm (rebuffer_event_counter p) (last_seen_id p) (last_processed_frame_id p) (frame_size_history_vec p) (dec_saw_keyframe p)
    (dec_saw_keyframe_last_t p) (last_decoded_frame_instant p) (lost_ids_reference_buffer p) (window_tx p).
Definition session_end (pause_time : f64) (now : T) c : outcome XRClient :=
  let p := set_warm false (deque_clear (decoder_queue (playback c))) (playback c) in
  delay ← F64.to_nanos pause_time;
  schedule_event now (Z.max delay 1) SessionReboot
    (mkClient (conf c) false None (t_0 c) (last_tracking_time c) (last_rx_frame_instant c) (measures c) p (out c)).
Definition session_reboot (track : list Z) (now : T) c : outcome XRClient :=
  let p := set_decoder_queue (deque_clear (decoder_queue (playback c))) (playback c) in
  c ← configure_streams track (packet_size_sockets (conf c)) now
        (mkClient (conf c) (is_streaming c) (streams c) now now (last_rx_frame_instant c) (measures c) p (out c));
  schedule_event now (10 * 10 ^ 6) VideoReceive c.

(** The handler of an event; [wall] and [track] are what it reads from outside. *)
Definition handle (now : T) (wall : Z * Z) (track : list Z) (e : Event) c : outcome XRClient :=
  match e with
  | Vsync => vsync now c
  | VideoReceive => video_receive_thread now wall c
  | OutputControl p => output_control p now c
  | OutputAppNetworkSend p => Ret (output_app_network_send p c)
  | GenerateTracking => generate_tracking_data track now c
  | SessionReboot => session_reboot track now c
  end.
End client.
Arguments XRClient T : clear implicits.
End Client.
