(* ===== verification/ClientFacts.v ===== *)
(** * The headset shows what was sent

    Theorems on [Client]: the jitter buffer is a queue that gives up its oldest frames
    ([deque_fifo]); over any run of the client (arrivals, its own events in any order, ends
    and restarts of the session) in which every video packet is a shard of the one packet that [sent] gives under its number,
    every frame it queues or shows is one that was sent ([client_reach_inv], the basis of [EndToEnd]);
    a refresh shows the oldest frame, counts a rebuffering or warms
    up ([vsync_exact]).  [clone_forgets_order]: since the receiver is cloned at every
    reading, frames are taken in the order of completion and none is ever counted as
    skipped. *)

From Stdlib Require Import SpecFloat.
From S2P Require Import Prelude StablePq Scheduler SeqExecutor F32 StreamSocket Shards FrameDeadlines VideoStats Reassembly Delivery SimRng Airtime Edca MacData F64Ops Gcc Nada Abr Keyframe Client.

Module ClientFacts.
Import Socket Shards Deadlines Reassembly Client.

(** ** The jitter buffer *)
Section deque.
Context {A : Type}.
Implicit Types (d : DroppingVecDeque A) (x : A).
Inductive Op := Push (x : A) | Pop.
(** What the pops of a sequence of operations give, and the buffer after it. *)
Fixpoint run (ops : list Op) d : list A * DroppingVecDeque A :=
  match ops with
  | [] => ([], d)
  | Push x :: ops => run ops (push x d)
  | Pop :: ops => let '(f, d) := pop d in let '(l, d) := run ops d in (option_list f ++ l, d)
  end.
Definition pushed (ops : list Op) : list A := omap (λ o, match o with Push x => Some x | Pop => None end) ops.

Lemma push_queue x d : (0 < capacity d)%nat → (length (deque d) ≤ capacity d)%nat →
  ∃ gone, deque d ++ [x] = gone ++ deque (push x d) ∧ (dropped_frame_counter (push x d) = dropped_frame_counter d + length gone)%nat ∧
    capacity (push x d) = capacity d ∧ (length (deque (push x d)) ≤ capacity d)%nat.
Proof.
  intros Hpos Hle. unfold push. destruct (Nat.eqb_spec (length (deque d)) (capacity d)) as [Hc|Hc]; cbn.
  - destruct (deque d) as [|y q]; cbn in *; [lia|]. exists [y]. rewrite length_app. cbn. split_and!; [done|lia|done|lia].
  - exists []. rewrite length_app. cbn. split_and!; [done|lia|done|lia].
Qed.
Lemma run_ok ops : ∀ d l d', (0 < capacity d)%nat → (length (deque d) ≤ capacity d)%nat → run ops d = (l, d') →
  l ++ deque d' `sublist_of` deque d ++ pushed ops ∧ deque d' `suffix_of` deque d ++ pushed ops ∧
  (length l + length (deque d') + dropped_frame_counter d' = length (deque d) + length (pushed ops) + dropped_frame_counter d)%nat ∧
  (length (deque d') ≤ capacity d)%nat.
Proof.
  induction ops as [|[x|] ops IH]; intros d l d' Hpos Hle E; cbn [run] in E.
  - injection E as <- <-. unfold pushed. cbn [omap list_omap]. rewrite (app_nil_r (deque d)). cbn. split_and!; [done|done|lia|done].
  - destruct (push_queue x d Hpos Hle) as (gone & Eq & Ed & Ec & El).
    destruct (IH _ _ _ ltac:(by rewrite Ec) ltac:(by rewrite Ec) E) as (H1 & H2 & H3 & H4). clear IH.
    change (pushed (Push x :: ops)) with ([x] ++ pushed ops). rewrite (assoc_L (++)), Eq, <-(assoc_L (++)).
    split_and!; [by apply sublist_inserts_l|by apply suffix_app_r| |by rewrite Ec in H4].
    apply (f_equal length) in Eq. rewrite !length_app in *. cbn [length] in *. lia.
  - cbn [pop] in E. destruct (run ops _) as [l0 d0] eqn:E0. injection E as <- <-.
    apply IH in E0 as (H1 & H2 & H3 & H4); cbn [deque capacity dropped_frame_counter] in *; [|done|destruct (deque d); cbn in *; lia].
    change (pushed (Pop :: ops)) with (pushed ops). destruct (deque d) as [|y q]; cbn in *; [done|].
    split_and!; [by apply sublist_skip|by apply suffix_cons_r|lia|done].
Qed.
(** The jitter buffer is a queue that gives up its oldest frames.  Over any sequence of
    pushes and pops, the frames popped followed by those still queued are some of the frames
    pushed, in their order; those queued are the latest ones, no more than the capacity; and
    every frame pushed was popped, is queued or was counted as dropped. *)
Theorem deque_fifo cap ops l d : (0 < cap)%nat → run ops (deque_new cap) = (l, d) →
  l ++ deque d `sublist_of` pushed ops ∧ deque d `suffix_of` pushed ops ∧ (length (deque d) ≤ cap)%nat ∧
  (length (pushed ops) = length l + length (deque d) + dropped_frame_counter d)%nat.
Proof. intros Hpos E. destruct (run_ok ops (deque_new cap) l d Hpos (Nat.le_0_l _) E) as (H1 & H2 & H3 & H4). cbn in *. split_and!; [done|done|done|lia]. Qed.
End deque.

Section client.
Context {T : Type} `{TaiTime T} `{!Env T} {BC : Bincode} {MM : Keyframe.MemMem}.
Context (nada_level : Z) (powi : f64 → Z → f64) (fuel : nat).
Context (m : nat) (m_pos : (0 < m)%nat) (m_max : (m + SHARD_PREFIX_SIZE ≤ MAX_PACKET_SIZE_RECV)%nat).
Context (sent : Z → Z → option (list Z * f32)) (sent_ok : sent_wf sent).
Implicit Types (c : XRClient T) (s : StreamSocket T) (now : T) (tx : StreamSender T).

(** ** One shard through the socket *)
Definition numbered (r : ReconstructedPacket) : Prop := rp_frame_index r = rp_index r.
Lemma recv_alone f now s dc pi D t i cs res s' rd' :
  socket_inv m sent s (mkReceiver [shard m VIDEO pi t D i] dc None) → shard_recv_state s = None → is_shard m sent VIDEO pi D t i →
  stream_recv_components s !! VIDEO = Some cs → recv f now s (mkReceiver [shard m VIDEO pi t D i] dc None) = Ret (res, s', rd') →
  rd' = mkReceiver [] dc None ∧ shard_recv_state s' = None ∧
  ∃ cs' l, stream_recv_components s' !! VIDEO = Some cs' ∧ packet_queue cs' = packet_queue cs ++ l ∧ (length l ≤ 1)%nat ∧ Forall numbered l.
Proof.
  intros Hinv Hst Hi Hc E. unfold recv in E.
  rewrite (recv_header_shard m m_pos m_max sent sent_ok now s _ (mkReceiver [] dc (Some (shard m VIDEO pi t D i))) VIDEO pi D t i Hi Hst) in E by done.
  apply bind_Ret in E as ([[st s1] rd1] & (x & Hx & (dl & Hdl & [= <- <- <-])%bind_Ret)%bind_Ret & E).
  cbn [stream_recv_components set_state set_stats stream_id state_of] in E. rewrite Hc in E.
  apply bind_Ret in E as ([s2 rd2] & E & [= <- <- <-]).
  destruct (decide (f < 2)%nat) as [Hf|Hf]; [by apply recv_shard_fuel in E|]. destruct f as [|[|f]]; [lia|lia|]. clear Hf.
  destruct (locate now (state_of m VIDEO pi D i dl) cs) as [p0 c0] eqn:El.
  pose proof (sinv_streams _ _ _ _ Hinv VIDEO cs Hc) as Hsc.
  destruct (locate_ok m m_pos m_max sent sent_ok now VIDEO pi D t i dl cs p0 c0 Hi Hsc El) as (Hp0 & Hc0 & Hq0).
  pose proof (with_chunk_inv m m_pos m_max pi D p0 i (proj2 Hi) Hp0) as Hp.
  erewrite (recv_shard_eq m m_pos m_max f VIDEO pi D t i dl now cs _ _ p0 c0) in E; [|apply (sinv_size _ _ _ _ Hinv)|done|done].
  pose proof (store_ok m sent VIDEO pi D t i dl (with_chunk m D i p0) c0 Hi Hp Hc0) as Hc1.
  apply bind_Ret in E as ([cs1 x1] & Ecp & E). apply bind_Ret in E as (s3 & Es & [= <- <-]).
  assert (∃ l, packet_queue cs1 = packet_queue cs ++ l ∧ (length l ≤ 1)%nat ∧ Forall numbered l ∧ stream_inv m sent VIDEO cs1) as (l & Hl & Hl1 & Hl2 & Hinv1).
  { rewrite <-Hq0. destruct (Nat.eqb_spec (size (received_shard_indices (with_chunk m D i p0))) (shards_of m (length D))) as [Hk|Hk].
    - destruct (complete_ok m m_pos m_max sent VIDEO pi D t i dl _ _ _ cs1 x1 Hi Hp Hk Hc1 (lookup_insert_eq _ _ _) Ecp) as (Hc' & _).
      unfold complete_packet in Ecp. apply bind_Ret in Ecp as ([fs xs] & _ & (p' & _ & [= <- _])%bind_Ret). eexists [_]. cbn. split_and!; [done|lia| |done].
      by apply Forall_singleton.
    - injection Ecp as <- <-. exists []. rewrite (app_nil_r (packet_queue c0)). cbn. split_and!; [done|lia|done|done]. }
  match type of Es with sweep_expired_deadlines _ ?x = _ => destruct (sweep_inv m m_pos m_max sent now x) as (s4 & Es' & _ & Hcs & _) end.
  { cbn. apply map_Forall_insert_2; [exact Hinv1|apply (sinv_streams _ _ _ _ Hinv)]. }
  rewrite Es in Es'. injection Es' as <-. split_and!; [done|done|]. exists (swept now cs1), l. cbn. rewrite Hcs, lookup_fmap. cbn.
  rewrite lookup_insert_eq. done.
Qed.

(** ** The tracking stream leaves the channel empty *)
Lemma drain_channel n be : ∀ rd l rd' l', disconnected rd = false → (length (messages rd) < n)%nat →
  Forall (λ msg, (SHARD_PREFIX_SIZE ≤ length msg)%nat) (messages rd) → read_app_send_network_interface n be rd l = Ret (rd', l') →
  rd' = mkReceiver [] false None.
Proof.
  induction n as [|n IH]; intros rd l rd' l' Hd Hn Hm E; [lia|]. cbn [read_app_send_network_interface] in E.
  unfold recv_shared, try_recv in E. destruct rd as [q dc b]. cbn in *. subst dc.
  assert (∀ msg q', messages (mkReceiver q false b) = msg :: q' →
    (r ← parse_shard_data (take 100 msg);
     match r with
     | Ok p => read_app_send_network_interface n be (mkReceiver q' false None) (l ++ [tracking_packet be p msg])
     | Err _ => Ret (mkReceiver q' false None, l)
     end) = Ret (rd', l') → rd' = mkReceiver [] false None) as Hgo.
  { intros msg q' Eq E'. unfold messages in *. cbn in *. rewrite Eq in *. apply Forall_cons in Hm as [Hl Hm]. cbn in Hn.
    inv_ret E' as (r & Er & E'). unfold parse_shard_data in Er. unfold SHARD_PREFIX_SIZE in *.
    rewrite (proj2 (Nat.ltb_ge _ _)) in Er by (rewrite length_take; lia). inv_ret Er as (len & _ & [= <-]).
    eapply IH; [| | |exact E']; cbn; [done|lia|done]. }
  destruct b as [msg|]; [by apply (Hgo msg q)|]. destruct q as [|msg q]; [by injection E as <- _|by apply (Hgo msg q)].
Qed.
Definition uplink (track : list Z) : Prop := Z.of_nat (length track) + Z.of_nat Nada.LEN < 2 ^ 24.
Lemma m_24 : Z.of_nat m < 2 ^ 24.
Proof. assert (Z.of_nat MAX_PACKET_SIZE_RECV = 16000) by (vm_compute; reflexivity). lia. Qed.
Lemma send_lengths b now out tx out' tx' : tx_max_packet_size tx = (m + SHARD_PREFIX_SIZE)%nat → buffer_wf b →
  Z.of_nat (hidden_offset b + bf_length b) < 2 ^ 32 → counted m (length (payload b)) → nanos (ref_time tx) ≤ nanos now →
  send b now out tx = Ret (out', tx') → ∃ msgs, out' = out ++ msgs ∧ Forall (λ msg, (SHARD_PREFIX_SIZE ≤ length msg)%nat) msgs.
Proof.
  intros Hmps Hwf H32 Hc Hnow E. destruct (send_ok b now out tx m m_pos Hmps Hwf Hnow H32 Hc) as (used & E'). rewrite E in E'.
  injection E' as -> _. eexists. split; [done|]. apply Forall_fmap, Forall_true. intros i. unfold compose. rewrite shard_length_eq. lia.
Qed.
Lemma write_at_length l i d l' : write_at l i d = Ret l' → (i + length d ≤ length l)%nat ∧ length l' = length l.
Proof.
  unfold write_at. destruct (Nat.leb_spec (i + length d) (length l)); [|done]. intros [= <-]. split; [done|].
  rewrite !length_app, length_take, length_drop. lia.
Qed.
Lemma tracking_buffer track tx b tx' : get_buffer_tracking track tx = Ret (b, tx') →
  hidden_offset b = (SHARD_PREFIX_SIZE + length track)%nat ∧ bf_length b = 0%nat ∧ (hidden_offset b ≤ length (inner b))%nat ∧
  tx_max_packet_size tx' = tx_max_packet_size tx ∧ ref_time tx' = ref_time tx.
Proof.
  unfold get_buffer_tracking. intros E. inv_ret E as (buf & Ew & [= <- <-]). cbn [hidden_offset bf_length inner tx_max_packet_size ref_time]. split_and!; try done.
  apply write_at_length in Ew as [Hfit ->]. exact Hfit.
Qed.
Lemma tracking_lengths track now tx extra out' tx' : uplink track → tx_max_packet_size tx = (m + SHARD_PREFIX_SIZE)%nat → nanos (ref_time tx) ≤ nanos now →
  (extra = [] ∧ send_header_tracking track now [] tx = Ret (out', tx') ∨
   length extra = Nada.LEN ∧ send_header_tracking_with track now extra [] tx = Ret (out', tx')) →
  Forall (λ msg, (SHARD_PREFIX_SIZE ≤ length msg)%nat) out'.
Proof.
  intros Hup Hmps Hnow [[-> E]|[He E]]; unfold uplink in Hup; pose proof m_24.
  - unfold send_header_tracking in E. inv_ret E as ([b tx1] & Eb & E). apply tracking_buffer in Eb as (Hh & Hl & Hi & Hm1 & Hr1).
    eapply send_lengths in E as (msgs & -> & Hm); [done|congruence|split; rewrite ?Hl; lia|unfold SHARD_PREFIX_SIZE in *; lia| |by rewrite Hr1].
    apply counted_small; [done..|]. unfold payload. rewrite length_take, length_drop, Hl, Hh. lia.
  - unfold send_header_tracking_with in E. inv_ret E as ([b tx1] & Eb & E). apply tracking_buffer in Eb as (Hh & Hl & Hi & Hm1 & Hr1).
    inv_ret E as (inner' & Ew & E). apply write_at_length in Ew as [? Hi'].
    eapply send_lengths in E as (msgs & -> & Hm); cbn [hidden_offset bf_length inner] in *; [done|congruence|split; cbn; lia| |..].
    + unfold SHARD_PREFIX_SIZE, Nada.LEN in *. lia.
    + apply counted_small; [done..|]. unfold payload. cbn [hidden_offset bf_length inner]. rewrite length_take, length_drop, Hl, Hh, <-He in *. lia.
    + by rewrite Hr1.
Qed.
(** ** The invariant *)
(** A frame as the decoder gets it: the payload without the header of the video stream. *)
Definition frame_ok (f : Z * list Z) : Prop := ∃ D t, sent VIDEO f.1 = Some (D, t) ∧ f.2 = drop VIDEO_HEADER_SIZE D.
Definition sample_ok (x : list Z) : Prop := ∃ f, frame_ok f ∧ x = take 10 f.2.
Definition is_vsync (e : Event) : bool := match e with Vsync => true | _ => false end.
Definition is_receive (e : Event) : bool := match e with VideoReceive => true | _ => false end.
Definition pending (f : Event → bool) c : nat := length (List.filter (λ x : T * Event, f x.2) (events (out c))).
Definition playback_ok (p : Playback (T := T)) : Prop :=
  Forall frame_ok (deque (decoder_queue p)) ∧ capacity (decoder_queue p) = DECODER_BUFFERING_FRAMES ∧
  (length (deque (decoder_queue p)) ≤ DECODER_BUFFERING_FRAMES)%nat.
(** Between the handlers the channel is empty and no shard is half read; at most [n] packets wait to be taken. *)
Record streams_ok (n : nat) (t0 : T) (st : Streams (T := T)) : Prop := mkStreamsOk {
  so_socket : socket_inv m sent (streamsocket_clone st) (chan st);
  so_chan : chan st = mkReceiver [] false None;
  so_state : shard_recv_state (streamsocket_clone st) = None;
  so_receiver : input_app_video st = stream_receiver_new;
  so_sender : tx_max_packet_size (output_app_tracking_sender st) = (m + SHARD_PREFIX_SIZE)%nat ∧ ref_time (output_app_tracking_sender st) = t0;
  so_video : ∃ cs, stream_recv_components (streamsocket_clone st) !! VIDEO = Some cs ∧ (length (packet_queue cs) ≤ n)%nat ∧
    Forall numbered (packet_queue cs)
}.
(** [v] refreshes are pending, and [r] packets more than readings wait. *)
Record client_inv (v r : nat) c : Prop := mkClientInv {
  ci_conf : packet_size_sockets (conf c) = (m + SHARD_PREFIX_SIZE)%nat;
  ci_streams : ∀ st, streams c = Some st → streams_ok (pending is_receive c + r) (t_0 c) st;
  ci_playback : playback_ok (playback c);
  ci_decoded : Forall sample_ok (decoded (out c));
  ci_vsync : pending is_vsync c = v;
  ci_on : is_streaming c = false → streams c = None
}.
Lemma streams_weaken n n' t0 st : (n ≤ n')%nat → streams_ok n t0 st → streams_ok n' t0 st.
Proof. intros Hn [H1 H2 H3 H4 H5 (cs & H6 & H7 & H8)]. split; try done. exists cs. split_and!; [done|lia|done]. Qed.

(** ** What the steps of the handlers keep *)
Definition one (b : bool) : nat := if b then 1 else 0.
Lemma schedule_eq now d e c c' : schedule_event now d e c = Ret c' → ∃ t, checked_add now d = Some t ∧ nanos now < nanos t ∧
  c' = set_out (mkOut (events (out c) ++ [(t, e)]) (to_network (out c)) (app_network (out c)) (decoded (out c))) c.
Proof.
  unfold schedule_event, time_add. intros E. inv_ret E as (t & Et%unwrap_Ret & E). destruct (time_lt now t) eqn:El; [|done].
  injection E as <-. exists t. split_and!; [done| |done]. by apply time_lt_spec.
Qed.
Lemma schedule_inv v r now d e c c' : client_inv v (r + one (is_receive e)) c → schedule_event now d e c = Ret c' →
  client_inv (v + one (is_vsync e)) r c'.
Proof.
  intros [H1 H2 H3 H4 H5 H6] (t & _ & _ & ->)%schedule_eq.
  assert (∀ f, pending f (set_out (mkOut (events (out c) ++ [(t, e)]) (to_network (out c)) (app_network (out c)) (decoded (out c))) c) =
    pending f c + one (f e))%nat as Hp.
  { intros f. unfold pending. cbn. rewrite List.filter_app, length_app. cbn. by destruct (f e). }
  split; [done| |done|done|by rewrite Hp, H5|done]. intros st Hst. rewrite Hp.
  eapply streams_weaken; [|by apply H2]. cbn. lia.
Qed.
Lemma inv_weaken v r c : client_inv v r c → client_inv v (r + 1) c.
Proof. intros [H1 H2 H3 H4 H5 H6]. split; try done. intros st Hst. eapply streams_weaken; [|by apply H2]. lia. Qed.
Lemma measures_inv v r x c : client_inv v r c → client_inv v r (set_measures x c).
Proof. by intros [H1 H2 H3 H4 H5 H6]. Qed.
Lemma streams_inv v r r' st c : client_inv v r c → is_streaming c = true → streams_ok (pending is_receive c + r') (t_0 c) st →
  client_inv v r' (set_streams (Some st) c).
Proof. intros [H1 H2 H3 H4 H5 H6] Hon Hst. split; try done; cbn; [by intros ? [= <-]|congruence]. Qed.
Lemma streams_on v r st c : client_inv v r c → streams c = Some st → is_streaming c = true.
Proof. intros Hi Hst. destruct (is_streaming c) eqn:E; [done|]. pose proof (ci_on _ _ _ Hi E). congruence. Qed.
Lemma playback_inv v r p c : client_inv v r c → playback_ok p → client_inv v r (set_playback p c).
Proof. by intros [H1 H2 H3 H4 H5 H6] Hp. Qed.

Lemma report_inv v r frames lost now c c' : client_inv v r c → report_frame_lost frames lost now c = Ret c' →
  client_inv v r c' ∧ streams c' = streams c ∧ decoder_queue (playback c') = decoder_queue (playback c) ∧ is_streaming c' = is_streaming c.
Proof.
  intros Hi. unfold report_frame_lost. destruct (_ <=? _)%nat; [|done]. intros E. split.
  - eapply schedule_inv in E; [by rewrite Nat.add_0_r in E|]. cbn. rewrite Nat.add_0_r. apply playback_inv; [done|]. apply (ci_playback _ _ _ Hi).
  - apply schedule_eq in E as (t & _ & _ & ->). done.
Qed.
(** A flush only clears the notes of what was lost. *)
Lemma flush_ok n t0 st s : streams_ok n t0 st → s = (flush_shards_lost_deadline (streamsocket_clone st)).2 ∨
  s = (flush_shards_expected_deadline (flush_shards_lost_deadline (streamsocket_clone st)).2).2 → streams_ok n t0 (set_socket s (chan st) st).
Proof.
  intros [[A1 A2 A3 A4] H2 H3 H4 H5 H6] Hs.
  assert (max_packet_size s = max_packet_size (streamsocket_clone st) ∧ stream_recv_components s = stream_recv_components (streamsocket_clone st) ∧
    shard_recv_state s = shard_recv_state (streamsocket_clone st)) as (E1 & E2 & E3) by (by destruct Hs as [-> | ->]).
  split; cbn; rewrite ?E2; try done; [|congruence]. split; rewrite ?E1, ?E2, ?E3; done.
Qed.
Lemma flush_losses_inv v r now st c c' : client_inv v r c → is_streaming c = true → streams_ok (pending is_receive c + r) (t_0 c) st → flush_losses now st c = Ret c' →
  client_inv v r c' ∧ (∃ st', streams c' = Some st' ∧ streams_ok (pending is_receive c' + r) (t_0 c') st') ∧
  decoder_queue (playback c') = decoder_queue (playback c) ∧ is_streaming c' = is_streaming c.
Proof.
  intros Hi Hon Hst E. unfold flush_losses in E. destruct (flush_shards_lost_deadline (streamsocket_clone st)) as [[fl lost] s1] eqn:E1.
  inv_ret E as ([s2 ms] & E2 & E).
  assert (streams_ok (pending is_receive c + r) (t_0 c) (set_socket s2 (chan st) st)) as Hst2.
  { eapply flush_ok; [done|]. rewrite E1. cbn. destruct nada_fix; [|injection E2 as <- _; by left].
    destruct (flush_shards_expected_deadline s1) as [n s3] eqn:E3. assert (s2 = s3) as ->; [|right; unfold flush_shards_expected_deadline in E3; by injection E3 as _ <-].
    destruct (nada_receiver _); [|by injection E2 as <- _]. inv_ret E2 as (t & _ & E2). by inv_ret E2 as (n' & _ & [= <- _]). }
  assert (client_inv v r (set_measures ms (set_streams (Some (set_socket s2 (chan st) st)) c))) as Hi2.
  { apply measures_inv. by eapply streams_inv. }
  destruct (length fl =? 0)%nat.
  - injection E as <-. split; [done|]. split; [|done]. eexists. split; [done|]. by apply (ci_streams _ _ _ Hi2).
  - apply report_inv with (v := v) (r := r) in E as (Hi' & Es & Eq & Ei); [|done]. split; [done|]. cbn in *. split; [|done].
    eexists. split; [done|]. by apply (ci_streams _ _ _ Hi').
Qed.
(** All that a flush changes. *)
Lemma flush_losses_eq now st c c' : flush_losses now st c = Ret c' → ∃ s ms l evs,
  stream_recv_components s = stream_recv_components (streamsocket_clone st) ∧ (length evs ≤ 1)%nat ∧
  c' = set_out (mkOut (events (out c) ++ evs) (to_network (out c)) (app_network (out c)) (decoded (out c)))
         (set_playback (set_lost_ids l (playback c)) (set_measures ms (set_streams (Some (set_socket s (chan st) st)) c))).
Proof.
  unfold flush_losses. destruct (flush_shards_lost_deadline (streamsocket_clone st)) as [[fl lost] s1] eqn:E1. intros E.
  inv_ret E as ([s2 ms] & E2 & E). injection E1 as _ _ E1.
  assert (stream_recv_components s2 = stream_recv_components (streamsocket_clone st)) as Hs2.
  { destruct nada_fix; [|injection E2 as <- _; by rewrite <-E1]. unfold flush_shards_expected_deadline in E2.
    destruct (nada_receiver _); [|injection E2 as <- _; by rewrite <-E1]. inv_ret E2 as (t & _ & E2). inv_ret E2 as (n' & _ & [= <- _]). by rewrite <-E1. }
  destruct (length fl =? 0)%nat.
  - injection E as <-. exists s2, ms, (lost_ids_reference_buffer (playback c)), []. split_and!; [done|cbn; lia|].
    rewrite (app_nil_r (events (out c))). destruct c as [? ? ? ? ? ? ? [] []]. done.
  - unfold report_frame_lost in E. destruct (_ <=? _)%nat; [|done]. apply schedule_eq in E as (t & _ & _ & ->).
    eexists s2, ms, _, [_]. split_and!; [done|cbn; lia|]. reflexivity.
Qed.
Lemma take_packet n t0 st cs res r' cs' : streams_ok n t0 st → stream_recv_components (streamsocket_clone st) !! VIDEO = Some cs →
  receiver_recv true (input_app_video st) cs = Ret (res, r', cs') →
  streams_ok (n - 1) t0 (set_socket (set_components (streamsocket_clone st) (<[VIDEO:=cs']> (stream_recv_components (streamsocket_clone st)))) (chan st) st) ∧
  match res with
  | Ok d => packet_queue cs = rd_packet d :: packet_queue cs' ∧ as_sent sent VIDEO (rd_packet d) ∧ numbered (rd_packet d) ∧ rd_frames_skipped d = 0
  | Err _ => packet_queue cs = []
  end.
Proof.
  intros [H1 H2 H3 H4 H5 (cs0 & H6 & H7 & H8)] Hc E. rewrite Hc in H6. injection H6 as <-.
  pose proof (rx_step_inv m m_pos m_max sent sent_ok _ _ (Take _ _ _ _ _ _ _ _ _ _ (chan st) Hc E) H1) as Hinv. cbn in Hinv.
  assert (match res with
          | Ok d => packet_queue cs = rd_packet d :: packet_queue cs' ∧ rd_frames_skipped d = 0
          | Err _ => packet_queue cs = [] ∧ cs' = cs end) as Hres.
  { rewrite H4 in E. unfold receiver_recv in E. destruct (packet_queue cs) as [|y q] eqn:Eq; [by injection E as <- <- <-|].
    inv_ret E as (b & _ & E). inv_ret E as (k & _ & E). inv_ret E as (k' & _ & E). cbn in E. by injection E as <- <- <-. }
  split.
  - split; cbn; try done. exists cs'. rewrite lookup_insert_eq. split; [done|]. destruct res as [d|]; destruct Hres as [Hq Hr].
    + rewrite Hq in H7, H8. apply Forall_cons in H8 as [_ ?]. cbn in H7. split; [lia|done].
    + subst cs'. rewrite Hq. split; [cbn; lia|done].
  - destruct res as [d|]; [|by destruct Hres]. destruct Hres as [Hq Hr]. rewrite Hq in H8. apply Forall_cons in H8 as [? _].
    destruct (sinv_streams _ _ _ _ H1 VIDEO cs Hc) as [_ Hs]. rewrite Hq in Hs. by apply Forall_cons in Hs as [? _].
Qed.
Lemma data_frame d nal : as_sent sent VIDEO (rd_packet d) → numbered (rd_packet d) → data_get d = Ret nal → frame_ok (rp_frame_index (rd_packet d), nal).
Proof.
  intros (D & t & Hs & Hsz & Hd) -> E. exists D, t. split; [done|]. unfold data_get, slice in E. cbn [snd].
  destruct (_ && _); [|done]. injection E as <-. rewrite <-Hd, skipn_firstn_comm, drop_drop. f_equal. unfold SHARD_PREFIX_SIZE, VIDEO_HEADER_SIZE in *. lia.
Qed.
Lemma push_ok f (p : Playback (T := T)) : playback_ok p → frame_ok f → playback_ok (set_decoder_queue (push f (decoder_queue p)) p).
Proof.
  intros (H1 & H2 & H3) Hf. unfold playback_ok. cbn [decoder_queue set_decoder_queue].
  destruct (push_queue f (decoder_queue p)) as (gone & Eq & _ & Ec & El); rewrite ?H2; [unfold DECODER_BUFFERING_FRAMES; lia|done|].
  rewrite Ec, H2 in *. split_and!; [|done|done].
  assert (Forall frame_ok (deque (decoder_queue p) ++ [f])) as Hall by (apply Forall_app; split; [done|by apply Forall_singleton]).
  rewrite Eq in Hall. by apply Forall_app in Hall as [_ ?].
Qed.
Lemma handle_frame_inv v r now wall d c c' : client_inv v r c → as_sent sent VIDEO (rd_packet d) → numbered (rd_packet d) →
  handle_frame nada_level now wall d c = Ret c' →
  client_inv v r c' ∧ ∃ t nal net, data_get d = Ret nal ∧ np_frames_skipped net = rd_frames_skipped d ∧
    np_frame_index net = as_i32 (rp_frame_index (rd_packet d)) ∧
    events (out c') = events (out c) ++ [(t, OutputControl (NetworkStatistics net))] ∧
    decoder_queue (playback c') = push (rp_frame_index (rd_packet d), nal) (decoder_queue (playback c)).
Proof.
  intros Hi Hs Hn E. unfold handle_frame in E. inv_ret E as (nal & En & E).
  destruct (if everest_enabled _ then _ else _) as [[[cap thr] cmd] ms].
  inv_ret E as ([ms' ns] & _ & E). inv_ret E as (c1 & E1 & [= <-]). split.
  - eapply schedule_inv in E1; [|cbn; rewrite Nat.add_0_r; by apply measures_inv]. rewrite Nat.add_0_r in E1.
    apply playback_inv; [done|]. apply push_ok; [apply (ci_playback _ _ _ E1)|]. by apply data_frame.
  - apply schedule_eq in E1 as (t & _ & _ & ->). eexists t, nal, (statistics d _ _ _ _ _ _). cbn. split_and!; try done; reflexivity.
Qed.
(** A reading takes the oldest packet, whatever its number. *)
Lemma receive_inv v now wall c c' : client_inv v 1 c → video_receive_thread nada_level now wall c = Ret c' → client_inv v 0 c'.
Proof.
  intros Hi E. unfold video_receive_thread in E. destruct (is_streaming c) eqn:Hon.
  2: { injection E as <-. pose proof (ci_on _ _ _ Hi Hon) as Hst. destruct Hi as [H1 H2 H3 H4 H5 H6]. split; try done. intros st. congruence. }
  destruct (streams c) as [st|] eqn:Est.
  2: { injection E as <-. destruct Hi as [H1 H2 H3 H4 H5 H6]. split; try done. intros st. congruence. }
  inv_ret E as (c1 & E1 & E). pose proof (ci_streams _ _ _ Hi st Est) as Hst.
  destruct (flush_losses_inv _ _ _ _ _ _ Hi Hon Hst E1) as (Hi1 & (st1 & Est1 & Hst1) & _ & Hon1). rewrite Est1 in E. cbn [unwrap mbind outcome_bind] in E.
  destruct (so_video _ _ _ Hst1) as (cs & Hc & _). rewrite Hc in E. inv_ret E as ([[res r'] cs'] & Er & E).
  destruct (take_packet _ _ _ _ _ _ _ Hst1 Hc Er) as [Hst2 Hres]. replace (pending is_receive c1 + 1 - 1)%nat with (pending is_receive c1 + 0)%nat in Hst2 by lia.
  eapply streams_inv in Hst2; [|done|congruence]. destruct res as [d|]; [|by injection E as <-].
  destruct Hres as (_ & Ha & Hn & _). eapply handle_frame_inv; done.
Qed.
(** ** The refresh *)
Lemma out_inv v r o c : client_inv v r c → events o = events (out c) → Forall sample_ok (decoded o) → client_inv v r (set_out o c).
Proof.
  intros [H1 H2 H3 H4 H5 H6] He Hd. assert (∀ f, pending f (set_out o c) = pending f c) as Hp by (intros f; unfold pending; cbn; by rewrite He).
  split; try done; rewrite ?Hp; done.
Qed.
Lemma process_inv v r now c c' : client_inv v r c → process now c = Ret c' → client_inv v r c'.
Proof.
  intros Hi E. pose proof (ci_playback _ _ _ Hi) as (P1 & P2 & P3). unfold process in E. destruct (negb _).
  - destruct (_ <=? _)%nat; injection E as <-; [|done]. by apply playback_inv.
  - cbn [pop] in E. destruct (deque (decoder_queue (playback c))) as [|[id_f fr] q] eqn:Eq; cbn [head] in E.
    + inv_ret E as (d & _ & [= <-]). apply playback_inv; [done|]. split_and!; cbn; [done|done|lia].
    + inv_ret E as (d & _ & [= <-]). apply Forall_cons in P1 as [F1 P1]. cbn in P3. apply out_inv; [|done|].
      * apply playback_inv; [done|]. split_and!; cbn; [done|done|lia].
      * cbn. apply Forall_app. split; [apply (ci_decoded _ _ _ Hi)|]. apply Forall_singleton. by exists (id_f, fr).
Qed.
Lemma render_inv v r now c c' : client_inv v r c → render now c = Ret c' → client_inv v r c'.
Proof.
  intros Hi E. unfold render in E. destruct (_ && _); [|by injection E as <-]. inv_ret E as (d & _ & [= <-]).
  apply playback_inv; [done|]. apply (ci_playback _ _ _ Hi).
Qed.
Lemma swept_streams_ok n t0 st now s' : streams_ok n t0 st → sweep_expired_deadlines now (streamsocket_clone st) = Ret s' →
  streams_ok n t0 (set_socket s' (chan st) st).
Proof.
  intros [[A1 A2 A3 A4] H2 H3 H4 H5 (cs & H6 & H7 & H8)] E.
  destruct (sweep_inv m m_pos m_max sent now (streamsocket_clone st) A2) as (s1 & E1 & I1 & C1 & M1 & S1 & _). rewrite E in E1. injection E1 as <-.
  split; cbn; try done; [|congruence|].
  - split; [congruence|done|done|]. rewrite S1. done.
  - exists (swept now cs). rewrite C1, lookup_fmap, H6. done.
Qed.
Lemma vsync_inv r now c c' : client_inv 0 r c → vsync now c = Ret c' → client_inv 1 r c'.
Proof.
  intros Hi E. unfold vsync in E. inv_ret E as (c1 & E1 & E). inv_ret E as (c2 & E2 & E). inv_ret E as (c3 & E3 & E).
  assert (client_inv 0 r c1) as Hi1.
  { destruct (streams c) as [st|] eqn:Est; [|by injection E1 as <-]. inv_ret E1 as (s & Es & E1).
    eapply swept_streams_ok in Es; [|by apply (ci_streams _ _ _ Hi)]. eapply flush_losses_inv in E1; [apply E1|done|by eapply streams_on|done]. }
  eapply process_inv in E2; [|done]. eapply render_inv in E3; [|done].
  eapply (schedule_inv 0 r) in E; [done|]. cbn. rewrite Nat.add_0_r. apply playback_inv; [done|]. apply (ci_playback _ _ _ E3).
Qed.

(** ** From the network: the packets of a stream carry its shards *)
Definition genuine_packet (p : Mpdu) : Prop :=
  hd_stream_id (header_alvr p) = VIDEO → ∃ pi D t i, is_shard m sent VIDEO pi D t i ∧ data_inner p = shard m VIDEO pi t D i.
Lemma reader_alone n d dc : ∃ x, reader_recv n (mkReceiver [d] dc None) = (x, mkReceiver [] dc None).
Proof. unfold reader_recv, try_recv. cbn. destruct (_ <=? _)%nat; by eexists. Qed.
Lemma deliver_inv v r ts now p c c' : client_inv v r c → genuine_packet p → deliver fuel ts now p c = Ret c' → client_inv v (r + 1) c'.
Proof.
  intros Hi Hg E. pose proof (inv_weaken _ _ _ Hi) as Hi'.
  unfold deliver in E. destruct (streams c) as [st|] eqn:Est; [|by injection E as <-].
  pose proof (ci_streams _ _ _ Hi st Est) as Hst. pose proof (streams_on _ _ _ _ Hi Est) as Hon.
  destruct Hst as [H1 H2 H3 H4 H5 H6]. rewrite H2 in *. destruct (_ || _) eqn:Ea.
  - change (send_shared ?d (mkReceiver [] false None)) with (mkReceiver [d] false None) in E. destruct (reader_alone MAX_PACKET_SIZE_RECV (data_inner p) false) as (x & Ex). rewrite Ex in E.
    assert (client_inv v (r + 1) (set_streams (Some (set_socket (streamsocket_clone st) (mkReceiver [] false None) st)) c)) as Hi2.
    { eapply streams_inv; [done|done|]. eapply (streams_weaken (pending is_receive c + r)); [lia|]. by split. }
    by injection E as <-.
  - destruct (Z.eqb_spec (hd_stream_id (header_alvr p)) VIDEO) as [Ev|]; [|by injection E as <-].
    destruct (Hg Ev) as (pi & D & t & i & Hi0 & Hd). rewrite Hd in E. change (send_shared ?d (mkReceiver [] false None)) with (mkReceiver [d] false None) in E.
    inv_ret E as ([[res s'] rd'] & Er & [= <-]). destruct H6 as (cs & Hc & Hn & Hnum).
    assert (socket_inv m sent (streamsocket_clone st) (mkReceiver [shard m VIDEO pi t D i] false None)) as Hinv.
    { destruct H1 as [A1 A2 A3 A4]. split; [done|done| |congruence]. apply Forall_singleton. by exists VIDEO, pi, D, t, i. }
    pose proof (recv_inv m m_pos m_max sent sent_ok _ _ _ _ _ _ _ Hinv Er) as Hinv'.
    destruct (recv_alone _ _ _ _ _ _ _ _ _ _ _ _ Hinv H3 Hi0 Hc Er) as (-> & Hs' & cs' & l & Hc' & Hq & Hl & Hln).
    destruct Hi as [C1 C2 C3 C4 C5 C6]. split; try done; cbn; [|congruence]. intros ? [= <-]. split; try done. exists cs'. split; [done|].
    rewrite Hq, length_app. split; [unfold pending in *; cbn; lia|]. by apply Forall_app.
Qed.
Lemma network_inv v ts ps now : ∀ c c', client_inv v 0 c → Forall genuine_packet ps → in_from_network fuel ts ps now c = Ret c' → client_inv v 0 c'.
Proof.
  induction ps as [|p ps IH]; intros c c' Hi Hg E; cbn [in_from_network] in E; [by injection E as <-|].
  apply Forall_cons in Hg as [Hp Hg]. inv_ret E as (c1 & E1 & E). inv_ret E as (c2 & E2 & E).
  eapply deliver_inv in E1; [|done|done]. eapply (schedule_inv v 0) in E2; [|done]. cbn in E2. rewrite Nat.add_0_r in E2. by eapply IH.
Qed.
(** ** To the network, and sessions *)
Lemma encode_length r : length (Nada.encode r) = Nada.LEN.
Proof. done. Qed.
Lemma channel_messages msgs : ∀ rd, messages (foldl (λ rd msg, send_shared msg rd) rd msgs) = messages rd ++ msgs ∧
  disconnected (foldl (λ rd msg, send_shared msg rd) rd msgs) = disconnected rd.
Proof.
  induction msgs as [|msg msgs IH]; intros rd; cbn [foldl]; [by rewrite (app_nil_r (messages rd))|]. destruct (IH (send_shared msg rd)) as [-> ->].
  split; [|done]. unfold messages. cbn. by rewrite <-!(assoc_L (++)).
Qed.
Lemma tracking_inv v r track now c c' : uplink track → client_inv v r c → generate_tracking_data nada_level powi track now c = Ret c' → client_inv v r c'.
Proof.
  intros Hu Hi E. unfold generate_tracking_data in E. destruct (is_streaming c) eqn:Hon; [|by injection E as <-].
  inv_ret E as (d1 & _ & E). inv_ret E as (d2 & Hd & E). inv_ret E as (c1 & E1 & E). inv_ret E as (dl & _ & E).
  assert (client_inv v r c1) as Hi1.
  { destruct (streams c) as [st|] eqn:Est; [|by injection E1 as <-]. pose proof (ci_streams _ _ _ Hi st Est) as Hst.
    inv_ret E1 as ([c2 rep] & E2 & E1).
    assert (∃ ms, c2 = set_measures ms c) as (ms & ->).
    { unfold nada_timer in E2. destruct (nada_receiver _) as [n|]; [|injection E2 as <- _; exists (measures c); by destruct c].
      destruct (2 <=? nada_level); [|injection E2 as <- _; exists (measures c); by destruct c].
      inv_ret E2 as (t & _ & E2). inv_ret E2 as ([n' rp] & _ & [= <- _]). by eexists. }
    inv_ret E1 as ([msgs tx'] & E3 & E1). inv_ret E1 as ([rd sent'] & E4 & [= <-]).
    destruct Hst as [H1 H2 H3 H4 [H5a H5b] H6]. rewrite H2 in E4.
    assert (nanos (t_0 c) ≤ nanos now) as Hnow.
    { unfold duration_since, checked_duration_since in Hd. destruct (time_le (t_0 c) now) eqn:Et; [|done]. by apply time_le_spec. }
    assert (Forall (λ msg, (SHARD_PREFIX_SIZE ≤ length msg)%nat) msgs) as Hm.
    { destruct rep as [rp|]; (eapply tracking_lengths; [done|done|by rewrite H5b|]).
      - right. split; [apply (encode_length rp)|exact E3].
      - left. split; [done|exact E3]. }
    destruct (channel_messages msgs (mkReceiver [] false None)) as [Em Ed]. cbn in Em, Ed.
    apply drain_channel in E4 as ->; [|done|unfold messages; lia|by rewrite Em].
    apply out_inv; [|done|apply (ci_decoded _ _ _ Hi)]. eapply streams_inv; [by apply measures_inv|done|].
    split; cbn; try done. by rewrite <-H2. }
  eapply (schedule_inv v r) in E; [by rewrite Nat.add_0_r in E|]. cbn. rewrite Nat.add_0_r. by destruct Hi1.
Qed.
Lemma configure_inv v r track n now c c' : uplink track → client_inv v r (set_streams None c) → n = (m + SHARD_PREFIX_SIZE)%nat →
  configure_streams nada_level powi track n now c = Ret c' → client_inv v r c'.
Proof.
  intros Hu Hi Hc E. unfold configure_streams in E.
  match type of E with (if _ then Ret ?x else _) = _ => assert (client_inv v r x) as Hi1 end.
  { destruct Hi as [H1 H2 H3 H4 H5 H6]. split; try done. intros ? [= <-]. split; cbn; try done.
    - rewrite Hc. do 3 (eapply (rx_step_inv m m_pos m_max sent sent_ok (_, _) (_, _)); [apply Subscribe|]). apply build_inv.
    - eexists. split; [by rewrite lookup_insert_ne, lookup_insert_ne, lookup_insert_eq by done|]. cbn. split; [lia|done]. }
  destruct (no_uplink_tracking _); [by injection E as <-|]. by eapply tracking_inv.
Qed.
Lemma clear_ok (p q : Playback (T := T)) : playback_ok p → decoder_queue q = deque_clear (decoder_queue p) → playback_ok q.
Proof. intros (H1 & H2 & H3) E. unfold playback_ok. rewrite E. cbn. split_and!; [done|done|lia]. Qed.
Lemma end_inv v r pause now c c' : client_inv v r c → session_end pause now c = Ret c' → client_inv v r c'.
Proof.
  intros Hi E. unfold session_end in E. inv_ret E as (d & _ & E). eapply (schedule_inv v r) in E; [by rewrite Nat.add_0_r in E|].
  cbn. rewrite Nat.add_0_r. destruct Hi as [H1 H2 H3 H4 H5 H6]. split; try done. by eapply clear_ok.
Qed.
Lemma reboot_inv v r track now c c' : uplink track → client_inv v r c → session_reboot nada_level powi track now c = Ret c' → client_inv v r c'.
Proof.
  intros Hu Hi E. unfold session_reboot in E. inv_ret E as (c1 & E1 & E). eapply configure_inv in E1; [|done| |apply (ci_conf _ _ _ Hi)].
  - eapply (schedule_inv v r) in E; [by rewrite Nat.add_0_r in E|]. by apply inv_weaken.
  - destruct Hi as [H1 H2 H3 H4 H5 H6]. split; try done. by eapply clear_ok.
Qed.

(** ** Runs of the client

    Packets arrive, an event that the client scheduled runs, or a session starts or ends, at
    times that do not go back.  Events run in any order: the order of the simulation is one of them.  [U] says which tracking packets
    the headset sends and [P] which packets the network may deliver. *)
Definition drop_event (i : nat) c : XRClient T :=
  set_out (mkOut (delete i (events (out c))) (to_network (out c)) (app_network (out c)) (decoded (out c))) c.
Inductive net_step (U : list Z → Prop) (P : Mpdu → Prop) : T * XRClient T → T * XRClient T → Prop :=
| Arrives ts ps now now' c c' : nanos now ≤ nanos now' → Forall P ps → in_from_network fuel ts ps now' c = Ret c' →
    net_step U P (now, c) (now', c')
| Runs i e wall track now now' c c' : events (out c) !! i = Some (now', e) → nanos now ≤ nanos now' → U track →
    handle nada_level powi now' wall track e (drop_event i c) = Ret c' → net_step U P (now, c) (now', c')
| Starts track now now' c c' : nanos now ≤ nanos now' → U track →
    configure_streams nada_level powi track (m + SHARD_PREFIX_SIZE) now' c = Ret c' → net_step U P (now, c) (now', c')
| Ends pause now now' c c' : nanos now ≤ nanos now' → session_end pause now' c = Ret c' → net_step U P (now, c) (now', c').
Definition client_step : T * XRClient T → T * XRClient T → Prop := net_step uplink genuine_packet.
Lemma net_step_mono U (P Q : Mpdu → Prop) a b : (∀ p, P p → Q p) → net_step U P a b → net_step U Q a b.
Proof.
  intros HPQ [ts ps now now' c c' H1 H2 H3| | |]; [|by eapply Runs|by eapply Starts|by eapply Ends].
  eapply Arrives; [done|by eapply Forall_impl|done].
Qed.
Lemma drop_pending f i e t c : events (out c) !! i = Some (t, e) → pending f c = (pending f (drop_event i c) + one (f e))%nat.
Proof.
  intros Hl. clear - Hl. unfold pending. cbn. rewrite delete_take_drop. rewrite <-(take_drop_middle _ _ _ Hl) at 1.
  rewrite !List.filter_app, !length_app. cbn. destruct (f e); cbn; lia.
Qed.
Lemma step_inv a b : client_step a b → client_inv 1 0 a.2 → client_inv 1 0 b.2.
Proof.
  intros Hs Hi. destruct Hs as [ts ps now now' c c' _ Hg E|i e wall track now now' c c' Hl _ Hu E|track now now' c c' _ Hu E|pause now now' c c' _ E]; cbn [snd] in *.
  - by eapply network_inv.
  - assert (client_inv (1 - one (is_vsync e)) (one (is_receive e)) (drop_event i c)) as Hi'.
    { pose proof (drop_pending is_vsync i e now' c Hl) as Hv. pose proof (drop_pending is_receive i e now' c Hl) as Hr.
      destruct Hi as [H1 H2 H3 H4 H5 H6]. split; try done; [|lia]. intros st Hst. eapply streams_weaken; [|by apply H2]. lia. }
    destruct e; cbn [handle is_vsync is_receive one Nat.sub] in *.
    + by eapply vsync_inv.
    + by eapply receive_inv.
    + eapply (schedule_inv 1 0) in E; done.
    + injection E as <-. apply out_inv; [done|done|apply (ci_decoded _ _ _ Hi')].
    + by eapply tracking_inv.
    + by eapply reboot_inv.
  - eapply configure_inv; [done| |done|done]. destruct Hi as [H1 H2 H3 H4 H5 H6]. by split.
  - by eapply end_inv.
Qed.
Lemma client_reach_inv a b : rtc client_step a b → client_inv 1 0 a.2 → client_inv 1 0 b.2.
Proof. induction 1 as [|a b b' Hs _ IH]; [done|]. intros Ha. by eapply IH, step_inv. Qed.

(** A client as it is set up: nothing configured yet and one refresh scheduled. *)
Record fresh c : Prop := mkFresh {
  fr_conf : packet_size_sockets (conf c) = (m + SHARD_PREFIX_SIZE)%nat;
  fr_streams : streams c = None;
  fr_queue : decoder_queue (playback c) = deque_new DECODER_BUFFERING_FRAMES;
  fr_decoded : decoded (out c) = [];
  fr_vsync : pending is_vsync c = 1%nat
}.
Lemma fresh_client_inv c : fresh c → client_inv 1 0 c.
Proof.
  intros [H1 H2 H3 H4 H5]. split; [done|intros ?; congruence| |by rewrite H4|done|done]. unfold playback_ok. rewrite H3. cbn. split_and!; [done|done|lia].
Qed.
(** The order of packets is forgotten.  A reading takes the packet that was completed
    first, and queues it for the decoder even if it is older than a frame taken before; the
    number of skipped frames in its statistics is always 0. *)
Theorem clone_forgets_order now0 c0 now c st cs p q now' wall c' : fresh c0 → rtc client_step (now0, c0) (now, c) →
  streams c = Some st → stream_recv_components (streamsocket_clone st) !! VIDEO = Some cs → packet_queue cs = p :: q →
  video_receive_thread nada_level now' wall c = Ret c' →
  ∃ nal t net, decoder_queue (playback c') = push (rp_index p, nal) (decoder_queue (playback c)) ∧
    (t, OutputControl (NetworkStatistics net)) ∈ events (out c') ∧ np_frame_index net = as_i32 (rp_index p) ∧ np_frames_skipped net = 0.
Proof.
  intros Hf Hr Est Hc Hq E. apply client_reach_inv in Hr as Hi; [|by apply fresh_client_inv]. cbn in Hi.
  pose proof (ci_streams _ _ _ Hi st Est) as Hst. pose proof (streams_on _ _ _ _ Hi Est) as Hon.
  unfold video_receive_thread in E. rewrite Hon, Est in E. inv_ret E as (c1 & E1 & E).
  destruct (flush_losses_inv _ _ _ _ _ _ Hi Hon Hst E1) as (Hi1 & (st1 & Est1 & Hst1) & Hdq & Hon1).
  rewrite Est1 in E. cbn [unwrap mbind outcome_bind] in E. apply flush_losses_eq in E1 as (s1 & ms & l & evs & Hcs & _ & ->).
  injection Est1 as <-. cbn [streamsocket_clone set_socket] in E. rewrite Hcs, Hc in E. inv_ret E as ([[res r'] cs'] & Er & E).
  assert (stream_recv_components (streamsocket_clone (set_socket s1 (chan st) st)) !! VIDEO = Some cs) as Hc1 by (cbn; by rewrite Hcs).
  destruct (take_packet _ _ _ _ _ _ _ Hst1 Hc1 Er) as [Hst2 Hres]. destruct res as [d|]; [|by rewrite Hres in Hq].
  destruct Hres as (Hq' & Ha & Hn & Hsk). rewrite Hq in Hq'. injection Hq' as -> _.
  rewrite <-Hcs in E.  eapply streams_weaken in Hst2; [|apply Nat.le_sub_l]. eapply streams_inv in Hst2; [|exact Hi1|by rewrite Hon1].
  eapply handle_frame_inv in E as (_ & t & nal & net & _ & H1 & H2 & H3 & H4); [|exact Hst2|exact Ha|exact Hn].
  exists nal, t, net. rewrite H4, H3, H2, H1, Hn. cbn. split_and!; [done|set_solver|done|done].
Qed.

(** ** A refresh, in full *)
Lemma schedule_event_ok now d e c t : checked_add now d = Some t → nanos now < nanos t →
  schedule_event now d e c = Ret (set_out (mkOut (events (out c) ++ [(t, e)]) (to_network (out c)) (app_network (out c)) (decoded (out c))) c).
Proof. intros Et Hlt. unfold schedule_event, time_add. rewrite Et. cbn. by rewrite (proj2 (time_lt_spec now t)). Qed.
Lemma flush_losses_total now st c t : checked_add now 10 = Some t → nada_fix = false ∨ nada_receiver (measures c) = None →
  ∃ c', flush_losses now st c = Ret c'.
Proof.
  intros Et Hn. unfold flush_losses, flush_shards_lost_deadline.
  assert (∀ s ms, ∃ c', (if (length (map fst (hm_iter (lost_shards_deadline_map (streamsocket_clone st)))) =? 0)%nat
    then Ret (set_measures ms (set_streams (Some (set_socket s (chan st) st)) c))
    else report_frame_lost (map fst (hm_iter (lost_shards_deadline_map (streamsocket_clone st)))) (map snd (hm_iter (lost_shards_deadline_map (streamsocket_clone st))))
      now (set_measures ms (set_streams (Some (set_socket s (chan st) st)) c))) = Ret c') as Hend.
  { intros s ms. destruct (_ =? _)%nat; [by eexists|]. unfold report_frame_lost. rewrite !length_take, !length_map, Nat.leb_refl.
    rewrite (schedule_event_ok _ _ _ _ t); [by eexists|done|]. apply checked_add_Some in Et; lia. }
  destruct nada_fix; [|apply Hend]. destruct Hn as [|Hn]; [done|]. unfold flush_shards_expected_deadline. rewrite Hn. apply Hend.
Qed.
Lemma render_eq now c : nanos (t_0 c) ≤ nanos now → ∃ w p, render now c = Ret (set_playback p c) ∧
  p = mkPlayback (decoder_queue (playback c)) (jitter_buffer_warmup_ready (playback c)) (rebuffer_event_counter (playback c)) (last_seen_id (playback c))
        (last_processed_frame_id (playback c)) (frame_size_history_vec (playback c)) (dec_saw_keyframe (playback c))
        (dec_saw_keyframe_last_t (playback c)) (last_decoded_frame_instant (playback c)) (lost_ids_reference_buffer (playback c)) w.
Proof.
  intros Ht. unfold render. destruct (_ && _).
  - rewrite duration_since_ok by done. by eexists false, _.
  - exists (window_tx (playback c)). eexists. split; [|done]. by destruct c as [? ? ? ? ? ? ? [] ?].
Qed.
(** What a refresh does with the jitter buffer. *)
Definition refreshed (now : T) c c' : Prop :=
  let p := playback c in let p' := playback c' in
  if jitter_buffer_warmup_ready p then
    jitter_buffer_warmup_ready p' = true ∧
    match deque (decoder_queue p) with
    | (id_f, fr) :: q => deque (decoder_queue p') = q ∧ decoded (out c') = decoded (out c) ++ [take 10 fr] ∧ last_seen_id p' = id_f ∧
        rebuffer_event_counter p' = rebuffer_event_counter p
    | [] => deque (decoder_queue p') = [] ∧ decoded (out c') = decoded (out c) ∧
        rebuffer_event_counter p' = add_one (F32.of_nanos (nanos now)) (rebuffer_event_counter p)
    end
  else decoder_queue p' = decoder_queue p ∧ decoded (out c') = decoded (out c) ∧ rebuffer_event_counter p' = rebuffer_event_counter p ∧
    jitter_buffer_warmup_ready p' = (DECODER_BUFFERING_FRAMES <=? length (deque (decoder_queue p)))%nat.
Lemma set_out_eta p c : set_out (mkOut (events (out c)) (to_network (out c)) (app_network (out c)) (decoded (out c))) (set_playback p c) = set_playback p c.
Proof. by destruct c as [? ? ? ? ? ? ? ? []]. Qed.
Lemma process_ok now c : nanos (t_0 c) ≤ nanos now → 0 ≤ nanos now → ∃ p d, process now c =
  Ret (set_out (mkOut (events (out c)) (to_network (out c)) (app_network (out c)) d) (set_playback p c)) ∧
  refreshed now c (set_out (mkOut (events (out c)) (to_network (out c)) (app_network (out c)) d) (set_playback p c)).
Proof.
  intros Ht H0. unfold process, refreshed. destruct (jitter_buffer_warmup_ready (playback c)) eqn:Ew; cbn [negb].
  - cbn [pop]. destruct (deque (decoder_queue (playback c))) as [|[id_f fr] q] eqn:Eq; cbn [head].
    + rewrite duration_since_ok by (by rewrite EPOCH_nanos). rewrite EPOCH_nanos, Z.sub_0_r. eexists _, (decoded (out c)). ret_step. rewrite set_out_eta. split; [done|].
      cbn. rewrite Ew. done.
    + rewrite duration_since_ok by done. ret_step. eexists _, _. split; [done|]. cbn. rewrite Ew. done.
  - unfold TARGET_FRAMES_DECODER_QUEUE. destruct (_ <=? _)%nat eqn:El.
    + eexists _, (decoded (out c)). rewrite set_out_eta. split; [done|]. cbn. done.
    + exists (playback c), (decoded (out c)). rewrite set_out_eta. split; [by destruct c|]. cbn. by rewrite Ew.
Qed.
(** A refresh of the display.  In every state that a client reaches, a refresh returns
    (times in range, and no loss statistics for NADA), schedules the next one exactly one
    period later and at most one report of losses, and: before the warm-up it waits for a
    full jitter buffer; after it, the oldest frame is shown, or a rebuffering event is
    counted if there is none. *)
Theorem vsync_exact now0 c0 now c now' t10 t : fresh c0 → rtc client_step (now0, c0) (now, c) →
  nanos (t_0 c) ≤ nanos now' → 0 ≤ nanos now' → 0 < t_vsync (conf c) → checked_add now' 10 = Some t10 → checked_add now' (t_vsync (conf c)) = Some t →
  nada_fix = false ∨ nada_receiver (measures c) = None →
  ∃ c' report, vsync now' c = Ret c' ∧ events (out c') = events (out c) ++ report ++ [(t, Vsync)] ∧ (length report ≤ 1)%nat ∧ refreshed now' c c'.
Proof.
  intros Hf Hr Ht0 H0 Hper E10 Et Hn. apply client_reach_inv in Hr as Hi; [|by apply fresh_client_inv]. cbn in Hi. unfold vsync.
  assert (∃ so ms l evs, (match streams c with
      | Some st => s ← sweep_expired_deadlines now' (streamsocket_clone st); flush_losses now' (set_socket s (chan st) st) c
      | None => Ret c end) = Ret (set_out (mkOut (events (out c) ++ evs) (to_network (out c)) (app_network (out c)) (decoded (out c)))
         (set_playback (set_lost_ids l (playback c)) (set_measures ms (set_streams so c)))) ∧ (length evs ≤ 1)%nat) as (so & ms & l & evs & -> & Hevs).
  { destruct (streams c) as [st|] eqn:Est.
    - destruct (sweep_inv m m_pos m_max sent now' (streamsocket_clone st)) as (s1 & -> & _); [apply (so_socket _ _ _ (ci_streams _ _ _ Hi st Est))|]. ret_step.
      destruct (flush_losses_total now' (set_socket s1 (chan st) st) c t10 E10 Hn) as (c1 & E1). rewrite E1.
      apply flush_losses_eq in E1 as (s & ms & l & evs & _ & Hl & ->). by eexists (Some _), ms, l, evs.
    - exists None, (measures c), (lost_ids_reference_buffer (playback c)), []. split; [|cbn; lia]. rewrite (app_nil_r (events (out c))), <-Est.
      by destruct c as [? ? ? ? ? ? ? [] []]. }
  ret_step. match goal with |- context [process now' ?x] => set (c1 := x) end.
  destruct (process_ok now' c1) as (p & d & -> & Hp); [done|done|]. ret_step.
  match goal with |- context [render now' ?x] => set (c2 := x) in * end.
  destruct (render_eq now' c2) as (w & p3 & -> & ->); [done|]. ret_step.
  rewrite (schedule_event_ok _ _ _ _ t); [|done|apply checked_add_Some in Et; cbn in *; lia]. eexists _, evs. split; [done|].
  cbn. rewrite <-(assoc_L (++)). split_and!; [done|done|]. exact Hp.
Qed.
End client.
End ClientFacts.

(** ** Two frames, the later one first *)
Module ClientDemo.
Import Socket Shards Deadlines VideoStats SocketDemo Reassembly Client ClientFacts Keyframe.Keyframe.KeyframeDemo.
#[local] Existing Instance naive_memmem.
#[local] Instance demo_bincode : Bincode := λ _, [1; 2; 3].
Definition demo_stamp : f32 := F32.of_nanos 1000000000.
Definition demo_frame (b : Z) : list Z := replicate VIDEO_HEADER_SIZE 0 ++ [b; b + 1].
Definition demo_sent (sid pi : Z) : option (list Z * f32) :=
  if (sid =? 3) && ((pi =? 5) || (pi =? 1)) then Some (demo_frame pi, demo_stamp) else None.
Definition at_us (n : Z) : mono := mono_of (1000000000 + 1000 * n).
Definition demo_powi (x : f64) (n : Z) : f64 := x.
Definition demo_mpdu (pi : Z) (i : nat) : Mpdu :=
  mkMpdu (shard 10 VIDEO pi demo_stamp (demo_frame pi) i) 1000 (mkHeader 32 VIDEO pi 2 (Z.of_nat i) demo_stamp None) Edca.Video.
Definition demo_track : list Z := replicate 20 7.
Definition get (o : outcome (XRClient mono)) (c : XRClient mono) : XRClient mono := match o with Ret c => c | _ => c end.
Definition blank : outcome (XRClient mono) :=
  client_new (F32.of_Z 60) (at_us 0) 0 (F32.of_Z 1) 32 false Keyframe.HEVC false 0.
Definition default_client : XRClient mono :=
  mkClient (mkConf (F32.of_Z 60) 16666667 32 false Keyframe.HEVC false false) false None (at_us 0) (at_us 0) (mono_of 0)
    (mkMeasures F32.zero F32.zero F32.zero F32.zero None)
    (mkPlayback (deque_new DECODER_BUFFERING_FRAMES) false (rebuffer_new (F32.of_Z 1)) 0 0 (replicate DISPLAY_GRAPH_MAX_FRAMES 0%nat)
       false (mono_of 0) (mono_of 0) [] true) (mkOut [] [] [] []).
Example blank_client : blank = Ret default_client.
Proof. vm_compute. reflexivity. Qed.
Definition demo0 : XRClient mono := set_out (mkOut [(at_us 15000, Vsync)] [] [] []) default_client.
Definition demo1 : XRClient mono := get (configure_streams 0 demo_powi demo_track 32 (at_us 1) demo0) demo0.
Definition demo2 : XRClient mono :=
  get (in_from_network 2 (at_us 10) [demo_mpdu 5 1; demo_mpdu 5 0; demo_mpdu 1 0; demo_mpdu 1 1] (at_us 10) demo1) demo1.
Definition demo3 : XRClient mono := get (video_receive_thread 0 (mono_of 1000010010) (0, 0) (drop_event 2 demo2)) demo2.

Lemma headset_sent_ok : sent_wf demo_sent.
Proof.
  intros sid pi D t. unfold demo_sent. destruct (Z.eqb_spec sid 3) as [->|]; [|done]. destruct (Z.eqb_spec pi 5) as [->|]; [|destruct (Z.eqb_spec pi 1) as [->|]; [|done]];
    intros [= <- <-]; split_and!; vm_compute; done.
Qed.
Lemma headset_fresh : fresh 10 demo0.
Proof. by split. Qed.
Lemma demo_uplink : uplink demo_track.
Proof. vm_compute. reflexivity. Qed.
Lemma headset_genuine pi i : (pi = 5 ∨ pi = 1) → (i < 2)%nat → genuine_packet 10 demo_sent (demo_mpdu pi i).
Proof. intros Hpi Hi _. exists pi, (demo_frame pi), demo_stamp, i. split; [|done]. split; [by destruct Hpi as [-> | ->]|exact Hi]. Qed.
Lemma demo_reach2 : rtc (client_step 0 demo_powi 2 10 demo_sent) (at_us 0, demo0) (at_us 10, demo2).
Proof.
  eapply rtc_l; [apply (Starts _ _ _ _ _ _ demo_track (at_us 0) (at_us 1) demo0 demo1); [vm_compute; done|apply demo_uplink|vm_compute; reflexivity]|].
  eapply rtc_l; [|apply rtc_refl].
  eapply (Arrives _ _ _ _ _ _ (at_us 10) [demo_mpdu 5 1; demo_mpdu 5 0; demo_mpdu 1 0; demo_mpdu 1 1] (at_us 1) (at_us 10) demo1 demo2);
    [vm_compute; done| |vm_compute; reflexivity].
  repeat (apply Forall_cons; split; [apply headset_genuine; [by auto|lia]|]). apply Forall_nil_2.
Qed.
Lemma demo_reach3 : rtc (client_step 0 demo_powi 2 10 demo_sent) (at_us 0, demo0) (mono_of 1000010010, demo3).
Proof.
  eapply rtc_r; [apply demo_reach2|]. apply (Runs _ _ _ _ _ _ 2 VideoReceive (0, 0) demo_track (at_us 10) (mono_of 1000010010) demo2 demo3);
    [vm_compute; reflexivity|vm_compute; done|apply demo_uplink|vm_compute; reflexivity].
Qed.
Lemma ten_pos : (0 < 10)%nat.
Proof. lia. Qed.
Lemma ten_max : (10 + SHARD_PREFIX_SIZE ≤ MAX_PACKET_SIZE_RECV)%nat.
Proof. apply Nat.leb_le. vm_compute. reflexivity. Qed.

Lemma deque_fifo_witness : ∃ l d, run [Push 1; Push 2; Push 3; Pop; Push 4] (deque_new 2) = (l, d) ∧ l = [2] ∧ deque d = [3; 4] ∧
  l ++ deque d `sublist_of` [1; 2; 3; 4].
Proof.
  eexists [2], _. split; [reflexivity|]. split; [reflexivity|]. split; [reflexivity|].
  apply (deque_fifo 2 [Push 1; Push 2; Push 3; Pop; Push 4] [2] (mkDeque [3; 4] 2 1 1 4)); [lia|reflexivity].
Defined.
Definition demo_streams3 : Streams (T := mono) := default (mkStreams (build 32) (mkReceiver [] false None) stream_receiver_new (request_stream 32 0 (at_us 0))) (streams demo3).
Definition demo_video3 : StreamRecvComponents mono :=
  default (mkComponents [] [] ∅ (mkInProgress [] 0 ∅ None 0 0)) (stream_recv_components (streamsocket_clone demo_streams3) !! VIDEO).
Definition demo_packet3 : ReconstructedPacket := default (mkReconstructed 0 [] 0 0 f0 f0 f0 f0 f0 0 0 0 0 0 0 0 f0 f0 None 0) (head (packet_queue demo_video3)).
Definition demo4 : XRClient mono := get (video_receive_thread 0 (mono_of 1000010010) (0, 0) demo3) demo3.
(** Frame 1 is queued behind frame 5, and no frame counts as skipped. *)
Lemma clone_forgets_order_witness : rp_index demo_packet3 = 1 ∧
  ∃ nal t net, decoder_queue (playback demo4) = push (1, nal) (decoder_queue (playback demo3)) ∧
    (t, OutputControl (NetworkStatistics net)) ∈ events (out demo4) ∧ np_frame_index net = 1 ∧ np_frames_skipped net = 0.
Proof.
  split; [vm_compute; reflexivity|].
  apply (clone_forgets_order 0 demo_powi 2 10 ten_pos ten_max demo_sent headset_sent_ok (at_us 0) demo0 (mono_of 1000010010) demo3
    demo_streams3 demo_video3 demo_packet3 [] (mono_of 1000010010) (0, 0) demo4 headset_fresh demo_reach3); vm_compute; reflexivity.
Defined.
Lemma vsync_exact_witness : ∃ c', vsync (at_us 15000) demo3 = Ret c' ∧ jitter_buffer_warmup_ready (playback c') = false ∧
  deque (decoder_queue (playback c')) = [(5, [5; 6])].
Proof.
  destruct (vsync_exact 0 demo_powi 2 10 ten_pos ten_max demo_sent headset_sent_ok (at_us 0) demo0 (mono_of 1000010010) demo3 (at_us 15000)
    (mono_of 1015000010) (mono_of 1031666667) headset_fresh demo_reach3) as (c' & rep & E & _ & _ & Hr).
  - vm_compute. done.
  - vm_compute. done.
  - vm_compute. done.
  - vm_compute. reflexivity.
  - vm_compute. reflexivity.
  - right. vm_compute. reflexivity.
  - exists c'. split; [done|]. unfold refreshed in Hr.
    assert (jitter_buffer_warmup_ready (playback demo3) = false) as Ew by (vm_compute; reflexivity). rewrite Ew in Hr. destruct Hr as (Hq & _ & _ & Hw).
    split; [rewrite Hw|rewrite Hq]; vm_compute; reflexivity.
Defined.
End ClientDemo.
