(* ===== verification/KeepsUp.v ===== *)
(** * The headset keeps up and never stops

    Theorems on [Client] over any run of the headset, whatever the network delivers and over any number of sessions:
    exactly one refresh of the display is pending, and a video packet that was put together always has a reading to come
    ([receive_keeps_up]).  Nothing is assumed of the packets; the lemmas only count what the handlers add to and take from
    the queue of video packets and the pending events. *)

From S2P Require Import Prelude StablePq Scheduler SeqExecutor F32 StreamSocket Shards FrameDeadlines VideoStats Reassembly SimRng Airtime Edca F64Ops Nada Abr Keyframe Client ClientFacts.

Module KeepsUp.
Import Socket Client ClientFacts.

Section client.
Context {T : Type} `{TaiTime T} `{!Env T} {BC : Bincode} {MM : Keyframe.MemMem}.
Context (nada_level : Z) (powi : f64 → Z → f64) (fuel : nat) (m : nat).
Implicit Types (c : XRClient T) (s : StreamSocket T) (cs : StreamRecvComponents T) (now : T).

(** ** The queue of video packets of a socket *)
Definition queue_length cs : nat := length (packet_queue cs).
Definition queue_at (id : Z) (m : gmap Z (StreamRecvComponents T)) : option nat := queue_length <$> m !! id.
Definition queued s : nat := default 0%nat (queue_at VIDEO (stream_recv_components s)).
Definition waiting c : nat := match streams c with Some st => queued (streamsocket_clone st) | None => 0%nat end.

Lemma remove_queue keys : ∀ cs, packet_queue (remove_expired keys cs) = packet_queue cs.
Proof. induction keys as [|k l IH]; intros cs; [done|]. cbn [remove_expired]. rewrite IH. by destruct (_ !! _). Qed.
Lemma sweep_streams_queue now l : ∀ ms lost expected lost' expected' ms',
  Forall (λ x, queue_at x.1 ms = Some (queue_length x.2)) l →
  sweep_streams now l ms lost expected = Ret (lost', expected', ms') → ∀ id, queue_at id ms' = queue_at id ms.
Proof.
  induction l as [|[k cs] l IH]; intros ms lost expected lost' expected' ms' Hl E id; cbn [sweep_streams] in E; [by injection E as _ _ <-|].
  apply Forall_cons in Hl as [Hk Hl]. cbn [fst snd] in Hk. inv_ret E as ([[lo ex] cs'] & Es & E). unfold sweep_stream in Es.
  inv_ret Es as ([[lo' ex'] keys] & _ & Es). injection Es as <- <- <-.
  assert (∀ i, queue_at i (<[k := remove_expired keys cs]> ms) = queue_at i ms) as Hq.
  { intros i. unfold queue_at in *. destruct (decide (i = k)) as [->|Hne]; [|by rewrite lookup_insert_ne].
    rewrite lookup_insert_eq, Hk. cbn. unfold queue_length. by rewrite remove_queue. }
  rewrite <-Hq. eapply IH; [|exact E]. eapply Forall_impl; [exact Hl|]. intros x. by rewrite Hq.
Qed.
Lemma sweep_queue now s s' : sweep_expired_deadlines now s = Ret s' →
  ∀ id, queue_at id (stream_recv_components s') = queue_at id (stream_recv_components s).
Proof.
  unfold sweep_expired_deadlines. intros E. inv_ret E as ([[lo ex] ms] & Es & E). injection E as <-. cbn.
  eapply sweep_streams_queue; [|exact Es]. apply Forall_forall. intros [k cs] Hin. rewrite hm_iter_perm, elem_of_map_to_list in Hin.
  cbn. unfold queue_at. by rewrite Hin.
Qed.
Lemma discard_queue n index : ∀ lost expected cs lost' expected' cs',
  discard_older n index lost expected cs = Ret (lost', expected', cs') → packet_queue cs' = packet_queue cs.
Proof.
  induction n as [|n IH]; intros lost expected cs lost' expected' cs' E; cbn [discard_older] in E; [by injection E as _ _ <-|].
  destruct (find_key _ _) as [idx|]; [|by injection E as _ _ <-]. inv_ret E as (p & _ & E). inv_ret E as (k & _ & E). by apply IH in E.
Qed.
Lemma locate_queue now st cs : packet_queue (locate now st cs).2 = packet_queue cs.
Proof.
  unfold locate. destruct (should_discard st); [done|]. destruct (in_progress_packets cs !! _); [done|].
  unfold acquire_buffer. destruct (used_buffer cs); [|done]. destruct (find_key _ _); [|done]. by destruct (_ !! _).
Qed.
(** A call of [recv] completes one packet at most. *)
Lemma recv_queue f now s rd res s' rd' : recv f now s rd = Ret (res, s', rd') → (queued s' ≤ queued s + 1)%nat.
Proof.
  unfold recv. intros E. inv_ret E as ([[st s1] rd1] & Eh & E).
  assert (stream_recv_components s1 = stream_recv_components s) as Es1.
  { unfold recv_header in Eh. destruct (shard_recv_state s); [by injection Eh as _ <- _|]. destruct (peek_prefix _ _ _) as [[[count bytes]|] rd2]; [|done].
    destruct (_ <? _)%nat; [by injection Eh as _ <- _|]. inv_ret Eh as (x & _ & Eh). inv_ret Eh as (g & _ & Eh). by injection Eh as _ <- _. }
  unfold queued in *. destruct st as [st|]; [|injection E as _ <- _; rewrite Es1; lia].
  destruct (stream_recv_components s1 !! stream_id st) as [cs|] eqn:Hcs; [|injection E as _ <- _; rewrite Es1; lia].
  inv_ret E as ([s2 rd2] & Er & E). injection E as _ <- _. unfold recv_shard in Er.
  pose proof (locate_queue now st cs) as Hq. destruct (locate now st cs) as [p cs0]. cbn [snd] in Hq.
  inv_ret Er as (sz & _ & Er). inv_ret Er as ([p' rd3] & _ & Er). inv_ret Er as ([cs1 x] & Ec & Er). inv_ret Er as (s3 & Es & Er). inv_ret Er as (s4 & Ed & Er).
  injection Er as <- _. cbn [stream_recv_components set_state].
  assert (queue_length cs1 ≤ queue_length cs + 1)%nat as H1.
  { assert (packet_queue (store st p' cs0) = packet_queue cs) as Hst by (unfold store; by destruct (should_discard st)).
    unfold queue_length. destruct (_ =? _)%nat; [|injection Ec as <- _; rewrite Hst; lia].
    unfold complete_packet in Ec. inv_ret Ec as ([fs xs] & _ & Ec). inv_ret Ec as (pk & _ & Ec). injection Ec as <- _. cbn [packet_queue].
    rewrite length_app, Hst. cbn. lia. }
  assert (queue_at VIDEO (stream_recv_components s4) = queue_at VIDEO (<[stream_id st := cs1]> (stream_recv_components s1))) as ->.
  { apply (sweep_queue now) with (id := VIDEO) in Es as Ev. apply (sweep_queue now) with (id := stream_id st) in Es as Ei.
    cbn [stream_recv_components set_stats set_components] in Ev, Ei. rewrite <-Ev.
    destruct ALVR_ORIGINAL_SOCKETRX_BEHAVIOR; [|by injection Ed as <-].
    inv_ret Ed as (cs2 & Ecs2%unwrap_Ret & Ed). inv_ret Ed as ([[lo ex] cs3] & Edd & Ed). injection Ed as <-. apply discard_queue in Edd.
    cbn [stream_recv_components]. unfold queue_at. destruct (decide (stream_id st = VIDEO)) as [<-|Hne]; [|by rewrite lookup_insert_ne].
    rewrite lookup_insert_eq, Ecs2. cbn. unfold queue_length. by rewrite Edd. }
  unfold queue_at. rewrite <-Es1. destruct (decide (stream_id st = VIDEO)) as [<-|Hne]; [|rewrite lookup_insert_ne by done; lia].
  rewrite lookup_insert_eq, Hcs. cbn. lia.
Qed.
Lemma receiver_queue r cs res r' cs' : receiver_recv true r cs = Ret (res, r', cs') → queue_length cs' = (queue_length cs - 1)%nat.
Proof.
  unfold receiver_recv, queue_length. destruct (packet_queue cs) as [|p q] eqn:Eq; [intros E; injection E as _ _ <-; by rewrite Eq|].
  intros E. inv_ret E as (b & _ & E). inv_ret E as (n & _ & E). inv_ret E as (d & _ & E). inv_ret E as (v & _ & E).
  destruct v as [[loss skipped]|]; injection E as _ _ <-; cbn; lia.
Qed.

(** ** What the handlers add and take *)
(** [v] refreshes are pending, and [r] packets more than readings wait. *)
Record kept (v r : nat) c : Prop := mkKept {
  k_vsync : pending is_vsync c = v;
  k_queue : (waiting c ≤ pending is_receive c + r)%nat;
  k_on : is_streaming c = false → streams c = None
}.
(** A step that leaves the queue and the events in question as they are. *)
Record keeps c c' : Prop := mkKeeps {
  ks_pending : ∀ f, (∀ p, f (OutputControl p) = false) → pending f c' = pending f c;
  ks_waiting : waiting c' = waiting c;
  ks_on : is_streaming c' = is_streaming c;
  ks_streams : streams c' = None ↔ streams c = None
}.
#[global] Instance keeps_preorder : PreOrder keeps.
Proof.
  split.
  - intros c. by split.
  - intros c1 c2 c3 [A1 A2 A3 A4] [B1 B2 B3 B4]. split; [intros f Hf; by rewrite B1, A1|congruence|congruence|by rewrite B4].
Qed.
#[local] Hint Extern 0 (keeps _ _) => (split; done) : core.
Lemma kept_keeps v r c c' : keeps c c' → kept v r c → kept v r c'.
Proof.
  intros [A1 A2 A3 A4] [H1 H2 H3]. split; [by rewrite A1|by rewrite A1, A2|]. rewrite A3, A4. done.
Qed.
Lemma schedule_kept v r now d e c c' : schedule_event now d e c = Ret c' → kept v (r + one (is_receive e)) c → kept (v + one (is_vsync e)) r c'.
Proof.
  intros (t & _ & _ & ->)%schedule_eq [H1 H2 H3].
  assert (∀ f, pending f (set_out (mkOut (events (out c) ++ [(t, e)]) (to_network (out c)) (app_network (out c)) (decoded (out c))) c) =
    pending f c + one (f e))%nat as Hp.
  { intros f. unfold pending. cbn. rewrite List.filter_app, length_app. cbn. by destruct (f e). }
  split; [by rewrite Hp, H1| |done]. rewrite Hp. change (waiting _) with (waiting c). lia.
Qed.
Lemma control_keeps now d p c c' : schedule_event now d (OutputControl p) c = Ret c' → keeps c c'.
Proof.
  intros (t & _ & _ & ->)%schedule_eq. split; [|done..]. intros f Hf. unfold pending. cbn. rewrite List.filter_app, length_app. cbn. rewrite Hf. cbn. lia.
Qed.
Lemma flush_keeps now st c c' : flush_losses now st c = Ret c' → keeps (set_streams (Some st) c) c'.
Proof.
  unfold flush_losses. destruct (flush_shards_lost_deadline (streamsocket_clone st)) as [[fl lost] s1] eqn:E1. injection E1 as _ _ <-.
  intros E. inv_ret E as ([s2 ms] & E2 & E).
  assert (stream_recv_components s2 = stream_recv_components (streamsocket_clone st)) as Hs2.
  { destruct nada_fix; [|by injection E2 as <- _]. unfold flush_shards_expected_deadline in E2.
    destruct (nada_receiver _); [|by injection E2 as <- _]. inv_ret E2 as (t & _ & E2). by inv_ret E2 as (n' & _ & [= <- _]). }
  assert (keeps (set_streams (Some st) c) (set_measures ms (set_streams (Some (set_socket s2 (chan st) st)) c))) as Hk.
  { split; [done| |done|done]. unfold waiting, queued. cbn. by rewrite Hs2. }
  destruct (_ =? _)%nat; [by injection E as <-|]. unfold report_frame_lost in E. destruct (_ <=? _)%nat; [|done].
  etrans; [exact Hk|]. etrans; [|by eapply control_keeps]. done.
Qed.
Lemma process_keeps now c c' : process now c = Ret c' → keeps c c'.
Proof.
  intros E. unfold process in E. destruct (negb _); [destruct (_ <=? _)%nat; by injection E as <-|].
  destruct (pop _) as [[[id_f fr]|] q]; inv_ret E as (d & _ & E); by injection E as <-.
Qed.
Lemma render_keeps now c c' : render now c = Ret c' → keeps c c'.
Proof. intros E. unfold render in E. destruct (_ && _); [inv_ret E as (d & _ & E)|]; by injection E as <-. Qed.
Lemma vsync_kept r now c c' : vsync now c = Ret c' → kept 0 r c → kept 1 r c'.
Proof.
  intros E Hk. unfold vsync in E. inv_ret E as (c1 & E1 & E). inv_ret E as (c2 & E2%process_keeps & E). inv_ret E as (c3 & E3%render_keeps & E).
  assert (keeps c c1) as K1.
  { destruct (streams c) as [st|] eqn:Est; [|by injection E1 as <-]. inv_ret E1 as (s & Es & E1). apply flush_keeps in E1. etrans; [|exact E1].
    split; [done| |done|by rewrite Est]. unfold waiting, queued. cbn. rewrite Est. by rewrite (sweep_queue _ _ _ Es). }
  eapply (schedule_kept 0 r) in E; [done|]. rewrite Nat.add_0_r. eapply kept_keeps; [|exact Hk]. do 3 (etrans; [eassumption|]). done.
Qed.
Lemma frame_keeps now wall d c c' : handle_frame nada_level now wall d c = Ret c' → keeps c c'.
Proof.
  intros E. unfold handle_frame in E. inv_ret E as (nal & _ & E). destruct (if everest_enabled _ then _ else _) as [[[cap thr] cmd] ms].
  inv_ret E as ([ms' ns] & _ & E). inv_ret E as (c1 & E1%control_keeps & E). injection E as <-. etrans; [|etrans; [exact E1|done]]. done.
Qed.
(** A reading takes a packet if there is one. *)
Lemma receive_kept v now wall c c' : video_receive_thread nada_level now wall c = Ret c' → kept v 1 c → kept v 0 c'.
Proof.
  intros E Hk. unfold video_receive_thread in E.
  assert (streams c = None → kept v 0 c) as Hoff.
  { intros Hn. destruct Hk as [H1 H2 H3]. split; [done| |done]. unfold waiting. rewrite Hn. lia. }
  destruct (is_streaming c) eqn:Hon; [|injection E as <-; by apply Hoff, Hk]. destruct (streams c) as [st|] eqn:Est; [|injection E as <-; by apply Hoff].
  inv_ret E as (c1 & E1%flush_keeps & E). inv_ret E as (st1 & Est1%unwrap_Ret & E).
  assert (keeps c c1) as K1 by (etrans; [|exact E1]; split; [done| |done|by rewrite Est]; unfold waiting; cbn; by rewrite Est).
  eapply kept_keeps in Hk as [H1 H2 H3]; [|exact K1]. unfold waiting, queued, queue_at in H2. rewrite Est1 in H2.
  destruct (stream_recv_components (streamsocket_clone st1) !! VIDEO) as [cs|] eqn:Hc; cbn in H2.
  - inv_ret E as ([[res r'] cs'] & Er%receiver_queue & E). set (c2 := set_streams _ c1) in E.
    assert (kept v 0 c2) as Hk2.
    { split; [done| |by intros Hf; rewrite H3 in Est1]. change (pending is_receive c2) with (pending is_receive c1).
      unfold waiting, queued, queue_at. cbn. rewrite lookup_insert_eq. cbn. rewrite Er. lia. }
    destruct res as [d|]; [|by injection E as <-]. apply frame_keeps in E. by eapply kept_keeps.
  - injection E as <-. split; [done| |done]. unfold waiting, queued, queue_at. rewrite Est1, Hc. cbn. lia.
Qed.
Lemma deliver_kept v r ts now p c c' : deliver fuel ts now p c = Ret c' → kept v r c → kept v (r + 1) c'.
Proof.
  intros E [H1 H2 H3]. assert (kept v (r + 1) c) as Hw by (split; [done|lia|done]).
  unfold deliver in E. destruct (streams c) as [st|] eqn:Est; [|by injection E as <-]. unfold waiting in H2. rewrite Est in H2.
  destruct (_ || _).
  - destruct (reader_recv _ _) as [x rd]. injection E as <-. split; [done| |intros Hf; by specialize (H3 Hf)]. unfold waiting. cbn. unfold pending in *. cbn. lia.
  - destruct (_ =? VIDEO); [|by injection E as <-]. inv_ret E as ([[res s'] rd'] & Er%recv_queue & E). injection E as <-.
    split; [done| |intros Hf; by specialize (H3 Hf)]. unfold waiting. cbn. unfold pending in *. cbn. lia.
Qed.
Lemma network_kept v ts ps now : ∀ c c', in_from_network fuel ts ps now c = Ret c' → kept v 0 c → kept v 0 c'.
Proof.
  induction ps as [|p ps IH]; intros c c' E Hk; cbn [in_from_network] in E; [by injection E as <-|].
  inv_ret E as (c1 & E1 & E). inv_ret E as (c2 & E2 & E). eapply deliver_kept in E1; [|exact Hk].
  eapply (schedule_kept v 0) in E2; [|exact E1]. cbn in E2. rewrite Nat.add_0_r in E2. by eapply IH.
Qed.
Lemma timer_keeps now c c' rep : nada_timer nada_level powi now c = Ret (c', rep) → ∃ ms, c' = set_measures ms c.
Proof.
  unfold nada_timer. intros E. destruct (nada_receiver _) as [n|]; [|injection E as <- _; exists (measures c); by destruct c].
  destruct (2 <=? nada_level); [|injection E as <- _; exists (measures c); by destruct c].
  inv_ret E as (t & _ & E). inv_ret E as ([n' rp] & _ & E). injection E as <- _. by eexists.
Qed.
Lemma tracking_kept v r track now c c' : generate_tracking_data nada_level powi track now c = Ret c' → kept v r c → kept v r c'.
Proof.
  intros E Hk. unfold generate_tracking_data in E. destruct (is_streaming c) eqn:Hon; [|by injection E as <-].
  inv_ret E as (d1 & _ & E). inv_ret E as (d2 & _ & E). inv_ret E as (c1 & E1 & E). inv_ret E as (dl & _ & E).
  assert (keeps c c1) as K1.
  { destruct (streams c) as [st|] eqn:Est; [|by injection E1 as <-]. inv_ret E1 as ([c2 rep] & (ms & ->)%timer_keeps & E1).
    inv_ret E1 as ([msgs tx] & _ & E1). inv_ret E1 as ([rd sent] & _ & E1). injection E1 as <-.
    split; [done| |done|by rewrite Est]. unfold waiting. cbn. by rewrite Est. }
  eapply (schedule_kept v r) in E; [by rewrite Nat.add_0_r in E|]. cbn. rewrite Nat.add_0_r. eapply kept_keeps; [|exact Hk]. etrans; [exact K1|]. done.
Qed.
Lemma configure_kept v r track n now c c' : configure_streams nada_level powi track n now c = Ret c' → pending is_vsync c = v → kept v r c'.
Proof.
  intros E Hv. unfold configure_streams in E.
  match type of E with (if _ then Ret ?x else _) = _ => assert (kept v r x) as Hk end.
  { split; [done| |done]. unfold waiting, queued, queue_at. cbn. rewrite lookup_insert_ne, lookup_insert_ne, lookup_insert_eq by done. cbn. lia. }
  destruct (no_uplink_tracking _); [by injection E as <-|]. by eapply tracking_kept.
Qed.
Lemma end_kept v r pause now c c' : session_end pause now c = Ret c' → kept v r c → kept v r c'.
Proof.
  intros E [H1 H2 H3]. unfold session_end in E. inv_ret E as (d & _ & E). eapply (schedule_kept v r) in E; [by rewrite Nat.add_0_r in E|].
  split; [done| |done]. unfold waiting. cbn. lia.
Qed.
Lemma reboot_kept v r track now c c' : session_reboot nada_level powi track now c = Ret c' → kept v r c → kept v r c'.
Proof.
  intros E [H1 H2 H3]. unfold session_reboot in E. inv_ret E as (c1 & E1 & E). eapply (configure_kept v (r + 1)) in E1; [|exact H1].
  eapply (schedule_kept v r) in E; [by rewrite Nat.add_0_r in E|exact E1].
Qed.

(** ** Runs *)
Lemma step_kept U P a b : net_step nada_level powi fuel m U P a b → kept 1 0 a.2 → kept 1 0 b.2.
Proof.
  intros Hs Hk. destruct Hs as [ts ps now now' c c' _ _ E|i e wall track now now' c c' Hl _ _ E|track now now' c c' _ _ E|pause now now' c c' _ E]; cbn [snd] in *.
  - by eapply network_kept.
  - assert (kept (1 - one (is_vsync e)) (one (is_receive e)) (drop_event i c)) as Hk'.
    { pose proof (drop_pending is_vsync i e now' c Hl) as Hv. pose proof (drop_pending is_receive i e now' c Hl) as Hr.
      destruct Hk as [H1 H2 H3]. split; [lia| |done]. change (waiting (drop_event i c)) with (waiting c). lia. }
    destruct e; cbn [handle is_vsync is_receive one Nat.sub] in *.
    + by eapply vsync_kept.
    + by eapply receive_kept.
    + unfold output_control, framed_send in E. eapply (schedule_kept 1 0) in E; done.
    + injection E as <-. by eapply kept_keeps; [|exact Hk'].
    + by eapply tracking_kept.
    + by eapply reboot_kept.
  - eapply configure_kept; [exact E|apply Hk].
  - by eapply end_kept.
Qed.
(** C20: The headset keeps up and never stops.  In every state that a headset reaches from its setup, whatever packets the network delivers
    (in any order, of any content and over any number of sessions, their ends and restarts) and as long as no handler panics, exactly
    one refresh of the display is pending, and there are at least as many readings pending
    as video packets that were put together and not yet taken. *)
Theorem receive_keeps_up now0 c0 now c : fresh m c0 → rtc (net_step nada_level powi fuel m (λ _, True) (λ _, True)) (now0, c0) (now, c) →
  pending is_vsync c = 1%nat ∧
  ∀ st cs, streams c = Some st → stream_recv_components (streamsocket_clone st) !! VIDEO = Some cs →
    (length (packet_queue cs) ≤ pending is_receive c)%nat.
Proof.
  intros [_ F2 _ _ F5] Hr. assert (kept 1 0 (now, c).2) as [K1 K2 _].
  { assert (kept 1 0 (now0, c0).2) as H0 by (split; [done| |done]; unfold waiting; cbn; rewrite F2; lia). revert H0.
    induction Hr as [|a b b' Hs _ IH]; [done|]. intros Ha. eapply IH, step_kept; done. }
  split; [exact K1|]. intros st cs Hst Hc. cbn [snd] in K2. unfold waiting, queued, queue_at, queue_length in K2. rewrite Hst, Hc in K2. cbn in K2. lia.
Qed.
End client.
End KeepsUp.

(** ** Two sessions, the second with a late shard of the first *)
Module KeepsUpDemo.
Import Socket Shards FrameDeadlines.SocketDemo Client ClientFacts ClientDemo KeepsUp Keyframe.Keyframe.KeyframeDemo.
#[local] Existing Instance naive_memmem.
#[local] Existing Instance ClientDemo.demo_bincode.
(** Frame 5 of the second session has other bytes. *)
Definition other_frame : list Z := replicate VIDEO_HEADER_SIZE 1 ++ [9; 10].
Definition other_mpdu (i : nat) : Mpdu :=
  mkMpdu (shard 10 VIDEO 5 demo_stamp other_frame i) 1000 (mkHeader 32 VIDEO 5 2 (Z.of_nat i) demo_stamp None) Edca.Video.
Definition ended : XRClient mono := get (session_end (F32.of_Z 1) (at_us 20) demo2) demo2.
Definition restarted : XRClient mono := get (configure_streams 0 demo_powi demo_track 32 (at_us 30) ended) ended.
Definition mixed : XRClient mono := get (in_from_network 2 (at_us 40) [demo_mpdu 5 1; other_mpdu 0] (at_us 40) restarted) restarted.
Lemma mixed_reach : rtc (net_step 0 demo_powi 2 10 (λ _, True) (λ _, True)) (at_us 0, demo0) (at_us 40, mixed).
Proof.
  eapply rtc_l; [apply (Starts _ _ _ _ _ _ demo_track (at_us 0) (at_us 1) demo0 demo1); [vm_compute; done|done|vm_compute; reflexivity]|].
  eapply rtc_l; [apply (Arrives _ _ _ _ _ _ (at_us 10) [demo_mpdu 5 1; demo_mpdu 5 0; demo_mpdu 1 0; demo_mpdu 1 1] (at_us 1) (at_us 10) demo1 demo2);
    [vm_compute; done|by apply Forall_true|vm_compute; reflexivity]|].
  eapply rtc_l; [apply (Ends _ _ _ _ _ _ (F32.of_Z 1) (at_us 10) (at_us 20) demo2 ended); [vm_compute; done|vm_compute; reflexivity]|].
  eapply rtc_l; [apply (Starts _ _ _ _ _ _ demo_track (at_us 20) (at_us 30) ended restarted); [vm_compute; done|done|vm_compute; reflexivity]|].
  eapply rtc_once, (Arrives _ _ _ _ _ _ (at_us 40) [demo_mpdu 5 1; other_mpdu 0] (at_us 30) (at_us 40) restarted mixed);
    [vm_compute; done|by apply Forall_true|vm_compute; reflexivity].
Qed.
Lemma receive_keeps_up_witness : pending is_vsync mixed = 1%nat ∧ waiting mixed = 1%nat ∧ pending is_receive mixed = 6%nat.
Proof.
  split; [|vm_compute; done]. apply (receive_keeps_up 0 demo_powi 2 10 (at_us 0) demo0 (at_us 40) mixed headset_fresh mixed_reach).
Defined.
(** The packet that was put together is none that was sent: the numbers of the sessions are the same. *)
Example sessions_mix : ∃ st cs p, streams mixed = Some st ∧ stream_recv_components (streamsocket_clone st) !! VIDEO = Some cs ∧
  packet_queue cs = [p] ∧ take (rp_size p - SHARD_PREFIX_SIZE) (drop SHARD_PREFIX_SIZE (rp_buffer p)) = take 10 other_frame ++ drop 10 (demo_frame 5).
Proof. eexists _, _, _. repeat (split; [vm_compute; reflexivity|]). vm_compute. reflexivity. Qed.
End KeepsUpDemo.
