(* ===== verification/Channel.v ===== *)
(** * Waiting senders and receiver: [src/channel.rs]

    A channel is the lock-free queue of [channel/queue.rs] and two signals: a sender that
    finds the queue full waits for [sender_signal], the receiver that finds it empty for
    [receiver_signal].  The queue is taken as its specification ([MpscFacts.spec_step], of
    which [mpsc_refines_fifo] shows that the code meets it), so that every access of a
    thread to it is a step.  The crates [async_event] and [diatomic_waker] are taken as they
    are documented: [wait_until] evaluates its predicate, registers, evaluates it again and
    sleeps until it is notified; [notify_one] wakes a registered waiter if there is one.

    [channel_never_stuck]: with a capacity of two or more, when the receiver sleeps, every sender is idle or asleep and no
    notification of the receiver is due, then no
    sender waits and the queue is empty and open.  (States in which the receiver has finished or was dropped are not covered.)  [capacity_one_stuck]: with a capacity of
    one this fails, since the receiver notifies a sender when it takes a message, but the
    slot is freed only after the message was executed. *)

From S2P Require Import Prelude MpscQueue MpscFacts.

Module Channel.
Import Mpsc MpscFacts.

Section channel.
Context {M : Type}.

(** ** Threads *)
(** A sender in [Sender::send]. *)
Inductive sender :=
| SIdle
| STry (m : M)  (* about to call [push] *)
| SCheck (m : M)  (* registered, about to call [push] once more *)
| SWait (m : M)  (* asleep *)
| SReserved  (* in [push], its position taken *)
| SNotify.  (* pushed, about to notify the receiver *)
(** The receiver in [Receiver::recv]. *)
Inductive receiver :=
| RPoll  (* about to call [pop] *)
| RMissed
| RCheck  (* registered, about to call [pop] once more *)
| RCheckMissed
| RWait  (* asleep *)
| RCalled (m : M)  (* [call_once] done, about to notify a sender *)
| RAwait (m : M)  (* awaiting the message's future, the slot still borrowed *)
| RDone.  (* told that the channel is closed, or dropped *)
(** [due_senders], [due_receiver]: the notifications that a [close] has still to send. *)
Record Chan := mkChan {
  queue : Spec M;
  senders : gmap nat sender;
  rx : receiver;
  due_senders : bool;
  due_receiver : bool
}.
Definition state_of (st : gmap nat sender) (i : nat) : sender := default SIdle (st !! i).
(** A notification of the receiver, of a sender, and of all senders. *)
Definition wake_rx (r : receiver) : receiver :=
  match r with RCheck | RCheckMissed | RWait => RPoll | r => r end.
Definition wake_tx (s : sender) : sender := match s with SCheck m | SWait m => STry m | s => s end.
Definition registered (s : sender) : bool := match s with SCheck _ | SWait _ => true | _ => false end.
Inductive notify_one (st : gmap nat sender) : gmap nat sender → Prop :=
| notify_some i : registered (state_of st i) = true → notify_one st (<[i := wake_tx (state_of st i)]> st)
| notify_none : (∀ i, registered (state_of st i) = false) → notify_one st st.
Definition notify_all (st : gmap nat sender) : gmap nat sender := wake_tx <$> st.

(** ** Steps, with what they do to the queue *)
Context (cap : nat).
(** [Sender::send] *)
Inductive send_step : Chan → list (event M) → Chan → Prop :=
| Send i m q st r a b : state_of st i = SIdle → send_step (mkChan q st r a b) [] (mkChan q (<[i := STry m]> st) r a b)
| Reserve i m q q' st r a b : state_of st i = STry m ∨ state_of st i = SCheck m → spec_step cap q (EReserve i m) q' →
    send_step (mkChan q st r a b) [EReserve i m] (mkChan q' (<[i := SReserved]> st) r a b)
| Commit i q q' st r a b : state_of st i = SReserved → spec_step cap q (ECommit i) q' →
    send_step (mkChan q st r a b) [ECommit i] (mkChan q' (<[i := SNotify]> st) r a b)
| Full i m q q' st r a b : state_of st i = STry m → spec_step cap q (EFull i) q' →
    send_step (mkChan q st r a b) [EFull i] (mkChan q' (<[i := SCheck m]> st) r a b)
| FullAgain i m q q' st r a b : state_of st i = SCheck m → spec_step cap q (EFull i) q' →
    send_step (mkChan q st r a b) [EFull i] (mkChan q' (<[i := SWait m]> st) r a b)
| SendClosed i m q q' st r a b : state_of st i = STry m ∨ state_of st i = SCheck m → spec_step cap q (EPushClosed i) q' →
    send_step (mkChan q st r a b) [EPushClosed i] (mkChan q' (<[i := SIdle]> st) r a b)
| Notify i q st r a b : state_of st i = SNotify → send_step (mkChan q st r a b) [] (mkChan q (<[i := SIdle]> st) (wake_rx r) a b).
(** [Receiver::recv] *)
Inductive recv_step : Chan → list (event M) → Chan → Prop :=
| Pop m q q' st r a b : r = RPoll ∨ r = RCheck → spec_step cap q (EPop m) q' →
    recv_step (mkChan q st r a b) [EPop m] (mkChan q' st (RCalled m) a b)
| Miss r r' q q' st a b : (r, r') = (RPoll, RMissed) ∨ (r, r') = (RCheck, RCheckMissed) → spec_step cap q EMiss q' →
    recv_step (mkChan q st r a b) [EMiss] (mkChan q' st r' a b)
| Empty r r' q q' st a b : (r, r') = (RMissed, RCheck) ∨ (r, r') = (RCheckMissed, RWait) → spec_step cap q EEmpty q' →
    recv_step (mkChan q st r a b) [EEmpty] (mkChan q' st r' a b)
| RecvClosed r q q' st a b : r = RMissed ∨ r = RCheckMissed → spec_step cap q EPopClosed q' →
    recv_step (mkChan q st r a b) [EPopClosed] (mkChan q' st RDone a b)
| NotifyOne m q st st' a b : notify_one st st' → recv_step (mkChan q st (RCalled m) a b) [] (mkChan q st' (RAwait m) a b)
| Release m q q' st a b : spec_step cap q ERelease q' → recv_step (mkChan q st (RAwait m) a b) [ERelease] (mkChan q' st RPoll a b).
(** [Sender::close], the drop of the last sender, [Receiver::close], the drop of the receiver (between messages), and the
    notifications that follow. *)
Inductive close_step : Chan → list (event M) → Chan → Prop :=
| SenderClose q q' st r a b : spec_step cap q EClose q' → close_step (mkChan q st r a b) [EClose] (mkChan q' st r true true)
| LastDrop q q' st r a b : (∀ i, state_of st i = SIdle) → spec_step cap q EClose q' →
    close_step (mkChan q st r a b) [EClose] (mkChan q' st r a true)
| ReceiverClose q q' st a b : spec_step cap q EClose q' → close_step (mkChan q st RPoll a b) [EClose] (mkChan q' st RPoll true b)
| ReceiverDrop q q' st r a b : (∀ m, r ≠ RCalled m ∧ r ≠ RAwait m) → spec_step cap q EClose q' → close_step (mkChan q st r a b) [EClose] (mkChan q' st RDone true b)
| NotifySenders q st r b : close_step (mkChan q st r true b) [] (mkChan q (notify_all st) r false b)
| NotifyReceiver q st r a : close_step (mkChan q st r a true) [] (mkChan q st (wake_rx r) a false).
Definition chan_step (c : Chan) (es : list (event M)) (c' : Chan) : Prop := send_step c es c' ∨ recv_step c es c' ∨ close_step c es c'.
Inductive chan_run : Chan → list (event M) → Chan → Prop :=
| run_nil c : chan_run c [] c
| run_step c es c' es' c'' : chan_run c es c' → chan_step c' es' c'' → chan_run c (es ++ es') c''.
Definition chan_start : Chan := mkChan spec_start ∅ RPoll false false.

(** ** The queue of a run is one of its specification *)
Lemma run_spec c es c' : chan_run c es c' → spec_run cap (queue c) es (queue c').
Proof.
  induction 1 as [|c es c' es' c'' _ IH Hs]; [constructor|]. eapply spec_run_app; [done|].
  destruct Hs as [Hs|[Hs|Hs]]; destruct Hs; cbn in *; try constructor; (econstructor; [done|constructor]).
Qed.

(** ** The invariant *)
Definition active (s : sender) : bool := match s with STry _ | SCheck _ => true | _ => false end.
Definition uncommitted (q : Spec M) : list nat := omap (λ e : nat * M * bool, if e.2 then None else Some e.1.1) (items q).
#[local] Arguments uncommitted : simpl never.
Record chan_inv (c : Chan) : Prop := mkChanInv {
  i_active : ∀ i m, state_of (senders c) i = SWait m → items (queue c) ≠ [] ∨ (∃ m, rx c = RCalled m) ∨ closed (queue c) = true ∨
    ∃ j, active (state_of (senders c) j) = true;
  i_rx : rx c = RCheckMissed ∨ rx c = RWait → ∀ i m l, items (queue c) = (i, m, true) :: l → ∃ j, state_of (senders c) j = SNotify;
  i_reserved : ∀ i, i ∈ uncommitted (queue c) → state_of (senders c) i = SReserved;
  i_once : NoDup (uncommitted (queue c));
  i_closed : rx c = RWait → closed (queue c) = true → items (queue c) ≠ [] ∨ due_receiver c = true
}.
Lemma state_insert st i s j : state_of (<[i := s]> st) j = if decide (i = j) then s else state_of st j.
Proof. unfold state_of. destruct (decide (i = j)) as [->|Hn]; [by rewrite lookup_insert_eq|by rewrite lookup_insert_ne]. Qed.
Lemma state_all st i : state_of (notify_all st) i = wake_tx (state_of st i).
Proof. unfold state_of, notify_all. rewrite lookup_fmap. by destruct (st !! i). Qed.
Lemma inv_start : chan_inv chan_start.
Proof. split; cbn; try done; try (by intros []); [|constructor]. intros i Hi. by apply elem_of_nil in Hi. Qed.
(** A sender that moves without changing the queue, not out of [push] and not from its notification. *)
Lemma inv_move i s q st r a b : chan_inv (mkChan q st r a b) → state_of st i ≠ SReserved → state_of st i ≠ SNotify →
  (∀ m, s = SWait m → items q ≠ []) → (active (state_of st i) = true → active s = true ∨ items q ≠ [] ∨ closed q = true) →
  chan_inv (mkChan q (<[i := s]> st) r a b).
Proof.
  intros [I1 I2 I3 I4 I5] Hr Hn Hw Ha. cbn in *. split; cbn; try done.
  - intros k m. rewrite state_insert. destruct (decide (i = k)) as [->|Hk]; [intros Hs; left; by eapply Hw|].
    intros [?|[?|[?|(j & Hj)]]]%I1; [by left|by right; left|by right; right; left|]. destruct (decide (i = j)) as [->|Hne].
    + destruct (Ha Hj) as [Hs|[?|?]]; [|by left|by right; right; left]. right. right. right. exists j. by rewrite state_insert, decide_True.
    + right. right. right. exists j. by rewrite state_insert, decide_False.
  - intros Hx k m l Hi. destruct (I2 Hx k m l Hi) as (j & Hj). exists j. rewrite state_insert, decide_False; [done|]. congruence.
  - intros k Hk. rewrite state_insert, decide_False; [by apply I3|]. intros ->. by destruct Hr; apply I3.
Qed.
(** Moves of the receiver that leave the queue alone and do not put it to sleep. *)
Lemma inv_rx q st r r' a b b' : chan_inv (mkChan q st r a b) → ((∃ m, r = RCalled m) → r' = r) → r' ≠ RCheckMissed ∧ r' ≠ RWait ∨ r' = r ∧ (b = true → b' = true) →
  chan_inv (mkChan q st r' a b').
Proof.
  intros [I1 I2 I3 I4 I5] Hc Hr. cbn in *. split; cbn; try done.
  - intros i m [?|[(m' & Hm)|[?|?]]]%I1; [by left| |by right; right; left|by right; right; right]. right. left. exists m'. rewrite <-Hm. apply Hc. by exists m'.
  - destruct Hr as [[? ?]|[-> _]]; [naive_solver|done].
  - destruct Hr as [[? ?]|[-> Hb]]; [naive_solver|]. intros ? ?. destruct I5 as [?|?]; [done..|by left|by right; apply Hb].
Qed.
Lemma registered_wait s m : s = SWait m → registered s = true.
Proof. by intros ->. Qed.
Lemma send_inv c es c' : (2 ≤ cap)%nat → send_step c es c' → chan_inv c → chan_inv c'.
Proof.
  intros Hcap Hs Hi. destruct Hs as [i m q st r a b Es|i m q q' st r a b Es Eq|i q q' st r a b Es Eq|i m q q' st r a b Es Eq|i m q q' st r a b Es Eq
    |i m q q' st r a b Es Eq|i q st r a b Es].
  - (* Send *) apply inv_move; rewrite ?Es; done.
  - (* Reserve *) inversion Eq as [l bo i' m' Hocc| | | | | | | | |]; subst. destruct Hi as [I1 I2 I3 I4 I5]. cbn in *.
    assert (uncommitted (mkSpec (l ++ [(i, m, false)]) bo false) = uncommitted (mkSpec l bo false) ++ [i]) as Hu by (unfold uncommitted; cbn; by rewrite omap_app).
    assert (i ∉ uncommitted (mkSpec l bo false)) as Hni by (intros Hx%I3; destruct Es; congruence).
    split; cbn; try done.
    + intros k mk _. left. by destruct l.
    + intros Hx k mk l' El. assert (∃ l0, l = (k, mk, true) :: l0) as (l0 & ->) by (destruct l; [done|]; injection El as -> _; by eexists).
      destruct (I2 Hx _ _ _ eq_refl) as (j & Hj). exists j. rewrite state_insert, decide_False; [done|]. destruct Es; congruence.
    + intros k. rewrite Hu, elem_of_app, list_elem_of_singleton, state_insert. intros [Hk| ->]; [|by rewrite decide_True]. rewrite decide_False by (by intros ->). by apply I3.
    + rewrite Hu. apply NoDup_app. split_and!; [done|set_solver|apply NoDup_singleton].
  - (* Commit *) inversion Eq as [|l1 l2 bo cl i' m| | | | | | | |]; subst. destruct Hi as [I1 I2 I3 I4 I5]. cbn in *.
    assert (uncommitted (mkSpec (l1 ++ (i, m, false) :: l2) bo cl) ≡ₚ i :: uncommitted (mkSpec (l1 ++ (i, m, true) :: l2) bo cl)) as Hu.
    { unfold uncommitted. cbn. rewrite !omap_app. cbn. by rewrite Permutation_middle. }
    rewrite Hu in I4. apply NoDup_cons in I4 as [Hni I4]. split; cbn; try done.
    + intros k mk _. left. by destruct l1.
    + intros _ _ _ _ _. exists i. by rewrite state_insert, decide_True.
    + intros k Hk. rewrite state_insert, decide_False by (by intros ->). apply I3. rewrite Hu. by right.
    + intros Hx Hc. left. by destruct l1.
  - (* Full *) inversion Eq; subst. apply inv_move; rewrite ?Es; try done. by left.
  - (* FullAgain *) inversion Eq as [| |q0 i' Hocc| | | | | | |]; subst q0 i' q'.
    assert (items q ≠ []) as Hne by (intros Hx; unfold occupied in Hocc; rewrite Hx in Hocc; cbn in Hocc; destruct (borrowed q); lia).
    apply inv_move; rewrite ?Es; try done. by right; left.
  - (* SendClosed *) inversion Eq as [| | |q0 i' Hc| | | | | |]; subst q0 i' q'. apply inv_move; [done|destruct Es; congruence..|done|]. by right; right.
  - (* Notify *) destruct Hi as [I1 I2 I3 I4 I5]. cbn in *.
    assert (wake_rx r ≠ RCheckMissed ∧ wake_rx r ≠ RWait) as [Hx Hy] by (by destruct r). split; cbn; try done; [|naive_solver|].
    + intros k m. rewrite state_insert. destruct (decide (i = k)); [done|].
      intros [?|[(m' & ->)|[?|(j & Hj)]]]%I1; [by left|right; left; by exists m'|by right; right; left|]. right. right. right. exists j.
      rewrite state_insert, decide_False; [done|]. intros ->. by rewrite Es in Hj.
    + intros k Hk. rewrite state_insert, decide_False; [by apply I3|]. intros ->. apply I3 in Hk. congruence.
Qed.
Lemma receive_step_inv c es c' : recv_step c es c' → chan_inv c → chan_inv c'.
Proof.
  intros Hs Hi. destruct Hs as [m q q' st r a b Er Eq|r r' q q' st a b Er Eq|r r' q q' st a b Er Eq|r q q' st a b Er Eq|m q st st' a b Hn|m q q' st a b Eq].
  - (* Pop *) inversion Eq as [| | | | |l cl i' m'| | | |]; subst. destruct Hi as [I1 I2 I3 I4 I5]. split; cbn; try done; [|naive_solver].
    intros k mk _. right. left. by exists m.
  - (* Miss *) inversion Eq as [| | | |q0 Hm| | | | |]; subst q0 q'. destruct Er as [[= -> ->]|[= -> ->]]; [apply (inv_rx q st RPoll _ a b); [done|by intros []|by left]|].
    destruct Hi as [I1 I2 I3 I4 I5]. split; cbn in *; try done.
    + intros i m [?|[(? & ?)|?]]%I1; [by left|done|by right; right].
    + intros _ i m l El. destruct (Hm i m). by rewrite El.
  - (* Empty *) inversion Eq as [| | | | | |q0 He| | |]; subst q0 q'. destruct Er as [[= -> ->]|[= -> ->]]; [apply (inv_rx q st RMissed _ a b); [done|by intros []|by left]|].
    destruct Hi as [I1 I2 I3 I4 I5]. split; cbn in *; try done.
    + intros i m [?|[(? & ?)|?]]%I1; [by left|done|by right; right].
    + intros _. apply I2. by left.
    + intros _ Hc. destruct He; [by left|congruence].
  - (* RecvClosed *) inversion Eq; subst. eapply inv_rx; [done| |by left]. intros []. destruct Er; congruence.
  - (* NotifyOne *) destruct Hi as [I1 I2 I3 I4 I5]. cbn in *. inversion Hn as [i Hr Est|Hr Est]; subst st'.
    + split; cbn; try done; [|naive_solver|].
      * intros k mk _. right. right. right. exists i. rewrite state_insert, decide_True by done. by destruct (state_of st i).
      * intros k Hk%I3. rewrite state_insert. destruct (decide (i = k)) as [->|]; [by rewrite Hk in Hr|done].
    + split; cbn; try done; [|naive_solver]. intros k mk Hk. specialize (Hr k). by rewrite Hk in Hr.
  - (* Release *) inversion Eq as [| | | | | | | |l cl|]; subst. destruct Hi as [I1 I2 I3 I4 I5]. split; cbn in *; try done; [|naive_solver].
    intros i mi [?|[(? & ?)|?]]%I1; [by left|done|by right; right].
Qed.
Lemma close_inv c es c' : close_step c es c' → chan_inv c → chan_inv c'.
Proof.
  intros Hs Hi. destruct Hs as [q q' st r a b Eq|q q' st r a b Es Eq|q q' st a b Eq|q q' st r a b Er Eq|q st r b|q st r a].
  - (* SenderClose *) inversion Eq; subst. destruct Hi as [I1 I2 I3 I4 I5]. split; cbn in *; try done; [|by right]. intros. by right; right; left.
  - (* LastDrop *) inversion Eq; subst. destruct Hi as [I1 I2 I3 I4 I5]. split; cbn in *; try done; [|by right]. intros. by right; right; left.
  - (* ReceiverClose *) inversion Eq; subst. destruct Hi as [I1 I2 I3 I4 I5]. split; cbn in *; try done. intros. by right; right; left.
  - (* ReceiverDrop *) inversion Eq; subst. destruct Hi as [I1 I2 I3 I4 I5]. split; cbn in *; try done; [|naive_solver]. intros. by right; right; left.
  - (* NotifySenders *) destruct Hi as [I1 I2 I3 I4 I5]. cbn in *. split; cbn; try done.
    + intros k mk. rewrite state_all. by destruct (state_of st k).
    + intros Hx i m l El. destruct (I2 Hx i m l El) as (j & Hj). exists j. by rewrite state_all, Hj.
    + intros k Hk%I3. by rewrite state_all, Hk.
  - (* NotifyReceiver *) eapply inv_rx; [done|by intros (m & ->)|]. left. by destruct r.
Qed.
Lemma run_inv es c : (2 ≤ cap)%nat → chan_run chan_start es c → chan_inv c.
Proof.
  intros Hcap. remember chan_start as c0 eqn:E0. induction 1 as [|c es c' es' c'' _ IH Hs]; subst; [apply inv_start|]. specialize (IH eq_refl).
  destruct Hs as [Hs|[Hs|Hs]]; [by eapply send_inv|by eapply receive_step_inv|by eapply close_inv].
Qed.

(** The receiver sleeps, every sender is idle or asleep, and no notification of the receiver is due. *)
Definition quiet (c : Chan) : Prop :=
  rx c = RWait ∧ due_receiver c = false ∧ ∀ i, state_of (senders c) i = SIdle ∨ ∃ m, state_of (senders c) i = SWait m.
(** C19: A channel with a capacity of two or more never gets stuck while its receiver waits.  Whatever the
    interleaving of senders, receiver and closing, when the receiver sleeps (it has neither finished nor been dropped), every sender is
    idle or asleep and no notification of the receiver is due, then no sender is asleep, and the queue is
    open and empty: everything that was sent was executed. *)
Theorem channel_never_stuck es c : (2 ≤ cap)%nat → chan_run chan_start es c → quiet c →
  (∀ i, state_of (senders c) i = SIdle) ∧ items (queue c) = [] ∧ closed (queue c) = false ∧ reserved es = popped es.
Proof.
  intros Hcap Hr (Hx & Hd & Hq). pose proof (run_inv _ _ Hcap Hr) as [I1 I2 I3 I4 I5].
  assert (items (queue c) = []) as He.
  { destruct (items (queue c)) as [|[[i m] [|]] l] eqn:El; [done|exfalso..].
    - destruct (I2 (or_intror Hx) _ _ _ eq_refl) as (j & Hj). destruct (Hq j) as [?|[? ?]]; congruence.
    - assert (i ∈ uncommitted (queue c)) as Hi%I3 by (unfold uncommitted; rewrite El; cbn; left). destruct (Hq i) as [?|[? ?]]; congruence. }
  assert (closed (queue c) = false) as Hc by (destruct (closed (queue c)); [|done]; destruct (I5 Hx eq_refl); congruence).
  split_and!; [|done|done|].
  - intros i. destruct (Hq i) as [?|[m Hm]]; [done|]. destruct (I1 i m Hm) as [?|[[? ?]|[?|(j & Hj)]]]; [congruence..|].
    destruct (Hq j) as [Hj'|[? Hj']]; by rewrite Hj' in Hj.
  - apply run_spec, spec_run_fifo in Hr. unfold messages in Hr. rewrite He in Hr. cbn in Hr. by rewrite (app_nil_r (popped es)) in Hr.
Qed.
End channel.
Arguments sender : clear implicits.
Arguments receiver : clear implicits.
Arguments Chan : clear implicits.

(** ** Two runs *)
Section runs.
Context {M : Type} (m m' : M).
(** One more step of a run. *)
Tactic Notation "next" hyp(R) uconstr(s) "with" tactic3(t) :=
  eapply run_step in R; [|first [left; eapply s|right; left; eapply s|right; right; eapply s]; first [reflexivity|by left|by right|t]]; cbn in R.
(** Sender 0 sends [m]; nothing else happens until it is executed. *)
Lemma one_message cap : (1 ≤ cap)%nat → ∃ es c, chan_run cap chan_start es c ∧ quiet c ∧ popped es = [m].
Proof.
  intros Hcap. pose proof (run_nil cap (chan_start (M := M))) as R.
  change (chan_start (M := M)) with (mkChan (mkSpec (M := M) [] false false) ∅ RPoll false false) in R at 2.
  next R (Send cap 0 m) with done. next R (Reserve cap 0 m) with (apply spec_reserve; cbn; lia).
  next R (Commit cap 0) with (apply (spec_commit cap [] [] false false 0 m)). next R (Notify cap 0) with done. next R (Pop cap m) with constructor.
  assert (∀ i, state_of (<[0%nat:=SIdle]> (<[0%nat:=SNotify]> (<[0%nat:=SReserved]> (<[0%nat:=STry m]> ∅)))) i = SIdle) as Hidle.
  { intros i. rewrite !state_insert. by destruct (decide (0%nat = i)). }
  next R (NotifyOne cap m) with (apply notify_none; intros i; by rewrite Hidle).
  next R (Release cap m) with constructor. next R (Miss cap RPoll RMissed) with (by constructor). next R (Empty cap RMissed RCheck) with (constructor; by right).
  next R (Miss cap RCheck RCheckMissed) with (by constructor). next R (Empty cap RCheckMissed RWait) with (constructor; by right).
  eexists _, _. split; [exact R|]. split; [|done]. split_and!; [done..|]. intros i. left. apply Hidle.
Qed.
(** C37: With a capacity of one a channel can get stuck.  Sender 1 waits since the message of
    sender 0 fills the queue; the receiver takes that message and notifies sender 1, which
    finds the slot still taken while the message is executed, and sleeps again.  When the
    slot is freed nobody is notified: the receiver sleeps on an empty queue, and sender 1
    with a message to send. *)
Theorem capacity_one_stuck : ∃ es c, chan_run 1 (chan_start (M := M)) es c ∧ quiet c ∧ items (queue c) = [] ∧ closed (queue c) = false ∧
  state_of (senders c) 1 = SWait m'.
Proof.
  pose proof (run_nil 1 (chan_start (M := M))) as R.
  change (chan_start (M := M)) with (mkChan (mkSpec (M := M) [] false false) ∅ RPoll false false) in R at 2.
  next R (Send 1 0 m) with done. next R (Reserve 1 0 m) with (apply spec_reserve; cbn; lia).
  next R (Commit 1 0) with (apply (spec_commit 1 [] [] false false 0 m)). next R (Notify 1 0) with done.
  next R (Send 1 1 m') with done. next R (Full 1 1 m') with (by constructor). next R (FullAgain 1 1 m') with (by constructor).
  next R (Pop 1 m) with constructor. next R (NotifyOne 1 m) with (apply (notify_some _ 1); reflexivity).
  next R (Full 1 1 m') with (by constructor). next R (FullAgain 1 1 m') with (by constructor).
  next R (Release 1 m) with constructor. next R (Miss 1 RPoll RMissed) with (by constructor). next R (Empty 1 RMissed RCheck) with (constructor; by right).
  next R (Miss 1 RCheck RCheckMissed) with (by constructor). next R (Empty 1 RCheckMissed RWait) with (constructor; by right).
  eexists _, _. split; [exact R|]. split; [|done]. split_and!; [done..|]. intros i. cbn. rewrite !state_insert.
  destruct (decide (1%nat = i)); [right; by exists m'|]. left. by destruct (decide (0%nat = i)).
Qed.
End runs.
Lemma channel_never_stuck_witness : ∃ es c, chan_run 2 (chan_start (M := Z)) es c ∧ quiet c ∧ popped es = [7] ∧ reserved es = [7] ∧ items (queue c) = [].
Proof.
  destruct (one_message 7 2) as (es & c & Hr & Hq & Hp); [lia|]. exists es, c.
  destruct (channel_never_stuck 2 es c (le_n 2) Hr Hq) as (_ & He & _ & Hres). rewrite <-Hp. by split_and!.
Defined.
End Channel.
