(* ===== verification/Task.v ===== *)
(** * Tasks of the executors: [src/executor/task.rs], [task/runnable.rs], [task/promise.rs],
    [task/cancel_token.rs]

    A task is a future, one atomic word and a scheduling function, shared by its [Waker]s,
    its [Promise], its [CancelToken] and, while it is scheduled, its [Runnable].  The word has
    the flags [POLLING] and [CLOSED], a count of references and a count of wake-ups; its
    value alone decides who may touch the future or its output, who drops them and who frees
    the task.

    Every handle is an actor, and so is every operation in progress, with its program
    counter.  A step is one access to the word or one use of the future or output, so
    that a run is any interleaving of any number of threads.  What Rust leaves undefined is
    [Panic]: to touch a task that was freed, to drop or read what is not there.  The
    events are logged for the theorems, which are in [TaskFacts.v]. *)

From S2P Require Import Prelude.

Module Task.

Definition POLLING : Z := Z.shiftl 1 0.
Definition CLOSED : Z := Z.shiftl 1 1.
Definition REF_INC : Z := Z.shiftl 1 2.
Definition WAKE_INC : Z := Z.shiftl 1 33.
(** [!x] on a [u64]. *)
Definition not64 (x : Z) : Z := U64_MAX - x.
Definition REF_MASK : Z := Z.land (not64 (REF_INC - 1)) (WAKE_INC - 1).
Definition WAKE_MASK : Z := not64 (WAKE_INC - 1).
Definition REF_CRITICAL : Z := Z.land (REF_MASK / 2) REF_MASK.
Definition WAKE_CRITICAL : Z := Z.land (WAKE_MASK / 2) WAKE_MASK.

Definition runnable_exists (state : Z) : bool :=
  negb (Z.land state POLLING =? 0) && negb (Z.land state (Z.lor WAKE_MASK CLOSED) =? 0).

(** The union of the future and its output. *)
Inductive TaskCore := future | output | uninit.
#[export] Instance TaskCore_eq_dec : EqDecision TaskCore.
Proof. solve_decision. Defined.

(** What happened to the task: a wake-up, the start of a poll, the future dropped, its output
    stored, dropped or moved out, the task freed. *)
Inductive event := EWake | EPoll | EDropFuture | EOutput | EDropOutput | ETake | EFree.
#[export] Instance event_eq_dec : EqDecision event.
Proof. solve_decision. Defined.

(** [allocated], [log] and [panics], the number of panics of [clone_waker] and [wake] on too
    large a count, are not in the code. *)
Record Task := mkTask {
  state : Z;
  core : TaskCore;
  allocated : bool;
  log : list event;
  panics : Z
}.

(** ** Handles, and operations in progress *)
Inductive actor :=
| Waker
| Promise
| CancelToken
| Runnable
| Scheduling  (* [wake]: about to create the [Runnable] *)
| Polling (wake_count : Z)  (* [run]: in [fut.poll] *)
| Completing  (* about to drop the future and store its output *)
| Publishing  (* about to clear [POLLING] if the output can be published *)
| Discarding  (* about to drop the output *)
| Clearing  (* about to clear [POLLING] *)
| Suspending (wake_count : Z)  (* about to reset the wake count *)
| Forsaken  (* about to drop the future of a task without references *)
| Cancelling  (* [cancel] of a [Runnable]: about to drop the future *)
| Closing  (* its drop guard *)
| Taking  (* [poll] of a [Promise]: about to move the output out *)
| TokenDropping  (* [cancel] of a [CancelToken]: about to drop the future *)
| TokenReleasing  (* its drop guard *)
| Dropping (c : TaskCore)  (* last reference: about to drop what the task holds *)
| Deallocating.  (* about to free the task *)
#[export] Instance actor_eq_dec : EqDecision actor.
Proof. solve_decision. Defined.

(** What the owner of a handle asks for, and how the user's code in an operation goes on. *)
Inductive op := Clone | WakeByVal | WakeByRef | Drop | Poll | Cancel | Run | Go | Ready | Pending | Unwind.

(** ** The memory of the task *)
Definition with_state (t : Task) (s : Z) : Task := mkTask s (core t) (allocated t) (log t) (panics t).
Definition record (t : Task) (e : event) : Task := mkTask (state t) (core t) (allocated t) (e :: log t) (panics t).
Definition panicked (t : Task) : Task := mkTask (state t) (core t) (allocated t) (log t) (panics t + 1).
(** Reads and writes of the word: the value read and the task after. *)
Definition load (t : Task) : outcome Z := if allocated t then Ret (state t) else Panic.
Definition fetch_add (t : Task) (d : Z) : outcome (Z * Task) :=
  s ← load t; Ret (s, with_state t (wrap 64 (s + d))).
Definition fetch_sub (t : Task) (d : Z) : outcome (Z * Task) := fetch_add t (- d).
Definition fetch_and (t : Task) (m : Z) : outcome (Z * Task) :=
  s ← load t; Ret (s, with_state t (Z.land s m)).
Definition fetch_update (t : Task) (f : Z → option Z) : outcome (result Z Z * Task) :=
  s ← load t; Ret (match f s with Some s' => (Ok s, with_state t s') | None => (Err s, t) end).
(** Uses of the union: the field [c] must be the one that is there. *)
Definition take (t : Task) (c : TaskCore) (e : event) : outcome Task :=
  if allocated t && bool_decide (core t = c)
  then Ret (mkTask (state t) uninit true (e :: log t) (panics t)) else Panic.
Definition store_output (t : Task) : outcome Task :=
  if allocated t && bool_decide (core t = uninit)
  then Ret (mkTask (state t) output true (EOutput :: log t) (panics t)) else Panic.
Definition drop_future (t : Task) : outcome Task := take t future EDropFuture.
Definition drop_output (t : Task) : outcome Task := take t output EDropOutput.
Definition dealloc (t : Task) : outcome Task :=
  if allocated t then Ret (mkTask (state t) (core t) false (EFree :: log t) (panics t)) else Panic.

(** ** Wakers *)
Definition clone_waker (t : Task) : outcome (Task * list actor) :=
  '(s, t) ← fetch_add t REF_INC;
  if REF_CRITICAL <? Z.land s REF_MASK then Ret (panicked t, []) else Ret (t, [Waker]).

(** The state before, or nothing after a panic; the [Runnable] is created and scheduled in a
    step of its own, which reads [schedule_fn] and [tag]. *)
Definition wake (t : Task) (state_delta : Z) : outcome (option Z * Task * list actor) :=
  '(s, t) ← fetch_add t state_delta;
  let t := record t EWake in
  if WAKE_CRITICAL <? Z.land s WAKE_MASK then Ret (None, panicked t, [])
  else if Z.land s (Z.lor (Z.lor WAKE_MASK CLOSED) POLLING) =? POLLING then Ret (Some s, t, [Scheduling])
  else Ret (Some s, t, []).
Definition wake_by_ref (t : Task) : outcome (Task * list actor) :=
  '(_, t, l) ← wake t WAKE_INC; Ret (t, l).

(** The code of [drop_waker], and of the drop handlers of [Promise] and [CancelToken]. *)
Definition drop_reference (t : Task) : outcome (Task * list actor) :=
  '(s, t) ← fetch_sub t REF_INC;
  if (Z.land s REF_MASK =? REF_INC) && negb (runnable_exists s) then
    Ret (t, [if Z.land s POLLING =? POLLING then Dropping future
             else if Z.land s CLOSED =? 0 then Dropping output else Deallocating])
  else Ret (t, []).
Definition drop_waker := drop_reference.
Definition drop_promise := drop_reference.
Definition drop_token := drop_reference.

(** [captures]: the scheduling function has captured variables. *)
Definition wake_by_val (captures : bool) (t : Task) : outcome (Task * list actor) :=
  if captures then drop_waker t else
  '(s, t, l) ← wake t (WAKE_INC - REF_INC);
  match s with
  | None => Ret (t, l)
  | Some s =>
    if Z.land s (Z.lor REF_MASK POLLING) =? REF_INC then
      Ret (t, (if Z.land s CLOSED =? 0 then Dropping output else Deallocating) :: l)
    else Ret (t, l)
  end.

(** ** [Promise] and [CancelToken] *)
Inductive Stage := SReady | SPending | SCancelled.
Definition poll_update (s : Z) : option Z :=
  if Z.land s (Z.lor POLLING CLOSED) =? 0 then Some (Z.lor s CLOSED) else None.
(** What [Promise::poll] answers when it does not move the output out. *)
Definition poll_stage (s : Z) : Stage := if Z.land s CLOSED =? CLOSED then SCancelled else SPending.
Definition poll_promise (t : Task) : outcome (Stage * Task * list actor) :=
  '(r, t) ← fetch_update t poll_update;
  match r with
  | Err s => Ret (poll_stage s, t, [Promise])
  | Ok _ => Ret (SReady, t, [Taking])
  end.

Definition cancel_update (s : Z) : option Z :=
  if Z.land s POLLING =? 0 then Some (s - REF_INC)
  else if runnable_exists s then Some (Z.lor s CLOSED - REF_INC)
  else Some (Z.land (Z.lor s CLOSED) (not64 POLLING)).
Definition cancel_token (t : Task) : outcome (Task * list actor) :=
  '(r, t) ← fetch_update t cancel_update;
  match r with
  | Err _ => Panic
  | Ok s =>
    if runnable_exists s then Ret (t, [])
    else if Z.land s POLLING =? 0 then
      if Z.land s REF_MASK =? REF_INC then Ret (t, [if Z.land s CLOSED =? 0 then Dropping output else Deallocating])
      else Ret (t, [])
    else Ret (t, [TokenDropping])
  end.
Definition release_token (t : Task) : outcome (Task * list actor) :=
  '(s, t) ← fetch_sub t REF_INC;
  Ret (t, if Z.land s REF_MASK =? REF_INC then [Deallocating] else []).

(** ** [Runnable] *)
(** One turn of the loop of [run], up to the poll. *)
Definition run_loop (t : Task) (s wake_count : Z) : Task * list actor :=
  if Z.land s CLOSED =? CLOSED then (t, [Cancelling]) else (record t EPoll, [Polling wake_count]).
Definition run (t : Task) : outcome (Task * list actor) :=
  s ← load t;
  if Z.land s POLLING =? POLLING then Ret (run_loop t s (Z.land s WAKE_MASK)) else Panic.

Definition publish_update (s : Z) : option Z :=
  if (Z.land s CLOSED =? CLOSED) || (Z.land s REF_MASK =? 0) then None
  else Some (Z.land s (not64 POLLING)).
Definition complete (t : Task) : outcome (Task * list actor) :=
  t ← drop_future t; t ← store_output t; Ret (t, [Publishing]).
Definition publish (t : Task) : outcome (Task * list actor) :=
  '(r, t) ← fetch_update t publish_update;
  match r with Ok _ => Ret (t, []) | Err _ => Ret (t, [Discarding]) end.
Definition clear_polling (t : Task) : outcome (Task * list actor) :=
  '(s, t) ← fetch_and t (not64 POLLING);
  Ret (t, if Z.land s REF_MASK =? 0 then [Deallocating] else []).

(** After a poll that was pending. *)
Definition suspend (t : Task) (wake_count : Z) : outcome (Task * list actor) :=
  '(s, t) ← fetch_sub t wake_count;
  if s <=? wake_count then Panic else
  let wake_count := Z.land s WAKE_MASK - wake_count in
  if wake_count <? 0 then Panic else
  if (wake_count =? 0) && (Z.land s CLOSED =? 0) then
    Ret (t, if Z.land s REF_MASK =? 0 then [Forsaken] else [])
  else Ret (run_loop t s wake_count).

(** The drop guards of [cancel], and of [run] when the future or output panics. *)
Definition close_task (t : Task) : outcome (Task * list actor) :=
  '(r, t) ← fetch_update t (λ s, Some (Z.land (Z.lor s CLOSED) (not64 POLLING)));
  match r with
  | Err _ => Panic
  | Ok s => Ret (t, if Z.land s REF_MASK =? 0 then [Deallocating] else [])
  end.

(** ** Steps

    What an actor does, and what it becomes.  The future that is polled has a waker of the
    task at hand, which it can clone and use by reference. *)
Definition keep (a : actor) (m : outcome (Task * list actor)) : outcome (Task * list actor) :=
  '(t, l) ← m; Ret (t, a :: l).
Definition then_to (a : actor) (m : outcome Task) : outcome (Task * list actor) := t ← m; Ret (t, [a]).

Definition act (captures : bool) (o : op) (a : actor) (t : Task) : outcome (Task * list actor) :=
  match a, o with
  | Waker, Clone => keep Waker (clone_waker t)
  | Waker, WakeByVal => wake_by_val captures t
  | Waker, WakeByRef => keep Waker (wake_by_ref t)
  | Waker, Drop => drop_waker t
  | Promise, Poll => '(_, t, l) ← poll_promise t; Ret (t, l)
  | Promise, Drop => drop_promise t
  | Taking, Go => then_to Promise (take t output ETake)
  | CancelToken, Cancel => cancel_token t
  | CancelToken, Drop => drop_token t
  | TokenDropping, (Go | Unwind) => then_to TokenReleasing (drop_future t)
  | TokenReleasing, Go => release_token t
  | Scheduling, Go => _ ← load t; Ret (t, [Runnable])
  | Runnable, Run => run t
  | Runnable, Drop => _ ← load t; Ret (t, [Cancelling])
  | Polling w, Clone => keep (Polling w) (clone_waker t)
  | Polling w, WakeByRef => keep (Polling w) (wake_by_ref t)
  | Polling w, Ready => Ret (t, [Completing])
  | Polling w, Pending => Ret (t, [Suspending w])
  | Polling w, Unwind => Ret (t, [Cancelling])
  | Completing, Go => complete t
  | Completing, Unwind => then_to Closing (drop_future t)
  | Publishing, Go => publish t
  | Discarding, Go => then_to Clearing (drop_output t)
  | Discarding, Unwind => then_to Closing (drop_output t)
  | Clearing, Go => clear_polling t
  | Suspending w, Go => suspend t w
  | Forsaken, (Go | Unwind) => then_to Deallocating (drop_future t)
  | Cancelling, (Go | Unwind) => then_to Closing (drop_future t)
  | Closing, Go => close_task t
  | Dropping c, (Go | Unwind) =>
    then_to Deallocating (take t c (if bool_decide (c = future) then EDropFuture else EDropOutput))
  | Deallocating, Go => t ← dealloc t; Ret (t, [])
  | _, _ => Ret (t, [a])
  end.

(** A task and the actors that have it. *)
Record System := mkSystem { task : Task; actors : list actor }.
Definition step (captures : bool) (s : System) (i : nat) (o : op) : outcome System :=
  match actors s !! i with
  | None => Ret s
  | Some a => '(t, l) ← act captures o a (task s); Ret (mkSystem t (l ++ delete i (actors s)))
  end.
Fixpoint steps (captures : bool) (s : System) (l : list (nat * op)) : outcome System :=
  match l with
  | [] => Ret s
  | (i, o) :: l => s ← step captures s i o; steps captures s l
  end.

Definition spawn : System :=
  mkSystem (mkTask (Z.lor (Z.lor (2 * REF_INC) WAKE_INC) POLLING) future true [] 0) [Promise; Runnable; CancelToken].
Definition spawn_and_forget : System :=
  mkSystem (mkTask (Z.lor (Z.lor REF_INC WAKE_INC) POLLING) future true [] 0) [Runnable; CancelToken].

End Task.
