(* ===== verification/TaskFacts.v ===== *)
(** * Tasks: the theorems of [Task.v]

    The word of a task is the encoding [enc] of its flags and counts, as long as the counts
    stay below their range ([R_MAX]), which the panics of [clone_waker] and [wake] see to.
    The invariant [inv] says for each phase of a task which actor may exist beside the plain
    references and what the task holds; every step keeps it ([inv_step]). *)

From S2P Require Import Prelude Task.

Module TaskFacts.
Import Task.

Create HintDb task discriminated.

(** ** The word *)
Definition enc (p c : bool) (r w : Z) : Z := Z.b2z p + 2 * Z.b2z c + 4 * r + 2 ^ 33 * w.
Definition R_MAX : Z := 2 ^ 31.
Definition ranged (r w : Z) : Prop := 0 ≤ r < R_MAX ∧ 0 ≤ w < R_MAX.

Lemma land_mask x k n : 0 ≤ k → 0 ≤ n → Z.land x (Z.shiftl (Z.ones n) k) = (x / 2 ^ k) `mod` 2 ^ n * 2 ^ k.
Proof.
  intros. rewrite <- Z.land_ones, <- Z.shiftr_div_pow2, <- Z.shiftl_mul_pow2 by done.
  apply Z.bits_inj_iff'. intros i Hi.
  rewrite Z.land_spec, !Z.shiftl_spec, Z.land_spec by done.
  destruct (decide (k ≤ i)).
  - rewrite Z.shiftr_spec by lia. by replace (i - k + k) with i by lia.
  - rewrite !(Z.testbit_neg_r _ (i - k)) by lia. simpl. by rewrite andb_false_r.
Qed.

Lemma land_lor x a b : Z.land a b = 0 → Z.land x (Z.lor a b) = Z.land x a + Z.land x b.
Proof.
  intros H. rewrite Z.land_lor_distr_r, <- Z.add_lor_land.
  replace (Z.land (Z.land x a) (Z.land x b)) with 0; [lia|].
  rewrite <- Z.land_assoc, (Z.land_comm a), <- Z.land_assoc, (Z.land_comm b a), H.
  by rewrite !Z.land_0_r.
Qed.

(** The field of [n] bits from bit [k]. *)
Lemma land_field x k n lo mid hi :
  0 ≤ k → 0 ≤ n → 0 ≤ lo < 2 ^ k → 0 ≤ mid < 2 ^ n → x = lo + 2 ^ k * (mid + 2 ^ n * hi) →
  Z.land x (Z.shiftl (Z.ones n) k) = mid * 2 ^ k.
Proof.
  intros ?? Hlo Hmid ->. rewrite land_mask by done. f_equal.
  rewrite (Z.mul_comm (2 ^ k)), Z.div_add, (Z.div_small lo) by lia.
  rewrite Z.add_0_l, (Z.mul_comm (2 ^ n)), Z.mod_add by lia. by apply Z.mod_small.
Qed.

Ltac enc_field p c k n lo mid hi :=
  match goal with |- Z.land _ ?m = _ => replace m with (Z.shiftl (Z.ones n) k) by reflexivity end;
  rewrite (land_field _ k n lo mid hi); unfold enc, ranged, R_MAX in *;
  destruct p, c; simpl Z.b2z; lia.

Section enc.
Context (p c : bool) (r w : Z).
Context (Hrw : ranged r w).

Lemma land_polling : Z.land (enc p c r w) POLLING = Z.b2z p.
Proof using Hrw. enc_field p c 0 1 0 (Z.b2z p) (Z.b2z c + 2 * r + 2 ^ 32 * w). Qed.
Lemma land_closed : Z.land (enc p c r w) CLOSED = 2 * Z.b2z c.
Proof using Hrw. enc_field p c 1 1 (Z.b2z p) (Z.b2z c) (r + 2 ^ 31 * w). Qed.
Lemma land_ref : Z.land (enc p c r w) REF_MASK = 4 * r.
Proof using Hrw. enc_field p c 2 31 (Z.b2z p + 2 * Z.b2z c) r w. Qed.
Lemma land_wake : Z.land (enc p c r w) WAKE_MASK = 2 ^ 33 * w.
Proof using Hrw. enc_field p c 33 31 (Z.b2z p + 2 * Z.b2z c + 4 * r) w 0. Qed.
Lemma land_not_polling : Z.land (enc p c r w) (not64 POLLING) = enc false c r w.
Proof using Hrw. enc_field p c 1 63 (Z.b2z p) (Z.b2z c + 2 * r + 2 ^ 32 * w) 0. Qed.
Lemma lor_closed : Z.lor (enc p c r w) CLOSED = enc p true r w.
Proof using Hrw.
  pose proof (Z.add_lor_land (enc p c r w) CLOSED) as H. rewrite land_closed in H.
  revert H. unfold enc. change CLOSED with 2. destruct c; simpl; lia.
Qed.
Lemma land_polling_closed : Z.land (enc p c r w) (Z.lor POLLING CLOSED) = Z.b2z p + 2 * Z.b2z c.
Proof using Hrw. by rewrite land_lor, land_polling, land_closed. Qed.
Lemma land_wake_closed : Z.land (enc p c r w) (Z.lor WAKE_MASK CLOSED) = 2 ^ 33 * w + 2 * Z.b2z c.
Proof using Hrw. by rewrite land_lor, land_wake, land_closed. Qed.
Lemma land_wake_closed_polling :
  Z.land (enc p c r w) (Z.lor (Z.lor WAKE_MASK CLOSED) POLLING) = 2 ^ 33 * w + 2 * Z.b2z c + Z.b2z p.
Proof using Hrw. by rewrite land_lor, land_wake_closed, land_polling. Qed.
Lemma land_ref_polling : Z.land (enc p c r w) (Z.lor REF_MASK POLLING) = 4 * r + Z.b2z p.
Proof using Hrw. by rewrite land_lor, land_ref, land_polling. Qed.
Lemma runnable_exists_enc : runnable_exists (enc p c r w) = p && (c || (0 <? w)).
Proof using Hrw.
  unfold runnable_exists. rewrite land_polling, land_wake_closed. destruct Hrw.
  destruct p, c; simpl; [| |done..].
  - by rewrite (proj2 (Z.eqb_neq _ _)) by lia.
  - destruct (Z.ltb_spec 0 w); [by rewrite (proj2 (Z.eqb_neq _ _)) by lia|].
    by rewrite (proj2 (Z.eqb_eq _ _)) by lia.
Qed.
End enc.

Lemma wrap_enc p c r w d r' w' :
  ranged r' w' → enc p c r w + d = enc p c r' w' → wrap 64 (enc p c r w + d) = enc p c r' w'.
Proof.
  intros [? ?] ->. apply wrap_id. unfold enc, R_MAX in *. destruct p, c; simpl Z.b2z; lia.
Qed.

Ltac arith := unfold ranged in *; change REF_INC with 4 in *; change WAKE_INC with (2 ^ 33) in *; simpl Z.b2z in *; lia.

(** ** Operations on a task whose word is encoded *)
Definition tk (p c : bool) (r w : Z) (co : TaskCore) (lg : list event) (n : Z) : Task :=
  mkTask (enc p c r w) co true lg n.

Section ops.
Context (p c : bool) (r w : Z) (co : TaskCore) (lg : list event) (n : Z).
Context (Hrw : ranged r w).
#[local] Abbreviation t := (tk p c r w co lg n).

Lemma fetch_add_tk d r' w' :
  ranged r' w' → d = 4 * (r' - r) + 2 ^ 33 * (w' - w) →
  fetch_add t d = Ret (enc p c r w, tk p c r' w' co lg n).
Proof using Type.
  intros H ->. unfold fetch_add, load, tk, with_state. cbn -[wrap]. do 3 f_equal.
  apply wrap_enc; [done|]. unfold enc. lia.
Qed.

Lemma clone_tk : r + 1 < R_MAX →
  clone_waker t = Ret (if 2 ^ 30 <=? r then (tk p c (r + 1) w co lg (n + 1), []) else (tk p c (r + 1) w co lg n, [Waker])).
Proof using Hrw.
  intros. unfold clone_waker.
  rewrite (fetch_add_tk _ (r + 1) w) by arith. ret_step.
  rewrite land_ref by done. change REF_CRITICAL with (4 * (2 ^ 30 - 1)).
  destruct (Z.leb_spec (2 ^ 30) r), (Z.ltb_spec (4 * (2 ^ 30 - 1)) (4 * r)); try lia; done.
Qed.
Lemma clone_last : r + 1 = R_MAX → ∃ t', clone_waker t = Ret (t', []) ∧ panics t' = n + 1.
Proof using Hrw.
  intros Hr. unfold clone_waker, fetch_add, load. cbn -[wrap REF_CRITICAL REF_MASK enc].
  rewrite land_ref by done. change REF_CRITICAL with (4 * (2 ^ 30 - 1)). unfold R_MAX in Hr.
  rewrite (proj2 (Z.ltb_lt _ _)) by lia. eexists. split; [done|]. done.
Qed.

(** [wake], by reference or, with [b], by value. *)
Definition wake_delta (b : bool) : Z := if b then WAKE_INC - REF_INC else WAKE_INC.
Lemma wake_tk b : w + 1 < R_MAX → Z.b2z b ≤ r →
  wake t (wake_delta b) = Ret (
    if 2 ^ 30 <=? w then (None, tk p c (r - Z.b2z b) (w + 1) co (EWake :: lg) (n + 1), [])
    else (Some (enc p c r w), tk p c (r - Z.b2z b) (w + 1) co (EWake :: lg) n,
          if p && negb c && (w =? 0) then [Scheduling] else [])).
Proof using Hrw.
  intros ? Hb. unfold wake.
  rewrite (fetch_add_tk _ (r - Z.b2z b) (w + 1))
    by (unfold wake_delta; destruct b; arith). ret_step.
  rewrite land_wake, land_wake_closed_polling by done.
  change WAKE_CRITICAL with (2 ^ 33 * (2 ^ 30 - 1)). change POLLING with 1. destruct Hrw.
  destruct (Z.leb_spec (2 ^ 30) w), (Z.ltb_spec (2 ^ 33 * (2 ^ 30 - 1)) (2 ^ 33 * w)); try lia; [done|].
  destruct p, c, (Z.eqb_spec w 0); simpl Z.b2z; simpl andb;
    match goal with |- context [?x =? 1] => destruct (Z.eqb_spec x 1); try lia end; done.
Qed.
Lemma wake_last b : w + 1 = R_MAX → ∃ t', wake t (wake_delta b) = Ret (None, t', []) ∧ panics t' = n + 1.
Proof using Hrw.
  intros Hw. unfold wake, fetch_add, load. cbn -[wrap WAKE_CRITICAL WAKE_MASK enc].
  rewrite land_wake by done. change WAKE_CRITICAL with (2 ^ 33 * (2 ^ 30 - 1)). unfold R_MAX in Hw.
  rewrite (proj2 (Z.ltb_lt _ _)) by lia. eexists. split; [done|]. done.
Qed.

(** What the last reference has to drop. *)
Definition last_drop : actor := if p then Dropping future else if c then Deallocating else Dropping output.
Lemma drop_reference_tk : 0 < r →
  drop_reference t = Ret (tk p c (r - 1) w co lg n,
    if (r =? 1) && negb (p && (c || (0 <? w))) then [last_drop] else []).
Proof using Hrw.
  intros. unfold drop_reference, fetch_sub.
  rewrite (fetch_add_tk _ (r - 1) w) by arith. ret_step.
  rewrite land_ref, runnable_exists_enc, land_polling, land_closed by done.
  replace (4 * r =? REF_INC) with (r =? 1) by arith.
  unfold last_drop. by destruct (r =? 1), p, c, (0 <? w).
Qed.

Lemma wake_by_val_tk cap : 0 < r → w + 1 < R_MAX →
  wake_by_val cap t =
    if cap then drop_reference t else
    Ret (if 2 ^ 30 <=? w then (tk p c (r - 1) (w + 1) co (EWake :: lg) (n + 1), [])
      else (tk p c (r - 1) (w + 1) co (EWake :: lg) n,
        if p && negb c && (w =? 0) then [Scheduling]
        else if negb p && (r =? 1) then [last_drop] else [])).
Proof using Hrw.
  intros. unfold wake_by_val. destruct cap; [done|].
  change (WAKE_INC - REF_INC) with (wake_delta true). rewrite wake_tk by (simpl; lia). simpl Z.b2z. ret_step.
  destruct (2 ^ 30 <=? w); [done|]. rewrite land_ref_polling, land_closed by done.
  change REF_INC with 4. unfold last_drop.
  destruct (Z.eqb_spec r 1), (Z.eqb_spec (4 * r + Z.b2z p) 4); destruct p, c, (w =? 0); simpl in *; try lia; done.
Qed.

Lemma poll_promise_tk :
  poll_promise t = Ret (if p then (if c then SCancelled else SPending, t, [Promise])
    else if c then (SCancelled, t, [Promise]) else (SReady, tk p true r w co lg n, [Taking])).
Proof using Hrw.
  unfold poll_promise, fetch_update, load. cbn -[enc poll_update poll_stage].
  unfold poll_update, poll_stage. rewrite land_polling_closed, lor_closed by done.
  replace (Z.b2z p + 2 * Z.b2z c =? 0) with (negb (p || c)) by (destruct p, c; reflexivity).
  destruct p, c; simpl; try done; rewrite land_closed by done; done.
Qed.

Lemma cancel_token_tk : 0 < r →
  cancel_token t = Ret (
    if p then if c || (0 <? w) then (tk p true (r - 1) w co lg n, []) else (tk false true r w co lg n, [TokenDropping])
    else (tk p c (r - 1) w co lg n, if r =? 1 then [last_drop] else [])).
Proof using Hrw.
  intros. assert (U : cancel_update (enc p c r w) = Some (
    if p then if c || (0 <? w) then enc p true (r - 1) w else enc false true r w else enc p c (r - 1) w)).
  { unfold cancel_update. rewrite land_polling, lor_closed, runnable_exists_enc, land_not_polling by done.
    assert (E : ∀ a b, enc a b r w - REF_INC = enc a b (r - 1) w) by (intros; unfold enc; arith).
    rewrite !E. by destruct p, c, (0 <? w). }
  unfold cancel_token, fetch_update, load. cbn -[enc cancel_update runnable_exists]. rewrite U. ret_step.
  rewrite runnable_exists_enc, land_polling, land_ref, land_closed by done.
  replace (4 * r =? REF_INC) with (r =? 1) by arith.
  unfold last_drop. by destruct p, c, (0 <? w), (r =? 1).
Qed.

Lemma release_token_tk : 0 < r →
  release_token t = Ret (tk p c (r - 1) w co lg n, if r =? 1 then [Deallocating] else []).
Proof using Hrw.
  intros. unfold release_token, fetch_sub.
  rewrite (fetch_add_tk _ (r - 1) w) by arith. ret_step.
  rewrite land_ref by done. by replace (4 * r =? REF_INC) with (r =? 1) by arith.
Qed.

(** A wake count as [run] keeps it. *)
Definition counted (k : Z) : Z := 2 ^ 33 * k.
Lemma run_loop_tk s k : run_loop s (enc p c r w) k =
  if c then (s, [Cancelling]) else (record s EPoll, [Polling k]).
Proof using Hrw. unfold run_loop. rewrite land_closed by done. by destruct c. Qed.
Lemma run_tk : p = true →
  run t = Ret (if c then (t, [Cancelling]) else (tk p c r w co (EPoll :: lg) n, [Polling (counted w)])).
Proof using Hrw.
  intros Hp. unfold run, load. cbn -[enc]. rewrite land_polling, land_wake, run_loop_tk, Hp by done.
  by destruct c.
Qed.
Lemma publish_tk :
  publish t = Ret (if c || (r =? 0) then (t, [Discarding]) else (tk false c r w co lg n, [])).
Proof using Hrw.
  unfold publish, fetch_update, load. cbn -[enc publish_update]. unfold publish_update.
  rewrite land_closed, land_ref, land_not_polling by done.
  destruct c; [done|]. cbn -[enc Z.mul]. replace (4 * r =? 0) with (r =? 0) by lia.
  by destruct (r =? 0).
Qed.
Lemma clear_polling_tk :
  clear_polling t = Ret (tk false c r w co lg n, if r =? 0 then [Deallocating] else []).
Proof using Hrw.
  unfold clear_polling, fetch_and, load. cbn -[enc]. rewrite land_not_polling, land_ref by done.
  by replace (4 * r =? 0) with (r =? 0) by lia.
Qed.
Lemma close_task_tk :
  close_task t = Ret (tk false true r w co lg n, if r =? 0 then [Deallocating] else []).
Proof using Hrw.
  unfold close_task, fetch_update, load. cbn -[enc]. rewrite lor_closed, land_not_polling, land_ref by done.
  by replace (4 * r =? 0) with (r =? 0) by lia.
Qed.
Lemma suspend_tk k : p = true → 0 ≤ k ≤ w →
  suspend t (counted k) = Ret (
    if c then (tk p c r (w - k) co lg n, [Cancelling])
    else if w =? k then (tk p c r (w - k) co lg n, if r =? 0 then [Forsaken] else [])
    else (tk p c r (w - k) co (EPoll :: lg) n, [Polling (counted (w - k))])).
Proof using Hrw.
  intros Hp Hk. unfold suspend, fetch_sub, counted.
  rewrite (fetch_add_tk _ r (w - k)) by arith. ret_step.
  rewrite (proj2 (Z.leb_gt _ _)) by (unfold enc; destruct Hrw, p, c; simpl Z.b2z; try done; lia).
  rewrite land_wake, land_closed, land_ref, run_loop_tk by done.
  replace (2 ^ 33 * w - 2 ^ 33 * k) with (2 ^ 33 * (w - k)) by lia.
  rewrite (proj2 (Z.ltb_ge _ 0)) by lia.
  replace (2 ^ 33 * (w - k) =? 0) with (w =? k) by lia. replace (4 * r =? 0) with (r =? 0) by lia.
  by destruct c, (w =? k).
Qed.
End ops.

(** ** The invariant *)
(** The actors that are counted as references, and those that may be there in any number. *)
Definition refs (a : actor) : bool :=
  match a with Waker | Promise | CancelToken | Taking | TokenDropping | TokenReleasing => true | _ => false end.
Definition special (a : actor) : bool :=
  match a with Waker | Promise | CancelToken | TokenReleasing => false | _ => true end.
Definition count (f : actor → bool) (l : list actor) : Z := Z.of_nat (length (filter f l)).
Definition occ (e : event) (l : list event) : nat := length (filter (e =.) l).

(** A wake-up after the last poll began. *)
Fixpoint unseen (lg : list event) : bool :=
  match lg with EWake :: _ => true | EPoll :: _ => false | _ :: lg => unseen lg | [] => false end.

(** Which special actor there is in which phase, and what the task holds. *)
Definition phase_ok (p c : bool) (r w : Z) (co : TaskCore) (lg : list event) (sp : list actor) : Prop :=
  match sp with
  | [] => if p then c = false ∧ w = 0 ∧ co = future ∧ unseen lg = false
          else co = if c then uninit else output
  | [Scheduling] | [Runnable] | [Cancelling] => p = true ∧ (c = true ∨ 0 < w) ∧ co = future
  | [Polling k] | [Suspending k] =>
    ∃ j, k = counted j ∧ p = true ∧ 0 < j ≤ w ∧ co = future ∧ (unseen lg = true → j < w)
  | [Completing] => p = true ∧ 0 < w ∧ co = future
  | [Publishing] => p = true ∧ 0 < w ∧ co = output
  | [Discarding] => p = true ∧ 0 < w ∧ (c = true ∨ r = 0) ∧ co = output
  | [Clearing] => p = true ∧ 0 < w ∧ (c = true ∨ r = 0) ∧ co = uninit
  | [Closing] => p = true ∧ (c = true ∨ 0 < w) ∧ co = uninit
  | [Forsaken] => p = true ∧ c = false ∧ w = 0 ∧ r = 0 ∧ co = future ∧ unseen lg = false
  | [Taking] => p = false ∧ c = true ∧ co = output
  | [TokenDropping] => p = false ∧ c = true ∧ co = future
  | [Dropping k] => r = 0 ∧ co = k ∧ k ≠ uninit ∧ (p = false ∨ c = false ∧ w = 0 ∧ unseen lg = false)
  | [Deallocating] => r = 0 ∧ co = uninit ∧ (p = false ∨ c = false ∧ w = 0 ∧ unseen lg = false)
  | _ => False
  end.

(** What was dropped, stored and moved out. *)
Definition log_ok (co : TaskCore) (alive : bool) (lg : list event) : Prop :=
  occ EFree lg = (if alive then 0 else 1)%nat ∧
  match co with
  | future => occ EDropFuture lg = 0%nat ∧ occ EOutput lg = 0%nat ∧ occ EDropOutput lg = 0%nat ∧ occ ETake lg = 0%nat
  | output => occ EDropFuture lg = 1%nat ∧ occ EOutput lg = 1%nat ∧ occ EDropOutput lg = 0%nat ∧ occ ETake lg = 0%nat
  | uninit => occ EDropFuture lg = 1%nat ∧ (occ EOutput lg ≤ 1)%nat ∧ (occ EDropOutput lg + occ ETake lg = occ EOutput lg)%nat
  end.

(** [leaked]: references lost in panics of [clone_waker]. *)
Definition alive_ok (t : Task) (l : list actor) : Prop :=
  ∃ p c r w co lg n leaked, t = tk p c r w co lg n ∧
    0 ≤ r ≤ 2 ^ 30 + n ∧ 0 ≤ w ≤ 2 ^ 30 + n ∧ 0 ≤ leaked ≤ n ∧ r = count refs l + leaked ∧
    phase_ok p c r w co lg (filter special l) ∧ log_ok co true lg ∧
    (TokenReleasing ∈ l → p = false ∧ c = true) ∧ (n = 0 → l ≠ []).
Definition freed_ok (t : Task) (l : list actor) : Prop :=
  l = [] ∧ allocated t = false ∧ core t = uninit ∧ log_ok uninit false (log t).
Definition inv (t : Task) (l : list actor) : Prop := alive_ok t l ∨ freed_ok t l.

#[export] Instance count_perm f : Proper ((≡ₚ) ==> (=)) (count f).
Proof. intros l k H. unfold count. by rewrite H. Qed.
Lemma count_app f l k : count f (l ++ k) = count f l + count f k.
Proof. unfold count. rewrite filter_app, length_app. lia. Qed.
Lemma count_cons f a l : count f (a :: l) = Z.b2z (f a) + count f l.
Proof. unfold count. rewrite filter_cons. destruct (f a); simpl length; simpl Z.b2z; lia. Qed.
Lemma count_nonneg f l : 0 ≤ count f l.
Proof. unfold count. lia. Qed.
Lemma count_nil l : count refs l = 0 → filter special l = [] → l = [].
Proof.
  destruct l as [|a l]; [done|]. rewrite count_cons, filter_cons.
  pose proof (count_nonneg refs l). destruct a; simpl; intros; (lia || done).
Qed.

Lemma count_pos f l : 0 < count f l → l ≠ [].
Proof. by intros ? ->. Qed.
Lemma special_nonempty l : filter special l ≠ [] → l ≠ [].
Proof. by intros ? ->. Qed.
Lemma special_refs l a : filter special l = [a] → refs a = true → 0 < count refs l.
Proof.
  intros E Ha. assert (Hin : a ∈ filter special l) by (rewrite E; set_solver).
  apply list_elem_of_filter in Hin as [_ Hin]. apply elem_of_Permutation in Hin as [k ->].
  rewrite count_cons, Ha. pose proof (count_nonneg refs k). simpl. lia.
Qed.

(** *** How the phase changes *)
Ltac phases sp := destruct sp as [|[] [|??]]; simpl; try done; try naive_solver lia.

Lemma phase_ref p c r r' w co lg sp : 0 < r → phase_ok p c r w co lg sp → phase_ok p c r' w co lg sp.
Proof. intros ?. phases sp. Qed.
Definition polled (sp : list actor) : Prop := ∃ k, sp = [Polling k].
Lemma phase_wake p c r r' w co lg sp :
  0 ≤ w → 0 < r ∨ polled sp → p && negb c && (w =? 0) = false →
  phase_ok p c r w co lg sp → phase_ok p c r' (w + 1) co (EWake :: lg) sp.
Proof.
  intros Hw Hr Hi. destruct (Z.eqb_spec w 0) as [->|];
    (destruct Hr as [Hr|[k ->]]; [phases sp|simpl; naive_solver lia]);
    destruct p, c; naive_solver lia.
Qed.
Lemma phase_wake_idle p c r w co lg sp :
  0 < r ∨ polled sp → p && negb c && (w =? 0) = true →
  phase_ok p c r w co lg sp → sp = [] ∧ ∀ r' lg', phase_ok p c r' (w + 1) co lg' [Scheduling].
Proof.
  intros Hr Hi. destruct p, c, (Z.eqb_spec w 0) as [->|]; try done.
  destruct Hr as [Hr|[k ->]]; [phases sp|simpl; naive_solver lia].
Qed.
Lemma phase_close c r r' w co lg sp :
  0 < r → c || (0 <? w) = true → phase_ok true c r w co lg sp → phase_ok true true r' w co lg sp.
Proof. intros ? Hc%orb_true_iff. rewrite Z.ltb_lt in Hc. phases sp. Qed.
Lemma phase_runnable c r w co lg l :
  c || (0 <? w) = true → phase_ok true c r w co lg (filter special l) → l ≠ [].
Proof.
  intros Hc%orb_true_iff Hp ->. rewrite Z.ltb_lt in Hc. simpl in Hp. destruct c; naive_solver lia.
Qed.
Lemma phase_last p c w co lg l :
  0 ≤ w → count refs l = 0 → p && (c || (0 <? w)) = false → phase_ok p c 1 w co lg (filter special l) →
  l = [] ∧ ∀ w' lg', (p = true → w' = w ∧ lg' = lg) → phase_ok p c 0 w' co lg' [last_drop p c].
Proof.
  intros Hw Hc Hr Hp. assert (E : filter special l = []).
  { pose proof (special_refs l) as Hs. destruct (filter special l) as [|a [|??]]; [done| |by destruct a].
    specialize (Hs a eq_refl). destruct a; simpl in Hp, Hs; try done; try (specialize (Hs eq_refl); lia);
      destruct p, c, (Z.ltb_spec 0 w); naive_solver lia. }
  split; [by apply count_nil|]. rewrite E in Hp. intros w' lg' Hw'. simpl in Hp.
  unfold last_drop. destruct p, c, (Z.ltb_spec 0 w); simpl in *; try done; naive_solver lia.
Qed.

(** *** Steps of references *)
(** An operation returns, and its result is a good state unless there were too many panics. *)
Definition good (t : Task) (rest : list actor) (m : outcome (Task * list actor)) : Prop :=
  ∃ t' l, m = Ret (t', l) ∧ panics t ≤ panics t' ∧ (panics t' < 2 ^ 30 → inv t' (l ++ rest)).
Lemma good_tk t rest m p c r w co lg n l :
  m = Ret (tk p c r w co lg n, l) → panics t ≤ n →
  (n < 2 ^ 30 → inv (tk p c r w co lg n) (l ++ rest)) → good t rest m.
Proof. intros. by eexists _, _. Qed.
Lemma inv_alive leaked p c r w co lg n l :
  0 ≤ r ≤ 2 ^ 30 + n → 0 ≤ w ≤ 2 ^ 30 + n → 0 ≤ leaked ≤ n → r = count refs l + leaked →
  phase_ok p c r w co lg (filter special l) → log_ok co true lg →
  (TokenReleasing ∈ l → p = false ∧ c = true) → (n = 0 → l ≠ []) → inv (tk p c r w co lg n) l.
Proof. intros. left. by eexists p, c, r, w, co, lg, n, leaked. Qed.
Lemma log_ok_wake co b lg : log_ok co b lg → log_ok co b (EWake :: lg).
Proof. by destruct co. Qed.
Lemma log_ok_poll co b lg : log_ok co b lg → log_ok co b (EPoll :: lg).
Proof. by destruct co. Qed.

(** A result of which only counts and phase have changed. *)
Ltac alive leaked :=
  eapply good_tk; [done|simpl; lia|intros; apply (inv_alive leaked)]; simpl;
  try (done || lia); try (rewrite !count_cons in *; simpl in *; lia); try set_solver.

Section step.
Context (a : actor) (rest : list actor) (p c : bool) (r w : Z) (co : TaskCore) (lg : list event) (n leaked : Z).
Context (Hr : 0 ≤ r ≤ 2 ^ 30 + n) (Hw : 0 ≤ w ≤ 2 ^ 30 + n) (Hl : 0 ≤ leaked ≤ n) (Hn : n < 2 ^ 30).
Context (Hc : r = count refs (a :: rest) + leaked).
Context (Hph : phase_ok p c r w co lg (filter special (a :: rest))) (Hlog : log_ok co true lg).
Context (Htok : TokenReleasing ∈ a :: rest → p = false ∧ c = true).
#[local] Abbreviation t := (tk p c r w co lg n).

Lemma in_range : ranged r w.
Proof using Hn Hr Hw. unfold ranged, R_MAX. lia. Qed.

Lemma good_clone : 0 < r ∨ polled (filter special (a :: rest)) → good t rest (keep a (clone_waker t)).
Proof using Hc Hl Hlog Hn Hph Hr Htok Hw.
  intros Hx. pose proof in_range as Hrw. unfold keep.
  assert (Hph' : ∀ r', phase_ok p c r' w co lg (filter special (a :: rest))).
  { intros r'. destruct Hx as [?|[k Hk]]; [by eapply phase_ref|]. by rewrite Hk in *. }
  destruct (decide (r + 1 = R_MAX)) as [E|].
  { destruct (clone_last p c r w co lg n Hrw E) as (t' & -> & Ht').
    eexists _, _. split; [done|]. unfold R_MAX in E. simpl. split; lia. }
  rewrite clone_tk by (done || (destruct Hrw; lia)). ret_step.
  destruct (Z.leb_spec (2 ^ 30) r); [alive (leaked + 1)|alive leaked].
Qed.

Lemma good_wake_ref : 0 < r ∨ polled (filter special (a :: rest)) → good t rest (keep a (wake_by_ref t)).
Proof using Hc Hl Hlog Hn Hph Hr Htok Hw.
  intros Hx. pose proof in_range as Hrw. unfold keep, wake_by_ref. change WAKE_INC with (wake_delta false).
  destruct (decide (w + 1 = R_MAX)) as [E|].
  { destruct (wake_last p c r w co lg n Hrw false E) as (t' & -> & Ht').
    eexists _, _. split; [done|]. unfold R_MAX in E. simpl. split; lia. }
  rewrite wake_tk by (done || simpl; destruct Hrw; lia). simpl Z.b2z. rewrite Z.sub_0_r. ret_step.
  apply log_ok_wake in Hlog. destruct (p && negb c && (w =? 0)) eqn:Hi.
  - destruct (phase_wake_idle p c r w co lg _ Hx Hi Hph) as [E Hs].
    destruct (Z.leb_spec (2 ^ 30) w); [destruct p, c, (Z.eqb_spec w 0); simpl in Hi; (done || lia)|].
    alive leaked. revert E. rewrite filter_cons. simpl. destruct (decide (special a)); [done|]. intros E.
    rewrite filter_cons_False, filter_cons_True, E by done. apply Hs.
  - assert (Hph' := phase_wake p c r r w co lg _ (proj1 Hw) Hx Hi Hph).
    destruct (Z.leb_spec (2 ^ 30) w); alive leaked.
Qed.

(** From here on [a] is a reference. *)
Context (Ha : refs a = true) (Hs : special a = false).

Lemma reference : r = 1 + count refs rest + leaked ∧ 0 < r ∧ phase_ok p c r w co lg (filter special rest).
Proof using Hc Hl Hph Ha Hs.
  rewrite count_cons, Ha in Hc. simpl Z.b2z in Hc. pose proof (count_nonneg refs rest).
  rewrite filter_cons_False in Hph by (rewrite Hs; auto). repeat split; (done || lia).
Qed.
Lemma releasing_rest : TokenReleasing ∈ rest → p = false ∧ c = true.
Proof using Htok. intros. apply Htok. by right. Qed.

Lemma good_drop : good t rest (drop_reference t).
Proof using Ha Hc Hl Hlog Hn Hph Hr Hs Htok Hw.
  destruct reference as (E & H0 & Hp). pose proof releasing_rest as Ht. clear Htok Hph Hc.
  pose proof (count_nonneg refs rest). rewrite drop_reference_tk by (done || apply in_range).
  destruct ((r =? 1) && negb (p && (c || (0 <? w)))) eqn:Hd.
  - apply andb_true_iff in Hd as [Hr1%Z.eqb_eq Hd%negb_true_iff].
    destruct (phase_last p c w co lg rest) as [-> Hq]; [lia|lia|done|by rewrite <- Hr1|].
    assert (Hp0 := Hq w lg (λ _, conj eq_refl eq_refl)).
    replace (r - 1) with 0 by lia. unfold last_drop in *. destruct p, c; alive leaked.
  - assert (Hp' := phase_ref p c r (r - 1) w co lg _ H0 Hp).
    alive leaked. intros ->. destruct (Z.eqb_spec r 1); [|apply (count_pos refs); lia].
    apply negb_false_iff, andb_true_iff in Hd as [-> Hd]. by eapply phase_runnable.
Qed.

Lemma good_wake_val cap : good t rest (wake_by_val cap t).
Proof using Ha Hc Hl Hlog Hn Hph Hr Hs Htok Hw.
  destruct cap; [apply good_drop|].
  destruct reference as (E & H0 & Hp). pose proof releasing_rest as Ht. clear Htok Hph Hc.
  pose proof (count_nonneg refs rest). pose proof in_range as Hrw.
  destruct (decide (w + 1 = R_MAX)) as [Ew|].
  { unfold wake_by_val. change (WAKE_INC - REF_INC) with (wake_delta true).
    destruct (wake_last p c r w co lg n Hrw true Ew) as (t' & -> & Ht').
    eexists _, _. split; [done|]. unfold R_MAX in Ew. simpl. split; lia. }
  rewrite wake_by_val_tk by (done || destruct Hrw; lia).
  apply log_ok_wake in Hlog. destruct (p && negb c && (w =? 0)) eqn:Hi.
  - destruct (phase_wake_idle p c r w co lg _ (or_introl H0) Hi Hp) as [Ef Hq].
    destruct (Z.leb_spec (2 ^ 30) w); [destruct p, c, (Z.eqb_spec w 0); simpl in Hi; (done || lia)|].
    alive leaked. rewrite Ef. apply (Hq r lg).
  - assert (Hp' := phase_wake p c r (r - 1) w co lg _ (proj1 Hw) (or_introl H0) Hi Hp).
    destruct (Z.leb_spec (2 ^ 30) w); [alive leaked|].
    destruct (negb p && (r =? 1)) eqn:Hd.
    + apply andb_true_iff in Hd as [->%negb_true_iff Hr1%Z.eqb_eq].
      destruct (phase_last false c w co lg rest) as [-> Hq]; [lia|lia|done|by rewrite <- Hr1|].
      assert (Hp0 := Hq (w + 1) (EWake :: lg) ltac:(done)).
      replace (r - 1) with 0 by lia. unfold last_drop in *. destruct c; alive leaked.
    + alive leaked. intros ->. destruct (Z.eqb_spec r 1); [|apply (count_pos refs); lia].
      destruct p; [|done]. apply (phase_runnable c r w co lg); [|done].
      destruct c; [done|]. simpl in *. apply Z.ltb_lt. destruct (Z.eqb_spec w 0); [done|lia].
Qed.

Lemma good_poll : a = Promise → good t rest ('(_, t, l) ← poll_promise t; Ret (t, l)).
Proof using Ha Hc Hl Hlog Hn Hph Hr Hs Htok Hw.
  destruct reference as (E & H0 & Hp). pose proof releasing_rest as Ht. intros ->. clear Htok Hph Hc.
  rewrite poll_promise_tk by apply in_range.
  destruct p; [destruct c; alive leaked|]. destruct c; [alive leaked|].
  assert (Ef : filter special rest = []).
  { destruct (filter special rest) as [|[] [|??]]; simpl in Hp; naive_solver lia. }
  rewrite Ef in Hp. alive leaked. by rewrite Ef.
Qed.

Lemma good_cancel : a = CancelToken → good t rest (cancel_token t).
Proof using Ha Hc Hl Hlog Hn Hph Hr Hs Htok Hw.
  destruct reference as (E & H0 & Hp). pose proof releasing_rest as Ht. intros ->. clear Htok Hph Hc.
  pose proof (count_nonneg refs rest). rewrite cancel_token_tk by (done || apply in_range).
  destruct p.
  - destruct (c || (0 <? w)) eqn:Hcw.
    + assert (Hp' := phase_close c r (r - 1) w co lg _ H0 Hcw Hp). alive leaked.
    + apply orb_false_iff in Hcw as [Ec Hw0%Z.ltb_ge].
      assert (Ef : filter special rest = [] ∧ co = future).
      { destruct (filter special rest) as [|[] [|??]]; simpl in Hp; naive_solver lia. }
      destruct Ef as [Ef Eco]. alive leaked. by rewrite Ef.
  - destruct (Z.eqb_spec r 1) as [Hr1|].
    + destruct (phase_last false c w co lg rest) as [-> Hq]; [lia|lia|done|by rewrite <- Hr1|].
      assert (Hp0 := Hq w lg (λ _, conj eq_refl eq_refl)).
      replace (r - 1) with 0 by lia. unfold last_drop in *. destruct c; alive leaked.
    + assert (Hp' := phase_ref false c r (r - 1) w co lg _ H0 Hp). alive leaked.
      intros ->. apply (count_pos refs). lia.
Qed.

Lemma good_release : a = TokenReleasing → good t rest (release_token t).
Proof using Ha Hc Hl Hlog Hn Hph Hr Hs Htok Hw.
  intros Ea. destruct reference as (E & H0 & Hp). pose proof releasing_rest as Ht.
  destruct Htok as [-> ->]; [rewrite Ea; set_solver|]. clear Htok Hph Hc.
  pose proof (count_nonneg refs rest). rewrite release_token_tk by (done || apply in_range).
  destruct (Z.eqb_spec r 1) as [Hr1|].
  - destruct (phase_last false true w co lg rest) as [-> Hq]; [lia|lia|done|by rewrite <- Hr1|].
    assert (Hp0 := Hq w lg (λ _, conj eq_refl eq_refl)). replace (r - 1) with 0 by lia. alive leaked.
  - assert (Hp' := phase_ref false true r (r - 1) w co lg _ H0 Hp). alive leaked.
    intros ->. apply (count_pos refs). lia.
Qed.
End step.

(** *** Steps of the other actors *)
Lemma alone a rest p c r w co lg :
  special a = true → phase_ok p c r w co lg (filter special (a :: rest)) →
  filter special rest = [] ∧ phase_ok p c r w co lg [a].
Proof.
  intros Ha. rewrite filter_cons_True by (rewrite Ha; exact I).
  destruct (filter special rest); [done|]. by destruct a.
Qed.

Lemma occ_cons e x l : occ e (x :: l) = ((if decide (e = x) then 1 else 0) + occ e l)%nat.
Proof. unfold occ. rewrite filter_cons. by destruct (decide (e = x)). Qed.
Lemma log_ok_drop lg : log_ok future true lg → log_ok uninit true (EDropFuture :: lg).
Proof. unfold log_ok. rewrite !occ_cons. simpl. lia. Qed.
Lemma log_ok_complete lg : log_ok future true lg → log_ok output true (EOutput :: EDropFuture :: lg).
Proof. unfold log_ok. rewrite !occ_cons. simpl. lia. Qed.
Lemma log_ok_drop_output lg : log_ok output true lg → log_ok uninit true (EDropOutput :: lg).
Proof. unfold log_ok. rewrite !occ_cons. simpl. lia. Qed.
Lemma log_ok_take lg : log_ok output true lg → log_ok uninit true (ETake :: lg).
Proof. unfold log_ok. rewrite !occ_cons. simpl. lia. Qed.
Lemma log_ok_free lg : log_ok uninit true lg → log_ok uninit false (EFree :: lg).
Proof. unfold log_ok. rewrite !occ_cons. simpl. lia. Qed.
#[local] Hint Resolve log_ok_poll log_ok_drop log_ok_complete log_ok_drop_output log_ok_take : task.

Lemma take_tk p c r w co lg n e : take (tk p c r w co lg n) co e = Ret (tk p c r w uninit (e :: lg) n).
Proof. unfold take, tk. cbn -[enc]. by rewrite bool_decide_eq_true_2. Qed.
Lemma complete_tk p c r w lg n :
  complete (tk p c r w future lg n) = Ret (tk p c r w output (EOutput :: EDropFuture :: lg) n, [Publishing]).
Proof. done. Qed.

Section special.
Context (cap : bool) (o : op) (a : actor) (rest : list actor) (p c : bool) (r w : Z) (co : TaskCore).
Context (lg : list event) (n leaked : Z).
Context (Hr : 0 ≤ r ≤ 2 ^ 30 + n) (Hw : 0 ≤ w ≤ 2 ^ 30 + n) (Hl : 0 ≤ leaked ≤ n) (Hn : n < 2 ^ 30).
Context (Hc : r = Z.b2z (refs a) + count refs rest + leaked) (Hf : filter special rest = []).
Context (Hph : phase_ok p c r w co lg [a]) (Hlog : log_ok co true lg).
Context (Htok : TokenReleasing ∈ rest → p = false ∧ c = true).
#[local] Abbreviation t := (tk p c r w co lg n).

Lemma alone_zero : r = 0 → rest = [].
Proof using Hc Hf Hl.
  intros. pose proof (count_nonneg refs rest). apply count_nil; [|done]. destruct (refs a); simpl in Hc; lia.
Qed.

(** The actor becomes another, or ends. *)
Lemma good_one p' c' w' co' lg' b m :
  m = Ret (tk p' c' r w' co' lg' n, [b]) → refs b = refs a → special b = true → phase_ok p' c' r w' co' lg' [b] →
  log_ok co' true lg' → 0 ≤ w' ≤ 2 ^ 30 + n → (p = false → c = true → p' = false ∧ c' = true) → good t rest m.
Proof using Hc Hf Hl Hn Hr Htok.
  intros -> Hb Hsb Hp' Hlog' Hw' Hm. eapply good_tk; [done|simpl; lia|]. intros. apply (inv_alive leaked); try done.
  - simpl. rewrite count_cons, Hb. lia.
  - simpl app. rewrite filter_cons_True, Hf by (rewrite Hsb; exact I). done.
  - simpl. intros [<-|?]%elem_of_cons; [done|]. by apply Hm; apply Htok.
Qed.
Lemma good_end p' c' w' co' lg' m :
  m = Ret (tk p' c' r w' co' lg' n, []) → refs a = false → phase_ok p' c' r w' co' lg' [] →
  log_ok co' true lg' → 0 ≤ w' ≤ 2 ^ 30 + n → 0 < r → (p = false → c = true → p' = false ∧ c' = true) → good t rest m.
Proof using Hc Hf Hl Hn Hr Htok Hw.
  intros -> Ha Hp' Hlog' Hw' H0 Hm. rewrite Ha in Hc. simpl in Hc.
  eapply good_tk; [done|simpl; lia|]. intros. apply (inv_alive leaked); try done.
  - simpl app. by rewrite Hf.
  - simpl. intros ?. by apply Hm; apply Htok.
  - intros ->. apply (count_pos refs). simpl. lia.
Qed.
Lemma good_free : a = Deallocating → good t rest (t' ← dealloc t; Ret (t', [])).
Proof using Hc Hf Hl Hph Hlog Htok.
  intros E. rewrite E in Hph. destruct Hph as (H0 & Hco & _). rewrite (alone_zero H0), Hco in *.
  eexists _, _. split; [done|]. simpl. split; [lia|]. intros _. right. repeat split; by apply log_ok_free.
Qed.
(** Promise and token give their reference back: [Taking] and [TokenDropping] become plain. *)
Lemma good_plain co' lg' b m :
  m = Ret (tk p c r w co' lg' n, [b]) → refs b = refs a → special b = false → phase_ok p c r w co' lg' [] →
  log_ok co' true lg' → (b = TokenReleasing → p = false ∧ c = true) → good t rest m.
Proof using Hc Hf Hl Hn Hr Htok Hw.
  intros -> Hb Hsb Hp' Hlog' Hm. eapply good_tk; [done|simpl; lia|]. intros. apply (inv_alive leaked); try done.
  - simpl. rewrite count_cons, Hb. lia.
  - simpl app. rewrite filter_cons_False, Hf by (rewrite Hsb; auto). done.
  - simpl. intros [<-|?]%elem_of_cons; [by apply Hm|by apply Htok].
Qed.
End special.

Lemma good_refl p c r w co lg n a rest :
  inv (tk p c r w co lg n) (a :: rest) → good (tk p c r w co lg n) rest (Ret (tk p c r w co lg n, [a])).
Proof. intros. eapply good_tk; [done|simpl; lia|done]. Qed.

(** The phase after a step, from the facts on the one before. *)
Ltac solve_phase :=
  repeat match goal with
         | H : context [good] |- _ => clear H
         | H : inv _ _ |- _ => clear H
         | H : context [filter] |- _ => clear H
         | H : context [TokenReleasing ∈ _] |- _ => clear H
         | H : log_ok _ _ _ |- _ => clear H
         end; simpl; naive_solver lia.

Section act.
Context (cap : bool) (rest : list actor) (p c : bool) (r w : Z) (co : TaskCore) (lg : list event) (n leaked : Z).
Context (Hr : 0 ≤ r ≤ 2 ^ 30 + n) (Hw : 0 ≤ w ≤ 2 ^ 30 + n) (Hl : 0 ≤ leaked ≤ n) (Hn : n < 2 ^ 30).
Context (Hf : filter special rest = []) (Hlog : log_ok co true lg).
Context (Htok : TokenReleasing ∈ rest → p = false ∧ c = true).
#[local] Abbreviation t := (tk p c r w co lg n).
#[local] Abbreviation counted_with a := (r = Z.b2z (refs a) + count refs rest + leaked).
#[local] Abbreviation ok a := (phase_ok p c r w co lg [a]).

Lemma good_run : counted_with Runnable → ok Runnable → good t rest (run t).
Proof using Hf Hl Hlog Hn Hr Htok Hw.
  intros Hc (Hp & Hcw & Hco). rewrite run_tk by (done || by eapply in_range).
  destruct c eqn:Ec; eapply (good_one Runnable); try done; simpl; eauto with task.
  exists w. naive_solver lia.
Qed.
Lemma good_suspend k : counted_with (Suspending k) → ok (Suspending k) → good t rest (suspend t k).
Proof using Hf Hl Hlog Hn Hr Htok Hw.
  intros Hc (j & -> & Hp & Hj & Hco & Hu). simpl in Hc. rewrite suspend_tk by (done || lia || by eapply in_range).
  assert (Hseen : j = w → unseen lg = false) by (destruct (unseen lg); [intros ->; specialize (Hu eq_refl); lia|done]).
  destruct c eqn:Ec; [|destruct (Z.eqb_spec w j) as [<-|]].
  - eapply (good_one (Suspending 0)); try done; simpl; (lia || naive_solver).
  - destruct (Z.eqb_spec r 0) as [E0|].
    + specialize (Hseen eq_refl). eapply (good_one (Suspending 0)); try done; simpl; (lia || naive_solver lia).
    + eapply (good_end (Suspending 0)); try done; simpl; try lia; rewrite ?Hp; try done.
      repeat split; [lia|done|by apply Hseen].
  - eapply (good_one (Suspending 0)); try done; simpl; try lia; eauto with task.
    exists (w - j). naive_solver lia.
Qed.
Lemma good_publish : counted_with Publishing → ok Publishing → good t rest (publish t).
Proof using Hf Hl Hlog Hn Hr Htok Hw.
  intros Hc (Hp & Hw0 & Hco). rewrite publish_tk by (by eapply in_range).
  destruct c eqn:Ec; [|destruct (Z.eqb_spec r 0) as [E0|]]; simpl.
  - eapply (good_one Publishing); try done; simpl; naive_solver lia.
  - eapply (good_one Publishing); try done; simpl; naive_solver lia.
  - eapply (good_end Publishing); try done; simpl; naive_solver lia.
Qed.
Lemma good_clear : counted_with Clearing → ok Clearing → good t rest (clear_polling t).
Proof using Hf Hl Hlog Hn Hr Htok Hw.
  intros Hc (Hp & Hw0 & Hcr & Hco). rewrite clear_polling_tk by (by eapply in_range).
  destruct (Z.eqb_spec r 0) as [E0|].
  - eapply (good_one Clearing); try done; simpl; naive_solver lia.
  - eapply (good_end Clearing); try done; simpl; try lia; destruct c; naive_solver lia.
Qed.
Lemma good_close : counted_with Closing → ok Closing → good t rest (close_task t).
Proof using Hf Hl Hlog Hn Hr Htok Hw.
  intros Hc (Hp & Hcr & Hco). rewrite close_task_tk by (by eapply in_range).
  destruct (Z.eqb_spec r 0) as [E0|].
  - eapply (good_one Closing); try done; simpl; naive_solver lia.
  - eapply (good_end Closing); try done; simpl; try lia; naive_solver lia.
Qed.

(** A special actor whose step keeps the word: it drops or moves what it has, or goes on. *)
Lemma good_special a o :
  special a = true → counted_with a → ok a → inv t (a :: rest) → good t rest (act cap o a t).
Proof using Hf Hl Hlog Hn Hr Htok Hw.
  intros Ha Hc Hok Hinv. pose proof (good_refl _ _ _ _ _ _ _ _ _ Hinv) as Hsame.
  pose proof (good_one a rest p c r w co lg n leaked Hr Hl Hn Hc Hf Htok p c w) as Hone.
  pose proof (good_plain a rest p c r w co lg n leaked Hr Hw Hl Hn Hc Hf Htok) as Hplain.
  assert (Hpoll : ∀ k, a = Polling k → polled (filter special (a :: rest))).
  { intros k ->. exists k. by rewrite filter_cons_True, Hf by done. }
  assert (Hcc : r = count refs (a :: rest) + leaked) by (rewrite count_cons; lia).
  assert (Hpf : phase_ok p c r w co lg (filter special (a :: rest))).
  { rewrite filter_cons_True, Hf by (rewrite Ha; exact I). done. }
  assert (Ht : TokenReleasing ∈ a :: rest → p = false ∧ c = true).
  { intros [<-|?]%elem_of_cons; [done|by apply Htok]. }
  destruct a; try done; destruct o; try exact Hsame; cbn [act].
  all: try (by apply good_run || by apply good_suspend || by apply good_publish || by apply good_clear || by apply good_close).
  all: try (eapply good_free; done || eauto; fail).
  all: try (eapply good_clone; eauto; fail). all: try (eapply good_wake_ref; eauto; fail).
  all: simpl in Hok; destruct_and? Hok.
  all: try match goal with H : co = _ |- _ => rewrite H in * end.
  all: unfold then_to, drop_future, drop_output; rewrite ?take_tk, ?complete_tk; ret_step.
  all: try match goal with |- context [bool_decide (?k = future)] => destruct k; [| |done]; cbn [bool_decide] end.
  all: first [eapply Hone; [done|done|done|solve_phase|eauto with task|done|done]
             |eapply Hplain; [done|done|done|solve_phase|eauto with task|solve_phase]].
Qed.
End act.

Lemma act_good cap o a t rest : inv t (a :: rest) → panics t < 2 ^ 30 → good t rest (act cap o a t).
Proof.
  intros Hinv Hn. destruct (id Hinv) as [(p & c & r & w & co & lg & n & leaked & -> & Hr & Hw & Hl & Hc & Hph & Hlog & Htok & _)|[? _]];
    [|done]. simpl in Hn. destruct (special a) eqn:Hs.
  - destruct (alone _ _ _ _ _ _ _ _ Hs Hph) as [Hf Hok]. rewrite count_cons in Hc.
    eapply good_special; eauto. intros. apply Htok. by right.
  - assert (Ha : refs a = true) by (by destruct a).
    assert (H0 : 0 < r) by (rewrite count_cons, Ha in Hc; pose proof (count_nonneg refs rest); simpl in Hc; lia).
    pose proof (good_refl _ _ _ _ _ _ _ _ _ Hinv) as Hsame.
    destruct a; try done; destruct o; try exact Hsame; cbn [act].
    + eapply good_clone; eauto.
    + eapply good_wake_val; eauto.
    + eapply good_wake_ref; eauto.
    + eapply good_drop; eauto.
    + eapply good_drop; eauto.
    + eapply good_poll; eauto.
    + eapply good_drop; eauto.
    + eapply good_cancel; eauto.
    + eapply good_release; eauto.
Qed.

#[export] Instance inv_perm t : Proper ((≡ₚ) ==> iff) (inv t).
Proof.
  assert (H : ∀ l k, l ≡ₚ k → inv t l → inv t k); [|intros l k E; split; by apply H].
  intros l k E [(p & c & r & w & co & lg & n & leaked & Ht & Hr & Hw & Hl & Hc & Hph & Hlog & Htok & Hne)|(-> & ?)].
  - subst t. apply (inv_alive leaked); [done|done|done|by rewrite <- E| |done|by rewrite <- E|].
    + assert (Ep : filter special l ≡ₚ filter special k) by (by rewrite E).
      destruct (filter special l) as [|x [|??]]; [|by apply Permutation_singleton_l in Ep as <-|by destruct x].
      by apply Permutation_nil_l in Ep as <-.
    + intros Hn ->. apply Permutation_nil_r in E as ->. by apply Hne.
  - apply Permutation_nil_l in E as <-. by right.
Qed.

(** Reachable systems: the steps of any threads in any order, from a task just spawned, with
    fewer than [2 ^ 30] panics of [clone_waker] and [wake]. *)
Inductive reachable (cap : bool) : System → Prop :=
| reach_spawn : reachable cap spawn
| reach_forget : reachable cap spawn_and_forget
| reach_step s i o s' : reachable cap s → step cap s i o = Ret s' → panics (task s') < 2 ^ 30 → reachable cap s'.

Lemma task_step_good cap s i o :
  inv (task s) (actors s) → panics (task s) < 2 ^ 30 →
  ∃ s', step cap s i o = Ret s' ∧ panics (task s) ≤ panics (task s') ∧
    (panics (task s') < 2 ^ 30 → inv (task s') (actors s')).
Proof.
  intros Hinv Hn. unfold step. destruct (actors s !! i) as [a|] eqn:Hi.
  - rewrite (delete_Permutation _ _ _ Hi) in Hinv.
    destruct (act_good cap o a _ _ Hinv Hn) as (t' & l & -> & ? & ?). eexists. by split_and!.
  - exists s. split_and!; [done|lia|done].
Qed.

Lemma spawn_inv : inv (task spawn) (actors spawn).
Proof. apply (inv_alive 0 true false 2 1); try done; try (unfold count; simpl; lia); set_solver. Qed.
Lemma spawn_forget_inv : inv (task spawn_and_forget) (actors spawn_and_forget).
Proof. apply (inv_alive 0 true false 1 1); try done; try (unfold count; simpl; lia); set_solver. Qed.

Lemma reachable_inv cap s : reachable cap s → panics (task s) < 2 ^ 30 ∧ inv (task s) (actors s).
Proof.
  induction 1 as [| |s i o s' _ [Hn IH] E Hn']; [split; [done|apply spawn_inv]|split; [done|apply spawn_forget_inv]|].
  destruct (task_step_good cap s i o IH Hn) as (s2 & E2 & ? & H2). rewrite E in E2. injection E2 as <-. split; [done|by apply H2].
Qed.
Fixpoint few_panics (cap : bool) (s : System) (l : list (nat * op)) : bool :=
  match l with
  | [] => true
  | (i, o) :: l =>
    match step cap s i o with
    | Ret s => (panics (task s) <? 2 ^ 30) && few_panics cap s l
    | _ => false
    end
  end.
Lemma reachable_steps cap l : ∀ s s',
  reachable cap s → few_panics cap s l = true → steps cap s l = Ret s' → reachable cap s'.
Proof.
  induction l as [|[i o] l IH]; intros s s' Hs Hf E; simpl in Hf, E; [by simplify_eq|].
  inv_ret E as (s1 & E1 & E). rewrite E1 in Hf. apply andb_true_iff in Hf as [Hp%Z.ltb_lt Hf].
  eapply IH; [|done|done]. by eapply reach_step.
Qed.

(** ** The theorems *)
(** The actors that use the future or the output, and those that are the [Runnable] or run it. *)
Definition holds_core (a : actor) : bool :=
  match a with
  | Polling _ | Completing | Discarding | Forsaken | Cancelling | Taking | TokenDropping | Dropping _ => true
  | _ => false
  end.
Definition runs (a : actor) : bool :=
  match a with
  | Scheduling | Runnable | Polling _ | Completing | Publishing | Discarding | Clearing | Suspending _ | Forsaken
  | Cancelling | Closing => true
  | _ => false
  end.

Lemma count_le f g l : (∀ a, f a = true → g a = true) → count f l ≤ count g l.
Proof.
  intros H. induction l as [|a l IH]; [done|]. rewrite !count_cons.
  specialize (H a). destruct (f a), (g a); simpl Z.b2z; naive_solver lia.
Qed.
Lemma one_special t l : inv t l → count special l ≤ 1.
Proof.
  intros [(p & c & r & w & co & lg & n & k & -> & _ & _ & _ & _ & Hph & _)|(-> & _)]; [|done].
  unfold count. by destruct (filter special l) as [|[] [|??]].
Qed.

(** C15: whatever the wakers, the promise, the cancellation token and the executor do and in
    whatever order their steps interleave, no operation touches a freed task or uses a
    future or an output that is not there, at most one [Runnable] exists, at most one thread
    uses the future or its output at a time, and a freed task has no handle left. *)
Theorem task_memory_safe cap s : reachable cap s →
  (∀ i o, ∃ s', step cap s i o = Ret s') ∧ count runs (actors s) ≤ 1 ∧ count holds_core (actors s) ≤ 1 ∧
  (allocated (task s) = false → actors s = []).
Proof.
  intros [Hn Hinv]%reachable_inv. pose proof (one_special _ _ Hinv) as H1. split_and!.
  - intros i o. destruct (task_step_good cap s i o Hinv Hn) as (s' & ? & _). by exists s'.
  - pose proof (count_le runs special (actors s) ltac:(by intros [])). lia.
  - pose proof (count_le holds_core special (actors s) ltac:(by intros [])). lia.
  - destruct Hinv as [(p & c & r & w & co & lg & n & k & -> & _)|[? _]]; done.
Qed.

(** C17: when nothing refers to a task any more and no count was exceeded, it has been freed,
    once; its future was dropped, once; and its output, if it had one, was dropped or moved
    out, once. *)
Theorem task_freed_once cap s : reachable cap s → panics (task s) = 0 → actors s = [] →
  allocated (task s) = false ∧ occ EFree (log (task s)) = 1%nat ∧ occ EDropFuture (log (task s)) = 1%nat ∧
  (occ EOutput (log (task s)) ≤ 1)%nat ∧
  (occ EDropOutput (log (task s)) + occ ETake (log (task s)) = occ EOutput (log (task s)))%nat.
Proof.
  intros [_ Hinv]%reachable_inv Hn Ha. rewrite Ha in Hinv.
  destruct Hinv as [(p & c & r & w & co & lg & n & k & E & _ & _ & _ & _ & _ & _ & _ & Hne)|(_ & Hal & _ & Hlog)].
  - rewrite E in Hn. by destruct (Hne Hn).
  - unfold log_ok in Hlog. naive_solver.
Qed.

(** The future has returned its output, or the task is being cancelled. *)
Definition finishing (a : actor) : bool :=
  match a with Completing | Publishing | Discarding | Clearing | Cancelling | Closing => true | _ => false end.

Section wake.
Context (cap : bool) (rest : list actor) (r w : Z) (co : TaskCore) (lg : list event) (n : Z).
Context (Hrw : ranged r w) (Hu : unseen lg = true).
#[local] Abbreviation s a := (mkSystem (tk true false r w co lg n) (a :: rest)).
(** The actor at the head of the list gets to a poll with the steps [os] of its own. *)
#[local] Abbreviation polls s os :=
  (∃ s', steps cap s (map (pair 0%nat) os) = Ret s' ∧ log (task s') = EPoll :: lg).

Lemma polls_runnable : polls (s Runnable) [Run].
Proof using Hrw.
  cbn -[run tk]. rewrite run_tk by done. eexists. by split.
Qed.
Lemma polls_suspending k : phase_ok true false r w co lg [Suspending k] → polls (s (Suspending k)) [Go].
Proof using Hrw Hu.
  intros (j & -> & _ & Hj & _ & Hlt). specialize (Hlt Hu).
  cbn -[suspend tk]. rewrite suspend_tk by (done || lia). rewrite (proj2 (Z.eqb_neq w j)) by lia.
  eexists. by split.
Qed.
Lemma polls_head a : runs a = true → finishing a = false → phase_ok true false r w co lg [a] → ∃ o os, polls (s a) (o :: os).
Proof using Hrw Hu.
  intros Hra Hfa Hph. destruct a; try done.
  - exists Run, []. apply polls_runnable.
  - exists Go, [Run]. apply polls_runnable.
  - exists Pending, [Go]. by apply polls_suspending.
  - exists Go, []. by apply polls_suspending.
  - simpl in Hph. destruct_and! Hph. congruence.
Qed.
End wake.

(** A step does not depend on where in the list its actor is. *)
Lemma steps_at cap s i a o os : actors s !! i = Some a →
  steps cap s ((i, o) :: map (pair 0%nat) os) =
  steps cap (mkSystem (task s) (a :: delete i (actors s))) (map (pair 0%nat) (o :: os)).
Proof. intros H. simpl. unfold step. simpl. by rewrite H. Qed.

(** C16: no wake-up is lost.  When a task that is neither complete nor cancelled was woken after
    its last poll began, then either some thread has its [Runnable] and, whatever the
    others did, polls the future again after a few steps of its own, or the future has already
    returned its output or is being cancelled. *)
Theorem wake_is_polled cap s : reachable cap s →
  Z.land (state (task s)) POLLING = POLLING → Z.land (state (task s)) CLOSED = 0 →
  allocated (task s) = true → unseen (log (task s)) = true →
  ∃ i a, actors s !! i = Some a ∧ (finishing a = true ∨ runs a = true ∧
    ∃ o os s', steps cap s ((i, o) :: map (pair 0%nat) os) = Ret s' ∧ log (task s') = EPoll :: log (task s)).
Proof.
  intros [Hn Hinv]%reachable_inv Hp Hc Hal Hu. destruct s as [t acts]. cbn [task actors] in *.
  destruct Hinv as [(p & c & r & w & co & lg & n & k & -> & Hr & Hw & _ & _ & Hph & _)|(_ & ? & _)]; [|congruence].
  assert (Hrw : ranged r w) by (eapply in_range; done). cbn [task state log tk] in *.
  rewrite land_polling in Hp by done. rewrite land_closed in Hc by done.
  destruct p; [|done]. destruct c; [done|].
  destruct (filter special acts) as [|a [|b sp]] eqn:Hf; [destruct Hph as (_ & _ & _ & ?); congruence| |by destruct a].
  assert (Hin : a ∈ acts) by (eapply list_elem_of_filter; rewrite Hf; set_solver).
  apply list_elem_of_lookup in Hin as [i Hi]. exists i, a. split; [done|].
  destruct (finishing a) eqn:Hfa; [by left|right].
  assert (Hra : runs a = true) by (destruct a; simpl in Hph; try done; destruct_and? Hph; destruct_or?; destruct_and?; congruence).
  split; [done|]. destruct (polls_head cap (delete i acts) r w co lg n Hrw Hu a Hra Hfa Hph) as (o & os & s' & E & El).
  exists o, os, s'. split; [|done]. by rewrite (steps_at cap _ i a).
Qed.

(** ** A task that is polled twice *)
Definition demo_sleep : list (nat * op) := [(1, Run); (0, Clone); (0, Pending); (0, Go); (0, WakeByVal)]%nat.
Definition demo_finish : list (nat * op) :=
  [(0, Go); (0, Run); (0, Ready); (0, Go); (0, Go); (0, Poll); (0, Go); (0, Drop); (0, Drop); (0, Go)]%nat.
Definition demo_woken : System :=
  mkSystem (mkTask (enc true false 2 1) future true [EWake; EPoll] 0) [Scheduling; Promise; CancelToken].
Definition demo_freed : System :=
  mkSystem (mkTask (enc false true 0 1) uninit false [EFree; ETake; EOutput; EDropFuture; EPoll; EWake; EPoll] 0) [].

Lemma demo_woken_reachable : reachable false demo_woken.
Proof. eapply (reachable_steps false demo_sleep); [apply reach_spawn|vm_compute; reflexivity..]. Qed.
Lemma demo_freed_reachable : reachable false demo_freed.
Proof. eapply (reachable_steps false demo_finish); [apply demo_woken_reachable|vm_compute; reflexivity..]. Qed.

Lemma task_memory_safe_witness : ∃ s', step false demo_woken 0 Go = Ret s'.
Proof. apply (proj1 (task_memory_safe false demo_woken demo_woken_reachable)). Defined.
Lemma task_freed_once_witness : allocated (task demo_freed) = false ∧ occ EFree (log (task demo_freed)) = 1%nat.
Proof.
  destruct (task_freed_once false demo_freed demo_freed_reachable eq_refl eq_refl) as (H1 & H2 & _).
  exact (conj H1 H2).
Defined.
Lemma wake_is_polled_witness : ∃ i a, actors demo_woken !! i = Some a ∧ (finishing a = true ∨ runs a = true ∧
  ∃ o os s', steps false demo_woken ((i, o) :: map (pair 0%nat) os) = Ret s' ∧
    log (task s') = EPoll :: log (task demo_woken)).
Proof.
  apply (wake_is_polled false demo_woken demo_woken_reachable); vm_compute; reflexivity.
Defined.
End TaskFacts.
