(* ===== verification/SyncCell.v ===== *)
(** * The clock's cell: [asynchronix/src/util/sync_cell.rs]

    [SyncCell], a cell with one writer and any number of readers (a seqlock), which holds the
    simulation time; and its use for [TearableAtomicTime] of [asynchronix/src/time/monotonic_time.rs].

    The value has [n] fields, each an atomic of its own, loaded and stored one at a time: every
    access of a thread to the sequence number or to a field is one step, and steps of threads
    interleave freely (sequentially consistent: the fences of the source are what makes this hold of
    weaker memory).  [untorn]: a read that succeeds gives the value of the last write that was
    complete when the read began.  Beside the state of the code, [hist] keeps the values written and
    [log] the results of reads. *)

From S2P Require Import Prelude.

Module SyncCell.
Section cell.
Context {W : Type} (n : nat).

(** [write]: the sequence number is loaded, stored odd, the fields are stored, and it is stored even. *)
Inductive Writer :=
| WIdle
| WLoaded (value : list W) (seq : Z)
| WStoring (value : list W) (seq : Z) (i : nat).
(** [try_read]: the sequence number was loaded and was even, and the fields [value] were loaded; [began]
    is the number of the value that was in the cell then. *)
Inductive Reader := RLoading (seq : Z) (value : list W) (began : nat).
Record Cell := mkCell {
  sequence : Z;
  tearable : list W;
  writer : Writer;
  readers : gmap nat Reader;
  hist : list (list W);
  log : list (nat * result (list W) ())
}.
Implicit Types c : Cell.
Definition new (value : list W) : Cell := mkCell 0 value WIdle ∅ [value] [].
(** [SyncCell::read], by the writer. *)
Definition read c : list W := tearable c.
Definition latest c : nat := pred (length (hist c)).

Definition write c (value : list W) : option Cell :=
  match writer c with
  | WIdle => Some (mkCell (sequence c) (tearable c) (WLoaded value (sequence c)) (readers c) (hist c) (log c))
  | _ => None
  end.
Definition writer_step c : option Cell :=
  match writer c with
  | WIdle => None
  | WLoaded v s => Some (mkCell (wrap 64 (s + 1)) (tearable c) (WStoring v s 0) (readers c) (hist c) (log c))
  | WStoring v s i =>
      if (i <? n)%nat then
        w ← v !! i;
        Some (mkCell (sequence c) (<[i := w]> (tearable c)) (WStoring v s (S i)) (readers c) (hist c) (log c))
      else Some (mkCell (wrap 64 (s + 2)) (tearable c) WIdle (readers c) (hist c ++ [v]) (log c))
  end.
Definition try_read c (r : nat) : option Cell :=
  match readers c !! r with
  | Some _ => None
  | None =>
      if negb (Z.land (sequence c) 1 =? 0)
      then Some (mkCell (sequence c) (tearable c) (writer c) (readers c) (hist c) (log c ++ [(latest c, Err ())]))
      else Some (mkCell (sequence c) (tearable c) (writer c) (<[r := RLoading (sequence c) [] (latest c)]> (readers c)) (hist c) (log c))
  end.
Definition reader_step c (r : nat) : option Cell :=
  match readers c !! r with
  | None => None
  | Some (RLoading s value k) =>
      if (length value <? n)%nat then
        w ← tearable c !! length value;
        Some (mkCell (sequence c) (tearable c) (writer c) (<[r := RLoading s (value ++ [w]) k]> (readers c)) (hist c) (log c))
      else
        let result := if sequence c =? s then Ok value else Err () in
        Some (mkCell (sequence c) (tearable c) (writer c) (delete r (readers c)) (hist c) (log c ++ [(k, result)]))
  end.
Inductive Act := Write (value : list W) | WriterStep | TryRead (r : nat) | ReaderStep (r : nat).
Definition step c (a : Act) : option Cell :=
  match a with
  | Write v => if (length v =? n)%nat then write c v else None
  | WriterStep => writer_step c
  | TryRead r => try_read c r
  | ReaderStep r => reader_step c r
  end.
Inductive reach (v0 : list W) : Cell → Prop :=
| Reach_new : reach v0 (new v0)
| Reach_step c a c' : reach v0 c → step c a = Some c' → reach v0 c'.

(** ** The invariant *)
Definition storing (w : Writer) : bool := match w with WStoring _ _ _ => true | _ => false end.
(** [cur] is the value of the last complete write. *)
Definition writer_ok (cur : list W) c : Prop :=
  let s := 2 * Z.of_nat (latest c) in
  match writer c with
  | WIdle => sequence c = s ∧ tearable c = cur
  | WLoaded v s' => s' = s ∧ sequence c = s ∧ tearable c = cur ∧ length v = n
  | WStoring v s' i => s' = s ∧ sequence c = s + 1 ∧ (i ≤ n)%nat ∧ tearable c = take i v ++ drop i cur ∧ length v = n
  end.
Definition reader_ok (cur : list W) c (r : Reader) : Prop :=
  let '(RLoading s value k) := r in
  (k ≤ latest c)%nat ∧ s = 2 * Z.of_nat k ∧ (length value ≤ n)%nat ∧
  (storing (writer c) = false → k = latest c → value = take (length value) cur).
Record inv c : Prop := mkInv {
  iv_cur : ∃ cur, hist c !! latest c = Some cur ∧ length cur = n ∧ writer_ok cur c ∧ map_Forall (λ _, reader_ok cur c) (readers c);
  iv_log : ∀ k v, (k, Ok v) ∈ log c → hist c !! k = Some v
}.
(** Fewer than 2^63 writes: the sequence number does not come round. *)
Definition bounded c : Prop := Z.of_nat (length (hist c)) ≤ 2 ^ 63.

Lemma step_hist c a c' : step c a = Some c' → (length (hist c) ≤ length (hist c'))%nat.
Proof.
  unfold step, write, writer_step, try_read, reader_step, mbind, option_bind.
  intros E. repeat (case_match; simplify_eq/=; try done). all: rewrite ?length_app; lia.
Qed.
Lemma even_seq k : Z.land (2 * k) 1 = 0.
Proof. rewrite (Z.land_ones _ 1) by done. change (2 ^ 1) with 2. rewrite Z.mul_comm. by apply Z.mod_mul. Qed.
Lemma odd_seq k : Z.land (2 * k + 1) 1 ≠ 0.
Proof. rewrite (Z.land_ones _ 1) by done. change (2 ^ 1) with 2. rewrite Z.add_comm, Z.mul_comm, Z.mod_add by done. done. Qed.
Lemma tear_next (i : nat) (v cur : list W) w : v !! i = Some w → length cur = length v →
  <[i := w]> (take i v ++ drop i cur) = take (S i) v ++ drop (S i) cur.
Proof.
  intros Hw Hl. pose proof (lookup_lt_Some _ _ _ Hw) as Hi.
  rewrite insert_app_r_alt by (rewrite length_take; lia). rewrite length_take, Nat.min_l, Nat.sub_diag by lia.
  destruct (lookup_lt_is_Some_2 cur i ltac:(lia)) as [x Hx]. rewrite (drop_S cur x i) by done. cbn. rewrite (take_S_r v i w) by done.
  by rewrite <-(assoc_L (++)).
Qed.
Lemma latest_snoc (l : list (list W)) v : pred (length (l ++ [v])) = length l.
Proof. rewrite length_app. cbn. lia. Qed.

Lemma cell_write c v c' : inv c → length v = n → write c v = Some c' → inv c'.
Proof.
  intros [(cur & Hc & Hn & Hw & Hr) Hl] Hv E. unfold write in E. unfold writer_ok in Hw. destruct (writer c) eqn:Ew; try done. injection E as <-.
  split; [|done]. exists cur. split_and!; [done|done| |]; unfold writer_ok, latest in *; cbn; [naive_solver|].
  eapply map_Forall_impl; [exact Hr|]. intros r [s value k]. unfold reader_ok, latest. cbn. by rewrite Ew.
Qed.
Lemma cell_writer c c' : inv c → bounded c' → writer_step c = Some c' → inv c'.
Proof.
  intros [(cur & Hc & Hn & Hw & Hr) Hl] Hb E. unfold writer_step in E. unfold writer_ok in Hw. destruct (writer c) as [|v s|v s i] eqn:Ew; [done| |].
  - injection E as <-. destruct Hw as (-> & Hs & Ht & Hv). split; [|done]. exists cur. unfold writer_ok, bounded, latest in *. cbn in *.
    split_and!; try done; [rewrite wrap_id; [done|lia]|lia|]. eapply map_Forall_impl; [exact Hr|]. intros r [s value k]. unfold reader_ok, latest. cbn. naive_solver.
  - destruct Hw as (-> & Hs & Hi & Ht & Hv). destruct (Nat.ltb_spec i n).
    + destruct (v !! i) as [w|] eqn:Hw; [|done]. injection E as <-. split; [|done]. exists cur. unfold writer_ok, latest in *. cbn.
      split_and!; try done; [rewrite Ht; apply tear_next; [done|lia]|]. eapply map_Forall_impl; [exact Hr|]. intros r [s value k]. unfold reader_ok, latest. cbn. naive_solver.
    + injection E as <-. assert (i = n) as -> by lia. unfold bounded, latest in *. cbn in *. pose proof (lookup_lt_Some _ _ _ Hc). rewrite length_app in Hb. cbn in Hb. split.
      * exists v. unfold writer_ok, latest. cbn. rewrite latest_snoc. split_and!; [by rewrite lookup_app_r, Nat.sub_diag by lia|done| | |].
        -- rewrite wrap_id; lia.
        -- rewrite Ht, (firstn_all2 v), (drop_ge cur) by lia. apply app_nil_r.
        -- eapply map_Forall_impl; [exact Hr|]. intros r [s value k]. unfold reader_ok, latest. cbn. rewrite latest_snoc. intros (Hk & ? & ? & _). split_and!; [lia|done..|]. lia.
      * cbn. intros k v' Hin. by apply lookup_app_l_Some, Hl.
Qed.
Lemma cell_try c r c' : inv c → try_read c r = Some c' → inv c'.
Proof.
  intros [(cur & Hc & Hn & Hw & Hr) Hl] E. unfold try_read in E. destruct (readers c !! r); [done|]. destruct (Z.eqb_spec (Z.land (sequence c) 1) 0) as [Hz|]; cbn in E; injection E as <-.
  - split; [|done]. exists cur. split_and!; try done. apply map_Forall_insert_2; [|done]. unfold reader_ok, latest. cbn. split_and!; try lia; [|done].
    unfold writer_ok, latest in Hw. destruct (writer c); [by destruct Hw|by destruct Hw as (_ & ? & _)|]. destruct Hw as (_ & Hs & _). rewrite Hs in Hz. by apply odd_seq in Hz.
  - split; [by exists cur|]. cbn. intros k v [Hin|Hin]%elem_of_app; [by apply Hl|]. apply list_elem_of_singleton in Hin. done.
Qed.
Lemma cell_reader c r c' : inv c → bounded c → reader_step c r = Some c' → inv c'.
Proof.
  intros [(cur & Hc & Hn & Hw & Hr) Hl] Hb E. unfold reader_step in E. destruct (readers c !! r) as [[s value k]|] eqn:Er; [|done].
  pose proof (map_Forall_lookup_1 _ _ _ _ Hr Er) as (Hk & -> & Hlen & Hval). destruct (Nat.ltb_spec (length value) n).
  - destruct (tearable c !! length value) as [w|] eqn:Et; [|done]. injection E as <-. split; [|done]. exists cur. split_and!; try done.
    apply map_Forall_insert_2; [|done]. unfold reader_ok, latest in *. cbn in *. rewrite length_app. cbn. split_and!; try lia. intros Hst ->.
    rewrite (Hval Hst eq_refl) at 1. rewrite Nat.add_1_r. symmetry. apply take_S_r. unfold writer_ok in Hw. destruct (writer c); naive_solver.
  - injection E as <-. split.
    + exists cur. split_and!; try done. by apply map_Forall_delete.
    + cbn. intros k' v [Hin|Hin]%elem_of_app; [by apply Hl|]. apply list_elem_of_singleton in Hin. destruct (Z.eqb_spec (sequence c) (2 * Z.of_nat k)) as [Hs|]; [|done].
      injection Hin as -> ->. unfold writer_ok in Hw. destruct (storing (writer c)) eqn:Hst.
      { destruct (writer c); try done. lia. }
      assert (k = latest c) as -> by (destruct (writer c); naive_solver lia). rewrite (Hval eq_refl eq_refl), firstn_all2 by lia. done.
Qed.
Lemma cell_reach_inv v0 c : length v0 = n → reach v0 c → bounded c → inv c.
Proof.
  intros Hv. induction 1 as [|c a c' _ IH E]; intros Hb.
  - split; [|by intros ?? ?%elem_of_nil]. exists v0. unfold writer_ok, latest. cbn. split_and!; try done. 
  - pose proof (step_hist _ _ _ E). assert (bounded c) as Hb0 by (unfold bounded in *; lia). specialize (IH Hb0). destruct a; cbn in E.
    + destruct (Nat.eqb_spec (length value) n); [|done]. by eapply cell_write.
    + by eapply cell_writer.
    + by eapply cell_try.
    + by eapply cell_reader.
Qed.

(** ** Theorems *)
(** Whatever the interleaving of one writer and any number of readers, a read that succeeds gives, whole,
    the value of the last write that was complete when the read began, as long as there are fewer than
    2^63 writes. *)
Theorem untorn v0 c k v : length v0 = n → reach v0 c → bounded c → (k, Ok v) ∈ log c → hist c !! k = Some v.
Proof. intros Hn Hr Hb. exact (iv_log _ (cell_reach_inv _ _ Hn Hr Hb) k v). Qed.

(** A read that no write disturbs succeeds, with the latest value. *)
Definition run c (l : list Act) : option Cell := foldl (λ o a, o ≫= λ c, step c a) (Some c) l.
Lemma read_fields m : ∀ c r s k value cur, writer c = WIdle → tearable c = cur → sequence c = s → length cur = n →
  readers c !! r = Some (RLoading s value k) → value = take (n - m) cur → (m ≤ n)%nat →
  ∃ c', run c (replicate (S m) (ReaderStep r)) = Some c' ∧ log c' = log c ++ [(k, Ok cur)].
Proof.
  induction m as [|m IH]; intros c r s k value cur Hw Ht Hs Hn Hr Hv Hm.
  - unfold run. cbn. unfold reader_step. rewrite Hr, Hv, length_take, (proj2 (Nat.ltb_ge _ _)) by lia. rewrite Hs, Z.eqb_refl.
    eexists. split; [done|]. cbn. by rewrite Nat.sub_0_r, firstn_all2 by lia.
  - assert (length value = n - S m)%nat as Hl by (rewrite Hv, length_take; lia).
    destruct (lookup_lt_is_Some_2 cur (n - S m) ltac:(lia)) as [w Hcw].
    assert (step c (ReaderStep r) = Some (mkCell (sequence c) (tearable c) (writer c) (<[r := RLoading s (value ++ [w]) k]> (readers c)) (hist c) (log c))) as E.
    { cbn. unfold reader_step. rewrite Hr, Hl, (proj2 (Nat.ltb_lt _ _)) by lia. rewrite Ht, Hcw. done. }
    destruct (IH (mkCell (sequence c) (tearable c) (writer c) (<[r := RLoading s (value ++ [w]) k]> (readers c)) (hist c) (log c)) r s k (value ++ [w]) cur)
      as (c' & Hrun & Hlog); try done; [by cbn; rewrite lookup_insert_eq| |lia|].
    { rewrite Hv, <-(take_S_r cur) by done. f_equal. lia. }
    exists c'. split; [|done]. unfold run. change (replicate (S (S m)) (ReaderStep r)) with (ReaderStep r :: replicate (S m) (ReaderStep r)).
    cbn [foldl]. change (Some c ≫= _) with (step c (ReaderStep r)). rewrite E. exact Hrun.
Qed.
Theorem undisturbed_read v0 c r : length v0 = n → reach v0 c → bounded c → writer c = WIdle → readers c !! r = None →
  ∃ c' v, run c (TryRead r :: replicate (S n) (ReaderStep r)) = Some c' ∧ hist c !! latest c = Some v ∧ log c' = log c ++ [(latest c, Ok v)].
Proof.
  intros Hn Hr Hb Hw Hi. destruct (cell_reach_inv _ _ Hn Hr Hb) as [(cur & Hc & Hl & Hwo & _) _]. unfold writer_ok in Hwo. rewrite Hw in Hwo. destruct Hwo as [Hs Ht].
  assert (step c (TryRead r) = Some (mkCell (sequence c) (tearable c) (writer c) (<[r := RLoading (sequence c) [] (latest c)]> (readers c)) (hist c) (log c))) as E.
  { cbn. unfold try_read. rewrite Hi, Hs, even_seq. done. }
  destruct (read_fields n (mkCell (sequence c) (tearable c) (writer c) (<[r := RLoading (sequence c) [] (latest c)]> (readers c)) (hist c) (log c)) r (sequence c) (latest c) [] cur)
    as (c' & Hrun & Hlog); try done; [by cbn; rewrite lookup_insert_eq|by rewrite Nat.sub_diag|].
  exists c', cur. split_and!; try done. unfold run. cbn [foldl]. change (Some c ≫= _) with (step c (TryRead r)). rewrite E. exact Hrun.
Qed.

(** Even a torn read has in each field what some write put there. *)
Definition pending (w : Writer) : list (list W) := match w with WIdle => [] | WLoaded v _ | WStoring v _ _ => [v] end.
Definition written c : list (list W) := hist c ++ pending (writer c).
Definition from (l : list (list W)) (value : list W) : Prop := ∀ i w, value !! i = Some w → ∃ v, v ∈ l ∧ v !! i = Some w.
Lemma from_mono l l' value : l ⊆ l' → from l value → from l' value.
Proof. intros Hs Hf i w Hw. destruct (Hf i w Hw) as (v & Hv & ?). exists v. split; [by apply Hs|done]. Qed.
Record fields c : Prop := mkFields {
  fl_cell : from (written c) (tearable c);
  fl_readers : map_Forall (λ _ '(RLoading _ value _), from (written c) value) (readers c)
}.
Lemma fields_write c c' : fields c → written c ⊆ written c' → tearable c' = tearable c → readers c' = readers c → fields c'.
Proof.
  intros [H1 H2] Hs Et Er. split; rewrite ?Et, ?Er; [by eapply from_mono|]. eapply map_Forall_impl; [exact H2|]. intros r [s value k]. by apply from_mono.
Qed.
Lemma fields_step c a c' : fields c → step c a = Some c' → fields c'.
Proof.
  intros Hf E. destruct a; cbn in E.
  - destruct (_ =? _)%nat; [|done]. unfold write in E. destruct (writer c) eqn:Ew; try done. injection E as <-. eapply fields_write; [done| |done..].
    unfold written. cbn. rewrite Ew. set_solver.
  - unfold writer_step in E. destruct (writer c) as [|v s|v s i] eqn:Ew; [done| |].
    + injection E as <-. eapply fields_write; [done| |done..]. unfold written. cbn. by rewrite Ew.
    + destruct (_ <? _)%nat.
      * destruct (v !! i) as [w|] eqn:Hw; [|done]. injection E as <-. destruct Hf as [H1 H2]. unfold written in *. rewrite Ew in *. split; [|done]. cbn in *.
        intros j w' [(-> & -> & _)|[_ Hj]]%list_lookup_insert_Some; [|by apply H1]. exists v. split; [|done]. apply elem_of_app. right. by apply list_elem_of_singleton.
      * injection E as <-. eapply fields_write; [done| |done..]. unfold written. cbn. rewrite Ew, app_nil_r. done.
  - unfold try_read in E. destruct (readers c !! r); [done|]. destruct (negb _); injection E as <-; [by eapply fields_write|].
    destruct Hf as [H1 H2]. split; [done|]. apply map_Forall_insert_2; [|done]. by intros i w.
  - unfold reader_step in E. destruct (readers c !! r) as [[s value k]|] eqn:Er; [|done]. destruct Hf as [H1 H2]. destruct (_ <? _)%nat.
    + destruct (tearable c !! length value) as [w|] eqn:Et; [|done]. injection E as <-. split; [done|]. apply map_Forall_insert_2; [|done].
      pose proof (map_Forall_lookup_1 _ _ _ _ H2 Er) as Hv. cbn in Hv. intros i w' [Hi|[Hi Ei]]%lookup_app_Some; [by apply Hv|].
      destruct (i - length value)%nat eqn:Ed; [|done]. injection Ei as <-. replace i with (length value) by lia. by apply H1.
    + injection E as <-. split; [done|]. by apply map_Forall_delete.
Qed.
Lemma reach_fields v0 c : reach v0 c → fields c.
Proof.
  induction 1 as [|c a c' _ IH E]; [|by eapply fields_step]. split; [|by apply map_Forall_empty].
  intros i w Hw. exists v0. split; [|done]. unfold written. cbn. apply list_elem_of_singleton. done.
Qed.
End cell.

(** ** The simulation time

    [TearableAtomicTime]: seconds and nanoseconds.  [MonotonicTime::new] and its accessors are those of
    the crate tai_time. *)
Section time.
Context {T : Type} (monotonic_new : Z → Z → option T) (as_secs subsec_nanos : T → Z).
Definition tearable_store (t : T) : list Z := [as_secs t; subsec_nanos t].
Definition tearable_load (value : list Z) : outcome T :=
  match value with
  | [secs; nanos] => unwrap (monotonic_new secs nanos)
  | _ => Panic
  end.
(** A load never panics, even one that a write interrupts. *)
Theorem torn_load_valid c (t0 : T) r s value k : (∀ secs nanos, 0 ≤ nanos < 10 ^ 9 → is_Some (monotonic_new secs nanos)) →
  (∀ t, 0 ≤ subsec_nanos t < 10 ^ 9) → reach 2 (tearable_store t0) c → (∀ v, v ∈ written c → ∃ t, v = tearable_store t) →
  readers c !! r = Some (RLoading s value k) → length value = 2%nat → ∃ t, tearable_load value = Ret t.
Proof.
  intros Hnew Hsub Hr Hw Hl Hlen. pose proof (map_Forall_lookup_1 _ _ _ _ (fl_readers _ (reach_fields _ _ _ Hr)) Hl) as Hf. cbn in Hf.
  destruct value as [|secs [|nanos [|]]]; try done. destruct (Hf 1%nat nanos eq_refl) as (v & Hv & Hn). destruct (Hw v Hv) as [t ->]. cbn in Hn. injection Hn as <-.
  destruct (Hnew secs (subsec_nanos t) (Hsub t)) as [t' Ht']. exists t'. cbn. by rewrite Ht'.
Qed.
End time.
End SyncCell.

(** ** A read that a write interrupts, and one that it does not *)
Module SyncCellDemo.
Import SyncCell.
Definition demo : option Cell := run 2 (new [1; 10]) [TryRead 0; ReaderStep 0; Write [2; 20]; WriterStep; WriterStep; WriterStep; ReaderStep 0; WriterStep;
  ReaderStep 0; TryRead 1; ReaderStep 1; ReaderStep 1; ReaderStep 1].
(** The first reader loads [1; 20] and gives it up; the second one gets the value written. *)
Example demo_log : log <$> demo = Some [(0%nat, Err ()); (1%nat, Ok [2; 20])].
Proof. vm_compute. reflexivity. Qed.
Lemma run_reach {W} n (v0 : list W) l : ∀ c c', reach n v0 c → run n c l = Some c' → reach n v0 c'.
Proof.
  induction l as [|a l IH]; intros c c' Hr E; [by injection E as <-|]. unfold run in E. cbn [foldl] in E. change (Some c ≫= _) with (step n c a) in E.
  destruct (step n c a) as [c1|] eqn:Es; [eapply IH; [by eapply Reach_step|done]|]. exfalso. clear -E. induction l; [done|auto].
Qed.
Lemma untorn_witness : ∃ c, demo = Some c ∧ (1%nat, Ok [2; 20]) ∈ log c ∧ hist c !! 1%nat = Some [2; 20].
Proof.
  assert (∃ c, demo = Some c ∧ (1%nat, Ok [2; 20]) ∈ log c ∧ bounded c) as (c & Hd & Hin & Hb).
  { eexists. split; [vm_compute; reflexivity|]. split; [apply list_elem_of_further, list_elem_of_here|]. vm_compute. discriminate. }
  exists c. split; [done|]. split; [done|]. apply (untorn 2 [1; 10] c 1 [2; 20] eq_refl); [|done|done].
  eapply run_reach; [apply Reach_new|exact Hd].
Defined.
End SyncCellDemo.
