(* ===== verification/Slot.v ===== *)
(** * Replies: [asynchronix/src/util/slot.rs]

    A slot carries one value from a writer to a reader, which may be on different threads: the replies
    of queries are returned in one.  Both handles point to one allocation; which of them frees it is
    settled by two flags.  Every access to the flags, to the value or to the allocation is one step,
    and the steps of the two handles interleave freely (sequentially consistent).

    An access to freed memory, a second free, and a read or a drop of a value that is not there are
    undefined behaviour: [Panic].  [slot_sound]: they never happen, two threads are never about to access
    the value, and in the end the slot was freed once and the value was read once or dropped once. *)

From S2P Require Import Prelude.

Module Slot.
Definition CLOSED : Z := 1.
Definition POPULATED : Z := 2.
Inductive ReadError := NoValue | Closed.

Section slot.
Context {V : Type}.
(** The writer: its handle is held; the value is written; it has to be dropped; the slot has to be freed, in
    [write] or in [drop]; [drop] found the slot open; the handle is gone. *)
Inductive Writer := WHeld | WWritten | WDropValue | WFree (in_write : bool) | WClosing | WGone.
(** The reader: its handle is held; it saw a value; it took it over; [drop] found the slot open; the value has to
    be dropped; the slot has to be freed; the handle is gone. *)
Inductive Reader := RHeld | RTaking | RReading | RClosing | RDropValue | RFree | RGone.
Record Slot := mkSlot {
  state : Z;
  allocated : bool;
  value : option V;
  writer : Writer;
  reader : Reader;
  (** What happened: the value passed to [write] and its result, the results of [try_read], the values dropped in
      the slot, the number of times it was freed. *)
  given : option V;
  write_result : option (result () ());
  reads : list (result V ReadError);
  dropped : list V;
  freed : nat
}.
Implicit Types s : Slot.
Definition slot : Slot := mkSlot 0 true None WHeld RHeld None None [] [] 0.

Definition set_writer (w : Writer) s : Slot :=
  mkSlot (state s) (allocated s) (value s) w (reader s) (given s) (write_result s) (reads s) (dropped s) (freed s).
Definition set_reader (r : Reader) s : Slot :=
  mkSlot (state s) (allocated s) (value s) (writer s) r (given s) (write_result s) (reads s) (dropped s) (freed s).
Definition set_state (z : Z) s : Slot :=
  mkSlot z (allocated s) (value s) (writer s) (reader s) (given s) (write_result s) (reads s) (dropped s) (freed s).
Definition returns (r : result () ()) s : Slot :=
  mkSlot (state s) (allocated s) (value s) (writer s) (reader s) (given s) (Some r) (reads s) (dropped s) (freed s).
Definition read_gives (r : result V ReadError) s : Slot :=
  mkSlot (state s) (allocated s) (value s) (writer s) (reader s) (given s) (write_result s) (reads s ++ [r]) (dropped s) (freed s).

(** The accesses. *)
Definition load s : outcome Z := if allocated s then Ret (state s) else Panic.
Definition store (z : Z) s : outcome Slot := if allocated s then Ret (set_state z s) else Panic.
Definition fetch_or (flags : Z) s : outcome (Z * Slot) :=
  if allocated s then Ret (state s, set_state (Z.lor (state s) flags) s) else Panic.
Definition write_value (v : V) s : outcome Slot :=
  if allocated s then Ret (mkSlot (state s) true (Some v) (writer s) (reader s) (Some v) (write_result s) (reads s) (dropped s) (freed s)) else Panic.
Definition take_value s : outcome (V * Slot) :=
  match allocated s, value s with
  | true, Some v => Ret (v, mkSlot (state s) true None (writer s) (reader s) (given s) (write_result s) (reads s) (dropped s) (freed s))
  | _, _ => Panic
  end.
Definition read_value s : outcome (V * Slot) := take_value s.
Definition drop_value_in_place s : outcome Slot :=
  '(v, s) ← take_value s;
  Ret (mkSlot (state s) (allocated s) (value s) (writer s) (reader s) (given s) (write_result s) (reads s) (dropped s ++ [v]) (freed s)).
Definition free s : outcome Slot :=
  if allocated s then Ret (mkSlot (state s) false (value s) (writer s) (reader s) (given s) (write_result s) (reads s) (dropped s) (S (freed s))) else Panic.

(** [SlotWriter::write] and the drop handler, up to their first access; the accesses that follow. *)
Definition write (v : V) s : outcome Slot := s ← write_value v s; Ret (set_writer WWritten s).
Definition drop_writer s : outcome Slot :=
  z ← load s;
  Ret (set_writer (if Z.land z CLOSED =? 0 then WClosing else WFree false) s).
Definition writer_step s : option (outcome Slot) :=
  match writer s with
  | WHeld | WGone => None
  | WWritten => Some (
      '(z, s) ← fetch_or (Z.lor POPULATED CLOSED) s;
      Ret (if Z.land z CLOSED =? CLOSED then set_writer WDropValue s else returns (Ok ()) (set_writer WGone s)))
  | WDropValue => Some (s ← drop_value_in_place s; Ret (set_writer (WFree true) s))
  | WFree in_write => Some (
      s ← free s;
      let s := set_writer WGone s in
      Ret (if in_write then returns (Err ()) s else s))
  | WClosing => Some (
      '(z, s) ← fetch_or CLOSED s;
      Ret (set_writer (if Z.land z CLOSED =? 0 then WGone else WFree false) s))
  end.

(** [SlotReader::try_read] and the drop handler. *)
Definition try_read s : outcome Slot :=
  z ← load s;
  Ret (if z =? 0 then read_gives (Err NoValue) s
       else if Z.land z POPULATED =? 0 then read_gives (Err Closed) s
       else set_reader RTaking s).
(** The slot was closed by the writer. *)
Definition cleanup (z : Z) : Reader := if Z.land z POPULATED =? POPULATED then RDropValue else RFree.
Definition drop_reader s : outcome Slot :=
  z ← load s;
  Ret (set_reader (if Z.land z CLOSED =? 0 then RClosing else cleanup z) s).
Definition reader_step s : option (outcome Slot) :=
  match reader s with
  | RHeld | RGone => None
  | RTaking => Some (s ← store CLOSED s; Ret (set_reader RReading s))
  | RReading => Some ('(v, s) ← read_value s; Ret (set_reader RHeld (read_gives (Ok v) s)))
  | RClosing => Some (
      '(z, s) ← fetch_or CLOSED s;
      Ret (set_reader (if Z.land z CLOSED =? 0 then RGone else cleanup z) s))
  | RDropValue => Some (s ← drop_value_in_place s; Ret (set_reader RFree s))
  | RFree => Some (s ← free s; Ret (set_reader RGone s))
  end.

(** What the owners of the handles may do; [None]: the handle is busy or gone. *)
Inductive Act := Write (v : V) | DropWriter | WriterStep | TryRead | DropReader | ReaderStep.
Definition step s (a : Act) : option (outcome Slot) :=
  match a with
  | Write v => match writer s with WHeld => Some (write v s) | _ => None end
  | DropWriter => match writer s with WHeld => Some (drop_writer s) | _ => None end
  | WriterStep => writer_step s
  | TryRead => match reader s with RHeld => Some (try_read s) | _ => None end
  | DropReader => match reader s with RHeld => Some (drop_reader s) | _ => None end
  | ReaderStep => reader_step s
  end.
Inductive reach : Slot → Prop :=
| Reach_slot : reach slot
| Reach_act s a s' : reach s → step s a = Some (Ret s') → reach s'.

(** ** The invariant: the phases of a slot *)
Definition oks (l : list (result V ReadError)) : list V := omap (λ r, match r with Ok v => Some v | Err _ => None end) l.
Inductive phase : Slot → Prop :=
| Open w r l : (w = WHeld ∨ w = WClosing) → (r = RHeld ∨ r = RClosing) → oks l = [] →
    phase (mkSlot 0 true None w r None None l [] 0)
| Written v r l : (r = RHeld ∨ r = RClosing) → oks l = [] → phase (mkSlot 0 true (Some v) WWritten r (Some v) None l [] 0)
| ReaderGone w l : (w = WHeld ∨ w = WClosing ∨ w = WFree false) → oks l = [] →
    phase (mkSlot CLOSED true None w RGone None None l [] 0)
| Unwanted v l : oks l = [] → phase (mkSlot CLOSED true (Some v) WWritten RGone (Some v) None l [] 0)
| Refused v l : oks l = [] → phase (mkSlot 3 true (Some v) WDropValue RGone (Some v) None l [] 0)
| Returned v l : oks l = [] → phase (mkSlot 3 true None (WFree true) RGone (Some v) None l [v] 0)
| Sent v r l : (r = RHeld ∨ r = RClosing ∨ r = RTaking ∨ r = RDropValue) → oks l = [] →
    phase (mkSlot 3 true (Some v) WGone r (Some v) (Some (Ok ())) l [] 0)
| Taking v l : oks l = [] → phase (mkSlot CLOSED true (Some v) WGone RReading (Some v) (Some (Ok ())) l [] 0)
| Taken v r l : (r = RHeld ∨ r = RFree) → oks l = [v] → phase (mkSlot CLOSED true None WGone r (Some v) (Some (Ok ())) l [] 0)
| Unread v l : oks l = [] → phase (mkSlot 3 true None WGone RFree (Some v) (Some (Ok ())) l [v] 0)
| WriterGone r l : (r = RHeld ∨ r = RClosing ∨ r = RFree) → oks l = [] → phase (mkSlot CLOSED true None WGone r None None l [] 0)
| Over z o res l d : oks l ++ d = option_list o → (o = None → res = None) → (∀ v, o = Some v → res = Some (Ok ()) ∨ res = Some (Err ()) ∧ d = [v]) →
    phase (mkSlot z false None WGone RGone o res l d 1).
Lemma oks_snoc l r : oks (l ++ [r]) = oks l ++ oks [r].
Proof. apply omap_app. Qed.
(** One phase leads to another: [slot_next] finds which. *)
Ltac slot_side :=
  rewrite ?oks_snoc; repeat match goal with E : oks _ = _ |- _ => rewrite E; clear E end; naive_solver.
Ltac slot_next := cbv [read_gives set_writer set_reader set_state returns state allocated value writer reader given write_result reads dropped freed]; first
  [ eapply Open; slot_side | eapply Written; slot_side | eapply ReaderGone; slot_side | eapply Unwanted; slot_side
  | eapply Refused; slot_side | eapply Returned; slot_side | eapply Sent; slot_side | eapply Taking; slot_side
  | eapply Taken; slot_side | eapply Unread; slot_side | eapply WriterGone; slot_side | eapply Over; slot_side ].
Lemma phase_step s a o : phase s → step s a = Some o → ∃ s', o = Ret s' ∧ phase s'.
Proof.
  destruct 1; destruct a; intros E; destruct_or?; subst; cbn in E; try discriminate E; injection E as <-; (eexists; split; [done|]); slot_next.
Qed.
Lemma reach_phase s : reach s → phase s.
Proof.
  induction 1 as [|s a s' _ IH E]; [by apply Open; [left|left|]|]. by destruct (phase_step _ _ _ IH E) as (s'' & [= ->] & Hp).
Qed.

(** ** Theorems *)
(** A handle that may access the value in its next step. *)
Definition writer_at_value (w : Writer) : bool := match w with WHeld | WDropValue => true | _ => false end.
Definition reader_at_value (r : Reader) : bool := match r with RReading | RDropValue => true | _ => false end.

(** C40: Whatever the interleaving of the steps of a slot's writer and reader, no step accesses freed memory, frees
    twice, or takes a value that is not there, and never are both about to access the value; a value
    read is the one given; and when both handles are gone the slot was freed once, and the value given
    was read once or dropped once, and dropped when [write] fails. *)
Theorem slot_sound s : reach s →
  (∀ a o, step s a = Some o → ∃ s', o = Ret s') ∧
  writer_at_value (writer s) && reader_at_value (reader s) = false ∧
  (∀ v, Ok v ∈ reads s → given s = Some v) ∧
  (writer s = WGone → reader s = RGone → freed s = 1%nat ∧ allocated s = false ∧ value s = None ∧
     oks (reads s) ++ dropped s = option_list (given s) ∧ (write_result s = Some (Err ()) → dropped s = option_list (given s))).
Proof.
  intros Hp%reach_phase. split; [intros a o E; destruct (phase_step _ _ _ Hp E) as (s' & ? & _); by exists s'|].
  split; [destruct Hp; destruct_or?; subst; done|]. split.
  - intros v Hv. assert (v ∈ oks (reads s)) as Ho by (apply list_elem_of_omap; by exists (Ok v)). destruct Hp; cbn [reads given] in *;
      try (match goal with E : oks _ = [] |- _ => rewrite E in Ho; by apply elem_of_nil in Ho end).
    + match goal with E : oks _ = [_] |- _ => rewrite E in Ho end. apply list_elem_of_singleton in Ho. by subst.
    + assert (v ∈ option_list o) as Hin by (match goal with E : _ ++ _ = _ |- _ => rewrite <-E end; apply elem_of_app; by left).
      destruct o; cbn in Hin; [apply list_elem_of_singleton in Hin; by subst|by apply elem_of_nil in Hin].
  - destruct Hp as [| | | | | | | | | | |z o res l d Eo Hn Hs]; cbn; destruct_or?; subst; try done. intros _ _. split_and!; try done. intros ->. destruct o as [v|]; [|by specialize (Hn eq_refl)].
    by destruct (Hs v eq_refl) as [|[_ ->]].
Qed.

(** A reply that was written and not read yet is what the next [try_read] gives. *)
Definition run s (l : list Act) : option (outcome Slot) :=
  foldl (λ o a, match o with Some (Ret s) => step s a | _ => None end) (Some (Ret s)) l.
Theorem reply_read s v : reach s → writer s = WGone → write_result s = Some (Ok ()) → given s = Some v → reader s = RHeld → oks (reads s) = [] →
  ∃ s', run s [TryRead; ReaderStep; ReaderStep] = Some (Ret s') ∧ reads s' = reads s ++ [Ok v] ∧ reader s' = RHeld.
Proof.
  intros Hp%reach_phase. destruct Hp; cbn [writer write_result given reader reads]; destruct_or?; intros; simplify_eq; try congruence; by eexists.
Qed.
End slot.
End Slot.

(** ** A slot whose reader leaves while the value is written *)
Module SlotDemo.
Import Slot.
Lemma stuck {V} (l : list (Act (V := V))) :
  foldl (λ o a, match o with Some (Ret s) => step s a | _ => None end) None l = None.
Proof. by induction l. Qed.
Lemma run_slot {V} (l : list (Act (V := V))) : ∀ s s', reach s → run s l = Some (Ret s') → reach s'.
Proof.
  induction l as [|a l IH]; intros s s' Hr E; [by injection E as <-|]. unfold run in E. cbn [foldl] in E.
  destruct (step s a) as [[s1| |]|] eqn:Es; [eapply IH; [by eapply Reach_act|exact E]|..]; exfalso.
  all: destruct l as [|b l]; [done|]; cbn [foldl] in E; by rewrite stuck in E.
Qed.
Definition crossed : Slot := mkSlot 3 false None WGone RGone (Some 7) (Some (Err ())) [Err NoValue] [7] 1.
Lemma crossed_reach : reach crossed.
Proof.
  apply (run_slot [TryRead; DropReader; Write 7; ReaderStep; WriterStep; WriterStep; WriterStep] slot crossed Reach_slot). reflexivity.
Qed.
Lemma slot_sound_witness : freed crossed = 1%nat ∧ [7] = option_list (given crossed).
Proof.
  destruct (slot_sound crossed crossed_reach) as (_ & _ & _ & Hend). destruct (Hend eq_refl eq_refl) as (Hf & _ & _ & _ & Hd).
  split; [exact Hf|exact (Hd eq_refl)].
Defined.
End SlotDemo.
