(* ===== verification/Sinks.v ===== *)
(** * Event sinks and the injector of tasks

    [EventBuffer] and [EventSlot] of [asynchronix/src/ports/sink], which collect the events that models send
    for an observer; [Injector] of [asynchronix/src/executor/mt_executor/injector.rs], where the workers of the
    executor leave tasks for each other in buckets.  All keep their data under a mutex: an operation is
    one step.  The flags beside it are atomics of their own: the load of the injector's flag by [pop_bucket]
    may come earlier than the rest ([saw_tasks]); a sink's flag is taken to be read with the write it guards. *)

From S2P Require Import Prelude.

(** ** [EventBuffer] *)
Module EventBuffer.
Section buffer.
Context {A : Type}.
Record EventBuffer := mkBuffer { capacity : nat; is_open : bool; buffer : list A }.
Implicit Types b : EventBuffer.
Definition DEFAULT_CAPACITY : nat := 16.
Definition with_capacity (n : nat) : EventBuffer := mkBuffer n true [].
Definition with_capacity_closed (n : nat) : EventBuffer := mkBuffer n false [].
Definition new : EventBuffer := with_capacity DEFAULT_CAPACITY.
Definition new_closed : EventBuffer := with_capacity_closed DEFAULT_CAPACITY.
Definition open b : EventBuffer := mkBuffer (capacity b) true (buffer b).
Definition close b : EventBuffer := mkBuffer (capacity b) false (buffer b).
Definition next b : option A * EventBuffer := (head (buffer b), mkBuffer (capacity b) (is_open b) (tail (buffer b))).
(** [__try_fold]: the events are drained, also those after an error. *)
Fixpoint fold_events {B E} (f : B → A → result B E) (init : B) (l : list A) : result B E :=
  match l with [] => Ok init | x :: l => match f init x with Ok y => fold_events f y l | Err e => Err e end end.
Definition try_fold {B E} (init : B) (f : B → A → result B E) b : result B E * EventBuffer :=
  (fold_events f init (buffer b), mkBuffer (capacity b) (is_open b) []).
Definition write (event : A) b : EventBuffer :=
  if negb (is_open b) then b
  else
    let l := if (length (buffer b) =? capacity b)%nat then tail (buffer b) else buffer b in
    mkBuffer (capacity b) true (l ++ [event]).

Inductive Op := Write (event : A) | Next | Drain | Open | Close.
(** An operation with what it gives back. *)
Definition apply (o : Op) b : list A * EventBuffer :=
  match o with
  | Write e => ([], write e b)
  | Next => let '(x, b) := next b in (option_list x, b)
  | Drain => (buffer b, (try_fold [] (λ l x, Ok (E := ()) (l ++ [x])) b).2)
  | Open => ([], open b)
  | Close => ([], close b)
  end.
Fixpoint run (l : list Op) b : list A * EventBuffer :=
  match l with [] => ([], b) | o :: l => let '(x, b) := apply o b in let '(y, b) := run l b in (x ++ y, b) end.
(** The events written while the buffer is open. *)
Fixpoint accepted (op : bool) (l : list Op) : list A :=
  match l with
  | [] => []
  | Write e :: l => if op then e :: accepted op l else accepted op l
  | Open :: l => accepted true l
  | Close :: l => accepted false l
  | _ :: l => accepted op l
  end.

(** The events given back, in order, with those still there at the end, are some of those accepted; and the
    buffer is never above its capacity. *)
Theorem buffer_in_order l b : (0 < capacity b)%nat → (length (buffer b) ≤ capacity b)%nat →
  (run l b).1 ++ buffer (run l b).2 `sublist_of` buffer b ++ accepted (is_open b) l ∧
  (length (buffer (run l b).2) ≤ capacity b)%nat.
Proof.
  revert b. induction l as [|o l IH]; intros b Hc Hb.
  { cbn. by rewrite app_nil_r. }
  assert (∀ x b', apply o b = (x, b') → capacity b' = capacity b → (length (buffer b') ≤ capacity b)%nat →
    x ++ buffer b' ++ accepted (is_open b') l `sublist_of` buffer b ++ accepted (is_open b) (o :: l) →
    (run (o :: l) b).1 ++ buffer (run (o :: l) b).2 `sublist_of` buffer b ++ accepted (is_open b) (o :: l) ∧ (length (buffer (run (o :: l) b).2) ≤ capacity b)%nat) as Hgo.
  { intros x b' E Ec Hl Hs. cbn [run]. rewrite E. destruct (IH b') as [I1 I2]; [lia..|]. destruct (run l b') as [y b2]. cbn in *. split; [|lia].
    etrans; [|exact Hs]. rewrite <-(assoc_L (++)). by apply sublist_app. }
  apply (Hgo (apply o b).1 (apply o b).2 (surjective_pairing _)); clear Hgo IH; destruct o; cbn; try done; try lia.
  - unfold write. by destruct (negb _).
  - unfold write. destruct (negb _); [done|]. cbn. destruct (Nat.eqb_spec (length (buffer b)) (capacity b)); rewrite length_app; cbn; [|lia]. destruct (buffer b); cbn in *; lia.
  - destruct (buffer b); cbn in *; lia.
  - unfold write. destruct (is_open b) eqn:Eo; cbn; [|by rewrite ?Eo]. destruct (_ =? _)%nat; rewrite <-(assoc_L (++)); [|done]. apply sublist_app; [|done].
    destruct (buffer b); [done|]. by apply sublist_cons.
  - destruct (buffer b); done.
Qed.
(** Without reads in between, the buffer holds the latest events, as many as it has room for. *)
Theorem buffer_keeps_latest n l : (0 < n)%nat → buffer (foldl (λ b e, write e b) (with_capacity n) l) = drop (length l - n) l.
Proof.
  intros Hn. assert (foldl (λ b e, write e b) (with_capacity n) l = mkBuffer n true (drop (length l - n) l)) as ->; [|done].
  induction l as [|x l IH] using rev_ind; [done|]. rewrite foldl_app. cbn [foldl]. rewrite IH. unfold write. cbn. f_equal.
  rewrite length_drop, length_app. cbn. destruct (Nat.eqb_spec (length l - (length l - n)) n).
  - destruct (decide (length l = n)) as [->|].
    + rewrite Nat.sub_diag. replace (n + 1 - n)%nat with 1%nat by lia. rewrite drop_0. destruct l; [cbn in *; lia|done].
    + replace (length l + 1 - n)%nat with (S (length l - n)) by lia. destruct (lookup_lt_is_Some_2 l (length l - n) ltac:(lia)) as [y Hy].
      rewrite (drop_S l y) by done. cbn. rewrite drop_app_le; [done|lia].
  - replace (length l + 1 - n)%nat with 0%nat by lia. replace (length l - n)%nat with 0%nat by lia. by rewrite !drop_0.
Qed.
(** With capacity 0 nothing is ever overwritten: the buffer grows without bound. *)
Theorem capacity_zero_unbounded l : buffer (foldl (λ b e, write e b) (with_capacity 0) l) = l.
Proof.
  assert (foldl (λ b e, write e b) (with_capacity 0) l = mkBuffer 0 true l) as ->; [|done].
  induction l as [|x l IH] using rev_ind; [done|]. rewrite foldl_app. cbn [foldl]. rewrite IH. unfold write. cbn. by destruct l.
Qed.
End buffer.
End EventBuffer.

(** ** [EventSlot] *)
Module EventSlot.
Section slot.
Context {A : Type}.
Record EventSlot := mkEventSlot { es_open : bool; last_event : option A }.
Implicit Types s : EventSlot.
Definition slot_new : EventSlot := mkEventSlot true None.
Definition slot_new_closed : EventSlot := mkEventSlot false None.
Definition slot_open s : EventSlot := mkEventSlot true (last_event s).
Definition slot_close s : EventSlot := mkEventSlot false (last_event s).
(** [locked]: another thread holds the mutex. *)
Definition slot_next (locked : bool) s : option A * EventSlot :=
  if locked then (None, s) else (last_event s, mkEventSlot (es_open s) None).
Definition slot_write (locked : bool) (event : A) s : EventSlot :=
  if negb (es_open s) || locked then s else mkEventSlot true (Some event).
(** The last event written is read, once. *)
Lemma slot_last s l e : es_open s = true → let s' := foldl (λ s e, slot_write false e s) s (l ++ [e]) in
  (slot_next false s').1 = Some e ∧ (slot_next false (slot_next false s').2).1 = None.
Proof.
  intros Ho. rewrite foldl_app. cbn [foldl]. assert (es_open (foldl (λ s e, slot_write false e s) s l) = true) as Ho'.
  { revert s Ho. induction l as [|x l IH]; intros s Ho; [done|]. cbn. apply IH. unfold slot_write. by rewrite Ho. }
  unfold slot_write at 1 3. by rewrite Ho'.
Qed.
End slot.
End EventSlot.

(** ** [Injector] *)
Module Injector.
Section injector.
Context {A : Type} (CAPACITY : nat).
Abbreviation Bucket := (list A).
Record Injector := mkInjector { inner : list Bucket; is_empty : bool }.
Implicit Types j : Injector.
Definition new : outcome Injector := if (1 <=? CAPACITY)%nat then Ret (mkInjector [] true) else Panic.
(** [Bucket::push]: the task comes back when there is no room.  [Bucket::from_iter]. *)
Definition push (task : A) (b : Bucket) : result Bucket A := if (length b <? CAPACITY)%nat then Ok (b ++ [task]) else Err task.
Definition from_iter (l : list A) : Bucket := take CAPACITY l.
Definition new_bucket (task : A) : Bucket := match push task [] with Ok b => b | Err _ => [] end.
Definition insert_task (task : A) j : Injector :=
  match inner j with
  | bucket :: rest =>
      match push task bucket with
      | Ok b => mkInjector (b :: rest) (is_empty j)
      | Err task => mkInjector (new_bucket task :: rest ++ [bucket]) (is_empty j)
      end
  | [] => mkInjector [new_bucket task] false
  end.
Definition push_bucket (b : Bucket) j : Injector :=
  mkInjector (inner j ++ [b]) (match inner j with [] => false | _ => is_empty j end).
(** [pop_bucket], after the flag was seen unset; between the two others may have emptied the queue. *)
Definition pop_locked j : option Bucket * Injector :=
  let l := removelast (inner j) in
  (last (inner j), mkInjector l (match l with [] => true | _ => is_empty j end)).
Definition pop_bucket j : option Bucket * Injector := if is_empty j then (None, j) else pop_locked j.

Inductive Op := InsertTask (task : A) | PushBucket (b : Bucket) | PopBucket (saw_tasks : bool).
(** [saw_tasks]: the flag was unset when it was loaded, earlier than now. *)
Definition apply (o : Op) j : list A * Injector :=
  match o with
  | InsertTask t => ([], insert_task t j)
  | PushBucket b => ([], push_bucket b j)
  | PopBucket saw => let '(b, j) := if saw then pop_locked j else pop_bucket j in (default [] b, j)
  end.
Definition put (o : Op) : list A := match o with InsertTask t => [t] | PushBucket b => b | PopBucket _ => [] end.
Fixpoint run (l : list Op) j : list A * Injector :=
  match l with [] => ([], j) | o :: l => let '(x, j) := apply o j in let '(y, j) := run l j in (x ++ y, j) end.

Record ok j : Prop := mkOk {
  ok_size : Forall (λ b : Bucket, (length b ≤ CAPACITY)%nat) (inner j);
  ok_flag : is_empty j = true ↔ inner j = []
}.
Hypothesis capacity_pos : (1 ≤ CAPACITY)%nat.
Lemma new_bucket_eq t : new_bucket t = [t].
Proof using capacity_pos. unfold new_bucket, push. destruct CAPACITY; [lia|done]. Qed.
Lemma split_last {B} (l : list B) : match last l with Some x => l = removelast l ++ [x] | None => l = [] end.
Proof. induction l as [|x l IH] using rev_ind; [done|]. rewrite last_snoc. by rewrite removelast_last. Qed.
Lemma pop_ok j b j' : ok j → pop_locked j = (b, j') → ok j' ∧ concat (inner j) = concat (inner j') ++ default [] b.
Proof.
  intros [Hs Hf] E. unfold pop_locked in E. injection E as <- <-. pose proof (split_last (inner j)) as Hl. destruct (last (inner j)) as [b|] eqn:El.
  - rewrite Hl in Hs. apply Forall_app in Hs as [Hs _]. split; [split; cbn; [done|]|cbn; rewrite Hl at 1; rewrite concat_app; cbn; by rewrite app_nil_r].
    destruct (removelast (inner j)) eqn:Er; [done|]. rewrite Hf, Hl. done.
  - rewrite Hl. cbn. by split; [split; cbn|].
Qed.
Lemma apply_ok o j x j' : ok j → (∀ b, o = PushBucket b → (length b ≤ CAPACITY)%nat) → apply o j = (x, j') →
  ok j' ∧ put o ++ concat (inner j) ≡ₚ x ++ concat (inner j').
Proof using capacity_pos.
  intros Hok Hb E. destruct Hok as [Hs Hf]. destruct o as [t|b|saw]; cbn in E.
  - injection E as <- <-. unfold insert_task, push. destruct (inner j) as [|bk rest] eqn:Ei.
    + rewrite new_bucket_eq. split; [split; cbn; [by constructor; [cbn; lia|]|done]|done].
    + inversion Hs as [|?? Hbk Hrest]; subst. destruct (Nat.ltb_spec (length bk) CAPACITY).
      * split; [split; cbn; [constructor; [rewrite length_app; cbn; lia|done]|rewrite Hf; naive_solver]|]. cbn. rewrite <-!(assoc_L (++)). cbn. apply Permutation_middle.
      * rewrite new_bucket_eq. split; [split; cbn; [constructor; [cbn; lia|]; apply Forall_app; auto|rewrite Hf; naive_solver]|].
        cbn. rewrite concat_app. cbn. rewrite app_nil_r. by rewrite (Permutation_app_comm bk).
  - injection E as <- <-. specialize (Hb b eq_refl). unfold push_bucket. split; [split; cbn|].
    + apply Forall_app. auto.
    + destruct (inner j) eqn:Ei; [done|]. rewrite Hf. naive_solver.
    + cbn. rewrite concat_app. cbn. rewrite app_nil_r. apply Permutation_app_comm.
  - assert (∀ b j1, pop_locked j = (b, j1) → ok j1 ∧ concat (inner j) ≡ₚ default [] b ++ concat (inner j1)) as Hpop.
    { intros b j1 Ep. destruct (pop_ok _ _ _ (mkOk _ Hs Hf) Ep) as [? ->]. split; [done|]. apply Permutation_app_comm. }
    unfold pop_bucket in E. destruct saw; [|destruct (is_empty j) eqn:Ee].
    2:{ injection E as <- <-. split; [by split; rewrite ?Ee|done]. }
    all: destruct (pop_locked j) as [b j1] eqn:Ep; injection E as <- <-; by apply Hpop.
Qed.
(** Whatever workers insert and take, in any order, every task put in comes out once or is still there; no bucket
    is above its capacity; and the flag is right between operations: a worker that sees it set finds nothing. *)
Theorem injector_conserves l j : ok j → Forall (λ o, ∀ b, o = PushBucket b → (length b ≤ CAPACITY)%nat) l →
  ok (run l j).2 ∧ concat (inner j) ++ concat (put <$> l) ≡ₚ (run l j).1 ++ concat (inner (run l j).2).
Proof using capacity_pos.
  intros Hok Hl. revert j Hok. induction Hl as [|o l Ho _ IH]; intros j Hok; cbn [run]; [cbn; by rewrite app_nil_r|].
  destruct (apply o j) as [x j1] eqn:E. destruct (apply_ok _ _ _ _ Hok Ho E) as [Hok1 Hp]. destruct (IH j1 Hok1) as [I1 I2].
  destruct (run l j1) as [y j2]. cbn in *. split; [done|]. rewrite (assoc_L (++)), (Permutation_app_comm (concat (inner j))), Hp.
  rewrite <-!(assoc_L (++)). by f_equiv.
Qed.
End injector.
End Injector.
