(* ===== verification/FrameTable.v ===== *)
(** * The sizes of video frames: [examples/lib/alvr_stream_socket.rs]

    Without an encoder the server sends frames of made-up bytes.  Module [Frames]: the payload of
    Fibonacci numbers whose size is linear in the bitrate, the table of frame sizes read
    from a CSV file with one column per bitrate and its interpolation, the table measured on
    a device, and [get_buffer_emu], which makes the buffer of a frame.

    The rows of a CSV file are given as the crate csv reads them ([None] is a read error), the
    draw of the crate rand for the start of a trace is a parameter.  The tables that describe
    a run in further CSV files are left out, as is the encoder (off in the source). *)

From Stdlib Require Import SpecFloat Ascii.
From S2P Require Import Prelude F32 StreamSocket Airtime F64Ops Abr.

Module Frames.
Import F64Ops.

(** ** Fibonacci payloads *)
Definition FIB_MOD256_PERIOD : nat := 384.
Fixpoint fib_loop (n : nat) (a b : Z) : list Z :=
  match n with O => [] | S n => a :: fib_loop n b (wrap 8 (a + b)) end.
Definition FIB_MOD256 : list Z := fib_loop FIB_MOD256_PERIOD 0 1.

(** The byte-at-a-time version. *)
Fixpoint exact_loop (n i : nat) (v : list Z) : outcome (list Z) :=
  match n with
  | O => Ret v
  | S n =>
      a ← unwrap (v !! (i - 1)%nat);
      b ← unwrap (v !! (i - 2)%nat);
      exact_loop n (S i) (<[i := wrap 8 (a + b)]> v)
  end.
Definition fibonacci_payload_exact (size : nat) : outcome (list Z) :=
  let v := replicate size 0 in
  if (size =? 0)%nat then Ret v
  else exact_loop (size - 2) 2 (if (1 <? size)%nat then <[1%nat := 1]> v else v).

(** The period-at-a-time version; every pass adds a byte at least. *)
Fixpoint fill_loop (fuel n : nat) (buffer : list Z) : outcome (list Z) :=
  if (length buffer <? n)%nat then
    match fuel with
    | O => OutOfFuel
    | S fuel => fill_loop fuel n (buffer ++ take (Nat.min (n - length buffer) FIB_MOD256_PERIOD) FIB_MOD256)
    end
  else Ret buffer.
(** [x as usize], [x as u32], [x.round() as u32] *)
Definition as_usize : f32 → Z := cast_with trunc 0 U64_MAX.
Definition as_u32 : f32 → Z := cast_with trunc 0 U32_MAX.
Definition round_u32 (x : f32) : Z := clamp 0 U32_MAX (F32.round_i64 x).
Definition payload_size (current_bitrate_mbps fps : f32) : Z :=
  as_usize (F32.div (F32.mul (F32.add (F32.mul (Abr.lit 141697 100) current_bitrate_mbps) (SFopp (Abr.lit 81006 100))) (Abr.fz 90)) fps).
Definition fill_fibonacci_video_payload (current_bitrate_mbps fps : f32) : outcome (list Z) :=
  let n := Z.to_nat (payload_size current_bitrate_mbps fps) in
  fill_loop n n [].

(** ** Tables of frame sizes *)
Record FrameSizeTable := mkTable {
  mbps_cols : list Z;
  col_index : gmap Z nat;
  framesizes : list (list Z);
  start_offset : nat
}.
(** [v[(idx + start_offset) % v.len()]]: an empty column is a division by zero. *)
Definition size_at (start frame_idx : nat) (v : list Z) : outcome Z :=
  if (length v =? 0)%nat then Panic else unwrap (v !! ((frame_idx + start) mod length v)%nat).
Definition col_size (t : FrameSizeTable) (col frame_idx : nat) : outcome Z :=
  v ← unwrap (framesizes t !! col); size_at (start_offset t) frame_idx v.
(** The line through two columns. *)
Definition interpolate (t : FrameSizeTable) (want : f32) (lo hi frame_idx : nat) : outcome Z :=
  m0 ← unwrap (mbps_cols t !! lo);
  m1 ← unwrap (mbps_cols t !! hi);
  let f := F32.div (F32.sub want (F32.of_Z m0)) (F32.sub (F32.of_Z m1) (F32.of_Z m0)) in
  v0 ← col_size t lo frame_idx;
  v1 ← col_size t hi frame_idx;
  let v0 := F32.of_Z v0 in
  let v1 := F32.of_Z v1 in
  Ret (round_u32 (F32.add v0 (F32.mul f (F32.sub v1 v0)))).
(** Whether the cached columns are around the bitrate. *)
Definition cache_hit (t : FrameSizeTable) (want_mbps : f32) (lo hi : nat) : outcome bool :=
  if (lo <? length (mbps_cols t))%nat && (hi <? length (mbps_cols t))%nat then
    m0 ← unwrap (mbps_cols t !! lo);
    m1 ← unwrap (mbps_cols t !! hi);
    Ret (F64.le (F32.of_Z m0) want_mbps && F64.le want_mbps (F32.of_Z m1))
  else Ret false.
(** Without a column of this bitrate: the size, and the cells [last_lo] and [last_hi] after. *)
Definition bytes_no_column (t : FrameSizeTable) (want_mbps : f32) (frame_idx : nat) (cache : nat * nat)
    : outcome (Z * (nat * nat)) :=
  let n := length (mbps_cols t) in
  if (n =? 0)%nat then Ret (0, cache) else
  first ← unwrap (mbps_cols t !! 0%nat);
  if F64.le want_mbps (F32.of_Z first) then b ← col_size t 0 frame_idx; Ret (b, cache) else
  last ← unwrap (mbps_cols t !! (n - 1)%nat);
  if F64.le (F32.of_Z last) want_mbps then b ← col_size t (n - 1) frame_idx; Ret (b, cache) else
  let '(lo, hi) := cache in
  hit ← cache_hit t want_mbps lo hi;
  if hit : bool then b ← interpolate t want_mbps lo hi frame_idx; Ret (b, cache) else
  r ← Abr.binary_search_by (λ v, Z.compare v (as_u32 want_mbps)) (mbps_cols t);
  let hi := match r with inl i | inr i => i end in
  let lo := (hi - 1)%nat in
  b ← interpolate t want_mbps lo hi frame_idx;
  Ret (b, (lo, hi)).
Definition bytes_interp_cached (t : FrameSizeTable) (want_mbps : f32) (frame_idx : nat) (cache : nat * nat)
    : outcome (Z * (nat * nat)) :=
  match col_index t !! round_u32 want_mbps with
  | Some col => b ← col_size t col frame_idx; Ret (b, cache)
  | None => bytes_no_column t want_mbps frame_idx cache
  end.

(** ** Reading them *)
Definition digit (c : Ascii.ascii) : option Z :=
  let d := Z.of_N (Ascii.N_of_ascii c) - 48 in if (0 <=? d) && (d <=? 9) then Some d else None.
Fixpoint digits (acc : Z) (s : string) : option Z :=
  match s with
  | EmptyString => Some acc
  | String c s => d ← digit c; let acc := acc * 10 + d in if U32_MAX <? acc then None else digits acc s
  end.
(** [str::parse::<u32>] *)
Definition parse_u32 (s : string) : option Z :=
  let s := match s with String "+"%char s => s | s => s end in
  match s with EmptyString => None | _ => digits 0 s end.
(** [trim_end_matches("Mbps")]: the letters [bpsM] backwards. *)
Fixpoint trim_mbps_rev (fuel : nat) (l : list Ascii.ascii) : list Ascii.ascii :=
  match fuel, l with
  | S fuel, "s"%char :: "p"%char :: "b"%char :: "M"%char :: l => trim_mbps_rev fuel l
  | _, l => l
  end.
Definition trim_mbps (s : string) : string :=
  let l := rev (String.list_ascii_of_string s) in
  String.string_of_list_ascii (rev (trim_mbps_rev (length l) l)).

(** [offset_draw m]: the draw of [gen_range(0..m)] from the stream of the trace. *)
Section load.
Context (offset_draw : nat → nat).
Definition draw_start (num_frames : nat) : nat :=
  if (1 <? num_frames)%nat then
    let middle := (num_frames / 2)%nat in if (0 <? middle)%nat then offset_draw middle else 0%nat
  else 0%nat.
Fixpoint parse_columns (headers : list string) : option (list Z) :=
  match headers with
  | [] => Some []
  | h :: headers => m ← parse_u32 (trim_mbps h); ms ← parse_columns headers; Some (m :: ms)
  end.
Definition parse_cell (r : list string) (ci : nat) : Z :=
  default 0 (parse_u32 (default "0"%string (r !! S ci))).
(** [None] is the error. *)
Definition table_load (headers : list string) (records : list (option (list string))) : option FrameSizeTable :=
  cols ← parse_columns (drop 1 headers);
  rows ← mapM id records;
  let framesizes := (λ ci, (λ r, parse_cell r ci) <$> rows) <$> seq 0 (length cols) in
  let num_frames := match framesizes with v :: _ => length v | [] => 0%nat end in
  (* [collect] keeps the last index of a bitrate that is there twice *)
  let index := foldl (λ m '(i, c), (<[c := i]> m : gmap Z nat)) ∅ (zip (seq 0 (length cols)) cols) in
  Some (mkTable cols index framesizes (draw_start num_frames)).

(** [HardcodedFrameTable]: a record is given as [f32::from_str] reads its second cell. *)
Record HardcodedFrameTable := mkHardcoded { hc_framesizes : list Z; hc_start_offset : nat }.
Definition hardcoded_load (records : list (option (option f32))) : option HardcodedFrameTable :=
  cells ← mapM id records;
  let sizes := (λ c : option f32, match c with Some f => round_u32 f | None => 0 end) <$> cells in
  Some (mkHardcoded sizes (draw_start (length sizes))).
Definition get_bytes (t : HardcodedFrameTable) (frame_idx : nat) : outcome Z :=
  if (length (hc_framesizes t) =? 0)%nat then Ret 0 else size_at (hc_start_offset t) frame_idx (hc_framesizes t).
End load.

(** The tables of a process, by video, frame rate and seed; [load] is [FrameSizeTable::load]. *)
Definition TableKey : Type := string * Z * Z.
Definition get_table (load : option FrameSizeTable) (key : TableKey) (cache : gmap TableKey FrameSizeTable)
    : option FrameSizeTable * gmap TableKey FrameSizeTable :=
  match cache !! key with
  | Some t => (Some t, cache)
  | None => match load with Some t => (Some t, <[key := t]> cache) | None => (None, cache) end
  end.

(** ** The buffer of a frame

    Without the encoder; [table] is what [get_table] gives, whose error the caller unwraps.
    The cells [last_lo] and [last_hi] of the sender are passed as [cache]. *)
Section buffer.
Context {T : Type}.
Definition get_buffer_emu (header_size : nat) (deterministic_frame_sizes : bool) (table : option FrameSizeTable)
    (current_bitrate_mbps framerate : f32) (id_frame : nat) (cache : nat * nat) (tx : Socket.StreamSender T)
    : outcome (Socket.Buffer * nat * nat * Socket.StreamSender T) :=
  '(buffer, lo, hi) ← (if deterministic_frame_sizes then
      l ← fill_fibonacci_video_payload current_bitrate_mbps framerate; Ret (l, cache.1, cache.2)
    else
      t ← unwrap table;
      '(bytes, (lo, hi)) ← bytes_interp_cached t current_bitrate_mbps id_frame cache;
      Ret (replicate (Z.to_nat bytes) 7, lo, hi));
  let hidden_offset := (Socket.SHARD_PREFIX_SIZE + header_size)%nat in
  let buffer := if (length buffer <? hidden_offset)%nat then Socket.resize buffer hidden_offset else buffer in
  if Socket.next_packet_index tx + 1 <=? U32_MAX then
    Ret (Socket.mkBuffer buffer hidden_offset (length buffer), lo, hi,
      Socket.mkSender (Socket.tx_stream_id tx) (Socket.tx_max_packet_size tx) (Socket.next_packet_index tx + 1)
        (take (length (Socket.used_buffers tx) - 1) (Socket.used_buffers tx)) (Socket.tx_shards_count tx) (Socket.ref_time tx)
        (Socket.frame_tracker tx))
  else Panic.
End buffer.

End Frames.
