(* ===== verification/FrameFacts.v ===== *)
(** * The sizes of video frames: the theorems of [FrameTable.v]

    [fibonacci_fill_exact]: filling the payload a period at a time gives the bytes of the
    recurrence.  [interp_total]: reading a table never fails, whatever the bitrate and the
    cached columns.  [interp_whole_mbps]: for a whole number of Mbps it gives the column, or the
    line between the two columns around.  [interp_outside_columns]: for other bitrates it can
    leave the columns around and extrapolate.  [table_ignores_codec]: the table of another
    codec is given when one was loaded before. *)

From Stdlib Require Import SpecFloat.
From S2P Require Import Prelude F32 StreamSocket Airtime F64Ops Abr FrameTable Shards.

Module FrameFacts.
Import F64Ops Frames.

(** ** Fibonacci numbers modulo 256 *)
Definition fib_step (p : Z * Z) : Z * Z := (p.2, wrap 8 (p.1 + p.2)).
Definition fib_at (i : nat) : Z * Z := Nat.iter i fib_step (0, 1).
Definition fibs (n : nat) : list Z := fib_loop n 0 1.

Lemma fib_loop_lookup n : ∀ p i, (i < n)%nat → fib_loop n p.1 p.2 !! i = Some (Nat.iter i fib_step p).1.
Proof.
  induction n as [|n IH]; intros p i Hi; [lia|]. destruct i as [|i]; [done|].
  rewrite Nat.iter_succ_r. apply (IH (fib_step p)). lia.
Qed.
Lemma fib_loop_length n : ∀ a b, length (fib_loop n a b) = n.
Proof. induction n as [|n IH]; intros; cbn; [done|]. by rewrite IH. Qed.
Lemma fibs_lookup n i : (i < n)%nat → fibs n !! i = Some (fib_at i).1.
Proof. apply (fib_loop_lookup n (0, 1)). Qed.
Lemma FIB_eq : FIB_MOD256 = fibs FIB_MOD256_PERIOD.
Proof. unfold FIB_MOD256, fibs. exact eq_refl. Qed.
Lemma fibs_length n : length (fibs n) = n.
Proof. apply fib_loop_length. Qed.
Lemma fib_at_next i : (fib_at (S (S i))).1 = wrap 8 ((fib_at (S i)).1 + (fib_at i).1).
Proof. change (wrap 8 ((fib_at i).1 + (fib_at i).2) = wrap 8 ((fib_at i).2 + (fib_at i).1)). by rewrite Z.add_comm. Qed.
Lemma fib_at_period i j : fib_at (i + FIB_MOD256_PERIOD * j) = fib_at i.
Proof.
  induction j as [|j IH]; [f_equal; lia|]. rewrite <- IH. unfold fib_at.
  replace (i + FIB_MOD256_PERIOD * S j)%nat with (i + FIB_MOD256_PERIOD * j + FIB_MOD256_PERIOD)%nat by lia.
  by rewrite Nat.iter_add.
Qed.
Lemma fib_at_sub i j : (FIB_MOD256_PERIOD * j ≤ i)%nat → fib_at (i - FIB_MOD256_PERIOD * j) = fib_at i.
Proof. intros H. rewrite <- (fib_at_period _ j). by replace (i - FIB_MOD256_PERIOD * j + FIB_MOD256_PERIOD * j)%nat with i by lia. Qed.
(** A list is the sequence if it agrees with it everywhere. *)
Lemma fibs_ext n l : length l = n → (∀ i, (i < n)%nat → l !! i = Some (fib_at i).1) → l = fibs n.
Proof.
  intros Hl H. apply list_eq. intros i. destruct (decide (i < n)%nat).
  - by rewrite H, fibs_lookup.
  - rewrite !lookup_ge_None_2; [done|rewrite fibs_length; lia|lia].
Qed.

Lemma exact_loop_ok n : ∀ i v, (2 ≤ i)%nat → length v = (i + n)%nat → (∀ k, (k < i)%nat → v !! k = Some (fib_at k).1) →
  exact_loop n i v = Ret (fibs (i + n)).
Proof.
  induction n as [|n IH]; intros i v Hi Hl Hv; cbn [exact_loop].
  - f_equal. apply fibs_ext; [done|]. intros k Hk. apply Hv. lia.
  - rewrite !Hv by lia. ret_step. cbn [unwrap]. ret_step.
    replace (i + S n)%nat with (S i + n)%nat by lia. apply IH; [lia|rewrite length_insert; lia|].
    intros k Hk. destruct (decide (k = i)) as [->|].
    + rewrite list_lookup_insert_eq by lia. do 2 f_equal. destruct i as [|[|i]]; [lia..|].
      replace (S (S i) - 1)%nat with (S i) by lia. replace (S (S i) - 2)%nat with i by lia. by rewrite fib_at_next.
    + rewrite list_lookup_insert_ne by done. apply Hv. lia.
Qed.
Lemma fibonacci_exact_ok size : fibonacci_payload_exact size = Ret (fibs size).
Proof.
  unfold fibonacci_payload_exact. destruct size as [|[|n]]; [done..|].
  change (S (S n) =? 0)%nat with false. change (1 <? S (S n))%nat with true. cbv iota.
  replace (S (S n) - 2)%nat with n by lia. rewrite (exact_loop_ok n 2); [done|lia| |].
  - rewrite length_insert, length_replicate. lia.
  - intros [|[|k]] Hk; [done..|lia].
Qed.

(** The buffer is a prefix of the sequence, of whole periods until it is complete. *)
Lemma fill_loop_ok fuel n : ∀ len, (len ≤ n)%nat → (n ≤ len + fuel)%nat → (len = n ∨ ∃ j, len = FIB_MOD256_PERIOD * j)%nat →
  fill_loop fuel n (fibs len) = Ret (fibs n).
Proof.
  induction fuel as [|fuel IH]; intros len Hle Hf Hp; cbn [fill_loop]; rewrite fibs_length.
  - assert (len = n) as -> by lia. by rewrite Nat.ltb_irrefl.
  - destruct (Nat.ltb_spec len n) as [Hlt|]; [|by assert (len = n) as -> by lia].
    destruct Hp as [->|[j Hj]]; [lia|]. set (m := Nat.min (n - len) FIB_MOD256_PERIOD).
    assert (E : fibs len ++ take m FIB_MOD256 = fibs (len + m)).
    { assert (Hm : length (take m FIB_MOD256) = m) by (rewrite length_take; unfold FIB_MOD256; rewrite fib_loop_length; lia).
      apply fibs_ext; [rewrite length_app, fibs_length; lia|]. intros i Hi. destruct (decide (i < len)%nat).
      - rewrite lookup_app_l by (rewrite fibs_length; lia). by apply fibs_lookup.
      - rewrite lookup_app_r, fibs_length, lookup_take_lt by (rewrite ?fibs_length; lia).
        rewrite FIB_eq, fibs_lookup, Hj, fib_at_sub by lia. done. }
    assert (1 ≤ m ≤ n - len)%nat by (unfold m, FIB_MOD256_PERIOD; lia).
    rewrite E. apply IH; [lia|lia|]. unfold m. destruct (Nat.min_spec (n - len) FIB_MOD256_PERIOD) as [[? ->]|[? ->]]; [left; lia|].
    right. exists (S j). lia.
Qed.

(** the payload filled a whole period of 384 bytes at a time is, for every bitrate and frame
    rate, the sequence of Fibonacci numbers modulo 256 that the recurrence gives byte by byte. *)
Theorem fibonacci_fill_exact current_bitrate_mbps fps :
  fill_fibonacci_video_payload current_bitrate_mbps fps =
  fibonacci_payload_exact (Z.to_nat (payload_size current_bitrate_mbps fps)).
Proof.
  unfold fill_fibonacci_video_payload. rewrite fibonacci_exact_ok.
  apply (fill_loop_ok _ _ 0); [lia|lia|]. right. by exists 0%nat.
Qed.

(** ** Binary search *)
Section search.
Context {A : Type} (f : A → comparison) (l : list A).
Hypothesis sorted : ∀ i j x y, (i ≤ j)%nat → l !! i = Some x → l !! j = Some y → f y ≠ Gt → f x ≠ Gt.

Lemma search_loop_ok fuel : ∀ base size, (1 ≤ size)%nat → (size ≤ S fuel)%nat → (base + size ≤ length l)%nat →
  (base = 0%nat ∨ ∃ x, l !! base = Some x ∧ f x ≠ Gt) →
  (∀ j x, (base + size ≤ j)%nat → l !! j = Some x → f x = Gt) →
  ∃ r, Abr.search_loop fuel f l base size = Ret r ∧ (r < length l)%nat ∧
    (r = 0%nat ∨ ∃ x, l !! r = Some x ∧ f x ≠ Gt) ∧ (∀ j x, (S r ≤ j)%nat → l !! j = Some x → f x = Gt).
Proof using sorted.
  induction fuel as [|fuel IH]; intros base size H1 Hf Hl Hb Ha; cbn [Abr.search_loop].
  - rewrite (proj2 (Nat.leb_le size 1)) by lia. exists base. split_and!; [done|lia|done|]. intros j x Hj. apply Ha. lia.
  - destruct (Nat.leb_spec size 1).
    { exists base. split_and!; [done|lia|done|]. intros j x Hj. apply Ha. lia. }
    assert (size / 2 < size)%nat by (apply Nat.div_lt; lia). assert (2 * (size / 2) ≤ size)%nat by apply Nat.Div0.mul_div_le.
    assert (1 ≤ size / 2)%nat by (apply Nat.div_le_lower_bound; lia).
    destruct (lookup_lt_is_Some_2 l (base + size / 2)) as [x Hx]; [lia|]. rewrite Hx. cbn [unwrap]. ret_step.
    destruct (f x) eqn:Ef.
    + apply IH; [lia..| |intros j y Hj; apply Ha; lia]. right. exists x. by rewrite Ef.
    + apply IH; [lia..| |intros j y Hj; apply Ha; lia]. right. exists x. by rewrite Ef.
    + apply IH; [lia..|done|]. intros j y Hj Hy. destruct (f y) eqn:E; [| |done];
        (destruct (sorted (base + size / 2) j x y); [lia|done|done|by rewrite E|done]).
Qed.
(** The place of the first element that is not below, or of one that is equal. *)
Lemma binary_search_ok : l ≠ [] → ∃ r, Abr.binary_search_by f l = Ret r ∧
  match r with
  | inl i => ∃ x, l !! i = Some x ∧ f x = Eq
  | inr i => (i ≤ length l)%nat ∧ (∀ j x, (j < i)%nat → l !! j = Some x → f x ≠ Gt) ∧
             (∀ j x, (i ≤ j)%nat → l !! j = Some x → f x = Gt)
  end.
Proof using sorted.
  intros Hne. assert (Hlen : (1 ≤ length l)%nat) by (destruct l; cbn; [done|lia]).
  unfold Abr.binary_search_by. rewrite (proj2 (Nat.eqb_neq (length l) 0)) by lia.
  destruct (search_loop_ok (length l) 0 (length l)) as (k & -> & Hk & Hb & Ha);
    [lia..|by left|intros j x Hj Hx%lookup_lt_Some; lia|].
  destruct (lookup_lt_is_Some_2 l k Hk) as [x Hx]. ret_step. rewrite Hx. cbn [unwrap]. ret_step.
  eexists. split; [done|]. destruct (f x) eqn:Ef.
  - by exists x.
  - split_and!; [lia| |intros j y Hj; apply Ha; lia]. intros j y Hj Hy. by apply (sorted j k y x); [lia|done|done|rewrite Ef].
  - destruct Hb as [->|(y & Hy & Hny)]; [|by simplify_eq]. split_and!; [lia|lia|].
    intros j y _ Hy. destruct j as [|j]; [by simplify_eq|]. apply (Ha (S j)); [lia|done].
Qed.
End search.

(** ** Values of floats *)
(** A positive float in units of [2 ^ -149]. *)
Definition units (m : positive) (e : Z) : Z := Z.pos m * 2 ^ (e + 149).
Lemma compare_units s1 m1 e1 m2 e2 : F32.valid (S754_finite s1 m1 e1) = true → F32.valid (S754_finite false m2 e2) = true →
  SFcompare (S754_finite false m1 e1) (S754_finite false m2 e2) = Some (Z.compare (units m1 e1) (units m2 e2)).
Proof.
  intros (H1 & H1' & H1'')%Shards.Shards.valid_finite (H2 & H2' & H2'')%Shards.Shards.valid_finite. cbn. f_equal. unfold units. symmetry.
  assert (P : ∀ a, 0 ≤ a → 0 < 2 ^ a) by (intros; by apply Z.pow_pos_nonneg).
  assert (K : ∀ p q a b, a < b → 0 ≤ a → Z.pos p < 2 ^ 24 → 2 ^ 23 ≤ Z.pos q → Z.pos p * 2 ^ a < Z.pos q * 2 ^ b).
  { intros p q a b Hab Ha Hp Hq. replace b with (a + 1 + (b - a - 1)) by lia. rewrite !Z.pow_add_r by lia.
    pose proof (P a Ha) as HA. pose proof (P (b - a - 1) ltac:(lia)) as HB. change (2 ^ 1) with 2. change (2 ^ 24) with (2 * 2 ^ 23) in Hp.
    generalize dependent (2 ^ a). intros A HA. generalize dependent (2 ^ (b - a - 1)). intros B HB.
    assert (Z.pos p * A < 2 * 2 ^ 23 * A) by (apply Z.mul_lt_mono_pos_r; lia).
    assert (2 ^ 23 * (A * 2) ≤ Z.pos q * (A * 2)) by (apply Z.mul_le_mono_nonneg_r; lia).
    assert (Z.pos q * (A * 2) * 1 ≤ Z.pos q * (A * 2) * B) by (apply Z.mul_le_mono_nonneg_l; lia). lia. }
  destruct (Z.compare_spec e1 e2) as [->|Hlt|Hgt].
  - symmetry. apply (Zmult_compare_compat_r (Z.pos m1) (Z.pos m2)), Z.lt_gt, P. lia.
  - apply Z.compare_lt_iff, K; lia.
  - apply Z.compare_gt_iff, K; lia.
Qed.

(** Small whole numbers are floats. *)
Definition MAX_MBPS : nat := 4096.
Definition small_ok (k : nat) : bool :=
  match F32.of_Z (Z.of_nat k) with
  | S754_finite false m e =>
      F32.valid (S754_finite false m e) && (-149 <=? e) && (units m e =? Z.of_nat k * 2 ^ 149) &&
      (as_u32 (S754_finite false m e) =? Z.of_nat k) && (round_u32 (S754_finite false m e) =? Z.of_nat k)
  | _ => false
  end.
Lemma all_small : forallb small_ok (seq 1 (MAX_MBPS - 1)) = true.
Proof. vm_compute. reflexivity. Qed.
Definition small (z : Z) : Prop := 0 < z < Z.of_nat MAX_MBPS.
Lemma small_float z : small z → ∃ m e, F32.of_Z z = S754_finite false m e ∧ F32.valid (F32.of_Z z) = true ∧ units m e = z * 2 ^ 149 ∧
  as_u32 (F32.of_Z z) = z ∧ round_u32 (F32.of_Z z) = z.
Proof.
  intros Hz. pose proof all_small as H. rewrite forallb_forall in H. specialize (H (Z.to_nat z)).
  rewrite in_seq in H. unfold small, MAX_MBPS in *. specialize (H ltac:(lia)). unfold small_ok in H. rewrite Z2Nat.id in H by lia.
  destruct (F32.of_Z z) as [| | |[] m e]; try done. exists m, e.
  do 4 apply andb_true_iff in H as [H ?]. repeat match goal with E : (_ =? _) = true |- _ => apply Z.eqb_eq in E end. by split_and!.
Qed.
Lemma small_le a b : small a → small b → F64.le (F32.of_Z a) (F32.of_Z b) = (a <=? b).
Proof.
  intros (m & e & -> & Ha & Hua & _)%small_float (m' & e' & -> & Hb & Hub & _)%small_float.
  unfold F64.le, SFleb. rewrite (compare_units false) by done. rewrite Hua, Hub.
  rewrite <- (Zmult_compare_compat_r a b) by done. unfold Z.leb. by destruct (a ?= b).
Qed.
(** What is not at least a whole number has a lower integer part. *)
Lemma as_u32_below want z : F32.valid want = true → small z → F64.le (F32.of_Z z) want = false → 0 ≤ as_u32 want < z.
Proof.
  intros Hv Hz Hle. destruct (small_float z Hz) as (m & e & E & Hm & Hu & _). rewrite E in *. unfold small in Hz.
  destruct want as [s|s| |s m' e']; [cbn; lia|by destruct s; [cbn; lia|]|cbn; lia|].
  unfold as_u32, cast_with, clamp. destruct s; cbn.
  { destruct (0 <=? e') eqn:?; cbn; [lia|]. split; [lia|]. apply Z.max_lub_lt; [lia|]. eapply Z.le_lt_trans; [apply Z.le_min_r|].
    assert (0 ≤ Z.pos m' / 2 ^ (- e')) by (apply Z_div_nonneg_nonneg; [lia|apply Z.pow_nonneg; lia]). lia. }
  unfold F64.le, SFleb in Hle. rewrite (compare_units false) in Hle by done.
  assert (Hlt : units m' e' < z * 2 ^ 149).
  { rewrite <- Hu. destruct (Z.compare_spec (units m e) (units m' e')); [done..|lia]. }
  split; [lia|]. apply Z.max_lub_lt; [lia|]. eapply Z.le_lt_trans; [apply Z.le_min_r|].
  apply Shards.Shards.valid_finite in Hv as (He & _). unfold units in Hlt. destruct (Z.leb_spec 0 e').
  - rewrite Z.pow_add_r in Hlt by lia. apply (Z.mul_lt_mono_pos_r (2 ^ 149)); [done|].
    by rewrite <- Z.mul_assoc.
  - apply Z.div_lt_upper_bound; [by apply Z.pow_pos_nonneg; lia|].
    apply (Z.mul_lt_mono_pos_r (2 ^ (e' + 149))); [apply Z.pow_pos_nonneg; lia|].
    rewrite (Z.mul_comm _ z), <- Z.mul_assoc, <- Z.pow_add_r by lia. by replace (- e' + (e' + 149)) with 149 by lia.
Qed.

(** ** Tables *)
Record wf (t : FrameSizeTable) : Prop := {
  wf_small : Forall small (mbps_cols t);
  wf_sorted : ∀ i j a b, (i < j)%nat → mbps_cols t !! i = Some a → mbps_cols t !! j = Some b → a < b;
  wf_index : ∀ c i, col_index t !! c = Some i ↔ mbps_cols t !! i = Some c;
  wf_length : length (framesizes t) = length (mbps_cols t);
  wf_frames : Forall (λ v, v ≠ []) (framesizes t)
}.

Section table.
Context (t : FrameSizeTable) (Hwf : wf t).

Lemma col_size_ok i idx : (i < length (mbps_cols t))%nat → ∃ b, col_size t i idx = Ret b.
Proof using Hwf.
  intros Hi. unfold col_size. destruct (lookup_lt_is_Some_2 (framesizes t) i) as [v Hv]; [by rewrite wf_length|].
  rewrite Hv. cbn [unwrap]. ret_step. unfold size_at.
  assert (Hne : v ≠ []) by (eapply (Forall_lookup_1 _ _ _ _ (wf_frames t Hwf)); done).
  destruct (Nat.eqb_spec (length v) 0) as [E|E]; [by destruct v|].
  destruct (lookup_lt_is_Some_2 v ((idx + start_offset t) mod length v)) as [b ->]; [|by exists b]. by apply Nat.mod_upper_bound.
Qed.
Lemma interpolate_ok want lo hi idx : (lo < length (mbps_cols t))%nat → (hi < length (mbps_cols t))%nat →
  ∃ b, interpolate t want lo hi idx = Ret b.
Proof using Hwf.
  intros Hlo Hhi. unfold interpolate.
  destruct (lookup_lt_is_Some_2 _ _ Hlo) as [m0 ->], (lookup_lt_is_Some_2 _ _ Hhi) as [m1 ->]. cbn [unwrap]. ret_step.
  destruct (col_size_ok lo idx Hlo) as [v0 ->], (col_size_ok hi idx Hhi) as [v1 ->]. ret_step. by eexists.
Qed.
Lemma sorted_le i j a b : (i ≤ j)%nat → mbps_cols t !! i = Some a → mbps_cols t !! j = Some b → a ≤ b.
Proof using Hwf.
  intros Hij Ha Hb. destruct (decide (i = j)) as [->|]; [by simplify_eq|]. apply Z.lt_le_incl, (wf_sorted t Hwf i j); [lia|done..].
Qed.
Lemma search_columns k : mbps_cols t ≠ [] → ∃ r, Abr.binary_search_by (λ v, Z.compare v k) (mbps_cols t) = Ret r ∧
  match r with
  | inl i => mbps_cols t !! i = Some k
  | inr i => (i ≤ length (mbps_cols t))%nat ∧ (∀ j c, (j < i)%nat → mbps_cols t !! j = Some c → c ≤ k) ∧
             (∀ j c, (i ≤ j)%nat → mbps_cols t !! j = Some c → k < c)
  end.
Proof using Hwf.
  intros Hne. destruct (binary_search_ok (λ v, Z.compare v k) (mbps_cols t)) as (r & E & Hr); [|done|].
  - intros i j x y Hij Hx Hy. rewrite !Z.compare_le_iff. pose proof (sorted_le i j x y Hij Hx Hy). lia.
  - exists r. split; [done|]. destruct r as [i|i].
    + destruct Hr as (x & Hx & ->%Z.compare_eq_iff). done.
    + destruct Hr as (? & H1 & H2). split_and!; [done| |].
      * intros j c Hj Hx. apply Z.compare_le_iff. by eapply H1.
      * intros j c Hj Hx. apply Z.compare_gt_iff. by eapply H2.
Qed.
Lemma column_small i c : mbps_cols t !! i = Some c → small c.
Proof using Hwf. apply (Forall_lookup_1 _ _ _ _ (wf_small t Hwf)). Qed.
Lemma columns_nonempty i c : mbps_cols t !! i = Some c → mbps_cols t ≠ [].
Proof using Type. by intros H E; rewrite E in H. Qed.
Lemma cache_hit_ok want lo hi : ∃ hit, cache_hit t want lo hi = Ret hit ∧
  (hit = true → ∃ m0 m1, mbps_cols t !! lo = Some m0 ∧ mbps_cols t !! hi = Some m1 ∧
    F64.le (F32.of_Z m0) want = true ∧ F64.le want (F32.of_Z m1) = true).
Proof using Type.
  unfold cache_hit. destruct (Nat.ltb_spec lo (length (mbps_cols t))) as [Hlo|]; [|by exists false].
  destruct (Nat.ltb_spec hi (length (mbps_cols t))) as [Hhi|]; [|by exists false]. cbn [andb].
  destruct (lookup_lt_is_Some_2 _ _ Hlo) as [m0 ->], (lookup_lt_is_Some_2 _ _ Hhi) as [m1 ->]. cbn [unwrap]. ret_step.
  eexists. split; [done|]. intros [? ?]%andb_true_iff. by exists m0, m1.
Qed.
Lemma bracket_no_column k i a b : mbps_cols t !! i = Some a → mbps_cols t !! S i = Some b → a < k < b →
  ∀ j, mbps_cols t !! j ≠ Some k.
Proof using Hwf.
  intros Ha Hb Hab j Hj. destruct (decide (j ≤ i)%nat) as [Hji|Hji].
  - pose proof (sorted_le j i _ _ Hji Hj Ha). lia.
  - pose proof (sorted_le (S i) j _ _ ltac:(lia) Hb Hj). lia.
Qed.
(** Two adjacent columns around a bitrate are the only ones. *)
Lemma bracket_unique k i j a b c d : mbps_cols t !! i = Some a → mbps_cols t !! S i = Some b → a < k < b →
  mbps_cols t !! j = Some c → mbps_cols t !! S j = Some d → c ≤ k ≤ d → i = j.
Proof using Hwf.
  intros Ha Hb Hk Hc Hd Hk'. destruct (lt_eq_lt_dec i j) as [[Hij|]|Hij]; [|done|].
  - pose proof (sorted_le (S i) j b c ltac:(lia) Hb Hc). lia.
  - pose proof (sorted_le (S j) i d a ltac:(lia) Hd Ha). lia.
Qed.
End table.

(** looking up a frame size never fails: whatever the bitrate (NaN included), the frame and the
    columns remembered from before, no index is out of range. *)
Theorem interp_total t want idx cache : wf t → F32.valid want = true →
  ∃ b cache', bytes_interp_cached t want idx cache = Ret (b, cache').
Proof.
  intros Hwf Hv. unfold bytes_interp_cached. destruct (col_index t !! round_u32 want) as [i|] eqn:Hi.
  { apply (wf_index t Hwf) in Hi. destruct (col_size_ok t Hwf i idx) as [b ->]; [by eapply lookup_lt_Some|]. ret_step. by eexists _, _. }
  unfold bytes_no_column. destruct (Nat.eqb_spec (length (mbps_cols t)) 0) as [|Hn]; [by eexists _, _|].
  destruct (lookup_lt_is_Some_2 (mbps_cols t) 0) as [first Hfirst]; [lia|]. rewrite Hfirst. cbn [unwrap]. ret_step.
  case_match. { destruct (col_size_ok t Hwf 0 idx) as [b ->]; [lia|]. ret_step. by eexists _, _. }
  destruct (lookup_lt_is_Some_2 (mbps_cols t) (length (mbps_cols t) - 1)) as [last Hlast]; [lia|]. rewrite Hlast. cbn [unwrap]. ret_step.
  destruct (F64.le (F32.of_Z last) want) eqn:Hle.
  { destruct (col_size_ok t Hwf (length (mbps_cols t) - 1) idx) as [b ->]; [lia|]. ret_step. by eexists _, _. }
  destruct cache as [lo hi].
  destruct (cache_hit_ok t want lo hi) as (hit & -> & Hhit).
  ret_step. destruct hit.
  { destruct (Hhit eq_refl) as (m0 & m1 & Hlo%lookup_lt_Some & Hhi%lookup_lt_Some & _). destruct (interpolate_ok t Hwf want lo hi idx Hlo Hhi) as [b ->]. ret_step. by eexists _, _. }
  pose proof (as_u32_below want last Hv (column_small t Hwf _ _ Hlast) Hle) as Hk.
  destruct (search_columns t Hwf (as_u32 want) (columns_nonempty t _ _ Hlast)) as (r & -> & Hr). ret_step.
  assert (Hhi : (match r with inl i | inr i => i end < length (mbps_cols t))%nat).
  { destruct r as [i|i]; [by eapply lookup_lt_Some|]. destruct Hr as (? & H1 & _).
    destruct (decide (i = length (mbps_cols t))) as [->|]; [|lia].
    pose proof (H1 (length (mbps_cols t) - 1)%nat last ltac:(lia) Hlast). lia. }
  set (i := match r with inl i | inr i => i end) in *.
  destruct (interpolate_ok t Hwf want (i - 1) i idx ltac:(lia) Hhi) as [b ->]. ret_step. by eexists _, _.
Qed.

Lemma columns_nonzero t : mbps_cols t ≠ [] → (length (mbps_cols t) =? 0)%nat = false.
Proof. intros. by destruct (mbps_cols t). Qed.

(** Between two columns. *)
Lemma interp_between t k idx lo i a b : wf t → small k → as_u32 (F32.of_Z k) = k →
  mbps_cols t !! i = Some a → mbps_cols t !! S i = Some b → a < k < b →
  fst <$> bytes_no_column t (F32.of_Z k) idx (lo, S lo) = interpolate t (F32.of_Z k) i (S i) idx.
Proof.
  intros Hwf Hk Hu32 Ha Hb Hab. pose proof (lookup_lt_Some _ _ _ Hb) as Hn. unfold bytes_no_column. rewrite Hu32.
  rewrite columns_nonzero by (by eapply columns_nonempty).
  destruct (lookup_lt_is_Some_2 (mbps_cols t) 0) as [c0 Hc0]; [lia|]. rewrite Hc0. cbn [unwrap]. ret_step.
  pose proof (sorted_le t Hwf 0 i _ _ ltac:(lia) Hc0 Ha).
  rewrite small_le, (proj2 (Z.leb_gt k c0)) by (done || lia || by eapply column_small).
  destruct (lookup_lt_is_Some_2 (mbps_cols t) (length (mbps_cols t) - 1)) as [cl Hcl]; [lia|]. rewrite Hcl. cbn [unwrap]. ret_step.
  pose proof (sorted_le t Hwf (S i) (length (mbps_cols t) - 1) _ _ ltac:(lia) Hb Hcl).
  rewrite small_le, (proj2 (Z.leb_gt cl k)) by (done || lia || by eapply column_small).
  destruct (cache_hit_ok t (F32.of_Z k) lo (S lo)) as (hit & -> & Hhit). ret_step. destruct hit.
  - destruct (Hhit eq_refl) as (m0 & m1 & Hm0 & Hm1 & Hle0 & Hle1).
    rewrite small_le, Z.leb_le in Hle0 by (done || by eapply column_small).
    rewrite small_le, Z.leb_le in Hle1 by (done || by eapply column_small).
    rewrite <- (bracket_unique t Hwf k i lo a b m0 m1 Ha Hb Hab Hm0 Hm1 (conj Hle0 Hle1)).
    by destruct (interpolate t (F32.of_Z k) i (S i) idx).
  - destruct (search_columns t Hwf k (columns_nonempty t _ _ Ha)) as ([j|j] & -> & Hj); ret_step.
    + exfalso. by destruct (bracket_no_column t Hwf k i a b Ha Hb Hab j).
    + destruct Hj as (_ & Hlow & Hhigh). assert (j = S i) as ->.
      { destruct (lt_eq_lt_dec j (S i)) as [[?|?]|?]; [|done|].
        - pose proof (Hhigh i a ltac:(lia) Ha). lia.
        - pose proof (Hlow (S i) b ltac:(lia) Hb). lia. }
      replace (S i - 1)%nat with i by lia. by destruct (interpolate t (F32.of_Z k) i (S i) idx).
Qed.

(** at a whole number of Mbps the size is that of the column of this bitrate if there is one,
    of the first or the last column if the bitrate is below or above all, and otherwise
    on the line between the two columns around it, whichever neighbouring columns were
    remembered from before. *)
Theorem interp_whole_mbps t k idx lo : wf t → small k →
  let n := length (mbps_cols t) in
  let r := bytes_interp_cached t (F32.of_Z k) idx (lo, S lo) in
  (∀ i, mbps_cols t !! i = Some k → fst <$> r = col_size t i idx) ∧
  (∀ c, mbps_cols t !! 0%nat = Some c → k < c → fst <$> r = col_size t 0 idx) ∧
  (∀ c, mbps_cols t !! (n - 1)%nat = Some c → c < k → fst <$> r = col_size t (n - 1) idx) ∧
  (∀ i a b, mbps_cols t !! i = Some a → mbps_cols t !! S i = Some b → a < k < b →
     fst <$> r = interpolate t (F32.of_Z k) i (S i) idx).
Proof.
  intros Hwf Hk n r. destruct (small_float k Hk) as (m & e & _ & Hv & _ & Hu32 & Hround).
  assert (Hno : (∀ j c, mbps_cols t !! j = Some c → c ≠ k) → col_index t !! k = None).
  { intros H. destruct (col_index t !! k) as [j|] eqn:Hj; [|done]. apply (wf_index t Hwf) in Hj. by destruct (H j k). }
  unfold r, bytes_interp_cached. rewrite Hround. split_and!.
  - intros i Hi. rewrite (proj2 (wf_index t Hwf k i) Hi). by destruct (col_size t i idx).
  - intros c Hc Hkc. rewrite Hno by (intros j c' Hj; pose proof (sorted_le t Hwf 0 j _ _ ltac:(lia) Hc Hj); lia). unfold bytes_no_column.
    rewrite columns_nonzero by (by eapply columns_nonempty). rewrite Hc. cbn [unwrap]. ret_step.
    rewrite small_le, (proj2 (Z.leb_le k c)) by (done || lia || by eapply column_small). by destruct (col_size t 0 idx).
  - intros c Hc Hkc. pose proof (lookup_lt_Some _ _ _ Hc) as Hn.
    rewrite Hno by (intros j c' Hj; pose proof (lookup_lt_Some _ _ _ Hj); pose proof (sorted_le t Hwf j (n - 1) _ _ ltac:(lia) Hj Hc); lia). unfold bytes_no_column.
    rewrite columns_nonzero by (by eapply columns_nonempty).
    destruct (lookup_lt_is_Some_2 (mbps_cols t) 0) as [c0 Hc0]; [lia|]. rewrite Hc0. cbn [unwrap]. ret_step.
    pose proof (sorted_le t Hwf 0 (n - 1) _ _ ltac:(lia) Hc0 Hc).
    rewrite small_le, (proj2 (Z.leb_gt k c0)) by (done || lia || by eapply column_small). fold n. rewrite Hc. cbn [unwrap]. ret_step.
    rewrite small_le, (proj2 (Z.leb_le c k)) by (done || lia || by eapply column_small). by destruct (col_size t (n - 1) idx).
  - intros i a b Ha Hb Hab. rewrite Hno; [by eapply interp_between|].
    intros j c Hj ->. by destruct (bracket_no_column t Hwf k i a b Ha Hb Hab j).
Qed.

(** ** Tables that were loaded *)
Lemma index_lookup cols : NoDup cols → ∀ k (m0 : gmap Z nat) c i,
  foldl (λ m '(i, c), (<[c := i]> m : gmap Z nat)) m0 (zip (seq k (length cols)) cols) !! c = Some i ↔
  (((k ≤ i)%nat ∧ cols !! (i - k)%nat = Some c) ∨ (c ∉ cols ∧ m0 !! c = Some i)).
Proof.
  induction 1 as [|c0 cols Hc0 Hnd IH]; intros k m0 c i; cbn.
  - set_solver.
  - rewrite IH. destruct (decide (c = c0)) as [->|Hne].
    + rewrite lookup_insert_eq. split.
      * intros [[? Hx%list_elem_of_lookup_2]|[_ [= ->]]]; [done|]. left. split; [lia|]. by rewrite Nat.sub_diag.
      * intros [[Hk Hx]|[Hx _]]; [|set_solver]. right. split; [done|]. destruct (i - k)%nat as [|j] eqn:E; [f_equal; lia|].
        cbn in Hx. by apply list_elem_of_lookup_2 in Hx.
    + rewrite lookup_insert_ne by done. split.
      * intros [[? Hx]|[? ?]]; [left|right; set_solver]. split; [lia|]. by replace (i - k)%nat with (S (i - S k)) by lia.
      * intros [[Hk Hx]|[? ?]]; [left|right; set_solver]. destruct (i - k)%nat as [|j] eqn:E; [by simplify_eq/=|].
        split; [lia|]. by replace (i - S k)%nat with j by lia.
Qed.
(** A file whose columns are increasing bitrates and that has a row makes a good table. *)
Lemma load_wf draw headers records cols rows t :
  parse_columns (drop 1 headers) = Some cols → mapM id records = Some rows → rows ≠ [] → Forall small cols →
  (∀ i j a b, (i < j)%nat → cols !! i = Some a → cols !! j = Some b → a < b) →
  table_load draw headers records = Some t → wf t.
Proof.
  intros Hc Hr Hne Hs Hinc. unfold table_load. rewrite Hc. cbn. rewrite Hr. cbn. intros [= <-].
  assert (Hnd : NoDup cols).
  { apply NoDup_alt. intros i j x Hi Hj. destruct (lt_eq_lt_dec i j) as [[Hij|]|Hij]; [|done|].
    - pose proof (Hinc i j x x Hij Hi Hj). lia.
    - pose proof (Hinc j i x x Hij Hj Hi). lia. }
  split; cbn [mbps_cols col_index framesizes].
  - done.
  - done.
  - intros c i. rewrite (index_lookup cols Hnd). rewrite Nat.sub_0_r. rewrite lookup_empty. naive_solver lia.
  - by rewrite length_fmap, length_seq.
  - apply Forall_fmap, Forall_true. intros ci. cbn. by destruct rows.
Qed.

(** ** A small table *)
Module FrameDemo.
Definition demo_headers : list string := ["frame_index"; "5Mbps"; "10Mbps"; "15Mbps"]%string.
Definition demo_rows : list (option (list string)) :=
  [Some ["0"; "1000"; "2000"; "10000"]; Some ["1"; "1100"; "2100"; "10100"]]%string.
Definition demo_table : FrameSizeTable :=
  mkTable [5; 10; 15] (<[15 := 2%nat]> (<[10 := 1%nat]> (<[5 := 0%nat]> ∅))) [[1000; 1100]; [2000; 2100]; [10000; 10100]] 0.
Lemma demo_loaded : table_load (λ _, 0%nat) demo_headers demo_rows = Some demo_table.
Proof. vm_compute. reflexivity. Qed.
Lemma table_demo_wf : wf demo_table.
Proof.
  eapply (load_wf (λ _, 0%nat) demo_headers demo_rows [5; 10; 15]); [vm_compute; reflexivity..|done| | |apply demo_loaded].
  - repeat constructor.
  - intros [|[|[|i]]] [|[|[|j]]] a b Hij Ha Hb; simplify_eq/=; lia.
Qed.
Lemma interp_total_witness : ∃ b cache', bytes_interp_cached demo_table (Abr.lit 43 4) 0 (0%nat, 1%nat) = Ret (b, cache').
Proof. apply (interp_total demo_table (Abr.lit 43 4) 0 (0%nat, 1%nat) table_demo_wf). vm_compute. reflexivity. Defined.
Lemma interp_whole_mbps_witness : fst <$> bytes_interp_cached demo_table (F32.of_Z 12) 0 (0%nat, 1%nat) =
  interpolate demo_table (F32.of_Z 12) 1 2 0.
Proof.
  apply (interp_whole_mbps demo_table 12 0 0 table_demo_wf ltac:(unfold small, MAX_MBPS; lia)) with (a := 10) (b := 15);
    [reflexivity|reflexivity|lia].
Defined.
(** Between 10.5 and 11 Mbps the size is not between the columns for 10 and 15 Mbps but on the line
    through those for 5 and 10 Mbps; 10.75 Mbps gives 2150 bytes instead of 3200. *)
Lemma interp_outside_columns :
  bytes_interp_cached demo_table (Abr.lit 43 4) 0 (0%nat, 1%nat) = Ret (2150, (0%nat, 1%nat)) ∧
  interpolate demo_table (Abr.lit 43 4) 1 2 0 = Ret 3200.
Proof. split; vm_compute; reflexivity. Qed.
(** The table of one codec is given for another. *)
Lemma table_ignores_codec t t' key : (get_table (Some t') key (get_table (Some t) key ∅).2).1 = Some t.
Proof. unfold get_table. rewrite lookup_empty. cbn. by rewrite lookup_insert_eq. Qed.
End FrameDemo.
End FrameFacts.
