(* ===== verification/Server.v ===== *)
(** * The video server: [XRServer] of [examples/lib/models_XR.rs]

    Module [Server]: the state of the server and its handlers: the start and the end of
    a session, the frames of video and of audio with what they send, the packets from the
    network (control packets, tracking data, NADA's reports), and the statistics of
    [alvr_statistics.rs] that are reported for every frame.

    Handlers take the time and the server and give the server after.  What they schedule and
    send is appended to [events] and [to_network].  The bitrate manager is that of [Abr.v], the
    sender that of [StreamSocket.v], the sizes of frames those of [FrameTable.v].  [bincode] and the
    draws of the crate rand are parameters.  Not modelled: FovOptix (mode 6), logs and
    tables, the unread channel behind the control packets. *)

From Stdlib Require Import SpecFloat.
From S2P Require Import Prelude Scheduler F32 StreamSocket SimRng Airtime Edca F64Ops Nada Abr FrameTable Client.

Module Server.
Import Socket Client.
#[local] Open Scope f64_scope.
(** Arithmetic is that of [f32]. *)
#[local] Infix "⊕" := F32.add.
#[local] Infix "⊖" := F32.sub.
#[local] Infix "⊗" := F32.mul.
#[local] Infix "⊘" := F32.div.

(** ** Statistics of frames *)
Section statistics.
Context {T : Type} `{TaiTime T} `{!Edca.Epoch T}.
(** The fields that [report_network_statistics] uses. *)
Record StatisticsManager := mkStatistics {
  packets_skipped_total : Z;
  packets_skipped_partial_sum : Z;
  received_video_bytes_partial_sum : f32;
  frame_interarrival_partial_sum : f32;
  is_first_stats : bool;
  frame_interarrival_average : Nada.SlidingWindowAverage f32;
  history_throughput_weighted : list (f32 * f32);
  interval_avg_plot_throughput : f32;
  instant_weighted_avg_prev : T;
  prev_highest_frame : Z;
  prev_highest_shard : Z;
  map_frames_spf : gmap Z Z;
  frame_counter : Z;
  flr_shardloss_count : Abr.TimedVecFLR
}.
Implicit Types m : StatisticsManager.
Definition MAX_HISTORY_SIZE : nat := 256.
Definition statistics_new (max_history_size : nat) : StatisticsManager :=
  mkStatistics 0 0 F32.zero F32.zero true (Nada.window_new F32.zero max_history_size) [(F32.zero, F32.zero)] F32.zero Edca.EPOCH 0 (-1) ∅ 0
    (Abr.flr_new (Abr.fz 1)).
Definition statistics_clear m : StatisticsManager :=
  mkStatistics 0 0 F32.zero F32.zero true (Nada.clear (frame_interarrival_average m)) [] F32.zero Edca.EPOCH 0 (-1) ∅ (frame_counter m)
    (flr_shardloss_count m).
Definition statistics_loss (fl sl : Z) (t : f32) m : outcome StatisticsManager :=
  v ← Abr.flr_push_new fl sl t (flr_shardloss_count m);
  Ret (mkStatistics (packets_skipped_total m) (packets_skipped_partial_sum m) (received_video_bytes_partial_sum m)
    (frame_interarrival_partial_sum m) (is_first_stats m) (frame_interarrival_average m) (history_throughput_weighted m)
    (interval_avg_plot_throughput m) (instant_weighted_avg_prev m) (prev_highest_frame m) (prev_highest_shard m) (map_frames_spf m)
    (frame_counter m) v).

(** [SlidingWindowWeighted::get_average], which forgets the samples. *)
Definition weighted_average (l : list (f32 * f32)) : f32 :=
  Abr.sum_f32 ((λ '(x, w), x ⊗ w) <$> l) ⊘ Abr.sum_f32 (snd <$> l).

(** The shards that the server takes to be sent since the last report. *)
Definition i32 (z : Z) : outcome Z := if (- 2 ^ 31 <=? z) && (z <? 2 ^ 31) then Ret z else Panic.
(** [a as isize - b] *)
Definition isize_sub (a b : Z) : outcome Z :=
  let d := I64.cast a - b in if (- 2 ^ 63 <=? d) && (d <? 2 ^ 63) then Ret d else Panic.
Definition shards_sent (highest_frame highest_shard : Z) m : outcome Z :=
  if prev_highest_frame m =? highest_frame then
    if prev_highest_shard m <? highest_shard then
      d ← i32 (highest_shard - prev_highest_shard m); Ret (wrap 64 d)
    else Ret 0
  else if prev_highest_frame m <? highest_frame then
    from_prev ← match map_frames_spf m !! wrap 32 (prev_highest_frame m) with
                | Some count => d ← i32 (prev_highest_shard m + 1); Ret (Z.max 0 (count - wrap 64 d))
                | None => Ret 0
                end;
    let between := map_fold (λ frame count acc,
                     if (wrap 32 (prev_highest_frame m) <? frame) && (frame <? wrap 32 highest_frame) then acc + count else acc)
                     0 (map_frames_spf m) in
    actual ← Abr.add_usize (wrap 64 highest_shard) 1;
    Abr.add_usize (from_prev + between) actual
  else Ret 0.

(** What is computed for the report of a frame; the row that is logged has the fields of the
    report besides. *)
Record FrameReport := mkFrameReport {
  fr_peak_throughput_bps : f32;
  fr_frame_interarrival : f32;
  fr_instant_throughput_bps : f32;
  fr_shards_lost : Z;
  fr_filtered_ow_delay_ms : f32;
  fr_flr_deadline : Z;
  fr_shardloss_deadline : Z;
  fr_rtt_ms : f32
}.
Definition throughput (bytes : Z) (span : f32) : f32 :=
  if F64Ops.ne span F32.zero then Abr.fz bytes ⊗ Abr.fz 8 ⊘ span else F32.zero.
Definition report_network_statistics (s : NetworkStatisticsPacket) (rtt : Z) (now : T) m : outcome (FrameReport * StatisticsManager) :=
  total ← Abr.add_usize (packets_skipped_total m) (np_frames_skipped s);
  partial ← Abr.add_usize (packets_skipped_partial_sum m) (np_frames_skipped s);
  let '(interarrival, average) :=
    if negb (is_first_stats m) then (np_frame_interarrival s, Nada.submit_sample (np_frame_interarrival s) (frame_interarrival_average m))
    else (Abr.fz 7, frame_interarrival_average m) in
  let peak := throughput (np_bytes_in_frame s) (np_frame_span s) in
  let instant := throughput (np_rx_bytes s) (np_frame_interarrival s) in
  let history := history_throughput_weighted m ++ [(instant, np_frame_interarrival s)] in
  sent ← shards_sent (np_highest_rx_frame_index s) (np_highest_rx_shard_index s) m;
  lost ← isize_sub sent (np_rx_shard_counter s);
  let spf := filter (λ '(frame, _), ¬ (frame < wrap 32 (np_highest_rx_frame_index s))) (map_frames_spf m) in
  elapsed ← Abr.since now (instant_weighted_avg_prev m);
  let '(history, plot, prev) :=
    if 10 ^ 9 <=? elapsed then ([], weighted_average history, now)
    else (history, interval_avg_plot_throughput m, instant_weighted_avg_prev m) in
  let t := F64.to_f32 (Abr.taitime_to_f64 now) in
  '(v, flr) ← Abr.sum_flr t (flr_shardloss_count m);
  '(v, sl) ← Abr.sum_shard_loss t v;
  _ ← Abr.since now Edca.EPOCH;
  counter ← Abr.add_usize (frame_counter m) 1;
  Ret (mkFrameReport peak interarrival instant lost (np_filtered_ow_delay s ⊗ Abr.fz 1000) flr sl (F32.of_nanos rtt ⊗ Abr.fz 1000),
       mkStatistics total partial (received_video_bytes_partial_sum m ⊕ Abr.fz (np_rx_bytes s))
         (frame_interarrival_partial_sum m ⊕ np_frame_interarrival s) false average history plot prev
         (np_highest_rx_frame_index s) (np_highest_rx_shard_index s) spf counter v).
End statistics.
Arguments StatisticsManager : clear implicits.

(** ** What the server is given from outside

    [bincode] on what it reads: a control packet, of which the client sends two kinds, and a
    tracking packet, of which only the devices that it reports matter here. *)
Inductive ControlPacket := Known (p : ClientControlPacket) | Unexpected.
Record Tracking := mkTracking { device_motions : list Z; serialized_size : nat }.
Class Deserialize := {
  deserialize_control : list Z → option ControlPacket;
  deserialize_tracking : list Z → option Tracking;
  (** [VideoPacketHeader::new(Duration::from_secs(1), false)], serialized *)
  video_header : list Z
}.
Definition FRAMED_PREFIX_LENGTH : nat := 4.
Definition framed_recv_vec `{Deserialize} (buffer : list Z) : option ControlPacket :=
  if (length buffer <? FRAMED_PREFIX_LENGTH)%nat then None
  else
    let packet_length := (FRAMED_PREFIX_LENGTH + Z.to_nat (from_be (take FRAMED_PREFIX_LENGTH buffer)))%nat in
    if (length buffer <? packet_length)%nat then None
    else deserialize_control (take (packet_length - FRAMED_PREFIX_LENGTH) (drop FRAMED_PREFIX_LENGTH buffer)).

Section server.
Context {T : Type} `{TaiTime T} `{!Env T} `{!Deserialize}.
#[local] Instance epoch : Edca.Epoch T := @Socket.EPOCH T _ _.
(** The level of [XRSIM_NADA_FIX]; the draws of the bitrate manager and [f64::powf]; the draw of
    [gen_range(-0.001..=0.001)]. *)
Context (nada_level : Z) (sample_unit : Rng.SimRng → f32 * Rng.SimRng) (powf : f64 → f64 → f64).
Context (sample_epsilon : Rng.SimRng → f32 * Rng.SimRng).

(** ** The state *)
(** [table] is what [get_table] gives for the video of the run. *)
Record Conf := mkConf {
  fps : f32;
  t_update_abr : f32;
  packet_size_sockets : nat;
  edca_be_mode : bool;
  deterministic_frame_sizes : bool;
  table : option Frames.FrameSizeTable
}.
(** The streams of a session, with the channel they share.  The receivers of tracking data and
    of statistics and the control socket are there exactly when these are. *)
Record Streams := mkStreams {
  chan : BufferedReceiver;
  video_app_sender : StreamSender T;
  audio_app_sender : StreamSender T
}.
Inductive Event := GenerateVideo | GenerateAudio.
Record PerfectInfoBitrateMessage := mkPerfect {
  pi_bitrate_mbps : f32;
  pi_ladder_bps : option (list f32);
  pi_last_rtt_ms : f32;
  pi_last_owdg_ms : f32;
  pi_last_flr_window : f32
}.
(** What the handlers schedule and send; packets with the time at which they are sent. *)
Record Out := mkOut {
  events : list (T * Event);
  to_network : list (T * Mpdu);  (* [outport_videoapp_network] *)
  perfect_info : list PerfectInfoBitrateMessage  (* [output_perfect_information_bitrate] *)
}.
(** The last values for the [PerfectInfoBitrateMessage]. *)
Record LastStats := mkLast { last_rtt_ms : f32; last_owdg_ms : f32; last_flr_window : f32 }.
Record XRServer := mkServer {
  conf : Conf;
  t_0 : T;
  is_streaming : bool;
  streams : option Streams;
  bitrate_manager : Abr.BitrateManager (T := T);
  nada_sender : option Nada.NadaSender;
  statistics_manager : StatisticsManager T;
  frames_sent_counter : Z;
  map_rtt : gmap Z T;
  last_perfect_info : LastStats;
  last_tracking_rx_instant : T;
  rng : Rng.SimRng;
  out : Out
}.
Implicit Types s : XRServer.
Definition set_streams (st : option Streams) s : XRServer :=
  mkServer (conf s) (t_0 s) (is_streaming s) st (bitrate_manager s) (nada_sender s) (statistics_manager s) (frames_sent_counter s)
    (map_rtt s) (last_perfect_info s) (last_tracking_rx_instant s) (rng s) (out s).
Definition set_chan (rd : BufferedReceiver) s : XRServer :=
  match streams s with
  | Some st => set_streams (Some (mkStreams rd (video_app_sender st) (audio_app_sender st))) s
  | None => s
  end.
Definition set_rates (b : Abr.BitrateManager (T := T)) (n : option Nada.NadaSender) s : XRServer :=
  mkServer (conf s) (t_0 s) (is_streaming s) (streams s) b n (statistics_manager s) (frames_sent_counter s)
    (map_rtt s) (last_perfect_info s) (last_tracking_rx_instant s) (rng s) (out s).
Definition set_statistics (m : StatisticsManager T) (l : LastStats) s : XRServer :=
  mkServer (conf s) (t_0 s) (is_streaming s) (streams s) (bitrate_manager s) (nada_sender s) m (frames_sent_counter s)
    (map_rtt s) l (last_tracking_rx_instant s) (rng s) (out s).
Definition set_sent (counter : Z) (m : gmap Z T) s : XRServer :=
  mkServer (conf s) (t_0 s) (is_streaming s) (streams s) (bitrate_manager s) (nada_sender s) (statistics_manager s) counter
    m (last_perfect_info s) (last_tracking_rx_instant s) (rng s) (out s).
Definition set_tracking (now : T) s : XRServer :=
  mkServer (conf s) (t_0 s) (is_streaming s) (streams s) (bitrate_manager s) (nada_sender s) (statistics_manager s) (frames_sent_counter s)
    (map_rtt s) (last_perfect_info s) now (rng s) (out s).
Definition set_rng (g : Rng.SimRng) s : XRServer :=
  mkServer (conf s) (t_0 s) (is_streaming s) (streams s) (bitrate_manager s) (nada_sender s) (statistics_manager s) (frames_sent_counter s)
    (map_rtt s) (last_perfect_info s) (last_tracking_rx_instant s) g (out s).
Definition set_out (o : Out) s : XRServer :=
  mkServer (conf s) (t_0 s) (is_streaming s) (streams s) (bitrate_manager s) (nada_sender s) (statistics_manager s) (frames_sent_counter s)
    (map_rtt s) (last_perfect_info s) (last_tracking_rx_instant s) (rng s) o.
Definition schedule_event (now : T) (delay : Z) (e : Event) s : outcome XRServer :=
  t ← time_add now delay;
  if time_lt now t then Ret (set_out (mkOut (events (out s) ++ [(t, e)]) (to_network (out s)) (perfect_info (out s))) s) else Panic.

(** [x.clamp(lo, hi)] *)
Definition fclamp (lo hi x : f64) : f64 := if F64.lt x lo then lo else if F64.lt hi x then hi else x.
(** Modes other than FovOptix. *)
Definition server_new (now : T) (c : Conf) (initial_bitrate_mbps : f32) (abr_enabled : Z) (profile : Abr.NestVrProfile)
    (effects : list Abr.Bandwidth) (g g_manager : Rng.SimRng) : outcome XRServer :=
  let mega := F64.mul (F64.of_f32 initial_bitrate_mbps) (F64.of_Z 1000000) in
  n ← (if abr_enabled =? 5 then
         n ← (if 2 <=? nada_level then Nada.sender_new_at now mega else Nada.sender_new now); Ret (Some n)
       else Ret None);
  let b := Abr.manager_new MAX_HISTORY_SIZE (fps c) initial_bitrate_mbps abr_enabled profile (fps c) (t_update_abr c) effects g_manager in
  let b := if (abr_enabled =? 5) && (2 <=? nada_level) then
             let rate := fclamp (F64.of_Z Nada.RMCAT_CC_DEFAULT_RMIN) (F64.of_Z Nada.RMCAT_CC_DEFAULT_RMAX) mega in
             Abr.set_nada (Some (F64.div rate (F64.of_Z 1000000))) (Abr.bm_rng b) b
           else b in
  Ret (mkServer c now false None b n (statistics_new MAX_HISTORY_SIZE) 0 ∅ (mkLast F32.zero F32.zero F32.zero) now g (mkOut [] [] [])).

(** ** To the network *)
Definition network_packet (be_mode : bool) (p : Z * Z * Z * Z * Z * f32) (data : list Z) : Mpdu :=
  let '(packet_length_bytes, id, next_packet_index, shards_count, shard_index, tx_r_instant) := p in
  mkMpdu (exact_len_payload data (Z.to_nat packet_length_bytes)) (packet_length_bytes * 8 + 100 * 8)
    (mkHeader packet_length_bytes id next_packet_index shards_count shard_index tx_r_instant None)
    (if negb be_mode && ((id =? VIDEO) || (id =? AUDIO)) then Edca.Video else Edca.BestEffort).
(** Every pass takes a message of the channel. *)
Fixpoint read_loop (n : nat) (be_mode : bool) (rd : BufferedReceiver) (sent : list Mpdu) : outcome (BufferedReceiver * list Mpdu) :=
  match n with
  | O => OutOfFuel
  | S n =>
      match recv_shared rd with
      | (Err _, rd) | (Ok None, rd) => Ret (rd, sent)
      | (Ok (Some data), rd) =>
          r ← parse_shard_data (take 100 data);
          match r with
          | Ok p => read_loop n be_mode rd (sent ++ [network_packet be_mode p data])
          | Err _ => Ret (rd, sent)
          end
      end
  end.
(** [rd]: the channel after a send. *)
Definition read_app_send_network_interface (now : T) (rd : BufferedReceiver) s : outcome XRServer :=
  _ ← duration_since now (t_0 s);
  '(rd, sent) ← read_loop (S (length (option_list (buffer rd) ++ receiver rd))) (edca_be_mode (conf s)) rd [];
  let o := out s in
  Ret (set_chan rd (set_out (mkOut (events o) (to_network o ++ (pair now <$> sent)) (perfect_info o)) s)).
Definition push_all (msgs : list (list Z)) (rd : BufferedReceiver) : BufferedReceiver := foldl (λ rd msg, send_shared msg rd) rd msgs.

(** ** Frames

    The sender is cloned for every frame: what [send] changes in it is lost. *)
Definition audio_buffer : outcome Buffer :=
  let hidden_offset := (SHARD_PREFIX_SIZE + length video_header)%nat in
  raw ← write_at (replicate (hidden_offset + (1400 + 600)) 0) SHARD_PREFIX_SIZE video_header;
  Ret (mkBuffer raw hidden_offset (1400 + 600)).
Definition generate_audio_frame (now : T) s : outcome XRServer :=
  s ← match streams s with
      | Some st =>
          buf ← audio_buffer;
          '(msgs, _) ← send buf now [] (audio_app_sender st);
          read_app_send_network_interface now (push_all msgs (chan st)) s
      | None => Ret s
      end;
  schedule_event now (10 * 10 ^ 6) GenerateAudio s.

(** [send_socket] of a frame. *)
Definition set_packet_index (n : Z) (tx : StreamSender T) : StreamSender T :=
  mkSender (tx_stream_id tx) (tx_max_packet_size tx) n (used_buffers tx) (tx_shards_count tx) (ref_time tx) (frame_tracker tx).
(** The frame's bytes are moved behind the hidden prefix. *)
Definition shift_frame (b : Buffer) : outcome Buffer :=
  let payload_len := length (inner b) in
  '(b, _) ← get_range_mut 0 payload_len b;
  inner' ← write_at (inner b) (hidden_offset b) (take payload_len (inner b));
  Ret (mkBuffer inner' (hidden_offset b) (bf_length b)).
Definition next_frame_delay (epsilon : f32) (c : Conf) : outcome Z :=
  let ideal := Abr.fz 1 ⊘ fps c in
  let floor := Abr.lit 5 10 ⊗ ideal in
  F32.to_nanos (Abr.fmax (ideal ⊕ epsilon) floor).
(** The bitrate of the frame; a pass of the algorithm is told to the client. *)
Definition frame_bitrate (now : T) s : outcome (f32 * XRServer) :=
  '(b, pass) ← Abr.frame_abr sample_unit (t_update_abr (conf s)) false now (bitrate_manager s);
  let o := out s in
  let l := last_perfect_info s in
  let o := match pass with
           | Some mbps => mkOut (events o) (to_network o) (perfect_info o ++
               [mkPerfect mbps (Abr.bitrate_ladder_bps b) (last_rtt_ms l) (last_owdg_ms l) (last_flr_window l)])
           | None => o
           end in
  Ret (Abr.per_mega (Abr.last_target_bitrate_bps b), set_out o (set_rates b (nada_sender s) s)).
(** The frame is sent: the map of the instants, and the shards in the channel. *)
Definition send_frame (now : T) (mbps : f32) (tx : StreamSender T) (rd : BufferedReceiver) s : outcome (gmap Z T * BufferedReceiver) :=
  '(buf, _, _, tx) ← Frames.get_buffer_emu (length video_header) (deterministic_frame_sizes (conf s)) (table (conf s)) mbps (fps (conf s))
                      (Z.to_nat (frames_sent_counter s)) (0%nat, 1%nat) tx;
  let m := tr_map (frame_tracker tx) ∪ map_rtt s in
  buf ← shift_frame buf;
  '(msgs, tx) ← send buf now [] tx;
  Ret (tr_map (frame_tracker tx) ∪ m, push_all msgs rd).
Definition generate_video_frame (now : T) s : outcome XRServer :=
  match streams s with
  | None => Ret s
  | Some st =>
      let tx := set_packet_index (wrap 32 (frames_sent_counter s)) (video_app_sender st) in
      let s := set_streams (Some (mkStreams (chan st) tx (audio_app_sender st))) s in
      '(mbps, s) ← frame_bitrate now s;
      '(m, rd) ← send_frame now mbps tx (chan st) s;
      s ← read_app_send_network_interface now rd (set_sent (frames_sent_counter s) m s);
      let '(epsilon, g) := sample_epsilon (rng s) in
      delay ← next_frame_delay epsilon (conf s);
      b ← Abr.report_encoded_frame_server now (bitrate_manager s);
      s ← schedule_event now delay GenerateVideo (set_rng g (set_rates b (nada_sender s) s));
      counter ← Abr.add_usize (frames_sent_counter s) 1;
      Ret (set_sent counter (map_rtt s) s)
  end.

(** ** From the network *)
Definition lost_frames (now : T) (p : DeadlineShardlossStatPacket) s : outcome XRServer :=
  (fix go (losses : list (Z * nat)) s :=
     match losses with
     | [] => Ret s
     | (_, shards) :: losses =>
         t ← Abr.secs now Edca.EPOCH;
         m ← statistics_loss 1 (Z.of_nat shards) t (statistics_manager s);
         b ← Abr.report_shard_and_frame_loss 1 (Z.of_nat shards) t (bitrate_manager s);
         go losses (set_rates b (nada_sender s) (set_statistics m (last_perfect_info s) s))
     end) (zip (frame_indexes p) (shards_lost p)) s.
Definition nada_stats_report (n : NadaStats) : Nada.NADAFeedbackReport :=
  Nada.mkReport (nada_rmode n) (nada_xcurr n) (nada_recv n) (ns_d_queue n) (ns_d_tilde n) (ns_plr n).
(** [sent]: when the frame was sent. *)
Definition frame_report (now sent : T) (p : NetworkStatisticsPacket) s : outcome XRServer :=
  rtt ← Abr.since now sent;
  '(r, m) ← report_network_statistics p rtt now (statistics_manager s);
  let s := set_statistics m (mkLast (fr_rtt_ms r) (fr_filtered_ow_delay_ms r) (Abr.fz (fr_flr_deadline r))) s in
  b ← Abr.report_network_statistics_abr powf rtt (fr_peak_throughput_bps r) (fr_frame_interarrival r) (stats_for_abr p) now sent
        (bitrate_manager s);
  match nada_feedback (np_nada_stats p), nada_sender s with
  | true, Some n =>
      '(n, b) ← Abr.nada_feedback now sent (nada_stats_report (np_nada_stats p)) (fps (conf s)) n b;
      Ret (set_rates b (Some n) s)
  | _, n => Ret (set_rates b n s)
  end.
Definition handle_control_packet (packet : ControlPacket) (now : T) s : outcome XRServer :=
  match streams s, packet with
  | Some _, Known (NetworkStatistics p) =>
      let frame_id := wrap 32 (np_frame_index p) in
      match map_rtt s !! frame_id with
      | Some sent => frame_report now sent p (set_sent (frames_sent_counter s) (delete frame_id (map_rtt s)) s)
      | None => Ret s
      end
  | Some _, Known (DeadlineShardLossStat p) => lost_frames now p s
  | _, _ => Ret s
  end.
Definition decode_tracking_from_bytes (buf : list Z) : option Tracking :=
  if (length buf <? SHARD_PREFIX_SIZE)%nat then None else deserialize_tracking (drop SHARD_PREFIX_SIZE buf).
Definition nada_timer_report (buf : list Z) (now : T) s : outcome XRServer :=
  match decode_tracking_from_bytes buf with
  | None => Ret s
  | Some track =>
      let at_ := (SHARD_PREFIX_SIZE + serialized_size track)%nat in
      match (if (at_ <=? length buf)%nat then Nada.decode (drop at_ buf) else None), nada_sender s with
      | Some r, Some n =>
          '(n, b) ← Abr.nada_timer_feedback now r (fps (conf s)) n (bitrate_manager s);
          Ret (set_rates b (Some n) s)
      | _, _ => Ret s
      end
  end.
(** Every device of the packet is logged. *)
Fixpoint track_devices (devices : list Z) (now : T) s : outcome XRServer :=
  match devices with
  | [] => Ret s
  | _ :: devices =>
      _ ← duration_since now (last_tracking_rx_instant s);
      _ ← duration_since now EPOCH;
      track_devices devices now (set_tracking now s)
  end.
(** A packet of tracking data: through the channel, into a buffer of [MAX_PACKET_SIZE_RECV] zeros. *)
Definition tracking_packet (data : list Z) (now : T) s : outcome XRServer :=
  s ← (if bool_decide (is_Some (nada_sender s)) && (2 <=? nada_level) then nada_timer_report data now s else Ret s);
  match streams s with
  | Some st =>
      let '(r, rd) := reader_recv MAX_PACKET_SIZE_RECV (send_shared data (chan st)) in
      let new_buffer := match r with Ok d => resize d MAX_PACKET_SIZE_RECV | Err _ => replicate MAX_PACKET_SIZE_RECV 0 end in
      match decode_tracking_from_bytes new_buffer with
      | Some track => track_devices (device_motions track) now (set_chan rd s)
      | None => Ret (set_chan rd s)
      end
  | None => Ret s
  end.
Definition STATISTICS : Z := 4.
Definition deliver (now : T) (packet : Mpdu) s : outcome XRServer :=
  let id := hd_stream_id (header_alvr packet) in
  if id =? FOVOPTIX_BW_PROBE then Panic
  else if id =? TRACKING then tracking_packet (data_inner packet) now s
  else match streams s with
       | None => Ret s
       | Some st =>
           if id =? STATISTICS then
             let '(_, rd) := reader_recv MAX_PACKET_SIZE_RECV (send_shared (data_inner packet) (chan st)) in
             Ret (set_chan rd s)
           else if (id =? CONTROL_STREAM) || (id =? FRAMELOSS_PACKET) then
             p ← unwrap (framed_recv_vec (data_inner packet));
             handle_control_packet p now s
           else Ret s
       end.
Fixpoint in_from_network (packets : list Mpdu) (now : T) s : outcome XRServer :=
  match packets with
  | [] => Ret s
  | packet :: packets => s ← deliver now packet s; in_from_network packets now s
  end.

(** ** Sessions *)
Definition connection_pipeline (now : T) s : outcome XRServer :=
  let size := packet_size_sockets (conf s) in
  let st := mkStreams (mkReceiver [] false None) (request_stream size VIDEO (t_0 s)) (request_stream size AUDIO (t_0 s)) in
  s ← generate_video_frame now
        (mkServer (conf s) (t_0 s) true (Some st) (bitrate_manager s) (nada_sender s) (statistics_manager s) (frames_sent_counter s)
           (map_rtt s) (last_perfect_info s) (last_tracking_rx_instant s) (rng s) (out s));
  generate_audio_frame now s.
Definition session_end (now : T) s : outcome XRServer :=
  b ← Abr.reset now (bitrate_manager s);
  Ret (mkServer (conf s) (t_0 s) false None b (nada_sender s) (statistics_clear (statistics_manager s)) 0 ∅
         (last_perfect_info s) (last_tracking_rx_instant s) (rng s) (out s)).
Definition oracle_bandwidth_step (now : T) s : outcome XRServer :=
  b ← Abr.oracle_bandwidth_step now (bitrate_manager s); Ret (set_rates b (nada_sender s) s).
Definition oracle_apply_lookahead_cap (cap : f32) (now : T) s : outcome XRServer :=
  b ← Abr.oracle_apply_lookahead_cap cap now (bitrate_manager s); Ret (set_rates b (nada_sender s) s).
Definition handle (now : T) (e : Event) s : outcome XRServer :=
  match e with GenerateVideo => generate_video_frame now s | GenerateAudio => generate_audio_frame now s end.
End server.
Arguments XRServer T : clear implicits.
End Server.
