(* ===== verification/ServerFacts.v ===== *)
(** * The video server

    Theorems on [Server].  A video frame is sent as the shards of its bytes under the next number and
    its instant is noted; reports are matched with the latest sending of their frame and count
    once; what the client reports arrives as it was reported; while a session is on the next video
    frame is pending, and the chains of audio frames accumulate with the sessions. *)

From Stdlib Require Import SpecFloat.
From S2P Require Import Prelude StablePq Scheduler SeqExecutor F32 F32Facts StreamSocket Shards FrameDeadlines SimRng Airtime Edca F64Ops Nada NadaFacts Abr FrameTable Keyframe Client ClientFacts Server.

Module ServerFacts.
Import Socket Shards Client Server.

Section server.
Context {T : Type} `{TaiTime T} `{!Env T} {DS : Deserialize}.
Context (nada_level : Z) (sample_unit : Rng.SimRng → f32 * Rng.SimRng) (powf : f64 → f64 → f64).
Context (sample_epsilon : Rng.SimRng → f32 * Rng.SimRng).
Context (m : nat) (m_pos : (0 < m)%nat) (m_24 : Z.of_nat m < 2 ^ 24).
Implicit Types s : XRServer T.
#[local] Existing Instance Server.epoch.

(** ** Shards as packets of the network *)
(** The [i]-th shard of [D]. *)
Definition mpdu (be : bool) (stream packet : Z) (instant : f32) (D : list Z) (i : nat) : Mpdu :=
  let msg := shard m stream packet instant D i in
  let len := Z.of_nat (length msg) in
  mkMpdu msg (len * 8 + 100 * 8) (mkHeader len stream packet (Z.of_nat (shards_of m (length D))) (Z.of_nat i) instant None)
    (if negb be && ((stream =? VIDEO) || (stream =? AUDIO)) then Edca.Video else Edca.BestEffort).
Definition mpdus (be : bool) (stream packet : Z) (instant : f32) (D : list Z) : list Mpdu :=
  mpdu be stream packet instant D <$> seq 0 (shards_of m (length D)).
Lemma shards_le (D : list Z) : (shards_of m (length D) ≤ length D)%nat.
Proof.
  destruct (decide (shards_of m (length D) ≤ length D)%nat); [done|]. assert (length D < shards_of m (length D))%nat as Hlt by lia.
  apply shards_of_lt in Hlt; [|done]. nia.
Qed.
Lemma shard_packet be stream packet instant (D : list Z) i : (i < shards_of m (length D))%nat → Z.of_nat (length D) < 2 ^ 24 →
  0 ≤ stream < 2 ^ 16 → 0 ≤ packet < 2 ^ 32 → F32.valid instant = true →
  ∃ p, parse_shard_data (take 100 (shard m stream packet instant D i)) = Ret (Ok p) ∧
    network_packet be p (shard m stream packet instant D i) = mpdu be stream packet instant D i.
Proof.
  intros Hi HD Hs Hp Hv. set (px := shard_prefix m stream packet instant D i). pose proof (shards_le D).
  assert (length (chunk m D i) ≤ length D)%nat as Hc by (rewrite chunk_length; lia).
  assert (prefix_wf px) as Hwf by (repeat split; cbn; try lia; done).
  assert (take 100 (shard m stream packet instant D i) = prefix_bytes px ++ take 78 (chunk m D i)) as ->.
  { unfold shard. fold px. rewrite take_app, prefix_bytes_length. rewrite take_ge by (rewrite prefix_bytes_length; unfold SHARD_PREFIX_SIZE; lia). done. }
  pose proof (parse_prefix_bytes px (take 78 (chunk m D i)) Hwf) as Ep. unfold parse_shard_data.
  rewrite (proj2 (Nat.ltb_ge _ _)) by (rewrite length_app, prefix_bytes_length; unfold SHARD_PREFIX_SIZE; lia).
  change (field (prefix_bytes px ++ take 78 (chunk m D i)) 0 4) with (px_length (parse_prefix (prefix_bytes px ++ take 78 (chunk m D i)))).
  rewrite Ep. unfold u32_add. rewrite (proj2 (Z.leb_le _ _)) by (cbn; unfold U32_MAX; lia). ret_step. eexists. split; [done|].
  assert (px_length px + 4 = Z.of_nat (length (shard m stream packet instant D i))) as El.
  { unfold shard. rewrite length_app, prefix_bytes_length. cbn. unfold SHARD_PREFIX_SIZE. lia. }
  unfold network_packet, mpdu. rewrite El, Nat2Z.id. unfold exact_len_payload. by rewrite Nat.eqb_refl.
Qed.

(** ** The channel is emptied *)
Abbreviation empty_chan := (mkReceiver [] false None).
Lemma read_queue_ok be q (f : list Z → Mpdu) : ∀ sent,
  Forall (λ msg, ∃ p, parse_shard_data (take 100 msg) = Ret (Ok p) ∧ network_packet be p msg = f msg) q →
  read_loop (S (length q)) be (mkReceiver q false None) sent = Ret (empty_chan, sent ++ (f <$> q)).
Proof.
  induction q as [|msg q IH]; intros sent Hq; [cbn; by rewrite app_nil_r|].
  apply Forall_cons in Hq as [(p & Ep & Ef) Hq]. cbn [length]. specialize (IH (sent ++ [f msg]) Hq).
  remember (S (length q)) as n. cbn [read_loop recv_shared buffer try_recv receiver disconnected].
  rewrite Ep. ret_step. by rewrite Ef, IH, fmap_cons, <-app_assoc.
Qed.
Lemma push_all_ok msgs : ∀ q, push_all msgs (mkReceiver q false None) = mkReceiver (q ++ msgs) false None.
Proof.
  induction msgs as [|x l IH]; intros q; [cbn; by rewrite app_nil_r|].
  change (push_all (x :: l) (mkReceiver q false None)) with (push_all l (mkReceiver (q ++ [x]) false None)). by rewrite IH, <-app_assoc.
Qed.
Lemma read_shards be stream packet instant (D : list Z) : Z.of_nat (length D) < 2 ^ 24 →
  0 ≤ stream < 2 ^ 16 → 0 ≤ packet < 2 ^ 32 → F32.valid instant = true →
  let msgs := shard m stream packet instant D <$> seq 0 (shards_of m (length D)) in
  read_loop (S (length msgs)) be (mkReceiver msgs false None) [] = Ret (empty_chan, mpdus be stream packet instant D).
Proof.
  intros HD Hs Hp Hv msgs.
  rewrite (read_queue_ok be msgs (λ msg, match parse_shard_data (take 100 msg) with
                                        | Ret (Ok p) => network_packet be p msg | _ => mkMpdu [] 0 header_default Edca.BestEffort end)).
  - cbn [app]. f_equal. f_equal. unfold mpdus, msgs. rewrite <-list_fmap_compose. apply list_fmap_ext. intros i x Hx.
    apply lookup_seq in Hx as [-> Hi]. destruct (shard_packet be stream packet instant D (0 + i)) as (p & Ep & E); [done..|].
    unfold compose. by rewrite Ep.
  - apply Forall_fmap, Forall_seq. intros i Hi. destruct (shard_packet be stream packet instant D i) as (p & Ep & E); [lia|done..|].
    unfold compose. exists p. by rewrite Ep.
Qed.

(** ** A video frame *)
(** The streams between two events: the channel is empty, the senders are as requested but for the
    packet number. *)
Definition stream_of (id : Z) (t0 : T) : StreamSender T := request_stream (m + SHARD_PREFIX_SIZE) id t0.
Record streams_ok (t0 : T) (st : Streams (T := T)) : Prop := mkStreamsOk {
  so_chan : chan st = empty_chan;
  so_video : ∃ n, video_app_sender st = set_packet_index n (stream_of VIDEO t0);
  so_audio : audio_app_sender st = stream_of AUDIO t0
}.
(** What [get_buffer_emu] gives. *)
Lemma emu_buffer hs det tab mbps fr id cache k t0 buf lo hi tx :
  Frames.get_buffer_emu hs det tab mbps fr id cache (set_packet_index k (stream_of VIDEO t0)) = Ret (buf, lo, hi, tx) →
  (SHARD_PREFIX_SIZE + hs ≤ length (inner buf))%nat ∧ buf = mkBuffer (inner buf) (SHARD_PREFIX_SIZE + hs) (length (inner buf)) ∧
  tx = set_packet_index (k + 1) (stream_of VIDEO t0) ∧ k + 1 ≤ U32_MAX.
Proof.
  unfold Frames.get_buffer_emu. intros E. inv_ret E as ([[l lo'] hi'] & _ & E). cbv zeta in E.
  remember (SHARD_PREFIX_SIZE + hs)%nat as h eqn:Eh. clear Eh.
  cbn [Socket.next_packet_index set_packet_index] in E. destruct (Z.leb_spec (k + 1) U32_MAX) as [Hk|]; [|done]. injection E as <- _ _ <-. cbn [inner].
  destruct (Nat.ltb_spec (length l) h); (split_and!; [|done|done|done]); [|lia].
  unfold resize. rewrite length_app, length_take, length_replicate. lia.
Qed.
(** The bytes of the frame behind those that are left where its header would be. *)
Definition frame_bytes (l : list Z) : list Z := take (length video_header) (drop SHARD_PREFIX_SIZE l) ++ l.
Lemma shift_frame_ok l hidden : (0 < hidden ≤ length l)%nat →
  shift_frame (mkBuffer l hidden (length l)) = Ret (mkBuffer (take hidden l ++ l) hidden (length l)).
Proof.
  intros [Hh Hl]. unfold shift_frame, get_range_mut. cbn [inner hidden_offset bf_length].
  rewrite (proj2 (Nat.ltb_lt _ _)) by lia. set (l' := resize l _).
  assert (length l' = hidden + length l)%nat as Hl' by (unfold l', resize; rewrite length_app, length_take, length_replicate; lia).
  assert (l' = l ++ replicate hidden 0) as El.
  { unfold l', resize. rewrite take_ge by lia. do 2 f_equal. lia. }
  rewrite slice_ok by lia. ret_step. cbn [inner hidden_offset bf_length]. unfold write_at.
  assert (take (length l) l' = l) as -> by (rewrite El, take_app_length; done).
  rewrite (proj2 (Nat.leb_le _ _)) by lia. ret_step. rewrite drop_ge by lia. rewrite app_nil_r, El, take_app_le by lia.
  by rewrite Nat.max_id.
Qed.
Lemma frame_payload l : (SHARD_PREFIX_SIZE + length video_header ≤ length l)%nat →
  payload (mkBuffer (take (SHARD_PREFIX_SIZE + length video_header) l ++ l) (SHARD_PREFIX_SIZE + length video_header) (length l)) = frame_bytes l.
Proof.
  intros Hl. unfold payload, frame_bytes. cbn [hidden_offset bf_length inner]. rewrite drop_app_le by (rewrite length_take; lia).
  rewrite skipn_firstn_comm. replace (SHARD_PREFIX_SIZE + length video_header - SHARD_PREFIX_SIZE)%nat with (length video_header) by lia.
  apply take_ge. rewrite length_app, length_take, length_drop. lia.
Qed.
Lemma frame_bytes_length l : (SHARD_PREFIX_SIZE + length video_header ≤ length l)%nat → length (frame_bytes l) = (length video_header + length l)%nat.
Proof. intros Hl. unfold frame_bytes. rewrite length_app, length_take, length_drop. lia. Qed.
(** The frame is sent as the shards of its bytes, and its instant is noted. *)
Lemma send_frame_ok now mbps k s l lo hi tx :
  Frames.get_buffer_emu (length video_header) (deterministic_frame_sizes (conf s)) (table (conf s)) mbps (fps (conf s))
    (Z.to_nat (frames_sent_counter s)) (0%nat, 1%nat) (set_packet_index k (stream_of VIDEO (t_0 s))) =
    Ret (mkBuffer l (SHARD_PREFIX_SIZE + length video_header) (length l), lo, hi, tx) →
  nanos (t_0 s) ≤ nanos now → Z.of_nat (SHARD_PREFIX_SIZE + length video_header + length l) < 2 ^ 24 →
  send_frame now mbps (set_packet_index k (stream_of VIDEO (t_0 s))) empty_chan s =
    Ret (<[k + 1 := now]> (map_rtt s),
         mkReceiver (shard m VIDEO (k + 1) (F32.of_nanos (nanos now - nanos (t_0 s))) (frame_bytes l) <$>
                      seq 0 (shards_of m (length (frame_bytes l)))) false None).
Proof.
  intros E Hnow H24. unfold send_frame. rewrite E. ret_step. apply emu_buffer in E as (Hl & _ & -> & Hk). cbn [inner] in Hl.
  rewrite shift_frame_ok by (unfold SHARD_PREFIX_SIZE in *; lia). ret_step.
  pose proof (frame_payload l Hl) as Hp. pose proof (frame_bytes_length l Hl) as Hlen.
  destruct (send_ok (mkBuffer (take (SHARD_PREFIX_SIZE + length video_header) l ++ l) (SHARD_PREFIX_SIZE + length video_header) (length l)) now []
    (set_packet_index (k + 1) (stream_of VIDEO (t_0 s))) m) as (used & ->); cbn [hidden_offset bf_length inner].
  - done.
  - done.
  - split; cbn [hidden_offset bf_length inner]; [lia|]. rewrite length_app, length_take. lia.
  - done.
  - lia.
  - rewrite Hp. apply counted_small; [done..|lia].
  - rewrite Hp. ret_step. cbn [app]. rewrite push_all_ok. cbn [app]. f_equal. f_equal.
    assert (0 < shards_of m (length (frame_bytes l)))%nat as Hpos by (apply shards_of_lt; unfold SHARD_PREFIX_SIZE in *; lia).
    rewrite (proj2 (Nat.ltb_lt _ _)) by done. apply map_eq. intros j.
    cbn. rewrite lookup_union, lookup_union. rewrite lookup_empty. destruct (decide (j = k + 1)) as [->|Hj].
    + rewrite !lookup_insert_eq. by destruct (map_rtt s !! (k + 1)).
    + rewrite !lookup_insert_ne by done. rewrite lookup_empty. by destruct (map_rtt s !! j).
Qed.

(** The number of the next frame. *)
Definition next_number s : Z := wrap 32 (frames_sent_counter s) + 1.
Definition elapsed (now : T) s : f32 := F32.of_nanos (nanos now - nanos (t_0 s)).
Definition pass_message (b : Abr.BitrateManager (T := T)) (pass : option f32) s : list PerfectInfoBitrateMessage :=
  match pass with
  | Some mbps => [mkPerfect mbps (Abr.bitrate_ladder_bps b) (last_rtt_ms (last_perfect_info s)) (last_owdg_ms (last_perfect_info s))
                    (last_flr_window (last_perfect_info s))]
  | None => []
  end.
(** The server after the frame [l]: its shards are sent, its instant is noted, the next frame is at [t]. *)
Definition after_frame (now t : T) (l : list Z) (b b' : Abr.BitrateManager (T := T)) (pass : option f32) (g : Rng.SimRng) s : XRServer T :=
  mkServer (conf s) (t_0 s) (is_streaming s)
    (Some (mkStreams empty_chan (set_packet_index (wrap 32 (frames_sent_counter s)) (stream_of VIDEO (t_0 s))) (stream_of AUDIO (t_0 s))))
    b' (nada_sender s) (statistics_manager s) (frames_sent_counter s + 1) (<[next_number s := now]> (map_rtt s))
    (last_perfect_info s) (last_tracking_rx_instant s) g
    (mkOut (events (out s) ++ [(t, GenerateVideo)])
       (to_network (out s) ++ (pair now <$> mpdus (edca_be_mode (conf s)) VIDEO (next_number s) (elapsed now s) (frame_bytes l)))
       (perfect_info (out s) ++ pass_message b pass s)).
Lemma time_since (a b : T) : nanos b ≤ nanos a → ∃ d, duration_since a b = Ret d.
Proof. intros Hle. eexists. by apply duration_since_ok. Qed.
Lemma fmap_length_read (D : list Z) stream packet instant :
  length (shard m stream packet instant D <$> seq 0 (shards_of m (length D))) = shards_of m (length D).
Proof. by rewrite length_fmap, length_seq. Qed.
(** [read_app_send_network_interface] after a send into an empty channel. *)
Lemma send_network now stream packet (D : list Z) s st : streams s = Some st → nanos (t_0 s) ≤ nanos now → Z.of_nat (length D) < 2 ^ 24 →
  0 ≤ stream < 2 ^ 16 → 0 ≤ packet < 2 ^ 32 →
  read_app_send_network_interface now (mkReceiver (shard m stream packet (elapsed now s) D <$> seq 0 (shards_of m (length D))) false None) s =
  Ret (set_streams (Some (mkStreams empty_chan (video_app_sender st) (audio_app_sender st)))
    (set_out (mkOut (events (out s)) (to_network (out s) ++ (pair now <$> mpdus (edca_be_mode (conf s)) stream packet (elapsed now s) D))
                (perfect_info (out s))) s)).
Proof.
  intros Hst Hnow HD Hs Hp. unfold read_app_send_network_interface. destruct (time_since now (t_0 s) Hnow) as [d ->]. ret_step.
  pose proof (read_shards (edca_be_mode (conf s)) stream packet (elapsed now s) D HD Hs Hp (F32Facts.of_nanos_valid _)) as E.
  set (msgs := shard _ _ _ _ _ <$> _) in *. change (option_list _ ++ _) with msgs. rewrite E. ret_step. unfold set_chan. cbn [streams set_out]. by rewrite Hst.
Qed.
Lemma video_handler_ok now t s st b b' pass l lo hi tx eps g delay :
  streams s = Some st → streams_ok (t_0 s) st → nanos (t_0 s) ≤ nanos now →
  Abr.frame_abr sample_unit (t_update_abr (conf s)) false now (bitrate_manager s) = Ret (b, pass) →
  Frames.get_buffer_emu (length video_header) (deterministic_frame_sizes (conf s)) (table (conf s))
    (Abr.per_mega (Abr.last_target_bitrate_bps b)) (fps (conf s)) (Z.to_nat (frames_sent_counter s)) (0%nat, 1%nat)
    (set_packet_index (wrap 32 (frames_sent_counter s)) (stream_of VIDEO (t_0 s))) =
    Ret (mkBuffer l (SHARD_PREFIX_SIZE + length video_header) (length l), lo, hi, tx) →
  Z.of_nat (SHARD_PREFIX_SIZE + length video_header + length l) < 2 ^ 24 →
  sample_epsilon (rng s) = (eps, g) → next_frame_delay eps (conf s) = Ret delay → Abr.report_encoded_frame_server now b = Ret b' →
  time_add now delay = Ret t → time_lt now t = true → frames_sent_counter s + 1 ≤ U64_MAX →
  generate_video_frame sample_unit sample_epsilon now s = Ret (after_frame now t l b b' pass g s).
Proof.
  intros Hst [Hch [n Hv] Ha] Hnow Eabr Ebuf H24 Eeps Edelay Erep Et Hlt Hcnt. unfold generate_video_frame. rewrite Hst, Hv, Hch.
  change (set_packet_index (wrap 32 (frames_sent_counter s)) (set_packet_index n (stream_of VIDEO (t_0 s)))) with
    (set_packet_index (wrap 32 (frames_sent_counter s)) (stream_of VIDEO (t_0 s))).
  unfold frame_bitrate. cbn [set_streams conf bitrate_manager out last_perfect_info nada_sender]. rewrite Eabr. ret_step.
  pose proof Ebuf as (Hl & _ & _ & Hk)%emu_buffer. cbn [inner] in Hl. pose proof (frame_bytes_length l Hl) as Hlen.
  set (s0 := set_out _ _). pose proof (send_frame_ok now _ _ s0 l lo hi tx Ebuf Hnow H24) as Es.
  change (t_0 s0) with (t_0 s) in Es. change (map_rtt s0) with (map_rtt s) in Es. fold (elapsed now s) (next_number s) in Es. rewrite Es. ret_step.
  set (s1 := set_sent _ _ _). change (elapsed now s) with (elapsed now s1).
  rewrite (send_network now VIDEO (next_number s) (frame_bytes l) s1 _ eq_refl); cycle 1.
  { exact Hnow. } { lia. } { done. }
  { unfold next_number, U32_MAX in *. pose proof (wrap_range 32 (frames_sent_counter s)). lia. }
  ret_step. cbn [set_out set_streams rng conf bitrate_manager s0 s1 set_sent set_rates]. rewrite Eeps, Edelay. ret_step. rewrite Erep. ret_step.
  unfold schedule_event. rewrite Et. ret_step. rewrite Hlt. ret_step. unfold Abr.add_usize.
  cbn [set_out set_rng set_rates set_streams frames_sent_counter s0 s1 set_sent]. rewrite (proj2 (Z.leb_le _ _)) by done. ret_step.
  unfold after_frame, pass_message. cbn. rewrite Ha. destruct pass; cbn; by rewrite ?app_nil_r.
Qed.
(** The frame that is generated at [now], if there is one, is below 16 MiB with what is put before it. *)
Definition frame_below (now : T) s : bool :=
  match Abr.frame_abr sample_unit (t_update_abr (conf s)) false now (bitrate_manager s) with
  | Ret (b, _) =>
      match Frames.get_buffer_emu (length video_header) (deterministic_frame_sizes (conf s)) (table (conf s))
              (Abr.per_mega (Abr.last_target_bitrate_bps b)) (fps (conf s)) (Z.to_nat (frames_sent_counter s)) (0%nat, 1%nat)
              (set_packet_index (wrap 32 (frames_sent_counter s)) (stream_of VIDEO (t_0 s))) with
      | Ret (buf, _, _, _) => Z.of_nat (SHARD_PREFIX_SIZE + length video_header + length (inner buf)) <? 2 ^ 24
      | _ => true
      end
  | _ => true
  end.
Lemma add_usize_inv x y z : Abr.add_usize x y = Ret z → z = x + y ∧ x + y ≤ U64_MAX.
Proof. unfold Abr.add_usize. destruct (Z.leb_spec (x + y) U64_MAX); [|done]. by intros [= <-]. Qed.
(** Whenever the handler returns it has sent a frame. *)
Lemma video_frame_inv now s st s' : streams s = Some st → streams_ok (t_0 s) st → nanos (t_0 s) ≤ nanos now → frame_below now s = true →
  generate_video_frame sample_unit sample_epsilon now s = Ret s' →
  ∃ t l b b' pass g, s' = after_frame now t l b b' pass g s ∧ nanos now < nanos t ∧
    (SHARD_PREFIX_SIZE + length video_header ≤ length l)%nat ∧ Z.of_nat (SHARD_PREFIX_SIZE + length video_header + length l) < 2 ^ 24 ∧
    next_number s ≤ U32_MAX.
Proof.
  intros Hst Hok Hnow Hbelow E. pose proof E as E0. unfold generate_video_frame in E. rewrite Hst in E.
  destruct Hok as [Hch [n Hv] Ha] eqn:Hok'. clear Hok'.
  inv_ret E as ([mbps s1] & E1 & E). unfold frame_bitrate in E1. inv_ret E1 as ([b pass] & Eabr & E1). injection E1 as <- <-.
  inv_ret E as ([mp rd] & Es & E). unfold send_frame in Es. inv_ret Es as ([[[buf lo] hi] tx] & Ebuf & _).
  inv_ret E as (s2 & Er & E). unfold read_app_send_network_interface in Er. inv_ret Er as (d & _ & Er). inv_ret Er as ([rd' sent] & _ & Er). injection Er as <-.
  destruct (sample_epsilon _) as [eps g] eqn:Eeps. inv_ret E as (delay & Ed & E). inv_ret E as (b' & Eb & E).
  inv_ret E as (s3 & Esch & E). unfold schedule_event in Esch. inv_ret Esch as (t & Et & Esch).
  destruct (time_lt now t) eqn:Hlt; [|done]. injection Esch as <-. inv_ret E as (cnt & Ec & _). apply add_usize_inv in Ec as [_ Hcnt].
  change (video_app_sender _) with (video_app_sender st) in Ebuf. rewrite Hv in Ebuf.
  pose proof Ebuf as (Hl & Hbuf & _ & Hk)%emu_buffer. rewrite Hbuf in Ebuf.
  assert (Z.of_nat (SHARD_PREFIX_SIZE + length video_header + length (inner buf)) < 2 ^ 24) as Hsmall.
  { unfold frame_below in Hbelow. rewrite (Eabr : Abr.frame_abr _ (t_update_abr (conf s)) _ _ (bitrate_manager s) = _) in Hbelow.
    match type of Hbelow with context [match ?x with _ => _ end] => rewrite (Ebuf : x = _) in Hbelow end. by apply Z.ltb_lt. }
  exists t, (inner buf), b, b', pass, g. split_and!.
  - rewrite (video_handler_ok now t s st b b' pass (inner buf) lo hi tx eps g delay Hst (mkStreamsOk _ _ Hch (ex_intro _ n Hv) Ha) Hnow
      Eabr Ebuf Hsmall Eeps Ed Eb Et Hlt Hcnt) in E0. by injection E0 as <-.
  - by apply time_lt_spec.
  - done.
  - done.
  - done.
Qed.

Lemma bind_eq {A B} (x : outcome A) (a : A) (f : A → outcome B) : x = Ret a → (x ≫= f) = f a.
Proof. by intros ->. Qed.

(** ** An audio frame: always number 0 *)
Definition audio_bytes : list Z := video_header ++ replicate (1400 + 600) 0.
Definition after_audio (now t : T) s : XRServer T :=
  let o := out s in
  match streams s with
  | Some st =>
      set_streams (Some (mkStreams empty_chan (video_app_sender st) (audio_app_sender st)))
        (set_out (mkOut (events o ++ [(t, GenerateAudio)])
           (to_network o ++ (pair now <$> mpdus (edca_be_mode (conf s)) AUDIO 0 (elapsed now s) audio_bytes)) (perfect_info o)) s)
  | None => set_out (mkOut (events o ++ [(t, GenerateAudio)]) (to_network o) (perfect_info o)) s
  end.
Lemma audio_buffer_ok : ∃ raw, audio_buffer = Ret (mkBuffer raw (SHARD_PREFIX_SIZE + length video_header) (1400 + 600)) ∧
  length raw = (SHARD_PREFIX_SIZE + length video_header + (1400 + 600))%nat ∧ drop SHARD_PREFIX_SIZE raw = audio_bytes.
Proof.
  unfold audio_buffer, audio_bytes. set (n := (1400 + 600)%nat). clearbody n. unfold write_at. rewrite length_replicate, (proj2 (Nat.leb_le _ _)) by lia. ret_step.
  eexists. split; [done|]. rewrite take_replicate, drop_replicate. replace (SHARD_PREFIX_SIZE `min` _)%nat with SHARD_PREFIX_SIZE by lia.
  replace (SHARD_PREFIX_SIZE + length video_header + n - (SHARD_PREFIX_SIZE + length video_header))%nat with n by lia.
  split; [rewrite !length_app, !length_replicate; lia|]. by rewrite drop_app_length' by (by rewrite length_replicate).
Qed.
Context (header_small : Z.of_nat (length video_header) < 2 ^ 20).
Lemma audio_frame_ok now t s : (∀ st, streams s = Some st → streams_ok (t_0 s) st) → nanos (t_0 s) ≤ nanos now →
  time_add now (10 * 10 ^ 6) = Ret t → time_lt now t = true → generate_audio_frame now s = Ret (after_audio now t s).
Proof.
  intros Hok Hnow Et Hlt. unfold generate_audio_frame, after_audio. destruct (streams s) as [st|] eqn:Hst.
  - destruct (Hok st eq_refl) as [Hch _ Ha]. destruct audio_buffer_ok as (raw & -> & Hlen & Hpay). ret_step. rewrite Ha, Hch.
    assert (length audio_bytes = length video_header + (1400 + 600))%nat as Hab by (unfold audio_bytes; rewrite length_app, length_replicate; done).
    assert (payload (mkBuffer raw (SHARD_PREFIX_SIZE + length video_header) (1400 + 600)) = audio_bytes) as Hp.
    { unfold payload. cbn [hidden_offset bf_length inner]. rewrite Hpay. apply take_ge. lia. }
    destruct (send_ok (mkBuffer raw (SHARD_PREFIX_SIZE + length video_header) (1400 + 600)) now [] (stream_of AUDIO (t_0 s)) m) as (used & ->);
      cbn [hidden_offset bf_length inner].
    + done.
    + done.
    + split; cbn [hidden_offset bf_length inner]; lia.
    + done.
    + unfold SHARD_PREFIX_SIZE in *. lia.
    + rewrite Hp. apply counted_small; [done..|lia].
    + rewrite Hp. ret_step. rewrite push_all_ok. cbn [app].
      etrans; [apply bind_eq; exact (send_network now AUDIO 0 audio_bytes s st Hst Hnow ltac:(lia) ltac:(done) ltac:(done))|]. ret_step. unfold schedule_event. rewrite Et. ret_step. by rewrite Hlt, Ha.
  - ret_step. unfold schedule_event. rewrite Et. ret_step. by rewrite Hlt.
Qed.
Lemma audio_frame_inv now s s' : (∀ st, streams s = Some st → streams_ok (t_0 s) st) → nanos (t_0 s) ≤ nanos now →
  generate_audio_frame now s = Ret s' → ∃ t, s' = after_audio now t s ∧ nanos now < nanos t.
Proof.
  intros Hok Hnow E. pose proof E as E0. unfold generate_audio_frame in E. inv_ret E as (s1 & _ & E). unfold schedule_event in E.
  inv_ret E as (t & Et & E). destruct (time_lt now t) eqn:Hlt; [|done]. exists t. rewrite (audio_frame_ok now t s Hok Hnow Et Hlt) in E0.
  injection E0 as <-. split; [done|by apply time_lt_spec].
Qed.

(** ** When a frame was sent last *)
Definition sent_as (k : Z) (x : T * Mpdu) : option T :=
  let h := header_alvr x.2 in if (hd_stream_id h =? VIDEO) && (hd_next_packet_index h =? k) then Some x.1 else None.
Definition last_sent (k : Z) (l : list (T * Mpdu)) : option T := last (omap (sent_as k) l).
Lemma sent_mpdus k now be stream packet instant (D : list Z) :
  omap (sent_as k) (pair now <$> mpdus be stream packet instant D) =
  if (stream =? VIDEO) && (packet =? k) then replicate (shards_of m (length D)) now else [].
Proof.
  unfold mpdus. generalize (length_seq (shards_of m (length D)) 0). generalize (seq 0 (shards_of m (length D))) as l. generalize (shards_of m (length D)).
  intros n l. revert n. induction l as [|i l IH]; intros [|n] Hl; try done; [by destruct (_ && _)|].
  injection Hl as Hl. rewrite !fmap_cons. cbn [omap list_omap]. unfold sent_as at 1. cbn [snd header_alvr mpdu hd_stream_id hd_next_packet_index fst].
  specialize (IH n Hl). destruct ((stream =? VIDEO) && (packet =? k)); cbn [replicate]; [f_equal|]; exact IH.
Qed.
Lemma last_sent_app k l l' : last_sent k (l ++ l') = match last_sent k l' with Some t => Some t | None => last_sent k l end.
Proof. unfold last_sent. rewrite omap_app. apply last_app. Qed.
Lemma last_sent_mpdus k now be stream packet instant (D : list Z) : (0 < length D)%nat →
  last_sent k (pair now <$> mpdus be stream packet instant D) = if (stream =? VIDEO) && (packet =? k) then Some now else None.
Proof.
  intros HD. unfold last_sent. rewrite sent_mpdus. destruct (_ && _); [|done].
  assert (0 < shards_of m (length D))%nat as Hpos by (apply shards_of_lt; lia). destruct (shards_of m (length D)) as [|n]; [lia|].
  clear. induction n as [|n IH]; [done|]. cbn [replicate] in *. by rewrite last_cons_cons.
Qed.

(** ** Packets from the network send nothing and schedule nothing *)
Record quiet s s' : Prop := mkQuiet {
  q_conf : conf s' = conf s;
  q_t0 : t_0 s' = t_0 s;
  q_streams : streams s' = streams s;
  q_out : out s' = out s;
  q_counter : frames_sent_counter s' = frames_sent_counter s;
  q_rtt : map_rtt s' ⊆ map_rtt s
}.
#[global] Instance quiet_preorder : PreOrder quiet.
Proof.
  split.
  - intros s. by split.
  - intros s1 s2 s3 [] []. split; [congruence..|]. by etrans.
Qed.
#[local] Hint Extern 0 (quiet _ _) => (split; reflexivity) : core.
Lemma chan_emptied data st s : streams s = Some st → chan st = empty_chan →
  ∃ r, reader_recv MAX_PACKET_SIZE_RECV (send_shared data (chan st)) = (r, empty_chan) ∧ set_chan empty_chan s = s.
Proof.
  intros Hst Hch. rewrite Hch. unfold send_shared, reader_recv, try_recv. cbn [receiver disconnected buffer app].
  exists (if (length data <=? MAX_PACKET_SIZE_RECV)%nat then Ok data else Err Other). split; [by destruct (_ <=? _)%nat|].
  unfold set_chan. rewrite Hst. destruct s, st. cbn in *. by subst.
Qed.
Lemma frame_report_quiet now sent p s s' : frame_report powf now sent p s = Ret s' → quiet s s'.
Proof.
  unfold frame_report. intros E. inv_ret E as (rtt & _ & E). inv_ret E as ([r st] & _ & E). inv_ret E as (b & _ & E).
  destruct (nada_feedback _); [destruct (nada_sender _); [inv_ret E as ([n' b'] & _ & E)|]|]; by injection E as <-.
Qed.
Lemma lost_frames_quiet now p s s' : lost_frames now p s = Ret s' → quiet s s'.
Proof.
  unfold lost_frames. generalize (zip (frame_indexes p) (shards_lost p)) as l. intros l. revert s.
  induction l as [|[f n] l IH]; intros s E; [by injection E as <-|].
  inv_ret E as (t & _ & E). inv_ret E as (st & _ & E). inv_ret E as (b & _ & E). etrans; [|by apply IH]. by split.
Qed.
Lemma control_quiet p now s s' : handle_control_packet powf p now s = Ret s' → quiet s s'.
Proof.
  unfold handle_control_packet. destruct (streams s) eqn:Hst; [|by intros [= <-]]. destruct p as [[p|p]|]; [|apply lost_frames_quiet|by intros [= <-]].
  destruct (map_rtt s !! _) as [t|]; [|by intros [= <-]]. intros E%frame_report_quiet. etrans; [|exact E].
  split; try done. cbn. apply delete_subseteq.
Qed.
Lemma timer_quiet buf now s s' : nada_timer_report buf now s = Ret s' → quiet s s'.
Proof.
  unfold nada_timer_report. destruct (decode_tracking_from_bytes buf) as [track|]; [|by intros [= <-]].
  destruct (if (_ <=? _)%nat then Nada.decode _ else None); [|by intros [= <-]]. destruct (nada_sender s); [|by intros [= <-]].
  intros E. inv_ret E as ([n' b] & _ & E). by injection E as <-.
Qed.
Lemma devices_quiet l now : ∀ s s', track_devices l now s = Ret s' → quiet s s'.
Proof.
  induction l as [|d l IH]; intros s s' E; cbn [track_devices] in E; [by injection E as <-|].
  inv_ret E as (x & _ & E). inv_ret E as (y & _ & E). etrans; [|by apply IH]. by split.
Qed.
Lemma tracking_quiet data now s s' : (∀ st, streams s = Some st → chan st = empty_chan) → tracking_packet nada_level data now s = Ret s' → quiet s s'.
Proof.
  intros Hch E. unfold tracking_packet in E. inv_ret E as (s1 & E1 & E).
  assert (quiet s s1) as Hq by (destruct (_ && _); [by eapply timer_quiet|by injection E1 as <-]). etrans; [exact Hq|].
  rewrite (q_streams _ _ Hq) in E. destruct (streams s) as [st|] eqn:Hst; [|by injection E as <-].
  destruct (chan_emptied data st s1) as (r & Er & Ec); [by rewrite (q_streams _ _ Hq)|by apply Hch|]. rewrite Er, Ec in E.
  destruct (decode_tracking_from_bytes _); [by eapply devices_quiet|by injection E as <-].
Qed.
Lemma deliver_quiet now packet s s' : (∀ st, streams s = Some st → chan st = empty_chan) →
  deliver nada_level powf now packet s = Ret s' → quiet s s'.
Proof.
  intros Hch E. unfold deliver in E. destruct (_ =? FOVOPTIX_BW_PROBE); [done|]. destruct (_ =? TRACKING); [by eapply tracking_quiet|].
  destruct (streams s) as [st|] eqn:Hst; [|by injection E as <-]. destruct (_ =? STATISTICS).
  - destruct (chan_emptied (data_inner packet) st s) as (r & Er & Ec); [done|by apply Hch|]. rewrite Er, Ec in E. by injection E as <-.
  - destruct (_ || _); [|by injection E as <-]. inv_ret E as (p & _ & E). by eapply control_quiet.
Qed.
Lemma network_quiet ps now : ∀ s s', (∀ st, streams s = Some st → chan st = empty_chan) →
  in_from_network nada_level powf ps now s = Ret s' → quiet s s'.
Proof.
  induction ps as [|p ps IH]; intros s s' Hch E; cbn [in_from_network] in E; [by injection E as <-|].
  inv_ret E as (s1 & E1 & E). apply deliver_quiet in E1; [|done]. etrans; [exact E1|]. apply (IH s1); [|done].
  intros st. rewrite (q_streams _ _ E1). apply Hch.
Qed.

(** ** The run of a server *)
Definition is_video (e : Event) : bool := match e with GenerateVideo => true | GenerateAudio => false end.
Definition pending (f : Event → bool) s : nat := length (List.filter (λ x : T * Event, f x.2) (events (out s))).
Definition drop_event (i : nat) s : XRServer T :=
  set_out (mkOut (delete i (events (out s))) (to_network (out s)) (perfect_info (out s))) s.
(** The pending events are not before the time of a step. *)
Definition due (now : T) s : Prop := Forall (λ x : T * Event, nanos now ≤ nanos x.1) (events (out s)).
Record fresh (now : T) s : Prop := mkFresh {
  fr_conf : packet_size_sockets (conf s) = (m + SHARD_PREFIX_SIZE)%nat;
  fr_t0 : nanos (t_0 s) ≤ nanos now;
  fr_streams : streams s = None;
  fr_rtt : map_rtt s = ∅;
  fr_events : events (out s) = [];
  fr_sent : frames_sent_counter s = 0 ∧ to_network (out s) = []
}.
(** [reach n k now s]: after the start of [n] sessions, the latest when [k] packets had been sent.  The video frames sent are below
    16 MiB each; the packets from the network are handled at their time stamp, which is not after the present time. *)
Inductive reach : nat → nat → T → XRServer T → Prop :=
| Created now s : fresh now s → reach 0 0 now s
| Connects n k now now' s s' : reach n k now s → nanos now ≤ nanos now' → due now' s → frame_below now' s = true →
    connection_pipeline sample_unit sample_epsilon now' s = Ret s' → reach (S n) (length (to_network (out s))) now' s'
| Ends n k now now' s s' : reach n k now s → nanos now ≤ nanos now' → due now' s → session_end now' s = Ret s' → reach n k now' s'
| Runs n k i e now now' s s' : reach n k now s → nanos now ≤ nanos now' → due now' s → events (out s) !! i = Some (now', e) →
    (e = GenerateVideo → is_Some (streams s) → frame_below now' s = true) →
    handle sample_unit sample_epsilon now' e (drop_event i s) = Ret s' → reach n k now' s'
| Arrives n k ps ts now now' s s' : reach n k now s → nanos now ≤ nanos now' → due now' s → nanos ts ≤ nanos now' →
    in_from_network nada_level powf ps ts s = Ret s' → reach n k now' s'
| Snaps n k now now' s s' : reach n k now s → nanos now ≤ nanos now' → due now' s → oracle_bandwidth_step now' s = Ret s' → reach n k now' s'
| Caps n k cap now now' s s' : reach n k now s → nanos now ≤ nanos now' → due now' s →
    oracle_apply_lookahead_cap cap now' s = Ret s' → reach n k now' s'.
(** [n] chains of audio frames, [v] video frames at least in a session. *)
Record server_inv (n v : nat) (now : T) s : Prop := mkInv {
  si_conf : packet_size_sockets (conf s) = (m + SHARD_PREFIX_SIZE)%nat;
  si_t0 : nanos (t_0 s) ≤ nanos now;
  si_streams : ∀ st, streams s = Some st → streams_ok (t_0 s) st;
  si_due : due now s;
  si_audio : pending (negb ∘ is_video) s = n;
  si_video : is_Some (streams s) → (v ≤ pending is_video s)%nat;
  si_rtt : ∀ k t, map_rtt s !! k = Some t → last_sent k (to_network (out s)) = Some t
}.
Lemma pending_app f s t e l p : pending f (set_out (mkOut (events (out s) ++ [(t, e)]) l p) s) = (pending f s + Nat.b2n (f e))%nat.
Proof. unfold pending. cbn. rewrite List.filter_app, length_app. cbn. destruct (f e); cbn; lia. Qed.
Lemma due_app now s t e l p : due now s → nanos now < nanos t → due now (set_out (mkOut (events (out s) ++ [(t, e)]) l p) s).
Proof. intros Hd Ht. unfold due. cbn. apply Forall_app. split; [done|]. apply Forall_singleton. cbn. lia. Qed.
Lemma inv_quiet n v now s s' : server_inv n v now s → quiet s s' → server_inv n v now s'.
Proof.
  intros [H1 H2 H3 H4 H5 H6 H7] [Q1 Q2 Q3 Q4 _ Q5]. unfold due, pending in *. split; unfold due, pending; rewrite ?Q1, ?Q2, ?Q3, ?Q4; try done.
  intros k t Hk. apply H7. by eapply lookup_weaken.
Qed.
Lemma inv_later n v now now' s : server_inv n v now s → nanos now ≤ nanos now' → due now' s → server_inv n v now' s.
Proof. intros [] ??. split; try done. lia. Qed.
Lemma video_step n v now s s' : server_inv n v now s → (is_Some (streams s) → frame_below now s = true) →
  generate_video_frame sample_unit sample_epsilon now s = Ret s' → server_inv n (S v) now s'.
Proof.
  intros [H1 H2 H3 H4 H5 H6 H7] Hb E. destruct (streams s) as [st|] eqn:Hst.
  - destruct (video_frame_inv now s st s' Hst (H3 st eq_refl) H2 (Hb ltac:(done)) E) as (t & l & b & b' & pass & g & -> & Ht & Hl & _ & _).
    pose proof (pending_app is_video s t GenerateVideo [] []) as Pv. pose proof (pending_app (negb ∘ is_video) s t GenerateVideo [] []) as Pa.
    cbn in Pv, Pa. split; [done|done| |by apply (due_app now s t GenerateVideo [] [])|etrans; [exact Pa|lia]| |].
    + intros st' [= <-]. split; [done|by eexists|done].
    + intros _. pose proof (H6 ltac:(done)). etrans; [|by apply Nat.eq_le_incl, eq_sym, Pv]. lia.
    + cbn [map_rtt after_frame out to_network]. intros k t' Hk. rewrite last_sent_app, last_sent_mpdus by (rewrite frame_bytes_length by done; unfold SHARD_PREFIX_SIZE in Hl; lia). rewrite Z.eqb_refl. cbn [andb].
      destruct (Z.eqb_spec (next_number s) k) as [Ek|Hne]; [by rewrite <-Ek, lookup_insert_eq in Hk|]. rewrite lookup_insert_ne in Hk by done. by apply H7.
  - unfold generate_video_frame in E. rewrite Hst in E. injection E as <-. split; rewrite ?Hst; done || by intros [? [=]].
Qed.
Lemma audio_step n v now s s' : server_inv n v now s → generate_audio_frame now s = Ret s' → server_inv (S n) v now s'.
Proof.
  intros [H1 H2 H3 H4 H5 H6 H7] E. destruct (audio_frame_inv now s s' H3 H2 E) as (t & -> & Ht).
  pose proof (pending_app is_video s t GenerateAudio [] []) as Pv. pose proof (pending_app (negb ∘ is_video) s t GenerateAudio [] []) as Pa.
  cbn in Pv, Pa. unfold after_audio. destruct (streams s) as [st|] eqn:Hst.
  - destruct (H3 st eq_refl) as [Hch Hv Ha]. split; cbn [set_streams set_out conf t_0 streams out map_rtt to_network].
    + done.
    + done.
    + intros st' [= <-]. by split.
    + by apply (due_app now s t GenerateAudio [] []).
    + etrans; [exact Pa|lia].
    + intros _. pose proof (H6 ltac:(done)). etrans; [|by apply Nat.eq_le_incl, eq_sym, Pv]. lia.
    + intros k t' Hk. rewrite last_sent_app, last_sent_mpdus; [by apply H7|]. unfold audio_bytes. rewrite length_app, length_replicate. lia.
  - split; cbn [set_out conf t_0 streams out map_rtt to_network]; rewrite ?Hst; try done.
    + by apply (due_app now s t GenerateAudio [] []).
    + etrans; [exact Pa|lia].
Qed.
Lemma pending_drop f i e t s : events (out s) !! i = Some (t, e) → pending f s = (pending f (drop_event i s) + Nat.b2n (f e))%nat.
Proof.
  intros Hl. unfold pending. cbn. rewrite delete_take_drop. rewrite <-(take_drop_middle _ _ _ Hl) at 1.
  rewrite !List.filter_app, !length_app. cbn. destruct (f e); cbn; lia.
Qed.
Lemma inv_drop n now s i e t : server_inv n 1 now s → events (out s) !! i = Some (t, e) →
  server_inv (n - Nat.b2n (negb (is_video e))) (Nat.b2n (negb (is_video e))) now (drop_event i s).
Proof.
  intros [H1 H2 H3 H4 H5 H6 H7] Hl. pose proof (pending_drop is_video i e t s Hl) as Pv. pose proof (pending_drop (negb ∘ is_video) i e t s Hl) as Pa.
  split; try done.
  - unfold due. cbn. rewrite delete_take_drop. unfold due in H4. apply Forall_app. split; [by apply Forall_take|by apply Forall_drop].
  - change ((negb ∘ is_video) e) with (negb (is_video e)) in Pa. lia.
  - intros Hs. specialize (H6 Hs). destruct e; cbn [is_video negb Nat.b2n] in *; lia.
Qed.
Lemma server_reach_inv n k now s : reach n k now s → server_inv n 1 now s.
Proof.
  induction 1 as [now s [F1 F2 F3 F4 F5 _]|n k now now' s s' _ IH Hle Hd Hb E|n k now now' s s' _ IH Hle Hd E|n k i e now now' s s' _ IH Hle Hd Hl Hb E
    |n k ps ts now now' s s' _ IH Hle Hd _ E|n k now now' s s' _ IH Hle Hd E|n k cap now now' s s' _ IH Hle Hd E].
  - split; try done; rewrite ?F3, ?F4; try done; unfold due, pending; by rewrite ?F5.
  - pose proof (inv_later _ _ _ _ _ IH Hle Hd) as [H1 H2 H3 H4 H5 H6 H7]. unfold connection_pipeline in E. inv_ret E as (s1 & Ev & E).
    apply (audio_step n 1 now' s1); [|exact E]. eapply (video_step n 0); [| |exact Ev]; [|by intros _]. split; cbn [conf t_0 streams out map_rtt]; try done; [|lia].
    intros st [= <-]. rewrite H1. split; [done|by eexists 0|done].
  - pose proof (inv_later _ _ _ _ _ IH Hle Hd) as [H1 H2 H3 H4 H5 H6 H7]. unfold session_end in E. inv_ret E as (b & _ & E). injection E as <-.
    split; try done. cbn. by intros [? [=]].
  - pose proof (inv_later _ _ _ _ _ IH Hle Hd) as Hi. eapply inv_drop in Hi as Hi'; [|exact Hl].
    destruct e; cbn [handle is_video negb Nat.b2n] in *.
    + rewrite Nat.sub_0_r in Hi'. eapply video_step; [exact Hi'|by apply Hb|exact E].
    + pose proof (pending_drop (negb ∘ is_video) i _ _ s Hl) as Pa. pose proof (si_audio _ _ _ _ Hi) as Hn. change (Nat.b2n _) with 1%nat in Pa.
      replace n with (S (n - 1)) by lia. by eapply audio_step.
  - pose proof (inv_later _ _ _ _ _ IH Hle Hd) as Hi. eapply inv_quiet; [exact Hi|]. eapply network_quiet; [|exact E].
    intros st Hst. by apply (so_chan (t_0 s)), (si_streams _ _ _ _ Hi).
  - pose proof (inv_later _ _ _ _ _ IH Hle Hd) as Hi. eapply inv_quiet; [exact Hi|]. unfold oracle_bandwidth_step in E. inv_ret E as (b & _ & E). by injection E as <-.
  - pose proof (inv_later _ _ _ _ _ IH Hle Hd) as Hi. eapply inv_quiet; [exact Hi|]. unfold oracle_apply_lookahead_cap in E. inv_ret E as (b & _ & E). by injection E as <-.
Qed.

(** C13: In every state that the server reaches over any number of sessions, sending video frames below 16 MiB each, the reports of frames are matched with their sending: a report of a frame that is not
    noted changes nothing; otherwise the instant noted is that of the latest sending of the frame's number, the round-trip
    time taken is the time since then, and a second report of the frame changes nothing. *)
Theorem reports_matched n k now s now' p : reach n k now s →
  let id := wrap 32 (np_frame_index p) in
  (map_rtt s !! id = None → handle_control_packet powf (Known (NetworkStatistics p)) now' s = Ret s) ∧
  (∀ t, map_rtt s !! id = Some t → last_sent id (to_network (out s)) = Some t ∧
     ∀ s', is_Some (streams s) → handle_control_packet powf (Known (NetworkStatistics p)) now' s = Ret s' →
       nanos t ≤ nanos now' ∧ last_rtt_ms (last_perfect_info s') = F32.mul (F32.of_nanos (nanos now' - nanos t)) (Abr.fz 1000) ∧
       map_rtt s' = delete id (map_rtt s) ∧
       ∀ now2, handle_control_packet powf (Known (NetworkStatistics p)) now2 s' = Ret s').
Proof.
  intros Hr id. pose proof (server_reach_inv _ _ _ _ Hr) as Hi. split.
  - intros Hn. unfold handle_control_packet. fold id. rewrite Hn. by destruct (streams s).
  - intros t Ht. split; [by apply (si_rtt _ _ _ _ Hi)|]. intros s' Hs E.
    pose proof (control_quiet _ _ _ _ E) as Hq. unfold handle_control_packet in E. fold id in E. rewrite Ht in E. destruct (streams s) as [st|] eqn:Hst; [|by destruct Hs].
    assert (map_rtt s' = delete id (map_rtt s) ∧ nanos t ≤ nanos now' ∧
      last_rtt_ms (last_perfect_info s') = F32.mul (F32.of_nanos (nanos now' - nanos t)) (Abr.fz 1000)) as (Em & Hle & El).
    { unfold frame_report in E. inv_ret E as (rtt & Ert & E). unfold Abr.since in Ert. destruct (time_le t now') eqn:Hle; [|done]. injection Ert as <-.
      apply time_le_spec in Hle. inv_ret E as ([r sm] & Er & E). unfold report_network_statistics in Er.
      repeat match type of Er with (_ ≫= _) = Ret _ => inv_ret Er as (? & _ & Er) | (let '(_, _) := ?x in _) = Ret _ => destruct x end.
      injection Er as <- _. inv_ret E as (b & _ & E).
      destruct (nada_feedback _); [destruct (nada_sender _); [inv_ret E as ([n' b'] & _ & E)|]|]; by injection E as <-. }
    split_and!; [done..|]. intros now2. unfold handle_control_packet. fold id. rewrite (q_streams _ _ Hq), Hst, Em. by rewrite lookup_delete_eq.
Qed.
(** C14: In every state that the server reaches over any number of sessions, sending video frames below 16 MiB each, with a session on, the next video frame is pending, not before the present time, so that
    video keeps being sent; and as many audio frames are pending as sessions were started, although one is on at most. *)
Theorem server_keeps_sending n k now s : reach n k now s →
  pending (negb ∘ is_video) s = n ∧ (is_Some (streams s) → ∃ t, (t, GenerateVideo) ∈ events (out s) ∧ nanos now ≤ nanos t).
Proof.
  intros Hr. pose proof (server_reach_inv _ _ _ _ Hr) as [_ _ _ H4 H5 H6 _]. split; [done|]. intros Hs. specialize (H6 Hs). unfold pending in H6.
  destruct (List.filter _ _) as [|[t e] l] eqn:Ef; [cbn in H6; lia|].
  assert (List.In (t, e) (List.filter (λ x : T * Event, is_video x.2) (events (out s)))) as [Hin Hv]%List.filter_In by (rewrite Ef; by left).
  destruct e; [|done]. exists t. apply list_elem_of_In in Hin. split; [done|]. by apply (Forall_forall (λ x : T * Event, nanos now ≤ nanos x.1) (events (out s))) in Hin.
Qed.

Lemma write_at_ok l i d : (i + length d ≤ length l)%nat → write_at l i d = Ret (take i l ++ d ++ drop (i + length d) l).
Proof. intros Hle. unfold write_at. by rewrite (proj2 (Nat.leb_le _ _)) by done. Qed.
(** The report of NADA that rides in a tracking packet: the headset's packet is one shard, and the server's sender is given the
    report of the headset. *)
Theorem nada_report_arrives track r now t0 tr : (SHARD_PREFIX_SIZE + length track + Nada.LEN ≤ 1000)%nat → (length track + Nada.LEN ≤ m)%nat →
  nanos t0 ≤ nanos now → NadaFacts.wire_ok r → length (Nada.encode r) = Nada.LEN →
  (∀ rest, deserialize_tracking (track ++ rest) = Some tr) → serialized_size tr = length track →
  ∃ msg tx, send_header_tracking_with track now (Nada.encode r) [] (stream_of TRACKING t0) = Ret ([msg], tx) ∧
    ∀ now' s ns, nada_sender s = Some ns →
      nada_timer_report msg now' s =
        ('(ns, b) ← Abr.nada_timer_feedback now' r (fps (conf s)) ns (bitrate_manager s); Ret (set_rates b (Some ns) s)).
Proof.
  intros Hfit Hm Hnow Hw HLEN Hd Hsz. unfold send_header_tracking_with, get_buffer_tracking. cbv zeta.
  assert (length (resize [] 1000) = 1000%nat) as H1000 by (unfold resize; rewrite length_app, length_take, length_replicate; cbn [length]; lia).
  remember (resize [] 1000) as zeros eqn:Ez. clear Ez. rewrite (proj2 (Nat.ltb_ge _ _)) by lia.
  rewrite write_at_ok by lia. ret_step. cbn [inner hidden_offset bf_length].
  set (z1 := take SHARD_PREFIX_SIZE zeros). set (z2 := drop (SHARD_PREFIX_SIZE + length track) zeros).
  assert (length z1 = SHARD_PREFIX_SIZE) as Hz1 by (unfold z1; rewrite length_take; lia).
  assert (length z2 = 1000 - SHARD_PREFIX_SIZE - length track)%nat as Hz2 by (unfold z2; rewrite length_drop; lia).
  rewrite app_assoc, write_at_app by (rewrite ?length_app; lia). ret_step. rewrite <-app_assoc.
  set (inner' := z1 ++ track ++ Nada.encode r ++ _). set (b := mkBuffer inner' _ _).
  assert (payload b = track ++ Nada.encode r) as Hp.
  { unfold payload, b, inner'. cbn [inner hidden_offset bf_length]. rewrite drop_app_length' by done. rewrite app_assoc. apply take_app_length'.
    rewrite length_app. lia. }
  set (tx := mkSender _ _ _ _ _ _ _). destruct (send_ok b now [] tx m) as (used & ->); try done.
  - split; unfold b, inner'; cbn [hidden_offset bf_length inner]; rewrite ?length_app; lia.
  - unfold b. cbn [hidden_offset bf_length]. rewrite HLEN. lia.
  - rewrite Hp. apply counted_small; [done..|]. rewrite length_app. lia.
  - rewrite Hp. cbn [app]. assert (shards_of m (length (track ++ Nada.encode r)) = 1%nat) as ->.
    { rewrite length_app, HLEN. assert (0 < shards_of m (length track + Nada.LEN))%nat by (apply shards_of_lt; [done|]; unfold Nada.LEN; lia).
      destruct (decide (1 < shards_of m (length track + Nada.LEN))%nat) as [Hlt|]; [|lia]. apply shards_of_lt in Hlt; lia. }
    eexists _, _. split; [reflexivity|]. intros now' s ns Hns. unfold nada_timer_report, decode_tracking_from_bytes.
    assert (chunk m (track ++ Nada.encode r) 0 = track ++ Nada.encode r) as Hc by (unfold chunk; rewrite Nat.mul_0_l, drop_0; apply take_ge; rewrite length_app, HLEN; done).
    rewrite (proj2 (Nat.ltb_ge _ _)) by (unfold shard; rewrite length_app, prefix_bytes_length; lia).
    rewrite drop_shard, Hc, Hd, Hsz, Hns. unfold shard. rewrite Hc. set (px := prefix_bytes _).
    assert (length px = SHARD_PREFIX_SIZE) as Hpx by apply prefix_bytes_length. rewrite !length_app, Hpx.
    rewrite (proj2 (Nat.leb_le _ _)) by lia.
    rewrite app_assoc, drop_app_length' by (rewrite length_app; lia). rewrite <-(app_nil_r (Nada.encode r)).
    by rewrite (proj1 (NadaFacts.timer_report_roundtrip r [] Hw)).
Qed.
End server.

(** ** Reports from the client *)
Section reports.
Context {T : Type} `{TaiTime T} `{!Env T} {DS : Deserialize} (nada_level : Z) (powf : f64 → f64 → f64).
Lemma framed_roundtrip body p : Z.of_nat (length body) < 2 ^ 32 → deserialize_control body = Some p →
  framed_recv_vec (be_bytes 4 (wrap 32 (Z.of_nat (length body))) ++ body) = Some p.
Proof.
  intros Hlen Ed. unfold framed_recv_vec, FRAMED_PREFIX_LENGTH. rewrite wrap_id by lia. set (h := be_bytes 4 (Z.of_nat (length body))).
  assert (length h = 4%nat) as Hh by apply be_bytes_length. rewrite length_app, Hh.
  rewrite (proj2 (Nat.ltb_ge _ _)) by lia. rewrite take_app_length', drop_app_length' by done.
  assert (from_be h = Z.of_nat (length body)) as -> by (apply from_be_bytes; cbn; lia). rewrite Nat2Z.id.
  rewrite (proj2 (Nat.ltb_ge _ _)) by lia. by rewrite take_ge by lia.
Qed.
(** A report that can be delivered: a loss report without a frame has no stream. *)
Definition has_stream (packet : ClientControlPacket) : bool :=
  match packet with DeadlineShardLossStat p => negb (length (frame_indexes p) =? 0)%nat | _ => true end.
(** C38: What the headset reports reaches the server as it was reported: the packet that [framed_send] schedules, delivered in a session,
    is handled as the report that was framed; a loss report without frames, which has no stream, is ignored. *)
Theorem report_arrives `{!Bincode} packet now (c c' : XRClient T) :
  framed_send packet now c = Ret c' → deserialize_control (serialize packet) = Some (Known packet) →
  Z.of_nat (length (serialize packet)) < 2 ^ 32 →
  ∃ t p, Client.events (Client.out c') = Client.events (Client.out c) ++ [(t, OutputAppNetworkSend p)] ∧ nanos now < nanos t ∧
    ∀ now' s, is_Some (streams s) →
      deliver nada_level powf now' p s = if has_stream packet then handle_control_packet powf (Known packet) now' s else Ret s.
Proof.
  intros E Ed Hlen. pose proof (framed_roundtrip _ _ Hlen Ed) as Hf. unfold framed_send, Client.schedule_event in E.
  remember (be_bytes 4 (wrap 32 (Z.of_nat (length (serialize packet)))) ++ serialize packet) as msg eqn:Emsg. clear Emsg. inv_ret E as (t & _ & E). destruct (time_lt now t) eqn:Hlt; [|done].
  injection E as <-. exists t. eexists. split; [done|]. split; [by apply time_lt_spec|]. intros now' s [st Hst].
  unfold deliver. rewrite Hst. cbn [data_inner header_alvr]. rewrite Hf.
  destruct packet as [p|p]; [done|]. unfold has_stream. by destruct (frame_indexes p).
Qed.
End reports.
End ServerFacts.

(** ** A server with frames of 40 and 44 bytes *)
Module ServerDemo.
Import Socket Shards FrameDeadlines.SocketDemo Client Server ServerFacts.
Definition demo_stats : NetworkStatisticsPacket :=
  mkNetStats 1 (F32.of_Z 1) 40 40 (F32.of_Z 1) F32.zero F32.zero F32.zero 0 40 5 0 1 4 0 F32.zero F32.zero F32.zero F32.zero Abr.Continue 1 0 nada_stats_default.
#[local] Instance demo_bincode : Bincode := λ _, [1; 2; 3].
#[local] Instance demo_deserialize : Deserialize := {|
  deserialize_control l := if bool_decide (l = [1; 2; 3]) then Some (Known (NetworkStatistics demo_stats)) else None;
  deserialize_tracking _ := Some (mkTracking [1] 20);
  video_header := [1; 0; 0; 0; 0; 0; 0; 0; 0; 0; 0; 0; 0]
|}.
#[local] Existing Instance Server.epoch.
Definition demo_unit (g : Rng.SimRng) : f32 * Rng.SimRng := (F32.zero, g).
Definition demo_powf (x y : f64) : f64 := x.
Definition demo_rng : Rng.SimRng := Rng.for_seed 1 2.
Definition demo_table : Frames.FrameSizeTable := Frames.mkTable [10] {[10 := 0%nat]} [[40; 44]] 0.
Definition demo_conf : Conf := mkConf (F32.of_Z 60) (F32.of_Z 1) 32 false false (Some demo_table).
Definition at_us (n : Z) : mono := mono_of (1000000000 + 1000 * n).
Definition default_server : XRServer mono :=
  mkServer demo_conf (mono_of 0) false None (Abr.manager_new MAX_HISTORY_SIZE (F32.of_Z 60) (F32.of_Z 10) 0 Abr.Custom (F32.of_Z 60) (F32.of_Z 1) [] demo_rng)
    None (statistics_new MAX_HISTORY_SIZE) 0 ∅ (mkLast F32.zero F32.zero F32.zero) (mono_of 0) demo_rng (mkOut [] [] []).
Example created : server_new 0 (mono_of 0) demo_conf (F32.of_Z 10) 0 Abr.Custom [] demo_rng demo_rng = Ret default_server.
Proof. reflexivity. Qed.
Definition get (o : outcome (XRServer mono)) : XRServer mono := match o with Ret s => s | _ => default_server end.
Definition session1 : XRServer mono := get (connection_pipeline demo_unit demo_unit (at_us 1) default_server).
Definition ended1 : XRServer mono := get (session_end (at_us 2) session1).
Definition session2 : XRServer mono := get (connection_pipeline demo_unit demo_unit (at_us 3) ended1).
Example session1_ok : connection_pipeline demo_unit demo_unit (at_us 1) default_server = Ret session1.
Proof. vm_compute. reflexivity. Qed.

Lemma server_fresh : fresh 10 (at_us 0) default_server.
Proof. split; [done|vm_compute; discriminate|done..]. Qed.
Lemma reach1 : reach 0 demo_unit demo_powf demo_unit 10 1 0 (at_us 1) session1.
Proof.
  apply (Connects _ _ _ _ _ 0 0 (at_us 0) (at_us 1) default_server);
    [by apply Created, server_fresh|vm_compute; done|by constructor|vm_compute; reflexivity|exact session1_ok].
Qed.
Lemma demo_due (l : list (mono * Event)) (now : mono) : forallb (λ x, nanos now <=? nanos x.1) l = true → Forall (λ x : mono * Event, nanos now ≤ nanos x.1) l.
Proof. intros Hl. apply Forall_forall. intros x Hx. rewrite forallb_forall in Hl. apply Z.leb_le, Hl. by apply list_elem_of_In. Qed.
Lemma reach2 : reach 0 demo_unit demo_powf demo_unit 10 2 (length (to_network (out ended1))) (at_us 3) session2.
Proof.
  apply (Connects _ _ _ _ _ 1 0 (at_us 2) (at_us 3) ended1).
  - apply (Ends _ _ _ _ _ 1 0 (at_us 1) (at_us 2) session1); [exact reach1|vm_compute; done|apply demo_due; vm_compute; reflexivity|vm_compute; reflexivity].
  - vm_compute. done.
  - apply demo_due. vm_compute. reflexivity.
  - vm_compute. reflexivity.
  - vm_compute. reflexivity.
Qed.

Lemma reports_matched_witness : last_sent 1 (to_network (out session1)) = Some (at_us 1).
Proof.
  destruct (reports_matched 0 demo_unit demo_powf demo_unit 10 ltac:(lia) ltac:(lia) ltac:(vm_compute; reflexivity) 1 0 (at_us 1) session1 (at_us 9) demo_stats reach1)
    as [_ Hm].
  destruct (Hm (at_us 1)) as [Hl _]; [vm_compute; reflexivity|]. exact Hl.
Defined.
Lemma server_keeps_sending_witness : pending (negb ∘ is_video) session2 = 2%nat.
Proof.
  apply (server_keeps_sending 0 demo_unit demo_powf demo_unit 10 ltac:(lia) ltac:(lia) ltac:(vm_compute; reflexivity) 2 _ (at_us 3) session2 reach2).
Defined.
Lemma report_arrives_witness : ∃ c' t p,
  framed_send (NetworkStatistics demo_stats) (at_us 5) ClientDemo.default_client = Ret c' ∧ Client.events (Client.out c') = [(t, OutputAppNetworkSend p)] ∧
  deliver 0 demo_powf (at_us 9) p session1 = handle_control_packet demo_powf (Known (NetworkStatistics demo_stats)) (at_us 9) session1.
Proof.
  edestruct (report_arrives 0 demo_powf (NetworkStatistics demo_stats) (at_us 5) ClientDemo.default_client) as (t & p & E & _ & Hd).
  - vm_compute. reflexivity.
  - vm_compute. reflexivity.
  - vm_compute. reflexivity.
  - eexists _, t, p. split; [vm_compute; reflexivity|]. split; [exact E|]. apply (Hd (at_us 9) session1). eexists. vm_compute. reflexivity.
Defined.
(** The sizes of [deterministic_frame_sizes], at 1 Mbit/s and 60 frames a second: a session whose first frames are sent. *)
Definition det_server : XRServer mono :=
  mkServer (mkConf (F32.of_Z 60) (F32.of_Z 1) 32 false true None) (mono_of 0) false None
    (Abr.manager_new MAX_HISTORY_SIZE (F32.of_Z 60) (F32.of_Z 1) 0 Abr.Custom (F32.of_Z 60) (F32.of_Z 1) [] demo_rng)
    None (statistics_new MAX_HISTORY_SIZE) 0 ∅ (mkLast F32.zero F32.zero F32.zero) (mono_of 0) demo_rng (mkOut [] [] []).
Definition det_session : XRServer mono := get (connection_pipeline demo_unit demo_unit (at_us 1) det_server).
Example det_reach : reach 0 demo_unit demo_powf demo_unit 10 1 0 (at_us 1) det_session ∧ frames_sent_counter det_session = 1.
Proof.
  split; [|vm_compute; reflexivity]. apply (Connects _ _ _ _ _ 0 0 (at_us 0) (at_us 1) det_server);
    [apply Created; split; [done|vm_compute; discriminate|done..]|vm_compute; done|by constructor|vm_compute; reflexivity|vm_compute; reflexivity].
Qed.
(** A session that is over before its next frame leaves that frame to the next session: two chains of video. *)
Example two_video_chains : pending is_video session2 = 2%nat.
Proof. vm_compute. reflexivity. Qed.
End ServerDemo.
