(* ===== verification/EndToEnd.v ===== *)
(** * From the server's frames to the headset's display

    Module [EndToEnd]: the server of [Server] and the headset of [Client] with a network between them
    that may lose, delay, reorder and repeat packets.  [shown_frames_were_sent]: in a session, every frame in the
    headset's jitter buffer is, byte for byte, a frame that the server sent under that number. *)

From Stdlib Require Import SpecFloat.
From S2P Require Import Prelude StablePq Scheduler SeqExecutor F32 F32Facts StreamSocket Shards FrameDeadlines VideoStats Reassembly SimRng Airtime Edca F64Ops Nada Abr FrameTable Keyframe Client ClientFacts Server ServerFacts.

Module EndToEnd.
Import Socket Shards Reassembly Client Server ServerFacts.

Section session.
Context {T : Type} `{TaiTime T} `{!Env T} {DS : Deserialize} {BC : Bincode} {MM : Keyframe.MemMem}.
Context (nada_level : Z) (sample_unit : Rng.SimRng → f32 * Rng.SimRng) (powf : f64 → f64 → f64).
Context (sample_epsilon : Rng.SimRng → f32 * Rng.SimRng).
Context (powi : f64 → Z → f64) (fuel : nat).
Context (m : nat) (m_pos : (0 < m)%nat) (m_max : (m + SHARD_PREFIX_SIZE ≤ MAX_PACKET_SIZE_RECV)%nat).
Context (header_size : length video_header = VIDEO_HEADER_SIZE).
Implicit Types s : XRServer T.
Lemma m_small : Z.of_nat m < 2 ^ 24.
Proof. by apply ClientFacts.m_24. Qed.
Lemma header_below : Z.of_nat (length video_header) < 2 ^ 20.
Proof. rewrite header_size. vm_compute. reflexivity. Qed.
#[local] Abbreviation server_reach := (reach nada_level sample_unit powf sample_epsilon m).

(** ** What was sent *)
(** The frames of a session by number, with the time stamp of their shards. *)
Abbreviation Sent := (gmap Z (list Z * f32)).
Definition sent_by (fr : Sent) (sid pi : Z) : option (list Z * f32) :=
  if sid =? VIDEO then (λ x, (frame_bytes x.1, x.2)) <$> fr !! pi else None.
Definition sent_ok (k : Z) (x : list Z * f32) : Prop :=
  0 ≤ k < 2 ^ 32 ∧ F32.valid x.2 = true ∧ (SHARD_PREFIX_SIZE + length video_header ≤ length x.1)%nat ∧
  Z.of_nat (SHARD_PREFIX_SIZE + length video_header + length x.1) < 2 ^ 24.
(** The packets sent since the latest session started, [k] packets having been sent before it. *)
Definition session_packets (k : nat) s : list Mpdu := snd <$> drop k (to_network (out s)).
Record session_frames (fr : Sent) (k : nat) s : Prop := mkFrames {
  sf_start : (k ≤ length (to_network (out s)))%nat;
  sf_packets : Forall (ClientFacts.genuine_packet m (sent_by fr)) (session_packets k s);
  sf_sent : map_Forall (λ i x, sent_ok i x ∧
    Forall (λ p, p ∈ session_packets k s) (mpdus m (edca_be_mode (conf s)) VIDEO i x.2 (frame_bytes x.1))) fr;
  sf_next : is_Some (streams s) → 0 ≤ frames_sent_counter s < 2 ^ 32 ∧ ∀ i, is_Some (fr !! i) → i ≤ frames_sent_counter s;
  sf_off : streams s = None → frames_sent_counter s = 0
}.
Lemma session_packets_app k s s' l : to_network (out s') = to_network (out s) ++ l → (k ≤ length (to_network (out s)))%nat →
  session_packets k s' = session_packets k s ++ (snd <$> l).
Proof. intros E Hk. unfold session_packets. by rewrite E, drop_app_le, fmap_app by done. Qed.
Lemma sent_wf_of fr : map_Forall sent_ok fr → sent_wf (sent_by fr).
Proof.
  intros Hfr sid pi D t. unfold sent_by. destruct (Z.eqb_spec sid VIDEO) as [->|]; [|done].
  destruct (fr !! pi) as [[l t']|] eqn:E; [|done]. intros [= <- <-]. destruct (Hfr _ _ E) as (Hk & Hv & Hl & H24). cbn [fst snd] in *.
  rewrite (frame_bytes_length m m_pos) by done. unfold SHARD_PREFIX_SIZE in *. split_and!; try done; lia.
Qed.
Lemma genuine_mono fr fr' p : fr ⊆ fr' → ClientFacts.genuine_packet m (sent_by fr) p → ClientFacts.genuine_packet m (sent_by fr') p.
Proof.
  intros Hsub Hg Hv. destruct (Hg Hv) as (pi & D & t & i & [Hs Hi] & Hd). exists pi, D, t, i. split; [|done]. split; [|done].
  unfold sent_by in *. rewrite Z.eqb_refl in *. destruct (fr !! pi) as [x|] eqn:E; [|done]. by rewrite (lookup_weaken _ _ _ _ E Hsub).
Qed.
Lemma frames_quiet fr k s s' : session_frames fr k s → to_network (out s') = to_network (out s) → streams s' = streams s →
  frames_sent_counter s' = frames_sent_counter s → conf s' = conf s → session_frames fr k s'.
Proof. unfold session_packets. intros [H0 H1 H2 H3 H4] E1 E2 E3 E4. unfold session_packets in *. split; unfold session_packets; rewrite ?E1, ?E2, ?E3, ?E4; done. Qed.
Lemma frames_sent_more (fr : Sent) (P Q : Mpdu → Prop) be : (∀ p, P p → Q p) →
  map_Forall (λ i x, sent_ok i x ∧ Forall P (mpdus m be VIDEO i x.2 (frame_bytes x.1))) fr →
  map_Forall (λ i x, sent_ok i x ∧ Forall Q (mpdus m be VIDEO i x.2 (frame_bytes x.1))) fr.
Proof. intros HPQ Hfr. eapply map_Forall_impl; [exact Hfr|]. intros i x [Hx Hp]. split; [done|]. by eapply Forall_impl. Qed.
(** A video frame gets a new number. *)
Lemma frames_video fr n v k now s s' : ServerFacts.server_inv m n v now s → session_frames fr k s →
  (is_Some (streams s) → frame_below sample_unit m now s = true) →
  generate_video_frame sample_unit sample_epsilon now s = Ret s' → ∃ fr', session_frames fr' k s'.
Proof.
  intros Hi [H0 H1 H2 H3 H4] Hb E. destruct (streams s) as [st|] eqn:Hst.
  2:{ unfold generate_video_frame in E. rewrite Hst in E. injection E as <-. exists fr. by split; rewrite ?Hst. }
  destruct (video_frame_inv sample_unit sample_epsilon m m_pos m_small now s st s' Hst (si_streams _ _ _ _ _ Hi st Hst) (si_t0 _ _ _ _ _ Hi)
    (Hb ltac:(done)) E) as (t & l & b & b' & pass & g & -> & _ & Hl & H24 & Hk).
  destruct (H3 ltac:(done)) as [Hc Hmax].
  unfold next_number in Hk. rewrite wrap_id in Hk by lia. assert (next_number s = frames_sent_counter s + 1) as Enum by (unfold next_number; by rewrite wrap_id by lia).
  assert (fr !! next_number s = None) as Hnew.
  { destruct (fr !! next_number s) eqn:Ef; [|done]. pose proof (Hmax (next_number s) ltac:(by rewrite Ef)). lia. }
  exists (<[next_number s := (l, elapsed now s)]> fr). set (s' := after_frame _ _ _ _ _ _ _ _ _).
  pose proof (session_packets_app k s s' _ eq_refl H0) as Ep. rewrite <-list_fmap_compose in Ep.
  change (snd ∘ pair now) with (λ p : Mpdu, p) in Ep. rewrite list_fmap_id in Ep.
  split; rewrite ?Ep; cbn [s' after_frame out to_network streams conf frames_sent_counter].
  - rewrite length_app. lia.
  - apply Forall_app. split; [eapply Forall_impl; [exact H1|]; intros x; by apply genuine_mono, insert_subseteq|].
    apply Forall_fmap, Forall_seq. intros i Hi' _. exists (next_number s), (frame_bytes l), (elapsed now s), i.
    split; [|done]. split; [|lia]. unfold sent_by. by rewrite Z.eqb_refl, lookup_insert_eq.
  - apply map_Forall_insert_2; [|eapply frames_sent_more; [|exact H2]; intros p; rewrite elem_of_app; by left].
    split; [split_and!; [unfold U32_MAX in Hk; lia..|apply F32Facts.of_nanos_valid|done|done]|]. cbn [fst snd].
    apply Forall_forall. intros p Hp. apply elem_of_app. by right.
  - intros _. unfold U32_MAX in Hk. split; [lia|]. intros i. destruct (decide (i = next_number s)) as [->|]; [lia|].
    rewrite lookup_insert_ne by done. intros Hk'. specialize (Hmax i Hk'). lia.
  - done.
Qed.
Lemma frames_audio fr n v k now s s' : ServerFacts.server_inv m n v now s → session_frames fr k s →
  generate_audio_frame now s = Ret s' → session_frames fr k s'.
Proof.
  intros Hi [H0 H1 H2 H3 H4] E.
  destruct (audio_frame_inv m m_pos m_small header_below now s s' (si_streams _ _ _ _ _ Hi) (si_t0 _ _ _ _ _ Hi) E) as (t & -> & _).
  unfold after_audio. destruct (streams s) as [st|] eqn:Hst; [|by apply (frames_quiet fr k s); rewrite ?Hst; [split; rewrite ?Hst|..]].
  set (s' := set_streams _ _). pose proof (session_packets_app k s s' _ eq_refl H0) as Ep.
  split; rewrite ?Ep; cbn [s' set_streams set_out out to_network streams conf frames_sent_counter].
  - rewrite length_app. lia.
  - apply Forall_app. split; [done|]. apply Forall_fmap, Forall_fmap, Forall_fmap, Forall_true. intros i Hv. done.
  - eapply frames_sent_more; [|exact H2]. intros p. rewrite elem_of_app. by left.
  - intros _. by apply H3.
  - done.
Qed.
(** A session starts without frames. *)
Lemma frames_connect fr n k now s s' : ServerFacts.server_inv m n 1 now s → session_frames fr k s → frame_below sample_unit m now s = true →
  connection_pipeline sample_unit sample_epsilon now s = Ret s' → ∃ fr', session_frames fr' (length (to_network (out s))) s'.
Proof.
  intros Hi Hf Hb E. unfold connection_pipeline in E. inv_ret E as (s1 & Ev & E). set (s0 := mkServer _ _ _ _ _ _ _ _ _ _ _ _ _) in Ev.
  assert (server_inv m n 0 now s0) as Hi0.
  { destruct Hi as [I1 I2 I3 I4 I5 I6 I7]. split; cbn [s0 conf t_0 streams out map_rtt]; try done; [|lia].
    intros st [= <-]. rewrite I1. split; [done|by eexists 0|done]. }
  destruct (frames_video ∅ n 0 (length (to_network (out s))) now s0 s1 Hi0) as [fr1 Hf1]; [|intros _; exact Hb|exact Ev|].
  { destruct Hf as [G0 G1 G2 G3 G4]. split; cbn [s0 conf streams out frames_sent_counter]; try done.
    - unfold session_packets. cbn [s0 out]. by rewrite drop_ge.
    - intros _. split; [|by intros i [? [=]]]. destruct (streams s) as [st|]; [by apply G3|rewrite G4 by done; lia]. }
  exists fr1. eapply frames_audio; [|exact Hf1|exact E]. eapply video_step; [done|apply m_small|exact Hi0|intros _; exact Hb|exact Ev].
Qed.
Lemma reach_frames n k now s : server_reach n k now s → ∃ fr, session_frames fr k s.
Proof.
  induction 1 as [now s [F1 F2 F3 F4 F5 [F6 F7]]|n k now now' s s' Hr IH Hle Hd Hb E|n k now now' s s' Hr IH Hle Hd E|n k i e now now' s s' Hr IH Hle Hd Hl Hb E
    |n k ps ts now now' s s' Hr IH Hle Hd _ E|n k now now' s s' Hr IH Hle Hd E|n k cap now now' s s' Hr IH Hle Hd E].
  1:{ exists ∅. split; unfold session_packets; rewrite ?F3, ?F6, ?F7; [cbn; lia|constructor|apply map_Forall_empty|by intros [? [=]]|done]. }
  all: destruct IH as [fr Hf].
  all: pose proof (server_reach_inv nada_level sample_unit powf sample_epsilon m m_pos m_small header_below _ _ _ _ Hr) as Hi.
  all: pose proof (inv_later m m_pos _ _ _ _ _ Hi Hle Hd) as Hi'.
  - by eapply frames_connect.
  - unfold session_end in E. inv_ret E as (b & _ & E). injection E as <-. destruct Hf as [G0 G1 G2 G3 G4]. exists fr.
    split; cbn [conf streams out frames_sent_counter]; try done.
  - eapply (inv_drop m m_pos) in Hi'; [|exact Hl]. assert (session_frames fr k (drop_event i s)) as Hf' by (by apply (frames_quiet fr k s)).
    destruct e; cbn [handle] in E; [by eapply frames_video; [exact Hi'|exact Hf'|intros Hs; by apply Hb|exact E]|]. exists fr. by eapply frames_audio.
  - exists fr. apply network_quiet in E as [Q1 _ Q3 Q4 Q5 _]; [apply (frames_quiet fr k s); by rewrite ?Q4|]. intros st Hst. by apply (so_chan m (t_0 s)), (si_streams _ _ _ _ _ Hi').
  - exists fr. unfold oracle_bandwidth_step in E. inv_ret E as (b & _ & E). injection E as <-. by apply (frames_quiet fr k s).
  - exists fr. unfold oracle_apply_lookahead_cap in E. inv_ret E as (b & _ & E). injection E as <-. by apply (frames_quiet fr k s).
Qed.

(** C5: End to end.  Let the server be in any state that it reaches, over any number of sessions, sending video frames below 16 MiB, and
    let a headset that was just set up be fed, in any order, any number of times and with any losses, packets that the server sent since the start of its
    latest session.  Then there is one frame per number such that all its shards were sent in that session, and every frame in the headset's
    jitter buffer is byte for byte the frame that the server sent under that number; all that was shown is the
    beginning of such a frame.  (The end of a session restarts the numbers, so packets of two sessions are not mixed here.) *)
Theorem shown_frames_were_sent n k now s : server_reach n k now s →
  ∃ fr : Sent,
    (∀ i l t, fr !! i = Some (l, t) →
       Forall (λ p, p ∈ session_packets k s) (mpdus m (edca_be_mode (conf s)) VIDEO i t (frame_bytes l))) ∧
    ∀ now0 c0 now' c, ClientFacts.fresh m c0 →
      rtc (ClientFacts.net_step nada_level powi fuel m ClientFacts.uplink (λ p, p ∈ session_packets k s)) (now0, c0) (now', c) →
      Forall (λ f : Z * list Z, ∃ t, fr !! f.1 = Some (f.2, t)) (deque (decoder_queue (playback c))) ∧
      Forall (λ x : list Z, ∃ i l t, fr !! i = Some (l, t) ∧ x = take 10 l) (Client.decoded (Client.out c)).
Proof.
  intros Hr. destruct (reach_frames n k now s Hr) as [fr Hf]. exists fr. split.
  { intros i l t Hi. by destruct (sf_sent _ _ _ Hf _ _ Hi). }
  intros now0 c0 now' c Hc0 Hrun.
  assert (sent_wf (sent_by fr)) as Hwf by (apply sent_wf_of; eapply map_Forall_impl; [apply (sf_sent _ _ _ Hf)|by intros i x []]).
  assert (rtc (ClientFacts.client_step nada_level powi fuel m (sent_by fr)) (now0, c0) (now', c)) as Hrun'.
  { eapply rtc_subrel; [|exact Hrun]. intros a b. apply ClientFacts.net_step_mono. intros p Hp.
    by apply (proj1 (Forall_forall _ _) (sf_packets _ _ _ Hf)) in Hp. }
  assert (∀ i l, ClientFacts.frame_ok (sent_by fr) (i, l) → ∃ t, fr !! i = Some (l, t)) as Hframe.
  { intros i l (D & t & Hs & El). cbn [fst snd] in *. unfold sent_by in Hs. rewrite Z.eqb_refl in Hs. destruct (fr !! i) as [[l' t']|] eqn:Ek; [|done].
    injection Hs as <- <-. destruct (sf_sent _ _ _ Hf _ _ Ek) as [(_ & _ & Hl & _) _]. exists t'. do 2 f_equal. cbn [fst] in *. subst l.
    unfold frame_bytes. rewrite drop_app_length'; [done|]. rewrite length_take, length_drop, <-header_size. lia. }
  eapply (ClientFacts.client_reach_inv nada_level powi fuel m m_pos m_max (sent_by fr) Hwf) in Hrun' as [_ _ (Hq & _ & _) Hdec _ _];
    [|by apply ClientFacts.fresh_client_inv]. split.
  - eapply Forall_impl; [exact Hq|]. intros [i l] Hk. by apply Hframe.
  - eapply Forall_impl; [exact Hdec|]. intros x ([i l] & Hk & ->). destruct (Hframe i l Hk) as [t Ht]. by exists i, l, t.
Qed.
End session.
End EndToEnd.

(** ** The first frame of a second session, its shards in reverse order *)
Module EndToEndDemo.
Import Socket Shards FrameDeadlines.SocketDemo Client Server ServerFacts ServerDemo EndToEnd Keyframe.Keyframe.KeyframeDemo.
#[local] Existing Instance naive_memmem.
#[local] Existing Instance ServerDemo.demo_bincode.
#[local] Existing Instance ServerDemo.demo_deserialize.
Definition demo_powi (x : f64) (n : Z) : f64 := x.
Definition sent_before : nat := length (to_network (out ended1)).
Definition video_packets : list Mpdu := take 6 (session_packets sent_before session2).
Definition headset0 : XRClient mono := ClientFacts.ClientDemo.demo0.
Definition get_client (o : outcome (XRClient mono)) : XRClient mono := match o with Ret c => c | _ => headset0 end.
Definition headset1 : XRClient mono := get_client (configure_streams 0 demo_powi (replicate 20 7) 32 (at_us 1) headset0).
Definition headset2 : XRClient mono := get_client (Client.in_from_network 2 (at_us 10) (rev video_packets) (at_us 10) headset1).
Definition headset3 : XRClient mono :=
  get_client (Client.handle 0 demo_powi (mono_of 1000010010) (0, 0) [] VideoReceive (ClientFacts.ClientFacts.drop_event 2 headset2)).
Lemma headset_run : rtc (ClientFacts.ClientFacts.net_step 0 demo_powi 2 10 ClientFacts.ClientFacts.uplink (λ p, p ∈ session_packets sent_before session2))
  (at_us 0, headset0) (mono_of 1000010010, headset3).
Proof.
  eapply rtc_l; [apply (ClientFacts.ClientFacts.Starts _ _ _ _ _ _ (replicate 20 7) (at_us 0) (at_us 1) headset0 headset1);
    [vm_compute; done|vm_compute; reflexivity|vm_compute; reflexivity]|].
  eapply rtc_l; [apply (ClientFacts.ClientFacts.Arrives _ _ _ _ _ _ (at_us 10) (rev video_packets) (at_us 1) (at_us 10) headset1 headset2);
    [vm_compute; done| |vm_compute; reflexivity]|].
  - apply Forall_forall. intros p Hp. unfold video_packets in Hp. rewrite list_elem_of_In, <-in_rev, <-list_elem_of_In in Hp.
    rewrite <-(take_drop 6 (session_packets sent_before session2)). apply elem_of_app. by left.
  - eapply rtc_once, (ClientFacts.ClientFacts.Runs _ _ _ _ _ _ 2 VideoReceive (0, 0) [] (at_us 10) (mono_of 1000010010) headset2 headset3);
      [vm_compute; reflexivity|vm_compute; done|vm_compute; reflexivity|vm_compute; reflexivity].
Qed.
Lemma header13 : length (@video_header ServerDemo.demo_deserialize) = VIDEO_HEADER_SIZE.
Proof. reflexivity. Qed.
Lemma shown_frames_were_sent_witness : deque (decoder_queue (playback headset3)) = [(1, replicate 40 7)] ∧
  ∃ fr : gmap Z (list Z * f32), Forall (λ f : Z * list Z, ∃ t, fr !! f.1 = Some (f.2, t)) (deque (decoder_queue (playback headset3))).
Proof.
  split; [vm_compute; reflexivity|].
  destruct (shown_frames_were_sent 0 demo_unit demo_powf demo_unit demo_powi 2 10 ClientFacts.ClientDemo.ten_pos ClientFacts.ClientDemo.ten_max
    header13 2 sent_before (at_us 3) session2 reach2) as (fr & _ & Hfr).
  exists fr. apply (Hfr (at_us 0) headset0 (mono_of 1000010010) headset3 ClientFacts.ClientDemo.headset_fresh headset_run).
Defined.
End EndToEndDemo.
