(* ===== verification/Station.v ===== *)
(** * Stations, sources and sinks

    The models at the edge of the wireless network: [STA_extended] of [examples/lib/models_XR.rs], the
    station between a host and the access point, which also moves and can generate background
    traffic; [PoissonSource], [STA_source] and [Sink] of [examples/lib/models_mm1k.rs].

    A handler appends the events that it schedules for its model to [events] and what it sends on
    its ports to [outputs], in their order.  Parameters: the generator [StdRng] and the
    distributions of the crate rand (class [Draws]), and the functions of [f64] that the platform
    computes (class [Libm]).  Lines
    printed are left out. *)

From Stdlib Require Import SpecFloat.
From S2P Require Import Prelude Scheduler F32 SimRng Airtime Edca MacData F64Ops Abr.

Module Station.
Import F64 F64Ops Rng Edca MacData.
#[local] Open Scope f64_scope.

Class Draws (StdRng : Type) := {
  seed_from_u64 : Z → StdRng;
  (** [gen::<bool>()], [gen_range(lo..hi)] of [f64] on both generators *)
  gen_bool : StdRng → bool * StdRng;
  gen_range : f64 → f64 → StdRng → f64 * StdRng;
  gen_range_sim : f64 → f64 → SimRng → f64 * SimRng
}.
(** The functions that the platform's library computes. *)
Class Libm := {
  ln : f64 → f64;
  sin : f64 → f64;
  cos : f64 → f64;
  atan2 : f64 → f64 → f64;
  powi : f64 → Z → f64
}.
(** [std::f64::consts::PI] *)
Definition PI : f64 := S754_finite false 7074237752028440 (-51).
(** [x as usize] *)
Definition as_usize : f64 → Z := cast_with trunc 0 U64_MAX.
(** [x % y], which is exact, and [x.rem_euclid(y)]. *)
Definition fmod (x y : f64) : f64 :=
  match x, y with
  | S754_nan, _ | _, S754_nan | S754_infinity _, _ | _, S754_zero _ => nan
  | S754_zero _, _ | S754_finite _ _ _, S754_infinity _ => x
  | S754_finite s m e, S754_finite _ m' e' =>
      let k := Z.min e e' in
      let r := (Z.pos m * 2 ^ (e - k)) `mod` (Z.pos m' * 2 ^ (e' - k)) in
      if r =? 0 then S754_zero s else binary_normalize 53 1024 (cond_Zopp s r) k s
  end.
Definition rem_euclid (x y : f64) : f64 :=
  let r := fmod x y in if r ≺ zero then r ⊕ abs y else r.

(** ** Distance of the scripted walk *)
Definition RADIAL_TEST_START_DIST : f64 := lit 15 10.
Definition RADIAL_TEST_END_DIST : f64 := of_Z 20.
Definition RADIAL_TEST_HOLD_SECS : f64 := of_Z 20.
Definition RADIAL_TEST_RAMP_SECS : f64 := of_Z 90.
Definition RADIAL_TEST_CYCLE_SECS : f64 :=
  of_Z 2 ⊗ RADIAL_TEST_HOLD_SECS ⊕ of_Z 2 ⊗ RADIAL_TEST_RAMP_SECS ⊕ RADIAL_TEST_HOLD_SECS.
Definition radial_test_distance (t : f64) : f64 :=
  let t_mod := rem_euclid t RADIAL_TEST_CYCLE_SECS in
  let ramp_out_end := RADIAL_TEST_HOLD_SECS ⊕ RADIAL_TEST_RAMP_SECS in
  let hold_far_end := ramp_out_end ⊕ RADIAL_TEST_HOLD_SECS in
  let ramp_back_end := hold_far_end ⊕ RADIAL_TEST_RAMP_SECS in
  if t_mod ≺ RADIAL_TEST_HOLD_SECS then RADIAL_TEST_START_DIST
  else if t_mod ≺ ramp_out_end then
    let frac := (t_mod ⊖ RADIAL_TEST_HOLD_SECS) ⊘ RADIAL_TEST_RAMP_SECS in
    RADIAL_TEST_START_DIST ⊕ frac ⊗ (RADIAL_TEST_END_DIST ⊖ RADIAL_TEST_START_DIST)
  else if t_mod ≺ hold_far_end then RADIAL_TEST_END_DIST
  else if t_mod ≺ ramp_back_end then
    let frac := (t_mod ⊖ hold_far_end) ⊘ RADIAL_TEST_RAMP_SECS in
    RADIAL_TEST_END_DIST ⊖ frac ⊗ (RADIAL_TEST_END_DIST ⊖ RADIAL_TEST_START_DIST)
  else RADIAL_TEST_START_DIST.

Section station.
Context {T P IP StdRng : Type} `{TaiTime T} `{!Edca.Epoch T} `{!Draws StdRng} `{!Libm}.
(** The payload of [MpduPacket::new()]: no data, the default header. *)
Context (empty_payload : P).
Abbreviation Mpdu := (MpduPacket T P).
Abbreviation Ampdu := (AmpduPacket T P).
Definition mpdu_new : Mpdu :=
  mkMpdu 0 0 Edca.EPOCH Edca.EPOCH 0 0 0 0 origin 0 empty_payload BestEffort None None.
(** The packet [p] with a number, its ends and the place it comes from; with a length. *)
Definition stamp (id src dest : Z) (coords : Coords) (p : Mpdu) : Mpdu :=
  mkMpdu id (length_packet_bits p) (queue_in_instant p) (queue_out_instant p) (T_q p) (T_s p) src dest coords
    (queue_length_when_out p) (payload p) (edca_ac p) (mac_key_cached p) (assigned_link_id p).
Definition set_length (bits : Z) (p : Mpdu) : Mpdu :=
  mkMpdu (packet_id p) bits (queue_in_instant p) (queue_out_instant p) (T_q p) (T_s p) (sta_src_id p) (sta_dest_id p)
    (sta_src_coords p) (queue_length_when_out p) (payload p) (edca_ac p) (mac_key_cached p) (assigned_link_id p).

Definition exponential (mean : f64) (g : StdRng) : f64 * StdRng :=
  let '(u, g) := gen_range zero (of_Z 1) g in
  (neg mean ⊗ ln u, g).

(** ** [STA_extended] *)
Record TimedFrame := mkTimedFrame { vec : list Mpdu; timestamp : T }.
Inductive StaEvent :=
| SendPacketWireless (p : Mpdu)
| ToAppSocketSend (f : TimedFrame)
| SendPacketBG
| MoveCoordinates.
Inductive StaOutput :=
| OutputNetworkPort (p : Mpdu)
| OutportCoordsXrclient (c : Coords)
| OutportCoordsQueue (id : Z) (c : Coords)
| ToAppSocket (f : TimedFrame)
| StaLocation (t : f64) (ip : IP) (lx ly lz : f32).

(** The fields that no handler assigns; [t_0], the identifiers, the rates. *)
Record StaConf := mkStaConf {
  sta_id : Z;
  destination_id : Z;
  arrival_rate_BG_packs_per_s : f64;
  mean_length_packets_BG : f64;
  orig_sta_coordinates : Coords;
  does_sta_tx : bool;
  is_bg_sta : bool;
  t_0 : T;
  is_ul_bg : Z;
  ap_coords : Coords;
  movement_mode : Z;
  has_location_event_sender : bool;
  ip_addr : IP
}.
Record STA_extended := mkSta {
  conf : StaConf;
  num_packets_sent : Z;
  received_packet_counter : Z;
  sta_coordinates : Coords;
  current_angle : f64;
  random_seed : StdRng;
  mobility_rng : SimRng;
  instant_last_location_event : T;
  events : list (T * StaEvent);
  outputs : list StaOutput
}.
Implicit Types s : STA_extended.
(** [stream] is the generator that [sim_rng::next_stream] gives. *)
Definition sta_new (mean_length_BG : f64) (src dest : Z) (coordinates : Coords) (does_sta_transmit : bool) (t0_sim : T)
    (is_bg : bool) (arrival_rate : f64) (ul_bg : Z) (ap : Coords) (input_seed mode : Z) (location : bool) (ip : IP)
    (stream : SimRng) : STA_extended :=
  mkSta (mkStaConf src dest arrival_rate mean_length_BG coordinates does_sta_transmit is_bg t0_sim ul_bg ap mode location ip)
    0 0 coordinates zero (seed_from_u64 input_seed) stream Edca.EPOCH [] [].
Definition emit (o : StaOutput) s : STA_extended :=
  mkSta (conf s) (num_packets_sent s) (received_packet_counter s) (sta_coordinates s) (current_angle s) (random_seed s)
    (mobility_rng s) (instant_last_location_event s) (events s) (outputs s ++ [o]).
(** [context.scheduler.schedule_event(d, ..).unwrap()], where [d] is not zero. *)
Definition schedule_event (now : T) (d : Z) (e : StaEvent) s : outcome STA_extended :=
  t ← time_add now d;
  Ret (mkSta (conf s) (num_packets_sent s) (received_packet_counter s) (sta_coordinates s) (current_angle s) (random_seed s)
    (mobility_rng s) (instant_last_location_event s) (events s ++ [(t, e)]) (outputs s)).
Definition set_num_packets_sent (n : Z) s : STA_extended :=
  mkSta (conf s) n (received_packet_counter s) (sta_coordinates s) (current_angle s) (random_seed s)
    (mobility_rng s) (instant_last_location_event s) (events s) (outputs s).
Definition set_received (n : Z) s : STA_extended :=
  mkSta (conf s) (num_packets_sent s) n (sta_coordinates s) (current_angle s) (random_seed s)
    (mobility_rng s) (instant_last_location_event s) (events s) (outputs s).
Definition set_random_seed (g : StdRng) s : STA_extended :=
  mkSta (conf s) (num_packets_sent s) (received_packet_counter s) (sta_coordinates s) (current_angle s) g
    (mobility_rng s) (instant_last_location_event s) (events s) (outputs s).
Definition set_instant_last_location_event (t : T) s : STA_extended :=
  mkSta (conf s) (num_packets_sent s) (received_packet_counter s) (sta_coordinates s) (current_angle s) (random_seed s)
    (mobility_rng s) t (events s) (outputs s).
Definition set_place (c : Coords) (angle : f64) (g : SimRng) s : STA_extended :=
  mkSta (conf s) (num_packets_sent s) (received_packet_counter s) c angle (random_seed s)
    g (instant_last_location_event s) (events s) (outputs s).

(** *** Movement *)
Definition LIMIT_RADIUS : f64 := lit 115 10.
Definition STEP_SIZE : f64 := lit 2 100.
Definition DELTA_T : f64 := lit 1 100.
Definition PERSISTENCE : f64 := lit 65 100.
Definition SCRIPTED_STEP_DT : f64 := lit 1 10.
Definition quarter_turn : f64 * f64 := (neg PI ⊘ of_Z 4, PI ⊘ of_Z 4).
(** [movement_mode == 2]: on the line from the access point through the first place. *)
Definition scripted_place (elapsed : f64) s : Coords :=
  let c := conf s in
  let target_dist := radial_test_distance elapsed in
  let dir_x := x (orig_sta_coordinates c) ⊖ x (ap_coords c) in
  let dir_y := y (orig_sta_coordinates c) ⊖ y (ap_coords c) in
  let orig_dist := sqrt (powi dir_x 2 ⊕ powi dir_y 2) in
  let '(unit_x, unit_y) :=
    if lit 1 1000000000 ≺ orig_dist then (dir_x ⊘ orig_dist, dir_y ⊘ orig_dist) else (of_Z 1, zero) in
  mkCoords (x (ap_coords c) ⊕ unit_x ⊗ target_dist) (y (ap_coords c) ⊕ unit_y ⊗ target_dist) (z (sta_coordinates s)).
(** [movement_mode == 1]: a correlated walk that turns back at a circle around the first place. *)
Definition random_walk s : STA_extended :=
  let c := conf s in
  let '(random_offset, g) := gen_range_sim quarter_turn.1 quarter_turn.2 (mobility_rng s) in
  let angle := current_angle s ⊕ random_offset ⊗ (of_Z 1 ⊖ PERSISTENCE) in
  let new_x := x (sta_coordinates s) ⊕ STEP_SIZE ⊗ cos angle in
  let new_y := y (sta_coordinates s) ⊕ STEP_SIZE ⊗ sin angle in
  let rel_x := new_x ⊖ x (orig_sta_coordinates c) in
  let rel_y := new_y ⊖ y (orig_sta_coordinates c) in
  let dist_from_center := sqrt (powi rel_x 2 ⊕ powi rel_y 2) in
  if LIMIT_RADIUS ≺ dist_from_center then
    let angle_to_center := atan2 (neg rel_y) (neg rel_x) in
    let '(turn, g) := gen_range_sim quarter_turn.1 quarter_turn.2 g in
    let back := LIMIT_RADIUS ⊖ lit 1 100 in
    set_place (mkCoords (x (orig_sta_coordinates c) ⊕ (rel_x ⊘ dist_from_center) ⊗ back)
                 (y (orig_sta_coordinates c) ⊕ (rel_y ⊘ dist_from_center) ⊗ back) (z (sta_coordinates s)))
      (angle_to_center ⊕ turn) g s
  else set_place (mkCoords new_x new_y (z (sta_coordinates s))) angle g s.
Definition move_coordinates_everest (now : T) s : outcome STA_extended :=
  '(s, next_update_time) ←
    if movement_mode (conf s) =? 2 then
      n ← Abr.since now (t_0 (conf s));
      Ret (set_place (scripted_place (of_nanos n) s) (current_angle s) (mobility_rng s) s, SCRIPTED_STEP_DT)
    else if movement_mode (conf s) =? 1 then Ret (random_walk s, DELTA_T)
    else Ret (s, of_Z 10);
  let s := emit (OutportCoordsXrclient (sta_coordinates s)) s in
  let s := if negb (movement_mode (conf s) =? 0)
           then emit (OutportCoordsQueue (sta_id (conf s)) (sta_coordinates s)) s else s in
  d ← to_nanos next_update_time;
  schedule_event now d MoveCoordinates s.

(** *** Packets of the host, and A-MPDUs of the access point *)
Definition input_XR_app (packet : Mpdu) (now : T) s : outcome STA_extended :=
  let packet := stamp (num_packets_sent s) (sta_id (conf s)) (destination_id (conf s)) (sta_coordinates s) packet in
  s ← schedule_event now 10 (SendPacketWireless packet) s;
  n ← Abr.add_usize (num_packets_sent s) 1;
  Ret (set_num_packets_sent n s).
Definition send_packet_wireless (packet : Mpdu) s : STA_extended := emit (OutputNetworkPort packet) s.
Definition input_wireless (ampdu_packet : Ampdu) (now : T) s : outcome STA_extended :=
  '(s, packet_batch) ←
    if am_dest_id ampdu_packet =? sta_id (conf s) then
      n ← Abr.add_usize (received_packet_counter s) (Z.of_nat (length (mpdu_packets ampdu_packet)));
      Ret (set_received n s, mpdu_packets ampdu_packet)
    else Ret (s, []);
  match packet_batch with
  | [] => Ret s
  | _ => schedule_event now 10 (ToAppSocketSend (mkTimedFrame packet_batch now)) s
  end.
Definition to_app_socket_send (frame : TimedFrame) s : STA_extended := emit (ToAppSocket frame) s.

(** *** Background traffic *)
(** The ends of the next packet by the mode [is_ul_bg]; [None] stops the source. *)
Definition bg_ends s : option (Z * Z) * StdRng :=
  let c := conf s in
  let dl := (sta_id c, destination_id c) in
  let ul := (destination_id c, sta_id c) in
  if is_ul_bg c =? 0 then (Some dl, random_seed s)
  else if is_ul_bg c =? 1 then (Some ul, random_seed s)
  else if is_ul_bg c =? 2 then let '(b, g) := gen_bool (random_seed s) in (Some (if b then ul else dl), g)
  else (None, random_seed s).
(** The place is reported once per second. *)
Definition report_location (now : T) s : outcome STA_extended :=
  n ← Abr.since now Edca.EPOCH;
  d ← Abr.since now (instant_last_location_event s);
  if 10 ^ 9 <=? d then
    let s := set_instant_last_location_event now s in
    let c := sta_coordinates s in
    Ret (if has_location_event_sender (conf s)
         then emit (StaLocation (of_nanos n) (ip_addr (conf s)) (to_f32 (x c)) (to_f32 (y c)) (to_f32 (z c))) s else s)
  else Ret s.
Definition send_packet_BG (now : T) s : outcome STA_extended :=
  if does_sta_tx (conf s) && is_bg_sta (conf s) then
    match bg_ends s with
    | (None, _) => Ret s
    | (Some (packet_src, packet_dest), g) =>
        let '(e, g) := exponential (of_Z 1 ⊘ arrival_rate_BG_packs_per_s (conf s)) g in
        let s := set_random_seed g s in
        d ← to_nanos e;
        let time_interarrival := Z.max d 1 in
        let len_random := as_usize (mean_length_packets_BG (conf s)) in
        let packet := stamp (num_packets_sent s) packet_src packet_dest (sta_coordinates s)
                        (set_length (Z.max 1 len_random) mpdu_new) in
        s ← report_location now s;
        s ← schedule_event now 10 (SendPacketWireless packet) s;
        n ← Abr.add_usize (num_packets_sent s) 1;
        schedule_event now time_interarrival SendPacketBG (set_num_packets_sent n s)
    end
  else Ret s.

(** The handler that a scheduled event addresses. *)
Definition handle (e : StaEvent) (now : T) s : outcome STA_extended :=
  match e with
  | SendPacketWireless p => Ret (send_packet_wireless p s)
  | ToAppSocketSend f => Ret (to_app_socket_send f s)
  | SendPacketBG => send_packet_BG now s
  | MoveCoordinates => move_coordinates_everest now s
  end.

(** ** [PoissonSource] and [STA_source]

    [pending] holds the times of the calls of [send_packet] that are scheduled. *)
Record PoissonSource := mkPoisson {
  arrival_rate : f64;
  mean_length_packets : f64;
  ps_num_packets_sent : Z;
  ps_rng_seed : StdRng;
  ps_pending : list T;
  ps_output : list Mpdu
}.
Definition poisson_new (arrival_rate_bps mean_length : f64) (rng_seed : Z) : PoissonSource :=
  mkPoisson (arrival_rate_bps ⊘ mean_length) mean_length 0 (seed_from_u64 rng_seed) [] [].
(** The time to the next packet and the length of this one. *)
Definition draw_packet (rate mean_length : f64) (g : StdRng) : outcome (Z * Z * StdRng) :=
  let '(e, g) := exponential (of_Z 1 ⊘ rate) g in
  d ← to_nanos e;
  let '(len_random, g) := exponential mean_length g in
  Ret (Z.max d 1, Z.max 1 (as_usize len_random), g).
Definition poisson_send_packet (now : T) (s : PoissonSource) : outcome PoissonSource :=
  '(d, bits, g) ← draw_packet (arrival_rate s) (mean_length_packets s) (ps_rng_seed s);
  n ← Abr.add_usize (ps_num_packets_sent s) 1;
  let packet := stamp n 0 0 origin (set_length bits mpdu_new) in
  t ← time_add now d;
  Ret (mkPoisson (arrival_rate s) (mean_length_packets s) n g (ps_pending s ++ [t]) (ps_output s ++ [packet])).

Record STA_source := mkSource {
  src_sta_id : Z;
  src_destination_id : Z;
  src_arrival_rate : f64;
  src_mean_length : f64;
  src_num_packets_sent : Z;
  src_received : Z;
  src_coordinates : Coords;
  src_does_sta_tx : bool;
  src_rng_seed : StdRng;
  src_pending : list T;
  src_output : list Mpdu
}.
Implicit Types u : STA_source.
Definition source_new (arrival_rate_bps mean_length : f64) (src dest : Z) (coordinates : Coords) (does_sta_transmit : bool)
    (rng_seed : Z) : STA_source :=
  mkSource src dest (arrival_rate_bps ⊘ mean_length) mean_length 0 0 coordinates does_sta_transmit (seed_from_u64 rng_seed) [] [].
Definition move_coordinates (distance_to_move : f64) u : STA_source :=
  let '(theta, g) := gen_range zero (of_Z 2 ⊗ PI) (src_rng_seed u) in
  let '(phi, g) := gen_range zero PI g in
  let dx := distance_to_move ⊗ cos theta ⊗ sin phi in
  let dy := distance_to_move ⊗ sin theta ⊗ sin phi in
  let dz := distance_to_move ⊗ cos phi in
  let c := src_coordinates u in
  mkSource (src_sta_id u) (src_destination_id u) (src_arrival_rate u) (src_mean_length u) (src_num_packets_sent u) (src_received u)
    (mkCoords (x c ⊕ dx) (y c ⊕ dy) (z c ⊕ dz)) (src_does_sta_tx u) g (src_pending u) (src_output u).
Definition source_input (ampdu_packet : Ampdu) u : outcome STA_source :=
  n ← Abr.add_usize (src_received u) (Z.of_nat (length (mpdu_packets ampdu_packet)));
  Ret (mkSource (src_sta_id u) (src_destination_id u) (src_arrival_rate u) (src_mean_length u) (src_num_packets_sent u) n
    (src_coordinates u) (src_does_sta_tx u) (src_rng_seed u) (src_pending u) (src_output u)).
Definition source_send_packet (now : T) u : outcome STA_source :=
  if src_does_sta_tx u then
    '(d, bits, g) ← draw_packet (src_arrival_rate u) (src_mean_length u) (src_rng_seed u);
    let packet := stamp (src_num_packets_sent u) (src_sta_id u) (src_destination_id u) (src_coordinates u) (set_length bits mpdu_new) in
    n ← Abr.add_usize (src_num_packets_sent u) 1;
    t ← time_add now d;
    Ret (mkSource (src_sta_id u) (src_destination_id u) (src_arrival_rate u) (src_mean_length u) n (src_received u)
      (src_coordinates u) (src_does_sta_tx u) g (src_pending u ++ [t]) (src_output u ++ [packet]))
  else Ret u.

(** ** [Sink] *)
Record DataSink := mkDataSink { system_time : f64; av_l : f64; last_time : f64; rx_packets_counter : Z }.
Definition data_sink_new : DataSink := mkDataSink zero zero zero 0.
(** [mutex_data] is written by the sink only. *)
Record Sink := mkSink { sink_received : Z; mutex_data : DataSink }.
Definition sink_new : Sink := mkSink 0 data_sink_new.
(** [parse_shard_data] on the data of a packet, read to be printed: its length is computed in [u32]. *)
Definition parsed (data : list Z) : outcome () :=
  if (100 <=? length data)%nat then
    if foldl (λ acc b, acc * 256 + b) 0 (take 4 data) + 4 <=? U32_MAX then Ret () else Panic
  else Ret ().
Definition sink_packet (data_inner : P → list Z) (now : T) (k : Sink) (packet : Mpdu) : outcome Sink :=
  _ ← parsed (data_inner (payload packet));
  packet_total_time ← Abr.since now (queue_in_instant packet);
  let d := mutex_data k in
  rx ← Abr.add_usize (rx_packets_counter d) 1;
  n ← Abr.add_usize (sink_received k) 1;
  Ret (mkSink n (mkDataSink (system_time d ⊕ of_nanos packet_total_time) (av_l d ⊕ of_Z (length_packet_bits packet))
    (Abr.taitime_to_f64 now) rx)).
Definition sink_input (data_inner : P → list Z) (ampdu_packet : Ampdu) (now : T) (k : Sink) : outcome Sink :=
  foldl (λ k p, k ← k; sink_packet data_inner now k p) (Ret k) (mpdu_packets ampdu_packet).
End station.
Arguments TimedFrame : clear implicits.
Arguments StaEvent : clear implicits.
Arguments StaOutput : clear implicits.
Arguments StaConf : clear implicits.
Arguments STA_extended : clear implicits.
End Station.
