(* ===== verification/StationFacts.v ===== *)
(** * Theorems about stations

    Module [StationFacts]: a station with its scheduler as a step relation, in which the host and the
    access point hand it packets at any time and its events run at their time, those of one time in
    the order they were scheduled.  Both directions are FIFO pipes with a delay of 10 ns
    ([pipe]); packets are numbered consecutively; a background source never stops. *)

From Stdlib Require Import SpecFloat.
From S2P Require Import Prelude StablePq Scheduler SeqExecutor F32 SimRng Airtime Edca MacData F64Ops Abr Station.

Module StationFacts.
Import MacData Station.

Section facts.
Context {T P IP G : Type} `{TaiTime T} `{!Edca.Epoch T} `{!Draws G} `{!Libm} (empty_payload : P).
Implicit Types s : STA_extended T P IP G.
Abbreviation Mpdu := (MpduPacket T P).
Abbreviation Ampdu := (AmpduPacket T P).

(** ** A pipe that delays by 10 ns *)
Section pipe.
Context {A : Type}.
(** [log] is all that was put in, with the time it is due; [out] has left, [wait] has not. *)
Record pipe (now : T) (log : list (T * A)) (out : list A) (wait : list (T * A)) : Prop := mkPipe {
  pipe_split : ∃ gone, log = gone ++ wait ∧ out = snd <$> gone;
  pipe_sorted : StronglySorted (λ a b, nanos a.1 ≤ nanos b.1) log;
  pipe_bound : Forall (λ a, nanos a.1 ≤ nanos now + 10) log
}.
Implicit Types (log wait l : list (T * A)) (out : list A).
Lemma pipe_empty now : pipe now [] [] [].
Proof. split; [by exists []|constructor..]. Qed.
Lemma pipe_later now now' log out wait : nanos now ≤ nanos now' → pipe now log out wait → pipe now' log out wait.
Proof. intros ? [? ? Hb]. split; [done..|]. eapply Forall_impl; [exact Hb|]. cbn. lia. Qed.
Lemma sorted_snoc l x : StronglySorted (λ a b, nanos a.1 ≤ nanos b.1) l → Forall (λ a, nanos a.1 ≤ nanos x.1) l →
  StronglySorted (λ a b, nanos a.1 ≤ nanos b.1) (l ++ [x]).
Proof. induction 1; intros Hf; cbn; [by repeat constructor|]. inversion Hf; subst. constructor; [auto|]. apply Forall_app; auto. Qed.
Lemma pipe_put now log out wait l : Forall (λ a, nanos a.1 = nanos now + 10) l → pipe now log out wait →
  pipe now (log ++ l) out (wait ++ l).
Proof.
  intros Hl. revert log wait. induction l as [|x l IH]; intros log wait Hp; [by rewrite !app_nil_r|].
  inversion Hl; subst. rewrite (cons_middle x log l), (cons_middle x wait l), !(assoc_L (++)). apply IH; [done|].
  destruct Hp as [(gone & -> & ->) Hs Hb]. split.
  - exists gone. by rewrite (assoc_L (++)).
  - apply sorted_snoc; [done|]. eapply Forall_impl; [exact Hb|]. cbn. lia.
  - apply Forall_app. split; [done|]. constructor; [lia|constructor].
Qed.
Lemma pipe_get now log out t a wait : pipe now log out ((t, a) :: wait) → pipe now log (out ++ [a]) wait.
Proof.
  intros [(gone & -> & ->) Hs Hb]. split; [|done..]. exists (gone ++ [(t, a)]). by rewrite <-(assoc_L (++)), fmap_app.
Qed.
(** What is due now leaves first, when it is the first of its time. *)
Lemma pipe_first now log out before t a wait : pipe now log out (before ++ (t, a) :: wait) →
  Forall (λ x, nanos t ≤ nanos x.1 ∧ x.1 ≠ t) before → before = [].
Proof.
  intros [(gone & -> & _) Hs _] Hb. destruct before as [|[t' b] before]; [done|]. exfalso. inversion Hb as [|?? [? Hne] ?]; subst. cbn in *.
  assert (nanos t' ≤ nanos t).
  { clear -Hs. induction gone as [|g gone IH]; cbn in Hs; inversion Hs as [|?? Hs' Hf]; subst; [|by apply IH].
    apply Forall_app in Hf as [_ Hf]. by inversion Hf; subst. }
  apply Hne, nanos_inj. lia.
Qed.
(** What was due before now has left. *)
Lemma pipe_left now log out wait i t a : pipe now log out wait → Forall (λ x, nanos now ≤ nanos x.1) wait → log !! i = Some (t, a) →
  nanos t < nanos now → out !! i = Some a.
Proof.
  intros [(gone & -> & ->) _ _] Hd Hi Ht. rewrite list_lookup_fmap. apply lookup_app_Some in Hi as [->|[_ Hi]]; [done|].
  apply (Forall_lookup_1 _ _ _ _ Hd) in Hi. cbn in Hi. lia.
Qed.
End pipe.

(** ** The station with its events *)
Definition net_out (o : StaOutput T P IP) : option Mpdu := match o with OutputNetworkPort p => Some p | _ => None end.
Definition app_out (o : StaOutput T P IP) : option (TimedFrame T P) := match o with ToAppSocket f => Some f | _ => None end.
Definition net_event (e : T * StaEvent T P) : option (T * Mpdu) := match e with (t, SendPacketWireless p) => Some (t, p) | _ => None end.
Definition app_event (e : T * StaEvent T P) : option (T * TimedFrame T P) := match e with (t, ToAppSocketSend f) => Some (t, f) | _ => None end.
Definition bg_event (e : T * StaEvent T P) : option T := match e with (t, SendPacketBG) => Some t | _ => None end.
Definition sent s : list Mpdu := omap net_out (outputs s).
Definition delivered s : list (TimedFrame T P) := omap app_out (outputs s).
Definition due (now : T) s : Prop := Forall (λ e, nanos now ≤ nanos e.1) (events s).
Definition drop_event (i : nat) s : STA_extended T P IP G :=
  mkSta (conf s) (num_packets_sent s) (received_packet_counter s) (sta_coordinates s) (current_angle s) (random_seed s)
    (mobility_rng s) (instant_last_location_event s) (delete i (events s)) (outputs s).
(** The event [i] is the next one: no event is earlier, none of its time was scheduled before. *)
Definition next_event (i : nat) (now : T) (e : StaEvent T P) s : Prop :=
  events s !! i = Some (now, e) ∧ due now s ∧ Forall (λ x, x.1 ≠ now) (take i (events s)).

Inductive Input := FromApp (p : Mpdu) | FromAir (a : Ampdu).
Definition apps (ins : list (T * Input)) : list (T * Mpdu) :=
  omap (λ x, match x with (t, FromApp p) => Some (t, p) | _ => None end) ins.
(** The frames that the A-MPDUs for the station [id] make. *)
Definition frames (id : Z) (ins : list (T * Input)) : list (TimedFrame T P) :=
  omap (λ x, match x with
             | (t, FromAir a) => if (am_dest_id a =? id) && negb (bool_decide (mpdu_packets a = [])) then Some (mkTimedFrame (mpdu_packets a) t) else None
             | _ => None
             end) ins.
Definition bg_starts (e : StaEvent T P) : nat := match e with SendPacketBG => 1 | _ => 0 end.
(** [n] counts the starts of the background source, [ins] is what was handed to the station. *)
Inductive reach (c : StaConf T IP) : nat → T → list (T * Input) → STA_extended T P IP G → Prop :=
| Created now s : conf s = c → num_packets_sent s = 0 → events s = [] → outputs s = [] → reach c 0 now [] s
| Starts n now now' ins e s s' : reach c n now ins s → nanos now ≤ nanos now' → due now' s →
    e = SendPacketBG ∨ e = MoveCoordinates → handle empty_payload e now' s = Ret s' →
    reach c (n + bg_starts e) now' ins s'
| Runs n now now' ins i e s s' : reach c n now ins s → nanos now ≤ nanos now' → next_event i now' e s →
    handle empty_payload e now' (drop_event i s) = Ret s' → reach c n now' ins s'
| FromHost n now now' ins p s s' : reach c n now ins s → nanos now ≤ nanos now' → due now' s →
    input_XR_app p now' s = Ret s' → reach c n now' (ins ++ [(now', FromApp p)]) s'
| FromAp n now now' ins a s s' : reach c n now ins s → nanos now ≤ nanos now' → due now' s →
    input_wireless a now' s = Ret s' → reach c n now' (ins ++ [(now', FromAir a)]) s'.

(** *** What handlers add *)
Record adds (now : T) (evs : list (T * StaEvent T P)) s s' : Prop := mkAdds {
  ad_conf : conf s' = conf s;
  ad_events : events s' = events s ++ evs;
  ad_net : sent s' = sent s;
  ad_app : delivered s' = delivered s;
  ad_later : Forall (λ e, nanos now < nanos e.1) evs;
  ad_number : num_packets_sent s' = num_packets_sent s + Z.of_nat (length (omap net_event evs))
}.
Lemma adds_refl now s : adds now [] s s.
Proof. split; try done; [by rewrite app_nil_r|cbn; lia]. Qed.
Lemma usize_inv a b n : Abr.add_usize a b = Ret n → n = a + b.
Proof. unfold Abr.add_usize. case_match; [by intros [= <-]|done]. Qed.
Lemma sched_ok now d e s s' : schedule_event now d e s = Ret s' → 0 < d →
  ∃ t, nanos t = nanos now + d ∧ s' = mkSta (conf s) (num_packets_sent s) (received_packet_counter s) (sta_coordinates s) (current_angle s) (random_seed s)
    (mobility_rng s) (instant_last_location_event s) (events s ++ [(t, e)]) (outputs s).
Proof. intros E Hd. inv_ret E as (t & Et & [= <-]). apply time_add_later in Et; [|lia]. by exists t. Qed.
Lemma move_adds now s s' : move_coordinates_everest now s = Ret s' → ∃ t, adds now [(t, MoveCoordinates)] s s'.
Proof.
  unfold move_coordinates_everest. intros E. inv_ret E as ([s1 d] & E1 & E).
  assert (∃ n, F64.to_nanos d = Ret n ∧ 0 < n) as (n & Hn & Hpos).
  { destruct (movement_mode _ =? 2); [|destruct (movement_mode _ =? 1)]; [inv_ret E1 as (? & _ & [= _ <-])|injection E1 as _ <-..]; eexists; (split; [by vm_compute|done]). }
  assert (∃ c a g, s1 = set_place c a g s) as (c & a & g & ->).
  { destruct (movement_mode _ =? 2); [|destruct (movement_mode _ =? 1)]; [inv_ret E1 as (? & _ & [= <- _])|injection E1 as <- _..]; [by do 3 eexists| |by exists (sta_coordinates s), (current_angle s), (mobility_rng s); destruct s].
    unfold random_walk. repeat case_match; by do 3 eexists. }
rewrite Hn in E. cbn [mbind outcome_bind] in E. apply sched_ok in E as (t & Ht & ->); [|done]. exists t.
  destruct (negb _); split; cbn; rewrite ?omap_app, ?app_nil_r; try done; unfold sent, delivered; cbn; rewrite ?omap_app; cbn; rewrite ?app_nil_r; try done; try lia.
  all: apply Forall_singleton; cbn; lia.
Qed.
Lemma app_adds p now s s' : input_XR_app p now s = Ret s' → ∃ t,
  nanos t = nanos now + 10 ∧
  adds now [(t, SendPacketWireless (stamp (num_packets_sent s) (sta_id (conf s)) (destination_id (conf s)) (sta_coordinates s) p))] s s'.
Proof.
  unfold input_XR_app. intros E. inv_ret E as (s1 & E1 & E). apply sched_ok in E1 as (t & Ht & ->); [|done].
  inv_ret E as (n & En & [= <-]). exists t. split; [done|]. apply usize_inv in En as ->.
  split; try done; apply Forall_singleton; cbn; lia.
Qed.
Lemma air_adds a now s s' : input_wireless a now s = Ret s' →
  (if (am_dest_id a =? sta_id (conf s)) && negb (bool_decide (mpdu_packets a = [])) then
     ∃ t, nanos t = nanos now + 10 ∧ adds now [(t, ToAppSocketSend (mkTimedFrame (mpdu_packets a) now))] s s'
   else adds now [] s s').
Proof.
  unfold input_wireless. intros E. destruct (am_dest_id a =? _); cbn [andb].
  - inv_ret E as ([s1 b] & E1 & E). inv_ret E1 as (n & _ & [= <- <-]).
    destruct (mpdu_packets a); [injection E as <-|apply sched_ok in E as (t & Ht & ->); [|done]]; cbn.
    + split; try done; [by rewrite app_nil_r|cbn; lia].
    + exists t. split; [done|]. split; try done; [apply Forall_singleton; cbn; lia|cbn; lia].
  - injection E as <-. apply adds_refl.
Qed.
(** *** Background traffic *)
Definition active (c : StaConf T IP) : Prop := does_sta_tx c && is_bg_sta c = true ∧ 0 ≤ is_ul_bg c ≤ 2.
Definition ends (c : StaConf T IP) (q : Mpdu) : Prop :=
  (sta_src_id q, sta_dest_id q) = (sta_id c, destination_id c) ∨ (sta_src_id q, sta_dest_id q) = (destination_id c, sta_id c).
Lemma location_adds now s s' : report_location now s = Ret s' → adds now [] s s' ∧ num_packets_sent s' = num_packets_sent s ∧ sta_coordinates s' = sta_coordinates s.
Proof.
  unfold report_location. intros E. inv_ret E as (n & _ & E). inv_ret E as (d & _ & E). split_and!.
  all: repeat case_match; injection E as <-; try done; try apply adds_refl; split; try done; cbn; rewrite ?app_nil_r; try done; try lia.
  all: unfold sent, delivered; cbn; rewrite omap_app; cbn; by rewrite app_nil_r.
Qed.
Lemma adds_app now e1 e2 s1 s2 s3 : adds now e1 s1 s2 → adds now e2 s2 s3 → adds now (e1 ++ e2) s1 s3.
Proof.
  intros [A1 A2 A3 A4 A5 A6] [B1 B2 B3 B4 B5 B6]. split; try congruence; [|by apply Forall_app|].
  - by rewrite B2, A2, (assoc_L (++)).
  - rewrite B6, A6, omap_app, length_app. lia.
Qed.
Lemma bg_adds now s s' : send_packet_BG empty_payload now s = Ret s' →
  (adds now [] s s' ∧ ¬ active (conf s)) ∨
  ∃ t t' q, nanos t = nanos now + 10 ∧ packet_id q = num_packets_sent s ∧ ends (conf s) q ∧ is_bg_sta (conf s) = true ∧
    adds now [(t, SendPacketWireless q); (t', SendPacketBG)] s s'.
Proof.
  unfold send_packet_BG. intros E. destruct (does_sta_tx _ && is_bg_sta _) eqn:Ebg; [|injection E as <-; left; split; [apply adds_refl|by intros [? _]; congruence]].
  assert (∀ g o, bg_ends s = (o, g) → match o with Some (a, b) => (a, b) = (sta_id (conf s), destination_id (conf s)) ∨ (a, b) = (destination_id (conf s), sta_id (conf s)) | None => ¬ active (conf s) end) as Hends.
  { intros g o. unfold bg_ends, active. destruct (Z.eqb_spec (is_ul_bg (conf s)) 0); [|destruct (Z.eqb_spec (is_ul_bg (conf s)) 1); [|destruct (Z.eqb_spec (is_ul_bg (conf s)) 2)]].
    3: destruct (gen_bool _) as [[] ?]. all: intros [= <- <-]; auto. lia. }
  destruct (bg_ends s) as [[[src dest]|] g]; specialize (Hends _ _ eq_refl); [|injection E as <-; left; split; [apply adds_refl|done]].
  destruct (exponential _ g) as [e g']. inv_ret E as (d & Ed & E). inv_ret E as (s1 & E1 & E). inv_ret E as (s2 & E2 & E). inv_ret E as (n & En & E).
  apply location_adds in E1 as (A1 & N1 & C1). apply sched_ok in E2 as (t & Ht & ->); [|done]. apply sched_ok in E as (t' & Ht' & ->); [|lia].
  apply usize_inv in En as ->. right.
  eexists t, t', _. split_and!; [done| | | |].
  4:{ apply (adds_app now [] [_; _] s (set_num_packets_sent (num_packets_sent s) s1)).
      - destruct A1 as [B1 B2 B3 B4 B5 B6]. split; try done. cbn. lia.
      - cbn in N1. split; try done; cbn; [by rewrite <-(assoc_L (++))| |lia]. apply Forall_cons. split; [cbn; lia|]. apply Forall_singleton. cbn. lia. }
  all: cbn; try done. by apply andb_true_iff in Ebg as [_ ?].
Qed.

(** ** The invariant *)
Record core (c : StaConf T IP) (now : T) (ltx : list (T * Mpdu)) (lrx : list (T * TimedFrame T P)) s : Prop := mkCore {
  co_conf : conf s = c;
  co_due : due now s;
  co_tx : pipe now ltx (sent s) (omap net_event (events s));
  co_rx : pipe now lrx (delivered s) (omap app_event (events s));
  co_num : num_packets_sent s = Z.of_nat (length ltx)
}.
Lemma core_later c now now' ltx lrx s : nanos now ≤ nanos now' → due now' s → core c now ltx lrx s → core c now' ltx lrx s.
Proof. intros ?? []. split; try done; by eapply pipe_later. Qed.
Lemma core_adds c now ltx lrx evs s s' : core c now ltx lrx s → adds now evs s s' →
  Forall (λ a, nanos a.1 = nanos now + 10) (omap net_event evs) → Forall (λ a, nanos a.1 = nanos now + 10) (omap app_event evs) →
  core c now (ltx ++ omap net_event evs) (lrx ++ omap app_event evs) s'.
Proof.
  intros [C1 C2 C3 C4 C5] [A1 A2 A3 A4 A5 A6] Hn Ha. split.
  - congruence.
  - unfold due. rewrite A2. apply Forall_app. split; [done|]. eapply Forall_impl; [exact A5|]. cbn. lia.
  - rewrite A2, A3, omap_app. by apply pipe_put.
  - rewrite A2, A4, omap_app. by apply pipe_put.
  - rewrite A6, C5, length_app. lia.
Qed.
Lemma events_split i now e s : next_event i now e s →
  events s = take i (events s) ++ (now, e) :: drop (S i) (events s) ∧ Forall (λ x, nanos now ≤ nanos x.1 ∧ x.1 ≠ now) (take i (events s)).
Proof.
  intros (Hi & Hd & Hf). split; [by rewrite take_drop_middle|]. apply Forall_and. split; [|done]. by apply Forall_take.
Qed.
(** The events of one kind, when [f] keeps their time. *)
Lemma kind_before {A} (f : T * StaEvent T P → option (T * A)) now l : (∀ x y, f x = Some y → y.1 = x.1) →
  Forall (λ x : T * StaEvent T P, nanos now ≤ nanos x.1 ∧ x.1 ≠ now) l → Forall (λ y, nanos now ≤ nanos y.1 ∧ y.1 ≠ now) (omap f l).
Proof. intros Hf. induction 1 as [|x l Hx _ IH]; cbn; [done|]. destruct (f x) eqn:E; [|done]. constructor; [|done]. by rewrite (Hf _ _ E). Qed.
Lemma net_event_time x y : net_event x = Some y → y.1 = x.1.
Proof. destruct x as [? []]; naive_solver. Qed.
Lemma app_event_time x y : app_event x = Some y → y.1 = x.1.
Proof. destruct x as [? []]; naive_solver. Qed.
Lemma due_drop i now s : due now s → due now (drop_event i s).
Proof. intros Hd. unfold due. cbn. rewrite delete_take_drop. apply Forall_app. split; [by apply Forall_take|by apply Forall_drop]. Qed.
(** Both pipes after the next event. *)
Lemma core_run c now ltx lrx i e s : core c now ltx lrx s → next_event i now e s →
  core c now ltx lrx match e with
                     | SendPacketWireless p => send_packet_wireless p (drop_event i s)
                     | ToAppSocketSend f => to_app_socket_send f (drop_event i s)
                     | _ => drop_event i s
                     end.
Proof.
  intros [C1 C2 C3 C4 C5] Hn. pose proof (due_drop i _ _ C2) as Hd. apply events_split in Hn as [Ee Hb].
  pose proof (kind_before net_event _ _ net_event_time Hb) as Bn. pose proof (kind_before app_event _ _ app_event_time Hb) as Ba.
  rewrite Ee, omap_app in C3. rewrite Ee, omap_app in C4. destruct e as [p|f| |]; cbn in C3, C4.
  1: pose proof (pipe_first _ _ _ _ _ _ _ C3 Bn) as E0; rewrite E0 in C3; apply pipe_get in C3.
  2: pose proof (pipe_first _ _ _ _ _ _ _ C4 Ba) as E0; rewrite E0 in C4; apply pipe_get in C4.
  all: split; try done; unfold sent, delivered in *; cbn; rewrite delete_take_drop, ?omap_app; cbn; rewrite ?app_nil_r; try done.
  all: by rewrite E0.
Qed.

Definition bg_pending s : nat := length (omap bg_event (events s)).
Record sta_inv (c : StaConf T IP) (n : nat) (now : T) (ins : list (T * Input)) (ltx : list (T * Mpdu)) (lrx : list (T * TimedFrame T P)) s : Prop := mkInv {
  iv_core : core c now ltx lrx s;
  iv_ids : ∀ i t q, ltx !! i = Some (t, q) → packet_id q = Z.of_nat i ∧ ends c q;
  iv_app : is_bg_sta c = false → Forall2 (λ x y, nanos y.1 = nanos x.1 + 10 ∧
    ∃ place, y.2 = stamp (packet_id y.2) (sta_id c) (destination_id c) place x.2) (apps ins) ltx;
  iv_air : Forall2 (λ f y, nanos y.1 = nanos (timestamp f) + 10 ∧ y.2 = f) (frames (sta_id c) ins) lrx;
  iv_bg : active c → bg_pending s = n
}.
Lemma sta_inv_later c n now now' ins ltx lrx s : nanos now ≤ nanos now' → due now' s → sta_inv c n now ins ltx lrx s → sta_inv c n now' ins ltx lrx s.
Proof. intros ?? []. split; try done. by eapply core_later. Qed.
Lemma ids_snoc c (ltx : list (T * Mpdu)) t q : (∀ i t q, ltx !! i = Some (t, q) → packet_id q = Z.of_nat i ∧ ends c q) → packet_id q = Z.of_nat (length ltx) → ends c q →
  ∀ i t' q', (ltx ++ [(t, q)]) !! i = Some (t', q') → packet_id q' = Z.of_nat i ∧ ends c q'.
Proof.
  intros Hl Hq He i t' q' Hi. apply lookup_app_Some in Hi as [Hi|[Hi E]]; [by eapply Hl|].
  destruct (i - length ltx)%nat eqn:Ei; [|done]. injection E as <- <-. split; [|done]. rewrite Hq. f_equal. lia.
Qed.
Lemma bg_pending_adds now evs s s' : adds now evs s s' → bg_pending s' = (bg_pending s + length (omap bg_event evs))%nat.
Proof. intros [_ E _ _ _ _]. unfold bg_pending. by rewrite E, omap_app, length_app. Qed.
(** A handler that only schedules: movement, or the background source. *)
Lemma inv_handle c n now ins ltx lrx e s s' : sta_inv c n now ins ltx lrx s → e = SendPacketBG ∨ e = MoveCoordinates →
  handle empty_payload e now s = Ret s' → ∃ ltx', sta_inv c (n + bg_starts e) now ins ltx' lrx s'.
Proof.
  intros [Hc Hi Ha Hr Hb] He E. pose proof (co_conf _ _ _ _ _ Hc) as Hcf. pose proof (co_num _ _ _ _ _ Hc) as Hnum. destruct He as [-> | ->]; cbn in E.
  - apply bg_adds in E as [[A Hna]|(t & t' & q & Ht & Hq & Hends & Hbg & A)]; rewrite Hcf in *.
    + exists ltx. pose proof (core_adds _ _ _ _ _ _ _ Hc A ltac:(constructor) ltac:(constructor)) as Hc'. cbn in Hc'. rewrite !app_nil_r in Hc'. by split.
    + exists (ltx ++ [(t, q)]). pose proof (core_adds _ _ _ _ _ _ _ Hc A ltac:(by apply Forall_singleton) ltac:(constructor)) as Hc'. cbn in Hc'.
      rewrite app_nil_r in Hc'. split; try done; [apply ids_snoc; [done|lia|done]|congruence|].
      intros Hact. rewrite (bg_pending_adds _ _ _ _ A), (Hb Hact). done.
  - apply move_adds in E as [t A]. exists ltx. pose proof (core_adds _ _ _ _ _ _ _ Hc A ltac:(constructor) ltac:(constructor)) as Hc'. cbn in Hc'.
    rewrite !app_nil_r in Hc'. split; try done. intros Hact. rewrite (bg_pending_adds _ _ _ _ A), (Hb Hact). done.
Qed.
Lemma bg_pending_drop i now e s : next_event i now e s → bg_pending s = (bg_pending (drop_event i s) + bg_starts e)%nat.
Proof.
  intros Hn. destruct (events_split _ _ _ _ Hn) as [Ee _]. unfold bg_pending. rewrite Ee at 1. cbn. rewrite delete_take_drop, !omap_app, !length_app.
  destruct e; cbn; lia.
Qed.
Lemma inv_run c n now ins ltx lrx i e s s' : sta_inv c n now ins ltx lrx s → next_event i now e s →
  handle empty_payload e now (drop_event i s) = Ret s' → ∃ ltx', sta_inv c n now ins ltx' lrx s'.
Proof.
  intros [Hc Hi Ha Hr Hb] Hn E. pose proof (core_run _ _ _ _ _ _ _ Hc Hn) as Hc'. pose proof (bg_pending_drop _ _ _ _ Hn) as Hp.
  destruct e as [p|f| |]; cbn [bg_starts] in Hp.
  1,2: injection E as <-; exists ltx; split; try done; intros Hact; rewrite <-(Hb Hact), Hp; symmetry; apply Nat.add_0_r.
  - destruct (inv_handle c (n - 1) now ins ltx lrx SendPacketBG (drop_event i s) s') as [ltx' Hinv]; [|by left|done|].
    { split; try done. intros Hact. specialize (Hb Hact). lia. }
    exists ltx'. destruct Hinv as [I1 I2 I3 I4 I5]. split; try done. intros Hact. rewrite (I5 Hact), <-(Hb Hact), Hp. cbn. lia.
  - destruct (inv_handle c n now ins ltx lrx MoveCoordinates (drop_event i s) s') as [ltx' Hinv]; [|by right|done|].
    { split; try done. intros Hact. specialize (Hb Hact). lia. }
    exists ltx'. cbn in Hinv. by rewrite Nat.add_0_r in Hinv.
Qed.
Lemma apps_snoc ins x : apps (ins ++ [x]) = apps ins ++ apps [x].
Proof. apply omap_app. Qed.
Lemma frames_snoc id ins x : frames id (ins ++ [x]) = frames id ins ++ frames id [x].
Proof. apply omap_app. Qed.
Lemma inv_app c n now ins ltx lrx p s s' : sta_inv c n now ins ltx lrx s → input_XR_app p now s = Ret s' →
  ∃ ltx', sta_inv c n now (ins ++ [(now, FromApp p)]) ltx' lrx s'.
Proof.
  intros [Hc Hi Ha Hr Hb] (t & Ht & A)%app_adds. rewrite (co_conf _ _ _ _ _ Hc) in A. pose proof (co_num _ _ _ _ _ Hc) as Hnum.
  pose proof (core_adds _ _ _ _ _ _ _ Hc A ltac:(by apply Forall_singleton) ltac:(constructor)) as Hc'. cbn in Hc'. rewrite app_nil_r in Hc'.
  eexists. split; [exact Hc'|..].
  - apply ids_snoc; [done|done|by left].
  - intros Hbg. rewrite apps_snoc. apply Forall2_app; [auto|]. constructor; [|constructor]. split; [done|]. by eexists.
  - rewrite frames_snoc. cbn. by rewrite app_nil_r.
  - intros Hact. rewrite (bg_pending_adds _ _ _ _ A), (Hb Hact). apply Nat.add_0_r.
Qed.
Lemma inv_air c n now ins ltx lrx a s s' : sta_inv c n now ins ltx lrx s → input_wireless a now s = Ret s' →
  ∃ lrx', sta_inv c n now (ins ++ [(now, FromAir a)]) ltx lrx' s'.
Proof.
  intros [Hc Hi Ha Hr Hb] E%air_adds. rewrite (co_conf _ _ _ _ _ Hc) in E.
  assert (∃ evs, adds now evs s s' ∧ omap net_event evs = [] ∧ omap bg_event evs = [] ∧ Forall (λ a, nanos a.1 = nanos now + 10) (omap app_event evs) ∧
    Forall2 (λ f y, nanos y.1 = nanos (timestamp f) + 10 ∧ y.2 = f) (frames (sta_id c) [(now, FromAir a)]) (omap app_event evs)) as (evs & A & En & Eb & Ea & Ef).
  { unfold frames. cbn [omap list_omap]. destruct (_ && _).
    - destruct E as (t & Ht & A). eexists. split; [exact A|]. cbn. split_and!; try done; [by apply Forall_singleton|]. by repeat constructor.
    - exists []. split_and!; try done. }
  exists (lrx ++ omap app_event evs). pose proof (core_adds _ _ _ _ _ _ _ Hc A ltac:(by rewrite En) Ea) as Hc'. rewrite En, app_nil_r in Hc'.
  split; [done|done|..].
  - intros Hbg. rewrite apps_snoc. cbn. rewrite app_nil_r. auto.
  - rewrite frames_snoc. by apply Forall2_app.
  - intros Hact. rewrite (bg_pending_adds _ _ _ _ A), (Hb Hact), Eb. apply Nat.add_0_r.
Qed.
Lemma sta_reach_inv c n now ins s : reach c n now ins s → ∃ ltx lrx, sta_inv c n now ins ltx lrx s.
Proof.
  induction 1 as [now s ? Hn He Ho|n now now' ins e s s' _ (ltx & lrx & IH) Ht Hd He E|n now now' ins i e s s' _ (ltx & lrx & IH) Ht Hne E|n now now' ins p s s' _ (ltx & lrx & IH) Ht Hd E|n now now' ins a s s' _ (ltx & lrx & IH) Ht Hd E].
  - exists [], []. split; try done; [|by unfold bg_pending; rewrite He]. split; try done; [by unfold due; rewrite He|..].
    all: unfold sent, delivered; rewrite He, Ho; apply pipe_empty.
  - eapply sta_inv_later in IH; [|done..]. destruct (inv_handle _ _ _ _ _ _ _ _ _ IH He E) as [ltx' ?]. by exists ltx', lrx.
  - eapply sta_inv_later in IH; [|done|by destruct Hne as (_ & ? & _)]. destruct (inv_run _ _ _ _ _ _ _ _ _ _ IH Hne E) as [ltx' ?]. by exists ltx', lrx.
  - eapply sta_inv_later in IH; [|done..]. destruct (inv_app _ _ _ _ _ _ _ _ _ IH E) as [ltx' ?]. by exists ltx', lrx.
  - eapply sta_inv_later in IH; [|done..]. destruct (inv_air _ _ _ _ _ _ _ _ _ IH E) as [lrx' ?]. by exists ltx, lrx'.
Qed.

(** *** Theorems *)
Lemma pipe_out {A} now (log : list (T * A)) out wait i a : pipe now log out wait → out !! i = Some a → ∃ t, log !! i = Some (t, a).
Proof.
  intros [(gone & -> & ->) _ _] Hi. rewrite list_lookup_fmap in Hi. destruct (gone !! i) as [[t b]|] eqn:E; [|done]. injection Hi as <-.
  exists t. by apply lookup_app_l_Some.
Qed.
Lemma due_kind {A} (f : T * StaEvent T P → option (T * A)) now s : (∀ x y, f x = Some y → y.1 = x.1) → due now s →
  Forall (λ y, nanos now ≤ nanos y.1) (omap f (events s)).
Proof. intros Hf. unfold due. induction 1 as [|x l Hx _ IH]; cbn; [done|]. destruct (f x) eqn:E; [|done]. constructor; [|done]. by rewrite (Hf _ _ E). Qed.

(** C39: A station is two queues with a delay of 10 ns.  Of a station that generates no traffic of its own, the
    packets sent to the network are those of its host in their order, the [i]-th with number [i] and the
    station's ends; what its host gets are the non-empty A-MPDUs addressed to it, whole and in their
    order, with the time of their reception; and whatever came in more than 10 ns ago has gone out. *)
Theorem station_in_order c n now ins s : reach c n now ins s → is_bg_sta c = false →
  (∀ i q, sent s !! i = Some q → ∃ t p place, apps ins !! i = Some (t, p) ∧ q = stamp (Z.of_nat i) (sta_id c) (destination_id c) place p) ∧
  (∀ i t p, apps ins !! i = Some (t, p) → nanos t + 10 < nanos now → is_Some (sent s !! i)) ∧
  (∀ i f, delivered s !! i = Some f → frames (sta_id c) ins !! i = Some f) ∧
  (∀ i f, frames (sta_id c) ins !! i = Some f → nanos (timestamp f) + 10 < nanos now → is_Some (delivered s !! i)).
Proof.
  intros Hr Hbg. destruct (sta_reach_inv _ _ _ _ _ Hr) as (ltx & lrx & [[C1 C2 C3 C4 C5] Hi Ha Hf _]). specialize (Ha Hbg).
  pose proof (due_kind net_event _ _ net_event_time C2) as Dn. pose proof (due_kind app_event _ _ app_event_time C2) as Da. split_and!.
  - intros i q Hq. destruct (pipe_out _ _ _ _ _ _ C3 Hq) as [t Hl]. destruct (Hi _ _ _ Hl) as [Hid _].
    destruct (Forall2_lookup_r _ _ _ _ _ Ha Hl) as ([t0 p] & Hp & _ & place & E). cbn in E. rewrite Hid in E. by exists t0, p, place.
  - intros i t p Hp Ht. destruct (Forall2_lookup_l _ _ _ _ _ Ha Hp) as ([t' q] & Hq & Ht' & _). cbn in *. exists q. eapply pipe_left; [done..|lia].
  - intros i f Hd. destruct (pipe_out _ _ _ _ _ _ C4 Hd) as [t Hl]. by destruct (Forall2_lookup_r _ _ _ _ _ Hf Hl) as (f' & ? & _ & [= ->]).
  - intros i f Hl Ht. destruct (Forall2_lookup_l _ _ _ _ _ Hf Hl) as ([t' f'] & Hq & Ht' & _). cbn in *. exists f'. eapply pipe_left; [done..|lia].
Qed.

(** Whatever a station does, its packets leave with the numbers 0, 1, 2, ... and the station at one end: no two
    of them have the same number. *)
Theorem numbers_consecutive c n now ins s : reach c n now ins s →
  packet_id <$> sent s = Z.of_nat <$> seq 0 (length (sent s)) ∧ Forall (ends c) (sent s) ∧ NoDup (packet_id <$> sent s).
Proof.
  intros Hr. destruct (sta_reach_inv _ _ _ _ _ Hr) as (ltx & lrx & [[C1 C2 C3 C4 C5] Hi _ _ _]).
  assert (∀ i q, sent s !! i = Some q → packet_id q = Z.of_nat i ∧ ends c q) as Hs.
  { intros i q Hq. destruct (pipe_out _ _ _ _ _ _ C3 Hq) as [t Hl]. by eapply Hi. }
  assert (packet_id <$> sent s = Z.of_nat <$> seq 0 (length (sent s))) as E.
  { apply list_eq. intros i. rewrite !list_lookup_fmap. destruct (sent s !! i) as [q|] eqn:Eq.
    - rewrite lookup_seq_lt by by eapply lookup_lt_Some. cbn. f_equal. by apply Hs.
    - rewrite lookup_seq_ge by by apply lookup_ge_None. done. }
  split_and!; [done| |].
  - apply Forall_lookup. intros i q Hq. by eapply Hs.
  - rewrite E. apply NoDup_fmap_2; [|apply NoDup_seq]. intros x y. lia.
Qed.

(** A background source that was started once has always exactly one packet to come, not in the past. *)
Theorem background_never_stops c now ins s : reach c 1 now ins s → active c →
  ∃ t, omap bg_event (events s) = [t] ∧ nanos now ≤ nanos t.
Proof.
  intros Hr Hact. destruct (sta_reach_inv _ _ _ _ _ Hr) as (ltx & lrx & [[C1 C2 C3 C4 C5] _ _ _ Hb]). specialize (Hb Hact). unfold bg_pending in Hb.
  destruct (omap bg_event (events s)) as [|t [|]] eqn:E; try done. exists t. split; [done|].
  assert (t ∈ omap bg_event (events s)) as Hin by (rewrite E; apply list_elem_of_singleton; done).
  apply list_elem_of_omap in Hin as ([t' e] & Hin & He). destruct e; try done. injection He as ->.
  unfold due in C2. rewrite Forall_forall in C2. by apply C2 in Hin.
Qed.

(** The draw of the time between packets can be 0, whose logarithm is minus infinity: the source panics. *)
Theorem zero_draw_panics now s : active (conf s) → ln F64.zero = F64Ops.neg_infinity →
  (gen_range F64.zero (F64.of_Z 1) (bg_ends s).2).1 = F64.zero →
  send_packet_BG empty_payload now s = Panic.
Proof.
  intros [Hact Hm] Hln Hg. unfold send_packet_BG. rewrite Hact. destruct (bg_ends s) as [[[src dest]|] g] eqn:Ee.
  2:{ exfalso. unfold bg_ends in Ee. destruct (Z.eqb_spec (is_ul_bg (conf s)) 0); [done|]. destruct (Z.eqb_spec (is_ul_bg (conf s)) 1); [done|].
      destruct (Z.eqb_spec (is_ul_bg (conf s)) 2); [by destruct (gen_bool _)|lia]. }
  unfold exponential. cbn in Hg. destruct (gen_range _ _ g) as [u g']. cbn in Hg. subst u. rewrite Hln.
  by destruct (F64.div _ _) as [[]|[]| |[] m e].
Qed.

(** ** The sink counts every packet of every A-MPDU *)
Lemma sink_counts_loop data_inner (now : T) (l : list Mpdu) k k' :
  foldl (λ k p, k ← k; sink_packet data_inner now k p) (Ret k) l = Ret k' →
  sink_received k' = sink_received k + Z.of_nat (length l) ∧
  rx_packets_counter (mutex_data k') = rx_packets_counter (mutex_data k) + Z.of_nat (length l) ∧
  Forall (λ p, nanos (queue_in_instant p) ≤ nanos now) l.
Proof.
  revert k. induction l as [|p l IH]; intros k E; cbn [foldl] in E.
  { injection E as <-. split_and!; [cbn; lia..|constructor]. }
  destruct (Ret k ≫= λ k, sink_packet data_inner now k p) as [k1| |] eqn:E1; [|exfalso; clear -E; by induction l..].
  destruct (IH _ E) as (I1 & I2 & I3). cbn in E1. unfold sink_packet in E1. inv_ret E1 as ([] & _ & E1). inv_ret E1 as (d & Ed & E1).
  inv_ret E1 as (rx & Hrx%usize_inv & E1). inv_ret E1 as (n & Hn%usize_inv & [= <-]). cbn in I1, I2. split_and!; [cbn; lia..|]. constructor; [|done].
  unfold Abr.since in Ed. case_match eqn:Hle; [|done]. by apply time_le_spec.
Qed.
Theorem sink_counts data_inner (a : Ampdu) (now : T) k k' : sink_input data_inner a now k = Ret k' →
  sink_received k' = sink_received k + Z.of_nat (length (mpdu_packets a)) ∧
  rx_packets_counter (mutex_data k') = rx_packets_counter (mutex_data k) + Z.of_nat (length (mpdu_packets a)) ∧
  Forall (λ p, nanos (queue_in_instant p) ≤ nanos now) (mpdu_packets a).
Proof. apply sink_counts_loop. Qed.
End facts.
End StationFacts.

(** ** A station that runs *)
Module StationDemo.
Import MacData Station StationFacts.
#[local] Instance Epoch_demo : Edca.Epoch mono := mono_of 0.
#[local] Instance demo_draws : Draws nat := {|
  seed_from_u64 := Z.to_nat;
  gen_bool g := (Nat.even (Nat.div2 g), S g);
  gen_range lo hi g := (F64.div hi (F64.of_Z 2), S g);
  gen_range_sim lo hi g := (lo, g)
|}.
#[local] Instance demo_libm : Libm := {|
  ln _ := F64Ops.neg (F64.lit 7 10);
  sin x := x;
  cos _ := F64.of_Z 1;
  atan2 x _ := x;
  powi x _ := F64.mul x x
|}.
Definition place : Coords := mkCoords (F64.of_Z 3) (F64.of_Z 4) F64.zero.
Definition sta0 : STA_extended mono Z Z nat :=
  sta_new F64.zero 201 101 place true (mono_of 0) false F64.zero 0 origin 42 0 false 7 (Rng.new 1).
Definition get_sta (o : outcome (STA_extended mono Z Z nat)) : STA_extended mono Z Z nat := match o with Ret s => s | _ => sta0 end.
Definition packet (v : Z) : MpduPacket mono Z := set_length 8000 (mpdu_new v).
Definition ampdu (dest : Z) (l : list (MpduPacket mono Z)) : AmpduPacket mono Z :=
  mkAmpdu l 0 F64.zero 101 dest 0 origin (0, Edca.BestEffort, 0) 0 0.
Definition mine : AmpduPacket mono Z := ampdu 201 [packet 1; packet 2].
Definition sta1 := get_sta (input_XR_app (packet 5) (mono_of 5) sta0).
Definition sta2 := get_sta (input_wireless mine (mono_of 6) sta1).
Definition sta3 := get_sta (input_wireless (ampdu 202 [packet 3]) (mono_of 6) sta2).
Definition sta4 := get_sta (handle 0 (SendPacketWireless (stamp 0 201 101 place (packet 5))) (mono_of 15) (drop_event 0 sta3)).
Definition sta5 := get_sta (handle 0 (ToAppSocketSend (mkTimedFrame [packet 1; packet 2] (mono_of 6))) (mono_of 16) (drop_event 0 sta4)).
Definition sta6 := get_sta (input_XR_app (packet 6) (mono_of 20) sta5).
Abbreviation Handed := (list (mono * Input (T := mono) (P := Z))).
Definition handed1 : Handed := [] ++ [(mono_of 5, FromApp (packet 5))].
Definition handed2 : Handed := handed1 ++ [(mono_of 6, FromAir mine)].
Definition handed3 : Handed := handed2 ++ [(mono_of 6, FromAir (ampdu 202 [packet 3]))].
Definition handed : Handed := handed3 ++ [(mono_of 20, FromApp (packet 6))].
Ltac due_now := vm_compute; repeat constructor; discriminate.
Ltac next_now := split_and!; [vm_compute; reflexivity|due_now|constructor].
Lemma sta_reach6 : reach 0 (conf sta0) 0 (mono_of 20) handed sta6.
Proof.
  assert (reach 0 (conf sta0) 0 (mono_of 0) [] sta0) as R0 by by apply Created.
  pose proof (FromHost 0 (conf sta0) 0 _ (mono_of 5) _ (packet 5) sta0 sta1 R0 ltac:(vm_compute; done) ltac:(due_now) ltac:(vm_compute; reflexivity)) as R1.
  pose proof (FromAp 0 (conf sta0) 0 _ (mono_of 6) _ mine sta1 sta2 R1 ltac:(vm_compute; done) ltac:(due_now) ltac:(vm_compute; reflexivity)) as R2.
  pose proof (FromAp 0 (conf sta0) 0 _ (mono_of 6) _ (ampdu 202 [packet 3]) sta2 sta3 R2 ltac:(vm_compute; done) ltac:(due_now) ltac:(vm_compute; reflexivity)) as R3.
  pose proof (Runs 0 (conf sta0) 0 _ (mono_of 15) _ 0 (SendPacketWireless (stamp 0 201 101 place (packet 5))) sta3 sta4 R3 ltac:(vm_compute; done) ltac:(next_now) ltac:(vm_compute; reflexivity)) as R4.
  pose proof (Runs 0 (conf sta0) 0 _ (mono_of 16) _ 0 (ToAppSocketSend (mkTimedFrame [packet 1; packet 2] (mono_of 6))) sta4 sta5 R4 ltac:(vm_compute; done) ltac:(next_now) ltac:(vm_compute; reflexivity)) as R5.
  exact (FromHost 0 (conf sta0) 0 _ (mono_of 20) _ (packet 6) sta5 sta6 R5 ltac:(vm_compute; done) ltac:(due_now) ltac:(vm_compute; reflexivity)).
Qed.
Lemma station_in_order_witness : is_Some (sent sta6 !! 0%nat) ∧
  delivered sta6 = [mkTimedFrame [packet 1; packet 2] (mono_of 6)] ∧ frames 201 handed !! 0%nat = Some (mkTimedFrame [packet 1; packet 2] (mono_of 6)).
Proof.
  destruct (station_in_order 0 (conf sta0) 0 (mono_of 20) handed sta6 sta_reach6 eq_refl) as (_ & Hs & Hf & _).
  split_and!.
  - apply (Hs 0%nat (mono_of 5) (packet 5)); [reflexivity|]. vm_compute. reflexivity.
  - vm_compute. reflexivity.
  - apply Hf. vm_compute. reflexivity.
Defined.

(** A background source: three packets, the fourth pending. *)
Definition bg0 : STA_extended mono Z Z nat :=
  sta_new (F64.of_Z 12000) 151 251 place true (mono_of 0) true (F64.of_Z 1000) 2 origin 42 0 true 7 (Rng.new 1).
Fixpoint bg_calls (n : nat) (now : Z) (s : STA_extended mono Z Z nat) : outcome (STA_extended mono Z Z nat) :=
  match n with O => Ret s | S n => s ← send_packet_BG 0 (mono_of now) s; bg_calls n (now + 10 ^ 6) s end.
Example bg_three : (λ s, (num_packets_sent s, (λ x, (packet_id x.2, sta_src_id x.2, length_packet_bits x.2)) <$> omap net_event (events s))) <$> bg_calls 3 (10 ^ 9) bg0
  = Ret (3, [(0, 151, 12000); (1, 251, 12000); (2, 151, 12000)]).
Proof. vm_compute. reflexivity. Qed.
(** The scripted walk: near, half-way out, far, half-way back, near again; and before its start. *)
Example radial_phases : (λ t, F64.mul (radial_test_distance (F64.of_Z t)) (F64.of_Z 4)) <$> [0; 65; 120; 175; 230; 240; -5] = F64.of_Z <$> [6; 43; 80; 43; 6; 6; 6].
Proof. vm_compute. reflexivity. Qed.
End StationDemo.
